(* ===== verification/_CoqProject ===== *)
-Q . S2P
Prelude.v
CTypes.v
Machine.v
Stats.v
StatsConc.v
Resources.v
RpcInit.v
Endpoint.v
Connection.v
Payload.v
Send.v
InFlight.v
Epoch.v
Fom.v
M0Init.v
HaState.v
Confc.v
ForkM0OS.v
HaLife.v
Bindings.v
Library.v
Typing.v
LibraryImpl.v
Clients.v
Programs.v
Threads.v
EpochTest.v
Test4.v
BusyWait.v
Paxos.v
PaxosSync.v
PaxosNet.v
PaxosSafety.v
PaxosAgreement.v
PaxosQuery.v
PaxosLive.v
Replica.v
ReplicaSys.v
ReplicaSafety.v
ReplicaAgreement.v
ReplicaLive.v
Proposer.v
Batcher.v
Ambassador.v
Multimap.v
Graph.v
GraphOps.v
GraphSpec.v
GraphMerge.v
GraphSync.v
EventQueue.v
EventPoller.v
CommandPort.v
