(* ===== verification/Prelude.v ===== *)
(** * Halon: the C layer, consensus, the replicated log and the state kept in it

    Halon is a cluster manager for the Mero object store. It is written in
    Haskell on top of a layer of C that talks to Mero, and keeps its state
    replicated by consensus. This development verifies the C layer, the consensus
    protocol, the log that is replicated with it, and what is kept in that log:

    - rpclite (src/rpclite/rpclite): a small messaging library over Mero's RPC.
      A process calls [rpc_init], opens endpoints ([rpc_create_endpoint],
      [rpc_listen]), connects ([rpc_connect]), sends messages made of segments
      ([rpc_send_blocking], [rpc_send] with a reply callback) or epochs
      ([rpc_send_epoch_blocking]); for every request that arrives Mero creates a
      fom (rpclite_fom.c) that runs the receive callback and posts the reply.
    - the HA state interface (src/mero-halon/hastate): callbacks through which
      Mero reports entrypoint requests, links and messages, and functions that
      send notifications back. It uses the process-wide interface that
      src/rpclite/rpclite/m0init.c creates, as does src/confc/confc_helpers.c.
    - src/rpclite/rpclite/forkm0os.c: threads registered with Mero that run an
      action of the Haskell runtime.
    - Basic Paxos (src/consensus-paxos, with src/consensus): acceptors that
      promise, vote, trim, synchronise and answer queries, and [propose], which
      gets one value agreed on per decree.
    - the replicated log (src/replicated-log): replicas that execute the agreed
      decrees in order, keep them on disk until a snapshot covers them, ask each
      other for what they miss, hold leases and change their membership; beside
      each replica a proposer process, beside the leader a batcher of requests,
      beside the clients ambassadors; and on top of it replicated state, changed
      and read by commands (State.hs).
    - the multimap, the resource graph and the event queue (src/halon): the two
      replicated states of a Halon cluster and the processes around them. The
      recovery coordinator keeps its knowledge in a graph of resources, whose
      changes are logged and written to the multimap; events wait in the queue
      until the coordinator has handled them.

    ** How the code is modelled

    Mero, libc and the callbacks of the caller are not part of the repository.
    They are the parameter [Env] of Machine.v, an arbitrary reaction to calls:
    every call the sources make is a constructor of [call], answered by the
    environment with a value of its C type and recorded, with the answer, in a
    trace. The C functions are functions of the monad [M] over the process
    state: the heap of the objects the code allocates, the globals, Mero's
    state and the trace. They are total and executable; the result is a value,
    a failed assertion, [exit], or [Undefined] (use of a dangling or [NULL]
    pointer, a copy outside an array, a division by zero). Integers have the
    width of the C type. A theorem that needs documented behaviour of Mero says
    so in a hypothesis: [put_is_last] and [machine_keeps_reqh] (together the
    class [MeroKeeps]), [init_out], [payload_encoding], and the classes [Mutex]
    and [Reliable] (memory is available and Mero initialises what it is asked
    to), with instances. Everything else holds for every environment. [wp m Q w] is total correctness: run from [w], [m] ends with a
    result and a world in [Q].

    The Haskell code of Basic Paxos does not touch Mero and is modelled as it
    is written: the acceptor as a function from its state and a message to its
    next state and the messages it sends, a call of [propose] as a state
    machine, and the system as a step relation over acceptors, calls and
    messages under way, which are delayed, reordered and lost but not duplicated
    (Quorum.hs relies on that). The relation has an executable form ([exec]),
    with which the example runs are computed.

    The replicated log is modelled in the same way: a replica is a function from
    its state and a message to its next state and a list of effects, in the order
    of the code ([turn] of Replica.v, with a definition per clause of [goNext]);
    so are the proposer, the batcher and the ambassador. The clock, the decisions
    of the snapshot policy and the results of awaited calls are inputs of a turn.
    A group of replicas is a step relation (ReplicaSys.v) in which messages are
    delayed, reordered and lost, persistence operations run later and in any
    order, snapshots are dumped at any time and replicas crash and start from
    their disks. There, consensus is an interface: [decided] gives one value for
    each decree, that is for each legislature and number, as Paxos does; proposers
    report it, for reachable and unreachable decrees, or return the request
    ([proposer_external] discharges this for Proposer.v, from the same assumption
    on workers), and recovery finds decided values at the acceptors. The class
    [Consensus] has what the code takes for granted in its note on teleportation:
    reachable decrees inhabit all legislatures, and a reconfiguration opens no
    legislature beyond the next one.
    Restoring a dumped snapshot gives the state that was dumped, and nullipotent
    requests leave the state alone, as the callbacks of [Log] are documented.

    The graph and the multimap are pure functions and are modelled as such; what
    the group answers, and how often a request is repeated, are inputs. A
    resource is a value that has a type, a relation is given by its type; the
    encodings are parameters, with the decodings as their inverses. The event
    queue is a state machine whose steps are the rules of its process and the
    turns of the poller; its two maps refine a list.

    ** The files

    - Prelude.v: wrap-around, lists, closures of step relations, tactics.
    - CTypes.v: pointers with member paths ([container_of] is computed), the
      structs, enumerations and constants of the sources.
    - Machine.v: calls, environments, the monad, weakest-precondition rules and
      the symbolic execution tactics; Resources.v: which Mero objects a trace
      has acquired and not released.
    - Stats.v: the statistics of rpclite.c ([rpc_stat_init] ..
      [add_rpc_stat_record]); StatsConc.v: the same with threads, one memory
      access at a time under the mutex.
    - RpcInit.v: rpclite_fop.c, [rpc_init], [rpc_fini].
    - Endpoint.v: [rpc_create_endpoint], [rpc_destroy_endpoint], [rpc_listen].
    - Connection.v: [rpc_connect], [rpc_connect_rpc_machine], [rpc_disconnect],
      [rpc_release_connection], [client_fini].
    - Payload.v: [fill_rpclite_fop] and the accessors of received items.
    - Send.v: [rpc_send_fop_blocking_and_release], [rpc_send_blocking],
      [rpc_send], [rpclite_replied] and the release function; InFlight.v: sends
      and replies interleaved.
    - Epoch.v: [rpc_send_epoch_blocking], alone, in sequence and with threads.
    - Fom.v: rpclite_fom.c.
    - M0Init.v, HaState.v, Confc.v: m0init.c, hastate.c, confc_helpers.c;
      HaLife.v: the life cycle of the interface they share.
    - ForkM0OS.v: forkm0os.c.
    - Bindings.v: the part of the Haskell bindings
      (src/rpclite/Network/RPC/RPCLite.hsc) that lays out messages for C, reads
      them back and decodes results.
    - Library.v: rpclite as its clients see it. An abstract state, the
      operations of rpclite.h with when they may be used ([legal]), their
      possible outcomes ([outcome]) and why they may not return ([excused]); the
      class [RpcLite] is the interface, and [awp] the logic in which clients are
      verified against it. LibraryImpl.v: the C functions implement it.
      Typing.v: they respect the types of C. Clients.v: the rules for clients
      on a working system.
    - Programs.v: main of test2.c, test3.c, test7.c and test9.c; Threads.v:
      pools of threads and of Mero's answers, interleaved; EpochTest.v, Test4.v:
      test-epoch.c and test4.c; BusyWait.v: test.c, with its busy loop.
    - Paxos.v: ballots, decrees, messages, the acceptor and the intervals of
      decrees (Paxos.hs, Messages.hs, Types.hs, Consensus.hs, Lifted.hs);
      PaxosSync.v: synchronisation; PaxosNet.v: [scout], [command], [retry],
      [propose], [query] and the system (BasicPaxos.hs, Quorum.hs);
      PaxosSafety.v: its invariant; PaxosAgreement.v, PaxosQuery.v, PaxosLive.v:
      what follows from it.
    - Replica.v: the loop of a replica, its store and its start (Log/Internal.hs,
      Log/Messages.hs); ReplicaSys.v: a group of them; ReplicaSafety.v: what every
      handler preserves; ReplicaAgreement.v: what follows for a group;
      ReplicaLive.v: how a replica catches up.
    - Proposer.v: [proposer]; Batcher.v: Process/Batcher.hs and [sendBatch];
      Ambassador.v: [ambassador]; CommandPort.v: State.hs.
    - Multimap.v: Multimap.hs, Multimap/Implementation.hs and the loop of
      Multimap/Process.hs. Graph.v: ResourceGraph/GraphLike.hs and
      ResourceGraph.hs; GraphOps.v: what each operation does to nodes and edges;
      GraphSpec.v: the abstract graph; GraphMerge.v: merging, and what holds of all
      graphs; GraphSync.v: the
      change log and the multimap behind the graph.
    - EventQueue.v: the replicated state of EventQueue/Process.hs as a queue;
      EventPoller.v: its rules and the poller.

    ** What the theorems show

    - Sending: a send posts at most one item, which carries the segments in
      order and the caller's callback, context and connection, or frees what it
      allocated; the reply handler makes one callback with the right status.
      For every interleaving of sends and replies the callbacks made and the
      messages in flight are together the accepted sends, messages in flight
      are live, nothing else is allocated, and every message in flight can be
      answered ([callbacks_exactly_once], [inflight_memory],
      [inflight_drains]).
    - Payload: gathering the segments and reading the fragment back gives the
      concatenation, below the bound of an [int]; beyond it the copy leaves the
      array ([payload_roundtrip], [fill_rpclite_fop_overflow]).
    - From Haskell to Haskell: a list of byte strings sent by one program is
      read by the other as their concatenation; results are decoded faithfully
      except in the reply callback.
    - Receiving: each request is delivered once, in order, answered iff it was
      accepted, and its fom is finalised and freed.
    - Resources: [rpc_init], endpoints and connections either give the objects
      their clean-up expects or report an error; create/destroy pairs leave
      nothing behind; the error paths that do leave something behind are stated
      exactly.
    - Statistics: count, total, maximum and average are exact until a counter
      wraps; concurrent updates are linearizable and complete.
    - Epochs: a sequence of calls transmits the running maxima only; threads
      cannot go below the starting value but can undo each other.
    - HA interface: dispatch refines its table of handlers, messages carry what
      they should, Mero's protocol is respected in every interleaving and no
      operation gets stuck.
    - Threads: every action runs once and is freed once.
    - The library as a whole: every operation, and every answer of Mero to a
      message in flight, refines the specification ([library_refines]); so any
      client that closes what it opens leaves the process as it found it, but
      for what failed operations leak ([tidy_clients_restore]). Every operation,
      in any state, keeps stored integers in the range of their C types and the
      data of fops of the type they announce ([operations_well_typed]).
    - Threads on a shared endpoint: whatever the interleaving, each thread can
      go on, and when all are done every connection is closed
      ([threads_close_connections]); runs are bounded ([pools_terminate]) and
      the largest epoch is reached ([threads_reach_top_epoch]).
    - Whole programs: what each of the seven test programs sends, prints and
      leaves behind on a working system. The busy loop of test.c ends exactly
      when Mero answers, if each turn reads its variable ([busy_wait_terminates]); the 64-bit loops of
      test-epoch.c visit the intended epochs and end unless a bound is extreme
      ([epoch_loops_terminate], [epoch_client_equiv]).

    - Consensus: calls for the same decree return the same value, which one of
      them proposed ([paxos_agreement], [paxos_validity]), as long as no call
      reuses a ballot; the code can, and then agreement fails
      ([paxos_ballot_reuse]). A query reports what was chosen before it
      ([query_reports_chosen]). A call can return as long as a quorum is open to
      its ballot ([call_can_return]), and never does once its decree is trimmed
      ([trimmed_call_hangs]). An acceptor keeps its promises until it restarts
      ([acceptor_keeps_promises], [restart_forgets_promise]); synchronisation
      fills an empty store and may leave gaps in another ([sync_fills_empty],
      [sync_leaves_gaps]).
    - Replicated log: the watermark of a replica is reachable and its state is
      that of the reachable decrees below it, executed in order ([replicas_agree]),
      and what a client was told is in the log stays on disk or in a snapshot
      through crashes ([acked_is_durable]), as long as no replica is misled in one
      of two ways, with which replicas can diverge: the advertisement of a replica
      that skips a decree has two arguments swapped ([swapped_max_diverges]), and an
      unreachable decree may be stored ahead of the watermark
      ([stored_ahead_diverges]). A replica that is behind can catch up, by messages
      alone, with one that has the decrees it misses ([replica_catches_up]), but a query
      kills a replica that has just started ([query_kills_new_replica]). The
      proposer answers every request once, with what was decided, and does so soon
      after its worker is done ([proposer_answers_once], [proposer_delivers]). The
      batcher submits requests once and in order, in batches of bounded size
      ([batcher_submits]), but forgets all but the last reconfiguration of a batch
      ([batcher_drops_reconf]). The ambassador forwards in order, with epochs that
      do not go back, or refuses, unless it is asked to recover an empty group
      ([ambassador_forwards_in_order], [recover_empty_kills_ambassador]). Commands in the
      log are equal only if they are the same ([command_identity]).
    - Multimap: however waiting updates are cut into parts and parts repeated, the
      map gets all of them, once and in order, and of the collector's settings in a
      part the first wins ([multimap_replicates]), so others are lost
      ([batched_metainfo_lost]).
    - Resource graph: the maps implement sets of nodes and edges, which every
      operation but merging changes as it should ([resource_graph_refines]); both ends
      of an edge agree, after mergers too, and cardinalities are kept by all other
      operations ([resource_graph_invariant]), so that queries
      give all there is ([connected_exact]); collection keeps exactly what roots reach
      ([collection_exact]); merging moves the edges of the merged resources and no
      others ([merge_exact]), but minds no cardinalities
      ([merge_exceeds_cardinality]). The change log is equivalent to the updates put into it,
      and what is read back is what was written ([changelog_equivalent],
      [sync_roundtrip]), unless a resource is removed and connected again in between
      ([removed_then_connected_comes_back], [merged_edge_comes_back]).
    - Event queue: the two maps are a queue without repeated identifiers
      ([event_queue_refines]). A coordinator is sent events in order and each once,
      and with the next poll has had all that are queued
      ([events_sent_once_in_order]); an event that was acknowledged is sent
      ([acknowledged_event_sent]), but one recorded after a clearing is not sent to a
      coordinator that outlives it ([event_after_clearing_skipped]).

    Loops run over finite lists and need no fuel, but for the loops of
    test-epoch.c on 64-bit counters ([for_up], [for_down]): they say whether they
    have ended within the fuel, [c_max - c_min + 1] turns are shown to be enough,
    and where the counter wraps no fuel is; for [batches] of Batcher.v and
    [replicate] of Multimap.v, where a turn takes at least one request; and for
    [collect] of Graph.v, where every turn but the last two takes a resource from
    those not yet reached ([gc_collect_spec]). Step relations ([cstep], InFlight's
    [step], [estep], ForkM0OS's [tstep], [hstep], [pstep] of Threads, [tstep] of
    BusyWait, [step] of PaxosNet and of ReplicaSys, [calm_step]) model interleavings. In [pstep] an operation is one step; the
    interleavings inside operations are those of StatsConc, InFlight and Epoch.
    The threads of a pool start once [main] has created all of them.

    ** What is not modelled

    Diagnostics on stderr, sleeps and clock readings of the test programs; the contents of Mero's structs beyond the members
    the code touches; memory of the caller that the code only passes on. The
    rest of the Haskell code (services, rules of the coordinator, producers of
    events) is not modelled. Of the resource graph, counters are not bounded, hash
    maps have no order, and [mergeResources] has its own theorem and is not among the
    operations of the abstract graph, since it does not keep cardinalities. Of
    the event queue, the pool of workers and the monitors of the group are the
    answers that the rules get. Of the replicated log, the calls of clients and the storing of configurations
    are not, nor the files behind the store (the maps of a store change
    atomically); the clock is read once in a turn, a timer is a message that may
    come at any time, and integers do not wrap. Of Basic Paxos, the theorems on the system leave out crashes of
    acceptors and synchronisation, whose messages the acceptor has but [step]
    does not send; the store is not delayed (its files are not modelled), random
    pauses between attempts are not visible, and decree numbers do not reach the
    largest [Int]. A process proposes once for a decree, as the proposer of the
    replicated log does by spawning a process per proposal.
    src/rpclite/rpclite/dummyService.c and
    src/mero-halon/hastate/test.c are written against interfaces that no longer
    exist. *)

From stdpp Require Export base tactics list gmap strings numbers.
From stdpp Require Import options.

Declare Scope halon_scope.
Delimit Scope halon_scope with halon.

Create HintDb halon.
Create Rewrite HintDb halon.

(** * Integers at their C width

    A C integer is a [Z] kept in the range of its type. The conversions
    below are the wrap-around of the unsigned types and, for [int], the
    conversion gcc documents (reduction modulo [2^32]). *)

Local Open Scope Z_scope.

Definition u32 (x : Z) : Z := x `mod` 2 ^ 32.
Definition u64 (x : Z) : Z := x `mod` 2 ^ 64.
Definition s32 (x : Z) : Z := (x + 2 ^ 31) `mod` 2 ^ 32 - 2 ^ 31.

Definition INT_MIN : Z := - 2 ^ 31.
Definition INT_MAX : Z := 2 ^ 31 - 1.

Lemma u32_range x : 0 <= u32 x < 2 ^ 32.
Proof. unfold u32. apply Z.mod_pos_bound. lia. Qed.

Lemma u64_range x : 0 <= u64 x < 2 ^ 64.
Proof. unfold u64. apply Z.mod_pos_bound. lia. Qed.

Lemma s32_range x : INT_MIN <= s32 x <= INT_MAX.
Proof.
  unfold s32, INT_MIN, INT_MAX.
  pose proof (Z.mod_pos_bound (x + 2 ^ 31) (2 ^ 32)). lia.
Qed.

Lemma u32_small x : 0 <= x < 2 ^ 32 -> u32 x = x.
Proof. apply Z.mod_small. Qed.

Lemma u64_small x : 0 <= x < 2 ^ 64 -> u64 x = x.
Proof. apply Z.mod_small. Qed.

Lemma s32_small x : INT_MIN <= x <= INT_MAX -> s32 x = x.
Proof.
  unfold s32, INT_MIN, INT_MAX. intros. rewrite Z.mod_small; lia.
Qed.

Lemma u64_idemp x : u64 (u64 x) = u64 x.
Proof. apply u64_small, u64_range. Qed.

Lemma s32_idemp x : s32 (s32 x) = s32 x.
Proof. apply s32_small, s32_range. Qed.

Lemma u64_add_l a b : u64 (u64 a + b) = u64 (a + b).
Proof. unfold u64. by rewrite Zplus_mod_idemp_l. Qed.

(** Converting an [int] to a wider unsigned type and back loses nothing. *)
Lemma s32_add_mult x k : s32 (x + k * 2 ^ 32) = s32 x.
Proof.
  unfold s32. replace (x + k * 2 ^ 32 + 2 ^ 31) with (x + 2 ^ 31 + k * 2 ^ 32) by lia.
  by rewrite Z_mod_plus_full.
Qed.

Lemma s32_u64 x : s32 (u64 x) = s32 x.
Proof.
  unfold u64. rewrite (Z.mod_eq x (2 ^ 64)) by lia.
  replace (x - 2 ^ 64 * (x / 2 ^ 64)) with (x + (- (x / 2 ^ 64) * 2 ^ 32) * 2 ^ 32) by lia.
  apply s32_add_mult.
Qed.

Lemma s32_u32 x : s32 (u32 x) = s32 x.
Proof.
  unfold u32. rewrite (Z.mod_eq x (2 ^ 32)) by lia.
  replace (x - 2 ^ 32 * (x / 2 ^ 32)) with (x + (- (x / 2 ^ 32)) * 2 ^ 32) by lia.
  apply s32_add_mult.
Qed.

Lemma s32_add_l a b : s32 (s32 a + b) = s32 (a + b).
Proof.
  unfold s32 at 2. rewrite (Z.mod_eq (a + 2 ^ 31) (2 ^ 32)) by lia.
  replace (_ - _ + b) with (a + b + - ((a + 2 ^ 31) / 2 ^ 32) * 2 ^ 32) by lia.
  apply s32_add_mult.
Qed.

#[export] Hint Resolve u32_range u64_range s32_range : halon.
#[export] Hint Rewrite u64_idemp s32_idemp s32_u64 s32_u32 : halon.

(** * Reflexive-transitive closure of a step relation *)

Section Star.
Context {S : Type} (step : S -> S -> Prop).

Inductive star : S -> S -> Prop :=
| star_refl s : star s s
| star_snoc s1 s2 s3 : star s1 s2 -> step s2 s3 -> star s1 s3.

Lemma star_one s1 s2 : step s1 s2 -> star s1 s2.
Proof. intros. eapply star_snoc; [apply star_refl | done]. Qed.

Lemma star_trans s1 s2 s3 : star s1 s2 -> star s2 s3 -> star s1 s3.
Proof. intros H12 H23. induction H23; eauto using star_snoc. Qed.

(** Rule induction in the form the invariants use. *)
Lemma star_invariant (I : S -> Prop) s1 s2 :
  star s1 s2 -> I s1 -> (forall a b, I a -> step a b -> I b) -> I s2.
Proof. intros Hs H1 Hstep. induction Hs; eauto. Qed.
End Star.

#[export] Hint Resolve star_refl star_one : halon.

(** * Sums and maxima of lists of integers *)

Definition sumZ (l : list Z) : Z := foldr Z.add 0 l.
Definition maxZ (l : list Z) : Z := foldr Z.max 0 l.

Lemma sumZ_app l k : sumZ (l ++ k) = sumZ l + sumZ k.
Proof. unfold sumZ. induction l; simpl; lia. Qed.

Lemma maxZ_app l k : maxZ (l ++ k) = Z.max (maxZ l) (maxZ k).
Proof.
  unfold maxZ. induction l as [|a l IH]; simpl; [|lia].
  induction k; simpl; lia.
Qed.

Lemma sumZ_nonneg l : Forall (Z.le 0) l -> 0 <= sumZ l.
Proof. unfold sumZ. induction 1; simpl; lia. Qed.

Lemma maxZ_nonneg l : 0 <= maxZ l.
Proof. unfold maxZ. induction l; simpl; lia. Qed.

Lemma sumZ_le_max l : sumZ l <= Z.of_nat (length l) * maxZ l.
Proof.
  unfold sumZ, maxZ. induction l as [|a l IH]; simpl; [lia|].
  pose proof (maxZ_nonneg l) as Hn. unfold maxZ in Hn. nia.
Qed.

Lemma maxZ_in l x : x ∈ l -> x <= maxZ l.
Proof. unfold maxZ. induction 1; simpl; lia. Qed.

(** * Filters *)

Lemma filter_all {X} (Q : X -> Prop) `{forall x, Decision (Q x)} l : Forall Q l -> filter Q l = l.
Proof. induction 1 as [|x l Hx _ IH]; [done|]. by rewrite list.filter_cons_True, IH. Qed.
Lemma filter_none {X} (Q : X -> Prop) `{forall x, Decision (Q x)} l : Forall (fun x => ~ Q x) l -> filter Q l = [].
Proof. induction 1 as [|x l Hx _ IH]; [done|]. by rewrite list.filter_cons_False. Qed.

(** * Splicing bytes into an array

    [splice dst off src] is the array [dst] after [memcpy (dst + off, src)]
    of a block that fits. *)

Definition splice {A} (dst : list A) (off : nat) (src : list A) : list A :=
  take off dst ++ src ++ drop (off + length src) dst.

Lemma splice_length {A} (dst src : list A) off :
  (off + length src <= length dst)%nat -> length (splice dst off src) = length dst.
Proof. intros. unfold splice. rewrite !length_app, length_take, length_drop. lia. Qed.

(** Writing [src] right after an already written prefix extends the prefix. *)
Lemma splice_snoc {A} (pre rest src : list A) :
  splice (pre ++ rest) (length pre) src = (pre ++ src) ++ drop (length src) rest.
Proof.
  unfold splice. rewrite take_app_length, drop_app_ge by lia.
  replace (length pre + length src - length pre)%nat with (length src) by lia.
  by rewrite (assoc_L (++)).
Qed.

(** * Tactics *)

(** Split every [let '(x, y) := e in _] and [match] on a non-variable. *)
Ltac destruct_scrutinee :=
  match goal with
  | |- context [match ?x with _ => _ end] => destruct x eqn:?
  | H : context [match ?x with _ => _ end] |- _ => destruct x eqn:?
  end.

(** Boolean comparisons to propositions, in every hypothesis and the goal. *)
Ltac reflect_Z :=
  repeat match goal with
  | H : (_ =? _)%Z = true |- _ => apply Z.eqb_eq in H
  | H : (_ =? _)%Z = false |- _ => apply Z.eqb_neq in H
  | H : (_ <? _)%Z = true |- _ => apply Z.ltb_lt in H
  | H : (_ <? _)%Z = false |- _ => apply Z.ltb_ge in H
  | H : (_ <=? _)%Z = true |- _ => apply Z.leb_le in H
  | H : (_ <=? _)%Z = false |- _ => apply Z.leb_gt in H
  | H : bool_decide _ = true |- _ => apply bool_decide_eq_true in H
  | H : bool_decide (_ <> _) = false |- _ =>
      apply bool_decide_eq_false in H; apply dec_stable in H
  | H : bool_decide _ = false |- _ => apply bool_decide_eq_false in H
  end.

(** Right-associate appends of event lists and compute with cons cells. *)
Ltac simpl_app := rewrite <- ?(assoc_L (++)); simpl.
