(* ===== verification/CTypes.v ===== *)
(** Data of the C sources: pointers, the structs of [rpclite.h], [rpclite.c],
    [rpclite_fom.h], [rpclite_fop.ff] and [hastate.h], and the constants the
    code names. Fields keep the source's names; a struct that belongs to Mero
    keeps only the fields this code reads or writes. *)

From S2P Require Import Prelude.
Local Open Scope Z_scope.

(** * Pointers

    A pointer designates a block and a path of struct members inside it, so
    that [&c->session] and [container_of] are computed the way C does. *)

Inductive field :=
| F_local_address | F_buffer_pool | F_rpc_machine   (* struct rpc_endpoint *)
| F_rm_tm                                           (* struct m0_rpc_machine *)
| F_connection | F_session                          (* struct rpc_connection *)
| F_fop                                             (* rpclite_senderside_message_t *)
| F_f_item | F_f_ref                                (* struct m0_fop *)
| F_sm_chan                                         (* struct m0_sm *)
| F_spt_cache                                       (* struct m0_spiel_tx *)
| F_rcx_session | F_rcx_connection                  (* struct m0_rpc_client_ctx *)
| F_rcx_rpc_machine | F_rcx_buffer_pool.

(** The objects with static storage duration whose address the code takes. *)
Inductive static_obj :=
| client_net_dom | client_ha_dom
| rs_lock (i : nat)            (* &rpc_stat[i].rs_lock *)
| m0init_hi_var.               (* &m0init_hi *)

Inductive block :=
| Heap (a : positive)          (* allocated by the code *)
| Static (s : static_obj)
| Foreign (z : Z).             (* owned by Mero or by the caller *)

Inductive ptr := Null | Ptr (b : block) (path : list field).

#[export] Instance field_eq_dec : EqDecision field.
Proof. solve_decision. Defined.
#[export] Instance static_obj_eq_dec : EqDecision static_obj.
Proof. solve_decision. Defined.
#[export] Instance block_eq_dec : EqDecision block.
Proof. solve_decision. Defined.
#[export] Instance ptr_eq_dec : EqDecision ptr.
Proof. solve_decision. Defined.

Definition addr (a : positive) : ptr := Ptr (Heap a) [].

(** [&p->f] *)
Definition field_addr (p : ptr) (f : field) : ptr :=
  match p with Null => Null | Ptr b path => Ptr b (path ++ [f]) end.

Fixpoint strip_suffix (path suffix : list field) : option (list field) :=
  if decide (path = suffix) then Some []
  else match path with
       | [] => None
       | f :: path' => cons f <$> strip_suffix path' suffix
       end.

(** [container_of (p, type, path)] *)
Definition container_of (p : ptr) (path : list field) : option ptr :=
  match p with
  | Null => None
  | Ptr b q => Ptr b <$> strip_suffix q path
  end.

Notation "p '~>' f" := (field_addr p f) (at level 40, left associativity) : halon_scope.
Open Scope halon_scope.

Lemma strip_suffix_app q s : s <> [] -> strip_suffix (q ++ s) s = Some q.
Proof.
  intros Hs. induction q as [|f q IH]; cbn.
  - destruct s; [done|]. simpl. by rewrite decide_True.
  - rewrite decide_False.
    + by rewrite IH.
    + intros H. apply (f_equal length) in H. simpl in H. rewrite length_app in H. lia.
Qed.

(** [container_of] undoes the member access it names. *)
Lemma container_of_field p f g :
  p <> Null -> container_of (p ~> f ~> g) [f; g] = Some p.
Proof.
  destruct p as [|b q]; [done|]. intros _. simpl.
  rewrite <- (assoc_L (++)). simpl. by rewrite strip_suffix_app.
Qed.

Lemma container_of_field1 p f :
  p <> Null -> container_of (p ~> f) [f] = Some p.
Proof. destruct p; [done|]. intros _. simpl. by rewrite strip_suffix_app. Qed.

(** * Constants *)

(** [rpclite.c], lines 27-38 *)
Definition ITEM_SIZE_CUSHION : Z := 128.
Definition MAX_RPCS_IN_FLIGHT : Z := 32.
Definition QUEUE_LEN : Z := 2.
Definition MAX_MSG_SIZE : Z := Z.shiftl 1 17.

(** Linux errno values used by the sources. *)
Definition ENOMEM : Z := 12.
Definition ETIMEDOUT : Z := 110.
Definition EHOSTDOWN : Z := 112.
Definition EHOSTUNREACH : Z := 113.

(** Constants of Mero's headers: named here, valued by the environment. *)
Inductive mero_const :=
| M0_TIME_NEVER | M0_NET_TM_RECV_QUEUE_DEF_LEN | M0_BUFFER_ANY_COLOUR
| M0_RPC_ITEM_PRIO_MID | M0_FOPH_FINISH | M0_FSO_WAIT
| M0_RPC_SESSION_TERMINATED.

(** * Structs *)

(** Function pointers are handles into the caller's code; [None] is [NULL]. *)
Abbreviation fnptr := (option Z).

(** [rpc_status_t], rpclite.h *)
Inductive rpc_status := RPC_OK | RPC_TIMEOUT | RPC_FAILED.
#[export] Instance rpc_status_eq_dec : EqDecision rpc_status.
Proof. solve_decision. Defined.

(** The value of the enumerator, as the callback receives it. *)
Definition rpc_status_val (s : rpc_status) : Z :=
  match s with RPC_OK => 0 | RPC_TIMEOUT => 1 | RPC_FAILED => 2 end.

(** [rpc_stat_type_t], rpclite.h *)
Inductive rpc_stat_type := RPC_STAT_CONN | RPC_STAT_SEND.
Definition RPC_STAT_NR : nat := 2.
Definition rpc_stat_idx (t : rpc_stat_type) : nat :=
  match t with RPC_STAT_CONN => 0 | RPC_STAT_SEND => 1 end%nat.

(** [rpc_statistic_t], rpclite.h; the mutex is identified by its address. *)
Record rpc_statistic := {
  rs_avg_time : Z;   (* m0_time_t: 64 bits, unsigned *)
  rs_max_time : Z;
  rs_tot_time : Z;
  rs_num : Z;        (* uint32_t *)
}.

(** [rpc_listen_callbacks_t], rpclite.h *)
Record rpc_listen_callbacks := {
  connection_callback : fnptr;
  disconnected_callback : fnptr;
  receive_callback : fnptr;
}.

(** [struct rpc_endpoint]: [malloc] leaves the members indeterminate. The
    embedded [buffer_pool] and [rpc_machine] are known by their addresses;
    of [rpc_machine] the code reads [rm_reqh]. *)
Record rpc_endpoint := {
  local_address : option string;
  rm_reqh : option ptr;
}.

(** [struct rpc_connection], likewise. *)
Record rpc_connection := {
  remote_address : option string;
  remote_ep : option ptr;
}.

(** [struct iovec]: the bytes readable at [iov_base], and [iov_len]. *)
Record iovec := { iov_base : list Z; iov_len : Z }.

(** [rpclite_fop_fragments] (rpclite_fop.ff): a counted array of bytes. *)
Record rpclite_fop := {
  f_count : Z;                    (* u32 *)
  f_fragments : option (list Z);  (* [None] is [NULL] *)
}.

(** Fop types and what [m0_fop_data] points to for each of them. *)
Inductive fop_type :=
| m0_fop_rpclite_fopt | m0_fop_rpclite_rep_fopt | m0_rpc_fop_session_terminate_fopt.
#[export] Instance fop_type_eq_dec : EqDecision fop_type.
Proof. solve_decision. Defined.

(** The arguments of [M0_FOP_TYPE_INIT] that rpclite_fop.c chooses; [xt], [sm]
    and [svc_type] are fixed objects of Mero and of the generated code. *)
Inductive fop_opcode := M0_RPC_PING_OPCODE | M0_RPC_PING_REPLY_OPCODE.
Inductive item_flag :=
| M0_RPC_ITEM_TYPE_REQUEST | M0_RPC_ITEM_TYPE_MUTABO | M0_RPC_ITEM_TYPE_REPLY.
Inductive fom_type_ops := m0_fom_rpclite_type_ops.
Record fop_type_args := {
  ft_name : string;
  ft_opcode : fop_opcode;
  ft_rpc_flags : list item_flag;
  ft_fom_ops : option fom_type_ops;
}.

Inductive fop_data :=
| FD_rpclite (f : rpclite_fop)
| FD_rpclite_rep (f_seq : Z)
| FD_session_terminate (rst_sender_id rst_session_id : Z).

Definition zero_data (t : fop_type) : fop_data :=
  match t with
  | m0_fop_rpclite_fopt => FD_rpclite {| f_count := 0; f_fragments := None |}
  | m0_fop_rpclite_rep_fopt => FD_rpclite_rep 0
  | m0_rpc_fop_session_terminate_fopt => FD_session_terminate 0 0
  end.

(** [struct m0_rpc_item_ops]; the only handler the code installs. *)
Inductive item_ops := rpclite_item_ops.

(** The members of [struct m0_rpc_item] the code touches. *)
Record m0_rpc_item := {
  ri_session : ptr;
  ri_deadline : Z;
  ri_nr_sent_max : Z;
  ri_resend_interval : Z;
  ri_rmachine : ptr;
  ri_ops : option item_ops;
  ri_prio : Z;
  ri_error : Z;        (* int32_t *)
  ri_reply : ptr;
}.

Definition zero_item : m0_rpc_item :=
  {| ri_session := Null; ri_deadline := 0; ri_nr_sent_max := 0;
     ri_resend_interval := 0; ri_rmachine := Null; ri_ops := None;
     ri_prio := 0; ri_error := 0; ri_reply := Null |}.

Record m0_fop := {
  f_type : option fop_type;
  f_data : option fop_data;
  f_item : m0_rpc_item;
}.

Definition zero_fop : m0_fop :=
  {| f_type := None; f_data := None; f_item := zero_item |}.

(** [rpclite_senderside_message_t], rpclite.c *)
Record senderside_message := {
  msg_c : ptr;
  msg_ctx : ptr;
  msg_reply_callback : fnptr;
  msg_fop : m0_fop;
  msg_ctime : Z;
}.

Definition zero_message : senderside_message :=
  {| msg_c := Null; msg_ctx := Null; msg_reply_callback := None;
     msg_fop := zero_fop; msg_ctime := 0 |}.

(** [struct m0_fom_ops] as rpclite_fom.c fills it: the names of the three
    functions of this file that Mero calls back. *)
Inductive fom_fn := Fn_m0_fop_rpclite_fom_fini | Fn_m0_fom_rpclite_state
                  | Fn_m0_fom_rpclite_home_locality.
Record m0_fom_ops := { fo_fini : fom_fn; fo_tick : fom_fn; fo_home_locality : fom_fn }.

Record m0_fom := { fo_fop : ptr; fo_ops : option m0_fom_ops }.

(** [struct m0_fid], by the initialiser that builds it. *)
Inductive m0_fid :=
| M0_FID_INIT (f_container f_key : Z)
| M0_FID_TINIT (type f_container f_key : Z).
#[export] Instance m0_fid_eq_dec : EqDecision m0_fid.
Proof. solve_decision. Defined.

Record m0_uint128 := { u_hi : Z; u_lo : Z }.
Record m0_ha_note := { no_id : m0_fid; no_state : Z }.
Record m0_ha_msg_nvec := {
  hmnv_type : Z; hmnv_id_of_get : Z; hmnv_ignore_same_state : Z;
  hmnv_nr : Z; hmnv_arr : list m0_ha_note }.
Record m0_ha_msg_failure_vec_rep := {
  mfp_pool : m0_fid; mfp_cookie : m0_uint128; mfp_nr : Z; mfp_vec : list m0_ha_note }.

(** [struct m0_ha_msg_data]: the tag [hed_type] and the union member it selects. *)
Inductive m0_ha_msg_data :=
| M0_HA_MSG_NVEC (hed_nvec : m0_ha_msg_nvec)
| M0_HA_MSG_FAILURE_VEC_REP (hed_fvec_rep : m0_ha_msg_failure_vec_rep)
| M0_HA_MSG_KEEPALIVE_REQ (kaq_id : m0_uint128).

Record m0_ha_msg := {
  hm_fid : m0_fid;
  hm_source_process : m0_fid;
  hm_source_service : m0_fid;
  hm_time : Z;
  hm_epoch : Z;
  hm_data : m0_ha_msg_data;
}.

(** [ha_state_callbacks_t], hastate.h *)
Record ha_state_callbacks := {
  ha_state_entrypoint : fnptr;
  ha_state_link_connected : fnptr;
  ha_state_link_reused : fnptr;
  ha_state_link_absent : fnptr;
  ha_state_link_disconnecting : fnptr;
  ha_state_link_disconnected : fnptr;
  ha_state_is_delivered : fnptr;
  ha_state_is_cancelled : fnptr;
  ha_message_callback : fnptr;
}.

(** The nine functions of hastate.c handed to [m0_halon_interface_start]. *)
Inductive halon_cb :=
| entrypoint_request_cb_fn | msg_received_cb_fn | msg_is_delivered_cb_fn
| msg_is_not_delivered_cb_fn | link_connected_cb_fn | link_reused_cb_fn
| link_absent_cb_fn | link_is_disconnecting_cb_fn | link_disconnected_cb_fn.

(** * Objects of the heap *)

Inductive object :=
| OEndpoint (e : rpc_endpoint)
| OReqh
| OConnection (c : rpc_connection)
| OMessage (m : senderside_message)
| OFop (f : m0_fop)
| OFom (f : m0_fom)
| OBuf (size : Z)
| OClink (cl_chan : ptr)
| OAst (sa_datum : ptr).
