(* ===== verification/Machine.v ===== *)
(** The machine the C code runs on: the calls it makes to code that is not in
    the repository (Mero, libc, the callbacks registered by the caller), the
    process state (heap and globals), and the monad in which every function of
    the sources is written.

    Mero is a parameter. [Env] is an arbitrary deterministic reaction to
    calls: a state and, for every call, an answer and a next state. Nothing is
    assumed of it; a theorem that needs documented behaviour of Mero states it
    as a hypothesis. Every external call is recorded in a trace together with
    its answer, so that "is called once", "in this order" and "with these
    arguments" are statements about the trace. *)

From S2P Require Import Prelude CTypes.
Local Open Scope Z_scope.

(** * External calls *)

(** What a user callback of [ha_state_callbacks_t] is called with. *)
Inductive ha_user_call :=
| U_entrypoint (req_id process_fid : ptr)
| U_link_connected (req_id hl : ptr)
| U_link_reused (req_id hl : ptr)
| U_link_absent (req_id : ptr)
| U_link_disconnecting (hl : ptr)
| U_link_disconnected (hl : ptr)
| U_is_delivered (hl : ptr) (tag : Z)
| U_is_cancelled (hl : ptr) (tag : Z)
| U_message (hl msg : ptr).

(** What is allocated, for the allocator's answer. *)
Inductive alloc_req :=
| A_endpoint | A_reqh | A_connection | A_message | A_fom
| A_array (nr : Z)       (* M0_ALLOC_ARR of nr bytes *)
| A_buffer (size : Z).   (* malloc (size) *)

Inductive call :=
(* libc and lib/ *)
| alloc (r : alloc_req)
| getenv (name : string)
| m0_time_now | m0_time_from_now (s ns : Z) | m0_time (s ns : Z) | m0_time_sub (a b : Z)
| m0_mutex_init (m : ptr) | m0_mutex_fini (m : ptr)
| m0_mutex_lock (m : ptr) | m0_mutex_unlock (m : ptr)
(* fop types *)
| m0_xc_rpclite_fop_init | m0_xc_rpclite_fop_fini
| M0_FOP_TYPE_INIT (t : fop_type) (args : fop_type_args)
| m0_fop_type_fini (t : fop_type)
(* net, rpc, reqh *)
| m0_net_domain_init (d : ptr) | m0_net_domain_fini (d : ptr)
| m0_rpc_bufs_nr (len tms : Z)
| m0_rpc_net_buffer_pool_setup (d pool : ptr) (bufs tms : Z)
| m0_rpc_net_buffer_pool_cleanup (pool : ptr)
| M0_REQH_INIT (reqh : ptr) (fid : m0_fid) | m0_reqh_start (reqh : ptr)
| m0_reqh_services_terminate (reqh : ptr) | m0_reqh_fini (reqh : ptr)
| m0_rpc_machine_init (m d : ptr) (ep : string) (reqh pool : ptr) (colour size qlen : Z)
| m0_rpc_machine_fini (m : ptr)
| m0_net_end_point_create (tm : ptr) (ep : string) | m0_net_end_point_put (ep : ptr)
| m0_rpc_conn_create (conn ep m : ptr) (max deadline : Z)
| m0_rpc_conn_destroy (conn : ptr) (timeout : Z) | m0_rpc_conn_fini (conn : ptr)
| m0_rpc_session_create (sess conn : ptr) (deadline : Z)
| m0_rpc_session_destroy (sess : ptr) (timeout : Z) | m0_rpc_session_fini (sess : ptr)
| m0_rpc_session_get_max_item_size (sess : ptr) | s_session_id (sess : ptr)
(* fops and items *)
| m0_fop_alloc_at (sess : ptr) (t : fop_type)
| m0_fop_reply_alloc (req : ptr) (t : fop_type)
| m0_fop_init (fop : ptr) (t : fop_type) | m0_fop_data_alloc (fop : ptr)
| m0_fop_put (fop : ptr) | m0_fop_put_lock (fop : ptr) | m0_fop_fini (fop : ptr)
| m0_fop_session_machine (sess : ptr) | m0_fop_opcode (fop : ptr)
| m0_fop_payload_size (item : ptr) (f : m0_fop)
| m0_rpc_post (item : ptr) (f : m0_fop)
| m0_rpc_post_sync (fop sess : ptr) (deadline : Z) (f : m0_fop)
| m0_rpc_reply_post (req item : ptr) (f : m0_fop)
(* foms *)
| m0_fom_init (fom fop reqh : ptr) | m0_fom_fini (fom : ptr)
| m0_fom_phase_set (fom : ptr) (phase : Z)
| m0_clink_del (l : ptr) | m0_clink_fini (l : ptr) | sm_state (sm : ptr)
(* ha *)
| m0_ha_domain_init (d : ptr) (epoch : Z) | m0_ha_domain_fini (d : ptr)
| m0_ha_domain_get_write (d : ptr) | m0_ha_domain_put_write (d : ptr) (epoch : Z)
| m0_halon_interface_init (hi_out : ptr) (debug_options : option string)
| m0_halon_interface_fini (hi : ptr)
| m0_halon_interface_start (hi : ptr) (ep : string) (process ha_service rm_service : m0_fid)
                           (cbs : list halon_cb)
| m0_halon_interface_stop (hi : ptr)
| m0_halon_interface_send (hi hl : ptr) (msg : m0_ha_msg)
| m0_halon_interface_disconnect (hi hl : ptr)
| m0_halon_interface_entrypoint_reply (hi req_id : ptr) (rc confd_fid_size : Z)
      (confd_fid_data confd_eps_data : ptr) (confd_quorum : Z) (rm_fid rm_eps : ptr)
| m0_halon_interface_delivered (hi hl msg : ptr)
| m0_halon_interface_rpc_machine (hi : ptr) | m0_halon_interface_spiel (hi : ptr)
| m0_conf_validation_error (cache buf : ptr) (buflen : Z)
(* threads *)
| M0_THREAD_INIT (t : ptr) (arg : Z) | m0_thread_join (t : ptr) | m0_thread_fini (t : ptr)
| hs_free_fun_ptr (f : Z)
(* callbacks of the caller *)
| cb_action (f : Z)
| cb_reply (f : Z) (c ctx : ptr) (st : rpc_status)
| cb_receive (f : Z) (item_fop ctx : ptr)
| cb_ha (f : Z) (u : ha_user_call).

(** ** Answers: the C type each call returns *)

Inductive aty := TVoid | TBool | TInt | TU32 | TU64 | TPtr | TStr | TIntPtr | TPost.

Definition denote (t : aty) : Type :=
  match t with
  | TVoid => unit
  | TBool => bool
  | TInt | TU32 | TU64 => Z
  | TPtr => ptr
  | TStr => option string
  | TIntPtr => Z * ptr            (* return code and out parameter *)
  | TPost => Z * Z * ptr          (* return code, ri_error, ri_reply *)
  end.

(** [alloc] and the fop allocators answer whether they succeed ([false] is a
    [NULL] result); [m0_fop_put] answers whether the last reference is gone. *)
Definition aty_of (c : call) : aty :=
  match c with
  | alloc _ | m0_fop_alloc_at _ _ | m0_fop_reply_alloc _ _ | m0_fop_put _ => TBool
  | getenv _ => TStr
  | m0_time_now | m0_time_from_now _ _ | m0_time _ _ | m0_time_sub _ _
  | m0_rpc_session_get_max_item_size _ | s_session_id _ | m0_fop_payload_size _ _
  | m0_ha_domain_get_write _ | m0_halon_interface_send _ _ _ => TU64
  | m0_rpc_bufs_nr _ _ | m0_fop_opcode _ | sm_state _ => TU32
  | m0_net_domain_init _ | m0_rpc_net_buffer_pool_setup _ _ _ _ | M0_REQH_INIT _ _
  | m0_rpc_conn_create _ _ _ _ _ | m0_rpc_conn_destroy _ _
  | m0_rpc_session_create _ _ _ | m0_rpc_session_destroy _ _
  | m0_fop_data_alloc _ | m0_rpc_post _ _
  | m0_halon_interface_start _ _ _ _ _ _ | M0_THREAD_INIT _ _ | m0_thread_join _
  | cb_receive _ _ _ => TInt
  | m0_rpc_machine_init _ _ _ _ _ _ _ _ | m0_net_end_point_create _ _
  | m0_halon_interface_init _ _ => TIntPtr
  | m0_rpc_post_sync _ _ _ _ => TPost
  | m0_fop_session_machine _ | m0_halon_interface_rpc_machine _
  | m0_halon_interface_spiel _ | m0_conf_validation_error _ _ _ => TPtr
  | _ => TVoid
  end.

Definition ans (c : call) : Type := denote (aty_of c).

(** An integer answer is a value of its C type. *)
Definition norm (t : aty) : denote t -> denote t :=
  match t with
  | TInt => s32
  | TU32 => u32
  | TU64 => u64
  | TIntPtr => fun '(rc, p) => (s32 rc, p)
  | TPost => fun '(rc, e, p) => (s32 rc, s32 e, p)
  | _ => fun a => a
  end.

(** * The environment and the process *)

Class Env := {
  env_state : Type;
  env_step : forall c : call, env_state -> ans c * env_state;
  const : mero_const -> Z;
}.

Record event := Ev { ev_call : call; ev_ans : ans ev_call }.

Record globals := {
  client_max_epoch : Z;
  rpc_stat : list rpc_statistic;
  rpclite_listen_cbs : rpc_listen_callbacks;
  ha_state_cbs : ha_state_callbacks;
  m0init_hi : ptr;
}.

(** Static storage starts zeroed. *)
Definition zero_statistic : rpc_statistic :=
  {| rs_avg_time := 0; rs_max_time := 0; rs_tot_time := 0; rs_num := 0 |}.
Definition zero_globals : globals := {|
  client_max_epoch := 0;
  rpc_stat := replicate RPC_STAT_NR zero_statistic;
  rpclite_listen_cbs := {| connection_callback := None; disconnected_callback := None;
                           receive_callback := None |};
  ha_state_cbs :=
    {| ha_state_entrypoint := None; ha_state_link_connected := None;
       ha_state_link_reused := None; ha_state_link_absent := None;
       ha_state_link_disconnecting := None; ha_state_link_disconnected := None;
       ha_state_is_delivered := None; ha_state_is_cancelled := None;
       ha_message_callback := None |};
  m0init_hi := Null;
|}.

(** A function returns, fails an assertion, calls [exit], or does something
    the C standard leaves undefined. *)
Inductive res (A : Type) :=
| Ok (a : A)
| Aborted
| Exited (code : Z)
| Undefined.
Arguments Ok {_} _.
Arguments Aborted {_}.
Arguments Exited {_} _.
Arguments Undefined {_}.

Section Machine.
Context {E : Env}.

Record world := World {
  heap : gmap positive object;
  glob : globals;
  env : env_state;
  trace : list event;
}.

Definition set_heap (f : gmap positive object -> gmap positive object) (w : world) : world :=
  World (f (heap w)) (glob w) (env w) (trace w).
Definition set_glob (f : globals -> globals) (w : world) : world :=
  World (heap w) (f (glob w)) (env w) (trace w).

(** * The monad *)

Definition M (A : Type) : Type := world -> res A * world.

#[global] Instance M_ret : MRet M := fun A a w => (Ok a, w).
#[global] Instance M_bind : MBind M := fun A B k m w =>
  let '(r, w') := m w in
  match r with
  | Ok a => k a w'
  | Aborted => (Aborted, w')
  | Exited n => (Exited n, w')
  | Undefined => (Undefined, w')
  end.

Definition undefined {A} : M A := fun w => (Undefined, w).
Definition exit {A} (code : Z) : M A := fun w => (Exited code, w).
(** [M0_ASSERT] and [M0_PRE] *)
Definition M0_ASSERT (b : bool) : M unit := fun w => (if b then Ok tt else Aborted, w).

(** An external call. *)
Definition ext (c : call) : M (ans c) := fun w =>
  let '(a, s) := env_step c (env w) in
  let a := norm (aty_of c) a in
  (Ok a, World (heap w) (glob w) s (trace w ++ [Ev c a])).

Definition get_glob {A} (f : globals -> A) : M A := fun w => (Ok (f (glob w)), w).
Definition mod_glob (f : globals -> globals) : M unit := fun w => (Ok tt, set_glob f w).

(** ** Heap operations *)

(** The address a successful allocation returns: any address not in use. *)
Definition fresh_addr (w : world) : positive := fresh (dom (heap w)).

Definition new (o : object) : M ptr := fun w =>
  let a := fresh_addr w in (Ok (addr a), set_heap (<[a := o]>) w).

(** Ask the allocator, then place [o] or return [NULL]. *)
Definition malloc (r : alloc_req) (o : object) : M ptr :=
  ok ← ext (alloc r);
  if (ok : bool) then new o else mret Null.

(** [free (NULL)] does nothing; freeing anything but the start of a live
    block is undefined. *)
Definition free (p : ptr) : M unit := fun w =>
  match p with
  | Null => (Ok tt, w)
  | Ptr (Heap a) [] =>
      match heap w !! a with
      | Some _ => (Ok tt, set_heap (delete a) w)
      | None => (Undefined, w)
      end
  | _ => (Undefined, w)
  end.

(** Access to the object a pointer designates; dangling is undefined. *)
Definition load (p : ptr) : M object := fun w =>
  match p with
  | Ptr (Heap a) _ =>
      match heap w !! a with Some o => (Ok o, w) | None => (Undefined, w) end
  | _ => (Undefined, w)
  end.

Definition store (p : ptr) (o : object) : M unit := fun w =>
  match p with
  | Ptr (Heap a) _ =>
      match heap w !! a with
      | Some _ => (Ok tt, set_heap (<[a := o]>) w)
      | None => (Undefined, w)
      end
  | _ => (Undefined, w)
  end.

Definition expect {A} (o : option A) : M A :=
  match o with Some a => mret a | None => undefined end.

Definition load_endpoint (p : ptr) : M rpc_endpoint :=
  o ← load p; match o with OEndpoint e => mret e | _ => undefined end.
Definition load_connection (p : ptr) : M rpc_connection :=
  o ← load p; match o with OConnection c => mret c | _ => undefined end.
Definition load_message (p : ptr) : M senderside_message :=
  o ← load p; match o with OMessage m => mret m | _ => undefined end.
Definition load_fom (p : ptr) : M m0_fom :=
  o ← load p; match o with OFom f => mret f | _ => undefined end.

Definition set_msg_fop (f : m0_fop) (m : senderside_message) : senderside_message :=
  {| msg_c := msg_c m; msg_ctx := msg_ctx m; msg_reply_callback := msg_reply_callback m;
     msg_fop := f; msg_ctime := msg_ctime m |}.

(** A fop is a block of its own, or the [fop] member of a sender-side message. *)
Definition as_fop (path : list field) (o : object) : option m0_fop :=
  match path, o with
  | [], OFop f => Some f
  | [F_fop], OMessage m => Some (msg_fop m)
  | _, _ => None
  end.
Definition with_fop (f : m0_fop) (o : object) : object :=
  match o with
  | OFop _ => OFop f
  | OMessage m => OMessage (set_msg_fop f m)
  | o => o
  end.
Definition ptr_path (p : ptr) : list field :=
  match p with Null => [] | Ptr _ path => path end.

Definition load_fop (p : ptr) : M m0_fop :=
  o ← load p; expect (as_fop (ptr_path p) o).

Definition store_fop (p : ptr) (f : m0_fop) : M unit :=
  o ← load p; _ ← expect (as_fop (ptr_path p) o); store p (with_fop f o).

(** The caller's reference to a fop owned by Mero is given up. *)
Definition forget (p : ptr) : M unit := fun w =>
  match p with
  | Ptr (Heap a) _ => (Ok tt, set_heap (delete a) w)
  | _ => (Undefined, w)
  end.

(** Calling through a function pointer; [NULL] is undefined. *)
Definition call_fn {A} (f : fnptr) (k : Z -> M A) : M A :=
  match f with Some i => k i | None => undefined end.

(** [CHECK_RESULT (rc, f, onError)] of rpclite.c, after [rc = f]: [onError]
    leaves the function (the diagnostic on [stderr] is not modelled). *)
Definition CHECK_RESULT {A} (rc : Z) (onError next : M A) : M A :=
  if rc =? 0 then next else onError.

(** [for (i = 0; i < n; i++) body] over the values the counter takes. *)
Fixpoint for_each {A} (l : list A) (body : A -> M unit) : M unit :=
  match l with
  | [] => mret tt
  | x :: l => body x ;; for_each l body
  end.

(** * Reasoning

    [wp m Q w]: run from [w], the function [m] ends with a result and a world
    that satisfy [Q]. Every function of the model is total, so this is total
    correctness. *)

Definition wp {A} (m : M A) (Q : res A -> world -> Prop) (w : world) : Prop :=
  let '(r, w') := m w in Q r w'.

(** What is known of an answer: it is a value of its C type. *)
Definition has_type (t : aty) : denote t -> Prop :=
  match t with
  | TInt => fun a => INT_MIN <= a <= INT_MAX
  | TU32 => fun a => 0 <= a < 2 ^ 32
  | TU64 => fun a => 0 <= a < 2 ^ 64
  | TIntPtr => fun '(rc, _) => INT_MIN <= rc <= INT_MAX
  | TPost => fun '(rc, e, _) => INT_MIN <= rc <= INT_MAX /\ INT_MIN <= e <= INT_MAX
  | _ => fun _ => True
  end.

Lemma norm_has_type t a : has_type t (norm t a).
Proof.
  destruct t; simpl in *; try done; try apply u32_range; try apply u64_range;
    try apply s32_range; repeat destruct a as [a ?]; auto using s32_range.
Qed.

(** The world after the call [c] answered [a]. *)
Definition log (c : call) (a : ans c) (s : env_state) (w : world) : world :=
  World (heap w) (glob w) s (trace w ++ [Ev c a]).

Section Rules.
Context {A : Type}.
Implicit Types (Q : res A -> world -> Prop) (w : world).

Lemma wp_ret (a : A) Q w : Q (Ok a) w -> wp (mret a) Q w.
Proof. done. Qed.

Lemma wp_undefined Q w : Q Undefined w -> wp undefined Q w.
Proof. done. Qed.

Lemma wp_exit n Q w : Q (Exited n) w -> wp (exit n) Q w.
Proof. done. Qed.

Lemma wp_bind {B} (m : M B) (k : B -> M A) Q w :
  wp m (fun r w' => match r with
                    | Ok b => wp (k b) Q w'
                    | Aborted => Q Aborted w'
                    | Exited n => Q (Exited n) w'
                    | Undefined => Q Undefined w'
                    end) w ->
  wp (m ≫= k) Q w.
Proof.
  unfold wp, mbind, M_bind. destruct (m w) as [[] ?]; auto.
Qed.

Lemma wp_mono (m : M A) Q Q' w :
  wp m Q w -> (forall r w', Q r w' -> Q' r w') -> wp m Q' w.
Proof. unfold wp. destruct (m w). auto. Qed.

(** Using a specification on a given run. *)
Lemma wp_run (m : M A) Q w r w' : wp m Q w -> m w = (r, w') -> Q r w'.
Proof. unfold wp. intros H Heq. by rewrite Heq in H. Qed.
End Rules.

Lemma wp_assert b Q w :
  (b = true -> Q (Ok tt) w) -> (b = false -> Q Aborted w) -> wp (M0_ASSERT b) Q w.
Proof. unfold wp, M0_ASSERT. destruct b; auto. Qed.

(** [answers c a]: in some state the environment answers the call [c] with [a].
    What a theorem assumes of Mero is stated with it. *)
Definition answers (c : call) (a : ans c) : Prop :=
  exists s, norm (aty_of c) (env_step c s).1 = a.

(** Whatever the environment answers. *)
Lemma wp_ext c Q w :
  (forall a s, has_type (aty_of c) a -> answers c a -> Q (Ok a) (log c a s w)) -> wp (ext c) Q w.
Proof.
  unfold wp, ext. intros H. destruct (env_step c (env w)) as [a s] eqn:He.
  apply H; [apply norm_has_type|]. exists (env w). by rewrite He.
Qed.

(** The same, remembering which answer the environment gave. *)
Lemma wp_ext_eq c Q w :
  (forall a s, env_step c (env w) = (a, s) ->
     Q (Ok (norm (aty_of c) a)) (log c (norm (aty_of c) a) s w)) ->
  wp (ext c) Q w.
Proof. unfold wp, ext. intros H. destruct (env_step c (env w)) as [a s]. by apply H. Qed.

Lemma wp_get_glob {A} (f : globals -> A) Q w : Q (Ok (f (glob w))) w -> wp (get_glob f) Q w.
Proof. done. Qed.

Lemma wp_mod_glob f Q w : Q (Ok tt) (set_glob f w) -> wp (mod_glob f) Q w.
Proof. done. Qed.

Lemma wp_new o Q w :
  (forall a, heap w !! a = None -> Q (Ok (addr a)) (set_heap (<[a := o]>) w)) ->
  wp (new o) Q w.
Proof.
  unfold wp, new. intros H. apply H. apply not_elem_of_dom.
  unfold fresh_addr. apply is_fresh.
Qed.

Lemma wp_malloc r o Q w :
  (forall s, answers (alloc r) false -> Q (Ok Null) (log (alloc r) false s w)) ->
  (forall a s, heap w !! a = None ->
     Q (Ok (addr a)) (set_heap (<[a := o]>) (log (alloc r) true s w))) ->
  wp (malloc r o) Q w.
Proof.
  intros HN HS. unfold malloc. apply wp_bind, (wp_ext (alloc r)).
  intros [|] s _ Ha; [|by apply HN]. apply wp_new. intros a Hfree. by apply HS.
Qed.

Lemma wp_free a o Q w :
  heap w !! a = Some o -> Q (Ok tt) (set_heap (delete a) w) -> wp (free (addr a)) Q w.
Proof. unfold wp, free, addr. by intros ->. Qed.

Lemma wp_load a path o Q w :
  heap w !! a = Some o -> Q (Ok o) w -> wp (load (Ptr (Heap a) path)) Q w.
Proof. unfold wp, load. by intros ->. Qed.

Lemma wp_load_null Q w : Q Undefined w -> wp (load Null) Q w.
Proof. done. Qed.

Lemma wp_store a path o o' Q w :
  heap w !! a = Some o -> Q (Ok tt) (set_heap (<[a := o']>) w) ->
  wp (store (Ptr (Heap a) path) o') Q w.
Proof. unfold wp, store. by intros ->. Qed.

Lemma wp_load_fop a path o f Q w :
  heap w !! a = Some o -> as_fop path o = Some f -> Q (Ok f) w ->
  wp (load_fop (Ptr (Heap a) path)) Q w.
Proof.
  intros Ha Hf HQ. unfold load_fop. apply wp_bind. eapply wp_load; [done|].
  simpl. by rewrite Hf.
Qed.

Lemma wp_store_fop a path o f f' Q w :
  heap w !! a = Some o -> as_fop path o = Some f ->
  Q (Ok tt) (set_heap (<[a := with_fop f' o]>) w) ->
  wp (store_fop (Ptr (Heap a) path) f') Q w.
Proof.
  intros Ha Hf HQ. unfold store_fop. apply wp_bind. eapply wp_load; [done|].
  simpl. rewrite Hf. simpl. eapply wp_bind, wp_ret, wp_store; done.
Qed.

Lemma wp_forget a path Q w :
  Q (Ok tt) (set_heap (delete a) w) -> wp (forget (Ptr (Heap a) path)) Q w.
Proof. done. Qed.

(** A loop whose body re-establishes an invariant indexed by the work done. *)
Lemma wp_for_each {A} (l : list A) body (I : list A -> world -> Prop) w :
  I [] w ->
  (forall done x rest w, l = done ++ x :: rest -> I done w ->
     wp (body x) (fun r w' => r = Ok tt /\ I (done ++ [x]) w') w) ->
  wp (for_each l body) (fun r w' => r = Ok tt /\ I l w') w.
Proof.
  intros H0 Hbody.
  enough (forall todo done w, l = done ++ todo -> I done w ->
    wp (for_each todo body) (fun r w' => r = Ok tt /\ I l w') w) as H by by apply (H l []).
  induction todo as [|x todo IH]; intros done w0 Hl HI; simpl.
  - apply wp_ret. by rewrite Hl, app_nil_r.
  - apply wp_bind. eapply wp_mono; [by eapply Hbody|].
    intros r w' [-> HI']. eapply IH; [|done]. by rewrite <- (assoc_L (++)).
Qed.

(** ** The events a run adds *)

Definition ran (evs : list event) (w w' : world) : Prop := trace w' = trace w ++ evs.

Lemma ran_refl w : ran [] w w.
Proof. unfold ran. by rewrite app_nil_r. Qed.

Lemma ran_trans e1 e2 w1 w2 w3 : ran e1 w1 w2 -> ran e2 w2 w3 -> ran (e1 ++ e2) w1 w3.
Proof. unfold ran. intros H1 H2. by rewrite H2, H1, (assoc_L (++)). Qed.

Lemma ran_det evs evs' w w' : ran evs w w' -> ran evs' w w' -> evs = evs'.
Proof. unfold ran. intros -> H. by apply app_inv_head in H. Qed.

End Machine.

Notation "'do!' c" := (ext c) (at level 10, c at level 9) : halon_scope.

#[global] Arguments wp : simpl never.
#[global] Arguments ext : simpl never.
#[global] Arguments answers : simpl never.
#[global] Arguments field_addr : simpl never.
#[global] Arguments addr : simpl never.
#[global] Arguments norm : simpl never.
#[global] Arguments s32 : simpl never.
#[global] Arguments u32 : simpl never.
#[global] Arguments u64 : simpl never.

(** ** Symbolic execution

    One step of the goal [wp m Q w], chosen by the head of [m]. Branches of
    the code become goals, in the order of the code. *)

Ltac wp_heap_fact :=
  cbn; first
    [ eassumption
    | rewrite lookup_insert_eq; reflexivity
    | rewrite lookup_insert_ne by congruence; wp_heap_fact
    | rewrite lookup_delete_ne by congruence; wp_heap_fact ].

(** A fresh address differs from the live ones. *)
Ltac fresh_facts :=
  repeat match goal with
  | H : <[_ := _]> _ !! _ = None |- _ => apply lookup_insert_None in H as [H ?]
  | H1 : ?m !! ?a = Some _, H2 : ?m !! ?b = None |- _ =>
      lazymatch goal with
      | _ : a <> b |- _ => fail
      | _ => assert (a <> b) by congruence
      end
  end.

(** Forget what answers of type [void] and pointers tell. *)
Ltac tidy_answers :=
  repeat match goal with
  | H : True |- _ => clear H
  | a : unit |- _ => destruct a
  end.

(** An event is in a trace built by appending. *)
Ltac solve_elem_trace :=
  cbn; first
    [ apply elem_of_app; right; apply list_elem_of_singleton; reflexivity
    | apply elem_of_app; left; solve_elem_trace
    | assumption ].

Ltac wp_step :=
  lazymatch goal with
  | |- wp (mbind _ _) _ _ => apply wp_bind
  | |- wp (mret _) _ _ => apply wp_ret
  | |- wp undefined _ _ => apply wp_undefined
  | |- wp (exit _) _ _ => apply wp_exit
  | |- wp (M0_ASSERT _) _ _ => apply wp_assert; intros ?; simplify_eq
  | |- wp (ext ?c) _ _ => apply (wp_ext c); cbn; intros ? ? ? ?; tidy_answers
  | |- wp (CHECK_RESULT _ _ _) _ _ => unfold CHECK_RESULT
  | |- wp (expect _) _ _ => unfold expect
  | |- wp (call_fn _ _) _ _ => unfold call_fn
  | |- wp (get_glob _) _ _ => apply wp_get_glob
  | |- wp (mod_glob _) _ _ => apply wp_mod_glob
  | |- wp (malloc _ _) _ _ => apply wp_malloc; cbn; intros; fresh_facts
  | |- wp (new _) _ _ => apply wp_new; cbn; intros; fresh_facts
  | |- wp (free _) _ _ => eapply wp_free; [wp_heap_fact|]
  | |- wp (load Null) _ _ => apply wp_load_null
  | |- wp (load _) _ _ => eapply wp_load; [wp_heap_fact|]
  | |- wp (store _ _) _ _ => eapply wp_store; [wp_heap_fact|]
  | |- wp (load_fop _) _ _ => eapply wp_load_fop; [wp_heap_fact|reflexivity|]
  | |- wp (store_fop _ _) _ _ => eapply wp_store_fop; [wp_heap_fact|reflexivity|]
  | |- wp (forget _) _ _ => eapply wp_forget
  | |- wp (if ?b then _ else _) _ _ => destruct b eqn:?
  | |- wp (match ?x with _ => _ end) _ _ => destruct x eqn:?
  end; cbn.

Ltac wp_go := repeat wp_step.

(** The events of a run, from the shape of the final world. *)
Ltac solve_ran :=
  unfold ran in *; cbn -[app];
  repeat match goal with H : trace ?w = _ |- context [trace ?w] => rewrite H; cbn -[app] end;
  rewrite <- ?(assoc_L (++)); cbn; reflexivity.

(** * Equality of programs

    Two functions are equal when they have the same result and effect in every
    world; [mbind] respects it. *)

Definition meq {E : Env} {A} (m m' : M A) : Prop := forall w, m w = m' w.
Infix "≃" := meq (at level 70, no associativity) : halon_scope.
Open Scope halon_scope.

#[global] Instance meq_equivalence {E : Env} A : Equivalence (@meq E A).
Proof.
  split; [by intros m w|by intros m m' H w|]. intros m1 m2 m3 H1 H2 w. by rewrite H1.
Qed.

#[global] Instance mbind_proper {E : Env} A B :
  Proper (pointwise_relation A meq ==> meq ==> meq) (M_bind A B).
Proof.
  intros k k' Hk m m' Hm w. unfold M_bind. rewrite Hm. destruct (m' w) as [[a| | |] w']; [apply Hk|done..].
Qed.

#[global] Instance wp_proper {E : Env} A : Proper (@meq E A ==> eq ==> eq ==> iff) wp.
Proof. intros m m' H Q _ <- w _ <-. unfold wp. by rewrite H. Qed.

Lemma meq_assoc {E : Env} {A B C} (m : M A) (f : A -> M B) (g : B -> M C) :
  ((m ≫= f) ≫= g) ≃ (m ≫= fun a => f a ≫= g).
Proof.
  intros w. unfold mbind, M_bind. by destruct (m w) as [[a| | |] w'].
Qed.

Lemma meq_ret_l {E : Env} {A B} (a : A) (f : A -> M B) : (mret a ≫= f) ≃ f a.
Proof. by intros w. Qed.

(** Under a bind. *)
Lemma meq_bind {E : Env} {A B} (m : M A) (f g : A -> M B) :
  (forall a, f a ≃ g a) -> (m ≫= f) ≃ (m ≫= g).
Proof. intros H. by apply mbind_proper. Qed.

Lemma for_each_app {E : Env} {A} (l1 l2 : list A) body :
  for_each (l1 ++ l2) body ≃ (for_each l1 body ;; for_each l2 body).
Proof.
  induction l1 as [|x l1 IH]; [done|]. cbn [app for_each]. rewrite meq_assoc. by apply meq_bind.
Qed.

(** * Concrete environments

    Used to evaluate the model: every call answers what [f] says, independently
    of the past. [succeed] is the environment in which everything works. *)

Definition succeed (c : call) : ans c :=
  match aty_of c as t return denote t with
  | TVoid => tt
  | TBool => true
  | TInt | TU32 | TU64 => 0
  | TPtr => Ptr (Foreign 1) []
  | TStr => None
  | TIntPtr => (0, Ptr (Foreign 2) [])
  | TPost => (0, 0, Ptr (Foreign 3) [])
  end.

Definition fixed_env (f : forall c, ans c) : Env :=
  {| env_state := unit; env_step := fun c _ => (f c, tt); const := fun _ => 7 |}.

(** The process at start-up. *)
Definition init_world {E : Env} (s : env_state) : world := World ∅ zero_globals s [].
Definition start (f : forall c, ans c) : @world (fixed_env f) :=
  @init_world (fixed_env f) tt.
