(* ===== verification/Stats.v ===== *)
(** The statistics of rpclite.c: the table [rpc_stat] of connection and send
    times, its initialisation, its three readers and [add_rpc_stat_record]. *)

From S2P Require Import Prelude CTypes Machine.
Local Open Scope Z_scope.

Module Stats.
Section Stats.
Context {E : Env}.

(** The mutex of entry [i] of the table. *)
Definition stat_lock (i : nat) : ptr := Ptr (Static (rs_lock i)) [].

Definition rpc_stat_init : M unit :=
  for_each (seq 0 RPC_STAT_NR) (fun i => do! (m0_mutex_init (stat_lock i))).

Definition rpc_stat_fini : M unit :=
  for_each (seq 0 RPC_STAT_NR) (fun i => do! (m0_mutex_fini (stat_lock i))).

(** [rpc_stat[type]] *)
Definition stat_entry (t : rpc_stat_type) : M rpc_statistic :=
  l ← get_glob rpc_stat; expect (l !! rpc_stat_idx t).

Definition get_max_rpc_time (t : rpc_stat_type) : M Z :=
  rs ← stat_entry t; mret (rs_max_time rs).
Definition get_avg_rpc_time (t : rpc_stat_type) : M Z :=
  rs ← stat_entry t; mret (rs_avg_time rs).
Definition get_tot_rpc_num (t : rpc_stat_type) : M Z :=
  rs ← stat_entry t; mret (rs_num rs).

(** The four updates of the critical section, one per statement. *)
Definition inc_num (rs : rpc_statistic) : rpc_statistic :=
  {| rs_avg_time := rs_avg_time rs; rs_max_time := rs_max_time rs;
     rs_tot_time := rs_tot_time rs; rs_num := u32 (rs_num rs + 1) |}.
Definition add_tot (time : Z) (rs : rpc_statistic) : rpc_statistic :=
  {| rs_avg_time := rs_avg_time rs; rs_max_time := rs_max_time rs;
     rs_tot_time := u64 (rs_tot_time rs + time); rs_num := rs_num rs |}.
Definition upd_max (time : Z) (rs : rpc_statistic) : rpc_statistic :=
  if rs_max_time rs <? time then
    {| rs_avg_time := rs_avg_time rs; rs_max_time := time;
       rs_tot_time := rs_tot_time rs; rs_num := rs_num rs |}
  else rs.
(** Division by zero has no result. *)
Definition upd_avg (rs : rpc_statistic) : option rpc_statistic :=
  if rs_num rs =? 0 then None
  else Some {| rs_avg_time := rs_tot_time rs `div` rs_num rs; rs_max_time := rs_max_time rs;
               rs_tot_time := rs_tot_time rs; rs_num := rs_num rs |}.

Definition set_stat (t : rpc_stat_type) (rs : rpc_statistic) (g : globals) : globals :=
  {| client_max_epoch := client_max_epoch g;
     rpc_stat := <[rpc_stat_idx t := rs]> (rpc_stat g);
     rpclite_listen_cbs := rpclite_listen_cbs g;
     ha_state_cbs := ha_state_cbs g; m0init_hi := m0init_hi g |}.

#[global] Arguments set_stat : simpl never.

Definition upd_stat (t : rpc_stat_type) (f : rpc_statistic -> option rpc_statistic) : M unit :=
  rs ← stat_entry t; rs' ← expect (f rs); mod_glob (set_stat t rs').

Definition add_rpc_stat_record (t : rpc_stat_type) (time : Z) : M unit :=
  do! (m0_mutex_lock (stat_lock (rpc_stat_idx t))) ;;
  upd_stat t (fun rs => Some (inc_num rs)) ;;
  upd_stat t (fun rs => Some (add_tot time rs)) ;;
  upd_stat t (fun rs => Some (upd_max time rs)) ;;
  upd_stat t upd_avg ;;
  do! (m0_mutex_unlock (stat_lock (rpc_stat_idx t))).

(** * The effect of one record *)

Definition stat_add (time : Z) (rs : rpc_statistic) : option rpc_statistic :=
  upd_avg (upd_max time (add_tot time (inc_num rs))).

Lemma set_stat_set_stat_g t rs rs' g : set_stat t rs' (set_stat t rs g) = set_stat t rs' g.
Proof. unfold set_stat. simpl. by rewrite list_insert_insert_eq. Qed.

Lemma set_stat_id t rs g : rpc_stat g !! rpc_stat_idx t = Some rs -> set_stat t rs g = g.
Proof. intros. unfold set_stat. rewrite list_insert_id by done. by destruct g. Qed.

Lemma set_stat_set_stat t rs rs' w :
  set_glob (set_stat t rs') (set_glob (set_stat t rs) w) = set_glob (set_stat t rs') w.
Proof. unfold set_glob. simpl. by rewrite set_stat_set_stat_g. Qed.

Lemma wp_upd_stat t f rs w Q :
  rpc_stat (glob w) !! rpc_stat_idx t = Some rs ->
  match f rs with
  | Some rs' => Q (Ok tt) (set_glob (set_stat t rs') w)
  | None => Q Undefined w
  end -> wp (upd_stat t f) Q w.
Proof.
  intros Hrs HQ. unfold upd_stat, stat_entry.
  apply wp_bind, wp_bind, wp_get_glob. rewrite Hrs. simpl. apply wp_ret.
  apply wp_bind. destruct (f rs); simpl; wp_go; done.
Qed.

Lemma lookup_set_stat t rs w rs' :
  rpc_stat (glob w) !! rpc_stat_idx t = Some rs ->
  rpc_stat (set_stat t rs' (glob w)) !! rpc_stat_idx t = Some rs'.
Proof. intros H. unfold set_stat. simpl. apply list_lookup_insert_eq. by eapply lookup_lt_Some. Qed.

Lemma wp_add_rpc_stat_record t time rs w Q :
  rpc_stat (glob w) !! rpc_stat_idx t = Some rs ->
  (forall rs' s s', stat_add time rs = Some rs' ->
     Q (Ok tt) (log (m0_mutex_unlock (stat_lock (rpc_stat_idx t))) tt s'
       (set_glob (set_stat t rs') (log (m0_mutex_lock (stat_lock (rpc_stat_idx t))) tt s w)))) ->
  (forall w', stat_add time rs = None ->
     trace w' = trace w ++ [Ev (m0_mutex_lock (stat_lock (rpc_stat_idx t))) tt] ->
     Q Undefined w') ->
  wp (add_rpc_stat_record t time) Q w.
Proof.
  intros Hrs HS HN. unfold add_rpc_stat_record.
  assert (forall rs', rpc_stat (set_stat t rs' (glob w)) !! rpc_stat_idx t = Some rs') as Hl.
  { intros. by eapply lookup_set_stat. }
  wp_step. wp_step.
  wp_step. eapply wp_upd_stat; [done|]. simpl.
  wp_step. eapply wp_upd_stat; [apply Hl|]. cbn. rewrite set_stat_set_stat.
  wp_step. eapply wp_upd_stat; [apply Hl|]. cbn. rewrite set_stat_set_stat.
  wp_step. eapply wp_upd_stat; [apply Hl|]. fold (stat_add time rs).
  destruct (stat_add time rs) as [rs'|] eqn:Hadd; cbn.
  - wp_step. rewrite set_stat_set_stat. by apply HS.
  - by apply HN.
Qed.

(** * What the table means

    [stat_rep ts rs]: the entry [rs] summarises the samples [ts]. The total is
    kept modulo [2^64]; the other members are exact. *)
Definition stat_rep (ts : list Z) (rs : rpc_statistic) : Prop :=
  rs_num rs = Z.of_nat (length ts) /\
  rs_tot_time rs = u64 (sumZ ts) /\
  rs_max_time rs = maxZ ts /\
  rs_avg_time rs = u64 (sumZ ts) `div` Z.of_nat (length ts).

Lemma stat_rep_nil : stat_rep [] zero_statistic.
Proof. done. Qed.

(** One more sample, while the counter has not wrapped. *)
Lemma stat_add_rep ts time rs :
  stat_rep ts rs -> Z.of_nat (length ts) < 2 ^ 32 - 1 -> 0 <= time ->
  exists rs', stat_add time rs = Some rs' /\ stat_rep (ts ++ [time]) rs'.
Proof.
  intros (Hn & Ht & Hm & _) Hlen Htime.
  assert (u32 (rs_num rs + 1) = Z.of_nat (length (ts ++ [time]))) as Hn'.
  { rewrite Hn, length_app. simpl. rewrite u32_small; lia. }
  assert (u64 (rs_tot_time rs + time) = u64 (sumZ (ts ++ [time]))) as Ht'.
  { rewrite Ht, sumZ_app, u64_add_l. f_equal. unfold sumZ. simpl. lia. }
  assert (Z.max (rs_max_time rs) time = maxZ (ts ++ [time])) as Hm'.
  { rewrite Hm, maxZ_app. unfold maxZ at 3. simpl. lia. }
  assert (Z.of_nat (length (ts ++ [time])) <> 0) as Hne by (rewrite length_app; simpl; lia).
  unfold stat_add, upd_avg, upd_max. simpl.
  destruct (rs_max_time rs <? time) eqn:Hlt; reflect_Z; simpl;
    rewrite Hn'; (destruct (_ =? 0) eqn:H0; reflect_Z; [done|]);
    eexists; (split; [done|]); unfold stat_rep; simpl; rewrite Ht'; repeat split; lia.
Qed.

(** The counter is 32 bits wide: at the [2^32]nd sample it wraps to zero. *)
Lemma stat_add_wrap time rs : rs_num rs = 2 ^ 32 - 1 -> stat_add time rs = None.
Proof.
  intros Hn. unfold stat_add, upd_avg, upd_max. simpl.
  destruct (_ <? _); simpl; by rewrite Hn.
Qed.

(** Whether a record succeeds depends on the counter only. *)
Lemma stat_add_full ts time rs :
  stat_rep ts rs -> Z.of_nat (length ts) < 2 ^ 32 - 1 -> stat_add time rs <> None.
Proof.
  intros (Hn & _) Hlen. unfold stat_add, upd_avg, upd_max.
  assert (u32 (rs_num rs + 1) <> 0) by (rewrite Hn, u32_small; lia).
  by destruct (_ <? _); simpl; rewrite (proj2 (Z.eqb_neq _ _)).
Qed.

(** [recorded ts rs]: the same, with the counter not yet wrapped. One more
    record succeeds exactly while there is room in the counter. *)
Definition recorded (ts : list Z) (rs : rpc_statistic) : Prop :=
  stat_rep ts rs /\ Z.of_nat (length ts) < 2 ^ 32.

Lemma recorded_add ts time rs :
  recorded ts rs -> 0 <= time ->
  match stat_add time rs with
  | Some rs' => recorded (ts ++ [time]) rs'
  | None => Z.of_nat (length ts) = 2 ^ 32 - 1
  end.
Proof.
  intros [Hrep Hlen] Htime.
  destruct (decide (Z.of_nat (length ts) = 2 ^ 32 - 1)) as [He|He].
  - rewrite stat_add_wrap; [done|]. destruct Hrep as [-> _]. done.
  - destruct (stat_add_rep ts time rs Hrep ltac:(lia) Htime) as (rs' & -> & Hrep').
    split; [done|]. rewrite length_app. simpl. lia.
Qed.

(** The events of one critical section. *)
Definition section_events (t : rpc_stat_type) : list event :=
  [Ev (m0_mutex_lock (stat_lock (rpc_stat_idx t))) tt;
   Ev (m0_mutex_unlock (stat_lock (rpc_stat_idx t))) tt].

(** [add_rpc_stat_record], called any number of times below [2^32] on a
    zeroed entry, always returns and leaves in the entry the number of the
    recorded times, their sum modulo [2^64], their maximum and the quotient of
    the two; the other entry, the heap and the other globals are untouched,
    and every call locks and then unlocks the mutex of the entry. *)
Theorem add_rpc_stat_record_exact t ts w :
  Forall (Z.le 0) ts -> Z.of_nat (length ts) < 2 ^ 32 ->
  rpc_stat (glob w) !! rpc_stat_idx t = Some zero_statistic ->
  wp (for_each ts (add_rpc_stat_record t))
    (fun r w' => r = Ok tt /\
       (exists rs, stat_rep ts rs /\ glob w' = set_stat t rs (glob w)) /\
       heap w' = heap w /\
       ran (ts ≫= fun _ => section_events t) w w') w.
Proof.
  intros Hts Hlen H0.
  eapply wp_mono; [apply (wp_for_each _ _ (fun ts' w' =>
    (exists rs, stat_rep ts' rs /\ glob w' = set_stat t rs (glob w)) /\
    heap w' = heap w /\
    ran (ts' ≫= fun _ => section_events t) w w'))|auto].
  - split; [|split; [done|apply ran_refl]].
    exists zero_statistic. split; [apply stat_rep_nil|]. by rewrite set_stat_id.
  - intros pre x rest w' -> ((rs & Hrep & Hg) & Hh & Htr).
    rewrite length_app in Hlen. simpl in Hlen.
    apply Forall_app in Hts as [_ Hts]. inversion Hts as [|? ? Hx _]; subst.
    destruct (stat_add_rep pre x rs Hrep ltac:(lia) Hx) as (rs' & Hadd & Hrep').
    eapply wp_add_rpc_stat_record; [by rewrite Hg; eapply lookup_set_stat| |congruence].
    intros rs'' s s' Hadd''. simplify_eq. split; [done|]. split; [|split; [done|]].
    + exists rs'. split; [done|]. simpl. by rewrite Hg, set_stat_set_stat_g.
    + rewrite bind_app. eapply ran_trans; [exact Htr|].
      unfold ran. simpl. by rewrite <- (assoc_L (++)).
Qed.

(** At the [2^32]nd record the 32-bit counter [rs_num] wraps to zero and
    [add_rpc_stat_record] divides by it: the call is undefined, and the mutex
    of the entry has been locked and not unlocked. *)
Theorem add_rpc_stat_record_wraps t time rs w :
  rpc_stat (glob w) !! rpc_stat_idx t = Some rs -> rs_num rs = 2 ^ 32 - 1 ->
  wp (add_rpc_stat_record t time)
    (fun r w' => r = Undefined /\
       ran [Ev (m0_mutex_lock (stat_lock (rpc_stat_idx t))) tt] w w') w.
Proof.
  intros Hrs Hn. pose proof (stat_add_wrap time rs Hn) as HN.
  eapply wp_add_rpc_stat_record; [done|congruence|]. intros w' _ Htr. by split.
Qed.

Lemma wp_reader {A} t (f : rpc_statistic -> A) rs w Q :
  rpc_stat (glob w) !! rpc_stat_idx t = Some rs -> Q (Ok (f rs)) w ->
  wp (rs ← stat_entry t; mret (f rs)) Q w.
Proof.
  intros H HQ. unfold stat_entry. apply wp_bind, wp_bind, wp_get_glob. rewrite H. done.
Qed.

(** After fewer than [2^32] records whose sum fits in 64 bits, the three
    readers return the number of records, their exact average and their exact
    maximum, and the average is at most the maximum. *)
Theorem rpc_stat_readers t ts rs w :
  stat_rep ts rs -> Forall (Z.le 0) ts -> ts <> [] -> sumZ ts < 2 ^ 64 ->
  rpc_stat (glob w) !! rpc_stat_idx t = Some rs ->
  wp (n ← get_tot_rpc_num t; a ← get_avg_rpc_time t; m ← get_max_rpc_time t; mret (n, a, m))
    (fun r w' => w' = w /\ exists n a m, r = Ok (n, a, m) /\
       n = Z.of_nat (length ts) /\ a = sumZ ts `div` n /\ m = maxZ ts /\ a <= m) w.
Proof.
  intros (Hn & Ht & Hm & Ha) Hts Hne Hsum Hrs.
  rewrite u64_small in Ha by (pose proof (sumZ_nonneg ts Hts); lia).
  unfold get_tot_rpc_num, get_avg_rpc_time, get_max_rpc_time.
  wp_step. eapply wp_reader; [done|]. wp_step. eapply wp_reader; [done|].
  wp_step. eapply wp_reader; [done|]. wp_step. split; [done|].
  do 3 eexists. split; [done|]. rewrite Ha, Hn, Hm. repeat split.
  assert (0 < Z.of_nat (length ts)) by (destruct ts; simpl; [done|lia]).
  apply Z.div_le_upper_bound; [done|]. apply sumZ_le_max.
Qed.

End Stats.

(** ** Witnesses *)

Lemma add_rpc_stat_record_exact_witness :
  wp (for_each [5; 9; 4] (add_rpc_stat_record RPC_STAT_SEND))
    (fun r w' => r = Ok tt /\
       (exists rs, stat_rep [5; 9; 4] rs /\
          glob w' = set_stat RPC_STAT_SEND rs (glob (start succeed))) /\
       heap w' = ∅ /\
       ran (section_events RPC_STAT_SEND ++ section_events RPC_STAT_SEND ++
            section_events RPC_STAT_SEND) (start succeed) w') (start succeed).
Proof.
  apply (add_rpc_stat_record_exact RPC_STAT_SEND [5; 9; 4] (start succeed)).
  - by repeat constructor.
  - done.
  - done.
Defined.

Lemma add_rpc_stat_record_wraps_witness :
  let full := {| rs_avg_time := 1; rs_max_time := 3; rs_tot_time := 2 ^ 32; rs_num := 2 ^ 32 - 1 |} in
  let w := set_glob (set_stat RPC_STAT_CONN full) (start succeed) in
  wp (add_rpc_stat_record RPC_STAT_CONN 2)
    (fun r w' => r = Undefined /\
       ran [Ev (m0_mutex_lock (stat_lock 0)) tt] w w') w.
Proof.
  intros full w. by apply (add_rpc_stat_record_wraps RPC_STAT_CONN 2 full w).
Defined.

Lemma rpc_stat_readers_witness :
  let rs := {| rs_avg_time := 6; rs_max_time := 9; rs_tot_time := 18; rs_num := 3 |} in
  let w := set_glob (set_stat RPC_STAT_SEND rs) (start succeed) in
  wp (n ← get_tot_rpc_num RPC_STAT_SEND; a ← get_avg_rpc_time RPC_STAT_SEND;
      m ← get_max_rpc_time RPC_STAT_SEND; mret (n, a, m))
    (fun r w' => w' = w /\ exists n a m, r = Ok (n, a, m) /\
       n = 3 /\ a = sumZ [5; 9; 4] `div` n /\ m = maxZ [5; 9; 4] /\ a <= m) w.
Proof.
  intros rs w. apply (rpc_stat_readers RPC_STAT_SEND [5; 9; 4] rs w); try done.
  by repeat constructor.
Defined.

End Stats.
