(* ===== verification/StatsConc.v ===== *)
(** Concurrent use of the statistics: any number of threads run
    [add_rpc_stat_record] (rpclite.c) on one entry of the table, one memory
    access per step, under the entry's mutex.

    The mutex is Mero's; [Mutex] states what [m0_mutex_lock] and
    [m0_mutex_unlock] promise, and [owner_mutex] shows that the promise can be
    kept. The result is linearizability: whatever the interleaving, while the
    mutex is free the entry holds the fold of the sequential function over the
    completed calls, in the order in which they released the mutex. *)

From S2P Require Import Prelude CTypes Machine Stats.
From stdpp Require Import functions.
Local Open Scope Z_scope.

Module StatsConc.
Import Stats.

(** * The mutex interface *)

Class Mutex := {
  mutex : Type;
  mutex_init : mutex;
  holder : mutex -> option nat;
  lock_step : nat -> mutex -> mutex -> Prop;
  unlock_step : nat -> mutex -> mutex -> Prop;
  holder_init : holder mutex_init = None;
  (** [lock] returns only while nobody holds the mutex; the caller then does. *)
  lock_excl : forall t m m', lock_step t m m' -> holder m = None /\ holder m' = Some t;
  (** [unlock] by the holder releases it. *)
  unlock_free : forall t m m', unlock_step t m m' -> holder m = Some t -> holder m' = None;
  (** A free mutex can be locked, a held one can be unlocked by its holder. *)
  lock_avail : forall t m, holder m = None -> exists m', lock_step t m m';
  unlock_avail : forall t m, holder m = Some t -> exists m', unlock_step t m m';
}.

#[export, program] Instance owner_mutex : Mutex := {|
  mutex := option nat;
  mutex_init := None;
  holder := fun m => m;
  lock_step := fun t m m' => m = None /\ m' = Some t;
  unlock_step := fun t m m' => m = Some t /\ m' = None;
|}.
Solve All Obligations with (intros; simplify_eq; naive_solver).

(** * Threads *)

(** Where a thread is in [add_rpc_stat_record], with its registers. *)
Inductive pc :=
| Idle
| Lock (time : Z)
| NumR (time : Z) | NumW (time n : Z)        (* rs->rs_num++ *)
| TotR (time : Z) | TotW (time tot : Z)      (* rs->rs_tot_time += time *)
| MaxR (time : Z) | MaxW (time : Z)          (* if (rs_max_time < time) ... *)
| AvgR (time : Z) | AvgW (time avg : Z)      (* rs->rs_avg_time = ... *)
| Unlock (time : Z).

Definition set_num n rs := {| rs_avg_time := rs_avg_time rs; rs_max_time := rs_max_time rs;
                              rs_tot_time := rs_tot_time rs; rs_num := n |}.
Definition set_tot x rs := {| rs_avg_time := rs_avg_time rs; rs_max_time := rs_max_time rs;
                              rs_tot_time := x; rs_num := rs_num rs |}.
Definition set_max x rs := {| rs_avg_time := rs_avg_time rs; rs_max_time := x;
                              rs_tot_time := rs_tot_time rs; rs_num := rs_num rs |}.
Definition set_avg x rs := {| rs_avg_time := x; rs_max_time := rs_max_time rs;
                              rs_tot_time := rs_tot_time rs; rs_num := rs_num rs |}.

(** One memory access inside the critical section; a division by zero has no
    next step. *)
Definition exec (p : pc) (rs : rpc_statistic) : option (pc * rpc_statistic) :=
  match p with
  | NumR time => Some (NumW time (rs_num rs), rs)
  | NumW time n => Some (TotR time, set_num (u32 (n + 1)) rs)
  | TotR time => Some (TotW time (rs_tot_time rs), rs)
  | TotW time tot => Some (MaxR time, set_tot (u64 (tot + time)) rs)
  | MaxR time => Some (if rs_max_time rs <? time then MaxW time else AvgR time, rs)
  | MaxW time => Some (AvgR time, set_max time rs)
  | AvgR time => if rs_num rs =? 0 then None
                 else Some (AvgW time (rs_tot_time rs `div` rs_num rs), rs)
  | AvgW time avg => Some (Unlock time, set_avg avg rs)
  | Idle | Lock _ | Unlock _ => None
  end.

Section Threads.
Context {MX : Mutex}.

Record cstate := CState { cs_rs : rpc_statistic; cs_mtx : mutex; cs_pc : nat -> pc }.

(** A step of thread [t]; the label is the sample of a call that returns. *)
Inductive cstep : cstate -> option Z -> cstate -> Prop :=
| step_call t time s :
    cs_pc s t = Idle -> 0 <= time ->
    cstep s None (CState (cs_rs s) (cs_mtx s) (<[t := Lock time]> (cs_pc s)))
| step_lock t time m' s :
    cs_pc s t = Lock time -> lock_step t (cs_mtx s) m' ->
    cstep s None (CState (cs_rs s) m' (<[t := NumR time]> (cs_pc s)))
| step_exec t p' rs' s :
    exec (cs_pc s t) (cs_rs s) = Some (p', rs') ->
    cstep s None (CState rs' (cs_mtx s) (<[t := p']> (cs_pc s)))
| step_unlock t time m' s :
    cs_pc s t = Unlock time -> unlock_step t (cs_mtx s) m' ->
    cstep s (Some time) (CState (cs_rs s) m' (<[t := Idle]> (cs_pc s))).

(** Executions, with the samples of the completed calls in order. *)
Inductive execution : cstate -> list Z -> cstate -> Prop :=
| exec_nil s : execution s [] s
| exec_snoc s ls s' l s'' :
    execution s ls s' -> cstep s' l s'' ->
    execution s (ls ++ option_list l) s''.

Lemma exec_cons s l s' ls s'' :
  cstep s l s' -> execution s' ls s'' -> execution s (option_list l ++ ls) s''.
Proof.
  intros Hs He. induction He as [|s' ls s1 l' s2 He IH Hs2].
  - rewrite app_nil_r. change (option_list l) with ([] ++ option_list l).
    eapply exec_snoc; [apply exec_nil|done].
  - rewrite (assoc_L (++)). eapply exec_snoc; [by apply IH|done].
Qed.

Definition cinit : cstate := CState zero_statistic mutex_init (fun _ => Idle).

(** * Linearizability *)

(** The sequential object: samples folded with [stat_add]. *)
Definition stat_fold (ts : list Z) (rs : rpc_statistic) : option rpc_statistic :=
  foldl (fun o time => o ≫= stat_add time) (Some rs) ts.

Definition in_section (p : pc) : Prop :=
  match p with Idle | Lock _ => False | _ => True end.

Definition pc_time (p : pc) : Z :=
  match p with
  | Idle => 0
  | Lock t | NumR t | NumW t _ | TotR t | TotW t _ | MaxR t | MaxW t
  | AvgR t | AvgW t _ | Unlock t => t
  end.

(** What the entry will be once the thread at [p] has left the section. *)
Definition finish (p : pc) (rs : rpc_statistic) : option rpc_statistic :=
  match p with
  | Idle | Lock _ => None
  | NumR time => stat_add time rs
  | NumW time n => upd_avg (upd_max time (add_tot time (set_num (u32 (n + 1)) rs)))
  | TotR time => upd_avg (upd_max time (add_tot time rs))
  | TotW time tot => upd_avg (upd_max time (set_tot (u64 (tot + time)) rs))
  | MaxR time => upd_avg (upd_max time rs)
  | MaxW time => upd_avg (set_max time rs)
  | AvgR time => upd_avg rs
  | AvgW time avg => Some (set_avg avg rs)
  | Unlock _ => Some rs
  end.

Lemma exec_finish p rs p' rs' :
  exec p rs = Some (p', rs') ->
  in_section p' /\ in_section p /\ pc_time p' = pc_time p /\ finish p' rs' = finish p rs.
Proof.
  destruct p; simpl; intros; repeat case_match; simplify_eq; try done;
    simpl; unfold upd_max, upd_avg; by repeat case_match; reflect_Z; simplify_eq.
Qed.

(** While [t] is inside, the outcome of its call is the sequential one. *)
Definition cinv (ls : list Z) (s : cstate) : Prop :=
  exists base, stat_fold ls zero_statistic = Some base /\
    match holder (cs_mtx s) with
    | None => cs_rs s = base /\ forall t, ~ in_section (cs_pc s t)
    | Some t => in_section (cs_pc s t) /\
        finish (cs_pc s t) (cs_rs s) = stat_add (pc_time (cs_pc s t)) base /\
        forall t', in_section (cs_pc s t') -> t' = t
    end.

Lemma stat_fold_snoc ls x rs : stat_fold (ls ++ [x]) rs = stat_fold ls rs ≫= stat_add x.
Proof. unfold stat_fold. by rewrite foldl_app. Qed.

Lemma cinv_init : cinv [] cinit.
Proof. exists zero_statistic. split; [done|]. simpl. rewrite holder_init. auto. Qed.

Ltac pc_at t' t :=
  destruct (decide (t' = t)) as [->|?];
  [rewrite ?fn_lookup_insert in * | rewrite ?fn_lookup_insert_ne in * by done].

Lemma cinv_outside ls s t p :
  cinv ls s -> ~ in_section (cs_pc s t) -> ~ in_section p ->
  cinv ls (CState (cs_rs s) (cs_mtx s) (<[t := p]> (cs_pc s))).
Proof.
  intros (base & Hb & HI) Ht Hp. exists base. split; [done|]. simpl.
  destruct (holder (cs_mtx s)) as [h|].
  - destruct HI as (Hin & Hf & Hu).
    assert (t <> h) by naive_solver. rewrite fn_lookup_insert_ne by done.
    repeat split; try done. intros t' Hin'. pc_at t' t; naive_solver.
  - destruct HI as [-> HI]. split; [done|]. intros t'. pc_at t' t; naive_solver.
Qed.

Lemma cinv_step ls s l s' :
  cinv ls s -> cstep s l s' -> cinv (ls ++ option_list l) s'.
Proof.
  intros Hinv Hs. destruct Hs as [t time s Hp H0|t time m' s Hp Hl
    |t p' rs' s He|t time m' s Hp Hu]; simpl; rewrite ?app_nil_r.
  - apply cinv_outside; [done|rewrite Hp|]; simpl; tauto.
  - apply lock_excl in Hl as [Hfree Hheld]. destruct Hinv as (base & Hb & HI).
    rewrite Hfree in HI. destruct HI as [<- HI].
    exists (cs_rs s). split; [done|]. simpl. rewrite Hheld, fn_lookup_insert.
    repeat split. intros t' Hin'. pc_at t' t; naive_solver.
  - apply exec_finish in He as (Hin' & Hin & Htime & Hf).
    destruct Hinv as (base & Hb & HI). exists base. split; [done|]. simpl.
    destruct (holder (cs_mtx s)) as [h|]; [|naive_solver].
    destruct HI as (Hh & Hfin & Hu). assert (t = h) as -> by auto.
    rewrite fn_lookup_insert, Hf, Htime. repeat split; try done.
    intros t' Hin''. pc_at t' h; auto.
  - destruct Hinv as (base & Hb & HI).
    destruct (holder (cs_mtx s)) as [h|] eqn:Hh; [|exfalso; apply (proj2 HI t); by rewrite Hp].
    destruct HI as (Hin & Hfin & Hu'). assert (t = h) as -> by (apply Hu'; by rewrite Hp).
    pose proof (unlock_free _ _ _ Hu Hh) as Hfree. rewrite Hp in Hfin. simpl in Hfin.
    exists (cs_rs s). rewrite stat_fold_snoc, Hb. simpl. rewrite Hfree. repeat split; [done|].
    intros t'. pc_at t' h; [simpl; tauto|]. intros ?. naive_solver.
Qed.

Lemma execution_cinv ls s : execution cinit ls s -> cinv ls s.
Proof.
  remember cinit as s0 eqn:Hs0. induction 1 as [|s0 ls s' l s'' _ IH Hstep]; subst.
  - apply cinv_init.
  - eapply cinv_step; [by apply IH|done].
Qed.

Lemma stat_fold_rep ts :
  Forall (Z.le 0) ts -> Z.of_nat (length ts) < 2 ^ 32 ->
  exists rs, stat_fold ts zero_statistic = Some rs /\ stat_rep ts rs.
Proof.
  induction ts as [|x ts IH] using rev_ind; intros H0 Hlen.
  - eexists. split; [done|apply stat_rep_nil].
  - apply Forall_app in H0 as [H0 Hx]. inversion Hx; subst.
    rewrite length_app in Hlen. simpl in Hlen.
    destruct IH as (rs & Hf & Hr); [done|lia|].
    destruct (stat_add_rep ts x rs) as (rs' & Ha & Hr'); [done|lia|done|].
    exists rs'. by rewrite stat_fold_snoc, Hf.
Qed.

(** C12. Linearizability of [add_rpc_stat_record]: for every interleaving of
    the memory accesses of any number of threads, whenever the mutex of the
    entry is free the entry equals the sequential fold of the completed calls
    in the order of their unlocks; no update is lost or torn, and at most one
    thread is inside the critical section at any time. *)
Theorem add_rpc_stat_record_linearizable ls s :
  execution cinit ls s ->
  (holder (cs_mtx s) = None -> stat_fold ls zero_statistic = Some (cs_rs s)) /\
  (forall t t', in_section (cs_pc s t) -> in_section (cs_pc s t') -> t = t').
Proof.
  intros (base & Hb & HI)%execution_cinv. destruct (holder (cs_mtx s)) as [h|].
  - destruct HI as (_ & _ & Hu). split; [done|]. intros t t' H1 H2.
    by rewrite (Hu t), (Hu t').
  - destruct HI as [-> HI]. split; [done|]. naive_solver.
Qed.

(** ** A call that gets the mutex returns *)

Definition rank (p : pc) : nat :=
  match p with
  | Idle | Lock _ => 0 | NumR _ => 9 | NumW _ _ => 8 | TotR _ => 7 | TotW _ _ => 6
  | MaxR _ => 5 | MaxW _ => 4 | AvgR _ => 3 | AvgW _ _ => 2 | Unlock _ => 1
  end%nat.

Lemma exec_rank p rs p' rs' : exec p rs = Some (p', rs') -> (rank p' < rank p)%nat.
Proof. destruct p; simpl; intros; repeat case_match; simplify_eq; simpl; lia. Qed.

Lemma finish_exec p rs rs' :
  in_section p -> finish p rs = Some rs' -> (exists time, p = Unlock time) \/ is_Some (exec p rs).
Proof.
  destruct p; simpl; intros Hin Hf; try done; try (by right; eauto); [|by left; eauto].
  right.
  unfold upd_avg in Hf. destruct (_ =? 0); [done|eauto].
Qed.

Lemma section_completes t rs' n s :
  (rank (cs_pc s t) <= n)%nat -> in_section (cs_pc s t) ->
  finish (cs_pc s t) (cs_rs s) = Some rs' ->
  exists pcs, execution s [] (CState rs' (cs_mtx s) pcs) /\
    pcs t = Unlock (pc_time (cs_pc s t)) /\ forall t', t' <> t -> pcs t' = cs_pc s t'.
Proof.
  revert s. induction n as [|n IH]; intros s Hr Hin Hf.
  { by destruct (cs_pc s t); simpl in *; lia || destruct Hin. }
  destruct (finish_exec _ _ _ Hin Hf) as [[time Hp]|[[p1 rs1] He]].
  - exists (cs_pc s). rewrite Hp in Hf |- *. simpl in Hf. simplify_eq.
    split; [|done]. destruct s. apply exec_nil.
  - pose proof (exec_rank _ _ _ _ He). pose proof (exec_finish _ _ _ _ He) as (Hin1 & _ & Ht1 & Hf1).
    destruct (IH (CState rs1 (cs_mtx s) (<[t := p1]> (cs_pc s)))) as (pcs & Hex & Hpt & Hne);
      simpl; rewrite ?fn_lookup_insert; [lia|done|congruence|].
    simpl in *. rewrite fn_lookup_insert in Hpt. exists pcs. repeat split.
    + eapply (exec_cons _ None _ []); [by eapply step_exec|done].
    + by rewrite Hpt, Ht1.
    + intros t' Hneq. rewrite Hne by done. by rewrite fn_lookup_insert_ne.
Qed.

(** A thread that finds the mutex free can run its call to completion. *)
Lemma call_completes t time rs' s :
  cs_pc s t = Lock time -> holder (cs_mtx s) = None -> stat_add time (cs_rs s) = Some rs' ->
  exists s', execution s [time] s' /\ holder (cs_mtx s') = None /\ cs_rs s' = rs' /\
    cs_pc s' t = Idle /\ forall t', t' <> t -> cs_pc s' t' = cs_pc s t'.
Proof.
  intros Hp Hfree Hadd. destruct (lock_avail t _ Hfree) as [m1 Hl].
  destruct (lock_excl _ _ _ Hl) as [_ Hheld].
  destruct (section_completes t rs' 9 (CState (cs_rs s) m1 (<[t := NumR time]> (cs_pc s))))
    as (pcs & Hex & Hpt & Hne); simpl; rewrite ?fn_lookup_insert; simpl; [lia|done|done|].
  simpl in *. rewrite fn_lookup_insert in Hpt. simpl in Hpt.
  destruct (unlock_avail t _ Hheld) as [m2 Hu].
  exists (CState rs' m2 (<[t := Idle]> pcs)). repeat split; simpl.
  - eapply (exec_cons _ None _ [time]); [by eapply step_lock|].
    change [time] with ([] ++ option_list (Some time)).
    eapply exec_snoc; [exact Hex|]. by eapply step_unlock.
  - by eapply unlock_free.
  - by rewrite fn_lookup_insert.
  - intros t' Hneq. rewrite fn_lookup_insert_ne, Hne by done. by rewrite fn_lookup_insert_ne.
Qed.

(** The samples of an execution are nonnegative. *)
Definition times_ok (s : cstate) : Prop := forall t, 0 <= pc_time (cs_pc s t).

Lemma execution_times ls s : execution cinit ls s -> times_ok s /\ Forall (Z.le 0) ls.
Proof.
  remember cinit as s0 eqn:Hs0. induction 1 as [|s0 ls s' l s'' _ IH Hstep]; subst.
  { split; [by intros t|constructor]. }
  destruct IH as [Ht Hls]; [done|].
  destruct Hstep as [t time s Hp H0|t time m' s Hp Hl|t p' rs' s He|t time m' s Hp Hu];
    simpl; rewrite ?app_nil_r; (split; [intros t'; simpl; pc_at t' t; [simpl|apply Ht]|]);
    try done; try (specialize (Ht t); rewrite Hp in Ht; done).
  - apply exec_finish in He as (_ & _ & -> & _). apply Ht.
  - apply Forall_app_2; [done|]. constructor; [|done]. specialize (Ht t). by rewrite Hp in Ht.
Qed.

(** Progress: as long as fewer than [2^32 - 1] calls have completed, an
    execution in which some thread is inside a call can always take another
    step: the lock discipline cannot deadlock and the division is defined. *)
Theorem add_rpc_stat_record_progress ls s t :
  execution cinit ls s -> Z.of_nat (length ls) < 2 ^ 32 - 1 -> cs_pc s t <> Idle ->
  exists l s', cstep s l s'.
Proof.
  intros Hex Hlen Ht. pose proof (execution_times _ _ Hex) as [Htimes Hls].
  destruct (execution_cinv _ _ Hex) as (base & Hb & HI).
  destruct (holder (cs_mtx s)) as [h|] eqn:Hh.
  - destruct HI as (Hin & Hfin & _).
    destruct (stat_fold_rep ls Hls ltac:(lia)) as (rs & Hrs & Hrep).
    assert (rs = base) as -> by congruence.
    destruct (stat_add_rep ls (pc_time (cs_pc s h)) base) as (rs' & Hadd & _); [done|done|apply Htimes|].
    destruct (exec (cs_pc s h) (cs_rs s)) as [[p' rs'']|] eqn:He.
    { do 2 eexists. by eapply step_exec. }
    destruct (cs_pc s h) eqn:Hp; simpl in He, Hin, Hfin; try done.
    + (* the division *)
      destruct (rs_num (cs_rs s) =? 0) eqn:H0; [|done].
      unfold upd_avg in Hfin. rewrite H0 in Hfin. simpl in *. congruence.
    + destruct (unlock_avail h _ Hh) as [m' Hm]. do 2 eexists. by eapply step_unlock.
  - destruct HI as [_ HI]. specialize (HI t). destruct (cs_pc s t) eqn:Hp; simpl in HI; try tauto.
    destruct (lock_avail t _ Hh) as [m' Hm]. do 2 eexists. by eapply step_lock.
Qed.

End Threads.

(** ** Witnesses *)

(** Thread 0 records 5 while thread 1, which also called, waits for the mutex. *)
Lemma two_threads :
  exists s : @cstate owner_mutex,
    execution cinit [5] s /\ holder (cs_mtx s) = None /\ cs_pc s 1%nat = Lock 8.
Proof.
  set (pcs := <[1%nat := Lock 8]> (<[0%nat := Lock 5]> (fun _ => Idle)) : nat -> pc).
  destruct (call_completes (MX := owner_mutex) 0%nat 5
    {| rs_avg_time := 5; rs_max_time := 5; rs_tot_time := 5; rs_num := 1 |}
    (CState zero_statistic mutex_init pcs)) as (s & Hex & Hfree & _ & _ & Hne); [done..|].
  exists s. split; [|split; [done|by rewrite Hne]].
  eapply (exec_cons _ None _ [5]); [eapply (step_call 0%nat 5); [reflexivity|lia]|].
  eapply (exec_cons _ None _ [5]); [eapply (step_call 1%nat 8); [reflexivity|lia]|done].
Qed.

Lemma add_rpc_stat_record_linearizable_witness :
  exists s : @cstate owner_mutex,
    execution cinit [5] s /\ stat_fold [5] zero_statistic = Some (cs_rs s) /\
    stat_fold [5] zero_statistic =
      Some {| rs_avg_time := 5; rs_max_time := 5; rs_tot_time := 5; rs_num := 1 |}.
Proof.
  destruct two_threads as (s & Hex & Hfree & _). exists s. split; [done|]. split; [|reflexivity].
  by apply (add_rpc_stat_record_linearizable [5] s Hex).
Defined.

Lemma add_rpc_stat_record_progress_witness :
  exists s : @cstate owner_mutex,
    execution cinit [5] s /\ exists l s', cstep s l s'.
Proof.
  destruct two_threads as (s & Hex & _ & Hp). exists s. split; [done|].
  apply (add_rpc_stat_record_progress [5] s 1%nat Hex); [by vm_compute|by rewrite Hp].
Defined.

End StatsConc.
