(* ===== verification/Resources.v ===== *)
(** Accounting of the Mero objects a run holds.

    [held] reads a trace of external calls and computes which objects have been
    initialised and not yet finalised; it fails on the finalisation of an
    object that is not held. It is the specification against which the
    clean-up code of the sources is checked. *)

From S2P Require Import Prelude CTypes Machine.
Local Open Scope Z_scope.

Inductive resource :=
| RMutex (m : ptr) | RXcode | RFopType (t : fop_type)
| RNetDomain (d : ptr) | RHaDomain (d : ptr)
| RPool (p : ptr) | RReqh (r : ptr) | RMachine (m : ptr)
| REndPoint (ep : ptr) | RConn (c : ptr) | RSession (s : ptr)
| RFom (f : ptr) | RInterface (hi : ptr) | RStarted (hi : ptr) | RThread (t : ptr).

#[export] Instance resource_eq_dec : EqDecision resource.
Proof. solve_decision. Defined.

Inductive action := Acquire (r : resource) | Release (r : resource) | Neutral.

(** An initialisation counts when it succeeds; a buffer pool has to be cleaned
    up after its set-up was attempted; [destroy] gives the object up whatever
    it returns. *)
Definition action_of (c : call) : ans c -> action :=
  match c return ans c -> action with
  | m0_mutex_init m => fun _ => Acquire (RMutex m)
  | m0_mutex_fini m => fun _ => Release (RMutex m)
  | m0_xc_rpclite_fop_init => fun _ => Acquire RXcode
  | m0_xc_rpclite_fop_fini => fun _ => Release RXcode
  | M0_FOP_TYPE_INIT t _ => fun _ => Acquire (RFopType t)
  | m0_fop_type_fini t => fun _ => Release (RFopType t)
  | m0_net_domain_init d => fun rc : Z => if rc =? 0 then Acquire (RNetDomain d) else Neutral
  | m0_net_domain_fini d => fun _ => Release (RNetDomain d)
  | m0_ha_domain_init d _ => fun _ => Acquire (RHaDomain d)
  | m0_ha_domain_fini d => fun _ => Release (RHaDomain d)
  | m0_rpc_net_buffer_pool_setup _ p _ _ => fun _ => Acquire (RPool p)
  | m0_rpc_net_buffer_pool_cleanup p => fun _ => Release (RPool p)
  | M0_REQH_INIT r _ => fun rc : Z => if rc =? 0 then Acquire (RReqh r) else Neutral
  | m0_reqh_fini r => fun _ => Release (RReqh r)
  | m0_rpc_machine_init m _ _ _ _ _ _ _ =>
      fun a : Z * ptr => if a.1 =? 0 then Acquire (RMachine m) else Neutral
  | m0_rpc_machine_fini m => fun _ => Release (RMachine m)
  | m0_net_end_point_create _ _ =>
      fun a : Z * ptr => if a.1 =? 0 then Acquire (REndPoint a.2) else Neutral
  | m0_net_end_point_put ep => fun _ => Release (REndPoint ep)
  | m0_rpc_conn_create c _ _ _ _ => fun rc : Z => if rc =? 0 then Acquire (RConn c) else Neutral
  | m0_rpc_conn_destroy c _ | m0_rpc_conn_fini c => fun _ => Release (RConn c)
  | m0_rpc_session_create s _ _ => fun rc : Z => if rc =? 0 then Acquire (RSession s) else Neutral
  | m0_rpc_session_destroy s _ | m0_rpc_session_fini s => fun _ => Release (RSession s)
  | m0_fom_init f _ _ => fun _ => Acquire (RFom f)
  | m0_fom_fini f => fun _ => Release (RFom f)
  | m0_halon_interface_init _ _ =>
      fun a : Z * ptr => if a.1 =? 0 then Acquire (RInterface a.2) else Neutral
  | m0_halon_interface_fini hi => fun _ => Release (RInterface hi)
  | m0_halon_interface_start hi _ _ _ _ _ =>
      fun rc : Z => if rc =? 0 then Acquire (RStarted hi) else Neutral
  | m0_halon_interface_stop hi => fun _ => Release (RStarted hi)
  | M0_THREAD_INIT t _ => fun rc : Z => if rc =? 0 then Acquire (RThread t) else Neutral
  | m0_thread_fini t => fun _ => Release (RThread t)
  | _ => fun _ => Neutral
  end.

(** Remove the most recently acquired occurrence. *)
Fixpoint hand_back (r : resource) (R : list resource) : option (list resource) :=
  match R with
  | [] => None
  | x :: R => if decide (x = r) then Some R else cons x <$> hand_back r R
  end.

Definition account (R : list resource) (e : event) : option (list resource) :=
  match action_of (ev_call e) (ev_ans e) with
  | Acquire r => Some (r :: R)
  | Release r => hand_back r R
  | Neutral => Some R
  end.

Definition held (R : list resource) (evs : list event) : option (list resource) :=
  foldl (fun o e => o ≫= fun R => account R e) (Some R) evs.

Lemma held_nil R : held R [] = Some R.
Proof. done. Qed.

Lemma held_None evs : foldl (fun o e => o ≫= fun R => account R e) None evs = None.
Proof. induction evs; auto. Qed.

Lemma held_cons R e evs : held R (e :: evs) = account R e ≫= fun R' => held R' evs.
Proof. unfold held. simpl. destruct (account R e); simpl; [done|apply held_None]. Qed.

Lemma held_app R e1 e2 : held R (e1 ++ e2) = held R e1 ≫= fun R' => held R' e2.
Proof.
  revert R. induction e1 as [|e e1 IH]; intros R; simpl; [done|].
  rewrite !held_cons. destruct (account R e); simpl; [apply IH|done].
Qed.

Lemma hand_back_head r R : hand_back r (r :: R) = Some R.
Proof. simpl. by rewrite decide_True. Qed.

Lemma hand_back_skip x r R : x <> r -> hand_back r (x :: R) = cons x <$> hand_back r R.
Proof. intros. simpl. by rewrite decide_False. Qed.

(** [delta evs w w' R R']: the run from [w] to [w'] made the calls [evs], which
    turn the held objects [R] into [R'] without an unmatched finalisation. *)
Definition balance {E : Env} (w w' : world) (R R' : list resource) : Prop :=
  exists evs, ran evs w w' /\ held R evs = Some R'.

Section Balance.
Context {E : Env}.

Lemma balance_refl w R : balance w w R R.
Proof. exists []. split; [apply ran_refl|done]. Qed.

Lemma balance_trans w1 w2 w3 R1 R2 R3 :
  balance w1 w2 R1 R2 -> balance w2 w3 R2 R3 -> balance w1 w3 R1 R3.
Proof.
  intros (e1 & Hr1 & H1) (e2 & Hr2 & H2). exists (e1 ++ e2).
  split; [by eapply ran_trans|]. by rewrite held_app, H1.
Qed.

(** One more event at the end of a run. *)
Lemma balance_log w w' R R' R'' c a s :
  balance w w' R R' -> account R' (Ev c a) = Some R'' -> balance w (log c a s w') R R''.
Proof.
  intros H Ha. eapply balance_trans; [done|]. exists [Ev c a]. split; [done|].
  by rewrite held_cons, Ha.
Qed.

Lemma balance_set_heap w w' f R R' : balance w w' R R' -> balance w (set_heap f w') R R'.
Proof. done. Qed.

Lemma balance_set_glob w w' f R R' : balance w w' R R' -> balance w (set_glob f w') R R'.
Proof. done. Qed.
End Balance.

(** ** The order in which objects were acquired does not matter *)

Lemma hand_back_perm r R R' : hand_back r R = Some R' -> R ≡ₚ r :: R'.
Proof.
  revert R'. induction R as [|x R IH]; intros R' H; [done|]. simpl in H.
  destruct (decide (x = r)) as [->|]; [by simplify_eq|].
  apply fmap_Some in H as (R'' & H & ->). rewrite (IH _ H). apply perm_swap.
Qed.

Lemma hand_back_is_Some r R : r ∈ R -> is_Some (hand_back r R).
Proof.
  induction 1 as [R|x y R _ [R' IH]]; simpl; [by rewrite decide_True|].
  destruct (decide _); [done|]. rewrite IH. done.
Qed.

Lemma account_perm R1 R2 e L1 :
  R1 ≡ₚ R2 -> account R1 e = Some L1 -> exists L2, account R2 e = Some L2 /\ L1 ≡ₚ L2.
Proof.
  unfold account. intros HR. destruct (action_of _ _) as [r|r|]; intros H; simplify_eq.
  - eexists. split; [done|]. by rewrite HR.
  - pose proof (hand_back_perm _ _ _ H) as Hp.
    destruct (hand_back_is_Some r R2) as [L2 H2].
    { rewrite <- HR, Hp. apply list_elem_of_here. }
    exists L2. split; [done|]. apply hand_back_perm in H2.
    apply (Permutation_cons_inv (a := r)). by rewrite <- Hp, <- H2.
  - by eexists.
Qed.

Lemma held_perm R1 R2 evs L1 :
  R1 ≡ₚ R2 -> held R1 evs = Some L1 -> exists L2, held R2 evs = Some L2 /\ L1 ≡ₚ L2.
Proof.
  revert R1 R2. induction evs as [|e evs IH]; intros R1 R2 HR H.
  - injection H as <-. by exists R2.
  - rewrite held_cons in H. apply bind_Some in H as (R & Ha & H).
    destruct (account_perm _ _ _ _ HR Ha) as (R' & Ha' & HR').
    destruct (IH _ _ HR' H) as (L2 & H2 & HL). exists L2. by rewrite held_cons, Ha'.
Qed.

(** ** What a run posts and which callbacks it makes *)

Definition posted_of (e : event) : option (ptr * m0_fop) :=
  match ev_call e with
  | m0_rpc_post item f => Some (item, f)
  | m0_rpc_post_sync fop _ _ f => Some (fop ~> F_f_item, f)
  | _ => None
  end.
Definition posted (evs : list event) : list (ptr * m0_fop) := omap posted_of evs.

Definition callback_of (e : event) : option (Z * ptr * ptr * rpc_status) :=
  match ev_call e with cb_reply f c ctx st => Some (f, c, ctx, st) | _ => None end.
Definition callbacks (evs : list event) : list (Z * ptr * ptr * rpc_status) := omap callback_of evs.

(** A run that neither acquires nor releases a Mero object. *)
Definition neutral (evs : list event) : Prop := forall R, held R evs = Some R.

(** A run that posts nothing and calls no reply callback. *)
Definition quiet {E : Env} (w w' : world) : Prop :=
  exists evs, ran evs w w' /\ posted evs = [] /\ callbacks evs = [].

Lemma posted_app e1 e2 : posted (e1 ++ e2) = posted e1 ++ posted e2.
Proof. apply omap_app. Qed.

Lemma callbacks_app e1 e2 : callbacks (e1 ++ e2) = callbacks e1 ++ callbacks e2.
Proof. apply omap_app. Qed.

Lemma neutral_app e1 e2 : neutral e1 -> neutral e2 -> neutral (e1 ++ e2).
Proof. intros H1 H2 R. rewrite held_app, H1. apply H2. Qed.

Ltac solve_quiet := eexists; split; [solve_ran|split; reflexivity].

(** Prove a [balance] goal by replaying the calls of the final world. *)
Ltac solve_account :=
  unfold account; cbn -[hand_back];
  repeat match goal with
  | H : ?x = 0 |- context [?x =? 0] => rewrite H
  | H : ?x <> 0 |- context [?x =? 0] => rewrite (proj2 (Z.eqb_neq x 0) H)
  | H : (?x =? 0) = _ |- context [?x =? 0] => rewrite H
  end; cbn -[hand_back];
  repeat first [rewrite hand_back_head | rewrite hand_back_skip by congruence]; cbn -[hand_back];
  reflexivity.

Ltac solve_balance :=
  lazymatch goal with
  | |- balance ?w ?w _ _ => apply balance_refl
  | |- balance _ (set_heap _ _) _ _ => apply balance_set_heap; solve_balance
  | |- balance _ (set_glob _ _) _ _ => apply balance_set_glob; solve_balance
  | |- balance _ (log _ _ _ _) _ _ => eapply balance_log; [solve_balance | solve_account]
  | |- _ => eassumption
  end.
