(* ===== verification/RpcInit.v ===== *)
(** Start-up and shut-down of rpclite: [rpclite_fop.c] (the fop types) and
    [rpc_init] / [rpc_fini] of rpclite.c. *)

From S2P Require Import Prelude CTypes Machine Stats Resources.
Local Open Scope Z_scope.

Module RpcInit.
Import Stats.
Section RpcInit.
Context {E : Env}.

(** [rpclite_fop.c] *)
Definition rpclite_fop_fini : M unit :=
  do! (m0_fop_type_fini m0_fop_rpclite_rep_fopt) ;;
  do! (m0_fop_type_fini m0_fop_rpclite_fopt) ;;
  do! m0_xc_rpclite_fop_fini.

Definition rpclite_fop_init : M Z :=
  do! m0_xc_rpclite_fop_init ;;
  do! (M0_FOP_TYPE_INIT m0_fop_rpclite_fopt
         {| ft_name := "Ping fop"; ft_opcode := M0_RPC_PING_OPCODE;
            ft_rpc_flags := [M0_RPC_ITEM_TYPE_REQUEST; M0_RPC_ITEM_TYPE_MUTABO];
            ft_fom_ops := Some m0_fom_rpclite_type_ops |}) ;;
  do! (M0_FOP_TYPE_INIT m0_fop_rpclite_rep_fopt
         {| ft_name := "Ping fop reply"; ft_opcode := M0_RPC_PING_REPLY_OPCODE;
            ft_rpc_flags := [M0_RPC_ITEM_TYPE_REPLY]; ft_fom_ops := None |}) ;;
  mret 0.

Definition net_dom : ptr := Ptr (Static client_net_dom) [].
Definition ha_dom : ptr := Ptr (Static client_ha_dom) [].

Definition set_max_epoch (x : Z) (g : globals) : globals :=
  {| client_max_epoch := x; rpc_stat := rpc_stat g;
     rpclite_listen_cbs := rpclite_listen_cbs g;
     ha_state_cbs := ha_state_cbs g; m0init_hi := m0init_hi g |}.

(** [rpc_init]: the two [goto] targets fall through, as in the source. *)
Definition rpc_init : M Z :=
  mod_glob (set_max_epoch 0) ;;
  rpc_stat_init ;;
  rc ← rpclite_fop_init;
  CHECK_RESULT rc (rpc_stat_fini ;; mret rc) (
  rc ← do! (m0_net_domain_init net_dom);
  CHECK_RESULT rc (rpclite_fop_fini ;; rpc_stat_fini ;; mret rc) (
  do! (m0_ha_domain_init ha_dom 0) ;;
  mret 0)).

Definition rpc_fini : M unit :=
  do! (m0_ha_domain_fini ha_dom) ;;
  do! (m0_net_domain_fini net_dom) ;;
  rpclite_fop_fini ;;
  rpc_stat_fini.

(** What a successful [rpc_init] holds, most recent first. *)
Definition rpc_resources : list resource :=
  [RHaDomain ha_dom; RNetDomain net_dom;
   RFopType m0_fop_rpclite_rep_fopt; RFopType m0_fop_rpclite_fopt; RXcode;
   RMutex (stat_lock 1); RMutex (stat_lock 0)].

Lemma rpc_init_spec R w :
  wp rpc_init (fun r w' => exists rc, r = Ok rc /\
    Ev (m0_net_domain_init net_dom) rc ∈ trace w' /\
    balance w w' R (if rc =? 0 then rpc_resources ++ R else R) /\
    heap w' = heap w /\ glob w' = set_max_epoch 0 (glob w) /\ quiet w w' /\
    answers (m0_net_domain_init net_dom) rc) w.
Proof.
  unfold rpc_init, rpc_stat_init, rpc_stat_fini, rpclite_fop_init, rpclite_fop_fini. simpl.
  wp_go; try done; reflect_Z; simplify_eq; eexists; (split; [reflexivity|]); (split; [solve_elem_trace|]).
  - split; [solve_balance|]. split; [done|]. split; [done|]. split; [solve_quiet|done].
  - rewrite (proj2 (Z.eqb_neq _ _) Heqb). split; [solve_balance|].
    split; [done|]. split; [done|]. split; [solve_quiet|done].
Qed.

(** [rpc_init] is all or nothing: it returns 0 exactly when the network
    domain could be initialised, and then holds the two domains, the two fop
    types, the xcode definitions and the two statistics mutexes; otherwise it
    returns Mero's error and has finalised everything it had initialised. In
    both cases [client_max_epoch] is reset and the statistics are kept. *)
Theorem rpc_init_all_or_nothing R w :
  wp rpc_init (fun r w' => exists rc, r = Ok rc /\
    Ev (m0_net_domain_init net_dom) rc ∈ trace w' /\
    balance w w' R (if rc =? 0 then rpc_resources ++ R else R) /\
    heap w' = heap w /\ glob w' = set_max_epoch 0 (glob w)) w.
Proof.
  eapply wp_mono; [apply (rpc_init_spec R)|].
  intros r w' (rc & Hr & Hin & Hb & Hh & Hg & _). by exists rc.
Qed.

Lemma wp_rpc_fini R w Q :
  (forall w', balance w w' (rpc_resources ++ R) R -> heap w' = heap w -> glob w' = glob w ->
     quiet w w' -> Q (Ok tt) w') ->
  wp rpc_fini Q w.
Proof.
  intros HQ. unfold rpc_fini, rpc_stat_fini, rpclite_fop_fini. simpl.
  wp_go. apply HQ; [|done|done|solve_quiet]. unfold rpc_resources. simpl. solve_balance.
Qed.

(** One use of the library: initialise and, if that worked, finalise. *)
Definition rpc_cycle : M unit :=
  rc ← rpc_init; if rc =? 0 then rpc_fini else mret tt.

(** [rpc_fini] undoes [rpc_init]: any number of initialise/finalise cycles,
    whether or not the individual initialisations succeed, always returns and
    leaves no Mero object initialised and none finalised twice. *)
Theorem rpc_cycles_balanced (cycles : list unit) R w :
  wp (for_each cycles (fun _ => rpc_cycle))
    (fun r w' => r = Ok tt /\ balance w w' R R /\ heap w' = heap w) w.
Proof.
  apply (wp_for_each _ _ (fun _ w' => balance w w' R R /\ heap w' = heap w)).
  - split; [apply balance_refl|done].
  - intros _ x _ w1 _ [Hb Hh]. unfold rpc_cycle. apply wp_bind.
    eapply wp_mono; [by eapply (rpc_init_spec R)|].
    intros r w2 (rc & -> & _ & Hb2 & Hh2 & _). wp_step.
    + apply (wp_rpc_fini R). intros w3 Hb3 Hh3 _ _.
      split; [done|]. split; [|congruence].
      eapply balance_trans; [done|]. by eapply balance_trans.
    + wp_step. split; [done|]. split; [|congruence]. by eapply balance_trans.
Qed.

End RpcInit.
End RpcInit.
