(* ===== verification/Endpoint.v ===== *)
(** Endpoints of rpclite.c: [rpc_create_endpoint], [rpc_destroy_endpoint],
    [rpc_get_rpc_machine] and [rpc_listen]. *)

From S2P Require Import Prelude CTypes Machine Resources RpcInit.
Local Open Scope Z_scope.

Module Endpoint.
Import RpcInit.
Section Endpoint.
Context {E : Env}.

Definition rpc_get_rpc_machine (e : ptr) : ptr := e ~> F_rpc_machine.

Definition set_local_address (s : string) (e : rpc_endpoint) : rpc_endpoint :=
  {| local_address := Some s; rm_reqh := rm_reqh e |}.
Definition set_rm_reqh (q : ptr) (e : rpc_endpoint) : rpc_endpoint :=
  {| local_address := local_address e; rm_reqh := Some q |}.

(** [char local_address[80]], [char remote_address[80]] *)
Definition ADDRESS_LEN : nat := 80.

(** [strlen (s) < 80] *)
Definition fits (s : string) : bool := (String.length s <? ADDRESS_LEN)%nat.

(** The label [pool_fini]. *)
Definition pool_fini (e : ptr) (rc : Z) : M (Z * ptr) :=
  do! (m0_rpc_net_buffer_pool_cleanup (e ~> F_buffer_pool)) ;; mret (rc, e).

(** The result is the return code and the value left in [*e]; [out] is the
    address of the caller's variable. *)
Definition rpc_create_endpoint (addr_s : string) (out : ptr) : M (Z * ptr) :=
  let process_fid := M0_FID_TINIT 114 0 1 in  (* 'r' *)
  M0_ASSERT (bool_decide (out <> Null)) ;;
  e ← malloc A_endpoint (OEndpoint {| local_address := None; rm_reqh := None |});
  M0_ASSERT (fits addr_s) ;;
  ep ← load_endpoint e;
  store e (OEndpoint (set_local_address addr_s ep)) ;;
  bufs_nr ← do! (m0_rpc_bufs_nr (const M0_NET_TM_RECV_QUEUE_DEF_LEN) 1);
  rc ← do! (m0_rpc_net_buffer_pool_setup net_dom (e ~> F_buffer_pool) bufs_nr 1);
  CHECK_RESULT rc (pool_fini e rc) (
  reqh ← malloc A_reqh OReqh;
  M0_ASSERT (bool_decide (reqh <> Null)) ;;
  rc ← do! (M0_REQH_INIT reqh process_fid);
  if negb (rc =? 0) then pool_fini e rc else
  do! (m0_reqh_start reqh) ;;
  a ← do! (m0_rpc_machine_init (rpc_get_rpc_machine e) net_dom addr_s reqh (e ~> F_buffer_pool)
             (const M0_BUFFER_ANY_COLOUR) MAX_MSG_SIZE QUEUE_LEN);
  CHECK_RESULT a.1 (pool_fini e a.1) (
  ep ← load_endpoint e;
  store e (OEndpoint (set_rm_reqh a.2 ep)) ;;
  mret (0, e))).

Definition rpc_destroy_endpoint (e : ptr) : M unit :=
  ep ← load_endpoint e;
  reqh ← expect (rm_reqh ep);
  do! (m0_rpc_machine_fini (rpc_get_rpc_machine e)) ;;
  do! (m0_reqh_services_terminate reqh) ;;
  do! (m0_reqh_fini reqh) ;;
  free reqh ;;
  do! (m0_rpc_net_buffer_pool_cleanup (e ~> F_buffer_pool)) ;;
  free e.

Definition set_listen_cbs (cbs : rpc_listen_callbacks) (g : globals) : globals :=
  {| client_max_epoch := client_max_epoch g; rpc_stat := rpc_stat g;
     rpclite_listen_cbs := cbs; ha_state_cbs := ha_state_cbs g; m0init_hi := m0init_hi g |}.

(** [cbs = NULL] registers no callback. *)
Definition rpc_listen (address : string) (cbs : option rpc_listen_callbacks) (out : ptr)
  : M (Z * ptr) :=
  match cbs with
  | Some cbs => mod_glob (set_listen_cbs cbs)
  | None => mod_glob (set_listen_cbs {| connection_callback := None;
                                        disconnected_callback := None;
                                        receive_callback := None |})
  end ;;
  rpc_create_endpoint address out.

Definition endpoint_obj (s : string) (q : option ptr) : object :=
  OEndpoint {| local_address := Some s; rm_reqh := q |}.

Definition endpoint_resources (e reqh : ptr) : list resource :=
  [RMachine (rpc_get_rpc_machine e); RReqh reqh; RPool (e ~> F_buffer_pool)].

(** Every way [rpc_create_endpoint] can end, with what it leaves behind. *)
Definition create_post (s : string) (R : list resource) (w : world)
    (r : res (Z * ptr)) (w' : world) : Prop :=
  match r with
  | Ok (rc, e) => fits s = true /\ exists a, e = addr a /\ heap w !! a = None /\
      if rc =? 0 then
        exists b q, heap w !! b = None /\ b <> a /\
          heap w' = <[a := endpoint_obj s (Some q)]> (<[b := OReqh]> (heap w)) /\
          balance w w' R (endpoint_resources e (addr b) ++ R) /\
          answers (m0_rpc_machine_init (rpc_get_rpc_machine e) net_dom s (addr b) (e ~> F_buffer_pool)
                (const M0_BUFFER_ANY_COLOUR) MAX_MSG_SIZE QUEUE_LEN) (0, q)
      else
        (heap w' = <[a := endpoint_obj s None]> (heap w) /\ balance w w' R R) \/
        (exists b (reqh_ok : bool), heap w !! b = None /\ b <> a /\
          heap w' = <[a := endpoint_obj s None]> (<[b := OReqh]> (heap w)) /\
          balance w w' R ((if reqh_ok then [RReqh (addr b)] else []) ++ R))
  | Aborted => fits s = false \/ Ev (alloc A_reqh) false ∈ trace w' /\ answers (alloc A_reqh) false
  | Undefined => fits s = true /\ (Ev (alloc A_endpoint) false ∈ trace w' /\ heap w' = heap w) /\
      answers (alloc A_endpoint) false
  | Exited _ => False
  end.

(** The error [rpc_create_endpoint] returns is one of Mero's. *)
Definition create_error (rc : Z) : Prop :=
  (exists d p n k, answers (m0_rpc_net_buffer_pool_setup d p n k) rc) \/
  (exists q f, answers (M0_REQH_INIT q f) rc) \/
  (exists m d s q p c z n a, answers (m0_rpc_machine_init m d s q p c z n) (rc, a)).

#[local] Arguments create_post : simpl never.
#[local] Arguments fits : simpl never.
#[local] Arguments rpc_get_rpc_machine : simpl never.

Lemma insert_twice {A} (m : gmap positive A) a b x y z :
  a <> b -> <[a := x]> (<[b := z]> (<[a := y]> m)) = <[a := x]> (<[b := z]> m).
Proof. intros. by rewrite (insert_insert_ne m), insert_insert_eq by done. Qed.

Ltac solve_create_error :=
  simpl in *; first
    [ done
    | left; do 4 eexists; eassumption
    | right; left; do 2 eexists; eassumption
    | right; right; match goal with a : (Z * ptr)%type |- _ =>
        destruct a; do 9 eexists; eassumption end ].

Lemma rpc_create_endpoint_spec s out R w :
  out <> Null ->
  wp (rpc_create_endpoint s out)
    (fun r w' => create_post s R w r w' /\ glob w' = glob w /\ quiet w w' /\
       forall v, r = Ok v -> v.1 <> 0 -> create_error v.1) w.
Proof.
  intros Hout. unfold rpc_create_endpoint, load_endpoint, pool_fini.
  rewrite bool_decide_true by done. wp_go; try done.
  all: (split; [|split; [done|split; [solve_quiet|first [by intros ? [=]|intros ? [= <-] Hv]]]]);
    try match goal with |- create_error _ => solve_create_error end; unfold create_post; reflect_Z.
  - (* the endpoint itself could not be allocated *)
    repeat split; [done|solve_elem_trace|done].
  - by left.
  - right. split; [solve_elem_trace|done].
  - (* the request handler failed to start *)
    apply negb_true_iff in Heqb0. rewrite Heqb0. split; [done|]. exists a. repeat split; [done|].
    right. exists a2, false. repeat split; [done..| |solve_balance].
    simpl. rewrite insert_insert_eq. apply insert_insert_ne. congruence.
  - (* success *)
    apply negb_false_iff in Heqb0. reflect_Z. subst.
    split; [done|]. exists a. repeat split; [done|].
    destruct a4 as [rc q]. simpl in *. subst rc. exists a2, q.
    repeat split; [done..| |solve_balance|done].
    rewrite insert_insert_eq, insert_twice by congruence. done.
  - (* the rpc machine failed *)
    apply negb_false_iff in Heqb0. reflect_Z. subst.
    split; [done|]. exists a. repeat split; [done|].
    rewrite (proj2 (Z.eqb_neq _ _) Heqb1). right. exists a2, true.
    repeat split; [done..| |solve_balance].
    simpl. rewrite insert_insert_eq. apply insert_insert_ne. congruence.
  - (* the buffer pool failed *)
    rewrite (proj2 (Z.eqb_neq _ _) Heqb). split; [done|]. exists a. repeat split; [done|].
    left. split; [|solve_balance]. simpl. by rewrite insert_insert_eq.
  - by left.
Qed.

(** Every outcome of [rpc_create_endpoint]: success leaves a new endpoint
    that stores the address, a new request handler, and exactly the rpc
    machine, the request handler and the buffer pool initialised; an address of
    80 or more characters aborts; a failed [malloc] of the endpoint is
    dereferenced; on any other failure the code is returned. *)
Theorem rpc_create_endpoint_outcomes s out R w :
  out <> Null -> wp (rpc_create_endpoint s out) (create_post s R w) w.
Proof.
  intros. eapply wp_mono; [by apply rpc_create_endpoint_spec|]. by intros r w' [? _].
Qed.

(** A failed [rpc_create_endpoint] leaks: when it returns a non-zero code,
    the endpoint it allocated is still allocated (no function frees it, as the
    caller is told it holds an endpoint only on success). *)
Theorem rpc_create_endpoint_failure_leaks s out w :
  out <> Null ->
  wp (rpc_create_endpoint s out)
    (fun r w' => forall rc e, r = Ok (rc, e) -> rc <> 0 ->
       exists a, e = addr a /\ heap w !! a = None /\
                 heap w' !! a = Some (endpoint_obj s None)) w.
Proof.
  intros Hout. eapply wp_mono; [by apply (rpc_create_endpoint_spec s out [])|].
  intros r w' [Hpost _] rc e -> Hrc. destruct Hpost as (_ & a & -> & Ha & Hpost).
  rewrite (proj2 (Z.eqb_neq rc 0) Hrc) in Hpost. exists a. repeat split; [done|].
  destruct Hpost as [(-> & _)|(b & ok & _ & _ & -> & _)]; by rewrite lookup_insert_eq.
Qed.

(** What [rpc_destroy_endpoint] needs of Mero: [m0_rpc_machine_init] keeps the
    request handler it is given in [rm_reqh]. *)
Definition machine_keeps_reqh : Prop :=
  forall m d s reqh pool c sz n q,
    answers (m0_rpc_machine_init m d s reqh pool c sz n) (0, q) -> q = reqh.

Lemma wp_rpc_destroy_endpoint a b s R w Q :
  a <> b -> heap w !! a = Some (endpoint_obj s (Some (addr b))) -> heap w !! b = Some OReqh ->
  (forall w', heap w' = delete a (delete b (heap w)) -> glob w' = glob w ->
     balance w w' (endpoint_resources (addr a) (addr b) ++ R) R -> quiet w w' -> Q (Ok tt) w') ->
  wp (rpc_destroy_endpoint (addr a)) Q w.
Proof.
  intros Hab Ha Hb HQ. unfold rpc_destroy_endpoint, load_endpoint. wp_go.
  apply HQ; [done..| |solve_quiet]. unfold endpoint_resources. simpl. solve_balance.
Qed.

(** Create, and destroy what was created. *)
Definition endpoint_cycle (s : string) (out : ptr) : M bool :=
  r ← rpc_create_endpoint s out;
  if r.1 =? 0 then rpc_destroy_endpoint r.2 ;; mret true else mret false.

(** How the pair ends: complete and clean, with an error reported, on an
    assertion, or on the unchecked allocation of the endpoint. *)
Definition endpoint_cycle_post (s : string) (R : list resource) (w : world)
    (r : res bool) (w' : world) : Prop :=
  match r with
  | Ok true => heap w' = heap w /\ balance w w' R R
  | Ok false => heap w ⊆ heap w'
  | Aborted => fits s = false \/ Ev (alloc A_reqh) false ∈ trace w'
  | Undefined => Ev (alloc A_endpoint) false ∈ trace w' /\ heap w' = heap w
  | Exited _ => False
  end.

(** Round trip: an endpoint that was created successfully and is then
    destroyed leaves the heap as it was and every Mero object it initialised
    finalised exactly once, provided Mero keeps the request handler. The
    destruction always completes; the pair can only stop in the creation, on
    an address that is too long or for lack of memory. *)
Theorem endpoint_roundtrip s out R w :
  machine_keeps_reqh -> out <> Null ->
  wp (endpoint_cycle s out) (endpoint_cycle_post s R w) w.
Proof.
  intros Hlaw Hout. unfold endpoint_cycle. apply wp_bind.
  eapply wp_mono; [by apply (rpc_create_endpoint_spec s out R)|].
  intros [[rc e]| | |] w1 [Hpost _]; [|destruct Hpost as [?|[? _]]; [by left|by right]|done|by destruct Hpost as (_ & ? & _)].
  destruct Hpost as (_ & a & -> & Ha & Hpost). simpl. wp_step.
  - destruct Hpost as (b & q & Hb & Hne & Hh & Hbal & Hq). apply Hlaw in Hq as ->.
    wp_step. eapply (wp_rpc_destroy_endpoint a b s R); [done|rewrite Hh..|].
    + by rewrite lookup_insert_eq.
    + by rewrite lookup_insert_ne, lookup_insert_eq by done.
    + intros w2 Hh2 _ Hbal2 _. wp_step. split; [|by eapply balance_trans].
      rewrite Hh2, Hh, (delete_insert_ne _ b a), !delete_insert_eq by done.
      by rewrite (delete_id (heap w) b), (delete_id (heap w) a).
  - wp_step. destruct Hpost as [[-> _]|(b & ok & Hb & Hne & -> & _)].
    + by apply insert_subseteq.
    + etrans; [by apply (insert_subseteq _ b OReqh)|]. apply insert_subseteq.
      by rewrite lookup_insert_ne.
Qed.

(** [rpc_listen] registers exactly the given callbacks (none for [NULL]); its
    outcomes are otherwise those of [rpc_create_endpoint]. *)
Lemma rpc_listen_registers s cbs out R w :
  out <> Null ->
  wp (rpc_listen s cbs out)
    (fun r w' => create_post s R w r w' /\
       rpclite_listen_cbs (glob w') =
         default {| connection_callback := None; disconnected_callback := None;
                    receive_callback := None |} cbs) w.
Proof.
  intros Hout. unfold rpc_listen. wp_step. destruct cbs as [cbs|]; wp_step;
    (eapply wp_mono; [by apply (rpc_create_endpoint_spec s out R)|]);
    intros r w' (Hpost & Hg & _); (split; [exact Hpost|]); by rewrite Hg.
Qed.

End Endpoint.

(** ** Witnesses *)

(** Everything succeeds, and Mero keeps the request handler. *)
Definition keep_reqh (c : call) : ans c :=
  match c return ans c with
  | m0_rpc_machine_init _ _ _ reqh _ _ _ _ => (0, reqh)
  | c => succeed c
  end.

(** The rpc machine cannot be initialised (for instance, the address is taken). *)
Definition no_machine (c : call) : ans c :=
  match c return ans c with
  | m0_rpc_machine_init _ _ _ _ _ _ _ _ => (-98, Null)
  | c => succeed c
  end.

Definition var : ptr := Ptr (Foreign 100) [].

Lemma keep_reqh_law : @machine_keeps_reqh (fixed_env keep_reqh).
Proof. intros m d s reqh pool c sz n q [[] Hs]. simpl in Hs. unfold norm in Hs. by simplify_eq. Qed.

Lemma rpc_create_endpoint_outcomes_witness :
  wp (rpc_create_endpoint "0@lo:12345:34:10" var)
    (create_post "0@lo:12345:34:10" [] (start keep_reqh)) (start keep_reqh) /\
  (rpc_create_endpoint "0@lo:12345:34:10" var (start keep_reqh)).1 = Ok (0, addr 1).
Proof.
  split; [by apply (rpc_create_endpoint_outcomes "0@lo:12345:34:10" var [] (start keep_reqh))|].
  vm_compute. reflexivity.
Defined.

Lemma rpc_create_endpoint_failure_leaks_witness :
  let w := start no_machine in
  (rpc_create_endpoint "0@lo:12345:34:10" var w).1 = Ok (-98, addr 1) /\
  wp (rpc_create_endpoint "0@lo:12345:34:10" var)
    (fun r w' => forall rc e, r = Ok (rc, e) -> rc <> 0 ->
       exists a, e = addr a /\ heap w !! a = None /\
                 heap w' !! a = Some (endpoint_obj "0@lo:12345:34:10" None)) w.
Proof.
  intros w. split; [vm_compute; reflexivity|].
  by apply (rpc_create_endpoint_failure_leaks "0@lo:12345:34:10" var w).
Defined.

Lemma endpoint_roundtrip_witness :
  wp (endpoint_cycle "0@lo:12345:34:10" var)
    (endpoint_cycle_post "0@lo:12345:34:10" [] (start keep_reqh)) (start keep_reqh) /\
  (endpoint_cycle "0@lo:12345:34:10" var (start keep_reqh)).1 = Ok true.
Proof.
  split; [|vm_compute; reflexivity].
  by apply (endpoint_roundtrip "0@lo:12345:34:10" var [] (start keep_reqh) keep_reqh_law).
Defined.

End Endpoint.
