(* ===== verification/Connection.v ===== *)
(** Connections of rpclite.c: [rpc_connect_rpc_machine], [rpc_connect],
    [rpc_disconnect], [rpc_release_connection], [client_fini] and
    [rpc_get_session]. *)

From S2P Require Import Prelude CTypes Machine Stats Resources RpcInit Endpoint.
Local Open Scope Z_scope.

Module Connection.
Import Stats Endpoint.
Section Connection.
Context {E : Env}.

Definition rpc_get_session (c : ptr) : ptr := c ~> F_session.

Definition set_remote_address (s : string) (c : rpc_connection) : rpc_connection :=
  {| remote_address := Some s; remote_ep := remote_ep c |}.
Definition set_remote_ep (ep : ptr) (c : rpc_connection) : rpc_connection :=
  {| remote_address := remote_address c; remote_ep := Some ep |}.

(** The result is the return code and the value left in [*c]; [out] is the
    address of the caller's variable. *)
Definition rpc_connect_rpc_machine (rpc_machine : ptr) (addr_s : string) (timeout_s : Z)
    (out : ptr) : M (Z * ptr) :=
  M0_ASSERT (bool_decide (out <> Null)) ;;
  time ← do! m0_time_now;
  c ← malloc A_connection (OConnection {| remote_address := None; remote_ep := None |});
  M0_ASSERT (fits addr_s) ;;
  conn ← load_connection c;
  store c (OConnection (set_remote_address addr_s conn)) ;;
  a ← do! (m0_net_end_point_create (rpc_machine ~> F_rm_tm) addr_s);
  CHECK_RESULT a.1 (mret (a.1, c)) (
  conn ← load_connection c;
  store c (OConnection (set_remote_ep a.2 conn)) ;;
  deadline ← do! (m0_time_from_now timeout_s 0);
  rc ← do! (m0_rpc_conn_create (c ~> F_connection) a.2 rpc_machine MAX_RPCS_IN_FLIGHT deadline);
  do! (m0_net_end_point_put a.2) ;;
  if rc =? 0 then
    now ← do! m0_time_now;
    time ← do! (m0_time_sub now time);
    add_rpc_stat_record RPC_STAT_CONN time ;;
    deadline ← do! (m0_time_from_now timeout_s 0);
    rc ← do! (m0_rpc_session_create (rpc_get_session c) (c ~> F_connection) deadline);
    CHECK_RESULT rc
      (do! (m0_rpc_conn_destroy (c ~> F_connection) (u64 timeout_s)) ;; mret (rc, c))
      (mret (rc, c))
  else mret (rc, c)).

Definition rpc_connect (e : ptr) (addr_s : string) (timeout_s : Z) (out : ptr) : M (Z * ptr) :=
  rpc_connect_rpc_machine (rpc_get_rpc_machine e) addr_s timeout_s out.

Definition client_fini (cctx : ptr) (timeout_s : Z) : M Z :=
  _ ← do! (m0_rpc_session_destroy (cctx ~> F_rcx_session) (u64 timeout_s));
  rc ← do! (m0_rpc_conn_destroy (cctx ~> F_rcx_connection) (u64 timeout_s));
  do! (m0_rpc_machine_fini (cctx ~> F_rcx_rpc_machine)) ;;
  do! (m0_rpc_net_buffer_pool_cleanup (cctx ~> F_rcx_buffer_pool)) ;;
  mret rc.

(** Both results go to [rc]; an empty [onError] continues. *)
Definition rpc_disconnect (c : ptr) (timeout_s : Z) : M Z :=
  _ ← do! (m0_rpc_session_destroy (rpc_get_session c) (const M0_TIME_NEVER));
  rc ← do! (m0_rpc_conn_destroy (c ~> F_connection) (const M0_TIME_NEVER));
  free c ;;
  mret rc.

Definition rpc_release_connection (c : ptr) : M unit :=
  do! (m0_rpc_session_fini (rpc_get_session c)) ;;
  do! (m0_rpc_conn_fini (c ~> F_connection)) ;;
  free c.

Definition connection_obj (s : string) (ep : option ptr) : object :=
  OConnection {| remote_address := Some s; remote_ep := ep |}.

Definition connection_resources (c : ptr) : list resource :=
  [RSession (rpc_get_session c); RConn (c ~> F_connection)].

(** The statistics after a connection was timed. *)
Definition timed (g g' : globals) : Prop :=
  exists rs rs' time, rpc_stat g !! rpc_stat_idx RPC_STAT_CONN = Some rs /\
    stat_add time rs = Some rs' /\ 0 <= time < 2 ^ 64 /\ g' = set_stat RPC_STAT_CONN rs' g.

(** Every way [rpc_connect_rpc_machine] can end. *)
Definition connect_post (s : string) (R : list resource) (w : world)
    (r : res (Z * ptr)) (w' : world) : Prop :=
  match r with
  | Ok (rc, c) => fits s = true /\ exists a, c = addr a /\ heap w !! a = None /\
      if rc =? 0 then
        exists ep, heap w' = <[a := connection_obj s (Some ep)]> (heap w) /\
          balance w w' R (connection_resources c ++ R) /\ timed (glob w) (glob w')
      else
        (exists ep, heap w' = <[a := connection_obj s ep]> (heap w)) /\
        balance w w' R R /\ (glob w' = glob w \/ timed (glob w) (glob w'))
  | Aborted => fits s = false
  | Undefined => Ev (alloc A_connection) false ∈ trace w' /\ answers (alloc A_connection) false \/
      exists rs time, rpc_stat (glob w) !! rpc_stat_idx RPC_STAT_CONN = Some rs /\
        stat_add time rs = None /\ 0 <= time < 2 ^ 64
  | Exited _ => False
  end.

(** The error [rpc_connect] returns is one of Mero's. *)
Definition connect_error (rc : Z) : Prop :=
  (exists tm s p, answers (m0_net_end_point_create tm s) (rc, p)) \/
  (exists c ep m n d, answers (m0_rpc_conn_create c ep m n d) rc) \/
  (exists s c d, answers (m0_rpc_session_create s c d) rc).

Ltac solve_connect_error :=
  simpl in *; first
    [ right; left; do 5 eexists; eassumption
    | right; right; do 3 eexists; eassumption
    | left; match goal with a : (Z * ptr)%type |- _ =>
        destruct a; do 3 eexists; eassumption end ].

#[local] Arguments connect_post : simpl never.
#[local] Arguments fits : simpl never.
#[local] Arguments rpc_get_session : simpl never.

Lemma rpc_connect_spec m s timeout out R w :
  out <> Null -> length (rpc_stat (glob w)) = RPC_STAT_NR ->
  wp (rpc_connect_rpc_machine m s timeout out)
    (fun r w' => connect_post s R w r w' /\ forall v, r = Ok v -> quiet w w' /\ connect_error v.1) w.
Proof.
  intros Hout Hlen.
  assert (exists rs, rpc_stat (glob w) !! rpc_stat_idx RPC_STAT_CONN = Some rs) as [rs Hrs].
  { apply lookup_lt_is_Some. rewrite Hlen. simpl. unfold RPC_STAT_NR. lia. }
  unfold rpc_connect_rpc_machine, load_connection.
  rewrite bool_decide_true by done.
  wp_go; try (split; [|first [by intros ? [=]|intros ? [= <-]; split; [solve_quiet|solve_connect_error]]]); try done.
  - left. split; [solve_elem_trace|done].
  - eapply wp_add_rpc_stat_record; [exact Hrs| |].
    + intros rs' s9 s10 Hadd. assert (timed (glob w) (set_stat RPC_STAT_CONN rs' (glob w))) as Ht.
      { by exists rs, rs', a5. }
      wp_go; (split; [|intros ? [= <-]; split; [solve_quiet|solve_connect_error]]); unfold connect_post; rewrite Heqb1;
        (split; [done|]); exists a0;
        repeat split; try done; reflect_Z; simplify_eq.
      * exists a1.2. split; [|split; [|done]].
        -- simpl. by rewrite !insert_insert_eq.
        -- unfold connection_resources. simpl. solve_balance.
      * eexists. simpl. by rewrite !insert_insert_eq.
      * solve_balance.
      * by right.
    + intros w' Hadd _. split; [|by intros ? [=]]. right. by exists rs, a5.
  - unfold connect_post. rewrite Heqb0. split; [done|]. exists a0. repeat split; [done|..].
    + eexists. simpl. by rewrite !insert_insert_eq.
    + reflect_Z. simplify_eq. solve_balance.
    + by left.
  - unfold connect_post. rewrite Heqb. split; [done|]. exists a0. repeat split; [done|..].
    + eexists. simpl. by rewrite !insert_insert_eq.
    + reflect_Z. solve_balance.
    + by left.
Qed.

(** Every outcome of [rpc_connect]: success leaves a new connection object
    that stores the address, one initialised connection and one initialised
    session, the network end point released, and the connection time recorded
    in the statistics; after a failure Mero's error is returned and no
    connection, session or end point is left initialised. *)
Theorem rpc_connect_outcomes e s timeout out R w :
  out <> Null -> length (rpc_stat (glob w)) = RPC_STAT_NR ->
  wp (rpc_connect e s timeout out) (connect_post s R w) w.
Proof.
  intros Hout Hlen. eapply wp_mono; [by apply (rpc_connect_spec _ s timeout out R)|]. by intros r w' [? _].
Qed.

(** A failed [rpc_connect] leaks: when it returns a non-zero code the
    connection object it allocated is still allocated. *)
Theorem rpc_connect_failure_leaks e s timeout out w :
  out <> Null -> length (rpc_stat (glob w)) = RPC_STAT_NR ->
  wp (rpc_connect e s timeout out)
    (fun r w' => forall rc c, r = Ok (rc, c) -> rc <> 0 ->
       exists a ep, c = addr a /\ heap w !! a = None /\
                    heap w' !! a = Some (connection_obj s ep)) w.
Proof.
  intros Hout Hlen. eapply wp_mono; [by apply (rpc_connect_spec _ s timeout out [])|].
  intros r w' [Hpost _] rc c -> Hrc. destruct Hpost as (_ & a & -> & Ha & Hpost).
  rewrite (proj2 (Z.eqb_neq rc 0) Hrc) in Hpost. destruct Hpost as ((ep & ->) & _).
  exists a, ep. repeat split; [done|]. by rewrite lookup_insert_eq.
Qed.

Lemma wp_rpc_disconnect a timeout o R w Q :
  heap w !! a = Some o ->
  (forall rc1 rc2 w',
     ran [Ev (m0_rpc_session_destroy (rpc_get_session (addr a)) (const M0_TIME_NEVER)) rc1;
          Ev (m0_rpc_conn_destroy (addr a ~> F_connection) (const M0_TIME_NEVER)) rc2] w w' ->
     balance w w' (connection_resources (addr a) ++ R) R ->
     heap w' = delete a (heap w) -> glob w' = glob w -> Q (Ok rc2) w') ->
  wp (rpc_disconnect (addr a) timeout) Q w.
Proof.
  intros Ha HQ. unfold rpc_disconnect. wp_go.
  eapply (HQ a0 a1); [|unfold connection_resources; simpl; solve_balance|done..].
  unfold ran. simpl. by rewrite <- (assoc_L (++)).
Qed.

Lemma wp_rpc_release_connection a o R w Q :
  heap w !! a = Some o ->
  (forall w', balance w w' (connection_resources (addr a) ++ R) R ->
     heap w' = delete a (heap w) -> glob w' = glob w -> quiet w w' -> Q (Ok tt) w') ->
  wp (rpc_release_connection (addr a)) Q w.
Proof.
  intros Ha HQ. unfold rpc_release_connection. wp_go.
  apply HQ; [unfold connection_resources; simpl; solve_balance|done|done|solve_quiet].
Qed.

(** [rpc_disconnect] destroys the session and then the connection, each
    exactly once and without a time limit whatever [timeout_s] is, frees the
    object, and returns the result of the second destruction only: an error of
    [m0_rpc_session_destroy] is never reported. *)
Theorem rpc_disconnect_behaviour a timeout o w :
  heap w !! a = Some o ->
  wp (rpc_disconnect (addr a) timeout)
    (fun r w' => exists rc_session rc_conn, r = Ok rc_conn /\
       ran [Ev (m0_rpc_session_destroy (rpc_get_session (addr a)) (const M0_TIME_NEVER)) rc_session;
            Ev (m0_rpc_conn_destroy (addr a ~> F_connection) (const M0_TIME_NEVER)) rc_conn] w w' /\
       heap w' = delete a (heap w)) w.
Proof.
  intros Ha. eapply (wp_rpc_disconnect a timeout o []); [done|].
  intros rc1 rc2 w' Hran _ Hh _. by exists rc1, rc2.
Qed.

(** Connect, and close the connection in one of the two ways. *)
Definition connection_cycle (release : bool) (e : ptr) (s : string) (timeout timeout' : Z)
    (out : ptr) : M bool :=
  r ← rpc_connect e s timeout out;
  if r.1 =? 0 then
    (if release then rpc_release_connection r.2
     else rpc_disconnect r.2 timeout' ;; mret tt) ;; mret true
  else mret false.

(** How the pair ends: complete and clean, with an error reported, on the
    assertion on the address, for lack of memory or on a wrapped counter. *)
Definition connection_cycle_post (s : string) (R : list resource) (w : world)
    (r : res bool) (w' : world) : Prop :=
  match r with
  | Ok true => heap w' = heap w /\ balance w w' R R
  | Ok false => heap w ⊆ heap w' /\ balance w w' R R
  | Aborted => fits s = false
  | Undefined => Ev (alloc A_connection) false ∈ trace w' \/
      exists rs time, rpc_stat (glob w) !! rpc_stat_idx RPC_STAT_CONN = Some rs /\
        stat_add time rs = None
  | Exited _ => False
  end.

(** Round trip: connecting and then closing the connection, by
    [rpc_disconnect] or by [rpc_release_connection], restores the heap and
    leaves every Mero object that was initialised finalised exactly once; a
    connection that fails leaves none initialised either. Closing always
    completes; the pair can only stop in [rpc_connect], on an address that is
    too long, for lack of memory or when the statistics wrap. *)
Theorem connection_roundtrip release e s timeout timeout' out R w :
  out <> Null -> length (rpc_stat (glob w)) = RPC_STAT_NR ->
  wp (connection_cycle release e s timeout timeout' out) (connection_cycle_post s R w) w.
Proof.
  intros Hout Hlen. unfold connection_cycle. apply wp_bind.
  eapply wp_mono; [by apply (rpc_connect_spec _ s timeout out R)|].
  intros [[rc c]| | |] w1 [Hpost _];
    [|done|done|destruct Hpost as [[? _]|(rs & time & ? & ? & _)]; [by left|right; by exists rs, time]].
  destruct Hpost as (_ & a & -> & Ha & Hpost). simpl. wp_step.
  2:{ wp_step. destruct Hpost as ((ep & Hh) & Hbal & _). split; [|done].
      rewrite Hh. by apply insert_subseteq. }
  destruct Hpost as (ep & Hh & Hbal & _).
  assert (heap w1 !! a = Some (connection_obj s (Some ep))) as Ha1.
  { rewrite Hh. by rewrite lookup_insert_eq. }
  assert (delete a (heap w1) = heap w) as Hdel.
  { by rewrite Hh, delete_insert_eq, delete_id. }
  destruct release.
  - wp_step. eapply (wp_rpc_release_connection a _ R); [done|].
    intros w2 Hbal2 Hh2 _ _. wp_step. split; [congruence|]. by eapply balance_trans.
  - wp_step. wp_step. eapply (wp_rpc_disconnect a timeout' _ R); [done|].
    intros rc1 rc2 w2 _ Hbal2 Hh2 _. wp_go.
    split; [congruence|]. by eapply balance_trans.
Qed.

End Connection.

(** ** Witnesses *)

Definition no_session (c : call) : ans c :=
  match c return ans c with
  | m0_rpc_session_create _ _ _ | m0_rpc_session_destroy _ _ => -110
  | c => succeed c
  end.

Definition peer : string := "0@lo:12345:34:1".
Definition ep0 : ptr := Ptr (Foreign 50) [].

Lemma rpc_connect_outcomes_witness :
  wp (rpc_connect ep0 peer 3 var) (connect_post peer [] (start succeed)) (start succeed) /\
  (rpc_connect ep0 peer 3 var (start succeed)).1 = Ok (0, addr 1).
Proof.
  split; [|vm_compute; reflexivity].
  by apply (rpc_connect_outcomes ep0 peer 3 var [] (start succeed)).
Defined.

Lemma rpc_connect_failure_leaks_witness :
  let w := start no_session in
  (rpc_connect ep0 peer 3 var w).1 = Ok (-110, addr 1) /\
  wp (rpc_connect ep0 peer 3 var)
    (fun r w' => forall rc c, r = Ok (rc, c) -> rc <> 0 ->
       exists a ep, c = addr a /\ heap w !! a = None /\
                    heap w' !! a = Some (connection_obj peer ep)) w.
Proof.
  intros w. split; [vm_compute; reflexivity|].
  by apply (rpc_connect_failure_leaks ep0 peer 3 var w).
Defined.

(** The session cannot be terminated, and the caller is told "success". *)
Lemma rpc_disconnect_behaviour_witness :
  let o := connection_obj peer (Some ep0) in
  let w := set_heap (<[1%positive := o]>) (start no_session) in
  (rpc_disconnect (addr 1) 2 w).1 = Ok 0 /\
  wp (rpc_disconnect (addr 1) 2)
    (fun r w' => exists rc_session rc_conn, r = Ok rc_conn /\
       ran [Ev (m0_rpc_session_destroy (rpc_get_session (addr 1)) 7) rc_session;
            Ev (m0_rpc_conn_destroy (addr 1 ~> F_connection) 7) rc_conn] w w' /\
       heap w' = delete 1%positive (heap w)) w.
Proof.
  intros o w. split; [vm_compute; reflexivity|].
  by apply (rpc_disconnect_behaviour 1 2 o w).
Defined.

Lemma connection_roundtrip_witness :
  (connection_cycle false ep0 peer 3 2 var (start succeed)).1 = Ok true /\
  wp (connection_cycle false ep0 peer 3 2 var) (connection_cycle_post peer [] (start succeed))
    (start succeed).
Proof.
  split; [vm_compute; reflexivity|].
  by apply (connection_roundtrip false ep0 peer 3 2 var [] (start succeed)).
Defined.

End Connection.
