(* ===== verification/Payload.v ===== *)
(** The payload of a message: [fill_rpclite_fop] of rpclite.c, which gathers
    the caller's segments into the array of the fop, and the accessors the
    receiver reads it with. *)

From S2P Require Import Prelude CTypes Machine.
Local Open Scope Z_scope.

Module Payload.

(** [sum += segments[i].iov_len]: the [int] is converted to [size_t], added
    modulo [2^64] and converted back. The same statement advances [offset]. *)
Definition int_plus_size (x len : Z) : Z := s32 (u64 (u64 x + len)).

(** The first loop; reading [segments] out of range has no result. *)
Fixpoint sum_len (segments : list iovec) (idx : list nat) (sum : Z) : option Z :=
  match idx with
  | [] => Some sum
  | i :: idx => seg ← segments !! i; sum_len segments idx (int_plus_size sum (iov_len seg))
  end.

(** [memcpy (dst + offset, base, len)], defined when both ranges are inside
    their arrays. *)
Definition memcpy (dst : list Z) (offset : Z) (base : list Z) (len : Z) : option (list Z) :=
  if (0 <=? offset) && (offset + len <=? Z.of_nat (length dst)) && (len <=? Z.of_nat (length base))
  then Some (splice dst (Z.to_nat offset) (take (Z.to_nat len) base))
  else None.

(** The second loop. *)
Fixpoint copy (segments : list iovec) (idx : list nat) (offset : Z) (dst : list Z)
    : option (list Z) :=
  match idx with
  | [] => Some dst
  | i :: idx =>
      seg ← segments !! i;
      dst ← memcpy dst offset (iov_base seg) (iov_len seg);
      copy segments idx (int_plus_size offset (iov_len seg)) dst
  end.

Section Payload.
Context {E : Env}.

(** [m0_fop_data (fop)] as a [struct rpclite_fop]. *)
Definition rpclite_data (f : m0_fop) : option rpclite_fop :=
  match f_data f with Some (FD_rpclite d) => Some d | _ => None end.

Definition set_data (d : fop_data) (f : m0_fop) : m0_fop :=
  {| f_type := f_type f; f_data := Some d; f_item := f_item f |}.

(** [fill_rpclite_fop (m0_fop_data (fop), segments, segment_count)] *)
Definition fill_rpclite_fop (fop : ptr) (segments : list iovec) (segment_count : Z) : M unit :=
  let idx := seq 0 (Z.to_nat segment_count) in
  f ← load_fop fop;
  _ ← expect (rpclite_data f);
  sum ← expect (sum_len segments idx 0);
  ok ← do! (alloc (A_array (u64 sum)));
  M0_ASSERT ok ;;
  arr ← expect (copy segments idx 0 (replicate (Z.to_nat (u64 sum)) 0));
  store_fop fop (set_data (FD_rpclite {| f_count := u32 sum; f_fragments := Some arr |}) f).

(** A [rpc_item_t] holds the fop. *)
Definition rpc_get_fragments_count (it : ptr) : M Z := mret 1.

Definition rpc_get_fragment_count (it : ptr) (i : Z) : M Z :=
  f ← load_fop it; d ← expect (rpclite_data f); mret (s32 (f_count d)).

(** The pointer is represented by the bytes of the array it points to. *)
Definition rpc_get_fragment (it : ptr) (i : Z) : M (option (list Z)) :=
  f ← load_fop it; d ← expect (rpclite_data f); mret (f_fragments d).

Definition rpc_get_connection_id (it : ptr) : M ptr :=
  f ← load_fop it; mret (ri_session (f_item f)).

End Payload.

(** * Gathering *)

(** A segment whose [iov_len] bytes are readable. *)
Definition seg_ok (s : iovec) : Prop := 0 <= iov_len s <= Z.of_nat (length (iov_base s)).

Definition seg_bytes (s : iovec) : list Z := take (Z.to_nat (iov_len s)) (iov_base s).
Definition total (segs : list iovec) : Z := sumZ (iov_len <$> segs).
Definition gathered (segs : list iovec) : list Z := segs ≫= seg_bytes.

Lemma int_plus_size_eq x len : int_plus_size x len = s32 (x + len).
Proof. unfold int_plus_size. by rewrite u64_add_l, s32_u64. Qed.

Lemma total_app a b : total (a ++ b) = total a + total b.
Proof. unfold total. by rewrite fmap_app, sumZ_app. Qed.

Lemma total_cons s segs : total (s :: segs) = iov_len s + total segs.
Proof. done. Qed.

Lemma total_nonneg segs : Forall seg_ok segs -> 0 <= total segs.
Proof.
  induction 1 as [|s segs [Hs _] _ IH]; [done|]. rewrite total_cons. lia.
Qed.

Lemma seg_bytes_length s : seg_ok s -> Z.of_nat (length (seg_bytes s)) = iov_len s.
Proof. intros [? ?]. unfold seg_bytes. rewrite length_take. lia. Qed.

Lemma gathered_cons s segs : gathered (s :: segs) = seg_bytes s ++ gathered segs.
Proof. done. Qed.

Lemma gathered_length segs : Forall seg_ok segs -> Z.of_nat (length (gathered segs)) = total segs.
Proof.
  induction 1 as [|s segs Hs _ IH]; [done|].
  rewrite total_cons, gathered_cons, length_app, Nat2Z.inj_add, seg_bytes_length by done. lia.
Qed.

(** The indices [n .. n + k - 1] of the array enumerate the segments after the
    first [n]. *)
Lemma sum_len_spec pre segs x :
  sum_len (pre ++ segs) (seq (length pre) (length segs)) (s32 x) = Some (s32 (x + total segs)).
Proof.
  revert pre x. induction segs as [|s segs IH]; intros pre x; simpl.
  - unfold total, sumZ. simpl. by rewrite Z.add_0_r.
  - rewrite list_lookup_middle by done. simpl. rewrite int_plus_size_eq.
    rewrite s32_add_l.
    specialize (IH (pre ++ [s]) (x + iov_len s)).
    rewrite <- (assoc_L (++)), length_app, Nat.add_1_r in IH. simpl in IH. rewrite IH.
    f_equal. f_equal. rewrite total_cons. lia.
Qed.

(** The second loop writes each segment right after the previous one. *)
Lemma copy_spec pre segs done rest :
  Forall seg_ok segs -> total segs <= Z.of_nat (length rest) ->
  Z.of_nat (length done) + total segs <= INT_MAX ->
  copy (pre ++ segs) (seq (length pre) (length segs)) (Z.of_nat (length done)) (done ++ rest)
  = Some ((done ++ gathered segs) ++ drop (length (gathered segs)) rest).
Proof.
  intros Hok. revert pre done rest.
  induction Hok as [|s segs Hs Hok IH]; intros pre done rest Hfit Hmax; simpl.
  - rewrite app_nil_r. done.
  - pose proof (total_nonneg segs Hok) as Hnn. pose proof (seg_bytes_length s Hs) as Hlen.
    rewrite total_cons in *.
    rewrite list_lookup_middle by done. simpl. destruct Hs as [Hs0 Hs1].
    unfold memcpy. rewrite length_app.
    rewrite (proj2 (Z.leb_le 0 _)), (proj2 (Z.leb_le (_ + _) _)), (proj2 (Z.leb_le (iov_len s) _))
      by lia. simpl. rewrite Nat2Z.id. fold (seg_bytes s). rewrite splice_snoc.
    rewrite int_plus_size_eq, s32_small by (unfold INT_MIN; lia).
    replace (Z.of_nat (length done) + iov_len s) with (Z.of_nat (length (done ++ seg_bytes s)))
      by (rewrite length_app; lia).
    specialize (IH (pre ++ [s]) (done ++ seg_bytes s) (drop (length (seg_bytes s)) rest)).
    rewrite <- (assoc_L (++) pre), (length_app pre), Nat.add_1_r in IH. simpl in IH.
    rewrite IH by (rewrite ?length_drop, ?length_app; lia).
    rewrite drop_drop, <- !(assoc_L (++)). by rewrite length_app.
Qed.

(** Nothing is written past an array shorter than [2^31] bytes: if the second
    loop is defined, all the segments fit. *)
Lemma copy_fits pre segs off dst res :
  Forall seg_ok segs -> 0 <= off <= Z.of_nat (length dst) -> Z.of_nat (length dst) <= INT_MAX ->
  copy (pre ++ segs) (seq (length pre) (length segs)) off dst = Some res ->
  off + total segs <= Z.of_nat (length dst).
Proof.
  intros Hok. revert pre off dst.
  induction Hok as [|s segs Hs Hok IH]; intros pre off dst Hoff Hmax; simpl.
  - unfold total, sumZ. simpl. lia.
  - rewrite list_lookup_middle by done. simpl. unfold memcpy.
    destruct (0 <=? off) eqn:H1; [|done]. destruct (off + _ <=? _) eqn:H2; [|done].
    destruct (iov_len s <=? _) eqn:H3; [|done]. simpl. reflect_Z. destruct Hs as [Hs0 Hs1].
    rewrite int_plus_size_eq, s32_small by (unfold INT_MIN; lia). intros Hc.
    specialize (IH (pre ++ [s]) (off + iov_len s) (splice dst (Z.to_nat off) (seg_bytes s))).
    rewrite splice_length in IH by (unfold seg_bytes; rewrite length_take; lia).
    rewrite <- (assoc_L (++)), length_app, Nat.add_1_r in IH. simpl in IH.
    specialize (IH ltac:(lia) Hmax Hc).
    rewrite total_cons. lia.
Qed.

Definition payload (segs : list iovec) : rpclite_fop :=
  {| f_count := total segs; f_fragments := Some (gathered segs) |}.

Section Fill.
Context {E : Env}.

Lemma fill_rpclite_fop_run a path o f d segs n w Q :
  heap w !! a = Some o -> as_fop path o = Some f -> rpclite_data f = Some d ->
  (sum_len segs (seq 0 (Z.to_nat n)) 0 = None -> Q Undefined w) ->
  (forall sum s, sum_len segs (seq 0 (Z.to_nat n)) 0 = Some sum ->
     answers (alloc (A_array (u64 sum))) false -> Q Aborted (log (alloc (A_array (u64 sum))) false s w)) ->
  (forall sum s, sum_len segs (seq 0 (Z.to_nat n)) 0 = Some sum ->
     copy segs (seq 0 (Z.to_nat n)) 0 (replicate (Z.to_nat (u64 sum)) 0) = None ->
     Q Undefined (log (alloc (A_array (u64 sum))) true s w)) ->
  (forall sum arr s, sum_len segs (seq 0 (Z.to_nat n)) 0 = Some sum ->
     copy segs (seq 0 (Z.to_nat n)) 0 (replicate (Z.to_nat (u64 sum)) 0) = Some arr ->
     Q (Ok tt) (set_heap (<[a := with_fop (set_data (FD_rpclite
         {| f_count := u32 sum; f_fragments := Some arr |}) f) o]>)
       (log (alloc (A_array (u64 sum))) true s w))) ->
  wp (fill_rpclite_fop (Ptr (Heap a) path) segs n) Q w.
Proof.
  intros Ha Hf Hd H1 H2 H3 H4. unfold fill_rpclite_fop.
  apply wp_bind. eapply wp_load_fop; [done..|]. rewrite Hd. simpl. apply wp_bind, wp_ret.
  apply wp_bind. destruct (sum_len _ _ _) as [sum|] eqn:Hs; simpl; wp_step; [|by apply H1].
  wp_step. wp_step. wp_step. destruct a0; wp_step; [|by apply H2]. wp_step.
  destruct (copy _ _ _ _) as [arr|] eqn:Hc; simpl; wp_step; [|by apply H3].
  eapply wp_store_fop; [done..|]. by apply H4.
Qed.

Lemma sum_len_all segs : sum_len segs (seq 0 (length segs)) 0 = Some (s32 (total segs)).
Proof. apply (sum_len_spec [] segs 0). Qed.

(** With readable segments of at most [INT_MAX] bytes in total, the array holds
    exactly their concatenation. *)
Lemma wp_fill a path o f d segs w Q :
  heap w !! a = Some o -> as_fop path o = Some f -> rpclite_data f = Some d ->
  Forall seg_ok segs -> total segs <= INT_MAX ->
  (forall s, answers (alloc (A_array (total segs))) false ->
     Q Aborted (log (alloc (A_array (total segs))) false s w)) ->
  (forall s, Q (Ok tt) (set_heap (<[a := with_fop (set_data (FD_rpclite (payload segs)) f) o]>)
                (log (alloc (A_array (total segs))) true s w))) ->
  wp (fill_rpclite_fop (Ptr (Heap a) path) segs (Z.of_nat (length segs))) Q w.
Proof.
  intros Ha Hf Hd Hok Hmax HA HO. pose proof (total_nonneg segs Hok) as Hnn.
  pose proof (sum_len_all segs) as Hsum.
  assert (s32 (total segs) = total segs) as Hs by (apply s32_small; unfold INT_MIN; lia).
  assert (u64 (total segs) = total segs) as Hu by (apply u64_small; unfold INT_MAX in *; lia).
  assert (u32 (total segs) = total segs) as Hu' by (apply u32_small; unfold INT_MAX in *; lia).
  pose proof (gathered_length segs Hok) as Hlen.
  assert (copy segs (seq 0 (length segs)) 0 (replicate (Z.to_nat (total segs)) 0)
          = Some (gathered segs)) as Hcopy.
  { pose proof (copy_spec [] segs [] (replicate (Z.to_nat (total segs)) 0) Hok) as Hc.
    rewrite length_replicate in Hc. simpl in Hc. change (Z.of_nat 0) with 0 in Hc. rewrite Hc by lia.
    rewrite drop_ge, app_nil_r by (rewrite length_replicate; lia). done. }
  eapply fill_rpclite_fop_run; [done..| | | |]; rewrite Nat2Z.id, Hsum, Hs; intros;
    simplify_eq; rewrite ?Hu, ?Hu', ?Hcopy in *; simplify_eq; auto.
Qed.

(** C8. Gathering and reading back: for any readable segments of at most
    [INT_MAX] bytes in total, [fill_rpclite_fop] either fails the assertion on
    a failed allocation or stores a payload which the receiver's accessors
    return as one fragment whose length is the sum of the segment lengths and
    whose bytes are the segments in order. *)
Theorem payload_roundtrip a path o f d segs w :
  heap w !! a = Some o -> as_fop path o = Some f -> rpclite_data f = Some d ->
  Forall seg_ok segs -> total segs <= INT_MAX ->
  wp (fill_rpclite_fop (Ptr (Heap a) path) segs (Z.of_nat (length segs)) ;;
      n ← rpc_get_fragments_count (Ptr (Heap a) path);
      len ← rpc_get_fragment_count (Ptr (Heap a) path) 0;
      data ← rpc_get_fragment (Ptr (Heap a) path) 0;
      mret (n, len, data))
    (fun r w' => r = Ok (1, total segs, Some (gathered segs)) \/
       r = Aborted /\ Ev (alloc (A_array (total segs))) false ∈ trace w') w.
Proof.
  intros Ha Hf Hd Hok Hmax. pose proof (total_nonneg segs Hok) as Hnn.
  apply wp_bind. eapply wp_fill; [done..| |].
  { intros s _. cbn beta iota. right. split; [done|]. solve_elem_trace. }
  intros s. cbn beta iota. unfold rpc_get_fragments_count, rpc_get_fragment_count, rpc_get_fragment.
  assert (as_fop path (with_fop (set_data (FD_rpclite (payload segs)) f) o)
          = Some (set_data (FD_rpclite (payload segs)) f)) as Hf'.
  { destruct o, path as [|[] [|]]; simpl in *; by simplify_eq. }
  do 2 wp_step. do 2 wp_step. eapply wp_load_fop; [wp_heap_fact|exact Hf'|]. wp_go.
  eapply wp_load_fop; [wp_heap_fact|exact Hf'|]. wp_go.
  left. rewrite s32_small; [done|]. unfold INT_MIN. simpl. lia.
Qed.

(** C40. The length is summed in an [int] before any size check: for readable
    segments of at least [2^32] bytes in total whose sum modulo [2^32] is
    below [2^31], the array is allocated too short and [fill_rpclite_fop]
    never completes; unless the allocation fails, it writes past the array. *)
Theorem fill_rpclite_fop_overflow a path o f d segs w :
  heap w !! a = Some o -> as_fop path o = Some f -> rpclite_data f = Some d ->
  Forall seg_ok segs -> 2 ^ 32 <= total segs -> total segs `mod` 2 ^ 32 < 2 ^ 31 ->
  wp (fill_rpclite_fop (Ptr (Heap a) path) segs (Z.of_nat (length segs)))
    (fun r w' => exists ok,
       ran [Ev (alloc (A_array (total segs `mod` 2 ^ 32))) ok] w w' /\
       r = if ok : bool then Undefined else Aborted) w.
Proof.
  intros Ha Hf Hd Hok Hbig Hmod. pose proof (sum_len_all segs) as Hsum.
  pose proof (Z.mod_pos_bound (total segs) (2 ^ 32) ltac:(lia)) as Hpos.
  assert (s32 (total segs) = total segs `mod` 2 ^ 32) as Hs.
  { rewrite <- s32_u32. unfold u32. apply s32_small. unfold INT_MIN, INT_MAX. lia. }
  assert (u64 (total segs `mod` 2 ^ 32) = total segs `mod` 2 ^ 32) as Hu
    by (apply u64_small; lia).
  eapply fill_rpclite_fop_run; [done..| | | |]; rewrite Nat2Z.id, Hsum, Hs; [done| | |].
  - intros sum s [= <-] _. rewrite Hu. by exists false.
  - intros sum s [= <-] _. rewrite Hu. by exists true.
  - intros sum arr s [= <-] Hc. exfalso. rewrite Hu in Hc.
    apply (copy_fits [] segs) in Hc; rewrite ?length_replicate in *;
      [lia|done|lia|unfold INT_MAX; lia].
Qed.

End Fill.

(** ** Witnesses *)

(** "segment 1" and "segment 2" of test.c. *)
Definition two_segments : list iovec :=
  [{| iov_base := [115; 101; 103; 49]; iov_len := 4 |};
   {| iov_base := [115; 101; 103; 50; 0]; iov_len := 5 |}].

Definition empty_fop : m0_fop :=
  {| f_type := Some m0_fop_rpclite_fopt; f_data := Some (zero_data m0_fop_rpclite_fopt);
     f_item := zero_item |}.

Definition fop_world : world := set_heap (<[1%positive := OFop empty_fop]>) (start succeed).

Lemma payload_roundtrip_witness :
  wp (fill_rpclite_fop (addr 1) two_segments 2 ;;
      n ← rpc_get_fragments_count (addr 1);
      len ← rpc_get_fragment_count (addr 1) 0;
      data ← rpc_get_fragment (addr 1) 0;
      mret (n, len, data))
    (fun r w' => r = Ok (1, 9, Some [115; 101; 103; 49; 115; 101; 103; 50; 0]) \/
       r = Aborted /\ Ev (alloc (A_array 9)) false ∈ trace w') fop_world.
Proof.
  apply (payload_roundtrip 1 [] (OFop empty_fop) empty_fop
           {| f_count := 0; f_fragments := None |} two_segments fop_world); try done.
  by repeat constructor.
Defined.

(** One segment of [2^32 + 3] bytes: three bytes are allocated. *)
Lemma fill_rpclite_fop_overflow_witness :
  let seg := {| iov_base := replicate (Z.to_nat (2 ^ 32 + 3)) 0; iov_len := 2 ^ 32 + 3 |} in
  wp (fill_rpclite_fop (addr 1) [seg] 1)
    (fun r w' => exists ok,
       ran [Ev (alloc (A_array 3)) ok] fop_world w' /\
       r = if ok : bool then Undefined else Aborted) fop_world.
Proof.
  intros seg.
  apply (fill_rpclite_fop_overflow 1 [] (OFop empty_fop) empty_fop
           {| f_count := 0; f_fragments := None |} [seg] fop_world); try done.
  constructor; [|constructor]. unfold seg_ok, seg. cbn [iov_base iov_len].
  rewrite length_replicate, Z2Nat.id; lia.
Defined.

End Payload.
