(* ===== verification/Send.v ===== *)
(** Sending, in rpclite.c: the blocking path
    ([rpc_send_fop_blocking_and_release], [rpc_send_blocking]) and the
    asynchronous one ([rpc_send], the reply handler [rpclite_replied] and the
    release function [rpclite_senderside_free_nonuser_memory]). *)

From S2P Require Import Prelude CTypes Machine Stats Resources Endpoint Connection Payload.
Local Open Scope Z_scope.

Module Send.
Import Stats Connection Payload.

(** ** Members of [struct m0_rpc_item] the code writes *)

Definition set_session p i := {| ri_session := p; ri_deadline := ri_deadline i;
  ri_nr_sent_max := ri_nr_sent_max i; ri_resend_interval := ri_resend_interval i;
  ri_rmachine := ri_rmachine i; ri_ops := ri_ops i; ri_prio := ri_prio i;
  ri_error := ri_error i; ri_reply := ri_reply i |}.
Definition set_deadline x i := {| ri_session := ri_session i; ri_deadline := x;
  ri_nr_sent_max := ri_nr_sent_max i; ri_resend_interval := ri_resend_interval i;
  ri_rmachine := ri_rmachine i; ri_ops := ri_ops i; ri_prio := ri_prio i;
  ri_error := ri_error i; ri_reply := ri_reply i |}.
Definition set_nr_sent_max x i := {| ri_session := ri_session i; ri_deadline := ri_deadline i;
  ri_nr_sent_max := x; ri_resend_interval := ri_resend_interval i;
  ri_rmachine := ri_rmachine i; ri_ops := ri_ops i; ri_prio := ri_prio i;
  ri_error := ri_error i; ri_reply := ri_reply i |}.
Definition set_resend_interval x i := {| ri_session := ri_session i; ri_deadline := ri_deadline i;
  ri_nr_sent_max := ri_nr_sent_max i; ri_resend_interval := x;
  ri_rmachine := ri_rmachine i; ri_ops := ri_ops i; ri_prio := ri_prio i;
  ri_error := ri_error i; ri_reply := ri_reply i |}.
Definition set_rmachine p i := {| ri_session := ri_session i; ri_deadline := ri_deadline i;
  ri_nr_sent_max := ri_nr_sent_max i; ri_resend_interval := ri_resend_interval i;
  ri_rmachine := p; ri_ops := ri_ops i; ri_prio := ri_prio i;
  ri_error := ri_error i; ri_reply := ri_reply i |}.
Definition set_ops o i := {| ri_session := ri_session i; ri_deadline := ri_deadline i;
  ri_nr_sent_max := ri_nr_sent_max i; ri_resend_interval := ri_resend_interval i;
  ri_rmachine := ri_rmachine i; ri_ops := Some o; ri_prio := ri_prio i;
  ri_error := ri_error i; ri_reply := ri_reply i |}.
Definition set_prio x i := {| ri_session := ri_session i; ri_deadline := ri_deadline i;
  ri_nr_sent_max := ri_nr_sent_max i; ri_resend_interval := ri_resend_interval i;
  ri_rmachine := ri_rmachine i; ri_ops := ri_ops i; ri_prio := x;
  ri_error := ri_error i; ri_reply := ri_reply i |}.
Definition set_error_reply e r i := {| ri_session := ri_session i; ri_deadline := ri_deadline i;
  ri_nr_sent_max := ri_nr_sent_max i; ri_resend_interval := ri_resend_interval i;
  ri_rmachine := ri_rmachine i; ri_ops := ri_ops i; ri_prio := ri_prio i;
  ri_error := e; ri_reply := r |}.

Definition on_item (g : m0_rpc_item -> m0_rpc_item) (f : m0_fop) : m0_fop :=
  {| f_type := f_type f; f_data := f_data f; f_item := g (f_item f) |}.

(** The fop [m0_fop_init] and the allocators set up. *)
Definition set_f_type (t : fop_type) (f : m0_fop) : m0_fop :=
  {| f_type := Some t; f_data := f_data f; f_item := f_item f |}.
Definition new_fop (t : fop_type) : m0_fop :=
  {| f_type := Some t; f_data := Some (zero_data t); f_item := zero_item |}.

Section Send.
Context {E : Env}.

Definition upd_fop (p : ptr) (g : m0_fop -> m0_fop) : M unit :=
  f ← load_fop p; store_fop p (g f).

Definition upd_message (p : ptr) (g : senderside_message -> senderside_message) : M unit :=
  m ← load_message p; store p (OMessage (g m)).

(** [m0_fop_alloc_at (sess, t)] *)
Definition fop_alloc_at (sess : ptr) (t : fop_type) : M ptr :=
  ok ← do! (m0_fop_alloc_at sess t);
  if (ok : bool) then new (OFop (new_fop t)) else mret Null.

(** [m0_fop_payload_size (item) + ITEM_SIZE_CUSHION >
     m0_rpc_session_get_max_item_size (sess)], in [m0_bcount_t] *)
Definition too_big (fop sess : ptr) : M bool :=
  f ← load_fop fop;
  size ← do! (m0_fop_payload_size (fop ~> F_f_item) f);
  max ← do! (m0_rpc_session_get_max_item_size sess);
  mret (max <? u64 (size + ITEM_SIZE_CUSHION)).

(** [timeout_s ? timeout_s : 1] *)
Definition resend_s (timeout_s : Z) : Z := if timeout_s =? 0 then 1 else timeout_s.

(** * Blocking *)

Definition rpc_send_fop_blocking_and_release (c fop : ptr) (timeout_s : Z) : M Z :=
  M0_ASSERT (bool_decide (fop <> Null)) ;;
  big ← too_big fop (rpc_get_session c);
  if (big : bool) then exit 1 else
  upd_fop fop (on_item (set_nr_sent_max 1)) ;;
  interval ← do! (m0_time (resend_s timeout_s) 0);
  upd_fop fop (on_item (set_resend_interval interval)) ;;
  deadline ← do! (m0_time_from_now 0 (1 * 1000 * 1000));
  f ← load_fop fop;
  a ← do! (m0_rpc_post_sync fop (rpc_get_session c) deadline f);
  let '(rc, error, reply) := a in
  upd_fop fop (on_item (set_error_reply error reply)) ;;
  (if rc =? 0 then
     f ← load_fop fop;
     M0_ASSERT (rc =? 0) ;;
     M0_ASSERT (ri_error (f_item f) =? 0) ;;
     M0_ASSERT (bool_decide (ri_reply (f_item f) <> Null))
   else mret tt) ;;
  do! (m0_fop_put_lock fop) ;;
  forget fop ;;
  mret rc.

Definition rpc_send_blocking (c : ptr) (segments : list iovec) (segment_count timeout_s : Z) : M Z :=
  fop ← fop_alloc_at (rpc_get_session c) m0_fop_rpclite_fopt;
  M0_ASSERT (bool_decide (fop <> Null)) ;;
  fill_rpclite_fop fop segments segment_count ;;
  rpc_send_fop_blocking_and_release c fop timeout_s.

(** * Asynchronous *)

(** [m0_free (container_of (fop, rpclite_senderside_message_t, fop))] *)
Definition rpclite_senderside_free_nonuser_memory (ref : ptr) : M unit :=
  fop ← expect (container_of ref [F_f_ref]);
  do! (m0_fop_fini fop) ;;
  msg ← expect (container_of fop [F_fop]);
  free msg.

(** [m0_fop_put]: Mero drops a reference and calls the release function of the
    fop with the last one. *)
Definition fop_put (fop : ptr) : M unit :=
  last ← do! (m0_fop_put fop);
  if (last : bool) then rpclite_senderside_free_nonuser_memory (fop ~> F_f_ref) else mret tt.

(** The [switch] of [rpclite_replied]; negating [INT_MIN] is undefined. *)
Definition reply_status (ctime error : Z) : M rpc_status :=
  if error =? INT_MIN then undefined
  else if - error =? ETIMEDOUT then mret RPC_TIMEOUT
  else if - error =? 0 then
    now ← do! m0_time_now;
    add_rpc_stat_record RPC_STAT_SEND (u64 (now - ctime)) ;;
    mret RPC_OK
  else mret RPC_FAILED.

Definition rpclite_replied (item : ptr) : M unit :=
  msg ← expect (container_of item [F_fop; F_f_item]);
  m ← load_message msg;
  st ← reply_status (msg_ctime m) (ri_error (f_item (msg_fop m)));
  call_fn (msg_reply_callback m) (fun f => do! (cb_reply f (msg_c m) (msg_ctx m) st)) ;;
  fop_put (msg ~> F_fop).

Definition set_ctime t m := {| msg_c := msg_c m; msg_ctx := msg_ctx m;
  msg_reply_callback := msg_reply_callback m; msg_fop := msg_fop m; msg_ctime := t |}.
Definition set_ctx p m := {| msg_c := msg_c m; msg_ctx := p;
  msg_reply_callback := msg_reply_callback m; msg_fop := msg_fop m; msg_ctime := msg_ctime m |}.
Definition set_c p m := {| msg_c := p; msg_ctx := msg_ctx m;
  msg_reply_callback := msg_reply_callback m; msg_fop := msg_fop m; msg_ctime := msg_ctime m |}.
Definition set_reply_callback cb m := {| msg_c := msg_c m; msg_ctx := msg_ctx m;
  msg_reply_callback := cb; msg_fop := msg_fop m; msg_ctime := msg_ctime m |}.

(** The statements of the [if (msg != NULL)] block up to [m0_fop_data_alloc]. *)
Definition init_message (msg c : ptr) (cb : fnptr) (ctx : ptr) (timeout_s : Z) : M unit :=
  let fop := msg ~> F_fop in
  now ← do! m0_time_now;
  upd_message msg (set_ctime now) ;;
  do! (m0_fop_init fop m0_fop_rpclite_fopt) ;;
  upd_fop fop (set_f_type m0_fop_rpclite_fopt) ;;
  upd_fop fop (on_item (set_session (rpc_get_session c))) ;;
  deadline ← do! (m0_time_from_now 0 (1 * 1000 * 1000));
  upd_fop fop (on_item (set_deadline deadline)) ;;
  upd_fop fop (on_item (set_nr_sent_max 1)) ;;
  interval ← do! (m0_time (resend_s timeout_s) 0);
  upd_fop fop (on_item (set_resend_interval interval)) ;;
  rmachine ← do! (m0_fop_session_machine (rpc_get_session c));
  upd_fop fop (on_item (set_rmachine rmachine)) ;;
  upd_message msg (set_ctx ctx) ;;
  upd_message msg (set_c c) ;;
  upd_fop fop (on_item (set_ops rpclite_item_ops)) ;;
  upd_fop fop (on_item (set_prio (const M0_RPC_ITEM_PRIO_MID))) ;;
  upd_message msg (set_reply_callback cb).

Definition rpc_send (c : ptr) (segments : list iovec) (segment_count : Z)
    (cb : fnptr) (ctx : ptr) (timeout_s : Z) : M Z :=
  msg ← malloc A_message (OMessage zero_message);
  let fop := msg ~> F_fop in
  let send :=
    M0_ASSERT (bool_decide (msg <> Null)) ;;
    fill_rpclite_fop fop segments segment_count ;;
    big ← too_big fop (rpc_get_session c);
    if (big : bool) then exit 1 else
    f ← load_fop fop;
    do! (m0_rpc_post (fop ~> F_f_item) f) in
  if bool_decide (msg <> Null) then
    init_message msg c cb ctx timeout_s ;;
    rc ← do! (m0_fop_data_alloc fop);
    CHECK_RESULT rc (free msg ;; mret rc)
      (upd_fop fop (set_data (zero_data m0_fop_rpclite_fopt)) ;; send)
  else send.

(** * Rules for the pieces *)

#[local] Arguments rpc_get_session : simpl never.
#[local] Arguments fill_rpclite_fop : simpl never.
#[local] Arguments too_big : simpl never.

Lemma wp_upd_fop a path o f g Q w :
  heap w !! a = Some o -> as_fop path o = Some f ->
  Q (Ok tt) (set_heap (<[a := with_fop (g f) o]>) w) ->
  wp (upd_fop (Ptr (Heap a) path) g) Q w.
Proof.
  intros Ha Hf HQ. unfold upd_fop. apply wp_bind. eapply wp_load_fop; [done..|].
  by eapply wp_store_fop.
Qed.

Lemma wp_upd_message a m g Q w :
  heap w !! a = Some (OMessage m) ->
  Q (Ok tt) (set_heap (<[a := OMessage (g m)]>) w) -> wp (upd_message (addr a) g) Q w.
Proof.
  intros Ha HQ. unfold upd_message, load_message. apply wp_bind, wp_bind.
  eapply wp_load; [done|]. by eapply wp_ret, wp_store.
Qed.

Lemma wp_too_big a path o f sess Q w :
  heap w !! a = Some o -> as_fop path o = Some f ->
  (forall size max s1 s2,
     answers (m0_fop_payload_size (Ptr (Heap a) path ~> F_f_item) f) size ->
     answers (m0_rpc_session_get_max_item_size sess) max ->
     Q (Ok (max <? u64 (size + ITEM_SIZE_CUSHION)))
       (log (m0_rpc_session_get_max_item_size sess) max s2
         (log (m0_fop_payload_size (Ptr (Heap a) path ~> F_f_item) f) size s1 w))) ->
  wp (too_big (Ptr (Heap a) path) sess) Q w.
Proof.
  intros Ha Hf HQ. unfold too_big. apply wp_bind. eapply wp_load_fop; [done..|].
  wp_go. by apply HQ.
Qed.

(** The message handed to Mero, before its payload is filled in. *)
Definition ready_message (c ctx : ptr) (cb : fnptr) (ctime deadline interval : Z) (rmachine : ptr)
    : senderside_message :=
  {| msg_c := c; msg_ctx := ctx; msg_reply_callback := cb;
     msg_fop := {| f_type := Some m0_fop_rpclite_fopt; f_data := None;
                   f_item := {| ri_session := rpc_get_session c; ri_deadline := deadline;
                                ri_nr_sent_max := 1; ri_resend_interval := interval;
                                ri_rmachine := rmachine; ri_ops := Some rpclite_item_ops;
                                ri_prio := const M0_RPC_ITEM_PRIO_MID; ri_error := 0;
                                ri_reply := Null |} |};
     msg_ctime := ctime |}.

Ltac upd_step :=
  wp_step;
  first [ eapply wp_upd_fop; [wp_heap_fact|reflexivity|]
        | eapply wp_upd_message; [wp_heap_fact|] ]; cbn.

Lemma wp_init_message a c cb ctx timeout w Q :
  heap w !! a = Some (OMessage zero_message) ->
  (forall w' now deadline interval rm,
     heap w' = <[a := OMessage (ready_message c ctx cb now deadline interval rm)]> (heap w) ->
     glob w' = glob w -> 0 <= now < 2 ^ 64 -> 0 <= deadline < 2 ^ 64 -> 0 <= interval < 2 ^ 64 ->
     ran [Ev m0_time_now now; Ev (m0_fop_init (addr a ~> F_fop) m0_fop_rpclite_fopt) tt;
          Ev (m0_time_from_now 0 1000000) deadline;
          Ev (m0_time (resend_s timeout) 0) interval;
          Ev (m0_fop_session_machine (rpc_get_session c)) rm] w w' ->
     Q (Ok tt) w') ->
  wp (init_message (addr a) c cb ctx timeout) Q w.
Proof.
  intros Ha HQ. unfold init_message.
  wp_step. wp_step. upd_step. wp_step. wp_step. upd_step. upd_step.
  wp_step. wp_step. upd_step. upd_step.
  wp_step. wp_step. upd_step.
  wp_step. wp_step. upd_step. upd_step. upd_step. upd_step. upd_step.
  eapply wp_upd_message; [wp_heap_fact|].
  eapply (HQ _ a0 a1 a2 a3); [|done|done|done|done|].
  - cbn [heap set_heap log]. rewrite !insert_insert_eq. reflexivity.
  - unfold ran. cbn. rewrite <- !(assoc_L (++)). reflexivity.
Qed.

(** ** [rpc_send] *)

Definition filled_message (segs : list iovec) (m : senderside_message) : senderside_message :=
  set_msg_fop (set_data (FD_rpclite (payload segs)) (msg_fop m)) m.

(** Every way [rpc_send] can end on readable segments. *)
Definition send_post (c ctx : ptr) (cb : fnptr) (segs : list iovec) (w : world)
    (r : res Z) (w' : world) : Prop :=
  glob w' = glob w /\ exists evs, ran evs w w' /\ (callbacks evs = [] /\ neutral evs) /\
  match r with
  | Ok rc =>
      (posted evs = [] /\ rc <> 0 /\ heap w' = heap w) \/
      exists a now deadline interval rm,
        let m := filled_message segs (ready_message c ctx cb now deadline interval rm) in
        heap w !! a = None /\ heap w' = <[a := OMessage m]> (heap w) /\ 0 <= now < 2 ^ 64 /\
        posted evs = [(addr a ~> F_fop ~> F_f_item, msg_fop m)] /\
        exists size max pre, u64 (size + ITEM_SIZE_CUSHION) <= max /\
        answers (m0_fop_payload_size (addr a ~> F_fop ~> F_f_item) (msg_fop m)) size /\
        answers (m0_rpc_session_get_max_item_size (rpc_get_session c)) max /\
        evs = pre ++ [Ev (m0_fop_payload_size (addr a ~> F_fop ~> F_f_item) (msg_fop m)) size;
                      Ev (m0_rpc_session_get_max_item_size (rpc_get_session c)) max;
                      Ev (m0_rpc_post (addr a ~> F_fop ~> F_f_item) (msg_fop m)) rc]
  | Exited code => code = 1 /\ posted evs = [] /\
      exists item f size max, rpclite_data f = Some (payload segs) /\
        answers (m0_fop_payload_size item f) size /\
        answers (m0_rpc_session_get_max_item_size (rpc_get_session c)) max /\
        max < u64 (size + ITEM_SIZE_CUSHION)
  | Aborted => posted evs = [] /\
      (answers (alloc A_message) false \/ answers (alloc (A_array (total segs))) false)
  | Undefined => False
  end.

Ltac calm := split; [reflexivity|intros ?; reflexivity].

Lemma rpc_send_spec c segs cb ctx timeout w :
  Forall seg_ok segs -> total segs <= INT_MAX ->
  wp (rpc_send c segs (Z.of_nat (length segs)) cb ctx timeout) (send_post c ctx cb segs w) w.
Proof.
  intros Hok Hmax. unfold rpc_send. wp_step. wp_step.
  - (* no memory for the message *)
    change (bool_decide (Null <> Null)) with false. simpl. wp_step. wp_step.
    split; [done|]. eexists. split; [done|]. split; [calm|]. split; [done|by left].
  - rewrite !bool_decide_true by done. simpl. wp_step.
    eapply wp_init_message; [wp_heap_fact|].
    intros w1 now dl iv rm Hh1 Hg1 Hnow _ _ Hr1. cbn in Hg1, Hr1.
    cbn [heap set_heap log] in Hh1. rewrite insert_insert_eq in Hh1.
    wp_step. wp_step. wp_step. wp_step.
    + reflect_Z. subst. wp_step.
      eapply wp_upd_fop; [cbn; rewrite Hh1; wp_heap_fact|reflexivity|].
      cbn. wp_step. wp_step. wp_step.
      eapply wp_fill; [wp_heap_fact|reflexivity|reflexivity|done|done| |].
      * (* no memory for the payload *)
        intros s1 Hno. split; [done|]. eexists. split; [solve_ran|]. split; [calm|].
        split; [done|by right].
      * intros s1. wp_step. eapply wp_too_big; [wp_heap_fact|reflexivity|].
        intros size max s2 s3 Hsz Hmx. wp_step; reflect_Z.
        -- wp_step. split; [done|]. eexists. split; [solve_ran|]. split; [calm|].
           split; [done|]. split; [done|]. by eexists _, _, size, max.
        -- wp_step. eapply wp_load_fop; [wp_heap_fact|reflexivity|]. cbn.
           wp_step. split; [done|]. eexists. split; [solve_ran|]. split; [calm|]. right.
           exists a, now, dl, iv, rm. split; [done|]. split; [|split; [done|split; [done|]]].
           ++ cbn [heap set_heap log]. rewrite Hh1, !insert_insert_eq. done.
           ++ exists size, max. eexists (_ :: _ :: _ :: _ :: _ :: _ :: _ :: _ :: []).
              split; [lia|]. split; [done|]. split; [done|]. reflexivity.
    + (* no memory for the fop data *)
      reflect_Z. wp_step. eapply wp_free; [cbn; rewrite Hh1; wp_heap_fact|]. cbn. wp_step.
      split; [done|]. eexists. split; [solve_ran|]. split; [calm|]. left.
      repeat split; [done|]. cbn [heap set_heap log].
      by rewrite Hh1, delete_insert_eq, delete_id.
Qed.

(** ** The blocking path *)

(** The references to fops a run gives up. *)
Definition released_of (e : event) : option ptr :=
  match ev_call e with m0_fop_put_lock p => Some p | _ => None end.
Definition released (evs : list event) : list ptr := omap released_of evs.

(** The epochs a run stores in HA domains. *)
Definition domain_put_of (e : event) : option Z :=
  match ev_call e with m0_ha_domain_put_write _ x => Some x | _ => None end.
Definition domain_puts (evs : list event) : list Z := omap domain_put_of evs.

(** What is known of a run that got past the size check: one synchronous post
    of the fop with its data unchanged. *)
Definition posted_sync (c : ptr) (a : positive) (f : m0_fop) (evs : list event)
    (rc e : Z) (rep : ptr) : Prop :=
  exists f' deadline, f_data f' = f_data f /\ f_type f' = f_type f /\
    posted evs = [(addr a ~> F_f_item, f')] /\ callbacks evs = [] /\ domain_puts evs = [] /\ neutral evs /\
    Ev (m0_rpc_post_sync (addr a) (rpc_get_session c) deadline f') (rc, e, rep) ∈ evs /\
    answers (m0_rpc_post_sync (addr a) (rpc_get_session c) deadline f') (rc, e, rep).

(** Mero reports success without a reply, or with an error in the item. *)
Definition success_without_reply (c : ptr) : Prop := exists fop dl f e rep,
  answers (m0_rpc_post_sync fop (rpc_get_session c) dl f) (0, e, rep) /\ (e <> 0 \/ rep = Null).

Ltac solve_posted_sync :=
  eexists _, _; split; [|split; [|split; [reflexivity|split; [reflexivity|split; [reflexivity|
    split; [intros ?; reflexivity|
    split; [apply list_elem_of_In; simpl; tauto|eassumption]]]]]]]; reflexivity.

Lemma wp_send_fop_blocking c a f timeout w Q :
  heap w !! a = Some (OFop f) ->
  (forall w' size max evs, heap w' = heap w -> glob w' = glob w -> ran evs w w' ->
     posted evs = [] -> callbacks evs = [] -> released evs = [] ->
     answers (m0_fop_payload_size (addr a ~> F_f_item) f) size ->
     answers (m0_rpc_session_get_max_item_size (rpc_get_session c)) max ->
     max < u64 (size + ITEM_SIZE_CUSHION) -> Q (Exited 1) w') ->
  (forall w' e rep evs, glob w' = glob w -> ran evs w w' ->
     posted_sync c a f evs 0 e rep -> e <> 0 \/ rep = Null -> Q Aborted w') ->
  (forall w' rc e rep evs, heap w' = delete a (heap w) -> glob w' = glob w -> ran evs w w' ->
     posted_sync c a f evs rc e rep -> released evs = [addr a] ->
     (rc = 0 -> e = 0 /\ rep <> Null) -> Q (Ok rc) w') ->
  wp (rpc_send_fop_blocking_and_release c (addr a) timeout) Q w.
Proof.
  intros Ha HX HA HO. unfold rpc_send_fop_blocking_and_release.
  rewrite bool_decide_true by done. wp_step. wp_step.
  wp_step. eapply wp_too_big; [done|reflexivity|]. intros size max s1 s2 Hsz Hmx.
  wp_step; reflect_Z.
  - wp_step. eapply (HX _ size max); [done|done|solve_ran|done..].
  - upd_step. wp_step. wp_step. upd_step. wp_step. wp_step. wp_step.
    eapply wp_load_fop; [wp_heap_fact|reflexivity|]. cbn. wp_step. wp_step.
    destruct a2 as [[rc e] rep]. upd_step. wp_step. wp_step.
    + eapply wp_bind, wp_load_fop; [wp_heap_fact|reflexivity|]. cbn.
      wp_step. wp_step. wp_step. reflect_Z. subst rc. wp_step; reflect_Z.
      * wp_step; reflect_Z.
        -- wp_go. eapply HO; [|done|solve_ran|solve_posted_sync|done|done].
           cbn [heap set_heap log]. by rewrite !delete_insert_eq.
        -- eapply HA; [done|solve_ran|solve_posted_sync|]. by right.
      * eapply HA; [done|solve_ran|solve_posted_sync|by left].
    + reflect_Z. wp_go. eapply HO; [|done|solve_ran|solve_posted_sync|done|done].
      cbn [heap set_heap log]. by rewrite !delete_insert_eq.
Qed.


(** The encoding of an rpclite fop: a 32-bit count and the bytes. *)
Definition payload_encoding : Prop := forall item f d size,
  rpclite_data f = Some d -> 0 <= f_count d < 2 ^ 32 ->
  answers (m0_fop_payload_size item f) size -> size = 4 + f_count d.

(** The size limit of asynchronous messages, exactly: with the encoding of
    rpclite fops and a session that carries items of up to [limit] bytes, a
    message of [n] bytes with [n + 4 + 128 <= limit] never ends the process,
    and a longer one is never posted and never reported as sent. *)
Theorem message_size_limit c segs cb ctx timeout (limit : Z) w :
  Forall seg_ok segs -> total segs <= INT_MAX -> payload_encoding ->
  (forall max, answers (m0_rpc_session_get_max_item_size (rpc_get_session c)) max -> max = limit) ->
  wp (rpc_send c segs (Z.of_nat (length segs)) cb ctx timeout)
    (fun r w' => forall evs, ran evs w w' ->
       if total segs + 4 + ITEM_SIZE_CUSHION <=? limit then forall code, r <> Exited code
       else posted evs = [] /\ r <> Ok 0) w.
Proof.
  intros Hok Hmax Henc Hlim. pose proof (total_nonneg segs Hok) as Hnn.
  assert (Hsz : forall item f size, rpclite_data f = Some (payload segs) ->
    answers (m0_fop_payload_size item f) size ->
    u64 (size + ITEM_SIZE_CUSHION) = total segs + 4 + ITEM_SIZE_CUSHION).
  { intros item f size Hf Hs. unfold INT_MAX in Hmax.
    rewrite (Henc _ _ _ _ Hf ltac:(simpl; lia) Hs). unfold ITEM_SIZE_CUSHION. simpl.
    rewrite u64_small; lia. }
  eapply wp_mono; [by apply rpc_send_spec|]. intros r w' [_ (evs & Hr & _ & H)] evs' Hr'.
  rewrite (ran_det _ _ _ _ Hr' Hr). destruct (_ <=? limit) eqn:Hle; reflect_Z.
  - intros code ->. destruct H as (_ & _ & item & f & size & max & Hf & Hs & Hm & Hlt).
    rewrite (Hsz _ _ _ Hf Hs), (Hlim _ Hm) in Hlt. lia.
  - destruct r as [rc| |code|]; [|by destruct H|by destruct H as (_ & H & _)|done].
    destruct H as [(Hp & Hrc & _)|(a & now & dl & iv & rm & _ & _ & _ & _ & size & max & pre & Hu & Hs & Hm & _)].
    + split; [done|]. by intros [= ->].
    + apply Hsz in Hs; [|reflexivity]. rewrite (Hlim _ Hm) in Hu. lia.
Qed.

(** Every way [rpc_send_blocking] can end on readable segments. *)
Definition blocking_post (c : ptr) (segs : list iovec) (w : world) (r : res Z) (w' : world) : Prop :=
  glob w' = glob w /\ exists evs, ran evs w w' /\
  match r with
  | Ok rc => heap w' = heap w /\ exists a f e rep,
      f_data f = Some (FD_rpclite (payload segs)) /\
      posted_sync c a f evs rc e rep /\ released evs = [addr a] /\
      (rc = 0 -> e = 0 /\ rep <> Null)
  | Exited code => code = 1 /\ posted evs = [] /\
      exists item f size max, rpclite_data f = Some (payload segs) /\
        answers (m0_fop_payload_size item f) size /\
        answers (m0_rpc_session_get_max_item_size (rpc_get_session c)) max /\
        max < u64 (size + ITEM_SIZE_CUSHION)
  | Aborted =>
      (posted evs = [] /\
       (answers (m0_fop_alloc_at (rpc_get_session c) m0_fop_rpclite_fopt) false \/
        answers (alloc (A_array (total segs))) false)) \/
      exists a f e rep, posted_sync c a f evs 0 e rep /\ (e <> 0 \/ rep = Null)
  | Undefined => False
  end.

Lemma rpc_send_blocking_spec c segs timeout w :
  Forall seg_ok segs -> total segs <= INT_MAX ->
  wp (rpc_send_blocking c segs (Z.of_nat (length segs)) timeout) (blocking_post c segs w) w.
Proof.
  intros Hok Hmax. unfold rpc_send_blocking, fop_alloc_at. wp_step. wp_step. wp_step. wp_step.
  2:{ wp_step. change (bool_decide (Null <> Null)) with false. wp_step. wp_step.
      split; [done|]. eexists. split; [solve_ran|]. left. split; [done|by left]. }
  wp_step. wp_step. rewrite bool_decide_true by done. wp_step. wp_step.
  eapply wp_fill; [wp_heap_fact|reflexivity|reflexivity|done|done| |]; intros s2; cbn beta iota.
  { intros Hno. split; [done|]. eexists. split; [solve_ran|]. left. split; [done|by right]. }
  eapply wp_send_fop_blocking; [wp_heap_fact|..]; cbn [glob set_heap log heap].
  - intros w' size max evs _ Hg Hr Hp _ _ Hs Hm Hlt. split; [done|].
    eexists. split; [solve_ran|]. split; [done|]. split; [exact Hp|].
    by eexists _, _, size, max.
  - intros w' e rep evs Hg Hr Hp He. split; [done|]. eexists. split; [solve_ran|]. right.
    destruct Hp as (f' & dl & Hd & Ht & Hp & Hc & Hdom & Hneu & Hin & Hans).
    exists a0, (set_data (FD_rpclite (payload segs)) (new_fop m0_fop_rpclite_fopt)), e, rep.
    split; [|done]. exists f', dl. repeat split; eauto.
    repeat (apply list_elem_of_further || done).
  - intros w' rc e rep evs Hh Hg Hr Hp Hrel Hrc. split; [done|]. eexists. split; [solve_ran|].
    split.
    { rewrite Hh. by rewrite insert_insert_eq, delete_insert_eq, delete_id. }
    destruct Hp as (f' & dl & Hd & Ht & Hp & Hc & Hdom & Hneu & Hin & Hans).
    exists a0, (set_data (FD_rpclite (payload segs)) (new_fop m0_fop_rpclite_fopt)), e, rep.
    split; [reflexivity|]. split; [|split; [exact Hrel|done]].
    exists f', dl. repeat split; eauto. repeat (apply list_elem_of_further || done).
Qed.

(** Every outcome of [rpc_send_blocking] on readable segments of at most
    [INT_MAX] bytes: if it returns, exactly one fop was posted, with the
    segments in order as payload, its reference was released exactly once, the
    heap is as before and the result is Mero's, which is zero only together
    with a reply; a message that is too big ends the process with code 1
    before anything is posted; it never does anything undefined, and fails an
    assertion only for lack of memory or on a success without a reply. *)
Theorem rpc_send_blocking_outcomes c segs timeout w :
  Forall seg_ok segs -> total segs <= INT_MAX ->
  wp (rpc_send_blocking c segs (Z.of_nat (length segs)) timeout) (blocking_post c segs w) w.
Proof. apply rpc_send_blocking_spec. Qed.

(** ** The reply handler *)

(** The status the callback gets for the error Mero stored in the item. *)
Definition status_of (error : Z) : rpc_status :=
  if - error =? ETIMEDOUT then RPC_TIMEOUT
  else if - error =? 0 then RPC_OK else RPC_FAILED.

(** The statistics after a reply with this error. *)
Definition replied_stats (error : Z) (g g' : globals) : Prop :=
  if error =? 0 then
    exists rs rs' time, rpc_stat g !! rpc_stat_idx RPC_STAT_SEND = Some rs /\
      stat_add time rs = Some rs' /\ 0 <= time < 2 ^ 64 /\ g' = set_stat RPC_STAT_SEND rs' g
  else g' = g.

Lemma wp_reply_status ctime error w Q :
  length (rpc_stat (glob w)) = RPC_STAT_NR -> error <> INT_MIN ->
  (forall w' evs, heap w' = heap w -> ran evs w w' -> posted evs = [] -> callbacks evs = [] ->
     neutral evs -> replied_stats error (glob w) (glob w') -> Q (Ok (status_of error)) w') ->
  (forall w' rs time, rpc_stat (glob w) !! rpc_stat_idx RPC_STAT_SEND = Some rs ->
     stat_add time rs = None -> error = 0 -> Q Undefined w') ->
  wp (reply_status ctime error) Q w.
Proof.
  intros Hlen Hmin HO HU.
  assert (exists rs, rpc_stat (glob w) !! rpc_stat_idx RPC_STAT_SEND = Some rs) as [rs Hrs].
  { apply lookup_lt_is_Some. rewrite Hlen. simpl. unfold RPC_STAT_NR. lia. }
  unfold status_of in HO. unfold reply_status.
  rewrite (proj2 (Z.eqb_neq error INT_MIN) Hmin).
  destruct (- error =? ETIMEDOUT) eqn:Ht; [|destruct (- error =? 0) eqn:H0]; reflect_Z.
  - wp_step. apply (HO _ []); try done; [apply ran_refl|]. unfold replied_stats, ETIMEDOUT in *.
    by rewrite (proj2 (Z.eqb_neq error 0)) by lia.
  - wp_step. wp_step. wp_step. eapply wp_add_rpc_stat_record; [exact Hrs| |].
    + intros rs' s1 s2 Hadd. wp_step. eapply HO; [done|solve_ran|done|done|done|].
      unfold replied_stats. rewrite (proj2 (Z.eqb_eq error 0)) by lia.
      exists rs, rs', (u64 (a - ctime)). repeat split; try done; apply u64_range.
    + intros w' Hadd _. eapply HU; [done|done|lia].
  - wp_step. apply (HO _ []); try done; [apply ran_refl|]. unfold replied_stats.
    by rewrite (proj2 (Z.eqb_neq error 0)) by lia.
Qed.

Lemma wp_rpclite_replied a m f w Q :
  heap w !! a = Some (OMessage m) -> msg_reply_callback m = Some f ->
  ri_error (f_item (msg_fop m)) <> INT_MIN -> length (rpc_stat (glob w)) = RPC_STAT_NR ->
  (forall w' evs last, ran evs w w' -> posted evs = [] -> neutral evs ->
     callbacks evs = [(f, msg_c m, msg_ctx m, status_of (ri_error (f_item (msg_fop m))))] ->
     replied_stats (ri_error (f_item (msg_fop m))) (glob w) (glob w') ->
     answers (m0_fop_put (addr a ~> F_fop)) last ->
     heap w' = (if last : bool then delete a (heap w) else heap w) -> Q (Ok tt) w') ->
  (forall w' rs time, rpc_stat (glob w) !! rpc_stat_idx RPC_STAT_SEND = Some rs ->
     stat_add time rs = None -> ri_error (f_item (msg_fop m)) = 0 -> Q Undefined w') ->
  wp (rpclite_replied (addr a ~> F_fop ~> F_f_item)) Q w.
Proof.
  intros Ha Hcb Hmin Hlen HO HU. unfold rpclite_replied, load_message.
  rewrite container_of_field by done. simpl. wp_step. wp_step. wp_step. wp_step.
  wp_step. wp_step. wp_step. eapply wp_reply_status; [done|done| |done].
  intros w1 evs1 Hh1 Hr1 Hp1 Hc1 Hn1 Hst. cbn in *. wp_step. rewrite Hcb. simpl. wp_step.
  unfold fop_put. wp_step. wp_step. destruct a0.
  - unfold rpclite_senderside_free_nonuser_memory. wp_step.
    rewrite container_of_field1 by done. simpl. wp_step. wp_step. wp_step. wp_step.
    rewrite container_of_field1 by done. simpl. wp_step.
    eapply wp_free; [cbn; rewrite Hh1; done|].
    eapply (HO _ _ true); [solve_ran|by rewrite posted_app, Hp1|by apply neutral_app|
      by rewrite callbacks_app, Hc1|done|done|cbn; by rewrite Hh1].
  - wp_step. eapply (HO _ _ false); [solve_ran|by rewrite posted_app, Hp1|by apply neutral_app|
      by rewrite callbacks_app, Hc1|done|done|done].
Qed.

(** The reply handler calls the caller's callback exactly once, with the
    caller's connection and context and with [RPC_OK], [RPC_TIMEOUT] or
    [RPC_FAILED] according to the error Mero stored; it records the round-trip
    time exactly when the status is [RPC_OK]; and it frees the message iff it
    dropped the last reference. It completes unless the statistics counter
    wraps. *)
Theorem rpclite_replied_once a m f w :
  heap w !! a = Some (OMessage m) -> msg_reply_callback m = Some f ->
  ri_error (f_item (msg_fop m)) <> INT_MIN -> length (rpc_stat (glob w)) = RPC_STAT_NR ->
  wp (rpclite_replied (addr a ~> F_fop ~> F_f_item))
    (fun r w' =>
       (r = Ok tt /\ exists evs last, ran evs w w' /\
         callbacks evs = [(f, msg_c m, msg_ctx m, status_of (ri_error (f_item (msg_fop m))))] /\
         replied_stats (ri_error (f_item (msg_fop m))) (glob w) (glob w') /\
         heap w' = (if last : bool then delete a (heap w) else heap w)) \/
       (r = Undefined /\ exists rs time,
         rpc_stat (glob w) !! rpc_stat_idx RPC_STAT_SEND = Some rs /\ stat_add time rs = None)) w.
Proof.
  intros Ha Hcb Hmin Hlen. eapply wp_rpclite_replied; [done..| |].
  - intros w' evs last Hr _ _ Hc Hst _ Hh. left. split; [done|]. by exists evs, last.
  - intros w' rs time Hrs Hadd _. right. split; [done|]. by exists rs, time.
Qed.

(** [rpclite.h] allows [NULL] for [reply_callback], but the reply handler
    calls it without a check: a reply to a message sent without a callback is
    undefined, whatever the error in the item, and the message is not freed. *)
Theorem rpclite_replied_null_callback a m w :
  heap w !! a = Some (OMessage m) -> msg_reply_callback m = None ->
  length (rpc_stat (glob w)) = RPC_STAT_NR ->
  wp (rpclite_replied (addr a ~> F_fop ~> F_f_item)) (fun r w' => r = Undefined) w.
Proof.
  intros Ha Hcb Hlen. unfold rpclite_replied, load_message.
  rewrite container_of_field by done. simpl. wp_step. wp_step. wp_step. wp_step.
  wp_step. wp_step. wp_step.
  destruct (decide (ri_error (f_item (msg_fop m)) = INT_MIN)) as [He|He].
  - unfold reply_status. rewrite He. simpl. by wp_step.
  - eapply wp_reply_status; [done|done| |done].
    intros. cbn. wp_step. rewrite Hcb. simpl. by wp_step.
Qed.

End Send.

(** ** Witnesses *)

(** Items of up to 64 Kb; the payload is its count and its bytes. *)
Definition roomy (c : call) : ans c :=
  match c return ans c with
  | m0_rpc_session_get_max_item_size _ => 65536
  | m0_fop_payload_size _ f =>
      match rpclite_data f with Some d => 4 + f_count d | None => 16 end
  | c => succeed c
  end.

Definition conn0 : ptr := addr 9.
Definition ctx0 : ptr := Ptr (Foreign 5) [].


Lemma rpc_send_blocking_outcomes_witness :
  wp (rpc_send_blocking conn0 two_segments 2 1)
    (blocking_post conn0 two_segments (start roomy)) (start roomy) /\
  (rpc_send_blocking conn0 two_segments 2 1 (start roomy)).1 = Ok 0.
Proof.
  split; [|vm_compute; reflexivity].
  apply (rpc_send_blocking_outcomes conn0 two_segments 1 (start roomy)); [|done].
  by repeat constructor.
Defined.

(** Two segments of 20 bytes in all fit an item of 65536 bytes. *)
Lemma message_size_limit_witness :
  wp (rpc_send conn0 two_segments 2 (Some 11) ctx0 2)
    (fun r w' => forall evs, ran evs (start roomy) w' ->
       if total two_segments + 4 + 128 <=? 65536 then forall code, r <> Exited code
       else posted evs = [] /\ r <> Ok 0) (start roomy).
Proof.
  apply (message_size_limit conn0 two_segments (Some 11) ctx0 2 65536 (start roomy)).
  - by repeat constructor.
  - done.
  - intros item f d size Hd Hc [s <-]. unfold norm. simpl. rewrite Hd. apply u64_small. lia.
  - by intros max [s <-].
Defined.

(** A message in the heap whose item Mero has marked with the error [e]. *)
Definition replied_message (cb : fnptr) (e : Z) : senderside_message :=
  {| msg_c := conn0; msg_ctx := ctx0; msg_reply_callback := cb;
     msg_fop := on_item (set_error_reply e Null) (new_fop m0_fop_rpclite_fopt);
     msg_ctime := 0 |}.
Definition replied_world (cb : fnptr) (e : Z) : world :=
  set_heap (<[1%positive := OMessage (replied_message cb e)]>) (start roomy).

Lemma rpclite_replied_once_witness :
  let w := replied_world (Some 11) (-110) in
  wp (rpclite_replied (addr 1 ~> F_fop ~> F_f_item))
    (fun r w' =>
       (r = Ok tt /\ exists evs last, ran evs w w' /\
         callbacks evs = [(11, conn0, ctx0, RPC_TIMEOUT)] /\
         replied_stats (-110) (glob w) (glob w') /\
         heap w' = (if last : bool then delete 1%positive (heap w) else heap w)) \/
       (r = Undefined /\ exists rs time,
         rpc_stat (glob w) !! rpc_stat_idx RPC_STAT_SEND = Some rs /\ stat_add time rs = None)) w.
Proof.
  intros w. by apply (rpclite_replied_once 1 (replied_message (Some 11) (-110)) 11 w).
Defined.

Lemma rpclite_replied_null_callback_witness :
  wp (rpclite_replied (addr 1 ~> F_fop ~> F_f_item)) (fun r w' => r = Undefined)
    (replied_world None 0).
Proof.
  by apply (rpclite_replied_null_callback 1 (replied_message None 0) (replied_world None 0)).
Defined.

End Send.
