(* ===== verification/InFlight.v ===== *)
(** The asynchronous protocol of rpclite.c as a state machine: a client sends
    messages with [rpc_send] while Mero answers posted items, in any order and
    with any error, by storing the error in the item and calling the reply
    handler [rpclite_replied].

    What the model takes from Mero's documentation is in the shape of the
    steps: only items whose post was accepted are answered, each once. That the
    answer drops the last reference to the fop is the hypothesis [put_is_last]. *)

From S2P Require Import Prelude CTypes Machine Stats Resources Connection Payload Send.
Local Open Scope Z_scope.

Module InFlight.
Import Stats Payload Send.
Section InFlight.
Context {E : Env}.

(** What identifies a message for the client: callback, connection, context. *)
Abbreviation key := (Z * ptr * ptr)%type.

Definition item_of (a : positive) : ptr := addr a ~> F_fop ~> F_f_item.

(** Mero stores the outcome in the item. *)
Definition mark (a : positive) (e : Z) (rep : ptr) : world -> world :=
  set_heap (alter (fun o => match o with
    | OMessage m => OMessage (set_msg_fop (on_item (set_error_reply e rep) (msg_fop m)) m)
    | o => o end) a).

Record sys := Sys {
  sw : world;
  flight : gmap positive key;   (* accepted and not yet answered *)
  lost : gset positive;         (* posted, but refused by Mero *)
  accepted : list key;          (* every send that returned 0 *)
}.

Inductive step : sys -> sys -> Prop :=
| step_accept s c segs f ctx timeout w' evs a fp :
    Forall seg_ok segs -> total segs <= INT_MAX ->
    rpc_send c segs (Z.of_nat (length segs)) (Some f) ctx timeout (sw s) = (Ok 0, w') ->
    ran evs (sw s) w' -> posted evs = [(item_of a, fp)] ->
    step s (Sys w' (<[a := (f, c, ctx)]> (flight s)) (lost s) (accepted s ++ [(f, c, ctx)]))
| step_refuse_post s c segs f ctx timeout rc w' evs a fp :
    Forall seg_ok segs -> total segs <= INT_MAX ->
    rpc_send c segs (Z.of_nat (length segs)) (Some f) ctx timeout (sw s) = (Ok rc, w') ->
    rc <> 0 -> ran evs (sw s) w' -> posted evs = [(item_of a, fp)] ->
    step s (Sys w' (flight s) ({[a]} ∪ lost s) (accepted s))
| step_refuse s c segs f ctx timeout rc w' evs :
    Forall seg_ok segs -> total segs <= INT_MAX ->
    rpc_send c segs (Z.of_nat (length segs)) (Some f) ctx timeout (sw s) = (Ok rc, w') ->
    ran evs (sw s) w' -> posted evs = [] ->
    step s (Sys w' (flight s) (lost s) (accepted s))
| step_reply s a k e rep w' :
    flight s !! a = Some k -> e <> INT_MIN ->
    rpclite_replied (item_of a) (mark a e rep (sw s)) = (Ok tt, w') ->
    step s (Sys w' (delete a (flight s)) (lost s) (accepted s)).

Definition initial (w : world) : sys := Sys w ∅ ∅ [].

(** The last reference to a posted fop is dropped by the reply handler. *)
Definition put_is_last : Prop := forall p b, answers (m0_fop_put p) b -> b = true.

Definition callback_key (x : Z * ptr * ptr * rpc_status) : key := x.1.

(** * Invariant *)

Record inv (w0 : world) (s : sys) : Prop := {
  inv_flight : forall a f c ctx, flight s !! a = Some (f, c, ctx) ->
    exists m, heap (sw s) !! a = Some (OMessage m) /\
      msg_reply_callback m = Some f /\ msg_c m = c /\ msg_ctx m = ctx;
  inv_lost : forall a, a ∈ lost s -> is_Some (heap (sw s) !! a);
  inv_rest : forall a, flight s !! a = None -> a ∉ lost s -> heap (sw s) !! a = heap w0 !! a;
  inv_fresh : forall a, is_Some (flight s !! a) \/ a ∈ lost s -> heap w0 !! a = None;
  inv_disjoint : forall a, is_Some (flight s !! a) -> a ∉ lost s;
  inv_calls : exists evs, ran evs w0 (sw s) /\
    (callback_key <$> callbacks evs) ++ ((map_to_list (flight s)).*2) ≡ₚ accepted s;
  inv_stats : length (rpc_stat (glob (sw s))) = RPC_STAT_NR;
}.

Lemma inv_initial w : length (rpc_stat (glob w)) = RPC_STAT_NR -> inv w (initial w).
Proof.
  intros Hlen. constructor; simpl; try done; try set_solver.
  - intros a [[? H]|H]; [done|set_solver].
  - exists []. split; [apply ran_refl|done].
Qed.

(** ** What one send does *)

Section OneSend.
Context (c ctx : ptr) (segs : list iovec) (f timeout rc : Z) (w w' : world) (evs : list event).
Hypothesis Hok : Forall seg_ok segs.
Hypothesis Hmax : total segs <= INT_MAX.
Hypothesis Hsend :
  rpc_send c segs (Z.of_nat (length segs)) (Some f) ctx timeout w = (Ok rc, w').
Hypothesis Hran : ran evs w w'.

Lemma send_keeps : glob w' = glob w /\ callbacks evs = [].
Proof using All.
  destruct (wp_run _ _ _ _ _ (rpc_send_spec c segs (Some f) ctx timeout w Hok Hmax) Hsend)
    as [Hg (evs' & Hr & [Hc _] & _)].
  by rewrite (ran_det _ _ _ _ Hran Hr).
Qed.

Lemma send_unposted : posted evs = [] -> rc <> 0 /\ heap w' = heap w.
Proof using All.
  intros Hp.
  destruct (wp_run _ _ _ _ _ (rpc_send_spec c segs (Some f) ctx timeout w Hok Hmax) Hsend)
    as [_ (evs' & Hr & _ & [(_ & Hrc & Hh)|(a & ? & ? & ? & ? & _ & _ & _ & Hp' & _)])].
  - done.
  - rewrite <- (ran_det _ _ _ _ Hran Hr), Hp in Hp'. done.
Qed.

Lemma send_posted a fp : posted evs = [(item_of a, fp)] ->
  heap w !! a = None /\ exists m, heap w' = <[a := OMessage m]> (heap w) /\
    msg_reply_callback m = Some f /\ msg_c m = c /\ msg_ctx m = ctx.
Proof using All.
  intros Hp.
  destruct (wp_run _ _ _ _ _ (rpc_send_spec c segs (Some f) ctx timeout w Hok Hmax) Hsend)
    as [_ (evs' & Hr & _ & [(Hp' & _)|(b & now & dl & iv & rm & Hb & Hh & _ & Hp' & _)])];
    rewrite <- (ran_det _ _ _ _ Hran Hr), Hp in Hp'; [done|].
  injection Hp' as Hab _. subst b.
  split; [done|]. by eexists.
Qed.
End OneSend.

(** ** The answer to one message *)

Lemma mark_heap a e rep w m : heap w !! a = Some (OMessage m) ->
  heap (mark a e rep w) =
    <[a := OMessage (set_msg_fop (on_item (set_error_reply e rep) (msg_fop m)) m)]> (heap w).
Proof.
  intros Ha. apply map_eq. intros b. cbn. destruct (decide (b = a)) as [->|].
  - by rewrite lookup_alter_eq, Ha, lookup_insert_eq.
  - by rewrite lookup_alter_ne, lookup_insert_ne by done.
Qed.

(** The reply handler on a marked message: it completes, or the counter of
    successful sends wraps. *)
Lemma wp_answer a e rep m f w :
  put_is_last -> heap w !! a = Some (OMessage m) -> msg_reply_callback m = Some f ->
  e <> INT_MIN -> length (rpc_stat (glob w)) = RPC_STAT_NR ->
  wp (rpclite_replied (item_of a)) (fun r w' =>
    (r = Ok tt /\ heap w' = delete a (heap w) /\
     length (rpc_stat (glob w')) = RPC_STAT_NR /\
     exists evs, ran evs w w' /\ callbacks evs = [(f, msg_c m, msg_ctx m, status_of e)] /\
       posted evs = [] /\ neutral evs /\ replied_stats e (glob w) (glob w')) \/
    (r = Undefined /\ e = 0 /\ exists rs time,
       rpc_stat (glob w) !! rpc_stat_idx RPC_STAT_SEND = Some rs /\ stat_add time rs = None))
    (mark a e rep w).
Proof.
  intros Hlast Ha Hcb He Hlen.
  eapply (wp_rpclite_replied a (set_msg_fop (on_item (set_error_reply e rep) (msg_fop m)) m) f);
    [by rewrite (mark_heap _ _ _ _ m), lookup_insert_eq|done|done|done| |].
  - intros w' evs last Hr Hp Hn Hc Hst Hans Hh. left. apply Hlast in Hans as ->.
    rewrite (mark_heap _ _ _ _ m), delete_insert_eq in Hh by done.
    split; [done|]. split; [done|].
    split; [|by exists evs; repeat split].
    unfold replied_stats in Hst. destruct (_ =? 0); [|by rewrite Hst].
    destruct Hst as (rs & rs' & time & _ & _ & _ & ->). unfold set_stat. cbn. by rewrite length_insert.
  - intros w' rs time Hrs Hadd H0. right. split; [done|]. split; [done|]. by exists rs, time.
Qed.

(** ** Every step keeps the invariant *)

Lemma inv_post w0 s w' a m :
  inv w0 s -> heap (sw s) !! a = None -> heap w' = <[a := OMessage m]> (heap (sw s)) ->
  flight s !! a = None /\ (a ∉ lost s) /\ heap w0 !! a = None /\
  (forall b, b <> a -> heap w' !! b = heap (sw s) !! b) /\ heap w' !! a = Some (OMessage m).
Proof.
  intros I Ha Hh. assert (Hf : flight s !! a = None).
  { destruct (flight s !! a) as [[[f c] ctx]|] eqn:Hf; [|done].
    destruct (inv_flight _ _ I _ _ _ _ Hf) as (m' & Hm & _). congruence. }
  assert (Hl : a ∉ lost s).
  { intros Hl. destruct (inv_lost _ _ I _ Hl). congruence. }
  split; [done|]. split; [done|]. split; [by rewrite <- (inv_rest _ _ I a)|].
  rewrite Hh. split; [intros b Hb|]; by rewrite ?lookup_insert_eq, ?lookup_insert_ne.
Qed.

Lemma inv_accept w0 s w' a m evs f :
  inv w0 s -> heap (sw s) !! a = None -> heap w' = <[a := OMessage m]> (heap (sw s)) ->
  msg_reply_callback m = Some f -> ran evs (sw s) w' -> callbacks evs = [] ->
  glob w' = glob (sw s) ->
  inv w0 (Sys w' (<[a := (f, msg_c m, msg_ctx m)]> (flight s)) (lost s)
            (accepted s ++ [(f, msg_c m, msg_ctx m)])).
Proof.
  intros I Ha Hh Hcb Hr Hc Hg.
  destruct (inv_post _ _ _ _ _ I Ha Hh) as (Hf & Hl & H0 & Hne & Heq).
  constructor; simpl.
  - intros b f' c' ctx' [[<- [= <- <- <-]]|[Hb Hb']]%lookup_insert_Some; [by exists m|].
    rewrite Hne by done. by apply (inv_flight _ _ I).
  - intros b Hb. rewrite Hne by (intros ->; done). by apply (inv_lost _ _ I).
  - intros b [Hb ?]%lookup_insert_None Hb'. rewrite Hne by done. by apply (inv_rest _ _ I).
  - intros b [Hb|Hb]; [|apply (inv_fresh _ _ I); by right].
    destruct (decide (b = a)) as [->|]; [done|].
    rewrite lookup_insert_ne in Hb by done. apply (inv_fresh _ _ I). by left.
  - intros b Hb. destruct (decide (b = a)) as [->|]; [done|].
    rewrite lookup_insert_ne in Hb by done. by apply (inv_disjoint _ _ I).
  - destruct (inv_calls _ _ I) as (evs0 & Hr0 & Hp). exists (evs0 ++ evs).
    split; [by eapply ran_trans|]. unfold callbacks in *. rewrite omap_app, Hc, app_nil_r.
    rewrite map_to_list_insert by done. simpl. rewrite <- Hp. solve_Permutation.
  - rewrite Hg. apply (inv_stats _ _ I).
Qed.

Lemma inv_lose w0 s w' a m evs :
  inv w0 s -> heap (sw s) !! a = None -> heap w' = <[a := OMessage m]> (heap (sw s)) ->
  ran evs (sw s) w' -> callbacks evs = [] -> glob w' = glob (sw s) ->
  inv w0 (Sys w' (flight s) ({[a]} ∪ lost s) (accepted s)).
Proof.
  intros I Ha Hh Hr Hc Hg.
  destruct (inv_post _ _ _ _ _ I Ha Hh) as (Hf & Hl & H0 & Hne & Heq).
  constructor; simpl.
  - intros b f' c' ctx' Hb. rewrite Hne by congruence. by apply (inv_flight _ _ I).
  - intros b [->%elem_of_singleton|Hb]%elem_of_union; [by rewrite Heq|].
    rewrite Hne by (intros ->; done). by apply (inv_lost _ _ I).
  - intros b Hb [Hba Hbl]%not_elem_of_union. rewrite Hne by set_solver. by apply (inv_rest _ _ I).
  - intros b [Hb|[->%elem_of_singleton|Hb]%elem_of_union]; [|done|];
      apply (inv_fresh _ _ I); auto.
  - intros b [k Hb]. apply not_elem_of_union. split; [intros ->%elem_of_singleton; congruence|].
    apply (inv_disjoint _ _ I). by exists k.
  - destruct (inv_calls _ _ I) as (evs0 & Hr0 & Hp). exists (evs0 ++ evs).
    split; [by eapply ran_trans|]. unfold callbacks in *. by rewrite omap_app, Hc, app_nil_r.
  - rewrite Hg. apply (inv_stats _ _ I).
Qed.

Lemma inv_refuse w0 s w' evs :
  inv w0 s -> heap w' = heap (sw s) -> ran evs (sw s) w' -> callbacks evs = [] ->
  glob w' = glob (sw s) -> inv w0 (Sys w' (flight s) (lost s) (accepted s)).
Proof.
  intros [] Hh Hr Hc Hg. constructor; simpl; rewrite ?Hh, ?Hg; try done.
  destruct inv_calls0 as (evs0 & Hr0 & Hp). exists (evs0 ++ evs).
  split; [by eapply ran_trans|]. unfold callbacks in *. by rewrite omap_app, Hc, app_nil_r.
Qed.

Lemma inv_answer w0 s w' a f c ctx st evs :
  inv w0 s -> flight s !! a = Some (f, c, ctx) -> heap w' = delete a (heap (sw s)) ->
  length (rpc_stat (glob w')) = RPC_STAT_NR -> ran evs (sw s) w' ->
  callbacks evs = [(f, c, ctx, st)] ->
  inv w0 (Sys w' (delete a (flight s)) (lost s) (accepted s)).
Proof.
  intros I Hf Hh Hlen Hr Hc. constructor; simpl; try done.
  - intros b f' c' ctx' [Hne Hb]%lookup_delete_Some. rewrite Hh, lookup_delete_ne by done.
    by apply (inv_flight _ _ I).
  - intros b Hb. rewrite Hh, lookup_delete_ne; [by apply (inv_lost _ _ I)|].
    intros <-. by apply (inv_disjoint _ _ I a); [exists (f, c, ctx)|].
  - intros b Hb Hbl. rewrite Hh. destruct (decide (b = a)) as [->|Hne].
    + rewrite lookup_delete_eq. symmetry. apply (inv_fresh _ _ I). left. by eexists.
    + rewrite lookup_delete_ne in Hb by done. rewrite lookup_delete_ne by done.
      by apply (inv_rest _ _ I).
  - intros b [[k [_ Hb]%lookup_delete_Some]|Hb]; apply (inv_fresh _ _ I); [left|by right].
    by exists k.
  - intros b [k [_ Hb]%lookup_delete_Some]. apply (inv_disjoint _ _ I). by exists k.
  - destruct (inv_calls _ _ I) as (evs0 & Hr0 & Hp). exists (evs0 ++ evs).
    split; [by eapply ran_trans|]. unfold callbacks in *. rewrite omap_app, Hc, fmap_app.
    rewrite <- Hp, <- (map_to_list_delete (flight s) a (f, c, ctx)) by done. simpl.
    by rewrite <- (assoc_L (++)).
Qed.

Lemma step_inv w0 s s' : put_is_last -> inv w0 s -> step s s' -> inv w0 s'.
Proof.
  intros Hlast I.
  destruct 1 as [s c segs f ctx t w' evs a fp Hok Hmax Hs Hr Hp
    |s c segs f ctx t rc w' evs a fp Hok Hmax Hs Hrc Hr Hp
    |s c segs f ctx t rc w' evs Hok Hmax Hs Hr Hp|s a [[f c] ctx] e rep w' Hf He Hs].
  - destruct (send_keeps _ _ _ _ _ _ _ _ _ Hok Hmax Hs Hr) as [Hg Hc].
    destruct (send_posted _ _ _ _ _ _ _ _ _ Hok Hmax Hs Hr _ _ Hp)
      as (Ha & m & Hh & Hcb & <- & <-). by eapply inv_accept.
  - destruct (send_keeps _ _ _ _ _ _ _ _ _ Hok Hmax Hs Hr) as [Hg Hc].
    destruct (send_posted _ _ _ _ _ _ _ _ _ Hok Hmax Hs Hr _ _ Hp) as (Ha & m & Hh & _).
    by eapply inv_lose.
  - destruct (send_keeps _ _ _ _ _ _ _ _ _ Hok Hmax Hs Hr) as [Hg Hc].
    destruct (send_unposted _ _ _ _ _ _ _ _ _ Hok Hmax Hs Hr Hp) as [_ Hh].
    by eapply inv_refuse.
  - destruct (inv_flight _ _ I _ _ _ _ Hf) as (m & Ha & Hcb & <- & <-).
    destruct (wp_run _ _ _ _ _ (wp_answer a e rep m f _ Hlast Ha Hcb He (inv_stats _ _ I)) Hs)
      as [(_ & Hh & Hlen & evs & Hr & Hc & _)|[? _]]; [|done].
    by eapply inv_answer.
Qed.

(** ** Reachable states *)

Context (Hlast : put_is_last).

Lemma reachable_inv w s :
  length (rpc_stat (glob w)) = RPC_STAT_NR -> star step (initial w) s -> inv w s.
Proof using Hlast.
  intros Hlen Hs. eapply (star_invariant step (inv w)); [done|by apply inv_initial|].
  eauto using step_inv.
Qed.

(** In a state that satisfies the invariant Mero can answer any message in
    flight with any error; only a success can fail, when the counter wraps. *)
Lemma inv_can_answer w s a k e (rep : ptr) :
  inv w s -> flight s !! a = Some k -> e <> INT_MIN ->
  (exists w', step s (Sys w' (delete a (flight s)) (lost s) (accepted s))) \/
  (e = 0 /\ exists rs time, rpc_stat (glob (sw s)) !! rpc_stat_idx RPC_STAT_SEND = Some rs /\
     stat_add time rs = None).
Proof using Hlast.
  intros I Hf He. destruct k as [[f c] ctx].
  destruct (inv_flight _ _ I _ _ _ _ Hf) as (m & Ha & Hcb & _).
  pose proof (wp_answer a e rep m f _ Hlast Ha Hcb He (inv_stats _ _ I)) as Hwp.
  unfold wp in Hwp. destruct (rpclite_replied (item_of a) (mark a e rep (sw s))) as [r w'] eqn:Hr.
  destruct Hwp as [(-> & _)|(_ & H0 & H)]; [left|by right].
  exists w'. by eapply step_reply.
Qed.


(** C5. Memory of the asynchronous path. In every reachable state each message
    in flight is allocated and holds its sender's callback, connection and
    context, and nothing else was allocated or freed except the messages whose
    post Mero refused, which stay allocated (nothing frees them). *)
Theorem inflight_memory w s :
  length (rpc_stat (glob w)) = RPC_STAT_NR -> star step (initial w) s ->
  (forall a f c ctx, flight s !! a = Some (f, c, ctx) ->
    heap w !! a = None /\ exists m, heap (sw s) !! a = Some (OMessage m) /\
      msg_reply_callback m = Some f /\ msg_c m = c /\ msg_ctx m = ctx) /\
  (forall a, a ∈ lost s -> heap w !! a = None /\ is_Some (heap (sw s) !! a)) /\
  (forall a, flight s !! a = None -> a ∉ lost s -> heap (sw s) !! a = heap w !! a).
Proof using Hlast.
  intros Hlen Hs. pose proof (reachable_inv _ _ Hlen Hs) as [].
  split; [|split]; [|intros a Ha; split|]; eauto.
Qed.

(** C36. No message in flight is stuck: from every reachable state there is a
    sequence of answers after which nothing is in flight, every accepted send
    has been called back exactly once, and the heap is the one at the start
    but for the messages whose post was refused. *)
Theorem inflight_drains w s :
  length (rpc_stat (glob w)) = RPC_STAT_NR -> star step (initial w) s ->
  exists s' evs, star step s s' /\ flight s' = ∅ /\ accepted s' = accepted s /\
    lost s' = lost s /\ ran evs w (sw s') /\
    (callback_key <$> callbacks evs) ≡ₚ accepted s /\
    forall a, a ∉ lost s -> heap (sw s') !! a = heap w !! a.
Proof using Hlast.
  intros Hlen Hs. pose proof (reachable_inv _ _ Hlen Hs) as I. clear Hs.
  remember (flight s) as fl eqn:Hfl. revert s Hfl I.
  induction fl as [|a k fl Ha IH] using map_ind; intros s Hfl I.
  - destruct (inv_calls _ _ I) as (evs & Hr & Hp). exists s, evs.
    rewrite <- Hfl, map_to_list_empty, app_nil_r in Hp.
    repeat split; try done; [apply star_refl|].
    intros b Hb. apply (inv_rest _ _ I); [by rewrite <- Hfl|done].
  - destruct (inv_can_answer w s a k (-1) Null I) as [[w' Hstep]|[? _]];
      [by rewrite <- Hfl, lookup_insert_eq|done| |done].
    rewrite <- Hfl, delete_insert_id in Hstep by done.
    destruct (IH (Sys w' fl (lost s) (accepted s)) eq_refl (step_inv _ _ _ Hlast I Hstep)) as (s' & evs & Hs & H).
    exists s', evs. split; [|exact H]. eapply star_trans; [by apply star_one|exact Hs].
Qed.

End InFlight.

(** ** Witnesses *)

(** Two messages sent, the second answered with a timeout. *)
Abbreviation world0 := (@world (fixed_env roomy)).
Definition sent (w : world0) : world0 := (rpc_send conn0 two_segments 2 (Some 11) ctx0 2 w).2.
Definition w1 : world0 := sent (start roomy).
Definition w2 : world0 := sent w1.
Definition w3 : world0 := (rpclite_replied (item_of 2) (mark 2 (-110) Null w2)).2.
Definition key0 : Z * ptr * ptr := (11, conn0, ctx0).
Definition s1 : sys := Sys w1 (<[1%positive := key0]> ∅) ∅ [key0].
Definition s2 : sys := Sys w2 (<[2%positive := key0]> (flight s1)) ∅ [key0; key0].
Definition s3 : sys := Sys w3 (delete 2%positive (flight s2)) ∅ [key0; key0].

Lemma roomy_put_is_last : put_is_last (E := fixed_env roomy).
Proof. by intros p b [s <-]. Qed.

Definition posted_at (n : nat) (w : world0) : m0_fop :=
  match posted (drop n (trace w)) with (_, f) :: _ => f | [] => new_fop m0_fop_rpclite_fopt end.

Lemma reach_s3 : star step (initial (start roomy)) s3.
Proof.
  assert (Hok : Forall seg_ok two_segments) by by repeat constructor.
  assert (step (initial (start roomy)) s1).
  { apply (step_accept (initial (start roomy)) conn0 two_segments 11 ctx0 2 w1 (trace w1) 1
             (posted_at 0 w1)); [done|done|..]; vm_compute; reflexivity. }
  assert (step s1 s2).
  { apply (step_accept s1 conn0 two_segments 11 ctx0 2 w2 (drop (length (trace w1)) (trace w2)) 2
             (posted_at (length (trace w1)) w2)); [done|done|..]; vm_compute; reflexivity. }
  assert (step s2 s3).
  { apply (step_reply s2 2 key0 (-110) Null w3); [reflexivity|done|vm_compute; reflexivity]. }
  eauto using star.
Qed.


Lemma inflight_memory_witness :
  exists m, heap w3 !! 1%positive = Some (OMessage m) /\ msg_reply_callback m = Some 11.
Proof.
  destruct (inflight_memory roomy_put_is_last (start roomy) s3 eq_refl reach_s3) as [H _].
  destruct (H 1%positive 11 conn0 ctx0 eq_refl) as (_ & m & Hm & Hcb & _).
  exists m. split; [exact Hm|exact Hcb].
Defined.

Lemma inflight_drains_witness :
  exists s' evs, star step s3 s' /\ flight s' = ∅ /\ accepted s' = [key0; key0] /\
    lost s' = ∅ /\ ran evs (start roomy) (sw s') /\
    (callback_key <$> callbacks evs) ≡ₚ [key0; key0] /\
    forall a, a ∉ (∅ : gset positive) -> heap (sw s') !! a = heap (start roomy) !! a.
Proof.
  exact (inflight_drains roomy_put_is_last (start roomy) s3 eq_refl reach_s3).
Defined.

End InFlight.
