(* ===== verification/Epoch.v ===== *)
(** Exchanging epochs, in rpclite.c: [rpc_send_epoch_blocking]. A session
    terminate fop for a session that does not exist carries the epoch of the
    client's HA domain to the peer; its reply may raise that epoch. *)

From S2P Require Import Prelude CTypes Machine Stats Resources RpcInit Connection Payload Send.
From Stdlib Require Import Sorting.Sorted.
Local Open Scope Z_scope.

Module Epoch.
Import RpcInit Connection Payload Send.
Section Epoch.
Context {E : Env}.

(** The return code and what is stored through [theirEpoch], if anything. *)
Definition rpc_send_epoch_blocking (c : ptr) (ourEpoch timeout_s : Z) : M (Z * option Z) :=
  max ← get_glob client_max_epoch;
  if ourEpoch <? max then mret (0, Some max) else
  mod_glob (set_max_epoch ourEpoch) ;;
  fop ← fop_alloc_at (rpc_get_session c) m0_rpc_fop_session_terminate_fopt;
  M0_ASSERT (bool_decide (fop <> Null)) ;;
  id ← do! (s_session_id (rpc_get_session c));
  upd_fop fop (set_data (FD_session_terminate id (u64 (-1)))) ;;
  do! (m0_ha_domain_get_write ha_dom) ;;
  do! (m0_ha_domain_put_write ha_dom ourEpoch) ;;
  rc ← rpc_send_fop_blocking_and_release c fop timeout_s;
  if rc =? 0 then
    theirs ← do! (m0_ha_domain_get_write ha_dom);
    do! (m0_ha_domain_put_write ha_dom theirs) ;;
    mret (rc, Some theirs)
  else mret (rc, None).

(** ** Which epoch travels with a post: the one last stored in the domain *)

Fixpoint sent_epochs (cur : option Z) (evs : list event) : list (option Z) :=
  match evs with
  | [] => []
  | e :: evs =>
      match domain_put_of e, posted_of e with
      | Some x, _ => sent_epochs (Some x) evs
      | None, Some _ => cur :: sent_epochs cur evs
      | None, None => sent_epochs cur evs
      end
  end.

Definition last_put (cur : option Z) (evs : list event) : option Z :=
  foldl (fun o x => Some x) cur (domain_puts evs).

Lemma sent_epochs_app cur e1 e2 :
  sent_epochs cur (e1 ++ e2) = sent_epochs cur e1 ++ sent_epochs (last_put cur e1) e2.
Proof.
  unfold last_put, domain_puts. revert cur. induction e1 as [|e e1 IH]; intros cur; [done|].
  simpl. destruct (domain_put_of e); simpl; [apply IH|].
  destruct (posted_of e); simpl; by rewrite IH.
Qed.

Lemma sent_epochs_quiet cur evs :
  domain_puts evs = [] -> sent_epochs cur evs = replicate (length (posted evs)) cur.
Proof.
  unfold domain_puts, posted. induction evs as [|e evs IH]; [done|]. simpl.
  destruct (domain_put_of e); [done|]. intros H. by destruct (posted_of e); simpl; rewrite IH.
Qed.

Lemma sent_epochs_unposted cur evs : posted evs = [] -> sent_epochs cur evs = [].
Proof.
  unfold posted. revert cur. induction evs as [|e evs IH]; [done|]. simpl. intros cur.
  destruct (posted_of e); [done|]. intros H. by destruct (domain_put_of e); apply IH.
Qed.

(** A post after one write to the domain. *)
Lemma exchange_events pre evs post our theirs x :
  domain_puts pre = [our] -> posted pre = [] ->
  domain_puts evs = [] -> posted evs = [x] ->
  domain_puts post = option_list theirs -> posted post = [] ->
  domain_puts (pre ++ evs ++ post) = our :: option_list theirs /\
  posted (pre ++ evs ++ post) = [x] /\
  forall cur, sent_epochs cur (pre ++ evs ++ post) = [Some our].
Proof.
  intros Hd1 Hp1 Hd2 Hp2 Hd3 Hp3. unfold domain_puts, posted in *. rewrite !omap_app.
  rewrite Hd1, Hd2, Hd3, Hp1, Hp2, Hp3. split; [done|]. split; [done|].
  intros cur. rewrite !sent_epochs_app, (sent_epochs_unposted _ pre), (sent_epochs_unposted _ post),
    (sent_epochs_quiet _ evs) by done. unfold last_put, domain_puts, posted.
  by rewrite Hd1, Hp2.
Qed.

(** ** One call *)

(** What a call that goes past the check does. *)
Definition exchange_post (c : ptr) (ourEpoch : Z) (w : world)
    (r : res (Z * option Z)) (w' : world) : Prop :=
  glob w' = set_max_epoch ourEpoch (glob w) /\ exists evs, ran evs w w' /\
  match r with
  | Ok (rc, theirs) => heap w' = heap w /\ callbacks evs = [] /\ neutral evs /\
      domain_puts evs = ourEpoch :: option_list theirs /\
      (forall cur, sent_epochs cur evs = [Some ourEpoch]) /\
      (rc = 0 <-> is_Some theirs) /\ released evs <> [] /\
      exists item f id, posted evs = [(item, f)] /\
        f_data f = Some (FD_session_terminate id (2 ^ 64 - 1))
  | Exited code => code = 1 /\ posted evs = []
  | Aborted => (forall cur, sent_epochs cur evs = [] \/ sent_epochs cur evs = [Some ourEpoch]) /\
      (answers (m0_fop_alloc_at (rpc_get_session c) m0_rpc_fop_session_terminate_fopt) false \/
       success_without_reply c)
  | Undefined => False
  end.

Ltac exchange := match goal with
  | Hd : domain_puts ?evs = [], Hp : posted ?evs = _
    |- domain_puts (?pre ++ ?evs ++ ?post) = ?our :: option_list ?t /\ _ =>
      destruct (exchange_events pre evs post our t _ eq_refl eq_refl Hd Hp eq_refl eq_refl)
        as (-> & Hpost & Hs)
  end.

Ltac calm_exchange :=
  split; [match goal with H : callbacks _ = [] |- _ => by rewrite !callbacks_app, H end|];
  split; [apply (neutral_app [_; _; _; _]), neutral_app; done|].

Lemma wp_epoch c our timeout w :
  wp (rpc_send_epoch_blocking c our timeout)
    (fun r w' => if our <? client_max_epoch (glob w)
                 then r = Ok (0, Some (client_max_epoch (glob w))) /\ w' = w
                 else exchange_post c our w r w') w.
Proof.
  unfold rpc_send_epoch_blocking. wp_step. wp_step. destruct (our <? _) eqn:Hlt; [by wp_step|].
  unfold fop_alloc_at. wp_step. wp_step. wp_step. wp_step. wp_step. wp_step.
  2:{ wp_step. change (bool_decide (Null <> Null)) with false. wp_step. wp_step.
      split; [done|]. eexists. split; [solve_ran|]. split; by left. }
  wp_step. wp_step. rewrite bool_decide_true by done. wp_step. wp_step. wp_step. wp_step.
  eapply wp_upd_fop; [wp_heap_fact|reflexivity|]. cbn. wp_step. wp_step. wp_step. wp_step.
  wp_step. eapply wp_send_fop_blocking; [wp_heap_fact|..]; cbn [glob set_heap log heap].
  - intros w' size max evs _ Hg Hr Hp _ _ _ _ _. split; [done|].
    eexists. split; [solve_ran|]. split; [done|]. exact Hp.
  - intros w' e rep evs Hg Hr (f' & dl & Hd & Ht & Hp & Hc & Hdom & _ & _ & Hans) He. split; [done|].
    eexists ([_; _; _; _] ++ evs). split; [solve_ran|]. split; right.
    + by rewrite sent_epochs_app, (sent_epochs_quiet _ evs), Hp.
    + by eexists _, _, _, e, rep.
  - intros w' rc e rep evs Hh Hg Hr (f' & dl & Hd & Ht & Hp & Hc & Hdom & Hneu & Hin & Hans) Hrel Hrc.
    assert (Hheap : heap w' = heap w).
    { rewrite Hh. by rewrite insert_insert_eq, delete_insert_eq, delete_id. }
    wp_step; reflect_Z.
    + subst rc. wp_step. wp_step. wp_step. wp_step. wp_step.
      split; [done|]. eexists ([_; _; _; _] ++ evs ++ [_; _]). split; [solve_ran|].
      split; [done|]. calm_exchange. exchange.
      split; [done|]. split; [exact Hs|]. split; [done|].
      split; [|eexists _, _, _; split; [exact Hpost|exact Hd]]. unfold released in *. by rewrite !omap_app, Hrel.
    + wp_step. split; [done|]. eexists ([_; _; _; _] ++ evs ++ []). rewrite app_nil_r at 1.
      split; [solve_ran|]. split; [done|]. calm_exchange. exchange.
      split; [done|]. split; [exact Hs|]. split; [split; [done|by intros []]|].
      split; [|eexists _, _, _; split; [exact Hpost|exact Hd]]. unfold released in *. by rewrite !omap_app, Hrel.
Qed.

(** Every outcome of [rpc_send_epoch_blocking]. An epoch below the largest
    one used so far is not sent: the call returns 0 with that largest epoch
    and touches nothing. Any other epoch becomes the largest one before
    anything can fail, is stored in the HA domain, and a single session
    terminate fop for session [UINT64_MAX] is posted while the domain holds
    that epoch. [theirEpoch] is written exactly when the result is 0, with the
    epoch then found in the domain, which is stored back; the heap is left as
    it was. *)
Theorem rpc_send_epoch_blocking_outcomes c our timeout w :
  wp (rpc_send_epoch_blocking c our timeout)
    (fun r w' => if our <? client_max_epoch (glob w)
                 then r = Ok (0, Some (client_max_epoch (glob w))) /\ w' = w
                 else exchange_post c our w r w') w.
Proof. apply wp_epoch. Qed.

(** ** Many calls *)

Fixpoint send_epochs (l : list (ptr * Z * Z)) : M (list (Z * option Z)) :=
  match l with
  | [] => mret []
  | (c, our, timeout) :: l =>
      r ← rpc_send_epoch_blocking c our timeout;
      rs ← send_epochs l;
      mret (r :: rs)
  end.

(** The epochs that are not below an earlier one, from [max] on. *)
Fixpoint records (max : Z) (es : list Z) : list Z :=
  match es with
  | [] => []
  | e :: es => if e <? max then records max es else e :: records e es
  end.

Lemma records_sorted max es :
  Sorted Z.le (records max es) /\ HdRel Z.le max (records max es).
Proof.
  revert max. induction es as [|e es IH]; intros max; simpl; [by split|].
  destruct (e <? max) eqn:He; reflect_Z; [apply IH|].
  split; constructor; try apply IH; lia.
Qed.

Abbreviation epochs l := ((fun x : ptr * Z * Z => x.1.2) <$> l).

Lemma wp_send_epochs l w :
  wp (send_epochs l) (fun r w' => exists evs, ran evs w w' /\
    forall cur, let rec := Some <$> records (client_max_epoch (glob w)) (epochs l) in
    match r with
    | Ok rs => length rs = length l /\ sent_epochs cur evs = rec /\
        client_max_epoch (glob w') = foldl Z.max (client_max_epoch (glob w)) (epochs l)
    | Undefined => False
    | _ => sent_epochs cur evs `prefix_of` rec
    end) w.
Proof.
  revert w. induction l as [|[[c our] timeout] l IH]; intros w; cbn [send_epochs fmap list_fmap].
  { wp_step. exists []. split; [apply ran_refl|]. done. }
  wp_step. eapply wp_mono; [apply wp_epoch|]. intros r w1 H1. cbn in H1 |- *.
  destruct (our <? client_max_epoch (glob w)) eqn:Hlt; reflect_Z.
  - destruct H1 as [-> ->]. wp_step. eapply wp_mono; [apply IH|].
    intros r w2 (evs & Hr & H). rewrite Z.max_l by lia. destruct r; try done; try by exists evs.
    wp_step. exists evs. split; [done|]. intros cur. destruct (H cur) as (Hl & Hs).
    split; [simpl; lia|exact Hs].
  - destruct H1 as [Hg1 (evs1 & Hr1 & H1)]. destruct r as [[rc theirs]| |code|]; [| | |done].
    + destruct H1 as (_ & _ & _ & Hd1 & Hs1 & _). wp_step. eapply wp_mono; [apply IH|].
      intros r w2 (evs & Hr & H). rewrite Hg1 in H. cbn in H.
      assert (Hs : forall cur, sent_epochs cur (evs1 ++ evs) = Some our :: sent_epochs (last_put cur evs1) evs).
      { intros cur. by rewrite sent_epochs_app, Hs1. }
      rewrite Z.max_r by lia. pose proof (ran_trans _ _ _ _ _ Hr1 Hr) as Hr2.
      destruct r; [wp_step| | |]; exists (evs1 ++ evs); (split; [exact Hr2|]); intros cur;
        rewrite ?Hs; specialize (H (last_put cur evs1)); cbn in H |- *; try done;
        try by apply prefix_cons.
      destruct H as (Hl & -> & Hm). split; [lia|done].
    + exists evs1. split; [done|]. intros cur. cbn. destruct H1 as [H1 _]. destruct (H1 cur) as [->| ->];
        [apply prefix_nil|apply prefix_cons, prefix_nil].
    + exists evs1. split; [done|]. intros cur. destruct H1 as [_ H1].
      rewrite sent_epochs_unposted by done. apply prefix_nil.
Qed.

(** A sequence of calls transmits exactly the epochs that are not below an
    earlier one, in order, so the transmitted epochs never decrease, and
    [client_max_epoch] ends as the maximum; if the process stops on the way
    (an assertion or a message that is too big), what was transmitted is a
    prefix of that sequence. *)
Theorem epochs_never_decrease l w :
  let recs := records (client_max_epoch (glob w)) (epochs l) in
  Sorted Z.le recs /\
  wp (send_epochs l) (fun r w' => exists evs, ran evs w w' /\
    match r with
    | Ok rs => length rs = length l /\ sent_epochs None evs = Some <$> recs /\
        client_max_epoch (glob w') = foldl Z.max (client_max_epoch (glob w)) (epochs l)
    | Undefined => False
    | _ => sent_epochs None evs `prefix_of` (Some <$> recs)
    end) w.
Proof.
  intros recs. split; [apply records_sorted|]. eapply wp_mono; [apply wp_send_epochs|].
  intros r w' (evs & Hr & H). exists evs. split; [done|]. specialize (H None). by destruct r.
Qed.

End Epoch.
(** ** Calls from several threads

    [client_max_epoch] is read and written without a lock. A thread in
    [rpc_send_epoch_blocking] reads it for the comparison, then either reads it
    again for [theirEpoch] or stores its own epoch; the write to the HA domain
    (which Mero protects) and the exchange follow. *)

Inductive epc :=
| ECheck (our : Z)       (* if (client_max_epoch > ourEpoch) *)
| ERead                  (* *theirEpoch = client_max_epoch *)
| EStore (our : Z)       (* client_max_epoch = ourEpoch *)
| EPut (our : Z)         (* m0_ha_domain_put_write (.., ourEpoch) *)
| EDone (theirs : option Z).

Record estate := EState { emax : Z; eputs : list Z; epcs : list epc }.

Inductive estep : estate -> estate -> Prop :=
| estep_check t our s : epcs s !! t = Some (ECheck our) ->
    estep s (EState (emax s) (eputs s)
               (<[t := if our <? emax s then ERead else EStore our]> (epcs s)))
| estep_read t s : epcs s !! t = Some ERead ->
    estep s (EState (emax s) (eputs s) (<[t := EDone (Some (emax s))]> (epcs s)))
| estep_store t our s : epcs s !! t = Some (EStore our) ->
    estep s (EState our (eputs s) (<[t := EPut our]> (epcs s)))
| estep_put t our s : epcs s !! t = Some (EPut our) ->
    estep s (EState (emax s) (eputs s ++ [our]) (<[t := EDone None]> (epcs s))).

(** The epoch a thread may still store is not below [m]. *)
Definition epc_above (m : Z) (p : epc) : Prop :=
  match p with
  | EStore our | EPut our => m <= our
  | EDone (Some x) => m <= x
  | _ => True
  end.

Definition einv (m : Z) (s : estate) : Prop :=
  m <= emax s /\ Forall (Z.le m) (eputs s) /\ Forall (epc_above m) (epcs s).

Lemma einv_step m s s' : einv m s -> estep s s' -> einv m s'.
Proof.
  intros (Hm & Hp & Hpcs) Hs. destruct Hs as [t our s Ht|t s Ht|t our s Ht|t our s Ht];
    pose proof (Forall_lookup_1 _ _ _ _ Hpcs Ht) as Hpc; simpl in Hpc;
    (split; [simpl; lia|]); (split; [|apply Forall_insert; [done|]]); try done.
  - destruct (our <? emax s) eqn:He; reflect_Z; simpl; [done|lia].
  - simpl. apply Forall_app. split; [done|]. by constructor.
Qed.

(** Under any interleaving of any number of threads, [client_max_epoch]
    never falls below its value at the start, no epoch below that value is
    stored in the HA domain, and no call reports a smaller one: an epoch that
    was superseded before the threads started stays superseded. *)
Theorem epoch_never_below_start m ours s :
  star estep (EState m [] (ECheck <$> ours)) s ->
  m <= emax s /\ Forall (Z.le m) (eputs s) /\
  forall x, EDone (Some x) ∈ epcs s -> m <= x.
Proof.
  intros Hs. assert (einv m s) as (Hm & Hp & Hpcs).
  { eapply (star_invariant estep (einv m)); [done| |by intros; eapply einv_step].
    split; [simpl; lia|]. split; [done|]. apply Forall_fmap, Forall_true. done. }
  split; [done|]. split; [done|]. intros x Hx. by apply (proj1 (list.Forall_forall _ _) Hpcs) in Hx.
Qed.

Lemma epoch_never_below_start_witness :
  let s := EState 5 [5] [EDone None; ECheck 3] in
  star estep (EState 3 [] [ECheck 5; ECheck 3]) s /\ 3 <= emax s.
Proof.
  assert (star estep (EState 3 [] (ECheck <$> [5; 3])) (EState 5 [5] [EDone None; ECheck 3])).
  { eapply star_snoc; [eapply star_snoc; [apply star_one|]|].
    - by apply (estep_check 0 5).
    - by apply (estep_store 0 5).
    - by apply (estep_put 0 5). }
  split; [exact H|]. destruct (epoch_never_below_start 3 [5; 3] _ H) as [Hm _]. exact Hm.
Defined.

(** Between two concurrent calls the order is lost: for epochs [e1 < e2]
    there is a schedule in which [e2] is stored and put in the HA domain and
    then [e1] overwrites both, so that afterwards [client_max_epoch] is below
    an epoch already in use and smaller epochs are transmitted again. Run one
    after the other, in either order, the same calls leave the larger. *)
Theorem epoch_race m e1 e2 :
  m <= e1 -> e1 < e2 ->
  (exists s, star estep (EState m [] [ECheck e1; ECheck e2]) s /\
     emax s = e1 /\ eputs s = [e2; e1] /\ epcs s = [EDone None; EDone None]) /\
  (forall E (w : @world E) c t l, l = [(c, e1, t); (c, e2, t)] \/ l = [(c, e2, t); (c, e1, t)] ->
     client_max_epoch (glob w) = m ->
     wp (send_epochs l) (fun r w' => forall rs, r = Ok rs -> client_max_epoch (glob w') = e2) w).
Proof.
  intros Hm He. split.
  - exists (EState e1 [e2; e1] [EDone None; EDone None]). split; [|done].
    assert (H1 : (e1 <? m) = false) by lia. assert (H2 : (e2 <? m) = false) by lia.
    eapply star_snoc; [eapply star_snoc; [eapply star_snoc; [eapply star_snoc;
      [eapply star_snoc; [apply star_one|]|]|]|]|].
    + by apply (estep_check 0 e1).
    + by apply (estep_check 1 e2).
    + simpl. rewrite H1, H2. by apply (estep_store 1 e2).
    + by apply (estep_put 1 e2).
    + by apply (estep_store 0 e1).
    + by apply (estep_put 0 e1).
  - intros E w c t l Hl Hw. eapply wp_mono; [apply wp_send_epochs|].
    intros r w' (evs & _ & H) rs ->. destruct (H None) as (_ & _ & ->).
    rewrite Hw. destruct Hl as [->| ->]; simpl; lia.
Qed.

Lemma epoch_race_witness :
  exists s, star estep (EState 0 [] [ECheck 15; ECheck 16]) s /\
     emax s = 15 /\ eputs s = [16; 15] /\ epcs s = [EDone None; EDone None].
Proof. apply (epoch_race 0 15 16); lia. Defined.

End Epoch.
