(* ===== verification/Fom.v ===== *)
(** The receiving side, rpclite_fom.c: the state machine that runs for every
    request ([rpclite_fop_fom_create], [m0_fom_rpclite_state],
    [m0_fop_rpclite_fom_fini] and the tables through which Mero calls them) and
    the clink handlers. *)

From S2P Require Import Prelude CTypes Machine Resources Endpoint Payload Send.
Local Open Scope Z_scope.

Module Fom.
Import Payload Send.

Definition m0_fom_rpclite_ops : m0_fom_ops :=
  {| fo_fini := Fn_m0_fop_rpclite_fom_fini;
     fo_tick := Fn_m0_fom_rpclite_state;
     fo_home_locality := Fn_m0_fom_rpclite_home_locality |}.

Section Fom.
Context {E : Env}.

Definition m0_fom_rpclite_home_locality (fom : ptr) : M Z :=
  M0_ASSERT (bool_decide (fom <> Null)) ;;
  f ← load_fom fom;
  do! (m0_fop_opcode (fo_fop f)).

(** [m0_fop_reply_alloc (req, t)] *)
Definition fop_reply_alloc (req : ptr) (t : fop_type) : M ptr :=
  ok ← do! (m0_fop_reply_alloc req t);
  if (ok : bool) then new (OFop (new_fop t)) else mret Null.

(** [!receive_callback || !receive_callback (&(struct rpc_item){fop}, NULL)];
    the item is known by its only member. *)
Definition wants_reply (fom : ptr) : M bool :=
  cbs ← get_glob rpclite_listen_cbs;
  match receive_callback cbs with
  | None => mret true
  | Some k =>
      f ← load_fom fom;
      rc ← do! (cb_receive k (fo_fop f) Null);
      mret (rc =? 0)
  end.

(** The body of the [if]. *)
Definition post_reply (fom : ptr) : M unit :=
  f ← load_fom fom;
  fop ← fop_reply_alloc (fo_fop f) m0_fop_rpclite_rep_fopt;
  M0_ASSERT (bool_decide (fop <> Null)) ;;
  upd_fop fop (set_data (FD_rpclite_rep 1)) ;;
  r ← load_fop fop;
  do! (m0_rpc_reply_post (fo_fop f ~> F_f_item) (fop ~> F_f_item) r).

Definition m0_fom_rpclite_state (fom : ptr) : M Z :=
  reply ← wants_reply fom;
  (if (reply : bool) then post_reply fom else mret tt) ;;
  do! (m0_fom_phase_set fom (const M0_FOPH_FINISH)) ;;
  mret (const M0_FSO_WAIT).

(** The return code and what is stored through [m], if anything. *)
Definition rpclite_fop_fom_create (fop m reqh : ptr) : M (Z * option ptr) :=
  M0_ASSERT (bool_decide (fop <> Null)) ;;
  M0_ASSERT (bool_decide (m <> Null)) ;;
  fom ← malloc A_fom (OFom {| fo_fop := Null; fo_ops := None |});
  if bool_decide (fom = Null) then mret (- ENOMEM, None) else
  do! (m0_fom_init fom fop reqh) ;;
  store fom (OFom {| fo_fop := fop; fo_ops := Some m0_fom_rpclite_ops |}) ;;
  mret (0, Some fom).

Definition m0_fop_rpclite_fom_fini (fom : ptr) : M unit :=
  do! (m0_fom_fini fom) ;;
  free fom.

(** ** The clink handlers (compiled, but not installed by this version) *)

Definition disconnected_ast (grp ast : ptr) : M unit :=
  o ← load ast;
  match o with
  | OAst link =>
      do! (m0_clink_del link) ;;
      do! (m0_clink_fini link) ;;
      free link ;;
      free ast
  | _ => undefined
  end.

(** [sm_state] only chooses whether a diagnostic is printed. *)
Definition disconnected_cb (link : ptr) : M bool :=
  o ← load link;
  match o with
  | OClink cl_chan =>
      sm ← expect (container_of cl_chan [F_sm_chan]);
      do! (sm_state sm) ;;
      mret true
  | _ => undefined
  end.

(** * The life of a request

    Mero's documented protocol for a request fop: [fto_create] of its type
    makes a fom, [fo_tick] runs until the phase is [M0_FOPH_FINISH], then
    [fo_fini] is called. Every call goes through the fom's table. *)

Definition call_fini (fn : fom_fn) (fom : ptr) : M unit :=
  match fn with Fn_m0_fop_rpclite_fom_fini => m0_fop_rpclite_fom_fini fom | _ => undefined end.
Definition call_tick (fn : fom_fn) (fom : ptr) : M Z :=
  match fn with Fn_m0_fom_rpclite_state => m0_fom_rpclite_state fom | _ => undefined end.
Definition call_create (t : fom_type_ops) : ptr -> ptr -> ptr -> M (Z * option ptr) :=
  match t with m0_fom_rpclite_type_ops => rpclite_fop_fom_create end.

Definition serve (fop m reqh : ptr) : M Z :=
  r ← call_create m0_fom_rpclite_type_ops fop m reqh;
  match r with
  | (rc, Some fom) =>
      f ← load_fom fom;
      ops ← expect (fo_ops f);
      call_tick (fo_tick ops) fom ;;
      call_fini (fo_fini ops) fom ;;
      mret rc
  | (rc, None) => mret rc
  end.

(** ** What a run delivers and answers *)

Definition reception_of (e : event) : option (Z * ptr * Z) :=
  match ev_call e as c return ans c -> _ with
  | cb_receive k fop _ => fun rc : Z => Some (k, fop, rc)
  | _ => fun _ => None
  end (ev_ans e).
Definition receptions (evs : list event) : list (Z * ptr * Z) := omap reception_of evs.

Definition reply_of (e : event) : option (ptr * fop_data) :=
  match ev_call e with
  | m0_rpc_reply_post req _ f => pair req <$> f_data f
  | _ => None
  end.
Definition replies (evs : list event) : list (ptr * fop_data) := omap reply_of evs.

Definition phase_of (e : event) : option (ptr * Z) :=
  match ev_call e with m0_fom_phase_set fom p => Some (fom, p) | _ => None end.
Definition phases (evs : list event) : list (ptr * Z) := omap phase_of evs.

(** The request reaches the registered callback, if there is one. *)
Definition delivered (cb : fnptr) (fop : ptr) (rc : Z) : list (Z * ptr * Z) :=
  match cb with Some k => [(k, fop, rc)] | None => [] end.
(** It is answered unless a callback refused it. *)
Definition answered (cb : fnptr) (rc : Z) : bool :=
  match cb with Some _ => rc =? 0 | None => true end.
Definition answer_to (fop : ptr) : ptr * fop_data := (fop ~> F_f_item, FD_rpclite_rep 1).

Definition served (fop : ptr) (w : world) (evs : list event) (w' : world) : Prop :=
  let cb := receive_callback (rpclite_listen_cbs (glob w)) in
  exists fom rc, receptions evs = delivered cb fop rc /\
    replies evs = (if answered cb rc then [answer_to fop] else []) /\
    phases evs = [(fom, const M0_FOPH_FINISH)] /\
    if answered cb rc
    then exists a rep, heap w !! a = None /\ heap w' = <[a := OFop rep]> (heap w)
    else heap w' = heap w.

Definition serve_post (fop : ptr) (R : list resource) (w : world)
    (r : res Z) (w' : world) : Prop :=
  glob w' = glob w /\ exists evs, ran evs w w' /\
  match r with
  | Ok rc =>
      (rc = 0 /\ served fop w evs w' /\ held R evs = Some R) \/
      (rc = - ENOMEM /\ evs = [Ev (alloc A_fom) false] /\ heap w' = heap w)
  | Aborted => replies evs = [] /\ phases evs = [] /\
      Ev (m0_fop_reply_alloc fop m0_fop_rpclite_rep_fopt) false ∈ evs
  | _ => False
  end.

(** ** Rules *)

Lemma wp_wants_reply a f w Q :
  let cb := receive_callback (rpclite_listen_cbs (glob w)) in
  heap w !! a = Some (OFom f) ->
  (forall w' rc evs, heap w' = heap w -> glob w' = glob w -> ran evs w w' ->
     receptions evs = delivered cb (fo_fop f) rc -> replies evs = [] -> phases evs = [] ->
     (forall R, held R evs = Some R) -> Q (Ok (answered cb rc)) w') ->
  wp (wants_reply (addr a)) Q w.
Proof.
  intros cb Ha HO. unfold wants_reply, load_fom. wp_step. wp_step. fold cb.
  destruct cb as [k|].
  - wp_go. eapply HO; [done|done|solve_ran|done..].
  - wp_step. by apply (HO _ 0 []); [..|apply ran_refl| | | |].
Qed.

Lemma wp_post_reply a f w Q :
  heap w !! a = Some (OFom f) ->
  (forall s, Q Aborted (log (m0_fop_reply_alloc (fo_fop f) m0_fop_rpclite_rep_fopt) false s w)) ->
  (forall w' b rep, heap w !! b = None -> heap w' = <[b := OFop rep]> (heap w) ->
     glob w' = glob w -> f_data rep = Some (FD_rpclite_rep 1) ->
     ran [Ev (m0_fop_reply_alloc (fo_fop f) m0_fop_rpclite_rep_fopt) true;
          Ev (m0_rpc_reply_post (fo_fop f ~> F_f_item) (addr b ~> F_f_item) rep) tt] w w' ->
     Q (Ok tt) w') ->
  wp (post_reply (addr a)) Q w.
Proof.
  intros Ha HA HO. unfold post_reply, load_fom, fop_reply_alloc.
  wp_step. wp_step. wp_step. wp_step. wp_step. wp_step. wp_step. wp_step.
  2:{ wp_step. change (bool_decide (Null <> Null)) with false. wp_step. wp_step. apply HA. }
  wp_step. wp_step. rewrite bool_decide_true by done. wp_step. wp_step.
  eapply wp_upd_fop; [wp_heap_fact|reflexivity|]. cbn. wp_step.
  eapply wp_load_fop; [wp_heap_fact|reflexivity|]. cbn. wp_step.
  eapply HO; [done| |done| |solve_ran]; [cbn [heap set_heap log]; by rewrite insert_insert_eq|done].
Qed.

Lemma wp_state a f w Q :
  let cb := receive_callback (rpclite_listen_cbs (glob w)) in
  heap w !! a = Some (OFom f) ->
  (forall w' evs, glob w' = glob w -> ran evs w w' -> replies evs = [] -> phases evs = [] ->
     Ev (m0_fop_reply_alloc (fo_fop f) m0_fop_rpclite_rep_fopt) false ∈ evs -> Q Aborted w') ->
  (forall w' rc evs, glob w' = glob w -> ran evs w w' ->
     receptions evs = delivered cb (fo_fop f) rc ->
     replies evs = (if answered cb rc then [answer_to (fo_fop f)] else []) ->
     phases evs = [(addr a, const M0_FOPH_FINISH)] -> (forall R, held R evs = Some R) ->
     (if answered cb rc
      then exists b rep, heap w !! b = None /\ heap w' = <[b := OFop rep]> (heap w)
      else heap w' = heap w) -> Q (Ok (const M0_FSO_WAIT)) w') ->
  wp (m0_fom_rpclite_state (addr a)) Q w.
Proof.
  intros cb Ha HA HO. unfold m0_fom_rpclite_state. wp_step. eapply wp_wants_reply; [done|].
  intros w1 rc evs Hh1 Hg1 Hr1 Hrec Hrep Hph Hheld. fold cb in Hrec. cbn.
  unfold receptions, replies, phases in *. fold cb. specialize (HO) with (rc := rc). wp_step.
  destruct (answered cb rc).
  - eapply wp_post_reply; [by rewrite Hh1| |].
    + intros s. eapply (HA _ (evs ++ [_])); [done|solve_ran|..];
        rewrite ?omap_app, ?Hrep, ?Hph; [done..|].
      apply elem_of_app. right. by apply list_elem_of_singleton.
    + intros w2 b rep Hb Hh2 Hg2 Hd Hr2. wp_go.
      eapply (HO _ (evs ++ [_; _; _])); [by cbn; rewrite Hg2|solve_ran|..];
        rewrite ?omap_app, ?Hrec, ?Hrep, ?Hph; cbn.
      * by rewrite app_nil_r.
      * unfold reply_of. cbn. by rewrite Hd.
      * done.
      * intros R. by rewrite held_app, Hheld.
      * exists b, rep. by rewrite <- Hh1.
  - wp_go. eapply (HO _ (evs ++ [_])); [done|solve_ran|..];
      rewrite ?omap_app, ?Hrec, ?Hrep, ?Hph; cbn; [by rewrite app_nil_r|done|done| |done].
    intros R. by rewrite held_app, Hheld.
Qed.

Lemma wp_serve fop m reqh R w :
  fop <> Null -> m <> Null -> wp (serve fop m reqh) (serve_post fop R w) w.
Proof.
  intros Hfop Hm. unfold serve, call_create, rpclite_fop_fom_create.
  rewrite !bool_decide_true by done. wp_step. wp_step. wp_step. wp_step. wp_step. wp_step. wp_step.
  - rewrite bool_decide_true by done. wp_step. wp_step.
    split; [done|]. eexists. split; [solve_ran|]. by right.
  - rewrite bool_decide_false by done. unfold load_fom. wp_go.
    eapply wp_state; [wp_heap_fact|..]; cbn [fo_fop glob set_heap log heap].
    + intros w' evs Hg Hr Hrep Hph Hin. split; [done|].
      eexists ([_; _] ++ evs). split; [solve_ran|]. split; [done|]. split; [done|].
      apply elem_of_app. by right.
    + intros w' rc evs Hg Hr Hrec Hrep Hph Hheld Hh. unfold m0_fop_rpclite_fom_fini.
      assert (heap w' !! a <> None /\
        if answered (receive_callback (rpclite_listen_cbs (glob w))) rc
        then exists b rep, heap w !! b = None /\ delete a (heap w') = <[b := OFop rep]> (heap w)
        else delete a (heap w') = heap w) as [Ha Hh'].
      { destruct (answered _ _).
        - destruct Hh as (b & rep & Hb & ->). fresh_facts. split.
          + by rewrite lookup_insert_ne, lookup_insert_eq by congruence.
          + exists b, rep. split; [done|].
            by rewrite delete_insert_ne, insert_insert_eq, delete_insert_eq, delete_id by congruence.
        - rewrite Hh, insert_insert_eq, lookup_insert_eq. split; [done|].
          by rewrite delete_insert_eq, delete_id. }
      destruct (heap w' !! a) as [o|] eqn:Ho; [|done]. wp_go.
      split; [done|]. eexists ([_; _] ++ evs ++ [_]). split; [solve_ran|]. left. split; [done|].
      split.
      * exists (addr a), rc. unfold receptions, replies, phases in *.
        rewrite !omap_app, Hrec, Hrep, Hph. cbn. rewrite !app_nil_r. done.
      * rewrite !held_app. change (held R [_; _]) with (Some (RFom (addr a) :: R)).
        cbn -[held]. rewrite held_app, Hheld. cbn -[held]. rewrite held_cons.
        unfold account. cbn -[hand_back]. by rewrite hand_back_head.
Qed.

(** C35. The life of a request. The registered receive callback is called
    exactly once with the request (not at all when none is registered); a
    single reply with [f_seq = 1] is posted to that request exactly when there
    is no callback or it returned 0; the phase is set to [M0_FOPH_FINISH]
    once; afterwards the fom is finalised and freed, and the only new object
    is the reply handed to Mero. Without memory for the fom the request is
    refused with [-ENOMEM] and nothing happens; without memory for the reply
    the process stops on an assertion before anything is posted. *)
Theorem request_served_once fop m reqh R w :
  fop <> Null -> m <> Null -> wp (serve fop m reqh) (serve_post fop R w) w.
Proof. apply wp_serve. Qed.

(** ** Many requests *)

Fixpoint serve_all (fops : list ptr) (m reqh : ptr) : M (list Z) :=
  match fops with
  | [] => mret []
  | fop :: fops =>
      rc ← serve fop m reqh;
      rcs ← serve_all fops m reqh;
      mret (rc :: rcs)
  end.

(** The requests that got a fom. *)
Definition started (fops : list ptr) (rcs : list Z) : list ptr :=
  fst <$> filter (fun x => x.2 = 0) (zip fops rcs).

(** Over any sequence of requests with a registered callback, the
    callback sees exactly the requests that got a fom, each once and in order
    of arrival, and the replies go to exactly those it accepted. Only a reply
    that cannot be allocated stops the process. *)
Theorem requests_delivered_in_order k fops m reqh w :
  Forall (fun p => p <> Null) fops -> m <> Null ->
  receive_callback (rpclite_listen_cbs (glob w)) = Some k ->
  wp (serve_all fops m reqh) (fun r w' => exists evs, ran evs w w' /\
    match r with
    | Ok rcs => length rcs = length fops /\
        (receptions evs).*1 = pair k <$> started fops rcs /\
        replies evs = answer_to <$> ((fun x => x.1.2) <$> filter (fun x => x.2 = 0) (receptions evs))
    | Aborted => exists req, Ev (m0_fop_reply_alloc req m0_fop_rpclite_rep_fopt) false ∈ evs
    | _ => False
    end) w.
Proof.
  intros Hfops Hm. revert w. induction Hfops as [|fop fops Hfop _ IH]; intros w Hcb; cbn [serve_all].
  { wp_step. exists []. split; [apply ran_refl|done]. }
  wp_step. eapply wp_mono; [by apply (wp_serve fop m reqh [])|].
  intros r w1 [Hg1 (evs1 & Hr1 & H1)]. destruct r as [rc| | |]; [| |done..].
  2:{ exists evs1. split; [done|]. exists fop. apply H1. }
  wp_step. eapply wp_mono; [apply IH; by rewrite Hg1|].
  intros r w2 (evs2 & Hr2 & H2). pose proof (ran_trans _ _ _ _ _ Hr1 Hr2) as Hr.
  destruct r as [rcs| | |]; [| |done..].
  2:{ exists (evs1 ++ evs2). split; [done|]. destruct H2 as [req H2]. exists req.
      apply elem_of_app. by right. }
  wp_step. exists (evs1 ++ evs2). split; [done|]. destruct H2 as (Hlen & Hrec & Hrep).
  split; [simpl; lia|]. unfold receptions, replies in *. rewrite !omap_app, fmap_app, Hrec, Hrep.
  destruct H1 as [(-> & (fom & rc' & Hrec1 & Hrep1 & _) & _)|(-> & -> & _)].
  - unfold receptions, replies in *. rewrite Hrec1, Hrep1, Hcb. simpl. split; [done|].
    rewrite filter_cons. simpl. by destruct (decide (rc' = 0)) as [->|];
      [|rewrite (proj2 (Z.eqb_neq rc' 0))].
  - done.
Qed.

(** The handler of the asynchronous call frees the link and the call itself,
    and nothing else. *)
Lemma disconnected_ast_frees grp a l ch w :
  a <> l -> heap w !! a = Some (OAst (addr l)) -> heap w !! l = Some (OClink ch) ->
  wp (disconnected_ast grp (addr a)) (fun r w' => r = Ok tt /\
    heap w' = delete a (delete l (heap w)) /\
    ran [Ev (m0_clink_del (addr l)) tt; Ev (m0_clink_fini (addr l)) tt] w w') w.
Proof.
  intros Hne Ha Hl. unfold disconnected_ast. wp_go. split; [done|]. split; [done|]. solve_ran.
Qed.

End Fom.

(** ** Witnesses *)

Definition req (z : Z) : ptr := Ptr (Foreign z) [].

(** The callback refuses the request 8. *)
Definition picky (c : call) : ans c :=
  match c return ans c with
  | cb_receive _ fop _ => if decide (fop = req 8) then 1 else 0
  | c => succeed c
  end.
Definition listening : @world (fixed_env picky) :=
  set_glob (Endpoint.set_listen_cbs {| connection_callback := None; disconnected_callback := None;
                                       receive_callback := Some 21 |}) (start picky).

Lemma request_served_once_witness :
  wp (serve (req 7) (req 1) (req 2)) (serve_post (req 7) [] listening) listening /\
  (serve (req 7) (req 1) (req 2) listening).1 = Ok 0.
Proof.
  split; [|vm_compute; reflexivity].
  by apply (request_served_once (req 7) (req 1) (req 2) [] listening).
Defined.

Lemma requests_delivered_in_order_witness :
  wp (serve_all [req 7; req 8; req 9] (req 1) (req 2)) (fun r w' => exists evs, ran evs listening w' /\
    match r with
    | Ok rcs => length rcs = 3%nat /\
        (receptions evs).*1 = pair 21 <$> started [req 7; req 8; req 9] rcs /\
        replies evs = answer_to <$> ((fun x => x.1.2) <$> filter (fun x => x.2 = 0) (receptions evs))
    | Aborted => exists req, Ev (m0_fop_reply_alloc req m0_fop_rpclite_rep_fopt) false ∈ evs
    | _ => False
    end) listening /\
  let w' := (serve_all [req 7; req 8; req 9] (req 1) (req 2) listening).2 in
  receptions (trace w') = [(21, req 7, 0); (21, req 8, 1); (21, req 9, 0)] /\
  replies (trace w') = [answer_to (req 7); answer_to (req 9)].
Proof.
  split; [|split; vm_compute; reflexivity].
  apply (requests_delivered_in_order 21 [req 7; req 8; req 9] (req 1) (req 2) listening);
    [by repeat constructor|done|done].
Defined.

End Fom.
