(* ===== verification/M0Init.v ===== *)
(** Process-wide start-up of Mero, m0init.c, and the life cycle of the HA
    interface it creates. *)

From S2P Require Import Prelude CTypes Machine.
Local Open Scope Z_scope.

Module M0Init.
Section M0Init.
Context {E : Env}.

Definition set_hi (hi : ptr) (g : globals) : globals :=
  {| client_max_epoch := client_max_epoch g; rpc_stat := rpc_stat g;
     rpclite_listen_cbs := rpclite_listen_cbs g; ha_state_cbs := ha_state_cbs g;
     m0init_hi := hi |}.

Definition m0_init_wrapper : M Z :=
  hi ← get_glob m0init_hi;
  M0_ASSERT (bool_decide (hi = Null)) ;;
  opts ← do! (getenv "HALON_INTERFACE_DEBUG_OPTIONS");
  a ← do! (m0_halon_interface_init (Ptr (Static m0init_hi_var) []) opts);
  mod_glob (set_hi a.2) ;;
  mret a.1.

Definition m0_fini_wrapper : M unit :=
  hi ← get_glob m0init_hi;
  do! (m0_halon_interface_fini hi) ;;
  mod_glob (set_hi Null).

End M0Init.
End M0Init.
