(* ===== verification/HaState.v ===== *)
(** The HA state interface, hastate.c: registration of the caller's callbacks,
    the nine functions Mero calls, and the messages sent to Mero. *)

From S2P Require Import Prelude CTypes Machine M0Init.
Local Open Scope Z_scope.

Module HaState.
Import M0Init.

(** [ha_state_cbs = *cbs] *)
Definition set_cbs (cbs : ha_state_callbacks) (g : globals) : globals :=
  {| client_max_epoch := client_max_epoch g; rpc_stat := rpc_stat g;
     rpclite_listen_cbs := rpclite_listen_cbs g; ha_state_cbs := cbs;
     m0init_hi := m0init_hi g |}.

Section HaState.
Context {E : Env}.

(** A call through a member of [ha_state_cbs]. *)
Definition user (member : ha_state_callbacks -> fnptr) (u : ha_user_call) : M unit :=
  cbs ← get_glob ha_state_cbs;
  call_fn (member cbs) (fun f => do! (cb_ha f u)).

Definition entrypoint_request_cb (hi req_id : ptr) (remote_rpc_endpoint : string)
    (process_fid : ptr) (git_rev_id : string) (pid : Z) (first_request : bool) : M unit :=
  user ha_state_entrypoint (U_entrypoint req_id process_fid).
Definition msg_received_cb (hi hl msg : ptr) (tag : Z) : M unit :=
  user ha_message_callback (U_message hl msg).
Definition msg_is_delivered_cb (hi hl : ptr) (tag : Z) : M unit :=
  user ha_state_is_delivered (U_is_delivered hl tag).
Definition msg_is_not_delivered_cb (hi hl : ptr) (tag : Z) : M unit :=
  user ha_state_is_cancelled (U_is_cancelled hl tag).
Definition link_connected_cb (hi req_id link : ptr) : M unit :=
  user ha_state_link_connected (U_link_connected req_id link).
Definition link_reused_cb (hi req_id link : ptr) : M unit :=
  user ha_state_link_reused (U_link_reused req_id link).
Definition link_absent_cb (hi req_id : ptr) : M unit :=
  user ha_state_link_absent (U_link_absent req_id).
Definition link_is_disconnecting_cb (hi link : ptr) : M unit :=
  user ha_state_link_disconnecting (U_link_disconnecting link).
Definition link_disconnected_cb (hi link : ptr) : M unit :=
  user ha_state_link_disconnected (U_link_disconnected link).

(** The functions handed to [m0_halon_interface_start], in its order. *)
Definition callback_table : list halon_cb :=
  [entrypoint_request_cb_fn; msg_received_cb_fn; msg_is_delivered_cb_fn;
   msg_is_not_delivered_cb_fn; link_connected_cb_fn; link_reused_cb_fn;
   link_absent_cb_fn; link_is_disconnecting_cb_fn; link_disconnected_cb_fn].

Definition ha_state_init (local_rpc_endpoint : string)
    (process_fid ha_service_fid rm_service_fid : m0_fid) (cbs : ha_state_callbacks) : M Z :=
  mod_glob (set_cbs cbs) ;;
  hi ← get_glob m0init_hi;
  do! (m0_halon_interface_start hi local_rpc_endpoint process_fid ha_service_fid rm_service_fid
         callback_table).

Definition ha_state_fini : M unit :=
  hi ← get_glob m0init_hi;
  do! (m0_halon_interface_stop hi).

(** [m0_halon_interface_send]: the tag is its out parameter. *)
Definition send (hl : ptr) (msg : m0_ha_msg) : M Z :=
  hi ← get_glob m0init_hi;
  do! (m0_halon_interface_send hi hl msg).

Definition ha_state_notify (hl : ptr) (note : m0_ha_msg_nvec)
    (src_process_fid src_service_fid : m0_fid) (epoch : Z) : M Z :=
  now ← do! m0_time_now;
  send hl {| hm_fid := M0_FID_INIT 0 0; hm_source_process := src_process_fid;
             hm_source_service := src_service_fid; hm_time := now; hm_epoch := epoch;
             hm_data := M0_HA_MSG_NVEC note |}.

(** The dummy epoch is ['f']. *)
Definition ha_state_failure_vec_reply (hl : ptr) (fvec : m0_ha_msg_failure_vec_rep)
    (src_process_fid src_service_fid : m0_fid) : M Z :=
  now ← do! m0_time_now;
  send hl {| hm_fid := mfp_pool fvec; hm_source_process := src_process_fid;
             hm_source_service := src_service_fid; hm_time := now; hm_epoch := 102;
             hm_data := M0_HA_MSG_FAILURE_VEC_REP fvec |}.

(** The dummy epoch is ['p']. *)
Definition ha_state_ping_process (hl : ptr) (req_id : m0_uint128)
    (process_fid src_process_fid src_service_fid : m0_fid) : M Z :=
  now ← do! m0_time_now;
  send hl {| hm_fid := process_fid; hm_source_process := src_process_fid;
             hm_source_service := src_service_fid; hm_time := now; hm_epoch := 112;
             hm_data := M0_HA_MSG_KEEPALIVE_REQ req_id |}.

Definition ha_state_disconnect (hl : ptr) : M unit :=
  hi ← get_glob m0init_hi;
  do! (m0_halon_interface_disconnect hi hl).

Definition ha_entrypoint_reply (req_id : ptr) (rc confd_fid_size : Z)
    (confd_fid_data confd_eps_data : ptr) (confd_quorum : Z) (rm_fid rm_eps : ptr) : M unit :=
  hi ← get_glob m0init_hi;
  do! (m0_halon_interface_entrypoint_reply hi req_id rc confd_fid_size confd_fid_data
         confd_eps_data confd_quorum rm_fid rm_eps).

Definition ha_state_delivered (hl msg : ptr) : M unit :=
  hi ← get_glob m0init_hi;
  do! (m0_halon_interface_delivered hi hl msg).

Definition ha_state_rpc_machine : M ptr :=
  hi ← get_glob m0init_hi;
  do! (m0_halon_interface_rpc_machine hi).

(** * What Mero reports *)

(** The arguments of the nine function types, after [hi]. *)
Inductive cb_args :=
| Args_entrypoint (req_id : ptr) (remote_ep : string) (process_fid : ptr) (git_rev_id : string)
                  (pid : Z) (first_request : bool)
| Args_msg (hl msg : ptr) (tag : Z)
| Args_tag (hl : ptr) (tag : Z)
| Args_req_link (req_id link : ptr)
| Args_req (req_id : ptr)
| Args_link (link : ptr).

(** Calling a function with arguments of another type is undefined. *)
Definition invoke (fn : halon_cb) (hi : ptr) (args : cb_args) : M unit :=
  match fn, args with
  | entrypoint_request_cb_fn, Args_entrypoint r ep p g pid first =>
      entrypoint_request_cb hi r ep p g pid first
  | msg_received_cb_fn, Args_msg hl msg tag => msg_received_cb hi hl msg tag
  | msg_is_delivered_cb_fn, Args_tag hl tag => msg_is_delivered_cb hi hl tag
  | msg_is_not_delivered_cb_fn, Args_tag hl tag => msg_is_not_delivered_cb hi hl tag
  | link_connected_cb_fn, Args_req_link r l => link_connected_cb hi r l
  | link_reused_cb_fn, Args_req_link r l => link_reused_cb hi r l
  | link_absent_cb_fn, Args_req r => link_absent_cb hi r
  | link_is_disconnecting_cb_fn, Args_link l => link_is_disconnecting_cb hi l
  | link_disconnected_cb_fn, Args_link l => link_disconnected_cb hi l
  | _, _ => undefined
  end.

(** The events of Mero's HA interface. *)
Inductive mero_event :=
| E_entrypoint (req_id : ptr) (remote_ep : string) (process_fid : ptr) (git_rev_id : string)
               (pid : Z) (first_request : bool)
| E_msg_received (hl msg : ptr) (tag : Z)
| E_delivered (hl : ptr) (tag : Z)
| E_not_delivered (hl : ptr) (tag : Z)
| E_connected (req_id hl : ptr)
| E_reused (req_id hl : ptr)
| E_absent (req_id : ptr)
| E_disconnecting (hl : ptr)
| E_disconnected (hl : ptr).

(** The parameter of [m0_halon_interface_start] that receives the event. *)
Definition slot (e : mero_event) : nat :=
  match e with
  | E_entrypoint _ _ _ _ _ _ => 0 | E_msg_received _ _ _ => 1 | E_delivered _ _ => 2
  | E_not_delivered _ _ => 3 | E_connected _ _ => 4 | E_reused _ _ => 5
  | E_absent _ => 6 | E_disconnecting _ => 7 | E_disconnected _ => 8
  end.

Definition args_of (e : mero_event) : cb_args :=
  match e with
  | E_entrypoint r ep p g pid first => Args_entrypoint r ep p g pid first
  | E_msg_received hl msg tag => Args_msg hl msg tag
  | E_delivered hl tag | E_not_delivered hl tag => Args_tag hl tag
  | E_connected r hl | E_reused r hl => Args_req_link r hl
  | E_absent r => Args_req r
  | E_disconnecting hl | E_disconnected hl => Args_link hl
  end.

(** The functions Mero was last given. *)
Definition table_of (e : event) : option (list halon_cb) :=
  match ev_call e with m0_halon_interface_start _ _ _ _ _ t => Some t | _ => None end.
Definition registered (evs : list event) : option (list halon_cb) := list.last (omap table_of evs).

(** Mero reports an event: it calls the function in the event's slot. *)
Definition deliver (e : mero_event) : M unit := fun w =>
  (hi ← get_glob m0init_hi;
   table ← expect (registered (trace w));
   fn ← expect (table !! slot e);
   invoke fn hi (args_of e)) w.

(** ** What the caller is told *)

Definition handler (cbs : ha_state_callbacks) (e : mero_event) : fnptr :=
  match e with
  | E_entrypoint _ _ _ _ _ _ => ha_state_entrypoint cbs
  | E_msg_received _ _ _ => ha_message_callback cbs
  | E_delivered _ _ => ha_state_is_delivered cbs
  | E_not_delivered _ _ => ha_state_is_cancelled cbs
  | E_connected _ _ => ha_state_link_connected cbs
  | E_reused _ _ => ha_state_link_reused cbs
  | E_absent _ => ha_state_link_absent cbs
  | E_disconnecting _ => ha_state_link_disconnecting cbs
  | E_disconnected _ => ha_state_link_disconnected cbs
  end.

Definition user_call (e : mero_event) : ha_user_call :=
  match e with
  | E_entrypoint r _ p _ _ _ => U_entrypoint r p
  | E_msg_received hl msg _ => U_message hl msg
  | E_delivered hl tag => U_is_delivered hl tag
  | E_not_delivered hl tag => U_is_cancelled hl tag
  | E_connected r hl => U_link_connected r hl
  | E_reused r hl => U_link_reused r hl
  | E_absent r => U_link_absent r
  | E_disconnecting hl => U_link_disconnecting hl
  | E_disconnected hl => U_link_disconnected hl
  end.

Definition user_call_of (e : event) : option (Z * ha_user_call) :=
  match ev_call e with cb_ha f u => Some (f, u) | _ => None end.
Definition user_calls (evs : list event) : list (Z * ha_user_call) := omap user_call_of evs.

(** The abstract dispatcher: what one event does under the callbacks [cbs]. *)
Definition dispatch (cbs : ha_state_callbacks) (e : mero_event) : option (Z * ha_user_call) :=
  (fun f => (f, user_call e)) <$> handler cbs e.

Lemma wp_user member u w Q :
  (forall f s, member (ha_state_cbs (glob w)) = Some f -> Q (Ok tt) (log (cb_ha f u) tt s w)) ->
  (member (ha_state_cbs (glob w)) = None -> Q Undefined w) ->
  wp (user member u) Q w.
Proof. intros HO HU. unfold user. wp_go; auto. Qed.

Lemma wp_deliver e w Q :
  registered (trace w) = Some callback_table ->
  (forall f s, handler (ha_state_cbs (glob w)) e = Some f ->
     Q (Ok tt) (log (cb_ha f (user_call e)) tt s w)) ->
  (handler (ha_state_cbs (glob w)) e = None -> Q Undefined w) ->
  wp (deliver e) Q w.
Proof.
  intros Ht HO HU. unfold wp, deliver. rewrite Ht.
  match goal with |- let '(_, _) := ?m w in _ => change (wp m Q w) end.
  wp_step. wp_step. wp_step. wp_step. wp_step.
  destruct e; cbn in HO, HU |- *; wp_step; by apply wp_user.
Qed.

(** Events in a row, while every callback they need is there. *)
Lemma wp_deliveries es w :
  registered (trace w) = Some callback_table ->
  Forall (fun e => is_Some (handler (ha_state_cbs (glob w)) e)) es ->
  wp (for_each es deliver) (fun r w' => r = Ok tt /\ heap w' = heap w /\ glob w' = glob w /\
    exists evs, ran evs w w' /\ length evs = length es /\
      user_calls evs = omap (dispatch (ha_state_cbs (glob w))) es) w.
Proof.
  intros Ht Hes. eapply wp_mono; [apply (wp_for_each es deliver (fun done w' =>
      registered (trace w') = Some callback_table /\ heap w' = heap w /\ glob w' = glob w /\
      exists evs, ran evs w w' /\ length evs = length done /\
        user_calls evs = omap (dispatch (ha_state_cbs (glob w))) done))|by intros r w' (? & _ & ? & ? & ?)].
  - split; [done|]. split; [done|]. split; [done|]. exists []. split; [apply ran_refl|done].
  - intros done e rest w1 -> (Ht1 & Hh1 & Hg1 & evs & Hr & Hl & Hu).
    apply Forall_app in Hes as [_ Hes]. apply Forall_cons_1 in Hes as [[f He] _].
    apply wp_deliver; [done| |by rewrite Hg1, He].
    intros g s Hg. rewrite Hg1, He in Hg. injection Hg as <-.
    split; [done|]. split; [|split; [done|split; [done|]]].
    + unfold registered. cbn. by rewrite omap_app, app_nil_r.
    + exists (evs ++ [Ev (cb_ha f (user_call e)) tt]). split; [solve_ran|].
      rewrite !length_app, Hl. split; [done|]. unfold user_calls in *.
      rewrite !omap_app, Hu. cbn. unfold dispatch. by rewrite He.
Qed.

(** C32. Dispatch refines its specification. After [ha_state_init] with the
    callbacks [cbs], whatever it returns, Mero's events make exactly the calls
    the abstract dispatcher makes: each event one call, in order, to the
    member of [cbs] for that kind of event, with the event's own request,
    link, message or tag; nothing else is called and no state changes. *)
Theorem ha_dispatch_refines ep p h r cbs es w :
  Forall (fun e => is_Some (handler cbs e)) es ->
  wp (ha_state_init ep p h r cbs ;; for_each es deliver) (fun r' w' => r' = Ok tt /\
    heap w' = heap w /\ glob w' = set_cbs cbs (glob w) /\
    exists rc evs, let start := m0_halon_interface_start (m0init_hi (glob w)) ep p h r callback_table in
      ran (Ev start rc :: evs) w w' /\ length evs = length es /\
      user_calls evs = omap (dispatch cbs) es) w.
Proof.
  intros Hes. unfold ha_state_init. wp_step. wp_step. wp_step. wp_step. wp_step. wp_step.
  eapply wp_mono; [apply wp_deliveries; [|done]|].
  - unfold registered. cbn. rewrite omap_app. apply last_snoc.
  - intros r' w' (-> & Hh & Hg & evs & Hr & Hl & Hu). split; [done|]. split; [done|].
    split; [done|]. exists a, evs. split; [solve_ran|done].
Qed.

(** ** Messages to Mero *)

Inductive outgoing :=
| Notify (note : m0_ha_msg_nvec) (src_process src_service : m0_fid) (epoch : Z)
| FailureVecReply (fvec : m0_ha_msg_failure_vec_rep) (src_process src_service : m0_fid)
| PingProcess (req_id : m0_uint128) (process src_process src_service : m0_fid).

Definition transmit (hl : ptr) (o : outgoing) : M Z :=
  match o with
  | Notify note sp ss epoch => ha_state_notify hl note sp ss epoch
  | FailureVecReply fvec sp ss => ha_state_failure_vec_reply hl fvec sp ss
  | PingProcess req_id p sp ss => ha_state_ping_process hl req_id p sp ss
  end.

(** What each message is about and carries. *)
Definition subject (o : outgoing) : m0_fid :=
  match o with
  | Notify _ _ _ _ => M0_FID_INIT 0 0
  | FailureVecReply fvec _ _ => mfp_pool fvec
  | PingProcess _ p _ _ => p
  end.
Definition body (o : outgoing) : m0_ha_msg_data :=
  match o with
  | Notify note _ _ _ => M0_HA_MSG_NVEC note
  | FailureVecReply fvec _ _ => M0_HA_MSG_FAILURE_VEC_REP fvec
  | PingProcess req_id _ _ _ => M0_HA_MSG_KEEPALIVE_REQ req_id
  end.
Definition source (o : outgoing) : m0_fid * m0_fid :=
  match o with
  | Notify _ sp ss _ | FailureVecReply _ sp ss | PingProcess _ _ sp ss => (sp, ss)
  end.

Definition sent_of (e : event) : option (ptr * ptr * m0_ha_msg * Z) :=
  match ev_call e as c return ans c -> _ with
  | m0_halon_interface_send hi hl msg => fun tag : Z => Some (hi, hl, msg, tag)
  | _ => fun _ => None
  end (ev_ans e).
Definition sent (evs : list event) : list (ptr * ptr * m0_ha_msg * Z) := omap sent_of evs.

(** The times read off the clock. *)
Definition clock_of (e : event) : option Z :=
  match ev_call e as c return ans c -> _ with
  | m0_time_now => fun t : Z => Some t
  | _ => fun _ => None
  end (ev_ans e).
Definition clock (evs : list event) : list Z := omap clock_of evs.

(** The message [x] was sent on [hl] for [o] and got the tag [tag]. *)
Definition carries (hi : ptr) (hl : ptr) (o : outgoing) (tag : Z)
    (x : ptr * ptr * m0_ha_msg * Z) : Prop :=
  let '(hi', hl', msg, tag') := x in
  hi' = hi /\ hl' = hl /\ tag' = tag /\ hm_fid msg = subject o /\ hm_data msg = body o /\
  (hm_source_process msg, hm_source_service msg) = source o /\
  (forall n sp ss epoch, o = Notify n sp ss epoch -> hm_epoch msg = epoch).

Lemma wp_transmit hl o w Q :
  (forall w' tag evs x, heap w' = heap w -> glob w' = glob w -> ran evs w w' ->
     evs = [Ev m0_time_now (hm_time x);
            Ev (m0_halon_interface_send (m0init_hi (glob w)) hl x) tag] ->
     carries (m0init_hi (glob w)) hl o tag (m0init_hi (glob w), hl, x, tag) ->
     Q (Ok tag) w') ->
  wp (transmit hl o) Q w.
Proof.
  intros HO. destruct o; unfold transmit, ha_state_notify, ha_state_failure_vec_reply,
    ha_state_ping_process, send; wp_go;
    match goal with H : answers (m0_halon_interface_send _ _ ?x) _ |- _ => eapply (HO _ _ _ x) end;
    try done; try solve_ran; repeat split; by intros ???? [=].
Qed.

Fixpoint transmit_all (l : list (ptr * outgoing)) : M (list Z) :=
  match l with
  | [] => mret []
  | (hl, o) :: l => tag ← transmit hl o; tags ← transmit_all l; mret (tag :: tags)
  end.

(** Messages to Mero: any sequence of notifications, failure vector replies
    and pings sends exactly one message per call, in order, each on its own
    link through the process's interface, with the right subject, sources and
    contents (and the caller's epoch for notifications), stamped with the
    time of sending, and returns the tags Mero assigned, in the same order. *)
Theorem ha_messages_sent l w :
  wp (transmit_all l) (fun r w' => heap w' = heap w /\ glob w' = glob w /\
    exists tags evs, r = Ok tags /\ ran evs w w' /\
      Forall2 (fun x y => carries (m0init_hi (glob w)) x.1.1 x.1.2 x.2 y) (zip l tags) (sent evs) /\
      clock evs = (fun y => hm_time y.1.2) <$> sent evs /\ length tags = length l) w.
Proof.
  revert w. induction l as [|[hl o] l IH]; intros w; cbn [transmit_all].
  { wp_step. split; [done|]. split; [done|]. exists [], []. repeat split; [apply ran_refl|].
    constructor. }
  wp_step. apply wp_transmit. intros w1 tag evs x Hh1 Hg1 Hr1 Hevs Hx. cbn.
  wp_step. eapply wp_mono; [apply IH|].
  intros r w2 (Hh2 & Hg2 & tags & evs2 & -> & Hr2 & Hf & Hc & Hl). wp_step.
  split; [congruence|]. split; [congruence|]. exists (tag :: tags), (evs ++ evs2).
  split; [done|]. split; [by eapply ran_trans|].
  rewrite Hg1 in Hf. unfold sent, clock in *. rewrite !omap_app, Hc. subst evs. simpl.
  split; [by constructor|]. split; [done|]. by rewrite Hl.
Qed.

End HaState.

(** ** Witness *)

Definition all_callbacks : ha_state_callbacks :=
  {| ha_state_entrypoint := Some 1; ha_state_link_connected := Some 2;
     ha_state_link_reused := Some 3; ha_state_link_absent := Some 4;
     ha_state_link_disconnecting := Some 5; ha_state_link_disconnected := Some 6;
     ha_state_is_delivered := Some 7; ha_state_is_cancelled := Some 8;
     ha_message_callback := Some 9 |}.
Definition some_ptr (z : Z) : ptr := Ptr (Foreign z) [].
Definition some_events : list mero_event :=
  [E_entrypoint (some_ptr 1) "0@lo:12345:34:100" (some_ptr 2) "" 3 true;
   E_connected (some_ptr 1) (some_ptr 4); E_delivered (some_ptr 4) 17;
   E_not_delivered (some_ptr 4) 18; E_disconnecting (some_ptr 4); E_disconnected (some_ptr 4)].

Lemma ha_dispatch_refines_witness :
  let f := M0_FID_INIT 0 0 in let w := start succeed in
  wp (ha_state_init "ep" f f f all_callbacks ;; for_each some_events deliver) (fun r' w' =>
    r' = Ok tt /\ heap w' = ∅ /\ glob w' = set_cbs all_callbacks (glob w) /\
    exists rc evs,
      ran (Ev (m0_halon_interface_start Null "ep" f f f callback_table) rc :: evs) w w' /\
      length evs = 6%nat /\ user_calls evs = omap (dispatch all_callbacks) some_events) w.
Proof.
  intros f w. apply (ha_dispatch_refines "ep" f f f all_callbacks some_events w).
  repeat (constructor; [by eexists|]). constructor.
Defined.

End HaState.
