(* ===== verification/Confc.v ===== *)
(** The helpers of the configuration client, confc_helpers.c. *)

From S2P Require Import Prelude CTypes Machine.
Local Open Scope Z_scope.

Module Confc.
Section Confc.
Context {E : Env}.

Definition confc_validate_cache_of_tx (tx : ptr) (buflen : Z) : M ptr :=
  buf ← malloc (A_buffer buflen) (OBuf buflen);
  if bool_decide (buf = Null) then mret Null else
  err ← do! (m0_conf_validation_error (tx ~> F_spt_cache) buf buflen);
  if bool_decide (err = Null) then free buf ;; mret Null
  else mret buf.

Definition halon_interface_spiel : M ptr :=
  hi ← get_glob m0init_hi;
  do! (m0_halon_interface_spiel hi).

(** Ownership of the error buffer. [confc_validate_cache_of_tx] returns
    either a new buffer of [buflen] bytes, which the validation of this
    transaction's cache was given to describe its error in and which the
    caller has to free, or [NULL] with nothing left allocated; [NULL] means
    that the cache is valid or that there was no memory to validate it. *)
Theorem confc_validate_ownership tx buflen w :
  wp (confc_validate_cache_of_tx tx buflen) (fun r w' => glob w' = glob w /\
    exists buf evs, r = Ok buf /\ ran evs w w' /\
    match buf with
    | Null => heap w' = heap w /\
        (evs = [Ev (alloc (A_buffer buflen)) false] \/
         exists b, evs = [Ev (alloc (A_buffer buflen)) true;
                        Ev (m0_conf_validation_error (tx ~> F_spt_cache) (addr b) buflen) Null])
    | _ => exists a err, buf = addr a /\ heap w !! a = None /\
        heap w' = <[a := OBuf buflen]> (heap w) /\ err <> Null /\
        evs = [Ev (alloc (A_buffer buflen)) true;
               Ev (m0_conf_validation_error (tx ~> F_spt_cache) buf buflen) err]
    end) w.
Proof.
  unfold confc_validate_cache_of_tx. wp_step. wp_step.
  - rewrite bool_decide_true by done. wp_step. split; [done|]. eexists _, _.
    split; [done|]. split; [solve_ran|]. split; [done|by left].
  - rewrite bool_decide_false by done. wp_step. wp_step. wp_step; reflect_Z.
    + subst. wp_go. split; [done|]. eexists _, _. split; [done|]. split; [solve_ran|]. simpl.
      split; [by rewrite delete_insert_eq, delete_id|]. right. by eexists.
    + wp_step. split; [done|]. eexists _, _. split; [done|]. split; [solve_ran|]. simpl.
      eexists _, _. split; [reflexivity|]. split; [done|]. by split.
Qed.

End Confc.
End Confc.
