(* ===== verification/ForkM0OS.v ===== *)
(** Threads registered with Mero, forkm0os.c: [worker],
    [forkM0OS_createThread] and [forkM0OS_joinThread]. An action is a function
    pointer owned by the Haskell runtime, which the worker runs and frees. *)

From S2P Require Import Prelude CTypes Machine Resources.
Local Open Scope Z_scope.

Module ForkM0OS.
Section ForkM0OS.
Context {E : Env}.

Definition worker (action : Z) : M unit :=
  do! (cb_action action) ;;
  do! (hs_free_fun_ptr action).

(** [M0_SET0 (t)] clears memory of the caller, which nothing here reads. *)
Definition forkM0OS_createThread (t : ptr) (action : Z) : M Z :=
  do! (M0_THREAD_INIT t action).

Definition forkM0OS_joinThread (t : ptr) : M Z :=
  rc ← do! (m0_thread_join t);
  (if rc =? 0 then do! (m0_thread_fini t) else mret tt) ;;
  mret rc.

(** * Any number of threads

    A created thread performs the two calls of [worker] one after the other,
    interleaved with everything else; [m0_thread_join] returns 0 only for a
    thread that has ended. *)

(** The [struct m0_thread]s are allocated by the caller. *)
Definition thread (z : Z) : ptr := Ptr (Foreign z) [].

Inductive tpc := TRun | TFree | TEnd.

Record tsys := TSys {
  tw : world;
  threads : gmap Z (Z * tpc);   (* created and not yet joined *)
  spawned : list Z;               (* actions of the successful creations *)
}.

Inductive tstep : tsys -> tsys -> Prop :=
| t_create s t a w' : threads s !! t = None ->
    forkM0OS_createThread (thread t) a (tw s) = (Ok 0, w') ->
    tstep s (TSys w' (<[t := (a, TRun)]> (threads s)) (spawned s ++ [a]))
| t_create_fails s t a rc w' : threads s !! t = None -> rc <> 0 ->
    forkM0OS_createThread (thread t) a (tw s) = (Ok rc, w') ->
    tstep s (TSys w' (threads s) (spawned s))
| t_run s t a w' : threads s !! t = Some (a, TRun) ->
    ext (cb_action a) (tw s) = (Ok tt, w') ->
    tstep s (TSys w' (<[t := (a, TFree)]> (threads s)) (spawned s))
| t_free s t a w' : threads s !! t = Some (a, TFree) ->
    ext (hs_free_fun_ptr a) (tw s) = (Ok tt, w') ->
    tstep s (TSys w' (<[t := (a, TEnd)]> (threads s)) (spawned s))
| t_join s t a w' : threads s !! t = Some (a, TEnd) ->
    forkM0OS_joinThread (thread t) (tw s) = (Ok 0, w') ->
    tstep s (TSys w' (delete t (threads s)) (spawned s))
| t_join_fails s t rc w' : is_Some (threads s !! t) -> rc <> 0 ->
    forkM0OS_joinThread (thread t) (tw s) = (Ok rc, w') ->
    tstep s (TSys w' (threads s) (spawned s)).

Definition ran_of (e : event) : option Z :=
  match ev_call e with cb_action a => Some a | _ => None end.
Definition freed_of (e : event) : option Z :=
  match ev_call e with hs_free_fun_ptr a => Some a | _ => None end.

(** Actions not yet called, and function pointers not yet freed. *)
Definition to_run (x : Z * tpc) : option Z :=
  match x with (a, TRun) => Some a | _ => None end.
Definition to_free (x : Z * tpc) : option Z :=
  match x with (a, TEnd) => None | (a, _) => Some a end.
Definition pending (f : Z * tpc -> option Z) (m : gmap Z (Z * tpc)) : list Z :=
  omap f ((map_to_list m).*2).

Definition thread_of (x : Z * (Z * tpc)) : resource := RThread (thread x.1).

Definition tinv (w0 : world) (s : tsys) : Prop :=
  exists evs, ran evs w0 (tw s) /\
    omap ran_of evs ++ pending to_run (threads s) ≡ₚ spawned s /\
    omap freed_of evs ++ pending to_free (threads s) ≡ₚ spawned s /\
    exists R, held [] evs = Some R /\ R ≡ₚ thread_of <$> map_to_list (threads s).

(** ** Steps keep the invariant *)

Lemma hand_back_held r R R' : R ≡ₚ r :: R' -> exists R'', hand_back r R = Some R'' /\ R'' ≡ₚ R'.
Proof.
  intros HR. destruct (hand_back_is_Some r R) as [R'' H]; [rewrite HR; constructor|].
  exists R''. split; [done|]. apply hand_back_perm in H. rewrite HR in H. by apply Permutation_cons_inv in H.
Qed.

Lemma pending_insert f t x m :
  pending f (<[t := x]> m) ≡ₚ option_list (f x) ++ pending f (delete t m).
Proof.
  unfold pending. rewrite <- insert_delete_eq, map_to_list_insert by apply lookup_delete_eq.
  simpl. by destruct (f x).
Qed.

Lemma pending_lookup f t x m :
  m !! t = Some x -> pending f m ≡ₚ option_list (f x) ++ pending f (delete t m).
Proof. intros Ht. by rewrite <- pending_insert, insert_id. Qed.

Lemma threads_update t x y m : m !! t = Some x ->
  thread_of <$> map_to_list (<[t := y]> m) ≡ₚ thread_of <$> map_to_list m.
Proof.
  intros Ht. rewrite <- (insert_id m t x) at 2 by done.
  rewrite <- !(insert_delete_eq m), !map_to_list_insert by apply lookup_delete_eq. done.
Qed.

(** A step that makes the calls [evs1] and spawns the actions [new]. *)
Lemma tinv_extend w0 s w' m' new evs1 :
  tinv w0 s -> ran evs1 (tw s) w' ->
  omap ran_of evs1 ++ pending to_run m' ≡ₚ pending to_run (threads s) ++ new ->
  omap freed_of evs1 ++ pending to_free m' ≡ₚ pending to_free (threads s) ++ new ->
  (forall R, R ≡ₚ thread_of <$> map_to_list (threads s) ->
     exists R', held R evs1 = Some R' /\ R' ≡ₚ thread_of <$> map_to_list m') ->
  tinv w0 (TSys w' m' (spawned s ++ new)).
Proof.
  intros (evs & Hr & Hrun & Hfree & R & Hheld & HR) Hr1 Hrun1 Hfree1 Hheld1.
  exists (evs ++ evs1). split; [by eapply ran_trans|]. rewrite !omap_app, <- !(assoc_L (++)). simpl.
  split; [by rewrite Hrun1, (assoc_L (++)), Hrun|].
  split; [by rewrite Hfree1, (assoc_L (++)), Hfree|].
  destruct (Hheld1 R HR) as (R' & HR' & Hp). exists R'. split; [|done].
  by rewrite held_app, Hheld.
Qed.

Lemma create_events t a w :
  wp (forkM0OS_createThread t a)
    (fun r w' => exists rc, r = Ok rc /\ ran [Ev (M0_THREAD_INIT t a) rc] w w') w.
Proof. unfold forkM0OS_createThread. wp_go. eexists. split; [done|]. solve_ran. Qed.

Lemma join_events t w :
  wp (forkM0OS_joinThread t) (fun r w' => exists rc, r = Ok rc /\
    ran (Ev (m0_thread_join t) rc :: if rc =? 0 then [Ev (m0_thread_fini t) tt] else []) w w') w.
Proof.
  unfold forkM0OS_joinThread. wp_step. wp_step. wp_step. destruct (a =? 0) eqn:Ha; wp_go;
    (eexists; split; [done|]); rewrite Ha; solve_ran.
Qed.

Lemma ext_events c w :
  wp (ext c) (fun r w' => exists a, r = Ok a /\ ran [Ev c a] w w') w.
Proof. apply wp_ext. intros a s _ _. exists a. split; [done|]. solve_ran. Qed.

(** A worker's call, which takes its thread from [x] to [y]. *)
Lemma tinv_advance w0 s t x y c (r : res (ans c)) w' :
  tinv w0 s -> threads s !! t = Some x -> ext c (tw s) = (r, w') ->
  (forall u, option_list (ran_of (Ev c u)) ++ option_list (to_run y) = option_list (to_run x)) ->
  (forall u, option_list (freed_of (Ev c u)) ++ option_list (to_free y) = option_list (to_free x)) ->
  (forall u R, account R (Ev c u) = Some R) ->
  tinv w0 (TSys w' (<[t := y]> (threads s)) (spawned s)).
Proof.
  intros I Ht Hr Hrun Hfree Hacc.
  destruct (wp_run _ _ _ _ _ (ext_events c (tw s)) Hr) as (u & _ & Hran).
  rewrite <- (app_nil_r (spawned s)).
  eapply tinv_extend; [done|exact Hran|..]; rewrite ?app_nil_r, ?pending_insert.
  - rewrite (pending_lookup to_run t _ (threads s) Ht), <- (Hrun u), <- (assoc_L (++)).
    by cbn; destruct (ran_of _).
  - rewrite (pending_lookup to_free t _ (threads s) Ht), <- (Hfree u), <- (assoc_L (++)).
    by cbn; destruct (freed_of _).
  - intros R HR. exists R. split; [by rewrite held_cons, Hacc|].
    by rewrite HR, (threads_update _ _ _ _ Ht).
Qed.

Lemma tinv_step w0 s s' : tinv w0 s -> tstep s s' -> tinv w0 s'.
Proof.
  intros I Hs. destruct Hs as [s t a w' Ht Hr|s t a rc w' Ht Hrc Hr|s t a w' Ht Hr|s t a w' Ht Hr
    |s t a w' Ht Hr|s t rc w' Ht Hrc Hr].
  - destruct (wp_run _ _ _ _ _ (create_events (thread t) a (tw s)) Hr) as (rc & [= <-] & Hran).
    eapply tinv_extend; [done|exact Hran|..]; cbn.
    + rewrite pending_insert, delete_id by done. simpl. apply Permutation_cons_append.
    + rewrite pending_insert, delete_id by done. simpl. apply Permutation_cons_append.
    + intros R HR. eexists. split; [reflexivity|]. rewrite HR, map_to_list_insert by done. done.
  - destruct (wp_run _ _ _ _ _ (create_events (thread t) a (tw s)) Hr) as (rc' & [= <-] & Hran).
    rewrite <- (app_nil_r (spawned s)).
    eapply tinv_extend; [done|exact Hran|..]; cbn -[held]; rewrite ?app_nil_r; [done..|].
    intros R HR. exists R. split; [|done]. rewrite held_cons. unfold account. cbn.
    by rewrite (proj2 (Z.eqb_neq rc 0) Hrc).
  - by eapply (tinv_advance _ _ t _ (a, TFree) (cb_action a)).
  - by eapply (tinv_advance _ _ t _ (a, TEnd) (hs_free_fun_ptr a)).
  - destruct (wp_run _ _ _ _ _ (join_events (thread t) (tw s)) Hr) as (rc & [= <-] & Hran).
    rewrite <- (app_nil_r (spawned s)).
    eapply tinv_extend; [done|exact Hran|..]; cbn -[held]; rewrite ?app_nil_r.
    + by rewrite (pending_lookup to_run t _ (threads s) Ht).
    + by rewrite (pending_lookup to_free t _ (threads s) Ht).
    + intros R HR. rewrite <- (insert_delete_id _ _ _ Ht) in HR.
      rewrite map_to_list_insert in HR by apply lookup_delete_eq.
      destruct (hand_back_held _ _ _ HR) as (R' & HR' & Hp). exists R'.
      split; [|done]. rewrite !held_cons. unfold account. cbn -[hand_back thread].
      change (RThread (thread t)) with (thread_of (t, (a, TEnd))). by rewrite HR'.
  - destruct (wp_run _ _ _ _ _ (join_events (thread t) (tw s)) Hr) as (rc' & [= <-] & Hran).
    rewrite <- (app_nil_r (spawned s)).
    eapply tinv_extend; [done|exact Hran|..]; rewrite (proj2 (Z.eqb_neq rc 0) Hrc); cbn -[held];
      rewrite ?app_nil_r; [done..|]. intros R HR. by exists R.
Qed.

(** C37. Threads. Under any interleaving of creations, workers and joins, every
    action given to a thread that was created is called exactly once and its
    function pointer is freed exactly once (the calls made and those the live
    threads still have to make are together the actions of the creations that
    succeeded), and the Mero threads not yet finalised are exactly the live
    ones. *)
Theorem actions_run_and_freed_once w s :
  star tstep (TSys w ∅ []) s ->
  exists evs, ran evs w (tw s) /\
    omap ran_of evs ++ pending to_run (threads s) ≡ₚ spawned s /\
    omap freed_of evs ++ pending to_free (threads s) ≡ₚ spawned s /\
    exists R, held [] evs = Some R /\ R ≡ₚ thread_of <$> map_to_list (threads s).
Proof.
  intros Hs. eapply (star_invariant tstep (tinv w)); [done| |intros; by eapply tinv_step].
  exists []. split; [apply ran_refl|]. split; [done|]. split; [done|]. by exists [].
Qed.

End ForkM0OS.

(** ** Witness *)

Lemma actions_run_and_freed_once_witness :
  exists s, star tstep (TSys (start succeed) ∅ []) s /\ threads s = ∅ /\ spawned s = [33] /\
    exists evs, ran evs (start succeed) (tw s) /\
      omap ran_of evs ++ pending to_run (threads s) ≡ₚ [33] /\
      omap freed_of evs ++ pending to_free (threads s) ≡ₚ [33] /\
      exists R, held [] evs = Some R /\ R ≡ₚ thread_of <$> map_to_list (threads s).
Proof.
  assert (exists s, star tstep (TSys (start succeed) ∅ []) s /\ threads s = ∅ /\ spawned s = [33])
    as (s & Hs & Ht & Hsp).
  { eexists. split; [eapply star_snoc; [eapply star_snoc; [eapply star_snoc; [apply star_one|]|]|]|].
    - by apply (t_create _ 1 33).
    - by apply (t_run _ 1 33).
    - by apply (t_free _ 1 33).
    - by apply (t_join _ 1 33).
    - by vm_compute. }
  exists s. split; [exact Hs|]. split; [exact Ht|]. split; [exact Hsp|].
  rewrite <- Hsp. exact (actions_run_and_freed_once (start succeed) s Hs).
Defined.

End ForkM0OS.
