(* ===== verification/HaLife.v ===== *)
(** The life of the process's HA interface, across m0init.c, hastate.c and
    confc_helpers.c: which calls reach Mero, in which order, and with which
    interface, when the client follows the order the headers ask for. *)

From S2P Require Import Prelude CTypes Machine M0Init HaState Confc.
Local Open Scope Z_scope.

Module HaLife.
Import M0Init HaState Confc.

(** * Mero's side of the protocol *)

Inductive pstate := PDown | PUp (hi : ptr) | PStarted (hi : ptr).

(** The interface is started, and [hi] is it. *)
Definition in_use (p : pstate) (hi : ptr) : option pstate :=
  match p with PStarted hi' => if decide (hi = hi') then Some p else None | _ => None end.

(** One call, as Mero accepts it; [None] is a violation: an interface that
    does not exist, is not the current one or is in the wrong phase. *)
Definition proto (p : pstate) (e : event) : option pstate :=
  match ev_call e as c return ans c -> option pstate with
  | m0_halon_interface_init _ _ => fun a : Z * ptr =>
      match p with PDown => Some (if a.1 =? 0 then PUp a.2 else PDown) | _ => None end
  | m0_halon_interface_fini hi => fun _ =>
      match p with PUp hi' => if decide (hi = hi') then Some PDown else None | _ => None end
  | m0_halon_interface_start hi _ _ _ _ _ => fun rc : Z =>
      match p with
      | PUp hi' => if decide (hi = hi') then Some (if rc =? 0 then PStarted hi else p) else None
      | _ => None end
  | m0_halon_interface_stop hi => fun _ =>
      match p with PStarted hi' => if decide (hi = hi') then Some (PUp hi) else None | _ => None end
  | m0_halon_interface_send hi _ _ | m0_halon_interface_disconnect hi _
  | m0_halon_interface_entrypoint_reply hi _ _ _ _ _ _ _ _ | m0_halon_interface_delivered hi _ _
  | m0_halon_interface_rpc_machine hi | m0_halon_interface_spiel hi => fun _ => in_use p hi
  | _ => fun _ => Some p
  end (ev_ans e).

Definition protocol (p : pstate) (evs : list event) : option pstate :=
  foldl (fun o e => o ≫= fun p => proto p e) (Some p) evs.

Lemma protocol_app p e1 e2 : protocol p (e1 ++ e2) = protocol p e1 ≫= fun p' => protocol p' e2.
Proof.
  unfold protocol. rewrite foldl_app. destruct (foldl _ (Some p) e1); [done|].
  simpl. induction e2; auto.
Qed.

Section HaLife.
Context {E : Env}.

(** * The client's side *)

(** What a client does while the interface is started. *)
Inductive client_op :=
| C_transmit (hl : ptr) (o : outgoing)
| C_disconnect (hl : ptr)
| C_entrypoint_reply (req_id : ptr) (rc confd_fid_size : Z) (confd_fid_data confd_eps_data : ptr)
                     (confd_quorum : Z) (rm_fid rm_eps : ptr)
| C_delivered (hl msg : ptr)
| C_rpc_machine
| C_spiel.

Definition run_op (o : client_op) : M unit :=
  match o with
  | C_transmit hl o => transmit hl o ;; mret tt
  | C_disconnect hl => ha_state_disconnect hl
  | C_entrypoint_reply r rc n f e q rf re => ha_entrypoint_reply r rc n f e q rf re
  | C_delivered hl msg => ha_state_delivered hl msg
  | C_rpc_machine => ha_state_rpc_machine ;; mret tt
  | C_spiel => halon_interface_spiel ;; mret tt
  end.

Inductive phase := Down | Up | Started.

(** The order the headers ask for: [m0_init_wrapper], [ha_state_init], use,
    [ha_state_fini], [m0_fini_wrapper]; Mero reports events while started. *)
Inductive hstep : phase * world -> phase * world -> Prop :=
| h_init rc w w' : m0_init_wrapper w = (Ok rc, w') ->
    hstep (Down, w) (if rc =? 0 then Up else Down, w')
| h_fini w w' : m0_fini_wrapper w = (Ok tt, w') -> hstep (Up, w) (Down, w')
| h_start ep p h r cbs rc w w' : (forall e, is_Some (handler cbs e)) ->
    ha_state_init ep p h r cbs w = (Ok rc, w') ->
    hstep (Up, w) (if rc =? 0 then Started else Up, w')
| h_stop w w' : ha_state_fini w = (Ok tt, w') -> hstep (Started, w) (Up, w')
| h_op o w w' : run_op o w = (Ok tt, w') -> hstep (Started, w) (Started, w')
| h_event e w w' : deliver e w = (Ok tt, w') -> hstep (Started, w) (Started, w').

(** [m0_halon_interface_init] stores an interface iff it succeeds. *)
Definition init_out : Prop := forall out opts a,
  answers (m0_halon_interface_init out opts) a -> (a.1 = 0 <-> a.2 <> Null).

(** The state Mero is in, from the client's phase and the code's variables. *)
Definition view (ph : phase) (w : world) : pstate :=
  match ph with
  | Down => PDown
  | Up => PUp (m0init_hi (glob w))
  | Started => PStarted (m0init_hi (glob w))
  end.

Definition hinv (w0 : world) (s : phase * world) : Prop :=
  let '(ph, w) := s in
  (m0init_hi (glob w) = Null <-> ph = Down) /\
  (ph = Started -> registered (trace w) = Some callback_table /\
                   forall e, is_Some (handler (ha_state_cbs (glob w)) e)) /\
  exists evs, ran evs w0 w /\ protocol PDown evs = Some (view ph w).

(** ** Rules for the operations *)

Lemma wp_m0_init w :
  m0init_hi (glob w) = Null -> init_out ->
  wp m0_init_wrapper (fun r w' => exists rc opts, let hi := m0init_hi (glob w') in
    r = Ok rc /\ (rc = 0 <-> hi <> Null) /\
    ran [Ev (getenv "HALON_INTERFACE_DEBUG_OPTIONS") opts;
         Ev (m0_halon_interface_init (Ptr (Static m0init_hi_var) []) opts) (rc, hi)] w w') w.
Proof.
  intros Hhi Hout. unfold m0_init_wrapper. wp_step. wp_step. rewrite Hhi.
  rewrite bool_decide_true by done. wp_go. destruct a0 as [rc hi].
  exists rc, a. split; [done|]. split; [exact (Hout _ _ _ H1)|]. solve_ran.
Qed.

Lemma wp_m0_init_twice w :
  m0init_hi (glob w) <> Null -> wp m0_init_wrapper (fun r w' => r = Aborted /\ w' = w) w.
Proof.
  intros Hhi. unfold m0_init_wrapper. wp_step. wp_step. rewrite bool_decide_false by done.
  by wp_step; wp_step.
Qed.

Lemma wp_m0_fini w :
  wp m0_fini_wrapper (fun r w' => r = Ok tt /\ m0init_hi (glob w') = Null /\
    ran [Ev (m0_halon_interface_fini (m0init_hi (glob w))) tt] w w') w.
Proof. unfold m0_fini_wrapper. wp_go. split; [done|]. split; [done|]. solve_ran. Qed.

Lemma wp_ha_init ep p h r cbs w :
  wp (ha_state_init ep p h r cbs) (fun res w' => exists rc, res = Ok rc /\
    glob w' = set_cbs cbs (glob w) /\
    ran [Ev (m0_halon_interface_start (m0init_hi (glob w)) ep p h r callback_table) rc] w w') w.
Proof. unfold ha_state_init. wp_go. eexists. split; [done|]. split; [done|]. solve_ran. Qed.

Lemma wp_ha_fini w :
  wp ha_state_fini (fun r w' => r = Ok tt /\ glob w' = glob w /\
    ran [Ev (m0_halon_interface_stop (m0init_hi (glob w))) tt] w w') w.
Proof. unfold ha_state_fini. wp_go. split; [done|]. split; [done|]. solve_ran. Qed.

Lemma wp_event e w f :
  registered (trace w) = Some callback_table -> handler (ha_state_cbs (glob w)) e = Some f ->
  wp (deliver e) (fun r w' => r = Ok tt /\ glob w' = glob w /\
    ran [Ev (cb_ha f (user_call e)) tt] w w') w.
Proof.
  intros Ht Hf. apply wp_deliver; [done| |by rewrite Hf].
  intros g s Hg. rewrite Hf in Hg. injection Hg as <-. split; [done|]. split; [done|]. solve_ran.
Qed.

(** An operation of the started interface makes calls Mero accepts and leaves
    the code's variables alone. *)
Lemma wp_run_op o w :
  wp (run_op o) (fun r w' => r = Ok tt /\ glob w' = glob w /\
    exists evs, ran evs w w' /\ omap table_of evs = [] /\
      protocol (PStarted (m0init_hi (glob w))) evs = Some (PStarted (m0init_hi (glob w)))) w.
Proof.
  destruct o; cbn [run_op].
  { wp_step. apply wp_transmit. intros w' tag evs x Hh Hg Hr -> _. wp_step.
    split; [done|]. split; [done|]. eexists. split; [exact Hr|]. split; [done|].
    cbn. by rewrite decide_True. }
  all: unfold ha_state_disconnect, ha_entrypoint_reply, ha_state_delivered, ha_state_rpc_machine,
    halon_interface_spiel; wp_go; (split; [done|]); (split; [done|]);
    eexists; (split; [solve_ran|]); (split; [done|]); cbn; by rewrite decide_True.
Qed.

(** A step that makes the calls [evs]. *)
Lemma hinv_extend w0 ph w ph' w' evs :
  hinv w0 (ph, w) -> ran evs w w' -> protocol (view ph w) evs = Some (view ph' w') ->
  (m0init_hi (glob w') = Null <-> ph' = Down) ->
  (ph' = Started -> registered (trace w') = Some callback_table /\
                    forall e, is_Some (handler (ha_state_cbs (glob w')) e)) ->
  hinv w0 (ph', w').
Proof.
  intros (_ & _ & evs0 & Hr0 & Hp0) Hr Hp Hhi Hst. split; [done|]. split; [done|].
  exists (evs0 ++ evs). split; [by eapply ran_trans|]. by rewrite protocol_app, Hp0.
Qed.

(** The table stays registered while nothing is started. *)
Lemma registered_extend w w' evs :
  ran evs w w' -> omap table_of evs = [] -> registered (trace w') = registered (trace w).
Proof. unfold ran, registered. intros -> Hevs. by rewrite omap_app, Hevs, app_nil_r. Qed.

Lemma hstep_inv w0 s s' : init_out -> hinv w0 s -> hstep s s' -> hinv w0 s'.
Proof.
  intros Hout I Hs. pose proof I as I'.
  destruct Hs as [rc w w' Hr|w w' Hr|ep p h r cbs rc w w' Hcbs Hr|w w' Hr
    |o w w' Hr|e w w' Hr]; destruct I' as (Hhi & Hst & _).
  - destruct (wp_run _ _ _ _ _ (wp_m0_init w (proj2 Hhi eq_refl) Hout) Hr)
      as (? & opts & [= <-] & Hrc & Hran).
    eapply hinv_extend; [exact I|exact Hran|..].
    + cbn. by destruct (rc =? 0).
    + destruct (rc =? 0) eqn:H0; reflect_Z.
      * split; [|done]. intros Hn. by apply Hrc in H0.
      * split; [done|]. intros _. destruct (decide (m0init_hi (glob w') = Null)) as [|Hn]; [done|].
        by apply Hrc in Hn.
    + by destruct (rc =? 0).
  - destruct (wp_run _ _ _ _ _ (wp_m0_fini w) Hr) as (_ & Hnull & Hran).
    eapply hinv_extend; [exact I|exact Hran|..]; [|done..]. cbn. by rewrite decide_True.
  - destruct (wp_run _ _ _ _ _ (wp_ha_init ep p h r cbs w) Hr) as (? & [= <-] & Hg & Hran).
    assert (Hh : m0init_hi (glob w') = m0init_hi (glob w)) by by rewrite Hg.
    eapply hinv_extend; [exact I|exact Hran|..].
    + cbn. rewrite decide_True by done. destruct (rc =? 0); cbn; by rewrite Hh.
    + rewrite Hh, Hhi. by destruct (rc =? 0).
    + intros _. rewrite Hg. split; [|done]. unfold registered. rewrite Hran, omap_app.
      apply last_snoc.
  - destruct (wp_run _ _ _ _ _ (wp_ha_fini w) Hr) as (_ & Hg & Hran).
    eapply hinv_extend; [exact I|exact Hran|..]; rewrite ?Hg; [|by rewrite Hhi|done].
    cbn. by rewrite decide_True, Hg.
  - destruct (wp_run _ _ _ _ _ (wp_run_op o w) Hr) as (_ & Hg & evs & Hran & Ht & Hp).
    eapply hinv_extend; [exact I|exact Hran|..]; rewrite ?Hg; [|done|].
    + cbn. by rewrite Hg.
    + by rewrite (registered_extend _ _ _ Hran Ht).
  - destruct (Hst eq_refl) as [Ht Hc]. destruct (Hc e) as [f Hf].
    destruct (wp_run _ _ _ _ _ (wp_event e w f Ht Hf) Hr) as (_ & Hg & Hran).
    eapply hinv_extend; [exact I|exact Hran|..]; rewrite ?Hg; [|done|].
    + cbn. by rewrite Hg.
    + by rewrite (registered_extend _ _ _ Hran eq_refl).
Qed.

Section Reachable.
Context (Hout : init_out) (w : world) (Hdown : m0init_hi (glob w) = Null).

Lemma reachable_hinv s : star hstep (Down, w) s -> hinv w s.
Proof using Hout Hdown.
  intros Hs. eapply (star_invariant hstep (hinv w)); [done| |intros; by eapply hstep_inv].
  split; [done|]. split; [done|]. exists []. split; [apply ran_refl|done].
Qed.

(** C33. The protocol of the HA interface is respected. A client that follows
    the order of the headers, however it interleaves messages, replies,
    queries and Mero's events and whichever initialisations fail, never makes
    a call Mero does not accept: the interface passed is always the one that
    exists, it is started once at a time, used only while started and
    finalised only when stopped; and [m0init_hi] is [NULL] exactly when there
    is no interface. *)
Theorem ha_protocol_respected ph w' :
  star hstep (Down, w) (ph, w') ->
  (m0init_hi (glob w') = Null <-> ph = Down) /\
  exists evs, ran evs w w' /\ protocol PDown evs = Some (view ph w').
Proof using Hout Hdown. intros Hs. destruct (reachable_hinv _ Hs) as (? & _ & ?). done. Qed.

(** In every reachable state the interface can be driven on: while it is
    down [m0_init_wrapper] returns; otherwise a second [m0_init_wrapper] stops
    on its precondition without calling Mero; and while it is started every
    operation completes and every event is delivered. *)
Theorem ha_operations_complete ph w' :
  star hstep (Down, w) (ph, w') ->
  (if decide (m0init_hi (glob w') = Null)
   then exists rc w'', m0_init_wrapper w' = (Ok rc, w'')
   else m0_init_wrapper w' = (Aborted, w')) /\
  (ph = Started -> (forall o, exists w'', run_op o w' = (Ok tt, w'')) /\
                   (forall e, exists w'', deliver e w' = (Ok tt, w''))).
Proof using Hout Hdown.
  intros Hs. destruct (reachable_hinv _ Hs) as (Hhi & Hst & _). split.
  - destruct (decide _) as [Hn|Hn].
    + pose proof (wp_m0_init w' Hn Hout) as Hwp. unfold wp in Hwp.
      destruct (m0_init_wrapper w') as [r w'']. destruct Hwp as (rc & _ & -> & _). eauto.
    + pose proof (wp_m0_init_twice w' Hn) as Hwp. unfold wp in Hwp.
      destruct (m0_init_wrapper w') as [r w'']. by destruct Hwp as [-> ->].
  - intros Hph. destruct (Hst Hph) as [Ht Hc]. split.
    + intros o. pose proof (wp_run_op o w') as Hwp. unfold wp in Hwp.
      destruct (run_op o w') as [r w'']. destruct Hwp as (-> & _). eauto.
    + intros e. destruct (Hc e) as [f Hf].
      pose proof (wp_event e w' f Ht Hf) as Hwp. unfold wp in Hwp.
      destruct (deliver e w') as [r w'']. destruct Hwp as (-> & _). eauto.
Qed.
End Reachable.

End HaLife.

(** ** Witnesses *)

Abbreviation world0 := (@world (fixed_env succeed)).
Definition no_fid : m0_fid := M0_FID_INIT 0 0.
Definition up0 : world0 := (m0_init_wrapper (start succeed)).2.
Definition started0 : world0 :=
  (ha_state_init "0@lo:12345:34:100" no_fid no_fid no_fid all_callbacks up0).2.

Lemma succeed_init_out : init_out (E := fixed_env succeed).
Proof. by intros out opts a [s <-]. Qed.

Lemma reach_started0 : star hstep (Down, start succeed) (Started, started0).
Proof.
  eapply star_snoc; [apply star_one|].
  - by apply (h_init 0 (start succeed) up0).
  - apply (h_start "0@lo:12345:34:100" no_fid no_fid no_fid all_callbacks 0 up0 started0); [|done].
    intros []; by eexists.
Qed.

Lemma ha_protocol_respected_witness :
  (m0init_hi (glob started0) = Null <-> Started = Down) /\
  exists evs, ran evs (start succeed) started0 /\
    protocol PDown evs = Some (PStarted (Ptr (Foreign 2) [])).
Proof.
  exact (ha_protocol_respected succeed_init_out (start succeed) eq_refl _ _ reach_started0).
Defined.

Lemma ha_operations_complete_witness :
  exists w'', run_op (C_disconnect (some_ptr 4)) started0 = (Ok tt, w'').
Proof.
  exact (proj1 (proj2 (ha_operations_complete succeed_init_out (start succeed) eq_refl _ _
                         reach_started0) eq_refl) (C_disconnect (some_ptr 4))).
Defined.

End HaLife.
