(* ===== verification/Bindings.v ===== *)
(** The Haskell side of rpclite, Network/RPC/RPCLite.hsc: how messages are laid
    out for the C functions and read back, and how results are decoded. An
    exception of type [RPCException] is the left of a sum. *)

From S2P Require Import Prelude CTypes Machine Resources Connection Payload Send.
Local Open Scope Z_scope.

Module RPCLite.
Import Connection Payload Send.

(** * Results *)

Inductive Status :=
| RPC_OK | RPC_TIMEDOUT | RPC_HOSTDOWN | RPC_HOSTUNREACHABLE | RPC_FAILED (i : Z).

Definition toEnum (i : Z) : Status :=
  if i =? 0 then RPC_OK
  else if i =? - ETIMEDOUT then RPC_TIMEDOUT
  else if i =? - EHOSTUNREACH then RPC_HOSTUNREACHABLE
  else if i =? - EHOSTDOWN then RPC_HOSTDOWN
  else RPC_FAILED i.

Definition fromEnum (s : Status) : Z :=
  match s with
  | RPC_OK => 0
  | RPC_TIMEDOUT => - ETIMEDOUT
  | RPC_HOSTUNREACHABLE => - EHOSTUNREACH
  | RPC_HOSTDOWN => - EHOSTDOWN
  | RPC_FAILED i => i
  end.

Definition check_rc (rc : Z) : Status + unit := if rc =? 0 then inr tt else inl (toEnum rc).

(** What the wrapped callback hands to the user's one ([wrapSendCB]). *)
Definition reply_status_seen (wst : rpc_status) : Status := toEnum (rpc_status_val wst).

(** * Messages *)

Definition ByteString := list Z.
(** A [CStringLen], as the [iovec] written from it. *)
Definition cstring_len (x : ByteString) : iovec :=
  {| iov_base := x; iov_len := Z.of_nat (length x) |}.

Fixpoint unsafeUseAsCStringLens (msgs : list ByteString) (acc : list iovec) (len : Z)
    : list iovec * Z :=
  match msgs with
  | x :: xs => unsafeUseAsCStringLens xs (cstring_len x :: acc) (len + 1)
  | [] => (acc, len)
  end.

Definition write_iovec (piovecs : list iovec) (x : Z * iovec) : list iovec :=
  <[Z.to_nat x.1 := x.2]> piovecs.

(** [clen-1, clen-2 .. 0] *)
Definition countdown (clen : Z) : list Z := reverse (seqZ 0 clen).

(** The array passed to C; its initial contents are all overwritten. *)
Definition marshal (msgs : list ByteString) : list iovec * Z :=
  let '(cmsgs, clen) := unsafeUseAsCStringLens msgs [] 0 in
  (foldl write_iovec (replicate (Z.to_nat clen) {| iov_base := []; iov_len := 0 |})
     (zip (countdown clen) cmsgs), clen).

Section RPCLite.
Context {E : Env}.

Definition sendBlocking (c : ptr) (msgs : list ByteString) (timeout_s : Z) : M (Status + unit) :=
  let '(piovecs, clen) := marshal msgs in
  rc ← rpc_send_blocking c piovecs (s32 clen) (s32 timeout_s);
  mret (check_rc rc).

(** [wcb] is the wrapped callback. *)
Definition send (c : ptr) (msgs : list ByteString) (timeout_s wcb : Z) : M (Status + unit) :=
  let '(piovecs, clen) := marshal msgs in
  rc ← rpc_send c piovecs (s32 clen) (Some wcb) Null (s32 timeout_s);
  mret (check_rc rc).

(** [forM] *)
Fixpoint for_M {A B} (l : list A) (body : A -> M B) : M (list B) :=
  match l with
  | [] => mret []
  | x :: l => y ← body x; ys ← for_M l body; mret (y :: ys)
  end.

(** [bpack (fdata, flen)] reads [flen] bytes, which have to be there. *)
Definition pack (fdata : option (list Z)) (flen : Z) : M ByteString :=
  bytes ← expect fdata;
  if (0 <=? flen) && (flen <=? Z.of_nat (length bytes))
  then mret (take (Z.to_nat flen) bytes) else undefined.

Definition getFragments (pit : ptr) : M (list ByteString) :=
  nf ← rpc_get_fragments_count pit;
  for_M (seqZ 0 nf) (fun i =>
    flen ← rpc_get_fragment_count pit i;
    fdata ← rpc_get_fragment pit i;
    pack fdata flen).

(** ** The array has the messages in order *)

Lemma use_lens msgs acc len :
  unsafeUseAsCStringLens msgs acc len =
    (reverse (cstring_len <$> msgs) ++ acc, len + Z.of_nat (length msgs)).
Proof.
  revert acc len. induction msgs as [|x msgs IH]; intros acc len; simpl.
  - f_equal. lia.
  - rewrite IH, reverse_cons, <- (assoc_L (++)). f_equal. lia.
Qed.

Lemma countdown_S n : countdown (Z.of_nat (S n)) = Z.of_nat n :: countdown (Z.of_nat n).
Proof.
  unfold countdown. by rewrite seqZ_S, reverse_snoc, Z.add_0_l.
Qed.

Lemma write_back xs rest tail :
  length rest = length xs ->
  foldl write_iovec (rest ++ tail) (zip (countdown (Z.of_nat (length xs))) (reverse xs))
    = xs ++ tail.
Proof.
  revert rest tail. induction xs as [|x xs IH] using rev_ind; intros rest tail Hlen.
  - by destruct rest.
  - rewrite length_app, Nat.add_1_r in *. rewrite countdown_S, reverse_snoc. simpl.
    destruct rest as [|r rest _] using rev_ind; [done|].
    rewrite length_app in Hlen. simpl in Hlen. unfold write_iovec at 2. simpl.
    rewrite Nat2Z.id, <- (assoc_L (++)). replace (length xs) with (length rest + 0)%nat by lia.
    rewrite insert_app_r. simpl. rewrite Nat.add_0_r, <- (assoc_L (++)).
    replace (length rest) with (length xs) by lia. apply IH. lia.
Qed.

Lemma marshal_order msgs :
  marshal msgs = (cstring_len <$> msgs, Z.of_nat (length msgs)).
Proof.
  unfold marshal. rewrite use_lens, app_nil_r, Z.add_0_l. f_equal.
  rewrite <- (length_fmap cstring_len msgs). set (l := cstring_len <$> msgs).
  rewrite <- (app_nil_r (replicate _ _)), write_back; [apply app_nil_r|].
  rewrite length_replicate. lia.
Qed.

(** ** From one Haskell program to another *)

Lemma marshalled_ok msgs : Forall seg_ok (cstring_len <$> msgs).
Proof. apply Forall_fmap, Forall_true. intros x. unfold seg_ok. simpl. lia. Qed.

Lemma marshalled_gathered msgs : gathered (cstring_len <$> msgs) = concat msgs.
Proof.
  induction msgs as [|x msgs IH]; [done|]. cbn [fmap list_fmap concat].
  rewrite gathered_cons. unfold seg_bytes at 1. simpl.
  rewrite Nat2Z.id, take_ge by lia. f_equal. exact IH.
Qed.

Lemma marshalled_total msgs :
  total (cstring_len <$> msgs) = Z.of_nat (length (concat msgs)).
Proof. by rewrite <- gathered_length, marshalled_gathered by apply marshalled_ok. Qed.

(** Mero delivers what was posted: the receiver's fop has the sender's data. *)
Definition received (f : m0_fop) (w : world) (pit : ptr) : Prop :=
  exists a f', pit = addr a /\ heap w !! a = Some (OFop f') /\ f_data f' = f_data f.

Lemma getFragments_reads segs f w pit :
  Forall seg_ok segs -> total segs <= INT_MAX ->
  f_data f = Some (FD_rpclite (payload segs)) -> received f w pit ->
  wp (getFragments pit) (fun r w' => r = Ok [gathered segs] /\ w' = w) w.
Proof.
  intros Hok Hmax Hf (a & f' & -> & Ha & Hd). rewrite Hf in Hd.
  pose proof (gathered_length segs Hok) as Hlen.
  assert (Hrd : rpclite_data f' = Some (payload segs)) by (unfold rpclite_data; by rewrite Hd).
  unfold getFragments, rpc_get_fragments_count, rpc_get_fragment_count, rpc_get_fragment, pack.
  assert (Hs : s32 (total segs) = total segs).
  { apply s32_small. unfold INT_MIN. lia. }
  wp_step. wp_step. change (seqZ 0 1) with [0]. cbn [for_M].
  wp_go; simplify_eq/=; rewrite Hs in *.
  - split; [|done]. by rewrite take_ge by lia.
  - apply andb_false_iff in Heqb as [?|?]; lia.
Qed.

(** One fop was posted, and whoever receives it reads the message, joined. *)
Definition transfers (msgs : list ByteString) (evs : list event) : Prop :=
  exists item f, posted evs = [(item, f)] /\
    forall w2 pit, received f w2 pit ->
      wp (getFragments pit) (fun r w3 => r = Ok [concat msgs] /\ w3 = w2) w2.

Section Message.
Context (msgs : list ByteString).
Hypothesis Hbytes : Z.of_nat (length (concat msgs)) <= INT_MAX.
Hypothesis Hparts : Z.of_nat (length msgs) <= INT_MAX.

Lemma parts_s32 : s32 (Z.of_nat (length msgs)) = Z.of_nat (length (cstring_len <$> msgs)).
Proof using Hparts. rewrite length_fmap. apply s32_small. unfold INT_MIN. lia. Qed.

Lemma posted_transfers evs item f :
  posted evs = [(item, f)] -> f_data f = Some (FD_rpclite (payload (cstring_len <$> msgs))) ->
  transfers msgs evs.
Proof using Hbytes.
  intros Hp Hf. exists item, f. split; [done|]. intros w2 pit Hrec.
  rewrite <- marshalled_gathered. eapply getFragments_reads; [apply marshalled_ok| |done..].
  by rewrite marshalled_total.
Qed.

(** C34. Messages between Haskell programs: whatever list of byte strings is
    sent, blocking or not, up to [INT_MAX] bytes, nothing undefined happens;
    when [sendBlocking] returns or throws, and when [send] returns, exactly one
    fop has been posted, from which the receiver's [getFragments] reads the
    concatenation of the list as a single fragment; when [send] throws, it
    posted nothing or such a fop that Mero refused. *)
Theorem haskell_message_roundtrip c timeout wcb w :
  wp (sendBlocking c msgs timeout) (fun r w' => exists evs, ran evs w w' /\
    r <> Undefined /\ forall s, r = Ok s -> transfers msgs evs) w /\
  wp (send c msgs timeout wcb) (fun r w' => exists evs, ran evs w w' /\
    r <> Undefined /\ (r = Ok (inr tt) -> transfers msgs evs) /\
    forall s, r = Ok (inl s) -> posted evs = [] \/ transfers msgs evs) w.
Proof using Hbytes Hparts.
  pose proof (marshalled_ok msgs) as Hok. pose proof (marshalled_total msgs) as Htot.
  split; [unfold sendBlocking|unfold send]; rewrite marshal_order, parts_s32; wp_step.
  - eapply wp_mono; [apply rpc_send_blocking_spec; [done|lia]|].
    intros r w' [_ (evs & Hr & H)].
    destruct r as [rc| | |]; [|exists evs; split; [done|]; by split..|done].
    wp_step. exists evs. split; [done|]. split; [done|]. intros s _.
    destruct H as (_ & a & f & e & rep & Hf & (f' & dl & Hd & _ & Hp & _) & _).
    eapply posted_transfers; [exact Hp|congruence].
  - eapply wp_mono; [apply rpc_send_spec; [done|lia]|].
    intros r w' [_ (evs & Hr & _ & H)].
    destruct r as [rc| | |]; [|exists evs; split; [done|]; by split..|done].
    wp_step. exists evs. split; [done|]. split; [done|].
    destruct H as [(Hp & Hrc & _)|(a & now & dl & iv & rm & _ & _ & _ & Hp & _)].
    + unfold check_rc. rewrite (proj2 (Z.eqb_neq rc 0) Hrc). split; [done|]. by left.
    + assert (transfers msgs evs) by by eapply posted_transfers. split; [done|]. by right.
Qed.
End Message.

End RPCLite.

(** ** Result codes *)

Lemma fromEnum_toEnum i : fromEnum (toEnum i) = i.
Proof. unfold toEnum. repeat (destruct (_ =? _) eqn:?; reflect_Z; [done|]). done. Qed.

(** Decoding results. A result code is recovered from its status, and a
    blocking call that times out throws [RPC_TIMEDOUT]. But the callback of an
    asynchronous send gets the enumerators of the C status decoded as if they
    were error numbers: success is recognised, and every failure, a timeout
    included, is [RPC_FAILED] of 1 or 2, never [RPC_TIMEDOUT]. *)
Theorem reply_timeout_not_recognised :
  (forall i, fromEnum (toEnum i) = i) /\ check_rc (- ETIMEDOUT) = inl RPC_TIMEDOUT /\
  forall error, reply_status_seen (status_of error) =
    if error =? 0 then RPC_OK
    else if error =? - ETIMEDOUT then RPC_FAILED 1 else RPC_FAILED 2.
Proof.
  split; [exact fromEnum_toEnum|]. split; [done|]. intros error. unfold status_of, ETIMEDOUT.
  destruct (error =? 0) eqn:?, (error =? - (110)) eqn:?, (- error =? 110) eqn:?,
    (- error =? 0) eqn:?; reflect_Z; try lia; done.
Qed.

(** ** Witness *)

Lemma haskell_message_roundtrip_witness :
  let msgs := [[115; 101]; []; [103; 49; 0]] in
  wp (sendBlocking conn0 msgs 1) (fun r w' => exists evs, ran evs (start roomy) w' /\
    r <> Undefined /\ forall s, r = Ok s -> transfers (E := fixed_env roomy) msgs evs) (start roomy) /\
  (sendBlocking conn0 msgs 1 (start roomy)).1 = Ok (inr tt).
Proof.
  intros msgs. split; [|vm_compute; reflexivity].
  refine (proj1 (haskell_message_roundtrip msgs _ _ conn0 1 11 (start roomy))); vm_compute;
    discriminate.
Defined.

End RPCLite.
