(* ===== verification/Library.v ===== *)
(** rpclite as its clients see it: an abstract state (what is open, what is in
    flight, what was sent, the times recorded), the operations of rpclite.h with
    their possible outcomes. That the C functions implement them is proved in
    LibraryImpl.v.

    [Class RpcLite] is the interface: clients are verified against it in a logic
    that mentions abstract states only ([awp]); the instance [rpclite] is the
    implementation. *)

From S2P Require Import Prelude CTypes Machine Stats Resources RpcInit Endpoint Connection.
From S2P Require Import Payload Send InFlight Epoch.
Local Open Scope Z_scope.

Module Library.
Import Stats RpcInit Endpoint Connection Payload Send Epoch.

(** * The abstract state *)

(** What the caller gave with an asynchronous message. *)
Abbreviation key := (Z * ptr * ptr)%type.

(** The role of an address that the library allocated. *)
Inductive role :=
| Endpoint (reqh : positive)     (* rpc_endpoint_t, and its request handler *)
| Reqh (e : positive)            (* the request handler of that endpoint *)
| Connection                     (* rpc_connection_t *)
| Message (k : key)              (* an asynchronous message that Mero accepted *)
| Leaked                         (* what a failed operation left allocated *)
| LeakedReqh.                    (* the same, for a request handler still initialised *)

Record lib := Lib {
  up : bool;                                          (* between rpc_init and rpc_fini *)
  objs : gmap positive role;
  conn_times : list Z;                                (* times recorded in the statistics *)
  send_times : list Z;
  max_epoch : Z;
  listeners : rpc_listen_callbacks;
  sent : list rpclite_fop;                            (* the payloads posted *)
  answered : list (Z * ptr * ptr * rpc_status);       (* the reply callbacks made *)
  own : list resource;                                (* Mero objects the client initialised itself *)
}.

Definition set_up (b : bool) (l : lib) : lib :=
  Lib b (objs l) (conn_times l) (send_times l) (max_epoch l) (listeners l) (sent l) (answered l) (own l).
Definition add (a : positive) (r : role) (l : lib) : lib :=
  Lib (up l) (<[a := r]> (objs l)) (conn_times l) (send_times l) (max_epoch l) (listeners l) (sent l) (answered l) (own l).
Definition remove (a : positive) (l : lib) : lib :=
  Lib (up l) (delete a (objs l)) (conn_times l) (send_times l) (max_epoch l) (listeners l) (sent l) (answered l) (own l).
Definition timed_conn (t : Z) (l : lib) : lib :=
  Lib (up l) (objs l) (conn_times l ++ [t]) (send_times l) (max_epoch l) (listeners l) (sent l) (answered l) (own l).
Definition timed_send (t : Z) (l : lib) : lib :=
  Lib (up l) (objs l) (conn_times l) (send_times l ++ [t]) (max_epoch l) (listeners l) (sent l) (answered l) (own l).
Definition set_epoch (x : Z) (l : lib) : lib :=
  Lib (up l) (objs l) (conn_times l) (send_times l) x (listeners l) (sent l) (answered l) (own l).
Definition listen (cbs : rpc_listen_callbacks) (l : lib) : lib :=
  Lib (up l) (objs l) (conn_times l) (send_times l) (max_epoch l) cbs (sent l) (answered l) (own l).
Definition post (d : rpclite_fop) (l : lib) : lib :=
  Lib (up l) (objs l) (conn_times l) (send_times l) (max_epoch l) (listeners l) (sent l ++ [d]) (answered l) (own l).
Definition answer (k : key) (st : rpc_status) (l : lib) : lib :=
  Lib (up l) (objs l) (conn_times l) (send_times l) (max_epoch l) (listeners l) (sent l) (answered l ++ [(k, st)]) (own l).

Definition hold (r : resource) (l : lib) : lib :=
  Lib (up l) (objs l) (conn_times l) (send_times l) (max_epoch l) (listeners l) (sent l) (answered l)
    (r :: own l).

(** Nothing open and nothing done yet; the statistics may hold earlier times. *)
Definition closed (cts sts : list Z) (m : Z) (cbs : rpc_listen_callbacks) : lib :=
  Lib false ∅ cts sts m cbs [] [] [].

Definition no_listeners : rpc_listen_callbacks :=
  {| connection_callback := None; disconnected_callback := None; receive_callback := None |}.

(** * The operations *)

(** Handles are pointers, as in C; [out] is the address of the caller's
    variable. [Call] is a call of the client to Mero or libc; [Reply] is Mero
    answering the message at address [a] with an error code and a reply. *)
Inductive op :=
| Init | Fini
| Create (s : string) (out : ptr)
| Listen (s : string) (cbs : option rpc_listen_callbacks) (out : ptr)
| Destroy (e : ptr)
| Connect (e : ptr) (s : string) (timeout : Z) (out : ptr)
| Disconnect (c : ptr) (timeout : Z)
| ReleaseConn (c : ptr)
| SendBlocking (c : ptr) (segs : list iovec) (timeout : Z)
| SendAsync (c : ptr) (segs : list iovec) (f : Z) (ctx : ptr) (timeout : Z)
| SendEpoch (c : ptr) (our timeout : Z)
| Call (c : call)
| Reply (a : positive) (e : Z) (rep : ptr).

Definition ret (o : op) : Type :=
  match o with
  | Create _ _ | Listen _ _ _ | Connect _ _ _ _ => Z * ptr
  | Fini | Destroy _ | ReleaseConn _ | Reply _ _ _ => unit
  | SendEpoch _ _ _ => Z * option Z
  | Call c => ans c
  | _ => Z
  end.

Definition is_endpoint (l : lib) (p : ptr) : Prop :=
  exists a b, p = addr a /\ objs l !! a = Some (Endpoint b).
Definition is_connection (l : lib) (p : ptr) : Prop :=
  exists a, p = addr a /\ objs l !! a = Some Connection.

(** A call that is none of the library's business. *)
Definition foreign (c : call) (a : ans c) : Prop :=
  posted_of (Ev c a) = None /\ callback_of (Ev c a) = None /\
  match action_of c a with Release _ => False | _ => True end.

(** When a caller may use an operation. *)
Definition legal (l : lib) (o : op) : Prop :=
  match o with
  | Init => up l = false
  | Fini => up l = true
  | Create _ out | Listen _ _ out => up l = true /\ out <> Null
  | Destroy e => up l = true /\ is_endpoint l e
  | Connect e _ _ out => (up l = true /\ is_endpoint l e) /\ out <> Null
  | Disconnect c _ | ReleaseConn c | SendEpoch c _ _ => up l = true /\ is_connection l c
  | SendBlocking c segs _ | SendAsync c segs _ _ _ =>
      (up l = true /\ is_connection l c) /\ Forall seg_ok segs /\ total segs <= INT_MAX
  | Call c => forall a, foreign c a
  | Reply a e _ => (exists k, objs l !! a = Some (Message k)) /\ e <> INT_MIN
  end.

Section Library.
Context {E : Env}.

(** ** What an operation returns and does *)

Definition is_time (t : Z) : Prop := 0 <= t < 2 ^ 64.

Definition created (l : lib) (v : Z * ptr) (l' : lib) : Prop :=
  (v.1 <> 0 -> create_error v.1) /\ exists a, v.2 = addr a /\ objs l !! a = None /\
  if v.1 =? 0 then
    exists b, objs l !! b = None /\ b <> a /\ l' = add a (Endpoint b) (add b (Reqh a) l)
  else
    l' = add a Leaked l \/
    exists b (r : role), (r = Leaked \/ r = LeakedReqh) /\ objs l !! b = None /\ b <> a /\
      l' = add a Leaked (add b r l).

Definition connected (l : lib) (v : Z * ptr) (l' : lib) : Prop :=
  connect_error v.1 /\ exists a, v.2 = addr a /\ objs l !! a = None /\
  if v.1 =? 0 then exists t, is_time t /\ l' = timed_conn t (add a Connection l)
  else l' = add a Leaked l \/ exists t, is_time t /\ l' = timed_conn t (add a Leaked l).

Definition disconnected (l : lib) (c : ptr) (l' : lib) : Prop :=
  exists a, c = addr a /\ objs l !! a = Some Connection /\ l' = remove a l.

Definition outcome (l : lib) (o : op) : ret o -> lib -> Prop :=
  match o return ret o -> lib -> Prop with
  | Init => fun rc l' => answers (m0_net_domain_init net_dom) rc /\ l' = set_epoch 0 (if rc =? 0 then set_up true l else l)
  | Fini => fun _ l' => l' = set_up false l
  | Create _ _ => created l
  | Listen _ cbs _ => created (listen (default no_listeners cbs) l)
  | Destroy e => fun _ l' => exists a b,
      e = addr a /\ objs l !! a = Some (Endpoint b) /\ l' = remove a (remove b l)
  | Connect _ _ _ _ => connected l
  | Disconnect c _ => fun _ l' => disconnected l c l'
  | ReleaseConn c => fun _ l' => disconnected l c l'
  | SendBlocking _ segs _ => fun _ l' => l' = post (payload segs) l
  | SendAsync c segs f ctx _ => fun rc l' =>
      (rc <> 0 /\ l' = l) \/
      exists a, objs l !! a = None /\
        l' = post (payload segs) (add a (if rc =? 0 then Message (f, c, ctx) else Leaked) l)
  | SendEpoch _ our _ => fun v l' =>
      if our <? max_epoch l then v = (0, Some (max_epoch l)) /\ l' = l
      else (v.1 = 0 <-> is_Some v.2) /\ l' = set_epoch our l
  | Call c => fun a l' => answers c a /\
      match action_of c a with Acquire r => l' = hold r l | _ => l' = l end
  | Reply a e _ => fun _ l' => exists k, objs l !! a = Some (Message k) /\
      if e =? 0 then exists t, is_time t /\ l' = answer k RPC_OK (remove a (timed_send t l))
      else l' = answer k (status_of e) (remove a l)
  end.

(** ** The C functions *)

Definition exec (o : op) : M (ret o) :=
  match o return M (ret o) with
  | Init => rpc_init
  | Fini => rpc_fini
  | Create s out => rpc_create_endpoint s out
  | Listen s cbs out => rpc_listen s cbs out
  | Destroy e => rpc_destroy_endpoint e
  | Connect e s timeout out => rpc_connect e s timeout out
  | Disconnect c timeout => rpc_disconnect c timeout
  | ReleaseConn c => rpc_release_connection c
  | SendBlocking c segs timeout => rpc_send_blocking c segs (Z.of_nat (length segs)) timeout
  | SendAsync c segs f ctx timeout =>
      rpc_send c segs (Z.of_nat (length segs)) (Some f) ctx timeout
  | SendEpoch c our timeout => rpc_send_epoch_blocking c our timeout
  | Call c => do! c
  | Reply a e rep => fun w => rpclite_replied (InFlight.item_of a) (InFlight.mark a e rep w)
  end.

(** The message does not fit the session. *)
Definition oversized (c : ptr) (segs : list iovec) : Prop :=
  exists item f size max, rpclite_data f = Some (payload segs) /\
    answers (m0_fop_payload_size item f) size /\
    answers (m0_rpc_session_get_max_item_size (rpc_get_session c)) max /\
    max < u64 (size + ITEM_SIZE_CUSHION).

Definition no_memory (r : alloc_req) : Prop := answers (alloc r) false.

(** Why an operation may end the process instead of returning. *)
Definition excused (l : lib) (o : op) (r : res (ret o)) : Prop :=
  match o, r with
  | (Create s _ | Listen s _ _), Aborted => fits s = false \/ no_memory A_reqh
  | (Create _ _ | Listen _ _ _), Undefined => no_memory A_endpoint
  | Connect _ s _ _, Aborted => fits s = false
  | Connect _ _ _ _, Undefined =>
      no_memory A_connection \/ Z.of_nat (length (conn_times l)) = 2 ^ 32 - 1
  | SendBlocking c segs _, Aborted =>
      answers (m0_fop_alloc_at (rpc_get_session c) m0_fop_rpclite_fopt) false \/
      no_memory (A_array (total segs)) \/ success_without_reply c
  | SendAsync c segs _ _ _, Aborted => no_memory A_message \/ no_memory (A_array (total segs))
  | (SendBlocking c segs _ | SendAsync c segs _ _ _), Exited code => code = 1 /\ oversized c segs
  | SendEpoch c _ _, Aborted =>
      answers (m0_fop_alloc_at (rpc_get_session c) m0_rpc_fop_session_terminate_fopt) false \/
      success_without_reply c
  | SendEpoch _ _ _, Exited code => code = 1
  | Reply _ e _, Undefined => e = 0 /\ Z.of_nat (length (send_times l)) = 2 ^ 32 - 1
  | _, _ => False
  end.

(** * The interface

    What clients rely on: a relation between abstract states and worlds that
    holds of a closed library, that every operation keeps, and that tells what
    a closed library leaves behind. [w0] and [R0] are the world and the Mero
    objects held when the client started. *)

Definition payloads (evs : list event) : list rpclite_fop :=
  omap (fun x : ptr * m0_fop => rpclite_data x.2) (posted evs).

(** What each object of the library holds in Mero. *)
Definition role_resources (a : positive) (r : role) : list resource :=
  match r with
  | Endpoint b => endpoint_resources (addr a) (addr b)
  | Connection => connection_resources (addr a)
  | LeakedReqh => [RReqh (addr a)]
  | _ => []
  end.

Definition objs_resources (m : gmap positive role) : list resource :=
  map_to_list m ≫= fun x => role_resources x.1 x.2.

Definition resources (l : lib) : list resource :=
  (if up l then rpc_resources else []) ++ objs_resources (objs l) ++ own l.

(** What an abstract state says of the heap and of the calls made since the
    start: the heap is the client's and one block for every object, and the
    Mero objects, payloads and callbacks are those of the state. *)
Definition accounts (w0 : world) (R0 : list resource) (l : lib) (w : world) : Prop :=
  (forall a o, heap w !! a = Some o -> heap w0 !! a = Some o \/ is_Some (objs l !! a)) /\
  (forall a o, heap w0 !! a = Some o -> heap w !! a = Some o /\ objs l !! a = None) /\
  (forall a r, objs l !! a = Some r -> is_Some (heap w !! a)) /\
  exists evs R, ran evs w0 w /\ held R0 evs = Some R /\ R ≡ₚ resources l ++ R0 /\
    payloads evs = sent l /\ callbacks evs = answered l.

Lemma accounts_heap w R l w' : accounts w R l w' ->
  heap w ⊆ heap w' /\
  (dom (heap w') = dom (heap w) ∪ dom (objs l) /\ dom (heap w) ## dom (objs l)) /\
  (objs l = ∅ -> heap w' = heap w).
Proof.
  intros (Ha & Hb & Hd & _). split; [|split; [split|]].
  - apply map_subseteq_spec. intros a o Hao. by apply Hb.
  - apply set_eq. intros a. rewrite elem_of_union, !elem_of_dom. split.
    + intros [o Ho]. destruct (Ha a o Ho) as [->|]; eauto.
    + intros [[o Ho]|[r Hr']]; [destruct (Hb a o Ho) as [-> _]; eauto|by eapply Hd].
  - apply elem_of_disjoint. intros a [o Ho]%elem_of_dom [r Hr]%elem_of_dom.
    destruct (Hb a o Ho). congruence.
  - intros He. apply map_eq. intros a. destruct (heap w' !! a) as [o|] eqn:Hw'.
    + destruct (Ha a o Hw') as [->|Hm]; [done|]. rewrite He in Hm. by destruct Hm.
    + destruct (heap w !! a) as [o|] eqn:Hwa; [|done]. destruct (Hb a o Hwa). congruence.
Qed.

Class RpcLite := {
  represents : world -> list resource -> lib -> world -> Prop;
  represents_closed : forall w R cts sts rs1 rs2,
    rpc_stat (glob w) = [rs1; rs2] -> recorded cts rs1 -> recorded sts rs2 ->
    represents w R (closed cts sts (client_max_epoch (glob w)) (rpclite_listen_cbs (glob w))) w;
  represents_op : forall w0 R0 l w o,
    represents w0 R0 l w -> legal l o ->
    wp (exec o) (fun r w' => match r with
                             | Ok v => exists l', outcome l o v l' /\ represents w0 R0 l' w'
                             | r => excused l o r
                             end) w;
  represents_stats : forall w0 R0 l w, represents w0 R0 l w -> exists rs1 rs2,
    rpc_stat (glob w) = [rs1; rs2] /\ recorded (conn_times l) rs1 /\ recorded (send_times l) rs2;
  represents_epoch : forall w0 R0 l w,
    represents w0 R0 l w -> client_max_epoch (glob w) = max_epoch l;
  represents_hi : forall w0 R0 l w, represents w0 R0 l w -> m0init_hi (glob w) = m0init_hi (glob w0);
  represents_accounts : forall w0 R0 l w, represents w0 R0 l w -> accounts w0 R0 l w;
}.

(** ** Clients *)

Inductive client :=
| Done
| Use (o : op) (k : ret o -> client).

Fixpoint run (c : client) : M unit :=
  match c with
  | Done => mret tt
  | Use o k => v ← exec o; run (k v)
  end.

Fixpoint respects (l : lib) (c : client) (P : lib -> Prop) : Prop :=
  match c with
  | Done => P l
  | Use o k => legal l o /\ forall v l', outcome l o v l' -> respects l' (k v) P
  end.

(** Everything is closed but for what failed operations left behind. *)
Definition is_leak (r : role) : bool :=
  match r with Leaked | LeakedReqh => true | _ => false end.
Definition tidy (l : lib) : Prop :=
  up l = false /\ own l = [] /\ map_Forall (fun _ r => is_leak r = true) (objs l).

(** * Verifying clients

    [awp m Q X l]: started in the abstract state [l], the client [m] returns
    with a value and an abstract state in [Q], or ends the process in a way
    that [X] allows. Worlds do not appear. *)

Inductive crash := CAborted | CExited (code : Z) | CUndefined.

Definition crash_of {A} (r : res A) : option crash :=
  match r with
  | Ok _ => None
  | Aborted => Some CAborted
  | Exited n => Some (CExited n)
  | Undefined => Some CUndefined
  end.

Definition ends {A} (Q : A -> world -> Prop) (X : crash -> Prop) (r : res A) (w : world) : Prop :=
  match r with
  | Ok a => Q a w
  | r => forall c, crash_of r = Some c -> X c
  end.

Section Client.
Context {RL : RpcLite} (w0 : world) (R0 : list resource).

Definition awp {A} (m : M A) (Q : A -> lib -> Prop) (X : crash -> Prop) (l : lib) : Prop :=
  forall w, represents w0 R0 l w ->
    wp m (ends (fun a w' => exists l', Q a l' /\ represents w0 R0 l' w') X) w.

Section Rules.
Context {A : Type}.
Implicit Types (Q : A -> lib -> Prop) (X : crash -> Prop) (l : lib).

Lemma awp_ret (a : A) Q X l : Q a l -> awp (mret a) Q X l.
Proof. intros HQ w Hw. apply wp_ret. by exists l. Qed.

Lemma awp_exit n Q X l : X (CExited n) -> awp (exit n) Q X l.
Proof. intros HX w Hw. apply wp_exit. by intros c [= <-]. Qed.

Lemma awp_bind {B} (m : M B) (k : B -> M A) Q X l :
  awp m (fun b l' => awp (k b) Q X l') X l -> awp (m ≫= k) Q X l.
Proof.
  intros H w Hw. apply wp_bind. eapply wp_mono; [by apply H|].
  intros [b| | |] w' Hr; [|by intros c [= <-]; apply Hr..].
  destruct Hr as (l' & Hk & Hw'). by apply Hk.
Qed.

Lemma awp_mono (m : M A) Q Q' X l :
  awp m Q X l -> (forall a l', Q a l' -> Q' a l') -> awp m Q' X l.
Proof.
  intros H HQ w Hw. eapply wp_mono; [by apply H|].
  intros [a| | |] w' Hr; [|exact Hr..]. destruct Hr as (l' & ? & ?). exists l'. auto.
Qed.
End Rules.

(** An operation of the library. *)
Lemma awp_op o Q X l :
  legal l o -> (forall v l', outcome l o v l' -> Q v l') ->
  (forall r c, excused l o r -> crash_of r = Some c -> X c) ->
  awp (exec o) Q X l.
Proof.
  intros Hl HQ HX w Hw. eapply wp_mono; [by apply represents_op|].
  intros [v| | |] w' Hr; [|intros c Hc; by eapply HX..].
  destruct Hr as (l' & Ho & Hw'). exists l'. auto.
Qed.

(** A reader of the statistics. *)
Lemma awp_reader {A} t (f : rpc_statistic -> A) Q X l :
  (forall rs, recorded (match t with RPC_STAT_CONN => conn_times l | RPC_STAT_SEND => send_times l end) rs ->
     Q (f rs) l) ->
  awp (rs ← stat_entry t; mret (f rs)) Q X l.
Proof.
  intros HQ w Hw. destruct (represents_stats w0 R0 l w Hw) as (rs1 & rs2 & Hst & H1 & H2).
  destruct t.
  - eapply (wp_reader _ _ rs1); [by rewrite Hst|]. exists l. auto.
  - eapply (wp_reader _ _ rs2); [by rewrite Hst|]. exists l. auto.
Qed.

(** ** Arbitrary clients

    A client is a tree: it ends, or uses an operation and goes on according to
    the result. [respects l c P]: whatever the specification lets the
    operations return, the client uses each of them when it may, and ends in
    an abstract state in [P]. *)

(** [stops l c w k w']: run from the abstract state [l] in the world [w], the
    operations of the client return, each with an outcome that the specification
    allows, until one of them ends the process as [k] in [w'], for a reason that
    the specification lists for that operation in the state reached. *)
Inductive stops (l : lib) : client -> world -> crash -> world -> Prop :=
| stops_here o k w r x w' :
    represents w0 R0 l w -> legal l o -> exec o w = (r, w') -> crash_of r = Some x -> excused l o r ->
    stops l (Use o k) w x w'
| stops_later o k w v l1 w1 x w' :
    exec o w = (Ok v, w1) -> outcome l o v l1 -> stops l1 (k v) w1 x w' -> stops l (Use o k) w x w'.

Lemma client_runs c P l w :
  respects l c P -> represents w0 R0 l w ->
  wp (run c) (fun r w' => match r with
                          | Ok _ => exists l', P l' /\ represents w0 R0 l' w'
                          | r => exists x, crash_of r = Some x /\ stops l c w x w'
                          end) w.
Proof.
  revert l w. induction c as [|o k IH]; intros l w Hc Hw; cbn [run respects] in *.
  - apply wp_ret. by exists l.
  - destruct Hc as [Hl Hk]. apply wp_bind. pose proof (represents_op w0 R0 l w o Hw Hl) as H.
    unfold wp in H |- *. destruct (exec o w) as [r w1] eqn:Hex.
    destruct r as [v| |n|]; [|eexists; (split; [reflexivity|]); by eapply stops_here..].
    destruct H as (l1 & Ho & Hw1). pose proof (IH v l1 w1 (Hk v l1 Ho) Hw1) as H. unfold wp in H.
    destruct (run (k v) w1) as [[u| |n|] w']; [done|..];
      destruct H as (x & Hx & Hs); exists x; (split; [done|]); by eapply stops_later.
Qed.
End Client.

End Library.
End Library.
