(* ===== verification/Typing.v ===== *)
(** The values of C types. Every integer that the library stores - in the
    statistics, the epoch, the items and payloads of fops, the time stamps of
    messages - is a value of its C type, and the data of a fop is the struct
    that its type announces. [tp P m] is the typing judgement for a function:
    from a well-typed process it ends in a well-typed process, and what it
    returns satisfies [P]. The rules are syntax-directed. *)

From S2P Require Import Prelude CTypes Machine Stats Resources RpcInit Endpoint Connection.
From S2P Require Import Payload Send InFlight Epoch Library.
Local Open Scope Z_scope.

Module Typing.
Import Stats RpcInit Endpoint Connection Payload Send Epoch Library.

(** * Well-typed states *)

Definition is_byte (x : Z) : Prop := 0 <= x < 2 ^ 8.
Definition is_u32 (x : Z) : Prop := 0 <= x < 2 ^ 32.
Definition is_u64 (x : Z) : Prop := 0 <= x < 2 ^ 64.
Definition is_int (x : Z) : Prop := INT_MIN <= x <= INT_MAX.

Definition typed_statistic (rs : rpc_statistic) : Prop :=
  is_u64 (rs_avg_time rs) /\ is_u64 (rs_max_time rs) /\ is_u64 (rs_tot_time rs) /\ is_u32 (rs_num rs).

(** The counter of the array is its length, up to the width of the counter. *)
Definition typed_payload (d : rpclite_fop) : Prop :=
  match f_fragments d with
  | None => f_count d = 0
  | Some arr => f_count d = u32 (Z.of_nat (length arr)) /\ Forall is_byte arr
  end.

Definition typed_data (d : fop_data) : Prop :=
  match d with
  | FD_rpclite f => typed_payload f
  | FD_rpclite_rep n => is_u32 n
  | FD_session_terminate a b => is_u64 a /\ is_u64 b
  end.

Definition data_type (d : fop_data) : fop_type :=
  match d with
  | FD_rpclite _ => m0_fop_rpclite_fopt
  | FD_rpclite_rep _ => m0_fop_rpclite_rep_fopt
  | FD_session_terminate _ _ => m0_rpc_fop_session_terminate_fopt
  end.

(** The priority is an enumerator of Mero, whose value is a parameter. *)
Definition typed_item (i : m0_rpc_item) : Prop :=
  is_u64 (ri_deadline i) /\ is_u64 (ri_nr_sent_max i) /\ is_u64 (ri_resend_interval i) /\ is_int (ri_error i).

Definition typed_fop (f : m0_fop) : Prop :=
  typed_item (f_item f) /\
  forall d, f_data f = Some d -> f_type f = Some (data_type d) /\ typed_data d.

Definition typed_object (o : object) : Prop :=
  match o with
  | OMessage m => is_u64 (msg_ctime m) /\ typed_fop (msg_fop m)
  | OFop f => typed_fop f
  | OBuf size => is_u64 size
  | _ => True
  end.

Definition typed_globals (g : globals) : Prop :=
  is_u64 (client_max_epoch g) /\ length (rpc_stat g) = RPC_STAT_NR /\ Forall typed_statistic (rpc_stat g).

Section Typing.
Context {E : Env}.

Definition typed (w : world) : Prop :=
  typed_globals (glob w) /\ map_Forall (fun _ o => typed_object o) (heap w).

Definition tp {A} (P : A -> Prop) (m : M A) : Prop :=
  forall w, typed w -> wp m (fun r w' => typed w' /\ forall a, r = Ok a -> P a) w.

(** * The rules *)

Definition any {A} (x : A) : Prop := True.

Section Rules.
Context {A : Type}.
Implicit Types (P : A -> Prop) (m : M A).

Lemma tp_ret P a : P a -> tp P (mret a).
Proof. intros H w Hw. apply wp_ret. split; [done|]. by intros ? [= <-]. Qed.

Lemma tp_bind {B} (Q : B -> Prop) P (m : M B) (k : B -> M A) :
  tp Q m -> (forall b, Q b -> tp P (k b)) -> tp P (m ≫= k).
Proof.
  intros Hm Hk w Hw. apply wp_bind. eapply wp_mono; [by apply Hm|].
  intros [b| | |] w' [Hw' HQ]; [|by split..]. by apply Hk; [apply HQ|].
Qed.

Lemma tp_mono P (P' : A -> Prop) m : tp P m -> (forall a, P a -> P' a) -> tp P' m.
Proof.
  intros H HP w Hw. eapply wp_mono; [by apply H|]. intros r w' [? Hr]. split; [done|]. auto.
Qed.

Lemma tp_exit P n : tp P (exit n).
Proof. intros w Hw. by apply wp_exit. Qed.

Lemma tp_undefined P : tp P undefined.
Proof. intros w Hw. by apply wp_undefined. Qed.

Lemma tp_expect P o : (forall a, o = Some a -> P a) -> tp P (expect o).
Proof. destruct o; intros H; [by apply tp_ret, H|apply tp_undefined]. Qed.

Lemma tp_check rc P (onError next : M A) :
  tp P onError -> tp P next -> tp P (CHECK_RESULT rc onError next).
Proof. unfold CHECK_RESULT. by destruct (rc =? 0). Qed.

Lemma tp_call_fn P f (k : Z -> M A) : (forall i, tp P (k i)) -> tp P (call_fn f k).
Proof. intros H. destruct f; [apply H|apply tp_undefined]. Qed.
End Rules.

Lemma tp_ext c : tp (has_type (aty_of c)) (do! c).
Proof. intros w Hw. apply wp_ext. intros a s Ha _. split; [exact Hw|]. by intros ? [= <-]. Qed.

Lemma tp_call {A} c (P : A -> Prop) k :
  (forall a : ans c, has_type (aty_of c) a -> tp P (k a)) -> tp P (do! c ≫= k).
Proof. intros H. eapply (tp_bind (has_type (aty_of c))); [apply tp_ext|exact H]. Qed.

Lemma tp_assert b : tp any (M0_ASSERT b).
Proof. intros w Hw. by apply wp_assert. Qed.

Lemma tp_get_glob {A} (f : globals -> A) P :
  (forall g, typed_globals g -> P (f g)) -> tp P (get_glob f).
Proof. intros H w Hw. apply wp_get_glob. split; [done|]. intros ? [= <-]. apply H, Hw. Qed.

Lemma tp_mod_glob f : (forall g, typed_globals g -> typed_globals (f g)) -> tp any (mod_glob f).
Proof. intros H w [Hg Hh]. apply wp_mod_glob. split; [|done]. split; [by apply H|done]. Qed.

Lemma typed_insert a o w : typed w -> typed_object o -> typed (set_heap (<[a := o]>) w).
Proof. intros [Hg Hh] Ho. split; [done|]. by apply map_Forall_insert_2. Qed.

Lemma typed_delete a w : typed w -> typed (set_heap (delete a) w).
Proof. intros [Hg Hh]. split; [done|]. by apply map_Forall_delete. Qed.

Lemma tp_new o : typed_object o -> tp any (new o).
Proof. intros Ho w Hw. apply wp_new. intros a _. split; [by apply typed_insert|done]. Qed.

Lemma tp_malloc r o : typed_object o -> tp any (malloc r o).
Proof.
  intros Ho. apply (tp_call (alloc r)). intros [|] _; [by apply tp_new|by apply tp_ret].
Qed.

Lemma tp_load p : tp typed_object (load p).
Proof.
  intros w Hw. unfold wp, load. destruct p as [|[] ?]; try done.
  destruct (heap w !! _) as [o|] eqn:Ho; [|done]. split; [done|]. intros ? [= <-]. by eapply Hw.
Qed.

Lemma tp_store p o : typed_object o -> tp any (store p o).
Proof.
  intros Ho w Hw. unfold wp, store. destruct p as [|[] ?]; try done.
  destruct (heap w !! _) as [o'|]; [|done]. split; [by apply typed_insert|done].
Qed.

Lemma tp_free p : tp any (free p).
Proof.
  intros w Hw. unfold wp, free. destruct p as [|[] []]; try done.
  destruct (heap w !! _) as [o'|]; [|done]. split; [by apply typed_delete|done].
Qed.

Lemma tp_forget p : tp any (forget p).
Proof.
  intros w Hw. unfold wp, forget. destruct p as [|[] ?]; try done. split; [by apply typed_delete|done].
Qed.

Lemma tp_for_each {A} (l : list A) body : (forall x, tp any (body x)) -> tp any (for_each l body).
Proof.
  intros H. induction l as [|x l IH]; simpl; [by apply tp_ret|]. eapply tp_bind; [apply H|]. by intros [] _.
Qed.
(** ** Fops and messages *)

Lemma tp_load_endpoint p : tp any (load_endpoint p).
Proof. eapply tp_bind; [apply tp_load|]. intros [] _; by (apply tp_ret || apply tp_undefined). Qed.

Lemma tp_load_connection p : tp any (load_connection p).
Proof. eapply tp_bind; [apply tp_load|]. intros [] _; by (apply tp_ret || apply tp_undefined). Qed.

Lemma tp_load_message p : tp (fun m => typed_object (OMessage m)) (load_message p).
Proof. eapply tp_bind; [apply tp_load|]. intros [] Ho; by (apply tp_ret || apply tp_undefined). Qed.

Lemma as_fop_typed path o f : as_fop path o = Some f -> typed_object o -> typed_fop f.
Proof. destruct path as [|[] []], o; simpl; intros [= <-] H; by try destruct H. Qed.

Lemma with_fop_typed f o : typed_object o -> typed_fop f -> typed_object (with_fop f o).
Proof. destruct o; try done. simpl. by intros [? _]. Qed.

Lemma tp_load_fop p : tp typed_fop (load_fop p).
Proof.
  eapply tp_bind; [apply tp_load|]. intros o Ho. apply tp_expect. intros f Hf. by eapply as_fop_typed.
Qed.

Lemma tp_store_fop p f : typed_fop f -> tp any (store_fop p f).
Proof.
  intros Hf. eapply tp_bind; [apply tp_load|]. intros o Ho.
  apply (tp_bind any); [by apply tp_expect|]. intros _ _. by apply tp_store, with_fop_typed.
Qed.

Lemma tp_upd_fop p g : (forall f, typed_fop f -> typed_fop (g f)) -> tp any (upd_fop p g).
Proof. intros H. eapply tp_bind; [apply tp_load_fop|]. intros f Hf. by apply tp_store_fop, H. Qed.

Lemma typed_on_item g f : (typed_item (f_item f) -> typed_item (g (f_item f))) -> typed_fop f -> typed_fop (on_item g f).
Proof. intros Hg [Hi Hd]. split; [by apply Hg|done]. Qed.

Lemma typed_new_fop t : typed_fop (new_fop t).
Proof. split; [done|]. intros d [= <-]. by destruct t. Qed.

Lemma tp_fop_alloc_at sess t : tp any (fop_alloc_at sess t).
Proof.
  apply (tp_call (m0_fop_alloc_at sess t)). intros [] _; [|by apply tp_ret]. apply tp_new, typed_new_fop.
Qed.

(** ** The tactic

    Sequences of calls and conditionals by the rules, known functions by the
    hint database. *)

Create HintDb typing.
#[local] Hint Resolve tp_assert tp_free tp_forget tp_load_endpoint tp_load_connection tp_load_message
  tp_load_fop tp_store tp_store_fop tp_malloc tp_new tp_fop_alloc_at tp_get_glob tp_mod_glob : typing.
#[local] Hint Extern 1 (typed_object _) => exact I : typing.

Ltac tp_step :=
  lazymatch goal with
  | |- tp _ (mret _) => apply tp_ret
  | |- tp _ (exit _) => apply tp_exit
  | |- tp _ undefined => apply tp_undefined
  | |- tp _ (ext ?c ≫= _) => apply (tp_call c); cbn; intros ? ?
  | |- tp _ (CHECK_RESULT _ _ _) => apply tp_check
  | |- tp _ (if ?b then _ else _) => destruct b eqn:?
  | |- tp _ (expect _ ≫= _) => eapply (tp_bind any); [by apply tp_expect|intros ? _]
  | |- tp _ (_ ≫= _) => eapply tp_bind; [solve [eauto with typing]|cbn; intros ? ?]
  | |- tp _ (ext ?c) => eapply tp_mono; [apply (tp_ext c)|cbn; intros ? ?]
  | |- tp _ _ => eapply tp_mono; [solve [eauto with typing]|cbn; intros ? ?]
  end.
Ltac tp_go := repeat tp_step; try done.

(** ** Statistics *)

Lemma tp_stat_entry t : tp typed_statistic (stat_entry t).
Proof.
  apply (tp_bind (Forall typed_statistic)); [apply tp_get_glob; by intros g (_ & _ & H)|].
  intros l Hl. apply tp_expect. intros rs Hrs. by eapply Forall_lookup_1.
Qed.

Lemma tp_upd_stat t f :
  (forall rs rs', typed_statistic rs -> f rs = Some rs' -> typed_statistic rs') -> tp any (upd_stat t f).
Proof.
  intros H. eapply tp_bind; [apply tp_stat_entry|]. intros rs Hrs.
  apply (tp_bind typed_statistic); [apply tp_expect; intros rs' Hf; by eapply H|].
  intros rs' Hrs'. apply tp_mod_glob. intros g (He & Hl & Hst). split; [done|]. split.
  - simpl. by rewrite length_insert.
  - by apply Forall_insert.
Qed.

Lemma upd_avg_typed rs rs' : typed_statistic rs -> upd_avg rs = Some rs' -> typed_statistic rs'.
Proof.
  unfold upd_avg. intros (Ha & Hm & Ht & Hn). destruct (rs_num rs =? 0) eqn:Hz; [done|]. intros [= <-]. reflect_Z.
  split; [|done]. unfold is_u64, is_u32 in *. simpl. split; [apply Z.div_pos; lia|].
  apply Z.div_lt_upper_bound; nia.
Qed.

Lemma tp_add_rpc_stat_record t time : is_u64 time -> tp any (add_rpc_stat_record t time).
Proof.
  intros Htime. unfold add_rpc_stat_record. tp_step.
  eapply tp_bind; [apply tp_upd_stat; intros rs rs' (Ha & Hm & Ht & _) [= <-]|intros _ _].
  { do 3 (split; [done|]). apply u32_range. }
  eapply tp_bind; [apply tp_upd_stat; intros rs rs' (Ha & Hm & _ & Hn) [= <-]|intros _ _].
  { do 2 (split; [done|]). split; [apply u64_range|done]. }
  eapply tp_bind; [apply tp_upd_stat; intros rs rs' (Ha & Hm & Ht & Hn) [= <-]|intros _ _].
  { unfold upd_max. by destruct (rs_max_time rs <? time). }
  eapply tp_bind; [apply tp_upd_stat; apply upd_avg_typed|]. intros _ _. by tp_step.
Qed.

Lemma tp_reader t f (P : Z -> Prop) :
  (forall rs, typed_statistic rs -> P (f rs)) -> tp P (rs ← stat_entry t; mret (f rs)).
Proof. intros H. eapply tp_bind; [apply tp_stat_entry|]. intros rs Hrs. by apply tp_ret, H. Qed.

(** ** Start, endpoints, connections *)

Lemma tp_rpc_stat_init : tp any rpc_stat_init.
Proof. apply tp_for_each. intros i. by tp_step. Qed.
Lemma tp_rpc_stat_fini : tp any rpc_stat_fini.
Proof. apply tp_for_each. intros i. by tp_step. Qed.
#[local] Hint Resolve tp_rpc_stat_init tp_rpc_stat_fini tp_add_rpc_stat_record : typing.

Lemma tp_rpclite_fop_init : tp (eq 0) rpclite_fop_init.
Proof. unfold rpclite_fop_init. tp_go. Qed.
Lemma tp_rpclite_fop_fini : tp any rpclite_fop_fini.
Proof. unfold rpclite_fop_fini. tp_go. Qed.
#[local] Hint Resolve tp_rpclite_fop_init tp_rpclite_fop_fini : typing.

Lemma typed_set_max_epoch x g : is_u64 x -> typed_globals g -> typed_globals (set_max_epoch x g).
Proof. intros Hx [_ H]. by split. Qed.

Lemma tp_set_max_epoch x : is_u64 x -> tp any (mod_glob (set_max_epoch x)).
Proof. intros Hx. apply tp_mod_glob. intros g. by apply typed_set_max_epoch. Qed.
#[local] Hint Resolve tp_set_max_epoch : typing.

Lemma tp_rpc_init : tp is_int rpc_init.
Proof. unfold rpc_init. eapply tp_bind; [by apply tp_set_max_epoch|intros _ _]. tp_go. by simplify_eq. Qed.

Lemma tp_rpc_fini : tp any rpc_fini.
Proof. unfold rpc_fini. tp_go. Qed.

(** A return code and a pointer. *)
Definition coded {A} (v : Z * A) : Prop := is_int v.1.

Lemma tp_pool_fini e rc : is_int rc -> tp coded (pool_fini e rc).
Proof. intros Hrc. unfold pool_fini. tp_go. Qed.
#[local] Hint Resolve tp_pool_fini : typing.

Lemma tp_rpc_create_endpoint s out : tp coded (rpc_create_endpoint s out).
Proof.
  unfold rpc_create_endpoint. tp_go. match goal with a : Z * ptr |- _ => destruct a end. by apply tp_pool_fini.
Qed.
#[local] Hint Resolve tp_rpc_create_endpoint : typing.

Lemma tp_rpc_listen s cbs out : tp coded (rpc_listen s cbs out).
Proof.
  unfold rpc_listen. apply (tp_bind any); [|intros _ _; apply tp_rpc_create_endpoint].
  destruct cbs; by apply tp_mod_glob.
Qed.

Lemma tp_rpc_destroy_endpoint e : tp any (rpc_destroy_endpoint e).
Proof. unfold rpc_destroy_endpoint. tp_go. Qed.

Lemma tp_rpc_connect e s timeout out : tp coded (rpc_connect e s timeout out).
Proof.
  unfold rpc_connect, rpc_connect_rpc_machine.
  tp_go; match goal with a : Z * ptr |- _ => by destruct a end.
Qed.

Lemma tp_rpc_disconnect c timeout : tp is_int (rpc_disconnect c timeout).
Proof. unfold rpc_disconnect. tp_go. Qed.

Lemma tp_rpc_release_connection c : tp any (rpc_release_connection c).
Proof. unfold rpc_release_connection. tp_go. Qed.

(** ** Payloads *)

Definition typed_segment (s : iovec) : Prop := Forall is_byte (iov_base s) /\ is_u64 (iov_len s).

Lemma u32_u64 x : u32 (u64 x) = u32 x.
Proof.
  unfold u32, u64. change (2 ^ 64) with (2 ^ 32 * 2 ^ 32). rewrite Z.rem_mul_r by lia.
  by rewrite Z.mul_comm, Z_mod_plus_full, Z.mod_mod by lia.
Qed.

Lemma memcpy_typed dst off base len dst' :
  memcpy dst off base len = Some dst' -> Forall is_byte dst -> Forall is_byte base -> 0 <= len ->
  Forall is_byte dst' /\ length dst' = length dst.
Proof.
  unfold memcpy. destruct (_ && _) eqn:Hb; [|done]. intros [= <-] Hd Hs Hlen.
  apply andb_true_iff in Hb as [[H1 H2]%andb_true_iff H3]. reflect_Z. split.
  - unfold splice. rewrite !Forall_app. auto using Forall_take, Forall_drop.
  - apply splice_length. rewrite length_take. lia.
Qed.

Lemma copy_typed segs idx off dst dst' :
  Forall typed_segment segs -> copy segs idx off dst = Some dst' -> Forall is_byte dst ->
  Forall is_byte dst' /\ length dst' = length dst.
Proof.
  intros Hsegs. revert off dst. induction idx as [|i idx IH]; intros off dst; simpl; [by intros [= <-]|].
  destruct (segs !! i) as [seg|] eqn:Hi; [|done]. simpl.
  destruct (memcpy dst off (iov_base seg) (iov_len seg)) as [dst1|] eqn:Hm; [|done]. simpl. intros Hc Hd.
  pose proof (Forall_lookup_1 _ _ _ _ Hsegs Hi) as [Hbase [Hlen _]].
  destruct (memcpy_typed _ _ _ _ _ Hm Hd Hbase Hlen) as [Hd1 Hl1]. rewrite <- Hl1. by eapply IH.
Qed.

Lemma tp_fill fop segs n : Forall typed_segment segs -> tp any (fill_rpclite_fop fop segs n).
Proof.
  intros Hsegs. unfold fill_rpclite_fop. eapply tp_bind; [apply tp_load_fop|]. intros f [Hi Hd].
  apply (tp_bind (fun d => rpclite_data f = Some d)); [by apply tp_expect|]. intros d Hrd.
  tp_step. apply (tp_call (alloc (A_array (u64 b)))). intros ok _. tp_step.
  apply (tp_bind (fun arr => Forall is_byte arr /\ u32 (Z.of_nat (length arr)) = u32 b)).
  - apply tp_expect. intros arr Harr. destruct (copy_typed _ _ _ _ _ Hsegs Harr) as [Hb Hl].
    { by apply Forall_replicate. }
    split; [done|]. rewrite Hl, length_replicate, Z2Nat.id by apply u64_range. apply u32_u64.
  - intros arr [Hb Hl]. apply tp_store_fop. split; [done|]. simpl. intros d' [= <-]. split; [|by split].
    unfold rpclite_data in Hrd. destruct (f_data f) as [[]|] eqn:Hf; try done. by destruct (Hd _ eq_refl).
Qed.
#[local] Hint Resolve tp_fill : typing.

Lemma tp_too_big fop sess : tp any (too_big fop sess).
Proof. unfold too_big. tp_go. Qed.
#[local] Hint Resolve tp_too_big : typing.

(** ** Sending *)

Lemma tp_on_item fop g :
  (forall i, typed_item i -> typed_item (g i)) -> tp any (upd_fop fop (on_item g)).
Proof. intros H. apply tp_upd_fop. intros f Hf. by apply typed_on_item; [apply H|]. Qed.

Lemma typed_nr_sent_max i : typed_item i -> typed_item (set_nr_sent_max 1 i).
Proof. intros (? & _ & ?). split; [done|]. split; [unfold is_u64; simpl; lia|done]. Qed.
Lemma typed_resend_interval x i : is_u64 x -> typed_item i -> typed_item (set_resend_interval x i).
Proof. intros Hx (? & ? & _ & ?). split; [done|]. split; [done|]. by split. Qed.
Lemma typed_error_reply e r i : is_int e -> typed_item i -> typed_item (set_error_reply e r i).
Proof. intros He (? & ? & ? & _). do 3 (split; [done|]). done. Qed.
#[local] Hint Resolve tp_on_item typed_nr_sent_max typed_resend_interval typed_error_reply : typing.

Lemma tp_send_fop c fop timeout : tp is_int (rpc_send_fop_blocking_and_release c fop timeout).
Proof.
  unfold rpc_send_fop_blocking_and_release. tp_go.
  match goal with a : Z * Z * ptr, H : _ |- _ => destruct a as [[rc e] rep], H as [? ?] end. tp_step.
  apply (tp_bind any); [|intros; by tp_go].
  destruct (rc =? 0); [|by apply tp_ret]. tp_go.
Qed.
#[local] Hint Resolve tp_send_fop : typing.

Lemma tp_rpc_send_blocking c segs n timeout :
  Forall typed_segment segs -> tp is_int (rpc_send_blocking c segs n timeout).
Proof. intros Hs. unfold rpc_send_blocking. tp_go. Qed.

Lemma tp_free_message ref : tp any (rpclite_senderside_free_nonuser_memory ref).
Proof. unfold rpclite_senderside_free_nonuser_memory. tp_go. Qed.
#[local] Hint Resolve tp_free_message : typing.

Lemma tp_fop_put fop : tp any (fop_put fop).
Proof. unfold fop_put. tp_go. Qed.
#[local] Hint Resolve tp_fop_put : typing.

Lemma tp_reply_status ctime error : tp any (reply_status ctime error).
Proof.
  unfold reply_status. tp_go. apply (tp_bind any); [apply tp_add_rpc_stat_record, u64_range|].
  intros. by apply tp_ret.
Qed.
#[local] Hint Resolve tp_reply_status : typing.

Lemma tp_rpclite_replied item : tp any (rpclite_replied item).
Proof.
  unfold rpclite_replied. tp_go. apply (tp_bind any); [apply tp_call_fn; intros i; by tp_step|]. intros. tp_go.
Qed.

Lemma ready_message_typed c ctx cb now dl iv rm :
  is_u64 now -> is_u64 dl -> is_u64 iv -> typed_object (OMessage (ready_message c ctx cb now dl iv rm)).
Proof.
  intros Hn Hd Hi. split; [done|]. split; [|done]. do 2 (split; [done|]). by split.
Qed.

(** Once initialised, the message has the type of its data. *)
Lemma tp_rpc_send c segs n cb ctx timeout :
  Forall typed_segment segs -> tp is_int (rpc_send c segs n cb ctx timeout).
Proof.
  intros Hs w Hw. unfold rpc_send. apply wp_bind. apply wp_malloc; intros; cbn [bool_decide decide].
  - change (bool_decide (Null <> Null)) with false. cbn. apply wp_bind. by apply wp_assert.
  - rewrite !bool_decide_true by done. apply wp_bind. eapply wp_init_message; [apply lookup_insert_eq|].
    intros w' now dl iv rm Hh Hg Hnow Hdl Hiv _. cbn [heap set_heap log glob] in Hh, Hg.
    assert (Hw' : typed w').
    { split; [rewrite Hg; apply Hw|]. rewrite Hh. apply map_Forall_insert_2; [by apply ready_message_typed|].
      apply map_Forall_insert_2; [|apply Hw]. by repeat split. }
    apply wp_bind, (wp_ext (m0_fop_data_alloc _)). intros rc s2 Hrc _. unfold CHECK_RESULT.
    destruct (rc =? 0).
    2:{ apply (fun H => tp_bind any is_int _ _ (tp_free _) H); [|exact Hw']. intros. by apply tp_ret. }
    apply wp_bind. eapply wp_upd_fop; [cbn; rewrite Hh; apply lookup_insert_eq|reflexivity|].
    match goal with |- wp ?m _ _ => assert (Ht : tp is_int m) by tp_go end. apply Ht.
    apply typed_insert; [exact Hw'|]. destruct (ready_message_typed c ctx cb now dl iv rm) as [Hc [Hi _]]; [done..|].
    split; [done|]. split; [done|]. by intros d [= <-].
Qed.

(** ** Epochs *)

Lemma tp_rpc_send_epoch c our timeout :
  is_u64 our -> tp (fun v => is_int v.1 /\ forall x, v.2 = Some x -> is_u64 x) (rpc_send_epoch_blocking c our timeout).
Proof.
  intros Hour w Hw. unfold rpc_send_epoch_blocking. apply wp_bind, wp_get_glob.
  destruct (our <? _).
  { apply wp_ret. split; [done|]. intros ? [= <-]. split; [done|]. intros x [= <-]. apply Hw. }
  apply wp_bind, wp_mod_glob.
  assert (Hw1 : typed (set_glob (set_max_epoch our) w)).
  { split; [by apply typed_set_max_epoch; [|apply Hw]|apply Hw]. }
  apply wp_bind. unfold fop_alloc_at. apply wp_bind. apply (wp_ext (m0_fop_alloc_at _ _)). intros [] s1 _ _.
  2:{ apply wp_ret, wp_bind. change (bool_decide (Null <> Null)) with false. split; [exact Hw1|done]. }
  apply wp_new. intros a _. apply wp_bind. rewrite bool_decide_true by done. apply wp_assert; [intros _|done].
  apply wp_bind, (wp_ext (s_session_id _)). intros id s2 Hid _.
  apply wp_bind. eapply wp_upd_fop; [apply lookup_insert_eq|reflexivity|].
  match goal with |- wp ?m _ _ =>
    assert (Ht : tp (fun v => is_int v.1 /\ forall x, v.2 = Some x -> is_u64 x) m) end.
  { tp_go; simpl; split; try done; intros x Hx; by simplify_eq. }
  apply Ht, typed_insert; [apply typed_insert; [exact Hw1|apply typed_new_fop]|]. split; [done|].
  intros d [= <-]. split; [done|]. split; [exact Hid|apply u64_range].
Qed.

(** * The operations of rpclite.h *)

Definition typed_args (o : op) : Prop :=
  match o with
  | SendBlocking _ segs _ | SendAsync _ segs _ _ _ => Forall typed_segment segs
  | SendEpoch _ our _ => is_u64 our
  | Reply _ e _ => is_int e
  | _ => True
  end.

Definition typed_ret (o : op) : ret o -> Prop :=
  match o return ret o -> Prop with
  | Create _ _ | Listen _ _ _ | Connect _ _ _ _ => fun v => is_int v.1
  | Fini | Destroy _ | ReleaseConn _ | Reply _ _ _ => fun _ => True
  | SendEpoch _ _ _ => fun v => is_int v.1 /\ forall x, v.2 = Some x -> is_u64 x
  | Call c => has_type (aty_of c)
  | _ => is_int
  end.

Lemma typed_mark a e rep w : is_int e -> typed w -> typed (InFlight.mark a e rep w).
Proof.
  intros He [Hg Hh]. split; [done|]. intros b o Hb. simpl in Hb.
  apply lookup_alter_Some in Hb as [(_ & o' & Ho' & ->)|[_ Hb]]; [|by eapply Hh].
  apply Hh in Ho'. destruct o'; try done. destruct Ho' as [Hc Hf]. split; [done|].
  apply typed_on_item; [|done]. by apply typed_error_reply.
Qed.

(** The operations respect the types of C. From a process in which every
    stored integer is a value of its C type, every fop has data of the struct
    its type announces and every payload counts its bytes, an operation of
    rpclite.h called with values of their types - and in whatever state of the
    library, legally or not - ends in such a process, and what it returns is a
    value of the declared type: no integer leaves its width. *)
Theorem operations_well_typed o w :
  typed_args o -> typed w ->
  wp (exec o) (fun r w' => typed w' /\ forall v, r = Ok v -> typed_ret o v) w.
Proof.
  intros Ho Hw. destruct o; cbn [typed_args typed_ret exec] in *.
  - by apply tp_rpc_init. - by apply tp_rpc_fini. - by apply tp_rpc_create_endpoint. - by apply tp_rpc_listen.
  - by apply tp_rpc_destroy_endpoint. - by apply tp_rpc_connect. - by apply tp_rpc_disconnect.
  - by apply tp_rpc_release_connection. - by apply tp_rpc_send_blocking. - by apply tp_rpc_send.
  - by apply tp_rpc_send_epoch. - by apply (tp_ext c).
  - apply (tp_rpclite_replied (InFlight.item_of a)). by apply typed_mark.
Qed.

Lemma typed_init_world s : typed (init_world s).
Proof. split; [|apply map_Forall_empty]. by repeat constructor. Qed.
End Typing.

Lemma operations_well_typed_witness :
  let segs := [{| iov_base := [104; 105]; iov_len := 2 |}] in
  wp (exec (SendAsync conn0 segs 5 Null 3)) (fun r w' => typed w' /\ forall v, r = Ok v -> is_int v) (start roomy) /\
  (exec (SendAsync conn0 segs 5 Null 3) (start roomy)).1 = Ok 0.
Proof.
  intros segs. split; [|vm_compute; reflexivity].
  apply (operations_well_typed (SendAsync conn0 segs 5 Null 3) (start roomy)); [|apply typed_init_world].
  by repeat constructor.
Defined.

End Typing.
