(* ===== verification/LibraryImpl.v ===== *)
(** The C functions of rpclite implement the interface of Library.v: the
    relation between abstract states and process states, its preservation by
    every operation, and the instance [rpclite] of [RpcLite]. *)

From S2P Require Import Prelude CTypes Machine Stats Resources RpcInit Endpoint Connection.
From S2P Require Import Payload Send InFlight Epoch Library.
Local Open Scope Z_scope.

Module LibraryImpl.
Import Stats RpcInit Endpoint Connection Payload Send Epoch Library.

(** * The heap *)

Definition is_obj (r : role) (o : object) : Prop :=
  match r with
  | Endpoint b => exists s, o = endpoint_obj s (Some (addr b))
  | Reqh _ => o = OReqh
  | Connection => exists s ep, o = connection_obj s ep
  | Message (f, c, ctx) =>
      exists m, o = OMessage m /\ msg_reply_callback m = Some f /\ msg_c m = c /\ msg_ctx m = ctx
  | Leaked | LeakedReqh => True
  end.

(** The heap is the client's, and the objects of the library. *)
Definition heap_ok (h0 h : gmap positive object) (m : gmap positive role) : Prop :=
  forall a, match m !! a with
            | None => h !! a = h0 !! a
            | Some r => h0 !! a = None /\ exists o, h !! a = Some o /\ is_obj r o
            end.

(** An endpoint and its request handler know each other. *)
Definition paired (m : gmap positive role) : Prop :=
  forall a b, m !! a = Some (Endpoint b) -> m !! b = Some (Reqh a).

Section Heap.
Context (h0 : gmap positive object).
Implicit Types (h : gmap positive object) (m : gmap positive role).

Lemma heap_ok_empty : heap_ok h0 h0 ∅.
Proof. intros a. by rewrite lookup_empty. Qed.

Lemma heap_ok_fresh h m a : heap_ok h0 h m -> h !! a = None -> m !! a = None /\ h0 !! a = None.
Proof.
  intros H Ha. specialize (H a). destruct (m !! a); [|split; congruence].
  destruct H as (_ & o & ? & _). congruence.
Qed.

Lemma heap_ok_lookup h m a r :
  heap_ok h0 h m -> m !! a = Some r -> exists o, h !! a = Some o /\ is_obj r o.
Proof. intros H Ha. specialize (H a). rewrite Ha in H. by destruct H. Qed.

Lemma heap_ok_add h m a r o :
  heap_ok h0 h m -> h !! a = None -> is_obj r o -> heap_ok h0 (<[a := o]> h) (<[a := r]> m).
Proof.
  intros H Ha Ho b. destruct (decide (b = a)) as [->|Hne].
  - rewrite !lookup_insert_eq. split; [by eapply heap_ok_fresh|by exists o].
  - rewrite !lookup_insert_ne by done. apply H.
Qed.

Lemma heap_ok_remove h m a r :
  heap_ok h0 h m -> m !! a = Some r -> heap_ok h0 (delete a h) (delete a m).
Proof.
  intros H Ha b. destruct (decide (b = a)) as [->|Hne].
  - rewrite !lookup_delete_eq. specialize (H a). rewrite Ha in H. by destruct H as [-> _].
  - rewrite !lookup_delete_ne by done. apply H.
Qed.

Lemma heap_ok_closed h : heap_ok h0 h ∅ -> h = h0.
Proof. intros H. apply map_eq. intros a. specialize (H a). by rewrite lookup_empty in H. Qed.
End Heap.

Lemma paired_empty : paired ∅.
Proof. intros a b H. by rewrite lookup_empty in H. Qed.

Lemma paired_add m a r :
  paired m -> m !! a = None -> (forall b, r <> Endpoint b) -> paired (<[a := r]> m).
Proof.
  intros H Ha Hr x y [[<- ?]|[Hne Hx]]%lookup_insert_Some; [by destruct (Hr y)|].
  apply H in Hx as Hy. rewrite lookup_insert_ne; [done|congruence].
Qed.

Lemma paired_add_endpoint m a b :
  paired m -> m !! a = None -> m !! b = None -> b <> a ->
  paired (<[a := Endpoint b]> (<[b := Reqh a]> m)).
Proof.
  intros H Ha Hb Hne x y Hx.
  destruct (decide (x = a)) as [->|]; [rewrite lookup_insert_eq in Hx; simplify_eq|].
  { by rewrite lookup_insert_ne, lookup_insert_eq by done. }
  rewrite lookup_insert_ne in Hx by done.
  apply lookup_insert_Some in Hx as [[? ?]|[_ Hx]]; [done|].
  apply H in Hx as Hy. rewrite !lookup_insert_ne by congruence. done.
Qed.

Lemma paired_remove m a r :
  paired m -> m !! a = Some r -> (forall e, r <> Reqh e) -> paired (delete a m).
Proof.
  intros H Ha Hr x y [Hne Hx]%lookup_delete_Some. apply H in Hx.
  rewrite lookup_delete_ne; [done|]. intros ->. rewrite Ha in Hx. simplify_eq. by destruct (Hr x).
Qed.

Lemma paired_remove_endpoint m a b :
  paired m -> m !! a = Some (Endpoint b) -> paired (delete a (delete b m)).
Proof.
  intros H Ha x y [Hxa [Hxb Hx]%lookup_delete_Some]%lookup_delete_Some.
  apply H in Ha as Hb. apply H in Hx as Hy. rewrite !lookup_delete_ne; [done|..]; congruence.
Qed.

(** * The Mero objects *)

Lemma objs_resources_empty : objs_resources ∅ = [].
Proof. unfold objs_resources. by rewrite map_to_list_empty. Qed.

Lemma objs_resources_add m a r :
  m !! a = None -> objs_resources (<[a := r]> m) ≡ₚ role_resources a r ++ objs_resources m.
Proof. intros Ha. unfold objs_resources. by rewrite map_to_list_insert. Qed.

Lemma objs_resources_remove m a r :
  m !! a = Some r -> objs_resources m ≡ₚ role_resources a r ++ objs_resources (delete a m).
Proof. intros Ha. unfold objs_resources. by rewrite <- (map_to_list_delete m a r). Qed.

Section Impl.
Context {E : Env}.

(** * The relation *)

(** The calls made since the start, up to the order of acquisition. *)
Definition traced (w0 : world) (R0 R : list resource) (ps : list rpclite_fop)
    (cbs : list (Z * ptr * ptr * rpc_status)) (w : world) : Prop :=
  exists evs L, ran evs w0 w /\ held R0 evs = Some L /\ L ≡ₚ R /\
    payloads evs = ps /\ callbacks evs = cbs.

Definition glob_ok (w0 : world) (l : lib) (g : globals) : Prop :=
  (exists rs1 rs2, rpc_stat g = [rs1; rs2] /\
     recorded (conn_times l) rs1 /\ recorded (send_times l) rs2) /\
  client_max_epoch g = max_epoch l /\ rpclite_listen_cbs g = listeners l /\
  m0init_hi g = m0init_hi (glob w0).

Record core (w0 : world) (R0 : list resource) (l : lib) (w : world) : Prop := {
  sim_heap : heap_ok (heap w0) (heap w) (objs l);
  sim_paired : paired (objs l);
  sim_traced : traced w0 R0 (resources l ++ R0) (sent l) (answered l) w;
}.

Definition sim (w0 : world) (R0 : list resource) (l : lib) (w : world) : Prop :=
  core w0 R0 l w /\ glob_ok w0 l (glob w).

Lemma payloads_app e1 e2 : payloads (e1 ++ e2) = payloads e1 ++ payloads e2.
Proof. unfold payloads. by rewrite posted_app, omap_app. Qed.

Lemma payloads_quiet evs : posted evs = [] -> payloads evs = [].
Proof. unfold payloads. by intros ->. Qed.

(** More calls. *)
Lemma traced_step w0 R0 R R1 R2 ps cbs w w' evs :
  traced w0 R0 R ps cbs w -> ran evs w w' -> R ≡ₚ R1 -> held R1 evs = Some R2 ->
  traced w0 R0 R2 (ps ++ payloads evs) (cbs ++ callbacks evs) w'.
Proof.
  intros (e0 & L & Hr0 & Hh & HL & <- & <-) Hr HR H.
  destruct (held_perm R1 L evs R2) as (L2 & HL2 & HP); [by rewrite HL, HR|done|].
  exists (e0 ++ evs), L2. split; [by eapply ran_trans|].
  rewrite held_app, Hh, payloads_app, callbacks_app. by repeat split.
Qed.

Lemma traced_quiet w0 R0 R R1 R2 R' ps cbs w w' :
  traced w0 R0 R ps cbs w -> quiet w w' -> balance w w' R1 R2 -> R ≡ₚ R1 -> R2 ≡ₚ R' ->
  traced w0 R0 R' ps cbs w'.
Proof.
  intros Ht (evs & Hr & Hp & Hc) (evs' & Hr' & Hh) HR HR'.
  rewrite (ran_det _ _ _ _ Hr' Hr) in Hh.
  destruct (traced_step _ _ _ _ _ _ _ _ _ _ Ht Hr HR Hh) as (e & L & H1 & H2 & H3 & H4 & H5).
  exists e, L. rewrite H4, H5, (payloads_quiet evs), Hc, !app_nil_r by done.
  repeat split; try done. by rewrite H3.
Qed.

Lemma traced_neutral w0 R0 R ps cbs w w' evs :
  traced w0 R0 R ps cbs w -> ran evs w w' -> neutral evs ->
  traced w0 R0 R (ps ++ payloads evs) (cbs ++ callbacks evs) w'.
Proof. intros Ht Hr Hn. eapply traced_step; [done..|apply Hn]. Qed.

Lemma stats_length w0 l g : glob_ok w0 l g -> length (rpc_stat g) = RPC_STAT_NR.
Proof. by intros ((rs1 & rs2 & -> & _) & _). Qed.

Ltac solve_resources :=
  unfold resources; cbn [up objs own add remove set_up set_epoch listen timed_conn timed_send];
  repeat match goal with
  | H : up _ = _ |- _ => rewrite H
  | |- context [objs_resources (<[?a := ?r]> ?m)] =>
      rewrite (objs_resources_add m a r) by (simpl_map; done)
  end; cbn [role_resources app]; solve_Permutation.

(** * The operations *)

Section Operations.
Context (w0 : world) (R0 : list resource).
Implicit Types (l : lib) (w : world).

(** What an operation is shown to do. *)
Definition refines (l : lib) (o : op) (r : res (ret o)) (w' : world) : Prop :=
  match r with
  | Ok v => exists l', outcome l o v l' /\ sim w0 R0 l' w'
  | r => excused l o r
  end.

Lemma sim_init l w : sim w0 R0 l w -> legal l Init -> wp rpc_init (refines l Init) w.
Proof.
  intros [[Hh Hp Ht] (Hst & Hm & Hc & Hi)] Hup. simpl in Hup.
  eapply wp_mono; [apply (rpc_init_spec (resources l ++ R0))|].
  intros r w' (rc & -> & _ & Hb & Hh' & Hg & Hq & Hans). eexists. split; [split; [exact Hans|reflexivity]|].
  split; [constructor|]; rewrite ?Hh', ?Hg; destruct (rc =? 0); try done.
  - eapply traced_quiet; [done..|]. solve_resources.
  - by eapply traced_quiet.
Qed.

Lemma sim_fini l w : sim w0 R0 l w -> legal l Fini -> wp rpc_fini (refines l Fini) w.
Proof.
  intros [[Hh Hp Ht] Hg] Hup. simpl in Hup.
  eapply (wp_rpc_fini (objs_resources (objs l) ++ own l ++ R0)). intros w' Hb Hh' Hg' Hq.
  eexists. split; [reflexivity|]. split; [constructor|]; rewrite ?Hh', ?Hg'; try done.
  eapply traced_quiet; [done..|unfold resources; rewrite Hup|]; solve_resources.
Qed.

(** A new object, with the Mero objects that come with it. *)
Lemma sim_add l w w' a r o :
  core w0 R0 l w -> heap w !! a = None -> is_obj r o -> (forall b, r <> Endpoint b) ->
  heap w' = <[a := o]> (heap w) -> glob_ok w0 l (glob w') -> quiet w w' ->
  balance w w' (resources l ++ R0) (role_resources a r ++ resources l ++ R0) ->
  objs l !! a = None /\ sim w0 R0 (add a r l) w'.
Proof.
  intros [Hh Hp Ht] Ha Ho Hr Hh' Hg' Hq Hb. destruct (heap_ok_fresh _ _ _ _ Hh Ha) as [Hm _].
  split; [done|]. split; [|done].
  constructor; simpl; [rewrite Hh'; by apply heap_ok_add|by apply paired_add|].
  eapply traced_quiet; [done..|]. solve_resources.
Qed.

(** The same for an endpoint and its request handler. *)
Lemma sim_add_endpoint l w w' a b s :
  sim w0 R0 l w -> heap w !! a = None -> heap w !! b = None -> b <> a ->
  heap w' = <[a := endpoint_obj s (Some (addr b))]> (<[b := OReqh]> (heap w)) ->
  glob_ok w0 l (glob w') -> quiet w w' ->
  balance w w' (resources l ++ R0) (endpoint_resources (addr a) (addr b) ++ resources l ++ R0) ->
  objs l !! a = None /\ objs l !! b = None /\ sim w0 R0 (add a (Endpoint b) (add b (Reqh a) l)) w'.
Proof.
  intros [[Hh Hp Ht] Hg] Ha Hb Hne Hh' Hg' Hq Hbal.
  destruct (heap_ok_fresh _ _ _ _ Hh Ha) as [Hma _].
  destruct (heap_ok_fresh _ _ _ _ Hh Hb) as [Hmb _].
  split; [done|]. split; [done|]. split; [|done]. constructor; simpl; [|by apply paired_add_endpoint|].
  - rewrite Hh'. apply heap_ok_add; [by apply heap_ok_add|by simpl_map|by exists s].
  - eapply traced_quiet; [done..|]. solve_resources.
Qed.

Lemma sim_remove l w w' a r :
  sim w0 R0 l w -> objs l !! a = Some r -> (forall e, r <> Reqh e) ->
  heap w' = delete a (heap w) -> glob w' = glob w -> quiet w w' ->
  balance w w' (role_resources a r ++ resources (remove a l) ++ R0) (resources (remove a l) ++ R0) ->
  sim w0 R0 (remove a l) w'.
Proof.
  intros [[Hh Hp Ht] Hg] Ha Hr Hh' Hg' Hq Hb.
  split; [|by rewrite Hg'].
  constructor; simpl; [rewrite Hh'; by eapply heap_ok_remove|by eapply paired_remove|].
  eapply traced_quiet; [done..| |done]. unfold resources. simpl.
  rewrite (objs_resources_remove _ _ _ Ha). solve_Permutation.
Qed.

Context (Hreqh : machine_keeps_reqh).

Lemma sim_create l w s out :
  sim w0 R0 l w -> out <> Null ->
  wp (rpc_create_endpoint s out) (fun r w' => match r with
    | Ok v => exists l', created l v l' /\ sim w0 R0 l' w'
    | Aborted => fits s = false \/ no_memory A_reqh
    | Undefined => no_memory A_endpoint
    | Exited _ => False
    end) w.
Proof using Hreqh.
  intros Hs Hout. eapply wp_mono; [by apply (rpc_create_endpoint_spec s out (resources l ++ R0))|].
  intros r w' (Hpost & Hg & Hq & Herr). pose proof (proj2 Hs) as Hg0.
  destruct r as [[rc e]| | |]; [|by destruct Hpost as [?|[_ ?]]; [left|right]|done|by destruct Hpost as (_ & _ & ?)].
  specialize (Herr _ eq_refl). destruct Hpost as (_ & a & -> & Ha & H). destruct (rc =? 0) eqn:Hrc.
  - destruct H as (b & q & Hb & Hne & Hh & Hbal & Hans). apply Hreqh in Hans as ->.
    destruct (sim_add_endpoint l w w' a b s) as (Hma & Hmb & Hs'); rewrite ?Hg; try done.
    eexists. split; [|exact Hs']. split; [done|]. exists a. simpl. rewrite Hrc. eauto 8.
  - destruct H as [[Hh Hbal]|(b & started & Hb & Hne & Hh & Hbal)].
    + destruct (sim_add l w w' a Leaked (endpoint_obj s None)) as (Hma & Hs'); rewrite ?Hg; try done; [apply Hs|].
      eexists. split; [|exact Hs']. split; [done|]. exists a. simpl. rewrite Hrc. eauto.
    + exists (add a Leaked (add b (if started then LeakedReqh else Leaked) l)).
      destruct Hs as [[Hheap Hp Ht] _]. destruct (heap_ok_fresh _ _ _ _ Hheap Ha) as [Hma _].
      destruct (heap_ok_fresh _ _ _ _ Hheap Hb) as [Hmb _]. split.
      * split; [done|]. exists a. simpl. rewrite Hrc. split; [done|]. split; [done|]. right.
        exists b, (if started then LeakedReqh else Leaked). destruct started; auto.
      * split; [constructor|]; simpl; rewrite ?Hg; [| | |done].
        -- rewrite Hh. apply heap_ok_add; [|by simpl_map|done]. apply heap_ok_add; [done|done|].
           by destruct started.
        -- apply paired_add; [apply paired_add; [done|done|]|by simpl_map|done]. by destruct started.
        -- eapply traced_quiet; [done..|]. destruct started; solve_resources.
Qed.

Lemma sim_listen l w s cbs out :
  sim w0 R0 l w -> legal l (Listen s cbs out) ->
  wp (rpc_listen s cbs out) (refines l (Listen s cbs out)) w.
Proof using Hreqh.
  intros [[Hh Hp Ht] (Hst & Hm & Hc & Hi)] [_ Hout]. unfold rpc_listen.
  set (cbs' := default no_listeners cbs).
  assert (Hs : sim w0 R0 (listen cbs' l) (set_glob (set_listen_cbs cbs') w)) by by constructor.
  wp_step. destruct cbs as [cbs|]; wp_step;
    (eapply wp_mono; [by apply (sim_create _ _ s out Hs)|]); by intros [] w' H.
Qed.

Lemma sim_destroy l w e :
  sim w0 R0 l w -> legal l (Destroy e) -> wp (rpc_destroy_endpoint e) (refines l (Destroy e)) w.
Proof.
  intros [[Hh Hp Ht] Hg] (_ & a & b & -> & He). pose proof (Hp _ _ He) as Hb.
  destruct (heap_ok_lookup _ _ _ _ _ Hh He) as (oe & Hoe & s & ->).
  destruct (heap_ok_lookup _ _ _ _ _ Hh Hb) as (ob & Hob & ->).
  assert (Hne : a <> b) by congruence.
  eapply (wp_rpc_destroy_endpoint a b s (resources (remove a (remove b l)) ++ R0)); [done..|].
  intros w' Hh' Hg' Hbal Hq. eexists. split; [by exists a, b|].
  split; [constructor|]; simpl; rewrite ?Hg'; [| |eapply traced_quiet; [done..| |done]|done].
  - rewrite Hh'. eapply heap_ok_remove; [by eapply heap_ok_remove|]. by rewrite lookup_delete_ne.
  - by apply paired_remove_endpoint.
  - unfold resources. simpl. rewrite (objs_resources_remove _ _ _ Hb).
    rewrite (objs_resources_remove (delete b (objs l)) a (Endpoint b)) by by rewrite lookup_delete_ne.
    simpl. solve_Permutation.
Qed.

Lemma glob_ok_timed_conn l g g' :
  glob_ok w0 l g -> timed g g' -> exists t, is_time t /\ glob_ok w0 (timed_conn t l) g'.
Proof.
  intros ((rs1 & rs2 & Hst & H1 & H2) & Hm & Hc & Hi) (rs & rs' & t & Hrs & Hadd & Ht & ->).
  rewrite Hst in Hrs. injection Hrs as <-. exists t. split; [done|].
  split; [|by repeat split]. exists rs', rs2. unfold set_stat. simpl. rewrite Hst.
  split; [done|]. split; [|done]. pose proof (recorded_add _ t _ H1 (proj1 Ht)) as H. by rewrite Hadd in H.
Qed.

Lemma glob_ok_timed_send l g g' e :
  glob_ok w0 l g -> replied_stats e g g' ->
  if e =? 0 then exists t, is_time t /\ glob_ok w0 (timed_send t l) g' else glob_ok w0 l g'.
Proof.
  intros ((rs1 & rs2 & Hst & H1 & H2) & Hm & Hc & Hi). unfold replied_stats.
  destruct (e =? 0); [|intros ->; split; [by exists rs1, rs2|done]].
  intros (rs & rs' & t & Hrs & Hadd & Ht & ->).
  rewrite Hst in Hrs. injection Hrs as <-. exists t. split; [done|].
  split; [|by repeat split]. exists rs1, rs'. unfold set_stat. simpl. rewrite Hst.
  split; [done|]. split; [done|]. pose proof (recorded_add _ t _ H2 (proj1 Ht)) as H. by rewrite Hadd in H.
Qed.

Lemma sim_connect l w e s timeout out :
  sim w0 R0 l w -> legal l (Connect e s timeout out) ->
  wp (rpc_connect e s timeout out) (refines l (Connect e s timeout out)) w.
Proof.
  intros [Hc Hg] [_ Hout]. unfold rpc_connect.
  eapply wp_mono; [apply (rpc_connect_spec _ s timeout out (resources l ++ R0)); [done|by eapply stats_length]|].
  intros [[rc c]| | |] w' [Hpost Hq]; [|done|done|].
  - specialize (Hq _ eq_refl) as [Hq Herr]. destruct Hpost as (_ & a & -> & Ha & H).
    destruct (rc =? 0) eqn:Hrc.
    + destruct H as (ep & Hh & Hb & Ht). destruct (glob_ok_timed_conn _ _ _ Hg Ht) as (t & Hti & Hg').
      destruct (sim_add (timed_conn t l) w w' a Connection (connection_obj s (Some ep))) as [Hm Hs]; try done.
      { by destruct Hc. } { by eexists _, _. }
      eexists. split; [|exact Hs]. split; [done|]. exists a. simpl. rewrite Hrc. eauto.
    + destruct H as ((ep & Hh) & Hb & [Hg'|Ht]).
      * destruct (sim_add l w w' a Leaked (connection_obj s ep)) as [Hm Hs]; rewrite ?Hg'; try done.
        eexists. split; [|exact Hs]. split; [done|]. exists a. simpl. rewrite Hrc. eauto.
      * destruct (glob_ok_timed_conn _ _ _ Hg Ht) as (t & Hti & Hg').
        destruct (sim_add (timed_conn t l) w w' a Leaked (connection_obj s ep)) as [Hm Hs]; try done.
        { by destruct Hc. }
        eexists. split; [|exact Hs]. split; [done|]. exists a. simpl. rewrite Hrc.
        split; [done|]. split; [done|]. right. by exists t.
  - destruct Hpost as [[_ ?]|(rs & t & Hrs & Hadd & Ht)]; [by left|right].
    destruct Hg as ((rs1 & rs2 & Hst & H1 & _) & _). rewrite Hst in Hrs. injection Hrs as <-.
    pose proof (recorded_add _ t _ H1 (proj1 Ht)) as H. by rewrite Hadd in H.
Qed.

Lemma quiet_of evs w w' : ran evs w w' -> posted evs = [] -> callbacks evs = [] -> quiet w w'.
Proof. intros. by exists evs. Qed.

Lemma sim_disconnect l w c timeout :
  sim w0 R0 l w -> legal l (Disconnect c timeout) ->
  wp (rpc_disconnect c timeout) (refines l (Disconnect c timeout)) w.
Proof.
  intros Hs (_ & a & -> & Hc). destruct (heap_ok_lookup _ _ _ _ _ (sim_heap _ _ _ _ (proj1 Hs)) Hc) as (o & Ho & _).
  eapply (wp_rpc_disconnect a timeout o (resources (remove a l) ++ R0)); [done|].
  intros rc1 rc2 w' Hr Hb Hh Hg. eexists. split; [by exists a|].
  eapply sim_remove; try done. by eapply quiet_of.
Qed.

Lemma sim_release l w c :
  sim w0 R0 l w -> legal l (ReleaseConn c) ->
  wp (rpc_release_connection c) (refines l (ReleaseConn c)) w.
Proof.
  intros Hs (_ & a & -> & Hc). destruct (heap_ok_lookup _ _ _ _ _ (sim_heap _ _ _ _ (proj1 Hs)) Hc) as (o & Ho & _).
  eapply (wp_rpc_release_connection a o (resources (remove a l) ++ R0)); [done|].
  intros w' Hb Hh Hg Hq. eexists. split; [by exists a|]. by eapply sim_remove.
Qed.

(** A send that leaves the objects as they are. *)
Lemma sim_post l w w' evs d :
  sim w0 R0 l w -> heap w' = heap w -> glob w' = glob w -> ran evs w w' -> neutral evs ->
  payloads evs = [d] -> callbacks evs = [] -> sim w0 R0 (post d l) w'.
Proof.
  intros [[Hh Hp Ht] Hg] Hh' Hg' Hr Hn Hd Hc. split; [|by rewrite Hg'].
  constructor; simpl; [by rewrite Hh'|done|].
  pose proof (traced_neutral _ _ _ _ _ _ _ _ Ht Hr Hn) as H. by rewrite Hd, Hc, app_nil_r in H.
Qed.

Lemma sim_quiet l w w' evs :
  sim w0 R0 l w -> heap w' = heap w -> glob w' = glob w -> ran evs w w' -> neutral evs ->
  payloads evs = [] -> callbacks evs = [] -> sim w0 R0 l w'.
Proof.
  intros [[Hh Hp Ht] Hg] Hh' Hg' Hr Hn Hd Hc. split; [|by rewrite Hg'].
  constructor; simpl; [by rewrite Hh'|done|].
  pose proof (traced_neutral _ _ _ _ _ _ _ _ Ht Hr Hn) as H. by rewrite Hd, Hc, !app_nil_r in H.
Qed.

Lemma payloads_one evs item f d :
  posted evs = [(item, f)] -> f_data f = Some (FD_rpclite d) -> payloads evs = [d].
Proof. unfold payloads. intros -> Hf. simpl. unfold rpclite_data. simpl. by rewrite Hf. Qed.

Lemma sim_send_blocking l w c segs timeout :
  sim w0 R0 l w -> legal l (SendBlocking c segs timeout) ->
  wp (rpc_send_blocking c segs (Z.of_nat (length segs)) timeout)
    (refines l (SendBlocking c segs timeout)) w.
Proof.
  intros Hs (_ & Hok & Hmax). eapply wp_mono; [by apply rpc_send_blocking_spec|].
  intros r w' [Hg (evs & Hr & H)]. destruct r as [rc| |code|]; [| | |done].
  - destruct H as (Hh & a & f & e & rep & Hf & (f' & dl & Hd & _ & Hp & Hc & _ & Hn & _) & _).
    eexists. split; [reflexivity|]. eapply sim_post; try done.
    eapply payloads_one; [done|]. by rewrite Hd.
  - destruct H as [(_ & [?|?])|(a & f & e & rep & (f' & dl & _ & _ & _ & _ & _ & _ & _ & Hans) & He)];
      [by left|by right; left|right; right]. by eexists _, _, _, e, rep.
  - by destruct H as (-> & _ & H).
Qed.

(** A message object that holds what the caller gave. *)
Lemma sim_add_message l w w' evs a r m d :
  sim w0 R0 l w -> heap w !! a = None -> heap w' = <[a := OMessage m]> (heap w) ->
  is_obj r (OMessage m) -> (forall b, r <> Endpoint b) -> role_resources a r = [] ->
  glob w' = glob w -> ran evs w w' -> neutral evs -> payloads evs = [d] -> callbacks evs = [] ->
  objs l !! a = None /\ sim w0 R0 (post d (add a r l)) w'.
Proof.
  intros [[Hh Hp Ht] Hg] Ha Hh' Ho Hr Hrr Hg' Hran Hn Hd Hc.
  destruct (heap_ok_fresh _ _ _ _ Hh Ha) as [Hm _]. split; [done|]. split; [|by rewrite Hg'].
  constructor; simpl; [rewrite Hh'; by apply heap_ok_add|by apply paired_add|].
  pose proof (traced_neutral _ _ _ _ _ _ _ _ Ht Hran Hn) as (e0 & L & H1 & H2 & H3 & H4 & H5).
  exists e0, L. rewrite Hd in H4. rewrite Hc, app_nil_r in H5. repeat split; try done.
  rewrite H3. unfold resources. simpl. rewrite objs_resources_add, Hrr by done. done.
Qed.

Lemma sim_send l w c segs f ctx timeout :
  sim w0 R0 l w -> legal l (SendAsync c segs f ctx timeout) ->
  wp (rpc_send c segs (Z.of_nat (length segs)) (Some f) ctx timeout)
    (refines l (SendAsync c segs f ctx timeout)) w.
Proof.
  intros Hs (_ & Hok & Hmax). eapply wp_mono; [by apply rpc_send_spec|].
  intros r w' [Hg (evs & Hr & [Hc Hn] & H)]. destruct r as [rc| |code|]; [| | |done].
  - destruct H as [(Hp & Hrc & Hh)|(a & now & dl & iv & rm & Ha & Hh & _ & Hp & _)].
    + exists l. split; [by left|]. eapply sim_quiet; try done. by apply payloads_quiet.
    + pose proof (payloads_one _ _ _ (payload segs) Hp eq_refl) as Hd.
      destruct (sim_add_message l w w' evs a (if rc =? 0 then Message (f, c, ctx) else Leaked) _
        (payload segs) Hs Ha Hh) as [Hm Hs']; try done; try by destruct (rc =? 0).
      { destruct (rc =? 0); [|done]. by eexists. }
      eexists. split; [|exact Hs']. right. by exists a.
  - by destruct H as [_ H].
  - by destruct H as (-> & _ & H).
Qed.

Lemma sim_send_epoch l w c our timeout :
  sim w0 R0 l w -> legal l (SendEpoch c our timeout) ->
  wp (rpc_send_epoch_blocking c our timeout) (refines l (SendEpoch c our timeout)) w.
Proof.
  intros Hs _. eapply wp_mono; [apply wp_epoch|]. intros r w' H.
  destruct Hs as [Hc [Hst (Hm & Hrest)]]. rewrite Hm in H.
  destruct (our <? max_epoch l) eqn:Hlt.
  - destruct H as [-> ->]. exists l. split; [simpl; by rewrite Hlt|]. by split.
  - destruct H as [Hg (evs & Hr & H)]. destruct r as [[rc theirs]| |code|]; [| | |done].
    + destruct H as (Hh & Hcb & Hn & _ & _ & Hrc & _ & item & f & id & Hp & Hd).
      eexists. split; [simpl; rewrite Hlt; split; [exact Hrc|reflexivity]|].
      destruct Hc as [Hheap Hpair Ht].
      split; [constructor; simpl; [by rewrite Hh|done|]|].
      * pose proof (traced_neutral _ _ _ _ _ _ _ _ Ht Hr Hn) as H.
        rewrite Hcb, app_nil_r in H. unfold payloads in H. rewrite Hp in H. simpl in H.
        unfold rpclite_data in H. simpl in H. by rewrite Hd, app_nil_r in H.
      * rewrite Hg. by split.
    + by destruct H as [_ H].
    + by destruct H as [-> _].
Qed.

Context (Hlast : InFlight.put_is_last).

Lemma sim_reply l w a e rep :
  sim w0 R0 l w -> legal l (Reply a e rep) -> wp (exec (Reply a e rep)) (refines l (Reply a e rep)) w.
Proof using Hlast.
  intros [[Hh Hp Ht] Hg] [[[[f c] ctx] Ha] He].
  destruct (heap_ok_lookup _ _ _ _ _ Hh Ha) as (o & Ho & m & -> & Hcb & Hmc & Hmx).
  pose proof (InFlight.wp_answer a e rep m f w Hlast Ho Hcb He (stats_length _ _ _ Hg)) as Hwp.
  eapply (wp_mono _ _ _ _ Hwp). clear Hwp.
  intros r w' [(-> & Hh' & _ & evs & Hr & Hc & Hpo & Hn & Hst)|(-> & -> & rs & t & Hrs & Hadd)].
  - pose proof (traced_neutral _ _ _ _ _ _ _ _ Ht Hr Hn) as Ht'.
    rewrite (payloads_quiet evs Hpo), Hc, app_nil_r, Hmc, Hmx in Ht'.
    assert (Hres : resources l ≡ₚ resources (remove a l)).
    { unfold resources. simpl. by rewrite (objs_resources_remove _ _ _ Ha). }
    assert (Hcore : forall st, st = status_of e ->
      core w0 R0 (answer (f, c, ctx) st (remove a l)) w').
    { intros st ->. constructor; simpl; [rewrite Hh'; by eapply heap_ok_remove|by eapply paired_remove|].
      destruct Ht' as (e0 & L & H1 & H2 & H3 & H4 & H5). exists e0, L. repeat split; try done.
      rewrite H3, Hres. done. }
    pose proof (glob_ok_timed_send _ _ _ _ Hg Hst) as Hg'. destruct (e =? 0) eqn:He0.
    + destruct Hg' as (t & Hti & Hg').
      exists (answer (f, c, ctx) RPC_OK (remove a (timed_send t l))). split.
      * exists (f, c, ctx). split; [done|]. rewrite He0. by exists t.
      * split; [|done]. apply Z.eqb_eq in He0. subst. by destruct (Hcore RPC_OK eq_refl).
    + exists (answer (f, c, ctx) (status_of e) (remove a l)). split.
      * exists (f, c, ctx). split; [done|]. by rewrite He0.
      * split; [|done]. by apply Hcore.
  - split; [done|]. destruct Hg as ((rs1 & rs2 & Hs & _ & H2) & _). rewrite Hs in Hrs.
    injection Hrs as <-. destruct (decide (Z.of_nat (length (send_times l)) = 2 ^ 32 - 1)) as [|Hne]; [done|].
    destruct H2 as [Hrep Hlen].
    destruct (stat_add_full (send_times l) t rs2 Hrep); [lia|done].
Qed.

Lemma sim_call l w c : sim w0 R0 l w -> legal l (Call c) -> wp (do! c) (refines l (Call c)) w.
Proof.
  intros [[Hh Hp Ht] Hg] Hl. apply (wp_ext c). intros a s _ Ha. destruct (Hl a) as (Hpo & Hc & Hrel).
  assert (Hq : quiet w (log c a s w)).
  { exists [Ev c a]. split; [done|]. unfold posted, callbacks. simpl. by rewrite Hpo, Hc. }
  assert (Hb : forall R R', account R (Ev c a) = Some R' -> balance w (log c a s w) R R').
  { intros R R' H. exists [Ev c a]. split; [done|]. by rewrite held_cons, H. }
  unfold account in Hb. simpl in Hb. unfold refines. cbn [outcome].
  destruct (action_of c a) as [r|r|]; [exists (hold r l)|done|exists l];
    (split; [by split|]); (split; [|done]); constructor; try done;
    (eapply traced_quiet; [done|done|by apply Hb|done|]).
  - unfold resources. simpl. solve_Permutation.
  - done.
Qed.

Lemma sim_op l w o : sim w0 R0 l w -> legal l o -> wp (exec o) (refines l o) w.
Proof using Hreqh Hlast.
  intros Hs Hl. destruct o.
  - by apply sim_init.
  - by apply sim_fini.
  - eapply wp_mono; [by apply sim_create; [|apply Hl]|]. by intros [] w' H.
  - by apply sim_listen.
  - by apply sim_destroy.
  - by apply sim_connect.
  - by apply sim_disconnect.
  - by apply sim_release.
  - by apply sim_send_blocking.
  - by apply sim_send.
  - by apply sim_send_epoch.
  - by apply sim_call.
  - by apply sim_reply.
Qed.

(** C1. Refinement of the specification of rpclite. From a state that
    represents the abstract state [l], every operation of rpclite.h that the
    caller may use in [l] - and every answer of Mero to a message in flight -
    returns a result and reaches a state that the specification allows, with
    exactly the memory, Mero objects, posted payloads, callbacks and recorded
    times of the new abstract state; it fails to return only for one of the
    listed reasons (memory, an address that is too long, a message that does
    not fit, a wrapped counter, a success without a reply). *)
Theorem library_refines l w o :
  sim w0 R0 l w -> legal l o ->
  wp (exec o) (fun r w' => match r with
                           | Ok v => exists l', outcome l o v l' /\ sim w0 R0 l' w'
                           | r => excused l o r
                           end) w.
Proof using Hreqh Hlast. apply sim_op. Qed.

Lemma sim_accounts l w : sim w0 R0 l w -> accounts w0 R0 l w.
Proof.
  intros [[Hh _ (evs & L & Hr & Hheld & HL & Hps & Hcs)] _]. repeat split.
  - intros a o Ha. specialize (Hh a). destruct (objs l !! a); [right; eauto|left; congruence].
  - specialize (Hh a). destruct (objs l !! a); [destruct Hh|]; congruence.
  - specialize (Hh a). destruct (objs l !! a); [destruct Hh; congruence|done].
  - intros a r Ha. by destruct (heap_ok_lookup _ _ _ _ _ Hh Ha) as (o & -> & _).
  - exists evs, L. by repeat split.
Qed.

End Operations.

(** * The instance

    What the library needs of Mero: [m0_rpc_machine_init] keeps the request
    handler it is given, and the reply handler drops the last reference. *)
Class MeroKeeps : Prop := {
  keeps_reqh : machine_keeps_reqh;
  keeps_put : InFlight.put_is_last;
}.

#[global] Instance rpclite `{MK : MeroKeeps} : RpcLite.
Proof.
  refine {| represents := sim |}.
  - intros w R cts sts rs1 rs2 Hst H1 H2. split; [|by split; [exists rs1, rs2|]].
    constructor; [apply heap_ok_empty|apply paired_empty|]. exists [], R.
    split; [apply ran_refl|]. split; [done|]. split; [|done]. unfold resources. simpl.
    by rewrite objs_resources_empty.
  - intros w0 R0 l w o Hs Hl. by apply sim_op; [apply MK|apply MK|..].
  - by intros w0 R0 l w [_ [H _]].
  - by intros w0 R0 l w [_ (_ & H & _)].
  - by intros w0 R0 l w [_ (_ & _ & _ & H)].
  - apply sim_accounts.
Defined.

(** C11. Any client. A client that, by the specification alone, uses every
    operation when it may and closes what it opened, leaves the process as it
    found it when it runs on the C code: nothing of the heap it started with is
    changed, the only other blocks and the only other Mero objects are those
    that failed operations leaked, and the payloads posted and callbacks made
    are the ones the specification records. Otherwise one of its operations ended
    the process: those before it returned what the specification allows, and it
    failed for a reason that the specification lists for that operation in the
    state that was reached. *)
Theorem tidy_clients_restore `{MK : MeroKeeps} c w R rs1 rs2 cts sts :
  rpc_stat (glob w) = [rs1; rs2] -> recorded cts rs1 -> recorded sts rs2 ->
  respects (closed cts sts (client_max_epoch (glob w)) (rpclite_listen_cbs (glob w))) c tidy ->
  wp (run c) (fun r w' =>
    (r = Ok tt /\ exists l, tidy l /\ (heap w ⊆ heap w' /\
       (dom (heap w') = dom (heap w) ∪ dom (objs l) /\ dom (heap w) ## dom (objs l)) /\
       (objs l = ∅ -> heap w' = heap w)) /\
       exists evs L, ran evs w w' /\ held R evs = Some L /\ L ≡ₚ objs_resources (objs l) ++ R /\
         payloads evs = sent l /\ callbacks evs = answered l) \/
    exists x, crash_of r = Some x /\
      stops w R (closed cts sts (client_max_epoch (glob w)) (rpclite_listen_cbs (glob w))) c w x w') w.
Proof.
  intros Hst H1 H2 Hc. pose proof (represents_closed w R cts sts rs1 rs2 Hst H1 H2) as Hw.
  eapply wp_mono; [exact (client_runs w R c tidy _ w Hc Hw)|]. intros [[]| | |] w' Hr; [left|right; exact Hr..].
  destruct Hr as (l & Ht & Hs). split; [done|]. exists l. split; [done|].
  pose proof (represents_accounts _ _ _ _ Hs) as Hacc.
  split; [by eapply accounts_heap|]. destruct Hacc as (_ & _ & _ & evs & L & Hr & Hh & HL & Hp & Hcb).
  exists evs, L. repeat split; try done. destruct Ht as (Hup & Hown & _).
  rewrite HL. unfold resources. by rewrite Hup, Hown, app_nil_r.
Qed.

End Impl.
(** ** Witnesses *)

Lemma keep_reqh_put : InFlight.put_is_last (E := fixed_env keep_reqh).
Proof. by intros p b [s <-]. Qed.

#[global] Instance keep_reqh_keeps : MeroKeeps (E := fixed_env keep_reqh).
Proof. constructor; [apply keep_reqh_law|apply keep_reqh_put]. Qed.

Lemma recorded_nothing : recorded [] zero_statistic.
Proof. by repeat split. Qed.

Lemma sim_start :
  sim (start keep_reqh) [] (closed [] [] 0 no_listeners) (start keep_reqh).
Proof. exact (represents_closed (start keep_reqh) [] [] [] _ _ eq_refl recorded_nothing recorded_nothing). Qed.

Lemma library_refines_witness :
  (rpc_init (start keep_reqh)).1 = Ok 0 /\
  wp rpc_init (fun r w' => match r with
      | Ok rc => exists l', outcome (E := fixed_env keep_reqh) (closed [] [] 0 no_listeners) Init rc l' /\ sim (start keep_reqh) [] l' w'
      | r => excused (E := fixed_env keep_reqh) (closed [] [] 0 no_listeners) Init r
      end) (start keep_reqh).
Proof.
  split; [vm_compute; reflexivity|].
  exact (library_refines (start keep_reqh) [] keep_reqh_law keep_reqh_put _ _ Init sim_start eq_refl).
Defined.

(** Opens an endpoint and closes it. *)
Definition brief : client :=
  Use Init (fun rc => if rc =? 0 then
    Use (Create "0@lo:12345:34:10" var) (fun v => if v.1 =? 0 then
      Use (Destroy v.2) (fun _ => Use Fini (fun _ => Done)) else Use Fini (fun _ => Done))
    else Done).

Lemma brief_respects : respects (E := fixed_env keep_reqh) (closed [] [] 0 no_listeners) brief tidy.
Proof.
  split; [done|]. intros rc l' [_ ->]. destruct (rc =? 0); [|done].
  split; [done|]. intros [rc' p] l' (_ & a & Hp & Ha & H). simpl in *. subst p.
  destruct (rc' =? 0).
  - destruct H as (b & Hb & Hne & ->). split; [split; [done|]; exists a, b; split; [done|simpl; by simpl_map]|].
    intros _ l' (a' & b' & [= <-] & Hl & ->). simpl in Hl. rewrite lookup_insert_eq in Hl. injection Hl as <-.
    split; [done|]. intros _ l' ->. split; [done|]. split; [done|]. simpl.
    intros x r Hx. rewrite !lookup_delete, !lookup_insert, lookup_empty in Hx. by repeat case_decide.
  - destruct H as [->|(b & r & Hr & Hb & Hne & ->)]; (split; [done|]); intros _ l' ->;
      (split; [done|]); (split; [done|]); simpl.
    + apply map_Forall_insert_2; [done|apply map_Forall_empty].
    + apply map_Forall_insert_2; [done|]. apply map_Forall_insert_2; [|apply map_Forall_empty].
      by destruct Hr as [->| ->].
Qed.

Lemma tidy_clients_restore_witness :
  (run brief (start keep_reqh)).1 = Ok tt /\
  wp (run brief) (fun r w' =>
    (r = Ok tt /\ exists l, tidy l /\ (∅ ⊆ heap w' /\
       (dom (heap w') = ∅ ∪ dom (objs l) /\ (∅ : gset positive) ## dom (objs l)) /\
       (objs l = ∅ -> heap w' = ∅)) /\
       exists evs L, ran evs (start keep_reqh) w' /\ held [] evs = Some L /\ L ≡ₚ objs_resources (objs l) ++ [] /\
         payloads evs = sent l /\ callbacks evs = answered l) \/
    exists x, crash_of r = Some x /\
      stops (E := fixed_env keep_reqh) (start keep_reqh) [] (closed [] [] 0 no_listeners) brief (start keep_reqh) x w')
    (start keep_reqh).
Proof.
  split; [vm_compute; reflexivity|].
  exact (tidy_clients_restore brief (start keep_reqh) [] _ _ [] [] eq_refl recorded_nothing recorded_nothing
    brief_respects).
Defined.

End LibraryImpl.
