(* ===== verification/Clients.v ===== *)
(** Rules for verifying programs that use rpclite on a working system, against
    the interface of Library.v: one rule per operation with the failures that a
    working system excludes left out, a rule for loops, and the frame of a
    [main] function. *)

From S2P Require Import Prelude CTypes Machine Stats Resources RpcInit Endpoint Connection.
From S2P Require Import Payload Send InFlight Epoch M0Init Library LibraryImpl.
Local Open Scope Z_scope.

Module Clients.
Import Stats RpcInit Endpoint Connection Payload Send Epoch M0Init Library LibraryImpl.

(** * A working system

    Memory is available and Mero initialises what it is asked to; what it
    answers to posts is left open. *)
Class Reliable {E : Env} : Prop := {
  rel_alloc : forall r ok, answers (alloc r) ok -> ok = true;
  rel_hi : forall out o a, answers (m0_halon_interface_init out o) a -> a.1 = 0 /\ a.2 <> Null;
  rel_net : forall d rc, answers (m0_net_domain_init d) rc -> rc = 0;
  rel_pool : forall d p n m rc, answers (m0_rpc_net_buffer_pool_setup d p n m) rc -> rc = 0;
  rel_reqh : forall r f rc, answers (M0_REQH_INIT r f) rc -> rc = 0;
  rel_machine : forall m d s r p c z n a,
    answers (m0_rpc_machine_init m d s r p c z n) a -> a = (0, r);
  rel_ep : forall tm s a, answers (m0_net_end_point_create tm s) a -> a.1 = 0;
  rel_conn : forall c ep m n d rc, answers (m0_rpc_conn_create c ep m n d) rc -> rc = 0;
  rel_session : forall s c d rc, answers (m0_rpc_session_create s c d) rc -> rc = 0;
  rel_fop : forall s t ok, answers (m0_fop_alloc_at s t) ok -> ok = true;
  rel_reply : forall fop s d f e rep, answers (m0_rpc_post_sync fop s d f) (0, e, rep) ->
    e = 0 /\ rep <> Null;
  rel_put : forall p last, answers (m0_fop_put p) last -> last = true;
  rel_thread : forall t arg rc, answers (M0_THREAD_INIT t arg) rc -> rc = 0;
}.

#[global] Instance reliable_keeps {E : Env} {REL : Reliable} : MeroKeeps.
Proof.
  constructor.
  - intros m d s reqh pool c sz n q H. by apply rel_machine in H as [= ->].
  - intros p b. apply rel_put.
Qed.

Section Rules.
Context {E : Env} {REL : Reliable}.

Lemma has_memory r : ~ no_memory r.
Proof using REL. by intros H%rel_alloc. Qed.

Lemma has_fop s t : ~ answers (m0_fop_alloc_at s t) false.
Proof using REL. by intros H%rel_fop. Qed.

Lemma replies c : ~ success_without_reply c.
Proof using REL. intros (fop & dl & f & e & rep & [-> Hr]%rel_reply & [?|?]); congruence. Qed.

Lemma no_create_error rc : create_error rc -> rc = 0.
Proof using REL.
  intros [(d & p & n & k & H)|[(q & f & H)|(m & d & s & q & p & c & z & n & a & H)]].
  - by apply rel_pool in H. - by apply rel_reqh in H. - apply rel_machine in H. congruence.
Qed.

Lemma no_connect_error rc : connect_error rc -> rc = 0.
Proof using REL.
  intros [(tm & s & p & H)|[(c & ep & m & n & d & H)|(s & c & d & H)]].
  - by apply rel_ep in H. - by apply rel_conn in H. - by apply rel_session in H.
Qed.

Context {RL : RpcLite} (w0 : world) (R0 : list resource).
Implicit Types (l : lib) (X : crash -> Prop).
Abbreviation awp := (awp w0 R0).

(** ** One rule per operation *)

Lemma awp_init_ok l Q X :
  up l = false -> Q 0 (set_epoch 0 (set_up true l)) -> awp rpc_init Q X l.
Proof using REL.
  intros Hup HQ. apply (awp_op w0 R0 Init); [done| |by intros []].
  intros rc l' [Hrc ->]. by apply rel_net in Hrc as ->.
Qed.

Lemma awp_fini l Q X : up l = true -> Q tt (set_up false l) -> awp rpc_fini Q X l.
Proof. intros Hup HQ. apply (awp_op w0 R0 Fini); [done|by intros [] l' ->|by intros []]. Qed.

Lemma created_ok l v l' : created l v l' ->
  exists a b, v = (0, addr a) /\ objs l !! a = None /\ objs l !! b = None /\ b <> a /\
    l' = add a (Endpoint b) (add b (Reqh a) l).
Proof using REL.
  destruct v as [rc p]. intros (Herr & a & Hp & Ha & H). simpl in *. subst p.
  assert (rc = 0) as ->.
  { destruct (decide (rc = 0)) as [|Hrc]; [done|]. by apply no_create_error, Herr. }
  destruct H as (b & Hb & Hne & ->). by exists a, b.
Qed.

Lemma awp_create_ok l s out Q X :
  up l = true -> out <> Null -> fits s = true ->
  (forall a b, objs l !! a = None -> objs l !! b = None -> b <> a ->
     Q (0, addr a) (add a (Endpoint b) (add b (Reqh a) l))) ->
  awp (rpc_create_endpoint s out) Q X l.
Proof using REL.
  intros Hup Hout Hfits HQ. apply (awp_op w0 R0 (Create s out)); [done| |].
  - intros v l' Hc. destruct (created_ok _ _ _ Hc) as (a & b & -> & Ha & Hb & Hne & ->). by apply HQ.
  - intros [] c Hex Hc; simpl in Hex; try done.
    + destruct Hex as [?|H]; [congruence|by apply has_memory in H].
    + by apply has_memory in Hex.
Qed.

Lemma awp_listen_ok l s cbs out Q X :
  up l = true -> out <> Null -> fits s = true ->
  (forall a b, objs l !! a = None -> objs l !! b = None -> b <> a ->
     Q (0, addr a) (add a (Endpoint b) (add b (Reqh a) (listen (default no_listeners cbs) l)))) ->
  awp (rpc_listen s cbs out) Q X l.
Proof using REL.
  intros Hup Hout Hfits HQ. apply (awp_op w0 R0 (Listen s cbs out)); [done| |].
  - intros v l' Hc. destruct (created_ok _ _ _ Hc) as (a & b & -> & Ha & Hb & Hne & ->). by apply HQ.
  - intros [] c Hex Hc; simpl in Hex; try done.
    + destruct Hex as [?|H]; [congruence|by apply has_memory in H].
    + by apply has_memory in Hex.
Qed.

Lemma awp_destroy l a b Q X :
  up l = true -> objs l !! a = Some (Endpoint b) -> Q tt (remove a (remove b l)) ->
  awp (rpc_destroy_endpoint (addr a)) Q X l.
Proof.
  intros Hup Ha HQ. apply (awp_op w0 R0 (Destroy (addr a))); [|by intros [] l' (a' & b' & [= <-] & Hb & ->); simplify_eq|by intros []].
  split; [done|]. by exists a, b.
Qed.

(** There is room in the counter of the statistics. *)
Definition room (ts : list Z) : Prop := Z.of_nat (length ts) < 2 ^ 32 - 1.

Lemma awp_connect_ok l a b s timeout out Q X :
  up l = true -> objs l !! a = Some (Endpoint b) -> out <> Null -> fits s = true ->
  room (conn_times l) ->
  (forall c t, objs l !! c = None -> is_time t ->
     Q (0, addr c) (timed_conn t (add c Connection l))) ->
  awp (rpc_connect (addr a) s timeout out) Q X l.
Proof using REL.
  intros Hup Ha Hout Hfits Hroom HQ. apply (awp_op w0 R0 (Connect (addr a) s timeout out)).
  - split; [|done]. split; [done|]. by exists a, b.
  - intros [rc p] l' (Herr & c & Hp & Hc & H). simpl in *. subst p.
    apply no_connect_error in Herr as ->. destruct H as (t & Ht & ->). by apply HQ.
  - intros [] c Hex Hc; simpl in Hex; try done; [congruence|].
    destruct Hex as [H|H]; [by apply has_memory in H|unfold room in Hroom; lia].
Qed.

Lemma awp_disconnect l a timeout Q X :
  up l = true -> objs l !! a = Some Connection -> (forall rc, Q rc (remove a l)) ->
  awp (rpc_disconnect (addr a) timeout) Q X l.
Proof.
  intros Hup Ha HQ. apply (awp_op w0 R0 (Disconnect (addr a) timeout)).
  - split; [done|]. by exists a.
  - intros rc l' (a' & [= <-] & _ & ->). apply HQ.
  - by intros [].
Qed.

Lemma awp_send_blocking_ok l a segs timeout Q X :
  up l = true -> objs l !! a = Some Connection -> Forall seg_ok segs -> total segs <= INT_MAX ->
  (oversized (addr a) segs -> X (CExited 1)) -> (forall rc, Q rc (post (payload segs) l)) ->
  awp (rpc_send_blocking (addr a) segs (Z.of_nat (length segs)) timeout) Q X l.
Proof using REL.
  intros Hup Ha Hok Hmax HX HQ. apply (awp_op w0 R0 (SendBlocking (addr a) segs timeout)).
  - split; [|done]. split; [done|]. by exists a.
  - intros rc l' ->. apply HQ.
  - intros [] c Hex [= <-]; simpl in Hex; try done; [|by destruct Hex as [-> ?]; apply HX].
    destruct Hex as [H|[H|H]]; [by apply has_fop in H|by apply has_memory in H|by apply replies in H].
Qed.

Lemma awp_send_ok l a segs f ctx timeout Q X :
  up l = true -> objs l !! a = Some Connection -> Forall seg_ok segs -> total segs <= INT_MAX ->
  (oversized (addr a) segs -> X (CExited 1)) ->
  (forall rc, rc <> 0 -> Q rc l) ->
  (forall rc m, objs l !! m = None ->
     Q rc (post (payload segs) (add m (if rc =? 0 then Message (f, addr a, ctx) else Leaked) l))) ->
  awp (rpc_send (addr a) segs (Z.of_nat (length segs)) (Some f) ctx timeout) Q X l.
Proof using REL.
  intros Hup Ha Hok Hmax HX HQ1 HQ2. apply (awp_op w0 R0 (SendAsync (addr a) segs f ctx timeout)).
  - split; [|done]. split; [done|]. by exists a.
  - intros rc l' [[Hrc ->]|(m & Hm & ->)]; auto.
  - intros [] c Hex [= <-]; simpl in Hex; try done; [|by destruct Hex as [-> ?]; apply HX].
    by destruct Hex as [H|H]; apply has_memory in H.
Qed.

(** A call to Mero or libc. *)
Lemma awp_call c Q X l :
  (forall a, foreign c a) ->
  (forall a, answers c a -> Q a (match action_of c a with Acquire r => hold r l | _ => l end)) ->
  awp (do! c) Q X l.
Proof.
  intros Hf HQ. apply (awp_op w0 R0 (Call c)); [done| |by intros []].
  intros a l' [Ha Hl']. specialize (HQ a Ha). by destruct (action_of c a); subst.
Qed.

Lemma awp_assert (b : bool) Q X l : b = true -> Q tt l -> awp (M0_ASSERT b) Q X l.
Proof. intros -> HQ w Hw. apply wp_assert; [|done]. intros _. by exists l. Qed.

(** ** Loops *)

Lemma awp_for_each {A} (xs : list A) body (I : list A -> lib -> Prop) X l :
  I [] l ->
  (forall done x rest l, xs = done ++ x :: rest -> I done l ->
     awp (body x) (fun _ l' => I (done ++ [x]) l') X l) ->
  awp (for_each xs body) (fun _ l' => I xs l') X l.
Proof.
  intros H0 Hbody.
  enough (forall todo done l, xs = done ++ todo -> I done l ->
    awp (for_each todo body) (fun _ l' => I xs l') X l) as H by by apply (H xs []).
  induction todo as [|x todo IH]; intros done l1 Hl HI; simpl.
  - apply awp_ret. by rewrite Hl, app_nil_r.
  - apply awp_bind. eapply awp_mono; [by eapply Hbody|].
    intros [] l2 HI'. eapply IH; [|done]. by rewrite <- (assoc_L (++)).
Qed.
End Rules.

(** ** A [main] function

    It starts Mero, which it never stops, and then uses the library. *)

(** What a program leaves behind: the heap it found and a block for each object
    still open, the Mero objects of the abstract state and the interface. *)
Definition leaves {E : Env} (w : world) (R : list resource) (l : lib) (w' : world) : Prop :=
  heap w ⊆ heap w' /\
  (dom (heap w') = dom (heap w) ∪ dom (objs l) /\ dom (heap w) ## dom (objs l)) /\
  (objs l = ∅ -> heap w' = heap w) /\
  exists evs L, ran evs w w' /\ held R evs = Some L /\
    L ≡ₚ resources l ++ RInterface (m0init_hi (glob w')) :: R /\
    payloads evs = sent l /\ callbacks evs = answered l.

Section Main.
Context {E : Env} {REL : Reliable}.

Definition fresh_lib (w : world) : lib :=
  closed [] [] (client_max_epoch (glob w)) (rpclite_listen_cbs (glob w)).

(** [wb] and [Rb] are the world and the Mero objects once Mero is started. *)
Lemma wp_start_mero R w Q :
  m0init_hi (glob w) = Null -> rpc_stat (glob w) = replicate RPC_STAT_NR zero_statistic ->
  (forall wb Rb, represents wb Rb (fresh_lib w) wb ->
     (forall l w', represents wb Rb l w' -> leaves w R l w') -> Q (Ok 0) wb) ->
  wp m0_init_wrapper Q w.
Proof using REL.
  intros Hhi Hst HQ. unfold m0_init_wrapper. wp_step. wp_step.
  rewrite Hhi, bool_decide_true by done. wp_go. destruct a0 as [rc hi].
  match goal with H : answers (m0_halon_interface_init _ _) _ |- _ =>
    destruct (rel_hi _ _ _ H) as [Hrc _] end. simpl in Hrc. subst rc.
  match goal with |- Q _ ?w1 => set (w1' := w1) end.
  apply (HQ w1' (RInterface hi :: R)).
  { apply (represents_closed w1' _ [] [] zero_statistic zero_statistic); done. }
  intros l w' Hr. pose proof (represents_hi _ _ _ _ Hr) as Hhi'.
  pose proof (represents_accounts _ _ _ _ Hr) as Hacc.
  destruct (accounts_heap _ _ _ _ Hacc) as (Hs1 & Hs2 & Hs3).
  destruct Hacc as (_ & _ & _ & evs & L & Hran & Hh & HL & Hp & Hc).
  split; [exact Hs1|]. split; [exact Hs2|]. split; [exact Hs3|].
  rewrite Hhi'. eexists ([_; _] ++ evs), L. split; [|split; [|split; [exact HL|]]].
  - eapply ran_trans; [|exact Hran]. unfold ran. cbn. by rewrite <- (assoc_L (++)).
  - rewrite held_app. exact Hh.
  - split; [exact Hp|exact Hc].
Qed.

Lemma wp_program {A} (body : M A) Q X R w :
  m0init_hi (glob w) = Null -> rpc_stat (glob w) = replicate RPC_STAT_NR zero_statistic ->
  (forall w1 R1, awp w1 R1 body Q X (fresh_lib w)) ->
  wp (m0_init_wrapper ;; body) (ends (fun v w' => exists l, Q v l /\ leaves w R l w') X) w.
Proof using REL.
  intros Hhi Hst Hbody. apply wp_bind. apply (wp_start_mero R); [done|done|]. intros wb Rb Hwb Hl.
  eapply wp_mono; [by apply (Hbody wb Rb)|].
  intros [v| | |] w' Hv; [|exact Hv..]. destruct Hv as (l & HQ & Hr). exists l. auto.
Qed.
End Main.

(** Several posts. *)
Definition posts (ds : list rpclite_fop) (l : lib) : lib :=
  Lib (up l) (objs l) (conn_times l) (send_times l) (max_epoch l) (listeners l) (sent l ++ ds)
    (answered l) (own l).

Lemma posts_nil l : posts [] l = l.
Proof. unfold posts. rewrite app_nil_r. by destruct l. Qed.

Lemma posts_posts d1 d2 l : posts d2 (posts d1 l) = posts (d1 ++ d2) l.
Proof. unfold posts. simpl. by rewrite (assoc_L (++)). Qed.

(** Decide equalities between maps of objects. *)
Ltac solve_objs :=
  cbn in *; apply map_eq; intros ?x;
  repeat match goal with H : objs ?l = _ |- context [objs ?l] => rewrite H end;
  repeat (rewrite lookup_insert || rewrite lookup_delete || rewrite lookup_empty);
  repeat case_decide; simplify_map_eq; try congruence; try done.

End Clients.
