(* ===== verification/Programs.v ===== *)
(** Programs of the repository that use rpclite from start to end, verified
    against the interface of Library.v: test2.c (a server and a client that
    closes its connection from a thread), test3.c (a client that sends messages
    of 32 Kb), test7.c (a benchmark of connections) and test9.c (a benchmark of
    blocking sends). Diagnostics, sleeps and clock readings are left out. *)

From S2P Require Import Prelude CTypes Machine Stats Resources RpcInit Endpoint Connection.
From S2P Require Import Payload Send InFlight Epoch M0Init Library LibraryImpl Clients.
Local Open Scope Z_scope.

Module Programs.
Import Stats RpcInit Endpoint Connection Payload Send Epoch M0Init Library LibraryImpl Clients.

(** The addresses of the local variables [e], [c] and [thread]. *)
Definition var_e : ptr := Ptr (Foreign 101) [].
Definition var_c : ptr := Ptr (Foreign 102) [].
Definition var_thread : ptr := Ptr (Foreign 103) [].
(** The callbacks [rcv] and [reply_rcv] of the programs. *)
Definition rcv : Z := 1.
Definition reply_rcv : Z := 2.
(** [(void* ) 5] *)
Definition ctx5 : ptr := Ptr (Foreign 5) [].

(** A string literal: its characters and the terminating zero. *)
Definition c_string (s : string) : list Z :=
  (fun a => Z.of_N (Ascii.N_of_ascii a)) <$> String.list_ascii_of_string s ++ [Ascii.zero].

Definition rcv_only : rpc_listen_callbacks :=
  {| connection_callback := None; disconnected_callback := None; receive_callback := Some rcv |}.

Section Programs.
Context {E : Env}.

(** * The programs *)

(** test2.c. The receive callback: whether it takes the branch that prints the
    fragment, and its result. *)
Definition test2_rcv (it : ptr) : M (bool * Z) :=
  n ← rpc_get_fragments_count it;
  if n =? 2 then
    _ ← rpc_get_fragment it 0; _ ← rpc_get_fragments_count it; mret (true, 0)
  else _ ← rpc_get_fragments_count it; mret (false, 0).

Definition two_strings : list iovec :=
  [{| iov_base := c_string "segment 1"; iov_len := 10 |};
   {| iov_base := c_string "segment 2"; iov_len := 10 |}].

Definition listening_server : M unit :=
  r ← rpc_listen "0@lo:12345:34:10" (Some rcv_only) var_e;
  rpc_destroy_endpoint r.2.

Definition cclose (c : ptr) : M unit := rpc_disconnect c 2 ;; mret tt.

(** The thread runs between its creation and the join, while [main] waits. *)
Definition test2_client : M unit :=
  r ← rpc_create_endpoint "0@lo:12345:34:2" var_e;
  k ← rpc_connect r.2 "0@lo:12345:34:10" 3 var_c;
  rpc_send_blocking k.2 two_strings 2 1 ;;
  rpc_send k.2 two_strings 2 (Some reply_rcv) ctx5 2 ;;
  rc ← do! (M0_THREAD_INIT var_thread 0);
  (if rc =? 0 then cclose k.2 else mret tt) ;;
  do! (m0_thread_join var_thread) ;;
  rpc_destroy_endpoint r.2.

Definition test2_main (argc : Z) : M Z :=
  m0_init_wrapper ;;
  rpc_init ;;
  (if 1 <? argc then listening_server else test2_client) ;;
  rpc_fini ;;
  mret 0.

(** test3.c. [for (i = 0; i < n; i += 1) { rc = rpc_send_blocking (..); if (rc) break; }] *)
Fixpoint send_loop (n : nat) (c : ptr) (segments : list iovec) : M unit :=
  match n with
  | O => mret tt
  | S n =>
      rc ← rpc_send_blocking c segments 1 1;
      if rc =? 0 then send_loop n c segments else mret tt
  end.

(** The two branches of [main], and [main]; [arr0] is the uninitialised array
    it sends. *)
Definition test3_server : M unit := listening_server.

Definition test3_client (arr0 : list Z) : M unit :=
  r ← rpc_create_endpoint "0@lo:12345:34:2" var_e;
  k ← rpc_connect r.2 "0@lo:12345:34:10" 3 var_c;
  send_loop 200 k.2 [{| iov_base := arr0; iov_len := 1024 * 32 |}] ;;
  rpc_disconnect k.2 2 ;;
  rpc_destroy_endpoint r.2.

Definition test3_main (argc : Z) (arr0 : list Z) : M Z :=
  m0_init_wrapper ;;
  rpc_init ;;
  (if 1 <? argc then test3_server else test3_client arr0) ;;
  rpc_fini ;;
  mret 0.

(** test7.c and test9.c: 20 rounds of samples; [exit (1)] on an error. The
    result of the body is what is printed before [exit (0)]. *)
Definition rounds (samples : nat) (sample : M unit) : M unit :=
  for_each (seq 0 20) (fun _ => for_each (seq 0 samples) (fun _ => sample)).

Definition connect_sample (e : ptr) : M unit :=
  k ← rpc_connect e "0@lo:12345:34:10" 5 var_c;
  if k.1 =? 0 then mret tt else exit 1.

Definition test7_body : M (Z * Z) :=
  rpc_init ;;
  r ← rpc_listen "0@lo:12345:34:10" (Some rcv_only) var_e;
  rounds 200 (connect_sample r.2) ;;
  m ← get_max_rpc_time RPC_STAT_CONN;
  a ← get_avg_rpc_time RPC_STAT_CONN;
  mret (m, a).

Definition test7_main : M (Z * Z) := m0_init_wrapper ;; test7_body.

Definition send_sample (c : ptr) (arr0 : list Z) : M unit :=
  rc ← rpc_send_blocking c [{| iov_base := arr0; iov_len := 1024 |}] 1 1;
  if rc =? 0 then mret tt else exit 1.

Definition test9_body (arr0 : list Z) : M (Z * Z) :=
  rpc_init ;;
  r ← rpc_listen "0@lo:12345:34:10" (Some rcv_only) var_e;
  k ← rpc_connect r.2 "0@lo:12345:34:10" 5 var_c;
  if k.1 =? 0 then
    rounds 100 (send_sample k.2 arr0) ;;
    m ← get_max_rpc_time RPC_STAT_SEND;
    a ← get_avg_rpc_time RPC_STAT_SEND;
    mret (m, a)
  else exit 1.

Definition test9_main (arr0 : list Z) : M (Z * Z) := m0_init_wrapper ;; test9_body arr0.

(** [nsdiff] of test7.c and test9.c, in [long]; [None] is an overflow. *)
Record timespec := Timespec { tv_sec : Z; tv_nsec : Z }.
Definition long (n : Z) : option Z := if (- 2 ^ 63 <=? n) && (n <? 2 ^ 63) then Some n else None.
Definition nsdiff (t0 t1 : timespec) : option Z :=
  s ← long (tv_sec t0 - tv_sec t1);
  ns ← long (1000 * 1000 * 1000 * s);
  u ← long (ns + tv_nsec t0);
  long (u - tv_nsec t1).

(** A normal time, in nanoseconds. *)
Definition normal (t : timespec) : Prop := 0 <= tv_nsec t < 1000000000.
Definition nanoseconds (t : timespec) : Z := 1000000000 * tv_sec t + tv_nsec t.

(** The difference is exact for times less than 292 years apart. *)
Lemma nsdiff_exact t0 t1 :
  normal t0 -> normal t1 -> -9223372036 < tv_sec t0 - tv_sec t1 < 9223372035 ->
  nsdiff t0 t1 = Some (nanoseconds t0 - nanoseconds t1).
Proof.
  unfold normal, nanoseconds. intros H0 H1 Hs. unfold nsdiff.
  assert (Hl : forall n, - 2 ^ 63 <= n < 2 ^ 63 -> long n = Some n).
  { intros n Hn. unfold long. destruct (_ && _) eqn:Hb; [done|]. apply andb_false_iff in Hb as [?%Z.leb_gt|?%Z.ltb_ge]; lia. }
  rewrite Hl by lia. simpl. rewrite Hl by lia. simpl. rewrite Hl by lia. simpl. rewrite Hl by lia. f_equal. lia.
Qed.

(** * Verification *)

Context {REL : Reliable} {RL : RpcLite} (w0 : world) (R0 : list resource).
Abbreviation awp := (awp w0 R0).

(** The state of a program with one endpoint, and with one connection too. *)
Definition with_endpoint (a b : positive) (l : lib) : lib := add a (Endpoint b) (add b (Reqh a) l).

Lemma objs_closed a b l :
  objs l !! a = None -> objs l !! b = None -> b <> a ->
  objs (remove a (remove b (with_endpoint a b l))) = objs l.
Proof. intros. solve_objs. Qed.

(** The library is started and nothing is open. *)
Definition started (cts : list Z) (ps : list rpclite_fop) (l : lib) : Prop :=
  up l = true /\ objs l = ∅ /\ conn_times l = cts /\ send_times l = [] /\ sent l = ps /\
  answered l = [] /\ own l = [].

Lemma server_awp X l :
  started [] [] l -> awp listening_server (fun _ l' => started [] [] l') X l.
Proof using REL.
  intros (Hup & Ho & Hrest). unfold listening_server. apply awp_bind.
  apply awp_listen_ok; [done..|]. intros a b Ha Hb Hne. simpl.
  eapply (awp_destroy _ _ _ a b); [done|simpl; by simpl_map|].
  split; [done|]. split; [|exact Hrest]. rewrite <- Ho. by apply (objs_closed a b (listen rcv_only l)).
Qed.

(** Creating an endpoint and connecting, as every client starts. *)
Definition connected_client (a b c : positive) (l l' : lib) : Prop :=
  objs l !! a = None /\ objs l !! b = None /\ b <> a /\
  objs l !! c = None /\ c <> a /\ c <> b /\
  exists t, is_time t /\ l' = timed_conn t (add c Connection (with_endpoint a b l)).

Lemma awp_client_start l timeout out1 out2 s1 s2 (k : ptr -> ptr -> M unit) Q X :
  up l = true -> room (conn_times l) -> fits s1 = true -> fits s2 = true ->
  out1 <> Null -> out2 <> Null ->
  (forall a b c l', connected_client a b c l l' -> awp (k (addr a) (addr c)) Q X l') ->
  awp (r ← rpc_create_endpoint s1 out1; c ← rpc_connect r.2 s2 timeout out2; k r.2 c.2) Q X l.
Proof using REL.
  intros Hup Hroom Hs1 Hs2 Ho1 Ho2 Hk. apply awp_bind. apply awp_create_ok; [done..|].
  intros a b Ha Hb Hne. simpl. apply awp_bind.
  eapply (awp_connect_ok _ _ _ a b); [done|simpl; by simpl_map|done..|].
  intros c t Hc Ht. cbn in Hc. apply lookup_insert_None in Hc as [[Hc Hbc]%lookup_insert_None Hac].
  apply (Hk a b c). repeat split; try done. by exists t.
Qed.

(** ** test3.c *)

Lemma send_loop_awp n c seg l Q X :
  up l = true -> objs l !! c = Some Connection -> seg_ok seg -> iov_len seg <= INT_MAX ->
  X (CExited 1) ->
  (forall k l', (k <= n)%nat -> (n <> 0 -> k <> 0)%nat ->
     l' = posts (replicate k (payload [seg])) l -> Q tt l') ->
  awp (send_loop n (addr c) [seg]) Q X l.
Proof using REL.
intros Hup Hc Hok Hmax HX. revert l Q Hup Hc. induction n as [|n IH]; intros l Q Hup Hc HQ; cbn [send_loop].
  { apply awp_ret. apply (HQ 0%nat); [done..|]. by rewrite posts_nil. }
  apply awp_bind. apply awp_send_blocking_ok; [done|done|by constructor| |done|].
  { unfold total. simpl. lia. }
  intros rc. destruct (rc =? 0).
  - apply IH; [done..|]. intros k l' Hk _ ->. apply (HQ (S k)); [lia|done|].
    apply (posts_posts [_]).
  - apply awp_ret. by apply (HQ 1%nat); [lia..|].
Qed.

(** What the whole program has done when it has closed everything. *)
Definition finished (ps : list rpclite_fop) (l : lib) : Prop :=
  up l = false /\ objs l = ∅ /\ sent l = ps /\ answered l = [] /\ own l = [].

Definition array_segment (arr0 : list Z) (len : Z) : iovec := {| iov_base := arr0; iov_len := len |}.

Lemma test3_client_awp arr0 l X :
  started [] [] l -> 1024 * 32 <= Z.of_nat (length arr0) -> X (CExited 1) ->
  awp (test3_client arr0) (fun _ l' => up l' = true /\ objs l' = ∅ /\ answered l' = [] /\ own l' = [] /\
    exists k, (1 <= k <= 200)%nat /\ sent l' = replicate k (payload [array_segment arr0 (1024 * 32)])) X l.
Proof using REL.
  intros (Hup & Ho & Hcts & _ & Hsent & Hans & Hown) Harr HX.
  apply (awp_client_start l 3 var_e var_c _ _ (fun e c =>
    send_loop 200 c [array_segment arr0 (1024 * 32)] ;; rpc_disconnect c 2 ;; rpc_destroy_endpoint e));
    [done|by rewrite Hcts|done..|].
  intros a b c l' (Ha & Hb & Hne & Hc & Hca & Hcb & t & Ht & ->).
  apply awp_bind. apply send_loop_awp; [done|simpl; by simpl_map| |done|done|].
  { unfold seg_ok. unfold array_segment; cbn [iov_len iov_base]. lia. }
  intros k l' Hk Hk0 ->. apply awp_bind. apply awp_disconnect; [done|simpl; by simpl_map|]. intros rc.
  eapply (awp_destroy _ _ _ a b); [done|simpl; by simpl_map|].
  split; [done|]. split; [|split; [done|split; [done|]]].
  - simpl. rewrite delete_insert_id by (by simpl_map). rewrite <- Ho. by apply (objs_closed a b l).
  - exists k. split; [lia|]. simpl. by rewrite Hsent.
Qed.

(** ** test2.c *)

(** The branch of the receive callback that prints the fragment is never taken:
    a message always arrives as one fragment. *)
Lemma test2_rcv_branch it w : wp (test2_rcv it) (fun r w' => r = Ok (false, 0) /\ w' = w) w.
Proof. done. Qed.

Lemma two_strings_ok : Forall seg_ok two_strings.
Proof. by repeat constructor. Qed.

(** What the client may leave: the asynchronous message, which belongs to Mero
    until it answers, or which Mero refused. *)
Definition pending (c : ptr) (o : gmap positive role) : Prop :=
  o = ∅ \/ exists m r, (r = Message (reply_rcv, c, ctx5) \/ r = Leaked) /\ o = {[m := r]}.

Definition test2_done (ps : list rpclite_fop) (l : lib) : Prop :=
  up l = true /\ own l = [RThread var_thread] /\ answered l = [] /\
  (sent l = ps \/ sent l = ps ++ ps) /\ exists c, pending c (objs l).

(** After the sends: the thread closes the connection, and [main] the endpoint. *)
Lemma test2_close_awp a b c l (Q : unit -> lib -> Prop) X :
  up l = true -> objs l !! c = Some Connection -> objs l !! a = Some (Endpoint b) -> c <> a -> c <> b ->
  Q tt (remove a (remove b (remove c (hold (RThread var_thread) l)))) ->
  awp (rc ← do! (M0_THREAD_INIT var_thread 0);
       (if rc =? 0 then cclose (addr c) else mret tt) ;;
       do! (m0_thread_join var_thread) ;;
       rpc_destroy_endpoint (addr a)) Q X l.
Proof using REL.
  intros Hup Hc Ha Hca Hcb HQ. apply awp_bind.
  apply (awp_call _ _ (M0_THREAD_INIT var_thread 0)).
  { intros rc. unfold foreign. simpl. by destruct (_ =? 0). }
  intros rc Hrc. apply rel_thread in Hrc as ->. simpl. apply awp_bind. unfold cclose. apply awp_bind.
  apply awp_disconnect; [done|done|]. intros rc. apply awp_ret. apply awp_bind.
  apply (awp_call _ _ (m0_thread_join var_thread)); [done|]. intros rc' _.
  eapply (awp_destroy _ _ _ a b); [done| |done]. simpl. by rewrite lookup_delete_ne.
Qed.

Lemma test2_client_awp l X :
  started [] [] l -> X (CExited 1) ->
  awp test2_client (fun _ => test2_done [payload two_strings]) X l.
Proof using REL.
  intros (Hup & Ho & Hcts & _ & Hsent & Hans & Hown) HX.
  apply (awp_client_start l 3 var_e var_c _ _ (fun e c =>
    rpc_send_blocking c two_strings 2 1 ;; rpc_send c two_strings 2 (Some reply_rcv) ctx5 2 ;;
    rc ← do! (M0_THREAD_INIT var_thread 0); (if rc =? 0 then cclose c else mret tt) ;;
    do! (m0_thread_join var_thread) ;; rpc_destroy_endpoint e));
    [done|by rewrite Hcts|done..|].
  intros a b c l' (Ha & Hb & Hne & Hc & Hca & Hcb & t & Ht & ->).
  apply awp_bind. apply (awp_send_blocking_ok _ _ _ c two_strings);
    [done|simpl; by simpl_map|apply two_strings_ok|done|done|]. intros rc1.
  apply awp_bind. apply (awp_send_ok _ _ _ c two_strings);
    [done|simpl; by simpl_map|apply two_strings_ok|done|done| |].
  - intros rc _. apply (test2_close_awp a b c); [done|simpl; by simpl_map..|done|done|].
    split; [done|]. split; [by simpl; rewrite Hown|]. split; [done|].
    split; [left; simpl; by rewrite Hsent|]. exists Null. left. solve_objs.
  - intros rc m Hm. cbn in Hm.
    apply lookup_insert_None in Hm as [[[Hm Hbm]%lookup_insert_None Ham]%lookup_insert_None Hcm].
    apply (test2_close_awp a b c); [done|simpl; by simpl_map..|done|done|].
    split; [done|]. split; [by simpl; rewrite Hown|]. split; [done|].
    split; [right; simpl; by rewrite Hsent|]. exists (addr c). right.
    exists m, (if rc =? 0 then Message (reply_rcv, addr c, ctx5) else Leaked).
    split; [destruct (rc =? 0); auto|]. solve_objs.
Qed.

(** ** test7.c and test9.c *)

Lemma rounds_awp samples sample (I : nat -> lib -> Prop) X l :
  I 0%nat l ->
  (forall n l, (n < 20 * samples)%nat -> I n l -> awp sample (fun _ l' => I (S n) l') X l) ->
  awp (rounds samples sample) (fun _ l' => I (20 * samples)%nat l') X l.
Proof.
  intros H0 Hs. unfold rounds.
  eapply awp_mono; [apply (awp_for_each _ _ (seq 0 20) _ (fun js l => I (length js * samples)%nat l))|].
  - done.
  - intros js j rest l1 Hjs Hj.
    eapply awp_mono; [apply (awp_for_each _ _ (seq 0 samples) _
      (fun ks l => I (length js * samples + length ks)%nat l))|].
    + by rewrite Nat.add_0_r.
    + intros ks k rest' l2 His Hi. rewrite length_app, Nat.add_1_r, Nat.add_succ_r.
      apply Hs; [|done]. apply (f_equal length) in Hjs, His.
      rewrite length_seq, length_app in Hjs, His. simpl in Hjs, His. nia.
    + intros [] l2. cbn beta. rewrite length_seq, length_app, Nat.mul_add_distr_r, Nat.mul_1_l. done.
  - intros [] l1. cbn beta. by rewrite length_seq.
Qed.

(** [n] connections are open and timed. *)
Definition connections_open (a b : positive) (n : nat) (l : lib) : Prop :=
  up l = true /\ objs l !! a = Some (Endpoint b) /\ size (objs l) = (n + 2)%nat /\
  length (conn_times l) = n /\ Forall is_time (conn_times l).

Lemma connect_sample_awp a b n l X :
  (n < 4000)%nat -> connections_open a b n l ->
  awp (connect_sample (addr a)) (fun _ l' => connections_open a b (S n) l') X l.
Proof using REL.
  intros Hn (Hup & Ha & Hsize & Hlen & Hts). apply awp_bind.
  eapply (awp_connect_ok _ _ _ a b); [done|done|done|done|unfold room; lia|].
  intros c t Hc Ht. apply awp_ret. split; [done|]. split; [|split; [|split]].
  - simpl. rewrite lookup_insert_ne; [done|congruence].
  - simpl. rewrite map_size_insert_None by done. lia.
  - simpl. rewrite length_app. simpl. lia.
  - apply Forall_app. by split; [|constructor].
Qed.

Lemma test7_body_awp X l :
  closed [] [] (max_epoch l) (listeners l) = l ->
  awp test7_body (fun v l' => size (objs l') = 4002%nat /\ exists ts, length ts = 4000%nat /\ Forall is_time ts /\
    v = (maxZ ts, u64 (sumZ ts) `div` 4000)) X l.
Proof using REL.
  intros <-. unfold test7_body. apply awp_bind. apply awp_init_ok; [done|]. apply awp_bind.
  apply awp_listen_ok; [done..|]. intros a b Ha Hb Hne. simpl. apply awp_bind.
  eapply awp_mono; [apply (rounds_awp 200 _ (connections_open a b))|].
  - split; [done|]. simpl. split; [by simpl_map|]. split; [|done].
    by rewrite !map_size_insert_None, map_size_empty by (by simpl_map).
  - intros n l1 Hn. by apply connect_sample_awp.
  - intros [] l1 (Hup & Hea & Hsize & Hlen & Hts). cbn beta.
    apply awp_bind, awp_reader. intros rs [Hrep _]. apply awp_bind, awp_reader. intros rs' [Hrep' _].
    apply awp_ret. split; [done|]. exists (conn_times l1). split; [done|]. split; [done|].
    destruct Hrep as (_ & _ & -> & _). destruct Hrep' as (_ & _ & _ & ->). by rewrite Hlen.
Qed.

Lemma test9_body_awp arr0 X l :
  closed [] [] (max_epoch l) (listeners l) = l -> 1024 <= Z.of_nat (length arr0) -> X (CExited 1) ->
  awp (test9_body arr0) (fun v l' => v = (0, 0) /\
    sent l' = replicate 2000 (payload [array_segment arr0 1024])) X l.
Proof using REL.
  intros <- Harr HX. unfold test9_body. apply awp_bind. apply awp_init_ok; [done|]. apply awp_bind.
  apply awp_listen_ok; [done..|]. intros a b Ha Hb Hne. simpl. apply awp_bind.
  eapply (awp_connect_ok _ _ _ a b); [done|simpl; by simpl_map|done..|]. intros c t Hc Ht. simpl.
  apply awp_bind. eapply awp_mono; [apply (rounds_awp 100 _ (fun n l => up l = true /\
    objs l !! c = Some Connection /\ send_times l = [] /\
    sent l = replicate n (payload [array_segment arr0 1024])))|].
  - simpl. by simpl_map.
  - intros n l1 Hn (Hup & Hcl & Hst & Hs). apply awp_bind.
    apply (awp_send_blocking_ok _ _ _ c [array_segment arr0 1024]); [done..| |done|done|].
    { constructor; [|done]. unfold seg_ok, array_segment. cbn [iov_len iov_base]. lia. }
    intros rc. destruct (rc =? 0); [apply awp_ret|by apply awp_exit].
    repeat split; try done. simpl. rewrite Hs. by rewrite <- replicate_cons_app.
  - intros [] l1 (Hup & Hcl & Hst & Hs). cbn beta.
    apply awp_bind, awp_reader. intros rs [Hrep _]. apply awp_bind, awp_reader. intros rs' [Hrep' _].
    apply awp_ret. split; [|done]. rewrite Hst in Hrep, Hrep'.
    destruct Hrep as (_ & _ & -> & _). by destruct Hrep' as (_ & _ & _ & ->).
Qed.

End Programs.

Section Mains.
Context {E : Env} {REL : Reliable}.

Lemma start_awp {A} w0 R0 (body : M A) Q X w :
  (forall l, started [] [] l -> awp w0 R0 body Q X l) ->
  awp w0 R0 (rpc_init ;; body) Q X (fresh_lib w).
Proof using REL.
  intros H. apply awp_bind. apply awp_init_ok; [done|]. apply H. by repeat split.
Qed.

(** A program that closed everything leaves only the interface. *)
Lemma leaves_finished ps w R l w' :
  finished ps l -> leaves w R l w' ->
  heap w' = heap w /\ exists evs L, ran evs w w' /\ held R evs = Some L /\
    L ≡ₚ RInterface (m0init_hi (glob w')) :: R /\ payloads evs = ps /\ callbacks evs = [].
Proof.
  intros (Hup & Ho & <- & <- & Hown) (_ & _ & Hh & evs & L & Hr & Hheld & HL & Hp & Hc).
  split; [by apply Hh|]. exists evs, L. repeat split; try done. rewrite HL.
  unfold resources. by rewrite Hup, Ho, Hown, objs_resources_empty.
Qed.

(** A whole program. With a system that can be initialised, test3.c as a
    server or as a client returns 0, unless its messages are too big for the
    session: it leaves the heap as it was, and of everything initialised in
    Mero only the process-wide interface remains, which it does not finalise.
    The server posts nothing; the client posts between 1 and 200 fops, each
    with the 32 Kb of its array as payload, whatever Mero answers to them. *)
Theorem test3_leaves_nothing argc arr0 R w :
  m0init_hi (glob w) = Null -> rpc_stat (glob w) = replicate RPC_STAT_NR zero_statistic ->
  1024 * 32 <= Z.of_nat (length arr0) ->
  wp (test3_main argc arr0) (fun r w' => r = Exited 1 \/
    (r = Ok 0 /\ heap w' = heap w /\ exists evs L k, ran evs w w' /\
       held R evs = Some L /\ L ≡ₚ RInterface (m0init_hi (glob w')) :: R /\
       payloads evs = replicate k (payload [array_segment arr0 (1024 * 32)]) /\ callbacks evs = [] /\
       if 1 <? argc then k = 0%nat else (1 <= k <= 200)%nat)) w.
Proof using REL.
  intros Hhi Hst Harr. unfold test3_main.
  eapply wp_mono; [apply (wp_program _ (fun v l => v = 0 /\ exists k,
    finished (replicate k (payload [array_segment arr0 (1024 * 32)])) l /\
    if 1 <? argc then k = 0%nat else (1 <= k <= 200)%nat) (fun c => c = CExited 1) R); [done|done|]|].
  - intros w1 R1. apply start_awp. intros l Hl. apply awp_bind. destruct (1 <? argc).
    + eapply awp_mono; [by apply (server_awp w1 R1)|]. intros _ l' (Hup & Ho & _ & _ & Hs & Ha & Hown).
      apply awp_bind, awp_fini, awp_ret; [done|]. split; [done|]. by exists 0%nat.
    + eapply awp_mono; [by apply (test3_client_awp w1 R1)|].
      intros _ l' (Hup & Ho & Ha & Hown & k & Hk & Hs).
      apply awp_bind, awp_fini, awp_ret; [done|]. split; [done|]. by exists k.
  - intros [v| |code|] w' H; [|by specialize (H _ eq_refl)|left; by specialize (H _ eq_refl) as [= ->]|by specialize (H _ eq_refl)].
    right. destruct H as (l & (-> & k & Hf & Hk) & Hl).
    destruct (leaves_finished _ _ _ _ _ Hf Hl) as (Hh & evs & L & H). split; [done|]. split; [done|].
    exists evs, L, k. destruct H as (Hr & Hheld & HL & Hp & Hc). by repeat split.
Qed.

(** test2.c as a client, with a working system, returns 0 or ends with code
    1 because its message is too big: the thread closes the connection exactly
    once, the endpoint and the library are closed, the two segments are posted
    once by the blocking send and at most once more by the asynchronous one,
    and what remains is the thread object, which is joined but never finalised,
    and at most one block: the asynchronous message that Mero has not answered
    or has refused. *)
Theorem test2_client_leaves argc R w :
  m0init_hi (glob w) = Null -> rpc_stat (glob w) = replicate RPC_STAT_NR zero_statistic -> argc <= 1 ->
  wp (test2_main argc) (fun r w' => r = Exited 1 \/
    (r = Ok 0 /\ heap w ⊆ heap w' /\ (size (heap w') <= size (heap w) + 1)%nat /\
     exists evs L, ran evs w w' /\ held R evs = Some L /\
       L ≡ₚ RThread var_thread :: RInterface (m0init_hi (glob w')) :: R /\
       (payloads evs = [payload two_strings] \/ payloads evs = [payload two_strings; payload two_strings]))) w.
Proof using REL.
  intros Hhi Hst Hargc. unfold test2_main.
  eapply wp_mono; [apply (wp_program _ (fun v l => v = 0 /\ test2_done [payload two_strings] (set_up true l) /\
    up l = false) (fun c => c = CExited 1) R); [done|done|]|].
  - intros w1 R1. apply start_awp. intros l Hl. apply awp_bind.
    rewrite (proj2 (Z.ltb_ge 1 argc) Hargc). eapply awp_mono; [by apply (test2_client_awp w1 R1)|].
    intros [] l' (Hup & Hrest). apply awp_bind, awp_fini, awp_ret; [done|]. split; [done|]. split; [|done]. by split.
  - intros [v| |code|] w' H; [|by specialize (H _ eq_refl)|left; by specialize (H _ eq_refl) as [= ->]|by specialize (H _ eq_refl)].
    right. destruct H as (l & (-> & (_ & Hown & _ & Hs & c & Hp) & Hup) & Hsub & [Hdom Hdis] & _ & evs & L & Hr & Hheld & HL & Hps & _).
    split; [done|]. split; [done|].
    assert (Hres : objs_resources (objs l) = []).
    { simpl in Hp. destruct Hp as [->|(m & r & Hr0 & ->)]; [apply objs_resources_empty|].
      unfold objs_resources. rewrite map_to_list_singleton. simpl. by destruct Hr0 as [->| ->]. }
    split; [|exists evs, L; split; [done|]; split; [done|]; split].
    + rewrite <- (size_dom (heap w')), Hdom, size_union, !size_dom by done. simpl in Hp.
      destruct Hp as [->|(m & r & _ & ->)]; [rewrite map_size_empty|rewrite map_size_singleton]; lia.
    + rewrite HL. unfold resources. rewrite Hup, Hres. simpl in Hown. by rewrite Hown.
    + rewrite Hps. simpl in Hs. by destruct Hs as [->| ->]; [left|right].
Qed.

(** test7.c reports its connection times exactly: with a working system it
    opens 4000 connections, prints the maximum of their times and their sum
    (modulo [2^64]) divided by 4000, and closes none of them: the endpoint, its
    request handler and the 4000 connections are still allocated when it calls
    [exit (0)]. *)
Theorem test7_reports w :
  m0init_hi (glob w) = Null -> rpc_stat (glob w) = replicate RPC_STAT_NR zero_statistic ->
  wp test7_main (fun r w' => heap w ⊆ heap w' /\ size (heap w') = (size (heap w) + 4002)%nat /\
    exists ts, length ts = 4000%nat /\ Forall is_time ts /\
      r = Ok (maxZ ts, u64 (sumZ ts) `div` 4000)) w.
Proof using REL.
  intros Hhi Hst.
  eapply wp_mono; [apply (wp_program _ (fun v l => size (objs l) = 4002%nat /\ exists ts, length ts = 4000%nat /\
    Forall is_time ts /\ v = (maxZ ts, u64 (sumZ ts) `div` 4000)) (fun _ => False) []); [done|done|]|].
  - intros w1 R1. by apply test7_body_awp.
  - intros [v| |code|] w' H; [|by specialize (H _ eq_refl)..].
    destruct H as (l & (Hsize & ts & Hlen & Hts & ->) & Hsub & [Hdom Hdis] & _).
    split; [done|]. split; [|by exists ts].
    rewrite <- (size_dom (heap w')), Hdom, size_union, !size_dom by done. lia.
Qed.

(** test9.c measures nothing: when its 2000 blocking sends all succeed it
    has posted its array 2000 times, and the maximum and average send times it
    prints are both 0, because only the reply handler of asynchronous sends
    records in [RPC_STAT_SEND]; otherwise it ends with code 1. *)
Theorem test9_prints_zero arr0 R w :
  m0init_hi (glob w) = Null -> rpc_stat (glob w) = replicate RPC_STAT_NR zero_statistic ->
  1024 <= Z.of_nat (length arr0) ->
  wp (test9_main arr0) (fun r w' => r = Exited 1 \/ (r = Ok (0, 0) /\ exists evs L, ran evs w w' /\
    held R evs = Some L /\ payloads evs = replicate 2000 (payload [array_segment arr0 1024]))) w.
Proof using REL.
  intros Hhi Hst Harr.
  eapply wp_mono; [apply (wp_program _ (fun v l => v = (0, 0) /\
    sent l = replicate 2000 (payload [array_segment arr0 1024])) (fun c => c = CExited 1) R); [done|done|]|].
  - intros w1 R1. by apply test9_body_awp.
  - intros [v| |code|] w' H; [|by specialize (H _ eq_refl)|left; by specialize (H _ eq_refl) as [= ->]|by specialize (H _ eq_refl)].
    right. destruct H as (l & (-> & Hs) & _ & _ & _ & evs & L & Hr & Hheld & _ & Hp & _).
    split; [done|]. exists evs, L. by rewrite Hp.
Qed.

End Mains.

(** ** Witnesses *)

(** Everything works and every message fits. *)
Definition all_ok (c : call) : ans c :=
  match c return ans c with
  | m0_rpc_machine_init _ _ _ reqh _ _ _ _ => (0, reqh)
  | c => roomy c
  end.

#[global] Instance all_ok_reliable : Reliable (E := fixed_env all_ok).
Proof.
  constructor; try by (intros; match goal with H : answers _ _ |- _ => destruct H as [? <-] end).
  intros fop s d f e rep [? [= <- <-]]. done.
Qed.

Lemma test3_leaves_nothing_witness :
  let arr0 := replicate (Z.to_nat 32768) 7 in let w := start all_ok in
  wp (test3_main 1 arr0) (fun r w' => r = Exited 1 \/
    (r = Ok 0 /\ heap w' = ∅ /\ exists evs L k, ran evs w w' /\
       held [] evs = Some L /\ L ≡ₚ [RInterface (m0init_hi (glob w'))] /\
       payloads evs = replicate k (payload [array_segment arr0 (1024 * 32)]) /\ callbacks evs = [] /\
       (1 <= k <= 200)%nat)) w.
Proof.
  intros arr0 w. apply (test3_leaves_nothing 1 arr0 [] w); [done|done|].
  unfold arr0. rewrite length_replicate. lia.
Defined.

Lemma test2_client_leaves_witness :
  (test2_main 1 (start all_ok)).1 = Ok 0 /\
  wp (test2_main 1) (fun r w' => r = Exited 1 \/
    (r = Ok 0 /\ heap (start all_ok) ⊆ heap w' /\ (size (heap w') <= 0 + 1)%nat /\
     exists evs L, ran evs (start all_ok) w' /\ held [] evs = Some L /\
       L ≡ₚ [RThread var_thread; RInterface (m0init_hi (glob w'))] /\
       (payloads evs = [payload two_strings] \/
        payloads evs = [payload two_strings; payload two_strings]))) (start all_ok).
Proof.
  split; [vm_compute; reflexivity|]. by apply (test2_client_leaves 1 [] (start all_ok)).
Defined.

Lemma test7_reports_witness :
  wp test7_main (fun r w' => heap (start all_ok) ⊆ heap w' /\ size (heap w') = (0 + 4002)%nat /\
    exists ts, length ts = 4000%nat /\ Forall is_time ts /\
      r = Ok (maxZ ts, u64 (sumZ ts) `div` 4000)) (start all_ok).
Proof. by apply (test7_reports (start all_ok)). Defined.

Lemma test9_prints_zero_witness :
  let arr0 := replicate (Z.to_nat 1024) 7 in let w := start all_ok in
  wp (test9_main arr0) (fun r w' => r = Exited 1 \/ (r = Ok (0, 0) /\ exists evs L, ran evs w w' /\
    held [] evs = Some L /\ payloads evs = replicate 2000 (payload [array_segment arr0 1024]))) w.
Proof.
  intros arr0 w. apply (test9_prints_zero arr0 [] w); [done|done|].
  unfold arr0. rewrite length_replicate. lia.
Defined.

End Programs.
