(* ===== verification/Threads.v ===== *)
(** Programs with several threads. Threads are clients of Library.v (trees of
    operations); a pool of them is interleaved operation by operation, together
    with Mero's answers to the messages in flight. (That the operations behave
    as if they were atomic towards each other is the subject of StatsConc.v,
    InFlight.v and Epoch.v, which go below operations.)

    The theorems are about threads of the shape the test programs have: each
    opens a connection of its own on a shared endpoint, uses it and closes it. *)

From stdpp Require Import relations.
From S2P Require Import Prelude CTypes Machine Stats Resources RpcInit Endpoint Connection.
From S2P Require Import Payload Send InFlight Epoch M0Init Library LibraryImpl Clients Programs.
Local Open Scope Z_scope.

Module Threads.
Import Stats RpcInit Endpoint Connection Payload Send Epoch M0Init Library LibraryImpl Clients.

Section Pool.
Context {E : Env} {RL : RpcLite} (w0 : world) (R0 : list resource).

(** * Pools of threads *)

Record pool := Pool { threads : list client; ghost : lib; pw : world }.

Inductive pstep : pool -> pool -> Prop :=
| pstep_thread i o k v ps l l' w w' :
    ps !! i = Some (Use o k) -> exec o w = (Ok v, w') ->
    outcome l o v l' -> represents w0 R0 l' w' ->
    pstep (Pool ps l w) (Pool (<[i := k v]> ps) l' w')
| pstep_reply a e rep ps l l' w w' :
    legal l (Reply a e rep) -> exec (Reply a e rep) w = (Ok tt, w') ->
    outcome l (Reply a e rep) tt l' -> represents w0 R0 l' w' ->
    pstep (Pool ps l w) (Pool ps l' w').

(** The same without the world. *)
Inductive astep : list client * lib -> list client * lib -> Prop :=
| astep_thread i o k v ps l l' :
    ps !! i = Some (Use o k) -> outcome l o v l' -> astep (ps, l) (<[i := k v]> ps, l')
| astep_reply a e rep ps l l' :
    legal l (Reply a e rep) -> outcome l (Reply a e rep) tt l' -> astep (ps, l) (ps, l').

Lemma pstep_astep p p' : pstep p p' ->
  astep (threads p, ghost p) (threads p', ghost p') /\ represents w0 R0 (ghost p') (pw p').
Proof. destruct 1; simpl; (split; [|done]); econstructor; eauto. Qed.

(** An invariant of the abstract steps holds along every run. *)
Lemma pool_invariant (I : list client -> lib -> Prop) p p' :
  (forall ps l ps' l', I ps l -> astep (ps, l) (ps', l') -> I ps' l') ->
  I (threads p) (ghost p) -> represents w0 R0 (ghost p) (pw p) -> star pstep p p' ->
  I (threads p') (ghost p') /\ represents w0 R0 (ghost p') (pw p').
Proof.
  intros HI H0 Hr Hs. eapply (star_invariant pstep (fun p => I (threads p) (ghost p) /\
    represents w0 R0 (ghost p) (pw p))); [done|done|].
  intros q q' [Hq _] [Ha Hr']%pstep_astep. split; [by eapply HI|done].
Qed.

(** A thread whose next operation is legal can run it, whatever Mero answers. *)
Lemma pool_progress ps l w i o k :
  represents w0 R0 l w -> ps !! i = Some (Use o k) -> legal l o ->
  wp (exec o) (fun r w' => match r with
    | Ok v => exists l', pstep (Pool ps l w) (Pool (<[i := k v]> ps) l' w')
    | r => excused l o r
    end) w.
Proof.
  intros Hr Hi Hl. pose proof (represents_op w0 R0 l w o Hr Hl) as H.
  unfold wp in *. destruct (exec o w) as [r w'] eqn:He. destruct r as [v| | |]; try exact H.
  destruct H as (l' & Ho & Hr'). exists l'. by eapply pstep_thread.
Qed.

(** * Termination *)

(** [bounded n c]: the client uses at most [n] operations. *)
Fixpoint bounded (n : nat) (c : client) : Prop :=
  match c, n with
  | Done, _ => True
  | Use _ _, O => False
  | Use o k, S n => forall v, bounded n (k v)
  end.

Definition is_message (r : role) : Prop := match r with Message _ => True | _ => False end.
#[global] Instance is_message_dec r : Decision (is_message r).
Proof. destruct r; simpl; apply _. Defined.

(** The messages in flight. *)
Definition in_flight (l : lib) : nat := size (filter (fun x => is_message x.2) (objs l)).

Lemma in_flight_add a r l :
  objs l !! a = None -> in_flight (add a r l) = (in_flight l + if decide (is_message r) then 1 else 0)%nat.
Proof.
  intros Ha. unfold in_flight. simpl. rewrite map_filter_insert. simpl. destruct (decide (is_message r)).
  - rewrite map_size_insert_None; [lia|]. apply map_lookup_filter_None. by left.
  - rewrite map_filter_delete, delete_id; [lia|]. apply map_lookup_filter_None. by left.
Qed.

Lemma in_flight_remove a r l :
  objs l !! a = Some r -> in_flight l = (in_flight (remove a l) + if decide (is_message r) then 1 else 0)%nat.
Proof.
  intros Ha. rewrite <- (in_flight_add a) by apply lookup_delete_eq. unfold in_flight. simpl.
  by rewrite insert_delete_id.
Qed.

Lemma in_flight_remove_le a l : (in_flight (remove a l) <= in_flight l)%nat.
Proof.
  unfold in_flight. simpl. rewrite map_filter_delete.
  apply map_subseteq_size, delete_subseteq.
Qed.

Ltac flight_simpl :=
  repeat match goal with
  | |- context [in_flight (add ?a ?r ?l)] => rewrite (in_flight_add a r l) by (simpl; simpl_map; done)
  end.

(** Whatever an operation returns, it puts at most one message in flight. *)
Lemma outcome_in_flight l o v l' : outcome l o v l' -> (in_flight l' <= in_flight l + 1)%nat.
Proof.
  assert (Hc : forall l v l', created l v l' -> (in_flight l' <= in_flight l + 1)%nat).
  { clear. intros l v l' (_ & a & _ & Ha & H). destruct (v.1 =? 0).
    - destruct H as (b & Hb & Hne & ->). flight_simpl. simpl. lia.
    - destruct H as [->|(b & r & Hr & Hb & Hne & ->)]; flight_simpl; [simpl; lia|].
      destruct Hr as [->| ->]; simpl; lia. }
  destruct o; simpl; try exact (Hc _ _ _).
  - intros [_ ->]. destruct (v =? 0); unfold in_flight; simpl; lia.
  - intros ->. unfold in_flight. simpl. lia.
  - intros (a & b & _ & _ & ->). pose proof (in_flight_remove_le a (remove b l)).
    pose proof (in_flight_remove_le b l). lia.
  - intros (_ & a & _ & Ha & H). destruct (v.1 =? 0).
    + destruct H as (t & _ & ->). change (in_flight (timed_conn t ?x)) with (in_flight x). flight_simpl. simpl. lia.
    + destruct H as [->|(t & _ & ->)]; [|change (in_flight (timed_conn t ?x)) with (in_flight x)];
        flight_simpl; simpl; lia.
  - intros (a & _ & _ & ->). pose proof (in_flight_remove_le a l). lia.
  - intros (a & _ & _ & ->). pose proof (in_flight_remove_le a l). lia.
  - intros ->. unfold in_flight. simpl. lia.
  - intros [[_ ->]|(a & Ha & ->)]; [lia|].
    change (in_flight (post ?d ?x)) with (in_flight x). flight_simpl. destruct (decide _); lia.
  - destruct (our <? max_epoch l); [intros [_ ->]; lia|]. intros [_ ->]. unfold in_flight. simpl. lia.
  - intros [_ H]. destruct (action_of c v); subst; unfold in_flight; simpl; lia.
  - intros (k & Hk & H). pose proof (in_flight_remove_le a l) as Hle. unfold in_flight in *.
    destruct (e =? 0); [destruct H as (t & _ & ->)|subst]; simpl in *; lia.
Qed.

Lemma reply_in_flight l a e rep l' : outcome l (Reply a e rep) tt l' -> in_flight l = S (in_flight l').
Proof.
  intros (k & Hk & H). pose proof (in_flight_remove a _ l Hk) as Hr. simpl in Hr.
  unfold in_flight in *. destruct (e =? 0); [destruct H as (t & _ & ->)|subst]; simpl in *; lia.
Qed.

(** The work left: two for each operation a thread may still use, and one for
    each answer that is due. *)
Definition sum_nat (ns : list nat) : nat := foldr Nat.add 0%nat ns.

Lemma sum_nat_insert ns i n m :
  ns !! i = Some (S n) -> m = n -> sum_nat ns = S (sum_nat (<[i := m]> ns)).
Proof.
  intros Hi ->. revert i Hi. induction ns as [|x ns IH]; intros [|i] Hi; simpl in *; simplify_eq; [lia|].
  rewrite (IH _ Hi). lia.
Qed.

Definition work (ns : list nat) (l : lib) : nat := (2 * sum_nat ns + in_flight l)%nat.

(** Every step of the pool does some of the work. *)
Lemma work_decreases ns p p' :
  Forall2 bounded ns (threads p) -> pstep p p' ->
  exists ns', Forall2 bounded ns' (threads p') /\ (work ns' (ghost p') < work ns (ghost p))%nat.
Proof.
  intros Hb Hs. revert Hb.
  destruct Hs as [i o k v ps l l' w w' Hi _ Ho _|a e rep ps l l' w w' _ _ Ho _]; simpl; intros Hb.
  - destruct (Forall2_lookup_r _ _ _ _ _ Hb Hi) as ([|n] & Hn & Hbn); [done|].
    exists (<[i := n]> ns). split; [by apply Forall2_insert|].
    pose proof (sum_nat_insert ns i n n Hn eq_refl). pose proof (outcome_in_flight _ _ _ _ Ho).
    unfold work. lia.
  - exists ns. split; [done|]. pose proof (reply_in_flight _ _ _ _ _ Ho). unfold work. lia.
Qed.

Lemma pool_bound ns p p' n :
  Forall2 bounded ns (threads p) -> nsteps pstep n p p' -> (n <= work ns (ghost p))%nat.
Proof.
  intros Hb Hs. revert ns Hb. induction Hs as [p|n p q r Hpq _ IH]; intros ns Hb; [lia|].
  destruct (work_decreases _ _ _ Hb Hpq) as (ns' & Hb' & Hlt). specialize (IH ns' Hb'). lia.
Qed.

(** Threads that each use a bounded number of operations terminate in every
    interleaving: a run of the pool, Mero's answers included, has at most two
    steps for every operation the threads may use and one for every message in
    flight at the start. *)
Theorem pools_terminate ns p p' n :
  Forall2 bounded ns (threads p) -> nsteps pstep n p p' -> (n <= work ns (ghost p))%nat.
Proof. apply pool_bound. Qed.

End Pool.

(** * Threads with a connection each *)

Section Sessions.
Context {E : Env} {REL : Reliable}.

(** Operations that use the connection [c] and leave it open. *)
Definition on_connection (c : ptr) (o : op) : Prop :=
  match o with
  | SendBlocking c' segs _ | SendAsync c' segs _ _ _ =>
      c' = c /\ Forall seg_ok segs /\ total segs <= INT_MAX
  | SendEpoch c' _ _ => c' = c
  | Call k => forall a, foreign k a /\ action_of k a = Neutral
  | _ => False
  end.

(** The operation closes [c], and nothing follows. *)
Definition closes (c : ptr) (o : op) : (ret o -> client) -> Prop :=
  match o return (ret o -> client) -> Prop with
  | Disconnect c' _ => fun k => c' = c /\ forall rc, k rc = Done
  | _ => fun _ => False
  end.

(** A client that owns [c], uses it by operations in [P], closes it and ends. *)
Fixpoint session (P : op -> Prop) (c : ptr) (cl : client) : Prop :=
  match cl with
  | Done => False
  | Use o k =>
      closes c o k \/
      (on_connection c o /\ P o /\ forall v l l', outcome l o v l' -> session P c (k v))
  end.

(** A client that first connects to [e]. *)
Definition connects (P : op -> Prop) (e : ptr) (o : op) : (ret o -> client) -> Prop :=
  match o return (ret o -> client) -> Prop with
  | Connect e' s _ out => fun k =>
      e' = e /\ fits s = true /\ out <> Null /\ forall c, session P c (k (0, c))
  | _ => fun _ => False
  end.
Definition starts (P : op -> Prop) (e : ptr) (cl : client) : Prop :=
  match cl with Done => False | Use o k => connects P e o k end.

Inductive status := Idle | Active (c : positive) | Finished.

Definition status_ok (P : op -> Prop) (e : ptr) (cl : client) (st : status) : Prop :=
  match st with
  | Idle => starts P e cl
  | Active c => session P (addr c) cl
  | Finished => cl = Done
  end.

Fixpoint idle (sts : list status) : nat :=
  match sts with
  | [] => 0
  | Idle :: sts => S (idle sts)
  | _ :: sts => idle sts
  end.

(** Which objects there are besides those of the endpoint. *)
Definition extra_role (r : role) : Prop :=
  match r with Connection | Message _ | Leaked => True | _ => False end.

(** The state of a pool of such threads on the endpoint at [a]; [K] bounds the
    connections ever made. *)
Record pool_inv (P : op -> Prop) (a b : positive) (K : nat) (l0 : lib) (sts : list status)
    (ps : list client) (l : lib) : Prop := {
  pi_status : Forall2 (status_ok P (addr a)) ps sts;
  pi_up : up l = true;
  pi_own : own l = own l0;
  pi_endpoint : objs l !! a = Some (Endpoint b);
  pi_reqh : objs l !! b = Some (Reqh a);
  pi_active : forall i c, sts !! i = Some (Active c) -> objs l !! c = Some Connection;
  pi_distinct : forall i j c, sts !! i = Some (Active c) -> sts !! j = Some (Active c) -> i = j;
  pi_owned : forall c, objs l !! c = Some Connection -> exists i, sts !! i = Some (Active c);
  pi_roles : forall x r, objs l !! x = Some r -> x = a \/ x = b \/ extra_role r;
  pi_room : (length (conn_times l) + idle sts <= K)%nat;
}.

Lemma idle_insert sts i st :
  sts !! i = Some Idle -> st <> Idle -> idle sts = S (idle (<[i := st]> sts)).
Proof.
  revert i. induction sts as [|x sts IH]; intros [|i] Hi Hst; simpl in *; simplify_eq.
  - by destruct st.
  - rewrite (IH i) by done. by destruct x.
Qed.

Lemma idle_insert_active sts i st c :
  sts !! i = Some (Active c) -> st <> Idle -> idle (<[i := st]> sts) = idle sts.
Proof.
  revert i. induction sts as [|x sts IH]; intros [|i] Hi Hst; simpl in *; simplify_eq.
  - by destruct st.
  - by rewrite IH.
Qed.

(** Updating the status of thread [i]. *)
Lemma lookup_insert_status (sts : list status) i st j x :
  <[i := st]> sts !! j = Some x -> (j = i /\ x = st) \/ (j <> i /\ sts !! j = Some x).
Proof. intros H. apply list_lookup_insert_Some in H as [(-> & -> & _)|[? ?]]; auto. Qed.

Section Steps.
Context (P : op -> Prop) (a b : positive) (K : nat) (l0 : lib).
Abbreviation pool_inv := (pool_inv P a b K l0).

(** Absent, or a message, or what is left of one. *)
Definition minor (r : option role) : Prop :=
  match r with None | Some (Message _) | Some Leaked => True | _ => False end.

Lemma inv_minor sts ps l ps' l' :
  pool_inv sts ps l -> Forall2 (status_ok P (addr a)) ps' sts ->
  up l' = up l -> own l' = own l -> conn_times l' = conn_times l ->
  (forall x, objs l' !! x = objs l !! x \/ (minor (objs l !! x) /\ minor (objs l' !! x))) ->
  pool_inv sts ps' l'.
Proof.
  intros [] Hst Hup Hown Hct Ho.
  assert (Hkeep : forall x r, objs l !! x = Some r -> ~ minor (Some r) -> objs l' !! x = Some r).
  { intros x r Hx Hr. destruct (Ho x) as [->|[Hm _]]; [done|]. by rewrite Hx in Hm. }
  constructor; try done; try congruence; try by apply Hkeep; [|intros []].
  - intros i c Hi. apply Hkeep; [by eapply pi_active0|intros []].
  - intros c Hc. destruct (Ho c) as [Hx|[_ Hm]]; [|by rewrite Hc in Hm].
    apply pi_owned0. congruence.
  - intros x r Hx. destruct (Ho x) as [He|[_ Hm]]; [apply pi_roles0; congruence|].
    right. right. rewrite Hx in Hm. by destruct r.
Qed.

Lemma status_insert ps sts i cl st :
  Forall2 (status_ok P (addr a)) ps sts -> status_ok P (addr a) cl st ->
  Forall2 (status_ok P (addr a)) (<[i := cl]> ps) (<[i := st]> sts).
Proof. intros. by apply Forall2_insert. Qed.

Lemma inv_connect sts ps l i c t cl :
  pool_inv sts ps l -> sts !! i = Some Idle -> objs l !! c = None -> session P (addr c) cl ->
  pool_inv (<[i := Active c]> sts) (<[i := cl]> ps) (timed_conn t (add c Connection l)).
Proof.
  intros [] Hi Hc Hcl.
  assert (Hfresh : forall j, sts !! j <> Some (Active c)).
  { intros j Hj. apply pi_active0 in Hj. congruence. }
  constructor; simpl; try done; try (rewrite lookup_insert_ne; [done|congruence]).
  - by apply status_insert.
  - intros j x [[_ [= ->]]|[_ Hj]]%lookup_insert_status; [by rewrite lookup_insert_eq|].
    rewrite lookup_insert_ne; [by eapply pi_active0|]. intros ->. by apply (Hfresh j).
  - intros j j' x [[-> [= ->]]|[Hne Hj]]%lookup_insert_status
      [[-> Hx]|[Hne' Hj']]%lookup_insert_status; simplify_eq; try done.
    + by destruct (Hfresh j').
    + by destruct (Hfresh j).
    + by eapply pi_distinct0.
  - intros x [[<- _]|[Hne Hx]]%lookup_insert_Some.
    + exists i. apply list_lookup_insert_eq. by eapply lookup_lt_Some.
    + destruct (pi_owned0 x Hx) as [j Hj]. exists j. rewrite list_lookup_insert_ne; [done|]. congruence.
  - intros x r [[_ <-]|[_ Hx]]%lookup_insert_Some; [by right; right|by apply pi_roles0].
  - rewrite length_app. simpl. rewrite (idle_insert sts i (Active c) Hi) in pi_room0 by done. lia.
Qed.

Lemma inv_close sts ps l i c :
  pool_inv sts ps l -> sts !! i = Some (Active c) ->
  pool_inv (<[i := Finished]> sts) (<[i := Done]> ps) (remove c l).
Proof.
  intros [] Hi. pose proof (pi_active0 _ _ Hi) as Hc.
  constructor; simpl; try done; try (rewrite lookup_delete_ne; [done|congruence]).
  - by apply status_insert.
  - intros j x [[_ [=]]|[Hne Hj]]%lookup_insert_status.
    rewrite lookup_delete_ne; [by eapply pi_active0|]. intros ->. by apply Hne, (pi_distinct0 j i x).
  - intros j j' x [[-> [=]]|[_ Hj]]%lookup_insert_status [[-> [=]]|[_ Hj']]%lookup_insert_status.
    by eapply pi_distinct0.
  - intros x [Hne Hx]%lookup_delete_Some. destruct (pi_owned0 x Hx) as [j Hj]. exists j.
    rewrite list_lookup_insert_ne; [done|]. congruence.
  - intros x r [_ Hx]%lookup_delete_Some. by apply pi_roles0.
  - by rewrite (idle_insert_active sts i Finished c).
Qed.

(** An operation on an open connection. *)
Lemma inv_use sts ps l i c o v l' cl :
  pool_inv sts ps l -> sts !! i = Some (Active c) -> on_connection (addr c) o -> outcome l o v l' ->
  session P (addr c) cl -> pool_inv sts (<[i := cl]> ps) l'.
Proof.
  intros I Hi Ho Hout Hcl.
  assert (Hst : Forall2 (status_ok P (addr a)) (<[i := cl]> ps) sts).
  { rewrite <- (list_insert_id sts i (Active c)) by done. apply status_insert; [apply I|done]. }
  destruct o; simpl in Ho; try done; simpl in Hout.
  - subst l'. eapply inv_minor; [done..|]. by left.
  - destruct Hout as [[_ ->]|(m & Hm & ->)]; (eapply inv_minor; [done..|]); [by left|].
    intros x. simpl. destruct (decide (x = m)) as [->|Hne]; [right|left; by rewrite lookup_insert_ne].
    rewrite Hm, lookup_insert_eq. split; [done|]. by destruct (v =? 0).
  - destruct (our <? max_epoch l); destruct Hout as [_ ->]; (eapply inv_minor; [done..|]); by left.
  - destruct Hout as [_ Hl']. destruct (Ho v) as [_ Hn]. rewrite Hn in Hl'. subst l'.
    eapply inv_minor; [done..|]. by left.
Qed.

Lemma inv_reply sts ps l x e rep l' :
  pool_inv sts ps l -> outcome l (Reply x e rep) tt l' -> pool_inv sts ps l'.
Proof.
  intros I (k & Hk & H).
  assert (Ho : objs l' = delete x (objs l) /\ up l' = up l /\ own l' = own l /\ conn_times l' = conn_times l).
  { destruct (e =? 0); [destruct H as (t & _ & ->)|subst]; done. }
  destruct Ho as (Ho & Hup & Hown & Hct). eapply inv_minor; [done|apply I|done..|].
  intros y. rewrite Ho. destruct (decide (y = x)) as [->|Hne]; [right|left; by rewrite lookup_delete_ne].
  by rewrite lookup_delete_eq, Hk.
Qed.

Lemma inv_step sts ps l ps' l' :
  pool_inv sts ps l -> astep (ps, l) (ps', l') -> exists sts', pool_inv sts' ps' l'.
Proof using REL.
  intros I Hs. inversion Hs as [i o k v ps1 l1 l2 Hi Hout|x e rep ps1 l1 l2 Hl Hout]; subst;
    [|exists sts; by eapply inv_reply].
  destruct (Forall2_lookup_l _ _ _ _ _ (pi_status _ _ _ _ _ _ _ _ I) Hi) as (st & Hst & Hok).
  destruct st as [|c|]; simpl in Hok; [| |done].
  - destruct o; try done. destruct Hok as (-> & Hf & Ho & Hk).
    destruct v as [rc p], Hout as (Herr & c & Hp & Hc & Hcon). simpl in *. subst p.
    apply no_connect_error in Herr as ->. destruct Hcon as (t' & _ & ->).
    eexists. by eapply inv_connect.
  - destruct Hok as [Hk|(Ho & HP & Hk)].
    + destruct o; try done. destruct Hk as [-> Hk], Hout as (c' & [= <-] & _ & ->).
      rewrite Hk. eexists. by eapply inv_close.
    + exists sts. eapply inv_use; [done..|]. by eapply Hk.
Qed.

(** The next operation of a thread is legal, and can end the process only with
    [exit (1)]. *)
Lemma inv_next sts ps l i o k :
  pool_inv sts ps l -> ps !! i = Some (Use o k) -> (Z.of_nat K < 2 ^ 32) ->
  legal l o /\ forall r, excused l o r -> r = Exited 1 /\ P o.
Proof using REL.
  intros I Hi HK. pose proof (pi_up _ _ _ _ _ _ _ _ I) as Hup.
  destruct (Forall2_lookup_l _ _ _ _ _ (pi_status _ _ _ _ _ _ _ _ I) Hi) as (st & Hst & Hok).
  destruct st as [|c|]; simpl in Hok; [| |done].
  - destruct o; try done. destruct Hok as (-> & Hf & Ho & Hk). split.
    + split; [split; [done|]|done]. exists a, b. split; [done|apply I].
    + intros [] Hex; simpl in Hex; try done; [congruence|].
      destruct Hex as [H|H]; [by apply has_memory in H|].
      pose proof (pi_room _ _ _ _ _ _ _ _ I). pose proof (idle_insert _ _ Finished Hst ltac:(done)). lia.
  - assert (Hc : is_connection l (addr c)).
    { exists c. split; [done|]. by eapply (pi_active _ _ _ _ _ _ _ _ I). }
    destruct Hok as [Hk|(Ho & HP & _)].
    + destruct o; try done. destruct Hk as [-> _]. split; [done|by intros []].
    + destruct o; simpl in Ho; try done; try destruct Ho as (-> & Hok & Hmax).
      * split; [done|]. intros [] Hex; simpl in Hex; try done; [|by destruct Hex as [-> _]].
        destruct Hex as [H|[H|H]]; [by apply has_fop in H|by apply has_memory in H|by apply replies in H].
      * split; [done|]. intros [] Hex; simpl in Hex; try done; [|by destruct Hex as [-> _]].
        by destruct Hex as [H|H]; apply has_memory in H.
      * subst. split; [done|]. intros [] Hex; simpl in Hex; try done; [|by subst].
        by destruct Hex as [H|H]; [apply has_fop in H|apply replies in H].
      * split; [|by intros []]. intros x. by apply Ho.
Qed.

Lemma inv_start ps l :
  Forall (starts P (addr a)) ps -> up l = true -> own l = own l0 ->
  objs l !! a = Some (Endpoint b) -> objs l !! b = Some (Reqh a) ->
  (forall x, x <> a -> x <> b -> minor (objs l !! x)) ->
  (length (conn_times l) + length ps <= K)%nat -> pool_inv (replicate (length ps) Idle) ps l.
Proof.
  intros Hps Hup Hown Ha Hb Hx HK. constructor; try done.
  - by apply Forall2_replicate_r.
  - by intros i c [? ?]%lookup_replicate.
  - by intros i j c [? ?]%lookup_replicate.
  - intros c Hc. assert (c <> a) by congruence. assert (c <> b) by congruence.
    pose proof (Hx c) as Hm. rewrite Hc in Hm. by destruct Hm.
  - intros x r Hr. destruct (decide (x = a)); [by left|]. destruct (decide (x = b)); [by right; left|].
    right. right. pose proof (Hx x ltac:(done) ltac:(done)) as Hm. rewrite Hr in Hm. by destruct r.
  - replace (idle (replicate (length ps) Idle)) with (length ps); [done|]. clear.
    induction ps; simpl; congruence.
Qed.

(** When every thread is done only the endpoint, messages that Mero has not
    answered and refused messages remain. *)
Lemma inv_done sts ps l :
  pool_inv sts ps l -> Forall (eq Done) ps -> forall x, x <> a -> x <> b -> minor (objs l !! x).
Proof.
  intros I Hd x Hxa Hxb. destruct (objs l !! x) as [r|] eqn:Hx; [|done].
  destruct (pi_roles _ _ _ _ _ _ _ _ I x r Hx) as [->|[->|Hr]]; [done|done|].
  destruct r; try done. destruct (pi_owned _ _ _ _ _ _ _ _ I x Hx) as [i Hi].
  destruct (Forall2_lookup_r _ _ _ _ _ (pi_status _ _ _ _ _ _ _ _ I) Hi) as (cl & Hcl & Hok).
  pose proof (Forall_lookup_1 _ _ _ _ Hd Hcl) as <-. by destruct Hok.
Qed.

End Steps.

Lemma sessions_safe {RL : RpcLite} P w0 R0 a b ps l w p :
  Forall (starts P (addr a)) ps -> up l = true ->
  objs l !! a = Some (Endpoint b) -> objs l !! b = Some (Reqh a) ->
  (forall x, x <> a -> x <> b -> minor (objs l !! x)) ->
  Z.of_nat (length (conn_times l) + length ps) < 2 ^ 32 ->
  represents w0 R0 l w -> star (pstep w0 R0) (Pool ps l w) p ->
  (forall i o k, threads p !! i = Some (Use o k) -> legal (ghost p) o /\
     wp (exec o) (fun r w' => (exists v l', r = Ok v /\
       pstep w0 R0 p (Pool (<[i := k v]> (threads p)) l' w')) \/
       (r = Exited 1 /\ P o /\ excused (ghost p) o r)) (pw p)) /\
  (Forall (eq Done) (threads p) ->
     represents w0 R0 (ghost p) (pw p) /\ up (ghost p) = true /\ own (ghost p) = own l /\
     objs (ghost p) !! a = Some (Endpoint b) /\ objs (ghost p) !! b = Some (Reqh a) /\
     forall x, x <> a -> x <> b -> minor (objs (ghost p) !! x)).
Proof using REL.
  intros Hps Hup Ha Hb Hx HK Hr Hs. set (K := (length (conn_times l) + length ps)%nat) in *.
  destruct (pool_invariant w0 R0 (fun ps l' => exists sts, pool_inv P a b K l sts ps l') (Pool ps l w) p)
    as [[sts I] Hr']; [|by eexists; apply inv_start|done|done|].
  { intros ps1 l1 ps2 l2 [sts I]. by apply (inv_step _ _ _ _ _ sts). }
  split.
  - intros i o k Hi. destruct (inv_next _ _ _ _ _ _ _ _ i o k I Hi HK) as [Hl Hex]. split; [done|].
    destruct p as [ps' l' w']. simpl in *.
    eapply wp_mono; [by apply (pool_progress w0 R0 ps' l' w' i o k Hr' Hi)|].
    intros [v| | |] w2 H; [left|right; destruct (Hex _ H); auto..].
    destruct H as (l2 & H). by exists v, l2.
  - intros Hd. split; [done|]. destruct I as [] eqn:HI. repeat split; try done. by eapply inv_done.
Qed.

(** Threads sharing an endpoint. Any number of threads, each of which opens
    a connection on the endpoint, uses it and closes it, are interleaved with
    each other and with Mero's answers, an operation of the library being one
    step. On a working system, in every
    state reached, each unfinished thread can take its next step: its operation
    is one the caller may use and it returns, except that a message too big for
    the session ends the process with code 1. When all threads are done every
    connection is closed: besides the endpoint only messages that Mero has not
    answered, or has refused, are still allocated. *)
Theorem threads_close_connections {RL : RpcLite} P w0 R0 a b ps l w p :
  Forall (starts P (addr a)) ps -> up l = true ->
  objs l !! a = Some (Endpoint b) -> objs l !! b = Some (Reqh a) ->
  (forall x, x <> a -> x <> b -> minor (objs l !! x)) ->
  Z.of_nat (length (conn_times l) + length ps) < 2 ^ 32 ->
  represents w0 R0 l w -> star (pstep w0 R0) (Pool ps l w) p ->
  (forall i o k, threads p !! i = Some (Use o k) -> legal (ghost p) o /\
     wp (exec o) (fun r w' => (exists v l', r = Ok v /\
       pstep w0 R0 p (Pool (<[i := k v]> (threads p)) l' w')) \/
       (r = Exited 1 /\ P o /\ excused (ghost p) o r)) (pw p)) /\
  (Forall (eq Done) (threads p) ->
     represents w0 R0 (ghost p) (pw p) /\ up (ghost p) = true /\ own (ghost p) = own l /\
     objs (ghost p) !! a = Some (Endpoint b) /\ objs (ghost p) !! b = Some (Reqh a) /\
     forall x, x <> a -> x <> b -> minor (objs (ghost p) !! x)).
Proof using REL. apply sessions_safe. Qed.

End Sessions.

(** * The largest epoch *)

Section Epochs.
Context {E : Env} {RL : RpcLite} (w0 : world) (R0 : list resource) (top : Z).

(** The client sends no epoch above [top] and does not restart the library. *)
Fixpoint below (c : client) : Prop :=
  match c with
  | Done => True
  | Use o k =>
      match o with SendEpoch _ our _ => our <= top | Init => False | _ => True end /\
      forall v, below (k v)
  end.

(** The client is going to send the epoch [top]. *)
Fixpoint will_send (c : client) : Prop :=
  match c with
  | Done => False
  | Use o k =>
      match o with SendEpoch _ our _ => our = top | _ => False end \/ forall v, will_send (k v)
  end.

Definition top_inv (ps : list client) (l : lib) : Prop :=
  Forall below ps /\ max_epoch l <= top /\ (max_epoch l = top \/ exists i c, ps !! i = Some c /\ will_send c).

(** Only [rpc_init] and [rpc_send_epoch_blocking] touch the largest epoch. *)
Lemma outcome_epoch l o v l' : outcome l o v l' ->
  match o with
  | Init => max_epoch l' = 0
  | SendEpoch _ our _ => max_epoch l' = if our <? max_epoch l then max_epoch l else our
  | _ => max_epoch l' = max_epoch l
  end.
Proof.
  assert (Hc : forall l v l', created l v l' -> max_epoch l' = max_epoch l).
  { clear. intros l v l' (_ & a & _ & _ & H). destruct (v.1 =? 0); [by destruct H as (b & _ & _ & ->)|].
    by destruct H as [->|(b & r & _ & _ & _ & ->)]. }
  destruct o; simpl; try exact (Hc _ _ _).
  - by intros [_ ->].
  - by intros ->.
  - by intros (a & b & _ & _ & ->).
  - intros (_ & a & _ & _ & H). destruct (v.1 =? 0); [by destruct H as (t & _ & ->)|].
    by destruct H as [->|(t & _ & ->)].
  - by intros (a & _ & _ & ->).
  - by intros (a & _ & _ & ->).
  - by intros ->.
  - by intros [[_ ->]|(a & _ & ->)].
  - destruct (our <? max_epoch l); by intros [_ ->].
  - intros [_ H]. by destruct (action_of c v); subst.
  - intros (k & _ & H). destruct (e =? 0); [by destruct H as (t & _ & ->)|by subst].
Qed.

Lemma top_inv_step ps l ps' l' : top_inv ps l -> astep (ps, l) (ps', l') -> top_inv ps' l'.
Proof.
  intros (Hb & Hm & Ht) Hs. inversion Hs as [i o k v ps1 l1 l2 Hi Hout|x e rep ps1 l1 l2 Hl Hout]; subst.
  2:{ pose proof (outcome_epoch _ _ _ _ Hout) as He. simpl in He. split; [done|]. by rewrite He. }
  pose proof (Forall_lookup_1 _ _ _ _ Hb Hi) as [Ho Hk]. pose proof (outcome_epoch _ _ _ _ Hout) as He.
  split; [by apply Forall_insert|]. split.
  - destruct o; try lia; try done. destruct (our <? max_epoch l); lia.
  - destruct Ht as [Ht|(j & c & Hj & Hc)].
    + left. destruct o; try congruence; try done. destruct (our <? max_epoch l) eqn:Hlt; reflect_Z; lia.
    + destruct (decide (j = i)) as [->|Hne].
      * rewrite Hi in Hj. injection Hj as <-. destruct Hc as [Hc|Hc].
        -- left. destruct o; try done. subst. destruct (_ <? _) eqn:Hlt; reflect_Z; lia.
        -- right. exists i, (k v). split; [|done]. apply list_lookup_insert_eq. by eapply lookup_lt_Some.
      * right. exists j, c. by rewrite list_lookup_insert_ne.
Qed.

Lemma top_epoch ps l w p :
  Forall below ps -> Exists will_send ps -> max_epoch l <= top ->
  represents w0 R0 l w -> star (pstep w0 R0) (Pool ps l w) p ->
  client_max_epoch (glob (pw p)) <= top /\
  (Forall (eq Done) (threads p) -> client_max_epoch (glob (pw p)) = top).
Proof.
  intros Hb Hex Hm Hr Hs.
  destruct (pool_invariant w0 R0 top_inv (Pool ps l w) p) as [(_ & Hm' & Ht) Hr']; [apply top_inv_step| |done|done|].
  { split; [done|]. split; [done|]. right. apply list.Exists_exists in Hex as (c & Hc & Hw).
    apply list_elem_of_lookup in Hc as [i Hi]. by exists i, c. }
  rewrite (represents_epoch _ _ _ _ Hr'). split; [done|].
  intros Hd. destruct Ht as [|(i & c & Hi & Hc)]; [done|].
  pose proof (Forall_lookup_1 _ _ _ _ Hd Hi) as <-. done.
Qed.

(** Epochs from several threads, call by call: if no thread sends an epoch
    above [top], one of them sends [top], and none restarts the library, then
    in every interleaving the largest epoch in use is [top] once the threads
    are done, and never more. (Within the calls the unprotected variable can
    still be overwritten by a smaller epoch: [Epoch.epoch_race].) *)
Theorem threads_reach_top_epoch ps l w p :
  Forall below ps -> Exists will_send ps -> max_epoch l <= top ->
  represents w0 R0 l w -> star (pstep w0 R0) (Pool ps l w) p ->
  client_max_epoch (glob (pw p)) <= top /\
  (Forall (eq Done) (threads p) -> client_max_epoch (glob (pw p)) = top).
Proof. apply top_epoch. Qed.
End Epochs.

(** * Main functions with threads

    [main] creates the threads, joins them and closes everything. The threads
    are run from the moment all of them are created. *)

Definition thread_var (i : nat) : ptr := Ptr (Foreign (200 + Z.of_nat i)) [].

Section Main.
Context {E : Env}.

Definition thread_inits (n : nat) (check : Z -> M unit) : M unit :=
  for_each (seq 0 n) (fun i => rc ← do! (M0_THREAD_INIT (thread_var i) (Z.of_nat i)); check rc).

Definition thread_joins (n : nat) : M unit :=
  for_each (seq 0 n) (fun i => do! (m0_thread_join (thread_var i)) ;; mret tt).

Definition threads_finish (n : nat) (e : ptr) : M Z :=
  thread_joins n ;;
  rpc_destroy_endpoint e ;;
  rpc_fini ;;
  mret 0.

Context {REL : Reliable}.

Fixpoint hold_threads (ts : list nat) (l : lib) : lib :=
  match ts with
  | [] => l
  | i :: ts => hold_threads ts (hold (RThread (thread_var i)) l)
  end.

Lemma hold_threads_snoc ts i l :
  hold_threads (ts ++ [i]) l = hold (RThread (thread_var i)) (hold_threads ts l).
Proof. revert l. induction ts as [|j ts IH]; intros l; simpl; [done|apply IH]. Qed.

Lemma hold_threads_keeps ts l :
  up (hold_threads ts l) = up l /\ objs (hold_threads ts l) = objs l /\
  conn_times (hold_threads ts l) = conn_times l /\ max_epoch (hold_threads ts l) = max_epoch l /\
  own (hold_threads ts l) = reverse ((fun i => RThread (thread_var i)) <$> ts) ++ own l.
Proof.
  revert l. induction ts as [|j ts IH]; intros l; simpl; [done|].
  destruct (IH (hold (RThread (thread_var j)) l)) as (-> & -> & -> & -> & ->). repeat split.
  simpl. rewrite reverse_cons, <- (assoc_L (++)). done.
Qed.

Lemma thread_inits_awp {RL : RpcLite} w0 R0 n check l X :
  (forall l (Q : unit -> lib -> Prop), Q tt l -> awp w0 R0 (check 0) Q X l) ->
  awp w0 R0 (thread_inits n check) (fun _ l' => l' = hold_threads (seq 0 n) l) X l.
Proof using REL.
  intros Hcheck. apply (awp_for_each w0 R0 (seq 0 n) _ (fun ts l' => l' = hold_threads ts l)); [done|].
  intros ts i rest l' _ ->. apply awp_bind.
  apply (awp_call _ _ (M0_THREAD_INIT (thread_var i) (Z.of_nat i))).
  { intros rc. unfold foreign. simpl. by destruct (_ =? 0). }
  intros rc Hrc. apply rel_thread in Hrc as ->. apply Hcheck. symmetry. apply hold_threads_snoc.
Qed.

Lemma threads_finish_awp {RL : RpcLite} w0 R0 n a b l Q X :
  up l = true -> objs l !! a = Some (Endpoint b) ->
  Q 0 (set_up false (remove a (remove b l))) -> awp w0 R0 (threads_finish n (addr a)) Q X l.
Proof.
  intros Hup Ha HQ. unfold threads_finish, thread_joins. apply awp_bind.
  eapply awp_mono; [apply (awp_for_each w0 R0 (seq 0 n) _ (fun _ l' => l' = l)); [done|]|].
  - intros ts i rest l' _ ->. apply awp_bind. apply (awp_call _ _ (m0_thread_join (thread_var i))); [done|].
    intros rc _. by apply awp_ret.
  - intros [] l' ->. apply awp_bind. eapply awp_destroy; [done..|].
    apply awp_bind, awp_fini, awp_ret; done.
Qed.

(** What is to be shown of a program whose [main], started in [w], has created
    the threads [ps] on the endpoint [e] and reached [w1]. *)
Definition pool_runs {RL : RpcLite} (w : world) (R : list resource) (wb : world) (Rb : list resource)
    (bound : nat) (exits : bool) (ps : list client) (e : ptr) (l : lib) (w1 : world) : Prop :=
  forall n p, nsteps (pstep wb Rb) n (Pool ps l w1) p ->
  (* runs are bounded *)
  (n <= bound)%nat /\
  (* every thread can go on *)
  (forall i o k, threads p !! i = Some (Use o k) ->
     wp (exec o) (fun r w' => (exists v l', r = Ok v /\
       pstep wb Rb p (Pool (<[i := k v]> (threads p)) l' w')) \/ (exits = true /\ r = Exited 1)) (pw p)) /\
  (* after the last one, main closes everything but pending messages *)
  (Forall (eq Done) (threads p) ->
     wp (threads_finish (length ps) e) (fun r w' => r = Ok 0 /\ exists l', leaves w R l' w' /\
       up l' = false /\ own l' = own l /\ forall x, minor (objs l' !! x)) (pw p)).

Lemma nsteps_star {S} (step : S -> S -> Prop) n x y : nsteps step n x y -> star step x y.
Proof.
  induction 1 as [x|n x y z Hxy _ IH]; [apply star_refl|].
  eapply star_trans; [by apply star_one|done].
Qed.

Lemma pool_main {RL : RpcLite} P (exits : bool) w R wb Rb a b ns ps l w1 :
  (forall l w', represents wb Rb l w' -> leaves w R l w') ->
  Forall (starts P (addr a)) ps -> Forall2 bounded ns ps ->
  up l = true -> a <> b -> objs l = <[a := Endpoint b]> (<[b := Reqh a]> ∅) ->
  Z.of_nat (length (conn_times l) + length ps) < 2 ^ 32 ->
  (forall l o, P o -> excused l o (Exited 1) -> exits = true) ->
  represents wb Rb l w1 ->
  pool_runs w R wb Rb (2 * sum_nat ns) exits ps (addr a) l w1.
Proof using REL.
  intros Hleaves Hps Hb Hup Hab Ho Hroom Hex Hr n p Hn.
  assert (Hfl : in_flight l = 0%nat).
  { transitivity (in_flight (add a (Endpoint b) (add b (Reqh a) (closed [] [] 0 no_listeners)))).
    - unfold in_flight. simpl. by rewrite Ho.
    - rewrite !in_flight_add by (simpl; by simpl_map). done. }
  pose proof (pool_bound wb Rb ns (Pool ps l w1) p n Hb Hn) as Hbound. unfold work in Hbound. simpl in Hbound.
  destruct (sessions_safe P wb Rb a b ps l w1 p) as [Hsafe Hdone]; try done;
    [rewrite Ho; by simpl_map..| |by eapply nsteps_star|].
  { intros x Hxa Hxb. rewrite Ho. by rewrite !lookup_insert_ne, lookup_empty by done. }
  split; [lia|]. split.
  - intros i o k Hi. destruct (Hsafe i o k Hi) as [_ Hwp]. eapply wp_mono; [exact Hwp|].
    intros r w' [H|(-> & HP & Hx)]; [by left|right]. split; [by eapply Hex|done].
  - intros Hd. destruct (Hdone Hd) as (Hr' & Hup' & Hown & Ha' & Hb' & Hm).
    eapply wp_mono; [apply (threads_finish_awp wb Rb (length ps) a b (ghost p) (fun v l' => v = 0 /\
      up l' = false /\ own l' = own l /\ forall x, minor (objs l' !! x)) (fun _ => False)); [done|done| |done]|].
    + repeat split; [done|]. intros x. simpl. rewrite !lookup_delete. repeat case_decide; try done. by apply Hm.
    + intros [v| | |] w' H; [|by specialize (H _ eq_refl)..].
      destruct H as (l' & (-> & Hu & Hw & Hmin) & Hrep). split; [done|]. exists l'.
      split; [by apply Hleaves|done].
Qed.
End Main.

(** ** Witnesses *)

(** Connects, sends an epoch and a message, and disconnects. *)
Definition worker (e : ptr) (n : Z) : client :=
  Use (Connect e "0@lo:12345:34:10" 3 (thread_var 0)) (fun v =>
    Use (SendEpoch v.2 n 3) (fun _ =>
      Use (SendBlocking v.2 Programs.two_strings 3) (fun _ =>
        Use (Disconnect v.2 3) (fun _ => Done)))).

Lemma worker_bounded e n : bounded 4 (worker e n).
Proof. done. Qed.

Lemma worker_starts e n : starts (E := fixed_env Programs.all_ok) (fun _ => True) e (worker e n).
Proof.
  split; [done|]. split; [done|]. split; [done|]. intros c. right. split; [done|]. split; [done|].
  intros _ _ _ _. right. split; [split; [done|]; split; [|done]; apply Programs.two_strings_ok|].
  split; [done|]. intros _ _ _ _. by left.
Qed.

(** An endpoint, from the start of the process. *)
Definition open_endpoint {E : Env} : M (Z * ptr) :=
  rpc_init ;; rpc_listen "0@lo:12345:34:10" None (thread_var 1).

Definition opened (Q : positive -> positive -> lib -> @world (fixed_env Programs.all_ok) -> Prop) : Prop :=
  wp open_endpoint (fun r w1 => exists a b l, r = Ok (0, addr a) /\ Q a b l w1) (start Programs.all_ok).

Lemma open_endpoint_ok (Q : positive -> positive -> lib -> @world (fixed_env Programs.all_ok) -> Prop) :
  (forall a b l w1, a <> b -> up l = true -> objs l = <[a := Endpoint b]> (<[b := Reqh a]> ∅) ->
     conn_times l = [] -> max_epoch l = 0 ->
     represents (start Programs.all_ok) [] l w1 -> Q a b l w1) ->
  opened Q.
Proof.
  intros HQ. eapply wp_mono.
  { apply (awp_bind (start Programs.all_ok) [] rpc_init (fun _ => rpc_listen "0@lo:12345:34:10" None (thread_var 1))
      (fun v l => exists a b, v = (0, addr a) /\ a <> b /\ up l = true /\ conn_times l = [] /\ max_epoch l = 0 /\
        objs l = <[a := Endpoint b]> (<[b := Reqh a]> ∅)) (fun _ => False) (closed [] [] 0 no_listeners)).
    - apply awp_init_ok; [done|]. apply awp_listen_ok; [done..|]. intros a b _ _ Hne. by exists a, b.
    - exact (represents_closed (start Programs.all_ok) [] [] [] _ _ eq_refl recorded_nothing recorded_nothing). }
  intros [v| | |] w' H; [|by destruct (H _ eq_refl)..].
  destruct H as (l & (a & b & -> & Hab & Hup & Hct & Hm & Ho) & Hr). exists a, b, l. split; [done|]. by apply HQ.
Qed.

Lemma pools_terminate_witness :
  opened (fun a b l w1 => forall n p,
    nsteps (pstep (start Programs.all_ok) []) n (Pool [worker (addr a) 1; worker (addr a) 2] l w1) p ->
    (n <= work [4; 4] l)%nat) /\
  (run (worker (addr 1) 1) (open_endpoint (start Programs.all_ok)).2).1 = Ok tt.
Proof.
  split; [|vm_compute; reflexivity]. apply open_endpoint_ok. intros a b l w1 _ _ _ _ _ _ n p Hn.
  apply (pools_terminate (start Programs.all_ok) [] [4; 4]%nat (Pool [worker (addr a) 1; worker (addr a) 2] l w1) p n); [|exact Hn].
  repeat constructor; apply worker_bounded.
Defined.

Lemma threads_close_connections_witness :
  opened (fun a b l w1 => forall p,
    star (pstep (start Programs.all_ok) []) (Pool [worker (addr a) 1; worker (addr a) 2] l w1) p ->
    Forall (eq Done) (threads p) -> forall x, x <> a -> x <> b -> minor (objs (ghost p) !! x)).
Proof.
  apply open_endpoint_ok. intros a b l w1 Hab Hup Ho Hct _ Hr p Hs Hd.
  destruct (threads_close_connections (fun _ => True) (start Programs.all_ok) [] a b
    [worker (addr a) 1; worker (addr a) 2] l w1 p) as [_ H]; try done.
  - apply Forall_cons_2; [apply worker_starts|]. apply Forall_singleton, worker_starts.
  - rewrite Ho. apply lookup_insert_eq.
  - rewrite Ho. by rewrite lookup_insert_ne, lookup_insert_eq.
  - intros x Hxa Hxb. rewrite Ho. by rewrite !lookup_insert_ne, lookup_empty.
  - by rewrite Hct.
  - by apply H.
Defined.

Lemma threads_reach_top_epoch_witness :
  opened (fun a b l w1 => forall p,
    star (pstep (start Programs.all_ok) []) (Pool [worker (addr a) 1; worker (addr a) 2] l w1) p ->
    client_max_epoch (glob (pw p)) <= 2 /\
    (Forall (eq Done) (threads p) -> client_max_epoch (glob (pw p)) = 2)).
Proof.
  apply open_endpoint_ok. intros a b l w1 Hab Hup Ho Hct Hm Hr p Hs.
  apply (threads_reach_top_epoch (start Programs.all_ok) [] 2
    [worker (addr a) 1; worker (addr a) 2] l w1 p); try done.
  - repeat constructor; simpl; lia.
  - right. left. right. intros v. by left.
  - rewrite Hm. lia.
Defined.

End Threads.
