(* ===== verification/EpochTest.v ===== *)
(** test-epoch.c: two clients that exchange epochs with a server in the same
    process, from two threads. The loops over epochs use unsigned 64-bit
    counters; they are shown to visit the intended epochs, and when they end. *)

From stdpp Require Import relations.
From S2P Require Import Prelude CTypes Machine Stats Resources RpcInit Endpoint Connection.
From S2P Require Import Payload Send InFlight Epoch M0Init Library LibraryImpl Clients Programs Threads.
Local Open Scope Z_scope.

Module EpochTest.
Import Stats RpcInit Endpoint Connection Payload Send Epoch M0Init Library LibraryImpl Clients.
Import Programs Threads.

(** * The loops *)

Section Loops.
Context {E : Env}.

(** [for (epoch = c_min; epoch <= c_max; epoch++)], from [epoch] on, with a
    64-bit counter. The result tells whether the loop has ended within [fuel]
    turns. *)
Fixpoint for_up (fuel : nat) (epoch c_max : Z) (body : Z -> M unit) : M bool :=
  if epoch <=? c_max then
    match fuel with
    | O => mret false
    | S fuel => body epoch ;; for_up fuel (u64 (epoch + 1)) c_max body
    end
  else mret true.

(** [for (epoch = c_max; epoch >= c_min; epoch--)] *)
Fixpoint for_down (fuel : nat) (epoch c_min : Z) (body : Z -> M unit) : M bool :=
  if c_min <=? epoch then
    match fuel with
    | O => mret false
    | S fuel => body epoch ;; for_down fuel (u64 (epoch - 1)) c_min body
    end
  else mret true.

(** The intended epochs. *)
Definition increasing (c_min c_max : Z) : list Z := seqZ c_min (c_max - c_min + 1).
Definition decreasing (c_min c_max : Z) : list Z := reverse (increasing c_min c_max).

(** The loop runs its body for [es] and ends. *)
Abbreviation visits m es body := (m ≃ (for_each (es : list Z) body ;; mret true)).

Lemma visits_cons m x es body :
  visits m es body -> visits (body x ;; m) (x :: es) body.
Proof. intros H. simpl. rewrite meq_assoc. by apply meq_bind. Qed.

Lemma for_up_ends fuel c_max epoch body :
  0 <= epoch -> c_max < 2 ^ 64 - 1 -> c_max - epoch + 1 <= Z.of_nat fuel ->
  visits (for_up fuel epoch c_max body) (increasing epoch c_max) body.
Proof.
  revert epoch. induction fuel as [|fuel IH]; intros epoch He Hm Hf; unfold increasing; cbn [for_up].
  - rewrite (proj2 (Z.leb_gt epoch c_max)) by lia. by rewrite seqZ_nil by lia.
  - destruct (epoch <=? c_max) eqn:Hle; reflect_Z; [|by rewrite seqZ_nil by lia].
    rewrite u64_small by lia. rewrite (seqZ_cons epoch) by lia. apply visits_cons.
    replace (Z.pred (c_max - epoch + 1)) with (c_max - Z.succ epoch + 1) by lia. apply IH; lia.
Qed.

Lemma increasing_snoc c_min n :
  increasing c_min (c_min + Z.of_nat n) = seqZ c_min (Z.of_nat n) ++ [c_min + Z.of_nat n].
Proof. unfold increasing. replace (_ - _ + 1) with (Z.of_nat (S n)) by lia. apply seqZ_S. Qed.

Lemma for_down_ends n fuel c_min body :
  0 < c_min -> c_min + Z.of_nat n < 2 ^ 64 -> (S n <= fuel)%nat ->
  visits (for_down fuel (c_min + Z.of_nat n) c_min body) (decreasing c_min (c_min + Z.of_nat n)) body.
Proof.
  intros Hm. revert fuel. induction n as [|n IH]; intros [|fuel] Hr Hf; try lia; cbn [for_down];
    rewrite (proj2 (Z.leb_le c_min _)) by lia; unfold decreasing; rewrite increasing_snoc, reverse_snoc;
    apply visits_cons.
  - rewrite u64_small by lia. destruct fuel; cbn [for_down]; by rewrite (proj2 (Z.leb_gt c_min _)) by lia.
  - replace (u64 (c_min + Z.of_nat (S n) - 1)) with (c_min + Z.of_nat n) by (rewrite u64_small; lia).
    rewrite seqZ_S, <- increasing_snoc. apply IH; lia.
Qed.

(** The loop does not end within the fuel. *)
Definition goes_on (m : M bool) : Prop := forall w, (m w).1 <> Ok true.

Lemma goes_on_bind (m : M unit) k : goes_on k -> goes_on (m ;; k).
Proof. intros H w. unfold mbind, M_bind. by destruct (m w) as [[[]| | |] w']. Qed.

Lemma for_up_diverges fuel epoch body : 0 <= epoch < 2 ^ 64 -> goes_on (for_up fuel epoch (2 ^ 64 - 1) body).
Proof.
  revert epoch. induction fuel as [|fuel IH]; intros epoch He; cbn [for_up];
    rewrite (proj2 (Z.leb_le epoch _)) by lia; [done|]. by apply goes_on_bind, IH, u64_range.
Qed.

Lemma for_down_diverges fuel epoch body : 0 <= epoch < 2 ^ 64 -> goes_on (for_down fuel epoch 0 body).
Proof.
  revert epoch. induction fuel as [|fuel IH]; intros epoch He; cbn [for_down];
    rewrite (proj2 (Z.leb_le 0 epoch)) by lia; [done|]. by apply goes_on_bind, IH, u64_range.
Qed.

Lemma for_down_visits fuel c_min c_max body :
  0 < c_min <= c_max -> c_max < 2 ^ 64 -> c_max - c_min + 1 <= Z.of_nat fuel ->
  visits (for_down fuel c_max c_min body) (decreasing c_min c_max) body.
Proof.
  intros Hmin Hmax Hf. replace c_max with (c_min + Z.of_nat (Z.to_nat (c_max - c_min))) by lia.
  apply for_down_ends; lia.
Qed.

(** Termination of the loops of [epoch_client], whatever their body. For
    64-bit bounds [c_min <= c_max] the increasing loop ends, having run its
    body for [c_min .. c_max] in order, when [c_max] is not the largest 64-bit
    number; the decreasing loop ends, having run its body for
    [c_max .. c_min], when [c_min] is not 0; [c_max - c_min + 1] turns are
    enough. Otherwise the counter wraps around and the loop never ends. *)
Theorem epoch_loops_terminate c_min c_max body :
  0 <= c_min <= c_max -> c_max < 2 ^ 64 ->
  (if c_max =? 2 ^ 64 - 1 then forall fuel, goes_on (for_up fuel c_min c_max body)
   else forall fuel, c_max - c_min + 1 <= Z.of_nat fuel ->
     for_up fuel c_min c_max body ≃ (for_each (increasing c_min c_max) body ;; mret true)) /\
  (if c_min =? 0 then forall fuel, goes_on (for_down fuel c_max c_min body)
   else forall fuel, c_max - c_min + 1 <= Z.of_nat fuel ->
     for_down fuel c_max c_min body ≃ (for_each (decreasing c_min c_max) body ;; mret true)).
Proof.
  intros Hmin Hmax. split.
  - destruct (c_max =? 2 ^ 64 - 1) eqn:H; reflect_Z; [subst; intros; apply for_up_diverges; lia|].
    intros fuel Hf. apply for_up_ends; lia.
  - destruct (c_min =? 0) eqn:H; reflect_Z; [subst; intros; apply for_down_diverges; lia|].
    intros fuel Hf. apply for_down_visits; lia.
Qed.
End Loops.

Lemma epoch_loops_terminate_witness :
  let body (x : Z) : @M (fixed_env roomy) unit := do! (m0_time_from_now x 0) ;; mret tt in
  for_up 4 12 15 body ≃ (for_each [12; 13; 14; 15] body ;; mret true) /\
  for_down 4 15 12 body ≃ (for_each [15; 14; 13; 12] body ;; mret true) /\
  (forall fuel, goes_on (for_up fuel 3 (2 ^ 64 - 1) body)) /\ (forall fuel, goes_on (for_down fuel 7 0 body)).
Proof.
  intros body. split; [|split; [|split]].
  - apply (epoch_loops_terminate 12 15 body); [lia..|]. simpl. lia.
  - apply (epoch_loops_terminate 12 15 body); [lia..|]. simpl. lia.
  - apply (epoch_loops_terminate 3 (2 ^ 64 - 1) body); lia.
  - apply (epoch_loops_terminate 0 7 body); lia.
Defined.

(** * One client, alone *)

Section EpochLoops.
Context {E : Env}.

(** The two loops of [epoch_client]; the results are only printed. *)
Definition epoch_client_loops (fuel : nat) (c : ptr) (c_min c_max : Z) : M bool :=
  let body epoch := rpc_send_epoch_blocking c epoch 2 ;; mret tt in
  ended ← for_up fuel c_min c_max body;
  if (ended : bool) then for_down fuel c_max c_min body else mret false.

(** On the intended epochs, the loops are a sequence of calls. *)
Lemma epoch_client_loops_calls fuel c c_min c_max :
  0 < c_min <= c_max -> c_max < 2 ^ 64 - 1 -> c_max - c_min + 1 <= Z.of_nat fuel ->
  epoch_client_loops fuel c c_min c_max ≃
    (for_each (increasing c_min c_max ++ decreasing c_min c_max)
       (fun epoch => rpc_send_epoch_blocking c epoch 2 ;; mret tt) ;; mret true).
Proof.
  intros Hmin Hmax Hf. unfold epoch_client_loops.
  rewrite (for_up_ends fuel c_max c_min) by lia. rewrite meq_assoc, for_each_app, meq_assoc.
  apply meq_bind. intros []. rewrite meq_ret_l. apply for_down_visits; lia.
Qed.

Lemma send_epochs_calls c es :
  (for_each es (fun epoch => rpc_send_epoch_blocking c epoch 2 ;; mret tt) ;; mret true) ≃
  (send_epochs ((fun epoch => (c, epoch, 2)) <$> es) ;; mret true).
Proof.
  induction es as [|x es IH]; [done|]. cbn [for_each fmap list_fmap send_epochs].
  rewrite !meq_assoc. apply meq_bind. intros r. rewrite meq_ret_l, IH, meq_assoc.
  apply meq_bind. intros rs. by rewrite meq_ret_l.
Qed.

Lemma records_up m a n rest :
  m <= a -> records m (seqZ a (Z.of_nat (S n)) ++ rest) =
    seqZ a (Z.of_nat (S n)) ++ records (a + Z.of_nat n) rest.
Proof.
  revert m a. induction n as [|n IH]; intros m a Hm.
  - rewrite seqZ_cons by lia. change (Z.pred (Z.of_nat 1)) with 0. rewrite seqZ_nil by lia. simpl.
    rewrite (proj2 (Z.ltb_ge a m)) by lia. by rewrite Z.add_0_r.
  - rewrite seqZ_cons by lia. simpl. rewrite (proj2 (Z.ltb_ge a m)) by lia. f_equal.
    replace (Z.pred (Z.of_nat (S (S n)))) with (Z.of_nat (S n)) by lia.
    rewrite IH by lia. do 2 f_equal. lia.
Qed.

Lemma records_below m es : Forall (fun e => e < m) es -> records m es = [].
Proof.
  induction 1 as [|e es He _ IH]; simpl; [done|]. by rewrite (proj2 (Z.ltb_lt e m) He).
Qed.

Lemma records_down a n :
  records (a + Z.of_nat n) (reverse (seqZ a (Z.of_nat (S n)))) = [a + Z.of_nat n].
Proof.
  rewrite seqZ_S, reverse_snoc. simpl. rewrite Z.ltb_irrefl. f_equal. apply records_below.
  apply Forall_reverse, Forall_seqZ. lia.
Qed.

Lemma foldl_max m b es :
  m <= b -> Forall (fun e => e <= b) es -> b ∈ es -> foldl Z.max m es = b.
Proof.
  intros Hm Hes Hin. apply Z.le_antisymm.
  - clear Hin. revert m Hm. induction Hes as [|e es He _ IH]; intros m Hm; simpl; [done|].
    apply IH. lia.
  - clear Hes Hm. revert m. induction Hin as [x es|x y es Hin IH]; intros m; simpl; [|apply IH].
    enough (forall k, k <= foldl Z.max k es) as Hk by (specialize (Hk (m `max` x)); lia).
    intros k. revert k. induction es as [|e es IH]; intros k; simpl; [lia|].
    specialize (IH (k `max` e)). lia.
Qed.

(** The client of test-epoch.c, alone: whatever its peer answers, while the
    calls return it transmits every epoch from [c_min] to [c_max] once, in
    order, then [c_max] once more, and nothing for the smaller epochs of the
    second loop; afterwards the largest epoch in use is [c_max]. *)
Theorem epoch_client_transmits fuel c c_min c_max w :
  client_max_epoch (glob w) <= c_min -> 0 < c_min <= c_max -> c_max < 2 ^ 64 - 1 ->
  c_max - c_min + 1 <= Z.of_nat fuel ->
  let expected := increasing c_min c_max ++ [c_max] in
  wp (epoch_client_loops fuel c c_min c_max) (fun r w' => exists evs, ran evs w w' /\
    match r with
    | Ok ended => ended = true /\ sent_epochs None evs = Some <$> expected /\ client_max_epoch (glob w') = c_max
    | Undefined => False
    | _ => sent_epochs None evs `prefix_of` (Some <$> expected)
    end) w.
Proof.
  intros Hmax Hmin Htop Hfuel expected. rewrite epoch_client_loops_calls, send_epochs_calls by done.
  apply wp_bind. eapply wp_mono; [apply wp_send_epochs|]. intros r w' (evs & Hr & H).
  specialize (H None). rewrite <- list_fmap_compose in H. simpl in H.
  replace ((fun x : Z => x) <$> _) with (increasing c_min c_max ++ decreasing c_min c_max) in H
    by (symmetry; apply list_fmap_id).
  set (n := Z.to_nat (c_max - c_min)).
  assert (Hinc : increasing c_min c_max = seqZ c_min (Z.of_nat (S n))).
  { unfold increasing. f_equal. lia. }
  assert (Hrec : records (client_max_epoch (glob w))
    (increasing c_min c_max ++ decreasing c_min c_max) = expected).
  { unfold expected, decreasing. rewrite Hinc, records_up, records_down by done.
    do 2 f_equal. lia. }
  rewrite Hrec in H. destruct r; [apply wp_ret|by exists evs..]. exists evs. split; [done|].
  destruct H as (_ & Hs & Hm). split; [done|]. split; [done|].
  rewrite Hm. apply foldl_max; [lia| |].
  - apply Forall_app. unfold decreasing. rewrite Forall_reverse. unfold increasing.
    split; apply Forall_seqZ; lia.
  - apply elem_of_app. left. apply elem_of_seqZ. lia.
Qed.

End EpochLoops.

Lemma epoch_client_transmits_witness :
  wp (epoch_client_loops 4 conn0 12 15) (fun r w' => exists evs, ran evs (start roomy) w' /\
    match r with
    | Ok ended => ended = true /\ sent_epochs None evs = Some <$> [12; 13; 14; 15; 15] /\
              client_max_epoch (glob w') = 15
    | Undefined => False
    | _ => sent_epochs None evs `prefix_of` (Some <$> [12; 13; 14; 15; 15])
    end) (start roomy).
Proof. apply (epoch_client_transmits 4 conn0 12 15 (start roomy)); simpl; lia. Defined.

(** * The program *)

Definition SERVER_ADDRESS : string := "0@lo:12345:34:100".

(** [struct client_data], without the name used in diagnostics *)
Record client_data := { c_min : Z; c_max : Z; c_e : ptr }.

(** [epoch_client]; the result of [rpc_connect] is ignored. [None]: the loops have
    not ended within [fuel] turns. *)
Definition epoch_client_c {E : Env} (fuel : nat) (d : client_data) : M (option unit) :=
  r ← rpc_connect (c_e d) SERVER_ADDRESS 1 var_c;
  let c := r.2 in
  ended ← epoch_client_loops fuel c (c_min d) (c_max d);
  if (ended : bool) then
    rpc_send_blocking c two_strings 2 2 ;;
    rpc_send c two_strings 2 (Some reply_rcv) ctx5 2 ;;
    rpc_disconnect c 1 ;;
    mret (Some tt)
  else mret None.

(** The same as a client of the library, one operation after the other. *)
Definition exchange_epochs (c : ptr) (epochs : list Z) (next : client) : client :=
  foldr (fun epoch rest => Use (SendEpoch c epoch 2) (fun _ => rest)) next epochs.

Definition epoch_client (d : client_data) : client :=
  Use (Connect (c_e d) SERVER_ADDRESS 1 var_c) (fun r =>
  let c := r.2 in
  exchange_epochs c (increasing (c_min d) (c_max d)) (
  exchange_epochs c (decreasing (c_min d) (c_max d)) (
  Use (SendBlocking c two_strings 2) (fun _ =>
  Use (SendAsync c two_strings reply_rcv ctx5 2) (fun _ =>
  Use (Disconnect c 1) (fun _ => Done)))))).

Lemma run_exchange {E : Env} c es next :
  run (exchange_epochs c es next) ≃
    (for_each es (fun epoch => rpc_send_epoch_blocking c epoch 2 ;; mret tt) ;; run next).
Proof.
  induction es as [|x es IH]; [done|]. cbn [exchange_epochs foldr run for_each].
  rewrite !meq_assoc. apply meq_bind. intros r. by rewrite meq_ret_l.
Qed.

(** The thread function of test-epoch.c, with its loops on 64-bit counters,
    is the sequence of library operations that the threads of the pool run: in
    every state of the process and for all bounds for which the loops end, the
    two have the same result and effect, and [c_max - c_min + 1] turns are
    enough. *)
Theorem epoch_client_equiv {E : Env} fuel d :
  0 < c_min d <= c_max d -> c_max d < 2 ^ 64 - 1 -> c_max d - c_min d + 1 <= Z.of_nat fuel ->
  epoch_client_c fuel d ≃ (run (epoch_client d) ;; mret (Some tt)).
Proof.
  intros Hmin Hmax Hf. unfold epoch_client_c, epoch_client. cbn [run exec]. rewrite meq_assoc.
  apply meq_bind. intros r. rewrite epoch_client_loops_calls, for_each_app, !meq_assoc by done.
  rewrite run_exchange, meq_assoc. apply meq_bind. intros []. rewrite run_exchange, !meq_assoc.
  apply meq_bind. intros []. rewrite meq_ret_l. cbn [run exec]. rewrite meq_assoc.
  apply meq_bind. intros rc. rewrite meq_assoc. apply meq_bind. intros rc2. rewrite meq_assoc. by apply meq_bind.
Qed.

Lemma epoch_client_equiv_witness :
  let d := {| c_min := 12; c_max := 15; c_e := addr 1 |} in
  @epoch_client_c (fixed_env all_ok) 4 d ≃ (run (epoch_client d) ;; mret (Some tt)).
Proof. intros d. apply (epoch_client_equiv 4 d); simpl; lia. Defined.

Definition clients (e : ptr) : list client :=
  [epoch_client {| c_min := 12; c_max := 15; c_e := e |};
   epoch_client {| c_min := 13; c_max := 16; c_e := e |}].

(** What the loops add to a client. *)
Lemma exchange_bounded c es n next :
  bounded n next -> bounded (length es + n) (exchange_epochs c es next).
Proof. intros H. induction es as [|x es IH]; [done|]. by intros v. Qed.

Lemma exchange_below top c es next :
  Forall (fun x => x <= top) es -> below top next -> below top (exchange_epochs c es next).
Proof. intros Hes H. induction Hes as [|x es Hx _ IH]; [done|]. by split. Qed.

Lemma exchange_sends top c es next : top ∈ es -> will_send top (exchange_epochs c es next).
Proof.
  induction 1 as [|x y es _ IH]; [by left|]. right. intros v. exact IH.
Qed.

Lemma epoch_client_bounded lo hi e n :
  hi - lo + 1 = Z.of_nat n ->
  bounded (n + n + 4) (epoch_client {| c_min := lo; c_max := hi; c_e := e |}).
Proof.
  intros Hn. replace (n + n + 4)%nat with (S (n + (n + 3)))%nat by lia. intros r. simpl.
  assert (Hl : length (increasing lo hi) = n) by (unfold increasing; rewrite length_seqZ; lia).
  rewrite <- Hl at 1. apply exchange_bounded.
  replace n with (length (decreasing lo hi)) by (unfold decreasing; by rewrite length_reverse).
  by apply exchange_bounded.
Qed.

Lemma epoch_client_below top lo hi e :
  hi <= top -> below top (epoch_client {| c_min := lo; c_max := hi; c_e := e |}).
Proof.
  intros Hhi. assert (Hi : Forall (fun x => x <= top) (increasing lo hi)) by (apply Forall_seqZ; lia).
  split; [done|]. intros r. apply exchange_below; [done|].
  apply exchange_below; [by apply Forall_reverse|]. by repeat split.
Qed.

Lemma epoch_client_sends lo hi e :
  lo <= hi -> will_send hi (epoch_client {| c_min := lo; c_max := hi; c_e := e |}).
Proof. intros H. right. intros r. apply exchange_sends, elem_of_seqZ. simpl. lia. Qed.

Section TestEpoch.
Context {E : Env}.

(** [main] up to the creation of the threads, whose results it ignores; [None]
    is the early [return 2]. It ends with [threads_finish 2]. *)
Definition test_epoch_setup : M (option ptr) :=
  m0_init_wrapper ;;
  ret ← rpc_init;
  if ret =? 0 then
    r ← rpc_listen SERVER_ADDRESS None var_e;
    thread_inits 2 (fun _ => mret tt) ;;
    mret (Some r.2)
  else mret None.

Context {REL : Reliable}.

Definition any_op (o : op) : Prop := True.

Lemma exchange_session c es next :
  session any_op c next -> session any_op c (exchange_epochs c es next).
Proof. intros Hn. induction es as [|x es IH]; simpl; [done|]. right. by repeat split. Qed.

Lemma epoch_client_starts lo hi e : starts any_op e (epoch_client {| c_min := lo; c_max := hi; c_e := e |}).
Proof.
  repeat split; try done. intros c. apply exchange_session, exchange_session.
  right. split; [split; [done|split; [apply two_strings_ok|done]]|]. split; [done|]. intros _ _ _ _.
  right. split; [split; [done|split; [apply two_strings_ok|done]]|]. split; [done|]. intros _ _ _ _.
  by left.
Qed.

(** The program test-epoch.c. On a working system [main] sets up a server
    and two clients, and however the two threads and Mero's answers interleave:
    a run has at most 48 steps; in every state each unfinished client can take
    its next step, unless a message does not fit, which ends the process with
    code 1; when both are done the largest epoch in use is 16; and then [main]
    joins the threads, closes everything and returns 0. The two thread objects
    and the interface are all that is left in Mero, and at most messages that
    were not answered in memory. *)
Theorem test_epoch_runs R w :
  m0init_hi (glob w) = Null -> rpc_stat (glob w) = replicate RPC_STAT_NR zero_statistic ->
  wp test_epoch_setup (fun r w1 => exists e wb Rb l, r = Ok (Some e) /\ represents wb Rb l w1 /\
    own l = [RThread (thread_var 1); RThread (thread_var 0)] /\
    pool_runs w R wb Rb 48 true (clients e) e l w1 /\
    forall p, star (pstep wb Rb) (Pool (clients e) l w1) p -> Forall (eq Done) (threads p) ->
      client_max_epoch (glob (pw p)) = 16) w.
Proof using REL.
  intros Hhi Hst. unfold test_epoch_setup. apply wp_bind. apply (wp_start_mero R); [done|done|].
  intros wb Rb Hwb Hleaves.
  eapply wp_mono; [apply (fun H => H : awp wb Rb _ (fun r l => exists a b, r = Some (addr a) /\ a <> b /\
    up l = true /\ objs l = <[a := Endpoint b]> (<[b := Reqh a]> ∅) /\ conn_times l = [] /\ max_epoch l = 0 /\
    own l = [RThread (thread_var 1); RThread (thread_var 0)]) (fun _ => False) (fresh_lib w)); [|exact Hwb]|].
  - apply awp_bind. apply awp_init_ok; [done|]. simpl. apply awp_bind. apply awp_listen_ok; [done..|].
    intros a b Ha Hb Hne. apply awp_bind.
    eapply awp_mono; [apply (thread_inits_awp wb Rb 2 (fun _ => mret tt)); intros l Q HQ; by apply awp_ret|].
    intros [] l ->. apply awp_ret. exists a, b. by repeat split.
  - intros [v| | |] w1 H; [|by specialize (H _ eq_refl)..].
    destruct H as (l & (a & b & -> & Hab & Hup & Ho & Hct & Hme & Hown) & Hr).
    exists (addr a), wb, Rb, l. split; [done|]. split; [done|]. split; [done|]. split.
    + apply (pool_main any_op true w R wb Rb a b [12; 12]%nat); try done.
      * constructor; [|constructor; [|done]]; apply epoch_client_starts.
      * constructor; [|constructor; [|done]]; by apply (epoch_client_bounded _ _ _ 4).
      * by rewrite Hct.
    + intros p Hs Hd. apply (top_epoch wb Rb 16 (clients (addr a)) l w1 p); try done; [..|by rewrite Hme].
      * constructor; [|constructor; [|done]]; by apply epoch_client_below.
      * right. left. by apply epoch_client_sends.
Qed.

End TestEpoch.

Lemma test_epoch_runs_witness :
  wp test_epoch_setup (fun r w1 => exists e wb Rb l, r = Ok (Some e) /\ represents wb Rb l w1 /\
    own l = [RThread (thread_var 1); RThread (thread_var 0)] /\
    pool_runs (start all_ok) [] wb Rb 48 true (clients e) e l w1 /\
    forall p, star (pstep wb Rb) (Pool (clients e) l w1) p -> Forall (eq Done) (threads p) ->
      client_max_epoch (glob (pw p)) = 16) (start all_ok).
Proof. by apply (test_epoch_runs [] (start all_ok)). Defined.

End EpochTest.
