(* ===== verification/Test4.v ===== *)
(** test4.c: ten threads that share an endpoint; each connects, sends one message
    of exactly the largest size the session carries, and disconnects. *)

From stdpp Require Import relations.
From S2P Require Import Prelude CTypes Machine Stats Resources RpcInit Endpoint Connection.
From S2P Require Import Payload Send InFlight Epoch M0Init Library LibraryImpl Clients Programs Threads.
Local Open Scope Z_scope.

Module Test4.
Import Stats RpcInit Endpoint Connection Payload Send Epoch M0Init Library LibraryImpl Clients.
Import Programs Threads.

Definition NUM_THREADS : nat := 10.

(** [int sz = m0_rpc_session_get_max_item_size (..) - 128 - 4], from 64 bits *)
Definition message_size (max : Z) : Z := s32 (u64 (max - 128 - 4)).

(** The only segment; the buffer is zeroed, or [NULL] when there is no memory. *)
Definition whole_buffer (sz : Z) (ok : bool) : list iovec :=
  [{| iov_base := if ok then replicate (Z.to_nat (u64 sz)) 0 else []; iov_len := u64 sz |}].

(** The buffer is known by its contents only, so [m0_free (buf)] at the end does
    not appear; nor does [sleep]. *)
Definition threadMain (e : ptr) : client :=
  Use (Connect e "0@lo:12345:34:10" 5 var_c) (fun r =>
  if r.1 =? 0 then
    let c := r.2 in
    Use (Call (m0_rpc_session_get_max_item_size (rpc_get_session c))) (fun max : Z =>
    let sz := message_size max in
    Use (Call (alloc (A_buffer (u64 sz)))) (fun ok : bool =>
    Use (SendAsync c (whole_buffer sz ok) reply_rcv ctx5 3) (fun _ =>
    Use (Disconnect c 2) (fun _ => Done))))
  else Done).

Section Test4.
Context {E : Env}.

(** [main] up to the creation of the threads, which must succeed; [None] is the
    early [return 0]. It ends with [threads_finish NUM_THREADS]. *)
Definition test4_setup : M (option ptr) :=
  m0_init_wrapper ;;
  rpc_init ;;
  r ← rpc_listen "0@lo:12345:34:10" (Some rcv_only) var_e;
  k ← rpc_connect r.2 "0@lo:12345:34:10" 5 var_c;
  if k.1 =? 0 then
    do! (m0_rpc_session_get_max_item_size (rpc_get_session k.2)) ;;
    rpc_disconnect k.2 2 ;;
    thread_inits NUM_THREADS (fun rc => M0_ASSERT (rc =? 0)) ;;
    mret (Some r.2)
  else mret None.

Context {REL : Reliable} (limit : Z).
Hypothesis Hlimit : 128 + 4 <= limit <= INT_MAX.
Hypothesis Hsession : forall sess max, answers (m0_rpc_session_get_max_item_size sess) max -> max = limit.
Hypothesis Hencoding : payload_encoding.

Lemma message_size_eq : message_size limit = limit - 132.
Proof using Hlimit.
  unfold message_size. unfold INT_MAX in *. rewrite u64_small by lia. rewrite s32_small; [lia|].
  unfold INT_MIN, INT_MAX. lia.
Qed.

Lemma whole_buffer_ok : Forall seg_ok (whole_buffer (message_size limit) true) /\
  total (whole_buffer (message_size limit) true) = limit - 132.
Proof using Hlimit.
  rewrite message_size_eq. unfold whole_buffer, total, sumZ. unfold INT_MAX in *. cbn [fmap list_fmap foldr].
  rewrite u64_small by lia. split; [|simpl; lia]. constructor; [|done].
  unfold seg_ok. cbn [iov_len iov_base]. rewrite length_replicate. lia.
Qed.

(** The message exactly fits. *)
Lemma whole_buffer_fits c : ~ oversized c (whole_buffer (message_size limit) true).
Proof using Hlimit Hsession Hencoding.
  destruct whole_buffer_ok as [_ Htot]. unfold INT_MAX in *.
  intros (item & f & size & max & Hf & Hs & Hm & Hlt).
  rewrite (Hencoding _ _ _ _ Hf ltac:(simpl; lia) Hs), (Hsession _ _ Hm) in Hlt. simpl in Hlt.
  rewrite Htot, u64_small in Hlt; unfold ITEM_SIZE_CUSHION in *; lia.
Qed.

(** What the threads do with their connections. *)
Definition fitting (o : op) : Prop :=
  match o with
  | SendAsync c segs _ _ _ => ~ oversized c segs
  | Call _ => True
  | _ => False
  end.

Lemma threadMain_starts e : starts fitting e (threadMain e).
Proof using REL Hlimit Hsession Hencoding.
  repeat split; try done. intros c. simpl.
  right. split; [by repeat split|]. split; [done|]. intros max l l' [Hmax _]. apply Hsession in Hmax as ->.
  right. split; [by repeat split|]. split; [done|]. intros ok l1 l1' [Hok _]. apply rel_alloc in Hok as ->.
  destruct whole_buffer_ok as [Hseg Htot]. right. split; [|split; [by apply whole_buffer_fits|]].
  - split; [done|]. split; [done|]. lia.
  - intros _ _ _ _. by left.
Qed.

Lemma threadMain_bounded e : bounded 5 (threadMain e).
Proof. intros r. simpl. by destruct (r.1 =? 0). Qed.

(** The program test4.c. On a working system whose sessions carry items of
    at least 132 bytes, [main] sets up the server and its ten threads, and
    however the threads and Mero's answers interleave: a run has at most 100
    steps; in every state each unfinished thread can take its next step, none
    aborts or ends the process, since the message of the largest size exactly
    fits; and when all are done [main] joins them, closes everything and returns
    0. The ten thread objects and the interface are all that is left in Mero,
    and at most messages that were not answered in memory. *)
Theorem test4_runs R w :
  m0init_hi (glob w) = Null -> rpc_stat (glob w) = replicate RPC_STAT_NR zero_statistic ->
  wp test4_setup (fun r w1 => exists e wb Rb l, r = Ok (Some e) /\ represents wb Rb l w1 /\
    own l = reverse ((fun i => RThread (thread_var i)) <$> seq 0 10) /\
    pool_runs w R wb Rb 100 false (replicate NUM_THREADS (threadMain e)) e l w1) w.
Proof using REL Hlimit Hsession Hencoding.
  intros Hhi Hst. unfold test4_setup. apply wp_bind. apply (wp_start_mero R); [done|done|].
  intros wb Rb Hwb Hleaves.
  eapply wp_mono; [apply (fun H => H : awp wb Rb _ (fun r l => exists a b, r = Some (addr a) /\ a <> b /\
    up l = true /\ objs l = <[a := Endpoint b]> (<[b := Reqh a]> ∅) /\ length (conn_times l) = 1%nat /\
    own l = reverse ((fun i => RThread (thread_var i)) <$> seq 0 10)) (fun _ => False) (fresh_lib w)); [|exact Hwb]|].
  - apply awp_bind. apply awp_init_ok; [done|]. apply awp_bind. apply awp_listen_ok; [done..|].
    intros a b Ha Hb Hne. simpl. apply awp_bind.
    eapply (awp_connect_ok _ _ _ a b); [done|simpl; by simpl_map|done..|]. intros c t Hc Ht. simpl.
    apply awp_bind. apply (awp_call _ _ (m0_rpc_session_get_max_item_size _)); [done|]. intros max _. simpl.
    apply awp_bind. apply awp_disconnect; [done|simpl; by simpl_map|]. intros rc. apply awp_bind.
    eapply awp_mono; [apply (thread_inits_awp wb Rb NUM_THREADS (fun rc => M0_ASSERT (rc =? 0)));
      intros l Q HQ; by apply awp_assert|].
    intros [] l ->. apply awp_ret. exists a, b. cbn in Hc. split; [done|]. split; [done|]. split; [done|].
    split; [|done]. simpl. by rewrite delete_insert_id.
  - intros [v| | |] w1 H; [|by specialize (H _ eq_refl)..].
    destruct H as (l & (a & b & -> & Hab & Hup & Ho & Hct & Hown) & Hr).
    exists (addr a), wb, Rb, l. split; [done|]. split; [done|]. split; [done|].
    apply (pool_main fitting false w R wb Rb a b (replicate 10 5%nat)); try done.
    + apply Forall_replicate, threadMain_starts.
    + apply Forall2_replicate, threadMain_bounded.
    + rewrite Hct, length_replicate. done.
    + intros l' o Ho' Hx. destruct o; try done. by destruct Ho', Hx as [_ Hx].
Qed.

End Test4.

(** Items of up to 64 Kb: the messages have 65404 bytes. *)
Lemma test4_runs_witness :
  wp test4_setup (fun r w1 => exists e wb Rb l, r = Ok (Some e) /\ represents wb Rb l w1 /\
    own l = reverse ((fun i => RThread (thread_var i)) <$> seq 0 10) /\
    pool_runs (start all_ok) [] wb Rb 100 false (replicate NUM_THREADS (threadMain e)) e l w1)
    (start all_ok).
Proof.
  apply (test4_runs 65536); try done.
  - by intros sess max [s <-].
  - intros item f d size Hd Hc [s <-]. unfold norm. simpl. rewrite Hd. apply u64_small. lia.
Defined.

End Test4.
