(* ===== verification/BusyWait.v ===== *)
(** test.c: a client that sends messages one after the other and waits for each
    answer in a busy loop on a variable that the reply callback sets. The loop is
    a state machine whose steps are the program's and Mero's. *)

From stdpp Require Import relations.
From S2P Require Import Prelude CTypes Machine Stats Resources RpcInit Endpoint Connection.
From S2P Require Import Payload Send InFlight Epoch M0Init Library LibraryImpl Clients Programs.
Local Open Scope Z_scope.

Module BusyWait.
Import Stats RpcInit Endpoint Connection Payload Send Epoch M0Init Library LibraryImpl Clients Programs.

(** [segments]: the first length leaves out the terminating zero. *)
Definition test_segments : list iovec :=
  [{| iov_base := c_string "segment 1"; iov_len := 9 |};
   {| iov_base := c_string "segment 2"; iov_len := 10 |}].

Lemma test_segments_ok : Forall seg_ok test_segments.
Proof. by repeat constructor. Qed.

(** * The loop *)

(** Where the program is: at the test [i < N], between [received = false] and
    [rpc_send], in [while (!received);], or past the loop. *)
Inductive phase := Testing (i : nat) | Sending (i : nat) | Spinning (i : nat) | Leaving.

Section Loop.
Context {E : Env} {RL : RpcLite} (w0 : world) (R0 : list resource).
Context (N : nat) (c : ptr).

Record tsys := TSys { pc : phase; received : bool; tl : lib; tw : world }.

(** [rc = rpc_send (c2, segments, 2, reply_rcv, (void* ) 5, 2)] *)
Definition send_one : op := SendAsync c test_segments reply_rcv ctx5 2.

(** The reset of [received] is a step of its own: Mero may answer between any two
    instructions. Each turn of the busy loop reads [received] anew. *)
Inductive tstep : tsys -> tsys -> Prop :=
| t_reset i b l w : (i < N)%nat -> tstep (TSys (Testing i) b l w) (TSys (Sending i) false l w)
| t_send i b l w rc l' w' :
    exec send_one w = (Ok rc, w') -> outcome l send_one rc l' -> represents w0 R0 l' w' ->
    tstep (TSys (Sending i) b l w) (TSys (if rc =? 0 then Spinning i else Leaving) b l' w')
| t_limit b l w : tstep (TSys (Testing N) b l w) (TSys Leaving b l w)
| t_spin i l w : tstep (TSys (Spinning i) false l w) (TSys (Spinning i) false l w)
| t_leave i l w : tstep (TSys (Spinning i) true l w) (TSys (Testing (S i)) true l w)
| t_reply p b l w m k e rep l' w' :
    objs l !! m = Some (Message k) -> e <> INT_MIN ->
    exec (Reply m e rep) w = (Ok tt, w') -> outcome l (Reply m e rep) tt l' -> represents w0 R0 l' w' ->
    tstep (TSys p b l w) (TSys p (b || (k.1.1 =? reply_rcv)) l' w').

(** Every step but a turn of the busy loop. *)
Definition progress (s s' : tsys) : Prop := tstep s s' /\ s' <> s.

(** ** Invariant *)

Context (l0 : lib) (a0 : positive).
Hypothesis Hc : c = addr a0.
Hypothesis Hup : up l0 = true.
Hypothesis Hconn : objs l0 !! a0 = Some Connection.
Hypothesis Hquiet : map_Forall (fun _ r => match r with Message _ => False | _ => True end) (objs l0).

Definition my_key : key := (reply_rcv, c, ctx5).

(** [n] messages posted, [d] of them answered, and [x] on top of the objects at
    the start. *)
Definition shape (n d : nat) (x : option role) (l : lib) : Prop :=
  up l = up l0 /\ own l = own l0 /\
  sent l = sent l0 ++ replicate n (payload test_segments) /\
  (exists sts, length sts = d /\ answered l = answered l0 ++ ((fun st => (my_key, st)) <$> sts)) /\
  (length (send_times l) <= length (send_times l0) + d)%nat /\
  match x with
  | None => objs l = objs l0
  | Some r => exists m, objs l0 !! m = None /\ objs l = <[m := r]> (objs l0)
  end.

Definition tinv (s : tsys) : Prop :=
  represents w0 R0 (tl s) (tw s) /\
  match pc s with
  | Testing i => (i <= N)%nat /\ shape i i None (tl s)
  | Sending i => (i < N)%nat /\ received s = false /\ shape i i None (tl s)
  | Spinning i => (i < N)%nat /\
      if received s then shape (S i) (S i) None (tl s) else shape (S i) i (Some (Message my_key)) (tl s)
  | Leaving => exists i, (i <= N)%nat /\
      (shape i i None (tl s) \/ shape (S i) i (Some Leaked) (tl s))
  end.

Lemma no_messages n d x l m k :
  shape n d x l -> (forall k, x <> Some (Message k)) -> objs l !! m <> Some (Message k).
Proof using Hquiet.
  intros (_ & _ & _ & _ & _ & Ho) Hx Hm. destruct x as [r|].
  - destruct Ho as (m' & _ & Ho). rewrite Ho in Hm. apply lookup_insert_Some in Hm as [[_ ->]|[_ Hm]];
      [by destruct (Hx k)|by apply Hquiet in Hm].
  - rewrite Ho in Hm. by apply Hquiet in Hm.
Qed.

(** The answer to the message in flight. *)
Lemma shape_reply n d l m k e rep l' :
  shape n d (Some (Message my_key)) l -> objs l !! m = Some (Message k) ->
  outcome l (Reply m e rep) tt l' -> k = my_key /\ shape n (S d) None l'.
Proof using Hquiet.
  intros (Hu & Hw & Hs & (sts & Hlen & Ha) & Ht & m' & Hm' & Ho) Hm (k' & Hk' & Hout).
  rewrite Hm in Hk'. injection Hk' as <-. rewrite Ho in Hm.
  apply lookup_insert_Some in Hm as [[<- [= <-]]|[_ Hm]]; [|by apply Hquiet in Hm]. split; [done|].
  destruct (e =? 0).
  - destruct Hout as (t & _ & ->). split; [done|]. split; [done|]. split; [done|]. split; [|split].
    + exists (sts ++ [RPC_OK]). rewrite length_app, fmap_app. simpl. rewrite Ha, Hlen, (assoc_L (++)). split; [lia|done].
    + simpl. rewrite length_app. simpl. lia.
    + simpl. rewrite Ho. by apply delete_insert_id.
  - subst. split; [done|]. split; [done|]. split; [done|]. split; [|split].
    + exists (sts ++ [status_of e]). rewrite length_app, fmap_app. simpl. rewrite Ha, (assoc_L (++)). split; [lia|done].
    + simpl. lia.
    + simpl. rewrite Ho. by apply delete_insert_id.
Qed.

(** A send from a state with nothing in flight. *)
Lemma shape_send i l rc l' :
  shape i i None l -> outcome l send_one rc l' ->
  if rc =? 0 then shape (S i) i (Some (Message my_key)) l'
  else shape i i None l' \/ shape (S i) i (Some Leaked) l'.
Proof.
  intros Hs [[Hrc ->]|(m & Hm & ->)].
  - by rewrite (proj2 (Z.eqb_neq rc 0) Hrc); left.
  - destruct Hs as (Hu & Hw & Hsent & Ha & Ht & Ho).
    assert (H : forall r, shape (S i) i (Some r) (post (payload test_segments) (add m r l))).
    { intros r. split; [done|]. split; [done|]. split; [|split; [done|split; [done|]]].
      - simpl. rewrite Hsent, <- (assoc_L (++)). f_equal. by rewrite <- replicate_cons_app.
      - exists m. simpl. by rewrite <- Ho. }
    destruct (rc =? 0); [|right]; apply H.
Qed.

Lemma loop_inv_step s s' : tinv s -> tstep s s' -> tinv s'.
Proof using Hquiet.
  intros [Hr Hs] Hstep.
  destruct Hstep as [i b l w Hi|i b l w rc l' w' Hex Hout Hr'|b l w|i l w|i l w|p b l w m k e rep l' w' Hm He Hex Hout Hr'];
    simpl in *.
  - split; [done|]. split; [done|]. split; [done|]. apply Hs.
  - split; [done|]. destruct Hs as (Hi & -> & Hs). pose proof (shape_send _ _ _ _ Hs Hout) as H. simpl.
    destruct (rc =? 0); [by split|]. exists i. split; [lia|done].
  - split; [done|]. exists N. split; [lia|]. left. apply Hs.
  - by split.
  - split; [done|]. destruct Hs as [Hi Hs]. split; [lia|done].
  - split; [done|]. destruct p as [i|i|i|]; simpl.
    + destruct Hs as [_ Hs]. by destruct (no_messages _ _ _ _ m k Hs).
    + destruct Hs as (_ & _ & Hs). by destruct (no_messages _ _ _ _ m k Hs).
    + destruct Hs as [Hi Hs]. destruct b; [by destruct (no_messages _ _ _ _ m k Hs)|].
      destruct (shape_reply _ _ _ _ _ e rep _ Hs Hm Hout) as [-> Hs']. done.
    + destruct Hs as (i & _ & [Hs|Hs]); by destruct (no_messages _ _ _ _ m k Hs).
Qed.

Lemma reachable_tinv w s :
  represents w0 R0 l0 w -> star tstep (TSys (Testing 0) false l0 w) s -> tinv s.
Proof using Hquiet.
  intros Hr Hs. eapply (star_invariant tstep tinv); [done| |by intros; eapply loop_inv_step].
  split; [done|]. split; [lia|]. repeat split; try done.
  - by rewrite app_nil_r.
  - exists []. by rewrite app_nil_r.
  - simpl. lia.
Qed.

(** ** Termination *)

Definition remaining (s : tsys) : nat :=
  match pc s with
  | Testing i => 4 * (N - i) + 4
  | Sending i => 4 * (N - i) + 3
  | Spinning i => 4 * (N - i) + if received s then 1 else 2
  | Leaving => 0
  end.

Lemma remaining_decreases s s' : tinv s -> tstep s s' -> s' = s \/ (remaining s' < remaining s)%nat.
Proof using Hquiet.
  intros [Hr Hs] Hstep.
  destruct Hstep as [i b l w Hi|i b l w rc l' w' Hex Hout Hr'|b l w|i l w|i l w|p b l w m k e rep l' w' Hm He Hex Hout Hr'];
    unfold remaining; simpl in *.
  - right. lia.
  - right. destruct Hs as (Hi & -> & _). destruct (rc =? 0); lia.
  - right. lia.
  - by left.
  - right. destruct Hs as [Hi _]. lia.
  - destruct p as [i|i|i|]; simpl.
    + destruct Hs as [_ Hs]. by destruct (no_messages _ _ _ _ m k Hs).
    + destruct Hs as (_ & _ & Hs). by destruct (no_messages _ _ _ _ m k Hs).
    + destruct Hs as [Hi Hs]. destruct b; [by destruct (no_messages _ _ _ _ m k Hs)|].
      destruct (shape_reply _ _ _ _ _ e rep _ Hs Hm Hout) as [-> _]. right. simpl. lia.
    + destruct Hs as (i & _ & [Hs|Hs]); by destruct (no_messages _ _ _ _ m k Hs).
Qed.

Lemma progress_bound n s s' : tinv s -> nsteps progress n s s' -> (n <= remaining s)%nat.
Proof using Hquiet.
  intros I Hn. revert I. induction Hn as [s|n s s1 s' [Hst Hne] _ IH]; intros I; [lia|].
  specialize (IH (loop_inv_step _ _ I Hst)). destruct (remaining_decreases _ _ I Hst); [done|lia].
Qed.

Hypothesis Hroom : Z.of_nat (length (send_times l0) + N) < 2 ^ 32 - 1.

(** The busy loop ends as soon as Mero answers. *)
Lemma spinning_can_end s i :
  tinv s -> pc s = Spinning i -> received s = false ->
  exists m, objs (tl s) !! m = Some (Message my_key) /\ forall e rep, e <> INT_MIN ->
    wp (exec (Reply m e rep)) (fun r w' => r = Ok tt /\ exists l', tstep s (TSys (Spinning i) true l' w')) (tw s).
Proof using Hquiet Hroom.
  destruct s as [p b l w]. intros [Hr Hs] Hp Hb. simpl in *. subst p b. destruct Hs as [Hi Hs].
  pose proof Hs as (_ & _ & _ & _ & Ht & m & Hm & Ho).
  assert (Hm' : objs l !! m = Some (Message my_key)) by (rewrite Ho; apply lookup_insert_eq).
  exists m. split; [done|]. intros e rep He.
  assert (Hl : legal l (Reply m e rep)) by (split; [by exists my_key|done]).
  pose proof (represents_op w0 R0 l w (Reply m e rep) Hr Hl) as H.
  unfold wp in H |- *.
  change (rpclite_replied (InFlight.item_of m) (InFlight.mark m e rep w)) with (exec (Reply m e rep) w).
  destruct (exec (Reply m e rep) w) as [r w'] eqn:Hex.
  destruct r as [v| | |]; try done.
  - destruct v, H as (l' & Hout & Hr'). split; [done|]. exists l'.
    exact (t_reply (Spinning i) false l w m my_key e rep l' w' Hm' He Hex Hout Hr').
  - destruct H as [_ H]. lia.
Qed.

(** The next send can run, unless the message does not fit. *)
Lemma sending_can_go s i {REL : Reliable} :
  tinv s -> pc s = Sending i ->
  wp (exec send_one) (fun r w' => (exists rc l', r = Ok rc /\
      tstep s (TSys (if rc =? 0 then Spinning i else Leaving) false l' w')) \/
    (r = Exited 1 /\ oversized c test_segments)) (tw s).
Proof using Hc Hup Hconn.
  destruct s as [p b l w]. intros [Hr Hs] Hp. cbn [pc tl tw received] in *. subst p.
  destruct Hs as (Hi & -> & Hu & _ & _ & _ & _ & Ho).
  assert (Hl : legal l send_one).
  { split; [|split; [apply test_segments_ok|done]]. split; [congruence|]. exists a0. by rewrite Ho. }
  pose proof (represents_op w0 R0 l w send_one Hr Hl) as H. unfold wp in H |- *.
  destruct (exec send_one w) as [r w'] eqn:Hex. destruct r as [rc| |code|]; [left| |right|done].
  - destruct H as (l' & Hout & Hr'). exists rc, l'. split; [done|].
    exact (t_send i false l w rc l' w' Hex Hout Hr').
  - by destruct H as [H|H]; apply has_memory in H.
  - by destruct H as [-> H].
Qed.

(** From [s] the loop goes on: a test is followed by a reset or by the end; a send
    returns unless the message does not fit, and finds [received] reset; a message
    being waited for is in flight, its answer, with any error, sets [received],
    and no other step changes the state. *)
Definition goes_on (s : tsys) : Prop :=
  match pc s with
  | Testing i => exists s', tstep s s' /\ s' <> s
  | Sending i =>
      wp (exec send_one) (fun r w' => (exists rc l', r = Ok rc /\
          tstep s (TSys (if rc =? 0 then Spinning i else Leaving) false l' w')) \/
        (r = Exited 1 /\ oversized c test_segments)) (tw s)
  | Spinning i => received s = false ->
      (exists m, objs (tl s) !! m = Some (Message my_key) /\ forall e rep, e <> INT_MIN ->
         wp (exec (Reply m e rep)) (fun r w' => r = Ok tt /\
           exists l', tstep s (TSys (Spinning i) true l' w')) (tw s)) /\
      (forall s', tstep s s' -> s' = s \/ (pc s' = Spinning i /\ received s' = true))
  | Leaving => True
  end.

Lemma busy_loop {REL : Reliable} w :
  represents w0 R0 l0 w ->
  let init := TSys (Testing 0) false l0 w in
  (forall n s, nsteps progress n init s -> (n <= 4 * N + 4)%nat) /\
  (forall s, star tstep init s -> goes_on s).
Proof using All.
  intros Hr init. split.
  - intros n s Hn. assert (I : tinv init) by (apply (reachable_tinv w); [done|apply star_refl]).
    pose proof (progress_bound _ _ _ I Hn) as H. unfold remaining in H. simpl in H. lia.
  - intros s Hs. pose proof (reachable_tinv w s Hr Hs) as I. unfold goes_on. destruct (pc s) as [i|i|i|] eqn:Hp; [| | |done].
    + destruct s as [p b l w1]. destruct I as [_ I]. simpl in *. subst p. destruct I as [Hi _].
      destruct (decide (i = N)) as [->|Hne].
      * exists (TSys Leaving b l w1). split; [constructor|done].
      * exists (TSys (Sending i) false l w1). split; [constructor; lia|done].
    + by apply sending_can_go.
    + intros Hb. split; [by apply spinning_can_end|]. intros s' Hst. destruct I as [_ I]. rewrite Hp, Hb in I.
      destruct I as [Hi Hsh]. destruct Hst; simpl in *; simplify_eq; [by left|right].
      split; [done|]. match goal with H : objs l !! m = Some (Message k) |- _ =>
        destruct (shape_reply _ _ _ _ _ e rep l' Hsh H) as [-> _]; done end.
Qed.
End Loop.

(** C31. The busy loop of test.c, on a working system and if each of its turns reads
    [received] anew (the variable is a plain bool, so the compiler need not do
    that). Started with a connection, nothing in flight and room in the statistics,
    in every state it reaches: while the program spins, its message is in flight,
    Mero can answer it with any error, and the answer sets [received]; every other
    step leaves the state as it is, so no answer is lost, also when it comes before
    the program starts to wait; and a send returns unless the message does not fit.
    Apart from turns of the busy loop, a run has at most [4 N + 4] steps. So the
    loop terminates exactly when Mero answers every message it accepts. *)
Theorem busy_wait_terminates {E : Env} {MK : MeroKeeps} {REL : Reliable} w0 R0 (N : nat) (l0 : lib) (a0 : positive) w :
  up l0 = true -> objs l0 !! a0 = Some Connection ->
  map_Forall (fun _ r => match r with Message _ => False | _ => True end) (objs l0) ->
  Z.of_nat (length (send_times l0) + N) < 2 ^ 32 - 1 ->
  represents w0 R0 l0 w ->
  let init := TSys (Testing 0) false l0 w in
  (forall n s, nsteps (progress w0 R0 N (addr a0)) n init s -> (n <= 4 * N + 4)%nat) /\
  (forall s, star (tstep w0 R0 N (addr a0)) init s -> goes_on w0 R0 N (addr a0) s).
Proof. intros Hup Hconn Hquiet Hroom Hr. by apply (busy_loop w0 R0 N (addr a0) l0 a0). Qed.

(** * The program *)

Definition var_c2 : ptr := Ptr (Foreign 104) [].
Definition NUM_LOOPS : nat := Z.to_nat 100000.

Section Program.
Context {E : Env}.

(** [main] up to the loop, and after it. *)
Definition test_connect : M (ptr * ptr * ptr) :=
  rpc_init ;;
  r ← rpc_listen "0@lo:12345:34:10" (Some rcv_only) var_e;
  k ← rpc_connect r.2 "0@lo:12345:34:10" 3 var_c;
  k2 ← rpc_connect r.2 "0@lo:12345:34:10" 3 var_c2;
  rpc_send_blocking k.2 test_segments 2 1 ;;
  mret (r.2, k.2, k2.2).

Definition test_setup : M (ptr * ptr * ptr) := m0_init_wrapper ;; test_connect.

Definition test_finish (e c c2 : ptr) : M Z :=
  rpc_disconnect c 2 ;;
  rpc_disconnect c2 2 ;;
  rpc_destroy_endpoint e ;;
  rpc_fini ;;
  mret 0.

Context {REL : Reliable}.

Definition base (a b k k2 : positive) : gmap positive role :=
  <[k2 := Connection]> (<[k := Connection]> (<[a := Endpoint b]> (<[b := Reqh a]> ∅))).

Definition distinct (a b k k2 : positive) : Prop :=
  (a <> b /\ a <> k /\ a <> k2) /\ (b <> k /\ b <> k2) /\ k <> k2.

(** The state before the loop. *)
Definition ready (a b k k2 : positive) (l : lib) : Prop :=
  distinct a b k k2 /\ up l = true /\ own l = [] /\ objs l = base a b k k2 /\
  send_times l = [] /\ sent l = [payload test_segments] /\ answered l = [].

Lemma test_connect_awp {RL : RpcLite} wb Rb w (X : crash -> Prop) :
  X (CExited 1) ->
  awp wb Rb test_connect (fun r l => exists a b k k2,
    r = (addr a, addr k, addr k2) /\ ready a b k k2 l) X (fresh_lib w).
Proof using REL.
  intros HX. unfold test_connect. apply awp_bind. apply awp_init_ok; [done|]. apply awp_bind.
  apply awp_listen_ok; [done..|]. intros a b Ha Hb Hne. simpl. apply awp_bind.
  eapply (awp_connect_ok _ _ _ a b); [done|simpl; by simpl_map|done..|]. intros k t Hk Ht.
  cbn in Hk. apply lookup_insert_None in Hk as [[_ Hbk]%lookup_insert_None Hak]. apply awp_bind.
  eapply (awp_connect_ok _ _ _ a b); [done|simpl; by simpl_map|done..|]. intros k2 t2 Hk2 Ht2.
  cbn in Hk2. apply lookup_insert_None in Hk2 as [[[_ Hbk2]%lookup_insert_None Hak2]%lookup_insert_None Hkk2].
  apply awp_bind. apply (awp_send_blocking_ok _ _ _ k test_segments);
    [done|simpl; by simpl_map|apply test_segments_ok|done|done|]. intros rc. apply awp_ret.
  exists a, b, k, k2. split; [done|]. split; [|done].
  by repeat split; auto.
Qed.

Lemma wp_test_connect {RL : RpcLite} wb Rb w w1 (Q : res (ptr * ptr * ptr) -> world -> Prop) :
  represents wb Rb (fresh_lib w) w1 ->
  (forall w', Q (Exited 1) w') ->
  (forall a b k k2 l w', ready a b k k2 l -> represents wb Rb l w' -> Q (Ok (addr a, addr k, addr k2)) w') ->
  wp test_connect Q w1.
Proof using REL.
  intros Hr HX HQ. eapply wp_mono; [apply (test_connect_awp wb Rb w (fun x => x = CExited 1)); done|].
  intros [v| |code|] w' Hv; [|by specialize (Hv _ eq_refl)|specialize (Hv _ eq_refl) as [= ->]; apply HX|
    by specialize (Hv _ eq_refl)].
  destruct Hv as (l & (a & b & k & k2 & -> & Hrdy) & Hr'). by eapply HQ.
Qed.

Lemma base_quiet a b k k2 :
  map_Forall (fun _ r => match r with Message _ => False | _ => True end) (base a b k k2).
Proof. unfold base. repeat (apply map_Forall_insert_2; [done|]). apply map_Forall_empty. Qed.

(** Closing, with or without a refused message. *)
Lemma test_finish_awp {RL : RpcLite} wb Rb a b k k2 l (o : gmap positive role) Q X :
  distinct a b k k2 -> up l = true -> objs l = base a b k k2 ∪ o -> base a b k k2 ##ₘ o ->
  (forall l', up l' = false -> objs l' = o -> own l' = own l -> sent l' = sent l ->
     answered l' = answered l -> Q 0 l') ->
  awp wb Rb (test_finish (addr a) (addr k) (addr k2)) Q X l.
Proof.
  intros Hnd Hup Ho Hdis HQ. unfold test_finish.
  destruct Hnd as ((? & ? & ?) & (? & ?) & ?).
  assert (Hl : forall x r, base a b k k2 !! x = Some r -> objs l !! x = Some r).
  { intros x r Hx. rewrite Ho. by apply lookup_union_Some_l. }
  assert (Hn : forall x, is_Some (base a b k k2 !! x) -> o !! x = None).
  { intros x [r Hx]. by eapply map_disjoint_Some_l. }
  apply awp_bind. apply awp_disconnect; [done|apply Hl; unfold base; by simpl_map|]. intros _.
  apply awp_bind. apply awp_disconnect; [done| |].
  { simpl. rewrite lookup_delete_ne by done. apply Hl. unfold base. by simpl_map. } intros _.
  apply awp_bind. eapply (awp_destroy _ _ _ a b); [done| |].
  { simpl. rewrite !lookup_delete_ne by done. apply Hl. unfold base. by simpl_map. }
  apply awp_bind, awp_fini, awp_ret; [done|]. apply HQ; try done.
  simpl. apply map_eq. intros x. rewrite !lookup_delete. rewrite Ho.
  repeat case_decide; subst; try (symmetry; apply Hn; unfold base; simpl_map; by eexists).
  rewrite lookup_union_r; [done|]. unfold base. rewrite !lookup_insert_ne by done. apply lookup_empty.
Qed.

(** What closing leaves: all but a message that Mero refused. *)
Definition test_left (w : world) (R : list resource) (w' : world) : Prop :=
  exists l i, leaves w R l w' /\ up l = false /\ own l = [] /\ (i <= NUM_LOOPS)%nat /\
    length (answered l) = i /\
    ((objs l = ∅ /\ sent l = replicate (S i) (payload test_segments)) \/
     exists m, objs l = {[m := Leaked]} /\ sent l = replicate (S (S i)) (payload test_segments)).

Lemma test_close {RL : RpcLite} wb Rb a b k k2 l s w R :
  ready a b k k2 l -> tinv wb Rb NUM_LOOPS (addr k2) l s -> pc s = Leaving ->
  (forall l' w', represents wb Rb l' w' -> leaves w R l' w') ->
  wp (test_finish (addr a) (addr k) (addr k2)) (fun r w' => r = Ok 0 /\ test_left w R w') (tw s).
Proof.
  intros (Hnd & Hup & Hown & Hobjs & _ & Hsent & Hans) [Hr Hs] Hpc Hl. rewrite Hpc in Hs.
  destruct Hs as (i & Hi & Hs).
  assert (exists o n, shape (addr k2) l n i o (tl s) /\ ((o = None /\ n = i) \/ (o = Some Leaked /\ n = S i)))
    as (x & n & Hsh & Hx) by (destruct Hs; eauto 10).
  destruct Hsh as (Hu & Hw & Hsnt & (sts & Hlen & Ha) & _ & Ho).
  rewrite Hsent in Hsnt. rewrite Hans in Ha. simpl in Hsnt, Ha.
  assert (Hans' : length (answered (tl s)) = i) by (by rewrite Ha, length_fmap).
  assert (exists o, objs (tl s) = base a b k k2 ∪ o /\ base a b k k2 ##ₘ o /\
    ((o = ∅ /\ n = i) \/ exists m, o = {[m := Leaked]} /\ n = S i)) as (o & Hob & Hdis & Hn).
  { destruct Hx as [[-> ->]|[-> ->]].
    - exists ∅. rewrite (right_id_L ∅ (∪)), <- Hobjs. split; [done|]. split; [apply map_disjoint_empty_r|by left].
    - destruct Ho as (m & Hm & Ho). exists {[m := Leaked]}. rewrite <- Hobjs. split; [|split].
      + rewrite Ho. rewrite map_union_comm by by apply map_disjoint_singleton_r. by rewrite insert_union_singleton_l.
      + by apply map_disjoint_singleton_r.
      + right. eauto. }
  eapply wp_mono.
  { eapply (test_finish_awp wb Rb a b k k2 (tl s) o
      (fun v l' => v = 0 /\ up l' = false /\ objs l' = o /\ own l' = own (tl s) /\ sent l' = sent (tl s) /\
         answered l' = answered (tl s)) (fun _ => False)); [done|congruence|done|done| |exact Hr].
    by intros. }
  intros [v| | |] w' Hv; [|by destruct (Hv _ eq_refl)..].
  destruct Hv as (l' & (-> & Hu' & Ho' & Hw' & Hs' & Ha') & Hr'). split; [done|].
  exists l', i. split; [by apply Hl|]. split; [done|]. split; [congruence|]. split; [done|]. split; [congruence|].
  rewrite Ho', Hs', Hsnt. destruct Hn as [[-> ->]|(m & -> & ->)]; [by left|right; by exists m].
Qed.

(** test.c as a whole. On a working system the program opens an endpoint
    and two connections (or ends with status 1 when its first message does not
    fit the session); from there, whatever Mero answers and when, if the program
    leaves its busy loop it has posted at most 100001 messages, the reply callback
    has run once for each that was accepted in the loop, and closing gives back
    the heap and every Mero object that the program found, but for the interface
    of Mero, never finalised, and the record of a message that Mero refused. *)
Theorem test_runs R w :
  m0init_hi (glob w) = Null -> rpc_stat (glob w) = replicate RPC_STAT_NR zero_statistic ->
  wp test_setup (fun r w1 => match r with
    | Ok (e, c, c2) => exists wb Rb l, represents wb Rb l w1 /\
        forall s, star (tstep wb Rb NUM_LOOPS c2) (TSys (Testing 0) false l w1) s -> pc s = Leaving ->
          wp (test_finish e c c2) (fun r w' => r = Ok 0 /\ test_left w R w') (tw s)
    | r => r = Exited 1
    end) w.
Proof using REL.
  intros Hhi Hst. apply wp_bind. apply (wp_start_mero R); [done|done|]. intros wb Rb Hwb Hl.
  apply (wp_test_connect wb Rb w); [done|done|]. intros a b k k2 l w1 Hrdy Hr. exists wb, Rb, l. split; [done|].
  intros s Hs Hpc. eapply test_close; [done| |done|done].
  eapply reachable_tinv; [|done|done]. destruct Hrdy as (_ & _ & _ & -> & _). apply base_quiet.
Qed.
End Program.

(** ** Witnesses *)

Lemma busy_wait_terminates_witness :
  wp test_connect (fun r w1 => r = Exited 1 \/ exists e c c2 l, r = Ok (e, c, c2) /\
    let init := TSys (Testing 0) false l w1 in
    (forall n s, nsteps (progress (start all_ok) [] NUM_LOOPS c2) n init s -> (n <= 4 * NUM_LOOPS + 4)%nat) /\
    (forall s, star (tstep (start all_ok) [] NUM_LOOPS c2) init s -> goes_on (start all_ok) [] NUM_LOOPS c2 s))
    (start all_ok) /\
  (test_connect (start all_ok)).1 = Ok (addr 1, addr 3, addr 4).
Proof.
  split; [|vm_compute; reflexivity].
  apply (wp_test_connect (start all_ok) [] (start all_ok)); [|by left|].
  { exact (represents_closed (start all_ok) [] [] [] _ _ eq_refl recorded_nothing recorded_nothing). }
  intros a b k k2 l w1 (Hnd & Hup & Hown & Hobjs & Hst & _) Hr. right.
  exists (addr a), (addr k), (addr k2), l. split; [done|].
  apply (busy_wait_terminates (start all_ok) [] NUM_LOOPS l k2); try done.
  - rewrite Hobjs. unfold base. apply lookup_insert_eq.
  - rewrite Hobjs. apply base_quiet.
  - rewrite Hst. vm_compute. reflexivity.
Defined.

Lemma test_runs_witness :
  (test_setup (start all_ok)).1 = Ok (addr 1, addr 3, addr 4) /\
  wp test_setup (fun r w1 => match r with
    | Ok (e, c, c2) => exists wb Rb l, represents wb Rb l w1 /\
        forall s, star (tstep wb Rb NUM_LOOPS c2) (TSys (Testing 0) false l w1) s -> pc s = Leaving ->
          wp (test_finish e c c2) (fun r w' => r = Ok 0 /\ test_left (start all_ok) [] w') (tw s)
    | r => r = Exited 1
    end) (start all_ok).
Proof. split; [vm_compute; reflexivity|]. by apply (test_runs [] (start all_ok)). Defined.

End BusyWait.
