(* ===== verification/Paxos.v ===== *)
(** Basic Paxos, the consensus protocol under Halon's replicated state
    (src/consensus-paxos, in Haskell): ballots and decrees, the acceptor with
    every message it handles, [chooseValue], and the arithmetic of intervals
    with which acceptors synchronise. The protocol as a whole is in PaxosNet.v
    and its safety in PaxosSafety.v.

    [encode] and [decode] of Data.Binary are inverse of each other, so the store
    of an acceptor holds values rather than byte strings; its operations take
    effect in the order in which the acceptor calls them. An [Int] is a [Z];
    [nextBallotId] fails on the largest one, which decree numbers are taken not
    to reach. *)

From stdpp Require Import sorting.
From S2P Require Import Prelude.
Local Open Scope Z_scope.

Module Paxos.

(** * Derived orders

    [deriving Ord] on a record of two integers. *)

Class Lex (A : Type) := {
  key1 : A -> Z;
  key2 : A -> Z;
  key_inj : forall x y, key1 x = key1 y -> key2 x = key2 y -> x = y;
}.

Section Lex.
Context {A : Type} {L : Lex A}.
Implicit Types x y z : A.

Definition lt x y : Prop := key1 x < key1 y \/ (key1 x = key1 y /\ key2 x < key2 y).
Definition le x y : Prop := key1 x < key1 y \/ (key1 x = key1 y /\ key2 x <= key2 y).

#[global] Instance lt_dec x y : Decision (lt x y).
Proof. unfold lt. apply _. Defined.
#[global] Instance le_dec x y : Decision (le x y).
Proof. unfold le. apply _. Defined.

Lemma le_refl x : le x x.
Proof. unfold le. lia. Qed.
Lemma lt_le x y : lt x y -> le x y.
Proof. unfold lt, le. lia. Qed.
Lemma le_trans x y z : le x y -> le y z -> le x z.
Proof. unfold le. lia. Qed.
Lemma lt_le_trans x y z : lt x y -> le y z -> lt x z.
Proof. unfold lt, le. lia. Qed.
Lemma le_lt_trans x y z : le x y -> lt y z -> lt x z.
Proof. unfold lt, le. lia. Qed.
Lemma lt_not_le x y : lt x y <-> ~ le y x.
Proof. unfold lt, le. lia. Qed.
Lemma lt_irrefl x : ~ lt x x.
Proof. unfold lt. lia. Qed.
Lemma le_antisym x y : le x y -> le y x -> x = y.
Proof. unfold le. intros ? ?. apply key_inj; lia. Qed.
Lemma le_lt_or_eq x y : le x y -> lt x y \/ x = y.
Proof.
  intros H. destruct (decide (lt x y)) as [|Hn]; [by left|right]. apply le_antisym; [done|].
  unfold lt, le in *. lia.
Qed.
Lemma le_total x y : le x y \/ le y x.
Proof. unfold le. lia. Qed.
Lemma le_or_lt x y : le x y \/ lt y x.
Proof. unfold lt, le. lia. Qed.
End Lex.

(** A value with a least element added, [Lifted]; [None] is [Bottom]. *)
Abbreviation Lifted := option.
Definition below {A} {L : Lex A} (b : Lifted A) (c : A) : Prop :=
  match b with None => True | Some b => le b c end.
#[global] Instance below_dec {A} {L : Lex A} (b : Lifted A) c : Decision (below b c).
Proof. destruct b; simpl; apply _. Defined.

Definition strictly_below {A} {L : Lex A} (b : Lifted A) (c : A) : Prop :=
  match b with None => True | Some b => lt b c end.
#[global] Instance strictly_below_dec {A} {L : Lex A} (b : Lifted A) c : Decision (strictly_below b c).
Proof. destruct b; simpl; apply _. Defined.

(** * Types.hs, Consensus.hs *)

Definition maxInt : Z := 2 ^ 63 - 1.
Definition succ (n : Z) : option Z := if n =? maxInt then None else Some (n + 1).

Record BallotId := Ballot { ballotProposalId : Z; ballotProcessId : Z }.
#[global] Instance ballot_lex : Lex BallotId.
Proof.
  refine {| key1 := ballotProposalId; key2 := ballotProcessId |}.
  intros [] []; simpl; congruence.
Defined.

Definition nextBallotId (b : BallotId) : option BallotId :=
  (fun n => Ballot n (ballotProcessId b)) <$> succ (ballotProposalId b).

Record DecreeId := Decree { decreeLegislatureId : Z; decreeNumber : Z }.
#[global] Instance decree_lex : Lex DecreeId.
Proof.
  refine {| key1 := decreeLegislatureId; key2 := decreeNumber |}.
  intros [] []; simpl; congruence.
Defined.
#[global] Instance decree_eq_dec : EqDecision DecreeId.
Proof. solve_decision. Defined.
#[global] Instance ballot_eq_dec : EqDecision BallotId.
Proof. solve_decision. Defined.
#[global] Instance decree_countable : Countable DecreeId.
Proof.
  apply (inj_countable' (fun d => (decreeLegislatureId d, decreeNumber d)) (fun x => Decree x.1 x.2)).
  by intros [].
Defined.

Definition initialDecreeId : DecreeId := Decree 0 0.

(** The [Enum] instance: [succ], [enumFromTo]. *)
Definition succ_decree (d : DecreeId) : DecreeId := Decree (decreeLegislatureId d) (decreeNumber d + 1).
Definition pred_decree (d : DecreeId) : DecreeId := Decree (decreeLegislatureId d) (decreeNumber d - 1).
Definition decrees_from_to (d d' : DecreeId) : list DecreeId :=
  Decree (decreeLegislatureId d) <$> seqZ (decreeNumber d) (decreeNumber d' - decreeNumber d + 1).

(** * Intervals

    An interval [(x, y)] stands for the decrees from [x] up to [y], without
    [y]. *)

Fixpoint intervals_go (x y : DecreeId) (xs : list DecreeId) : list (DecreeId * DecreeId) :=
  match xs with
  | z :: xs => if decide (y = z) then intervals_go x (succ_decree z) xs
               else (x, y) :: intervals_go z (succ_decree z) xs
  | [] => [(x, y)]
  end.
Definition intervals (xs : list DecreeId) : list (DecreeId * DecreeId) :=
  match xs with
  | x0 :: xs0 => intervals_go x0 (succ_decree x0) xs0
  | [] => []
  end.

(** [concatMap (\(x, y) -> [x .. pred y])], from the comment on [intervals] *)
Definition expand (l : list (DecreeId * DecreeId)) : list DecreeId :=
  l ≫= fun '(x, y) => decrees_from_to x (pred_decree y).

(** The inner function is the case of a first list [(x, x') : xss], of which
    only [x] changes. *)
Fixpoint diffIntervals (xs ys : list (DecreeId * DecreeId)) {struct xs} : list (DecreeId * DecreeId) :=
  match xs with
  | [] => []
  | (x, x') :: xss =>
      (fix cut (x : DecreeId) (ys : list (DecreeId * DecreeId)) {struct ys} :=
         match ys with
         | [] => (x, x') :: xss
         | (y, y') :: yss =>
             if decide (lt x y' /\ lt y x') then
               if decide (lt x y) then (x, y) :: diffIntervals xss ys
               else if decide (le x' y') then diffIntervals xss ys
                    else cut y' yss
             else (x, x') :: diffIntervals xss ys
         end) x ys
  end.

Fixpoint dropWhile {A} (f : A -> bool) (l : list A) : list A :=
  match l with
  | [] => []
  | x :: l' => if f x then dropWhile f l' else l
  end.

(** * Messages.hs *)

Section Messages.
Context {V : Type}.

Record Ack := MkAck { decree : DecreeId; ballot : BallotId; value : V }.

(** What acceptors receive. Processes and acceptors are named by integers; a
    message that is answered carries the process to answer to. *)
Inductive request :=
| Prepare (d : DecreeId) (b : BallotId) (l : Z)
| Syn (d : DecreeId) (b : BallotId) (l : Z) (x : V)
| Trim (d : DecreeId)
| SyncStart (k : Z) (acceptors : list Z)
| SyncAdvertise (k : Z) (a : Z) (ds : list (DecreeId * DecreeId))
| SyncRequest (k : Z) (a : Z) (ds : list (DecreeId * DecreeId))
| SyncResponse (k : Z) (dvs : list (DecreeId * (BallotId * V)))
| QueryDecrees (k : Z) (d : DecreeId).

(** What they answer. *)
Inductive reply :=
| Promise (b : BallotId) (self : Z) (acks : list Ack)
| Nack (b : BallotId)
| Acked (a : Ack)
| SyncCompleted (name : Z)
| Decrees (acks : list Ack).

(** A message on its way: to an acceptor, or from the acceptor [src] to a
    process. *)
Inductive packet :=
| ToAcceptor (a : Z) (r : request)
| ToProcess (src : Z) (l : Z) (r : reply).

(** * Paxos.hs *)

(** [maximumBy (compare `on` ballot)]: the last of the largest. *)
Definition later_ballot (x y : Ack) : Ack := if decide (lt (ballot y) (ballot x)) then x else y.

Definition chooseValue (d : DecreeId) (acks : list Ack) : option V :=
  match filter (fun a => decree a = d) acks with
  | [] => None
  | a :: acks' => Some (value (foldl later_ballot a acks'))
  end.

(** The state of [loop] and the store. *)
Record acceptor := Acceptor {
  sd : DecreeId;
  promised : Lifted BallotId;
  decrees : gmap DecreeId (BallotId * V);
  saved : option BallotId;
}.

(** Pairs in the order of their keys, [Map.assocs]. *)
Definition le_fst {A} (x y : DecreeId * A) : Prop := le x.1 y.1.
#[global] Instance le_fst_dec {A} (x y : DecreeId * A) : Decision (le_fst x y).
Proof. unfold le_fst. apply _. Defined.
Definition assocs {A} (m : gmap DecreeId A) : list (DecreeId * A) :=
  merge_sort le_fst (map_to_list m).

Definition from (d : DecreeId) (m : gmap DecreeId (BallotId * V)) : gmap DecreeId (BallotId * V) :=
  filter (fun x => le d x.1) m.
Definition above (d : DecreeId) (m : gmap DecreeId (BallotId * V)) : gmap DecreeId (BallotId * V) :=
  filter (fun x => lt d x.1) m.
Definition until (d : DecreeId) (m : gmap DecreeId (BallotId * V)) : gmap DecreeId (BallotId * V) :=
  filter (fun x => lt x.1 d) m.

Definition to_ack (x : DecreeId * (BallotId * V)) : Ack := MkAck x.1 x.2.1 x.2.2.

Fixpoint lookupRanges (m : gmap DecreeId (BallotId * V)) (ds : list (DecreeId * DecreeId))
    : list (DecreeId * (BallotId * V)) :=
  match ds with
  | [] => []
  | (d0, d1) :: dps =>
      let m' := above d0 m in
      option_list ((fun v => (d0, v)) <$> m !! d0) ++ assocs (until d1 m') ++ lookupRanges (above d1 m') dps
  end.

(** One turn of [loop]: the handler of every message, and what it sends. *)
Definition handle (name self : Z) (a : acceptor) (r : request) : acceptor * list packet :=
  let answer l m := [ToProcess name l m] in
  match r with
  | Prepare d b' l =>
      if decide (lt d (sd a)) then (a, [])
      else if decide (below (promised a) b') then
        let acks := option_list ((fun v => MkAck d v.1 v.2) <$> decrees a !! d) in
        (Acceptor (sd a) (Some b') (decrees a) (saved a), answer l (Promise b' self acks))
      else match promised a with
           | Some b => (a, answer l (Nack b))
           | None => (a, [])
           end
  | Syn d b' l x =>
      if decide (lt d (sd a)) then (a, [])
      else if decide (below (promised a) b') then
        let saved' := if decide (strictly_below (promised a) b') then Some b' else saved a in
        (Acceptor (sd a) (Some b') (<[d := (b', x)]> (decrees a)) saved', answer l (Acked (MkAck d b' x)))
      else match promised a with
           | Some b => (a, answer l (Nack b))
           | None => (a, [])
           end
  | Trim d =>
      (Acceptor (if decide (lt (sd a) d) then d else sd a) (promised a) (from d (decrees a)) (saved a), [])
  | SyncStart k others =>
      (a, (fun o => ToAcceptor o (SyncAdvertise k name (intervals (fst <$> assocs (decrees a))))) <$> others)
  | SyncAdvertise k o ds =>
      let known := fst <$> assocs (decrees a) in
      let rqs := diffIntervals ds
        (if decide (lt initialDecreeId (sd a))
         then (initialDecreeId, sd a) :: intervals (dropWhile (fun d => bool_decide (lt d (sd a))) known)
         else intervals known) in
      match rqs with
      | [] => (a, answer k (SyncCompleted name))
      | _ => (a, [ToAcceptor o (SyncRequest k name rqs)])
      end
  | SyncRequest k o ds => (a, [ToAcceptor o (SyncResponse k (lookupRanges (decrees a) ds))])
  | SyncResponse k dvs =>
      (Acceptor (sd a) (promised a) (foldr (fun x m => <[x.1 := x.2]> m) (decrees a) dvs) (saved a),
       answer k (SyncCompleted name))
  | QueryDecrees k d =>
      (a, answer k (Decrees (to_ack <$> assocs (from d (decrees a)))))
  end.

(** A new acceptor, and one that restarts on the store it left. *)
Definition new_acceptor (start : DecreeId) : acceptor := Acceptor start None ∅ None.
Definition restart (start : DecreeId) (a : acceptor) : acceptor :=
  Acceptor start (saved a) (decrees a) (saved a).
End Messages.
Arguments Ack : clear implicits.
Arguments request : clear implicits.
Arguments reply : clear implicits.
Arguments packet : clear implicits.
Arguments acceptor : clear implicits.

Lemma elem_of_assocs {A} (m : gmap DecreeId A) x : x ∈ assocs m <-> m !! x.1 = Some x.2.
Proof. unfold assocs. rewrite merge_sort_Permutation. destruct x. apply elem_of_map_to_list. Qed.

Lemma assocs_keys {A} (m : gmap DecreeId A) : NoDup (assocs m).*1.
Proof. unfold assocs. rewrite merge_sort_Permutation. apply NoDup_fst_map_to_list. Qed.

(** * Intervals *)

Lemma decrees_snoc x y :
  decreeLegislatureId x = decreeLegislatureId y -> decreeNumber x <= decreeNumber y ->
  decrees_from_to x y = decrees_from_to x (pred_decree y) ++ [y].
Proof.
  destruct x as [l n], y as [l' m]. unfold decrees_from_to. simpl. intros <- H.
  replace (m - n + 1) with (Z.of_nat (S (Z.to_nat (m - n)))) by lia. rewrite seqZ_S, fmap_app. simpl.
  do 3 f_equal; lia.
Qed.

Lemma expand_go x y xs :
  decreeLegislatureId x = decreeLegislatureId y -> decreeNumber x < decreeNumber y ->
  expand (intervals_go x y xs) = decrees_from_to x (pred_decree y) ++ xs.
Proof.
  revert x y. induction xs as [|z xs IH]; intros x y Hl Hn; simpl; [done|].
  destruct (decide (y = z)) as [<-|Hne].
  - rewrite IH by (simpl; lia || done).
    replace (pred_decree (succ_decree y)) with y by (destruct y; unfold pred_decree; simpl; f_equal; lia).
    rewrite decrees_snoc by (lia || done). by rewrite <- (assoc_L (++)).
  - unfold expand in *. simpl. rewrite IH by (simpl; lia || done).
    f_equal. unfold decrees_from_to. simpl.
    replace (_ - _ + 1) with 1 by lia. by destruct z.
Qed.

Lemma expand_intervals xs : expand (intervals xs) = xs.
Proof.
  destruct xs as [|x xs]; [done|]. simpl. rewrite expand_go by (simpl; lia || done).
  unfold decrees_from_to. simpl. replace (_ - _ + 1) with 1 by lia. by destruct x.
Qed.

Lemma elem_of_decrees d x y :
  decreeLegislatureId x = decreeLegislatureId y -> decreeLegislatureId d = decreeLegislatureId x ->
  (d ∈ decrees_from_to x (pred_decree y) <-> le x d /\ lt d y).
Proof.
  destruct d as [l n], x as [l1 a], y as [l2 b]. simpl. intros <- ->. unfold decrees_from_to, le, lt. simpl.
  rewrite list_elem_of_fmap. setoid_rewrite elem_of_seqZ. split.
  - intros (k & [= ->] & Hk). lia.
  - intros H. exists n. split; [done|lia].
Qed.

Lemma intervals_run x y z :
  decreeLegislatureId x = decreeLegislatureId y -> decreeLegislatureId x = decreeLegislatureId z ->
  decreeNumber x < decreeNumber z -> decreeNumber z <= decreeNumber y ->
  intervals_go x z (decrees_from_to z (pred_decree y)) = [(x, y)].
Proof.
  destruct x as [l a], y as [l1 b], z as [l2 c]. simpl. intros <- <-. unfold decrees_from_to. simpl.
  intros Ha Hc. replace (b - 1 - c + 1) with (Z.of_nat (Z.to_nat (b - c))) by lia.
  remember (Z.to_nat (b - c)) as n eqn:Hn. revert c Ha Hc Hn.
  induction n as [|n IH]; intros c Ha Hc Hn.
  - rewrite seqZ_nil by lia. simpl. do 3 f_equal. lia.
  - rewrite seqZ_cons by lia. cbn [fmap list_fmap intervals_go]. rewrite decide_True by done.
    replace (Z.pred (Z.of_nat (S n))) with (Z.of_nat n) by lia. unfold succ_decree. simpl.
    apply IH; lia.
Qed.

Section Acceptor.
Context {V : Type}.
Implicit Types (a : acceptor V) (rs : list (request V)).

(** Synchronisation can leave gaps. An acceptor that has the decrees from
    [b] up to [c] and is told of those from [n] up to [m], on both sides of
    them, asks for the ones before [b] only: those from [c] to [m] are missing
    and never requested. ([diffIntervals] drops the rest of an interval once
    it has cut its beginning.) *)
Theorem sync_leaves_gaps name self k o l n b c m a :
  n < b -> b < c -> c < m -> sd a = initialDecreeId ->
  fst <$> assocs (decrees a) = decrees_from_to (Decree l b) (Decree l (c - 1)) ->
  handle name self a (SyncAdvertise k o [(Decree l n, Decree l m)]) =
    (a, [ToAcceptor o (SyncRequest k name [(Decree l n, Decree l b)])]).
Proof.
  intros Hn Hb Hm Hsd Hks. simpl. rewrite Hsd, Hks, decide_False by apply lt_irrefl.
  replace (intervals _) with [(Decree l b, Decree l c)].
  { simpl. rewrite !decide_True; [done|unfold lt; simpl; lia..]. }
  unfold decrees_from_to. simpl. rewrite seqZ_cons by lia. simpl.
  change (Decree l b) with (Decree (decreeLegislatureId (Decree l b)) b) at 1. symmetry.
  pose proof (intervals_run (Decree l b) (Decree l c) (succ_decree (Decree l b))) as H.
  unfold decrees_from_to in H. simpl in H.
  replace (Z.pred (c - 1 - b + 1)) with (c - 1 - (b + 1) + 1) by lia.
  replace (Z.succ b) with (b + 1) by lia. apply H; done || lia.
Qed.

(** ** Promises *)

(** Several messages, one after the other. *)
Fixpoint serve (name self : Z) a rs : acceptor V * list (packet V) :=
  match rs with
  | [] => (a, [])
  | r :: rs => let '(a', ps) := handle name self a r in
               let '(a'', ps') := serve name self a' rs in (a'', ps ++ ps')
  end.

Definition lifted_le (b c : Lifted BallotId) : Prop :=
  match b, c with None, _ => True | Some _, None => False | Some b, Some c => le b c end.

Lemma lifted_le_refl b : lifted_le b b.
Proof. destruct b; simpl; [apply le_refl|done]. Qed.
Lemma lifted_le_trans b c d : lifted_le b c -> lifted_le c d -> lifted_le b d.
Proof. destruct b, c, d; simpl; try done. apply le_trans. Qed.

(** A promise, or a vote, for ballot [b]. *)
Definition commits (b : BallotId) (p : packet V) : Prop :=
  match p with
  | ToProcess _ _ (Promise b' _ _) => b' = b
  | ToProcess _ _ (Acked k) => ballot k = b
  | _ => False
  end.

(** What a turn of the loop does to the promised ballot. *)
Lemma handle_promised name self a r a' ps :
  handle name self a r = (a', ps) ->
  lifted_le (promised a) (promised a') /\
  forall b p, p ∈ ps -> commits b p -> lifted_le (promised a) (Some b) /\ promised a' = Some b.
Proof.
  intros H. destruct r; simpl in H.
  1,2: destruct (decide (lt d (sd a))); [simplify_eq; split; [apply lifted_le_refl|by intros ? ? ?%elem_of_nil]|];
    destruct (decide (below (promised a) b)) as [Hb|Hb];
    [simplify_eq; simpl; (split; [by destruct (promised a)|]); intros b' p ->%list_elem_of_singleton <-;
       (split; [by destruct (promised a)|done])
    |destruct (promised a) eqn:Hp; simplify_eq; rewrite ?Hp; (split; [apply lifted_le_refl|]);
       [by intros b' p ->%list_elem_of_singleton|by intros b' p ?%elem_of_nil]].
  all: try destruct (diffIntervals _ _) as [|i0 rqs]; simplify_eq; simpl; (split; [apply lifted_le_refl|]); intros b' q Hp Hc;
    try (apply list_elem_of_singleton in Hp; by subst); try (by apply elem_of_nil in Hp).
  apply list_elem_of_fmap in Hp as (? & -> & _). done.
Qed.

Lemma serve_promised name self a rs a' ps :
  serve name self a rs = (a', ps) ->
  lifted_le (promised a) (promised a') /\
  forall b p, p ∈ ps -> commits b p -> lifted_le (promised a) (Some b) /\ lifted_le (Some b) (promised a').
Proof.
  revert a ps. induction rs as [|r rs IH]; intros a ps; simpl.
  { intros [= <- <-]. split; [apply lifted_le_refl|by intros ? ? ?%elem_of_nil]. }
  destruct (handle name self a r) as [a1 ps1] eqn:H1. destruct (serve name self a1 rs) as [a2 ps2] eqn:H2.
  intros [= <- <-]. destruct (handle_promised _ _ _ _ _ _ H1) as [Hle1 Hc1].
  destruct (IH _ _ H2) as [Hle2 Hc2]. split; [by eapply lifted_le_trans|].
  intros b p [Hp|Hp]%elem_of_app Hc.
  - destruct (Hc1 b p Hp Hc) as [? Hb]. split; [done|]. by rewrite Hb in Hle2.
  - destruct (Hc2 b p Hp Hc) as [? ?]. split; [by eapply lifted_le_trans|done].
Qed.

(** C38. Invariant P1 of the acceptor: whatever messages it handles, once it has
    promised or voted in a ballot it never again promises or votes in a
    smaller one. *)
Theorem acceptor_keeps_promises name self a rs1 rs2 a1 ps1 a2 ps2 b1 b2 p1 p2 :
  serve name self a rs1 = (a1, ps1) -> serve name self a1 rs2 = (a2, ps2) ->
  p1 ∈ ps1 -> commits b1 p1 -> p2 ∈ ps2 -> commits b2 p2 -> le b1 b2.
Proof.
  intros H1 H2 Hp1 Hc1 Hp2 Hc2.
  destruct (serve_promised _ _ _ _ _ _ H1) as [_ Hs1]. destruct (serve_promised _ _ _ _ _ _ H2) as [_ Hs2].
  destruct (Hs1 b1 p1 Hp1 Hc1) as [_ Ha]. destruct (Hs2 b2 p2 Hp2 Hc2) as [Hb _].
  exact (lifted_le_trans _ _ _ Ha Hb).
Qed.

(** Only votes are saved. A new acceptor that promises ballot [b2] and is
    restarted on its store votes in any smaller ballot [b1], against P1:
    [storePut] is called for [Syn] and not for [Prepare]. *)
Theorem restart_forgets_promise name self d b1 b2 l1 l2 (x : V) :
  lt b1 b2 ->
  let '(a1, ps1) := handle name self (new_acceptor d) (Prepare d b2 l2) in
  let '(a2, ps2) := handle name self (restart d a1) (Syn d b1 l1 x) in
  ps1 = [ToProcess name l2 (Promise b2 self [])] /\ ps2 = [ToProcess name l1 (Acked (MkAck d b1 x))] /\
  promised a1 = Some b2 /\ promised a2 = Some b1.
Proof.
  intros Hlt. simpl. rewrite decide_False by apply lt_irrefl. by rewrite decide_False by apply lt_irrefl.
Qed.
End Acceptor.

Definition with_decrees (m : gmap DecreeId (BallotId * Z)) : acceptor Z := Acceptor initialDecreeId None m None.

Lemma sync_leaves_gaps_witness :
  let a := with_decrees {[Decree 0 3 := (Ballot 0 1, 7)]} in
  handle 2 2 a (SyncAdvertise 9 1 [(Decree 0 0, Decree 0 6)]) =
    (a, [ToAcceptor 1 (SyncRequest 9 2 [(Decree 0 0, Decree 0 3)])]).
Proof. apply (sync_leaves_gaps 2 2 9 1 0 0 3 4 6); try lia; vm_compute; reflexivity. Defined.

(** A promise in ballot [(1, 5)], then a vote in [(2, 4)]. *)
Lemma acceptor_keeps_promises_witness : le (Ballot 1 5) (Ballot 2 4).
Proof.
  apply (acceptor_keeps_promises 1 1 (new_acceptor initialDecreeId)
    [Prepare initialDecreeId (Ballot 1 5) 8] [Syn initialDecreeId (Ballot 0 9) 7 30; Syn initialDecreeId (Ballot 2 4) 9 40]
    (Acceptor initialDecreeId (Some (Ballot 1 5)) ∅ None) [ToProcess 1 8 (Promise (Ballot 1 5) 1 [])]
    (Acceptor initialDecreeId (Some (Ballot 2 4)) {[initialDecreeId := (Ballot 2 4, 40)]} (Some (Ballot 2 4)))
    [ToProcess 1 7 (Nack (Ballot 1 5)); ToProcess 1 9 (Acked (MkAck initialDecreeId (Ballot 2 4) 40))]
    (Ballot 1 5) (Ballot 2 4) (ToProcess 1 8 (Promise (Ballot 1 5) 1 []))
    (ToProcess 1 9 (Acked (MkAck initialDecreeId (Ballot 2 4) 40)))).
  - vm_compute. reflexivity.
  - vm_compute. reflexivity.
  - by left.
  - done.
  - by right; left.
  - done.
Defined.

Lemma restart_forgets_promise_witness :
  let '(a1, ps1) := handle 1 1 (new_acceptor initialDecreeId) (Prepare initialDecreeId (Ballot 3 5) 8) in
  let '(a2, ps2) := handle 1 1 (restart initialDecreeId a1) (Syn initialDecreeId (Ballot 0 4) 9 40) in
  ps1 = [ToProcess 1 8 (Promise (Ballot 3 5) 1 [])] /\
  ps2 = [ToProcess 1 9 (Acked (MkAck initialDecreeId (Ballot 0 4) 40))] /\
  promised a1 = Some (Ballot 3 5) /\ promised a2 = Some (Ballot 0 4).
Proof. apply (restart_forgets_promise 1 1 initialDecreeId (Ballot 0 4) (Ballot 3 5) 9 8 40). left. reflexivity. Defined.

End Paxos.
