(* ===== verification/PaxosSync.v ===== *)
(** Synchronisation of acceptors (Paxos.hs, [sync] of BasicPaxos.hs): the
    intervals that are advertised, the values that are sent for the ranges that
    are requested, and the whole exchange with an acceptor that has nothing. *)

From stdpp Require Import sorting.
From S2P Require Import Prelude Paxos.
Local Open Scope Z_scope.

Module PaxosSync.
Import Paxos.

Section Sync.
Context {V : Type}.
Implicit Types (m : gmap DecreeId (BallotId * V)) (ds : list (DecreeId * DecreeId)) (d x y z : DecreeId).

(** * [sync] *)

(** [Data.List.delete]: the first occurrence is removed. *)
Fixpoint delete (a : Z) (l : list Z) : list Z :=
  match l with
  | [] => []
  | b :: l => if a =? b then l else b :: delete a l
  end.

(** The messages with which [sync] starts, the process of each acceptor being
    one of the children from [k] on; with one acceptor there is nothing to do. *)
Definition sync_starts (k : Z) (acceptors : list Z) : list (packet V) :=
  if decide (1 < length acceptors)%nat then
    imap (fun i a => ToAcceptor a (SyncStart (k + Z.of_nat i) (delete a acceptors))) acceptors
  else [].

(** The answers each of them waits for. *)
Definition sync_awaits (acceptors : list Z) : nat := (length acceptors / 2)%nat.

(** * Ranges *)

(** The intervals are proper, in order, and do not touch. *)
Fixpoint separated ds : Prop :=
  match ds with
  | [] => True
  | (x, y) :: ds => lt x y /\ Forall (fun i => lt y i.1) ds /\ separated ds
  end.

Definition inside d ds : Prop := exists i, i ∈ ds /\ le i.1 d /\ lt d i.2.

Lemma lookup_above d0 m d v : above d0 m !! d = Some v <-> m !! d = Some v /\ lt d0 d.
Proof. unfold above. by rewrite map_lookup_filter_Some. Qed.
Lemma lookup_until d1 m d v : until d1 m !! d = Some v <-> m !! d = Some v /\ lt d d1.
Proof. unfold until. by rewrite map_lookup_filter_Some. Qed.

Lemma inside_cons d x y ds : inside d ((x, y) :: ds) <-> (le x d /\ lt d y) \/ inside d ds.
Proof.
  unfold inside. split.
  - intros (i & [->|Hi]%elem_of_cons & H); [by left|right; eauto].
  - intros [H|(i & Hi & H)]; [exists (x, y); split; [by left|done]|exists i; split; [by right|done]].
Qed.

(** The values sent for a list of ranges are exactly those stored in them. *)
Lemma elem_of_lookupRanges m ds d v :
  separated ds -> ((d, v) ∈ lookupRanges m ds <-> m !! d = Some v /\ inside d ds).
Proof.
  revert m. induction ds as [|[x y] ds IH]; intros m Hs; simpl.
  { rewrite elem_of_nil. split; [done|]. intros [_ (i & ?%elem_of_nil & _)]. done. }
  destruct Hs as (Hxy & Hlater & Hs).
  assert (Hin : inside d ds -> lt y d).
  { intros (i & Hi & Hle & _). rewrite list.Forall_forall in Hlater. eapply lt_le_trans; [by apply Hlater|done]. }
  rewrite !elem_of_app, IH, elem_of_assocs, lookup_until, !lookup_above, inside_cons by done. simpl.
  assert (Hone : (d, v) ∈ option_list ((fun v => (x, v)) <$> m !! x) <-> d = x /\ m !! x = Some v).
  { destruct (m !! x) as [w|]; simpl; [rewrite list_elem_of_singleton|rewrite elem_of_nil].
    - split; [by intros [= -> ->]|]. by intros [-> [= ->]].
    - split; [done|]. by intros [_ [=]]. }
  rewrite Hone. split.
  - intros [[-> H]|[[[H Hlt] Hlt']|[[[H Hlt] Hlt'] Hi]]]; (split; [done|]); [left|left|by right].
    + split; [apply le_refl|done].
    + split; [by apply lt_le|done].
  - intros [H [[Hle Hlt]|Hi]].
    + destruct (le_lt_or_eq _ _ Hle) as [Hlt'| ->]; [right; left|left]; done.
    + right; right. specialize (Hin Hi). repeat split; try done. by eapply lt_le_trans, lt_le.
Qed.

(** * The intervals that are advertised *)

Lemma pred_lt_ne y z : lt (pred_decree y) z -> y <> z -> lt y z.
Proof.
  destruct y as [l n], z as [l' n']. unfold lt, pred_decree. simpl. intros H Hne.
  destruct (decide (l = l')) as [<-|]; [|lia]. destruct (decide (n = n')) as [<-|]; [done|lia].
Qed.

Lemma lt_succ_decree z : lt z (succ_decree z).
Proof. unfold lt. simpl. lia. Qed.
Lemma pred_succ_decree z : pred_decree (succ_decree z) = z.
Proof. destruct z. unfold pred_decree, succ_decree. simpl. f_equal. lia. Qed.

Lemma go_bound xs u v b :
  Forall (lt b) xs -> lt b u -> Forall (fun i => lt b i.1) (intervals_go u v xs).
Proof.
  intros Hxs. revert u v. induction Hxs as [|z xs Hz Hxs IH]; intros u v Hu; simpl; [by constructor|].
  destruct (decide (v = z)); [by apply IH|]. constructor; [done|by apply IH].
Qed.

Lemma separated_go x y xs :
  lt x y -> Forall (lt (pred_decree y)) xs -> StronglySorted lt xs -> separated (intervals_go x y xs).
Proof.
  intros Hxy Hxs Hs. revert x y Hxy Hxs. induction Hs as [|z xs Hs IH Hz]; intros x y Hxy Hxs; simpl; [done|].
  apply list.Forall_cons in Hxs as [Hyz Hxs]. destruct (decide (y = z)) as [->|Hne].
  - apply IH; [|by rewrite pred_succ_decree]. eapply lt_le_trans; [exact Hxy|]. apply lt_le, lt_succ_decree.
  - assert (Hlt : lt y z) by by apply pred_lt_ne. simpl. split; [done|]. split.
    + apply go_bound; [|done]. eapply list.Forall_impl; [exact Hz|]. intros w Hw. simpl in Hw.
      by eapply lt_le_trans, lt_le.
    + apply IH; [apply lt_succ_decree|by rewrite pred_succ_decree].
Qed.

Lemma separated_intervals xs : StronglySorted lt xs -> separated (intervals xs).
Proof.
  intros Hs. destruct Hs as [|x xs Hs Hx]; [done|]. simpl.
  apply separated_go; [apply lt_succ_decree|by rewrite pred_succ_decree|done].
Qed.

Lemma go_legislature x y xs :
  decreeLegislatureId x = decreeLegislatureId y ->
  Forall (fun i => decreeLegislatureId i.1 = decreeLegislatureId i.2) (intervals_go x y xs).
Proof.
  revert x y. induction xs as [|z xs IH]; intros x y H; simpl; [by constructor|].
  destruct (decide (y = z)) as [->|]; [by apply IH|constructor; [done|by apply IH]].
Qed.

Lemma elem_of_expand d ds :
  Forall (fun i => decreeLegislatureId i.1 = decreeLegislatureId i.2) ds -> (d ∈ expand ds <-> inside d ds).
Proof.
  rewrite list.Forall_forall. intros Hl. unfold expand, inside. rewrite list_elem_of_bind.
  apply exist_proper. intros [x y]. simpl. rewrite (comm and).
  enough ((x, y) ∈ ds -> (d ∈ decrees_from_to x (pred_decree y) <-> le x d /\ lt d y)) by tauto.
  intros Hin. specialize (Hl _ Hin). simpl in Hl.
  destruct (decide (decreeLegislatureId d = decreeLegislatureId x)) as [Hd|Hd]; [by apply elem_of_decrees|].
  split; [|unfold le, lt; simpl; lia]. intros (n & -> & _)%list_elem_of_fmap. by simpl in Hd.
Qed.

(** A decree is in one of the intervals exactly if it is known. *)
Lemma inside_intervals d xs : inside d (intervals xs) <-> d ∈ xs.
Proof.
  rewrite <- elem_of_expand; [by rewrite Paxos.expand_intervals|].
  destruct xs as [|x xs]; simpl; [constructor|by apply go_legislature].
Qed.

Lemma keys_sorted m : StronglySorted lt (assocs m).*1.
Proof.
  assert (Hs : StronglySorted le_fst (assocs m)).
  { apply StronglySorted_merge_sort; [intros [] [] []; unfold le_fst; simpl; apply le_trans|].
    intros [] []. unfold le_fst. simpl. apply le_total. }
  pose proof (assocs_keys m) as Hnd. induction Hs as [|x l Hs IH Hx]; [constructor|].
  cbn [fmap list_fmap] in *. apply list.NoDup_cons in Hnd as [Hx' Hnd]. constructor; [by apply IH|].
  apply list.Forall_fmap, list.Forall_forall. intros z Hz. rewrite list.Forall_forall in Hx. specialize (Hx z Hz). unfold le_fst in Hx. simpl.
  destruct (le_lt_or_eq _ _ Hx) as [|Heq]; [done|]. destruct Hx'. rewrite Heq. apply list_elem_of_fmap. eauto.
Qed.

(** The two facts that the comment on [intervals] states: the intervals of a
    list of decrees stand for exactly that list, in order, and those of a sorted
    list are proper, in order, with a gap between any two. *)
Theorem intervals_spec xs :
  expand (intervals xs) = xs /\ (StronglySorted lt xs -> separated (intervals xs)).
Proof. split; [apply Paxos.expand_intervals|apply separated_intervals]. Qed.

(** * The exchange *)

Lemma insert_all_lookup m m0 (l : list (DecreeId * (BallotId * V))) d :
  (forall d v, (d, v) ∈ l -> m !! d = Some v) ->
  foldr (fun p m => <[p.1 := p.2]> m) m0 l !! d = if decide (d ∈ l.*1) then m !! d else m0 !! d.
Proof.
  induction l as [|[d1 v1] l IH]; intros H; simpl; [done|].
  assert (H1 : m !! d1 = Some v1) by (apply H; by left).
  destruct (decide (d = d1)) as [->|Hne].
  - rewrite lookup_insert_eq, decide_True by (by left). done.
  - rewrite lookup_insert_ne, IH by (done || intros d2 v2 H2; apply H; by right).
    destruct (decide (d ∈ l.*1)) as [Hin|Hin]; [by rewrite decide_True by (by right)|].
    rewrite decide_False; [done|]. by intros [?|?]%elem_of_cons.
Qed.

Lemma lookupRanges_keys m ds d : separated ds -> (d ∈ (lookupRanges m ds).*1 <-> is_Some (m !! d) /\ inside d ds).
Proof.
  intros Hs. rewrite list_elem_of_fmap. split.
  - intros ([d' v] & -> & Hin). apply elem_of_lookupRanges in Hin as [H ?]; [|done]. split; [by eexists|done].
  - intros [[v H] Hi]. exists (d, v). split; [done|]. by apply elem_of_lookupRanges.
Qed.

(** What a request for ranges brings. The answer of an acceptor [a] to it
    gives the acceptor [b] that asked the decrees of [a] in these ranges; its
    other decrees stay as they are, and so does what it has promised. *)
Theorem sync_transfers (na nb k : Z) (a b : acceptor V) ds :
  separated ds ->
  exists dvs b',
    handle na na a (SyncRequest k nb ds) = (a, [ToAcceptor nb (SyncResponse k dvs)]) /\
    handle nb nb b (SyncResponse k dvs) = (b', [ToProcess nb k (SyncCompleted nb)]) /\
    sd b' = sd b /\ promised b' = promised b /\
    forall d, (inside d ds -> is_Some (decrees a !! d) -> decrees b' !! d = decrees a !! d) /\
              (~ inside d ds \/ decrees a !! d = None -> decrees b' !! d = decrees b !! d).
Proof.
  intros Hs. eexists _, _. split; [done|]. split; [done|]. split; [done|]. split; [done|]. intros d. simpl.
  assert (H : forall d v, (d, v) ∈ lookupRanges (decrees a) ds -> decrees a !! d = Some v).
  { intros d' v Hin. by apply elem_of_lookupRanges in Hin as [? _]. }
  rewrite (insert_all_lookup (decrees a)) by done. split.
  - intros Hi Ha. by rewrite decide_True by (by apply lookupRanges_keys).
  - intros Hn. rewrite decide_False; [done|]. intros [[v Hv] Hi]%lookupRanges_keys; [|done].
    destruct Hn; [done|congruence].
Qed.

(** C18. The whole synchronisation with an acceptor that has no decrees and has
    trimmed none: told of the intervals of the decrees of another acceptor, which
    has some, it asks for all of them; and with the answer it ends up with exactly
    the decrees and votes of the other, and says that it is done. *)
Theorem sync_fills_empty (na nb k : Z) (a b : acceptor V) :
  decrees a <> ∅ -> decrees b = ∅ -> sd b = initialDecreeId ->
  let ds := intervals (assocs (decrees a)).*1 in
  exists dvs,
    handle na na a (SyncStart k [nb]) = (a, [ToAcceptor nb (SyncAdvertise k na ds)]) /\
    handle nb nb b (SyncAdvertise k na ds) = (b, [ToAcceptor na (SyncRequest k nb ds)]) /\
    handle na na a (SyncRequest k nb ds) = (a, [ToAcceptor nb (SyncResponse k dvs)]) /\
    handle nb nb b (SyncResponse k dvs) =
      (Acceptor (sd b) (promised b) (decrees a) (saved b), [ToProcess nb k (SyncCompleted nb)]).
Proof.
  intros Ha Hb Hsd ds. exists (lookupRanges (decrees a) ds). split; [done|]. split; [|split; [done|]].
  - cbn [handle]. rewrite Hsd, Hb, decide_False by apply lt_irrefl.
    change (assocs (∅ : gmap DecreeId (BallotId * V))) with (@nil (DecreeId * (BallotId * V))). simpl.
    destruct ds as [|[x x'] ds'] eqn:Hds; [|done]. exfalso. apply Ha.
    pose proof (Paxos.expand_intervals (assocs (decrees a)).*1) as He. fold ds in He. rewrite Hds in He. symmetry in He.
    apply map_empty. intros d. destruct (decrees a !! d) as [v|] eqn:Hv; [|done].
    assert (Hin : (d, v) ∈ assocs (decrees a)) by by apply elem_of_assocs.
    apply fmap_nil_inv in He. rewrite He in Hin. by apply elem_of_nil in Hin.
  - simpl. f_equal. f_equal. rewrite Hb. apply map_eq. intros d.
    assert (Hs : separated ds) by apply separated_intervals, keys_sorted.
    rewrite (insert_all_lookup (decrees a)), lookup_empty by (intros d' v Hin; by apply elem_of_lookupRanges in Hin as [? _]).
    destruct (decide _) as [|Hn]; [done|]. destruct (decrees a !! d) as [v|] eqn:Hv; [|done]. destruct Hn.
    apply lookupRanges_keys; [done|]. split; [by eexists|]. apply inside_intervals, list_elem_of_fmap.
    exists (d, v). split; [done|]. by apply elem_of_assocs.
Qed.

(** A response is stored whatever the acceptor has in the meantime: a vote for
    the same decree in a later ballot is lost. *)
Theorem sync_overwrites_vote (nb k : Z) (b : acceptor V) d b1 b2 v1 v2 :
  decrees b !! d = Some (b2, v2) -> lt b1 b2 ->
  decrees (handle nb nb b (SyncResponse k [(d, (b1, v1))])).1 !! d = Some (b1, v1).
Proof. intros _ _. simpl. by rewrite lookup_insert_eq. Qed.
End Sync.

Lemma sync_transfers_witness :
  exists dvs b',
    handle 1 1 (with_decrees {[Decree 0 3 := (Ballot 0 1, 7)]}) (SyncRequest 9 2 [(Decree 0 2, Decree 0 5)]) =
      (with_decrees {[Decree 0 3 := (Ballot 0 1, 7)]}, [ToAcceptor 2 (SyncResponse 9 dvs)]) /\
    handle 2 2 (with_decrees ∅) (SyncResponse 9 dvs) = (b', [ToProcess 2 9 (SyncCompleted 2)]) /\
    decrees b' !! Decree 0 3 = Some (Ballot 0 1, 7).
Proof.
  destruct (sync_transfers 1 2 9 (with_decrees {[Decree 0 3 := (Ballot 0 1, 7)]}) (with_decrees ∅)
    [(Decree 0 2, Decree 0 5)]) as (dvs & b' & H1 & H2 & _ & _ & H3).
  { split; [right; split; reflexivity|]. split; [constructor|done]. }
  exists dvs, b'. split; [exact H1|]. split; [exact H2|]. destruct (H3 (Decree 0 3)) as [H4 _]. apply H4.
  - exists (Decree 0 2, Decree 0 5). split; [by left|]. split; right; simpl; lia.
  - eexists. vm_compute. reflexivity.
Defined.

Lemma sync_fills_empty_witness :
  let a := with_decrees {[Decree 0 3 := (Ballot 0 1, 7); Decree 1 4 := (Ballot 0 2, 8)]} in
  let ds := intervals (assocs (decrees a)).*1 in
  exists dvs,
    handle 1 1 a (SyncStart 9 [2]) = (a, [ToAcceptor 2 (SyncAdvertise 9 1 ds)]) /\
    handle 2 2 (with_decrees ∅) (SyncAdvertise 9 1 ds) = (with_decrees ∅, [ToAcceptor 1 (SyncRequest 9 2 ds)]) /\
    handle 1 1 a (SyncRequest 9 2 ds) = (a, [ToAcceptor 2 (SyncResponse 9 dvs)]) /\
    handle 2 2 (with_decrees ∅) (SyncResponse 9 dvs) = (with_decrees (decrees a), [ToProcess 2 9 (SyncCompleted 2)]).
Proof.
  apply (sync_fills_empty 1 2 9 (with_decrees {[Decree 0 3 := (Ballot 0 1, 7); Decree 1 4 := (Ballot 0 2, 8)]})
    (with_decrees ∅)); [discriminate|reflexivity..].
Defined.

End PaxosSync.
