(* ===== verification/PaxosNet.v ===== *)
(** The protocol of BasicPaxos.hs: any number of calls of [propose] and any
    acceptors, connected by a network that delays, reorders and loses messages
    but does not duplicate them. A call is a state machine: [scout] and
    [command] broadcast a request from a child process of their own and collect
    answers until there is a quorum ([expectQuorum]), a [Nack] or a timeout. *)

From S2P Require Import Prelude Paxos.
Local Open Scope Z_scope.

Module PaxosNet.
Import Paxos.

Section Net.
Context {V : Type} (acceptors : list Z).

(** [quorum = nProc `div` 2 + 1] *)
Definition quorum : nat := (length acceptors / 2 + 1)%nat.

(** * A call of [propose] *)

(** Where the call is. [k] is the child process that waits; the answers counted
    so far are kept with the acceptors they came from, the newest first.
    [Failed]: [nextBallotId] of the largest ballot. *)
Inductive phase :=
| Scouting (k : Z) (resps : list (Z * list (Ack V)))
| Commanding (k : Z) (x' : V) (resps : list Z)
| Returned (x' : V)
| Failed.

Record proposal := Proposal { pr_value : V; pr_ballot : BallotId; pr_phase : phase }.

Definition child (p : proposal) : option Z :=
  match pr_phase p with Scouting k _ | Commanding k _ _ => Some k | _ => None end.

(** What the call does next: go on waiting or stop, or start a [scout] with a
    ballot or a [command] with a value. *)
Inductive todo := Become (ph : phase) | Scout (b : BallotId) | Command (x' : V).

(** [b{ballotProposalId}], with the number of [b'] *)
Definition with_number_of (b' b : BallotId) : BallotId :=
  Ballot (ballotProposalId b') (ballotProcessId b).

(** A turn of [wait]: the message [r] from the acceptor [src] reaches the child.
    Messages of other types stay in the mailbox. *)
Definition on_reply (d : DecreeId) (p : proposal) (src : Z) (r : reply V) : option todo :=
  let b := pr_ballot p in
  match pr_phase p, r with
  | Scouting k _, Nack b' =>
      Some (if decide (lt b b') then
              match nextBallotId (with_number_of b' b) with
              | Some b2 => Scout b2
              | None => Become Failed
              end
            else Scout b)
  | Scouting k resps, Promise _ _ acks =>
      let resps' := (src, acks) :: resps in
      Some (if decide (length resps' = quorum)
            then Command (default (pr_value p) (chooseValue d (resps' ≫= snd)))
            else Become (Scouting k resps'))
  | Commanding k _ _, Nack b' => Some (Scout (with_number_of b' b))
  | Commanding k x' resps, Acked _ =>
      let resps' := src :: resps in
      Some (if decide (length resps' = quorum) then Become (Returned x') else Become (Commanding k x' resps'))
  | _, _ => None
  end.

(** A command is preempted by a ballot with the same number: the call scouts
    once more with the ballot it has already used. *)
Definition reuses (p : proposal) (r : reply V) : bool :=
  match pr_phase p, r with
  | Commanding _ _ _, Nack b' => ballotProposalId b' =? ballotProposalId (pr_ballot p)
  | _, _ => false
  end.

(** * The system *)

(** Calls are known by the process that makes them and the decree: a process
    proposes a value for a decree once. [log] has every message ever sent. *)
Record sys := Sys {
  accs : gmap Z (acceptor V);
  props : gmap (Z * DecreeId) proposal;
  net : list (packet V);
  log : list (packet V);
  next : Z;
}.

Definition with_net (n : list (packet V)) (s : sys) : sys := Sys (accs s) (props s) n (log s) (next s).
Definition send (ps : list (packet V)) (s : sys) : sys :=
  Sys (accs s) (props s) (net s ++ ps) (log s ++ ps) (next s).
Definition set_prop (c : Z * DecreeId) (p : proposal) (s : sys) : sys :=
  Sys (accs s) (<[c := p]> (props s)) (net s) (log s) (next s).
Definition set_acc (a : Z) (st : acceptor V) (s : sys) : sys :=
  Sys (<[a := st]> (accs s)) (props s) (net s) (log s) (next s).
Definition fork (s : sys) : sys := Sys (accs s) (props s) (net s) (log s) (next s + 1).

(** A request to every acceptor. *)
Definition broadcast (r : request V) : list (packet V) := (fun a => ToAcceptor a r) <$> acceptors.

Definition scout (c : Z * DecreeId) (x : V) (b : BallotId) (s : sys) : sys :=
  fork (send (broadcast (Prepare c.2 b (next s))) (set_prop c (Proposal x b (Scouting (next s) [])) s)).
Definition command (c : Z * DecreeId) (x : V) (b : BallotId) (x' : V) (s : sys) : sys :=
  fork (send (broadcast (Syn c.2 b (next s) x')) (set_prop c (Proposal x b (Commanding (next s) x' [])) s)).

Definition perform (c : Z * DecreeId) (p : proposal) (t : todo) (s : sys) : sys :=
  match t with
  | Become ph => set_prop c (Proposal (pr_value p) (pr_ballot p) ph) s
  | Scout b => scout c (pr_value p) b s
  | Command x' => command c (pr_value p) (pr_ballot p) x' s
  end.

(** [retry]: what a call does when the time is over. *)
Definition again (p : proposal) : option todo :=
  match pr_phase p with
  | Scouting _ _ => Some (Scout (pr_ballot p))
  | Commanding _ x' _ => Some (Command x')
  | _ => None
  end.

(** The steps; the flag marks the reuse of a ballot. *)
Inductive step : bool -> sys -> sys -> Prop :=
| step_propose self d x s :
    props s !! (self, d) = None -> step false s (scout (self, d) x (Ballot 0 self) s)
| step_timeout c p t s :
    props s !! c = Some p -> again p = Some t -> step false s (perform c p t s)
| step_release a d s : step false s (send [ToAcceptor a (Trim d)] s)
| step_query d s : step false s (fork (send (broadcast (QueryDecrees (next s) d)) s))
| step_acceptor a r st st' ps n1 n2 s :
    net s = n1 ++ ToAcceptor a r :: n2 -> accs s !! a = Some st -> handle a a st r = (st', ps) ->
    step false s (send ps (set_acc a st' (with_net (n1 ++ n2) s)))
| step_reply src k r c p t n1 n2 s :
    net s = n1 ++ ToProcess src k r :: n2 -> props s !! c = Some p -> child p = Some k ->
    on_reply c.2 p src r = Some t ->
    step (reuses p r) s (perform c p t (with_net (n1 ++ n2) s))
| step_lose q n1 n2 s : net s = n1 ++ q :: n2 -> step false s (with_net (n1 ++ n2) s).

(** No calls yet; [starts] are the decrees from which the acceptors start. *)
Definition initial (starts : gmap Z DecreeId) : sys :=
  Sys (new_acceptor <$> starts) ∅ [] [] 0.

(** ** [query] *)

(** [decideDecree] on the acks for a decree *)
Definition decideDecree (di : DecreeId) (acks : list (Ack V)) : option (DecreeId * V) :=
  if decide (length acceptors / 2 + 1 <= length acks)%nat then (fun x => (di, x)) <$> chooseValue di acks
  else None.

(** [Map.fromList . map (\a -> (decree a, [a]))] *)
Definition fromList (acks : list (Ack V)) : gmap DecreeId (list (Ack V)) :=
  foldl (fun m a => <[decree a := [a]]> m) ∅ acks.

(** [Map.unionsWith (++)] *)
Definition unionsWith (ms : list (gmap DecreeId (list (Ack V)))) : gmap DecreeId (list (Ack V)) :=
  foldl (union_with (fun xs ys => Some (xs ++ ys))) ∅ ms.

(** The result, from the answers [dvs] in the order in which they come *)
Definition query (dvs : list (list (Ack V))) : list (DecreeId * V) :=
  omap (fun x => decideDecree x.1 x.2) (assocs (unionsWith (fromList <$> dvs))).

(** * Running the protocol *)

(** A step by name: packets are taken by their place in the network. *)
Inductive move :=
| Propose (self : Z) (d : DecreeId) (x : V)
| Timeout (c : Z * DecreeId)
| Release (a : Z) (d : DecreeId)
| Ask (d : DecreeId)
| Accept (n : nat)
| Receive (n : nat) (c : Z * DecreeId)
| Lose (n : nat).

Definition without (n : nat) (s : sys) : sys := with_net (take n (net s) ++ drop (S n) (net s)) s.

Definition exec (m : move) (s : sys) : option (bool * sys) :=
  match m with
  | Propose self d x =>
      match props s !! (self, d) with
      | None => Some (false, scout (self, d) x (Ballot 0 self) s)
      | Some _ => None
      end
  | Timeout c =>
      p ← props s !! c; t ← again p; Some (false, perform c p t s)
  | Release a d => Some (false, send [ToAcceptor a (Trim d)] s)
  | Ask d => Some (false, fork (send (broadcast (QueryDecrees (next s) d)) s))
  | Accept n =>
      match net s !! n with
      | Some (ToAcceptor a r) =>
          st ← accs s !! a;
          let '(st', ps) := handle a a st r in Some (false, send ps (set_acc a st' (without n s)))
      | _ => None
      end
  | Receive n c =>
      match net s !! n with
      | Some (ToProcess src k r) =>
          p ← props s !! c;
          if decide (child p = Some k) then
            t ← on_reply c.2 p src r; Some (reuses p r, perform c p t (without n s))
          else None
      | _ => None
      end
  | Lose n => if decide (n < length (net s))%nat then Some (false, without n s) else None
  end.

(** The run of the moves [ms], and whether a ballot was reused in it. *)
Fixpoint run (ms : list move) (s : sys) : option (bool * sys) :=
  match ms with
  | [] => Some (false, s)
  | m :: ms => '(fl, s') ← exec m s; '(fl', s'') ← run ms s'; Some (fl || fl', s'')
  end.

Lemma exec_step m s fl s' : exec m s = Some (fl, s') -> step fl s s'.
Proof.
  destruct m as [self d x|c|a d|d|n|n c|n]; simpl; intros H.
  - destruct (props s !! (self, d)) eqn:Hp; simplify_eq. by constructor.
  - destruct (props s !! c) as [p|] eqn:Hp; simpl in H; [|done].
    destruct (again p) as [t|] eqn:Ht; simplify_eq/=. by constructor.
  - simplify_eq. constructor.
  - simplify_eq. constructor.
  - destruct (net s !! n) as [[a r|]|] eqn:Hn; [|done..].
    destruct (accs s !! a) as [st|] eqn:Ha; simpl in H; [|done].
    destruct (handle a a st r) as [st' ps] eqn:Hh. simplify_eq.
    eapply step_acceptor; [symmetry; by apply take_drop_middle|done..].
  - destruct (net s !! n) as [[|src k r]|] eqn:Hn; [done| |done].
    destruct (props s !! c) as [p|] eqn:Hp; simpl in H; [|done].
    destruct (decide (child p = Some k)); [|done].
    destruct (on_reply c.2 p src r) as [t|] eqn:Ht; simplify_eq/=.
    eapply step_reply; [symmetry; by apply take_drop_middle|done..].
  - destruct (decide _) as [Hn|]; simplify_eq. apply lookup_lt_is_Some in Hn as [q Hq].
    eapply step_lose. symmetry. by apply take_drop_middle.
Qed.

Lemma step_exec fl s s' : step fl s s' -> exists m, exec m s = Some (fl, s').
Proof.
  assert (Hw : forall n1 q n2 (s : sys), net s = n1 ++ q :: n2 ->
    net s !! length n1 = Some q /\ without (length n1) s = with_net (n1 ++ n2) s).
  { intros n1 q n2 s0 Hn. split; [rewrite Hn; by apply list_lookup_middle|].
    unfold without. rewrite Hn, take_app_length. f_equal. f_equal.
    replace (S (length n1)) with (length n1 + 1)%nat by lia. by rewrite drop_app_add. }
  intros [self d x s0 Hp|c p t s0 Hp Ht|a d s0|d s0|a r st st' ps n1 n2 s0 Hn Ha Hh
    |src k r c p t n1 n2 s0 Hn Hp Hk Ht|q n1 n2 s0 Hn].
  - exists (Propose self d x). simpl. by rewrite Hp.
  - exists (Timeout c). simpl. rewrite Hp. simpl. by rewrite Ht.
  - by exists (Release a d).
  - by exists (Ask d).
  - destruct (Hw _ _ _ _ Hn) as [H1 H2]. exists (Accept (length n1)). cbn [exec]. rewrite H1, Ha. simpl. by rewrite Hh, H2.
  - destruct (Hw _ _ _ _ Hn) as [H1 H2]. exists (Receive (length n1) c). cbn [exec].
    rewrite H1, Hp. simpl. rewrite decide_True by done. rewrite Ht. simpl. by rewrite H2.
  - destruct (Hw _ _ _ _ Hn) as [H1 H2]. exists (Lose (length n1)). cbn [exec].
    rewrite decide_True by (by eapply lookup_lt_Some). by rewrite H2.
Qed.

Lemma run_steps ms s s' : run ms s = Some (false, s') -> rtc (step false) s s'.
Proof.
  revert s. induction ms as [|m ms IH]; intros s; simpl; [intros [= <-]; constructor|].
  destruct (exec m s) as [[fl s1]|] eqn:H1; simpl; [|done].
  destruct (run ms s1) as [[fl' s2]|] eqn:H2; simpl; [|done]. intros [= [-> ->]%orb_false_iff ->].
  eapply rtc_l; [by eapply exec_step|by apply IH].
Qed.

Lemma run_any_steps ms s fl s' : run ms s = Some (fl, s') -> rtc (fun s s' => exists fl, step fl s s') s s'.
Proof.
  revert s fl. induction ms as [|m ms IH]; intros s fl; simpl; [intros [= <- <-]; constructor|].
  destruct (exec m s) as [[fl1 s1]|] eqn:H1; simpl; [|done].
  destruct (run ms s1) as [[fl' s2]|] eqn:H2; simpl; [|done]. intros [= _ <-].
  eapply rtc_l; [eexists; by eapply exec_step|by eapply IH].
Qed.
End Net.
Arguments move : clear implicits.
Arguments phase : clear implicits.
Arguments proposal : clear implicits.
Arguments sys : clear implicits.

End PaxosNet.
