(* ===== verification/PaxosSafety.v ===== *)
(** Safety of the protocol of PaxosNet.v. Votes, promises and commands are read
    off the log of messages; the invariant ties them to the acceptors and to
    the calls of [propose], and gives agreement as long as no ballot is
    reused. *)

From S2P Require Import Prelude Paxos PaxosNet.
Local Open Scope Z_scope.

Module PaxosSafety.
Import Paxos PaxosNet.

(** * Quorums *)

Section Quorums.
Context (acceptors : list Z).

Definition is_quorum (Q : list Z) : Prop :=
  NoDup Q /\ Q ⊆ acceptors /\ (quorum acceptors <= length Q)%nat.

Lemma NoDup_subseteq_length (l k : list Z) : NoDup l -> l ⊆ k -> (length l <= length k)%nat.
Proof. intros Hl Hs. by apply submseteq_length, NoDup_submseteq. Qed.

Lemma quorums_meet Q1 Q2 :
  is_quorum Q1 -> is_quorum Q2 -> exists a, a ∈ Q1 /\ a ∈ Q2.
Proof.
  intros (N1 & S1 & L1) (N2 & S2 & L2).
  destruct (decide (Exists (fun a => a ∈ Q2) Q1)) as [[a [H1 H2]]%list.Exists_exists|Hn]; [by exists a|].
  exfalso. assert (Hd : NoDup (Q1 ++ Q2)).
  { apply list.NoDup_app. split; [done|]. split; [|done]. intros a H1 H2. apply Hn, list.Exists_exists. eauto. }
  assert (Hs : Q1 ++ Q2 ⊆ acceptors) by (intros a [?|?]%elem_of_app; auto).
  pose proof (NoDup_subseteq_length _ _ Hd Hs) as Hlen. rewrite length_app in Hlen.
  unfold quorum in *. pose proof (Nat.div_mod_eq (length acceptors) 2).
  pose proof (Nat.mod_upper_bound (length acceptors) 2). lia.
Qed.
End Quorums.

(** * The value of the latest ballot *)

Section Choose.
Context {V : Type}.
Implicit Types (a : Ack V) (acks : list (Ack V)).

Lemma later_ballot_spec a acks :
  let m := foldl later_ballot a acks in
  m ∈ a :: acks /\ forall a', a' ∈ a :: acks -> le (ballot a') (ballot m).
Proof.
  revert a. induction acks as [|x acks IH]; intros a; simpl.
  { split; [by left|]. intros a' ->%list_elem_of_singleton. apply le_refl. }
  destruct (IH (later_ballot a x)) as [Hin Hmax].
  assert (Hax : (later_ballot a x = a \/ later_ballot a x = x) /\
    le (ballot a) (ballot (later_ballot a x)) /\ le (ballot x) (ballot (later_ballot a x))).
  { unfold later_ballot. destruct (decide _) as [H|H].
    - split; [by left|]. split; [apply le_refl|by apply lt_le].
    - split; [by right|]. split; [|apply le_refl]. by destruct (le_or_lt (ballot a) (ballot x)). }
  destruct Hax as (He & Ha & Hx). split.
  - apply elem_of_cons in Hin as [->|Hin]; [|by right; right].
    destruct He as [->| ->]; [by left|by right; left].
  - intros a' [->|[->|Hin']%elem_of_cons]%elem_of_cons.
    + eapply le_trans; [done|]. apply Hmax. by left.
    + eapply le_trans; [done|]. apply Hmax. by left.
    + apply Hmax. by right.
Qed.

Lemma chooseValue_spec d acks :
  match chooseValue d acks with
  | None => forall a, a ∈ acks -> decree a <> d
  | Some x => exists a, a ∈ acks /\ decree a = d /\ value a = x /\
      forall a', a' ∈ acks -> decree a' = d -> le (ballot a') (ballot a)
  end.
Proof.
  unfold chooseValue. destruct (filter _ acks) as [|a l] eqn:Hf.
  - intros a Ha Hd. assert (a ∈ filter (fun a => decree a = d) acks) as Hin by by apply list_elem_of_filter.
    rewrite Hf in Hin. by apply elem_of_nil in Hin.
  - destruct (later_ballot_spec a l) as [Hin Hmax]. rewrite <- Hf in Hin, Hmax.
    apply list_elem_of_filter in Hin as [Hd Hin]. eexists. split; [exact Hin|]. split; [done|]. split; [done|].
    intros a' Ha' Hd'. apply Hmax. by apply list_elem_of_filter.
Qed.
End Choose.

(** * The invariant *)

Section Safety.
Context {V : Type} (acceptors : list Z) (nodup : NoDup acceptors) (nonempty : acceptors <> []).
Implicit Types (L : list (packet V)) (d : DecreeId) (b c : BallotId) (x y : V) (s : sys V).
Abbreviation is_quorum := (is_quorum acceptors).

Definition voted L (a : Z) d b x : Prop := exists k, ToProcess a k (Acked (MkAck d b x)) ∈ L.
Definition commanded L d b x : Prop := exists a k, ToAcceptor a (Syn d b k x) ∈ L.
Definition chosen L d x : Prop := exists b Q, is_quorum Q /\ forall a, a ∈ Q -> voted L a d b x.

(** The process that is answered. *)
Definition reply_to (r : request V) : option Z :=
  match r with
  | Prepare _ _ k | Syn _ _ k _ | QueryDecrees k _ => Some k
  | _ => None
  end.
Definition ordinary (r : request V) : Prop :=
  match r with Prepare _ _ _ | Syn _ _ _ _ | Trim _ | QueryDecrees _ _ => True | _ => False end.

(** [r] is a possible answer to [q], which asks for an answer to [k]. *)
Definition answer_to (k : Z) (q : request V) (r : reply V) : Prop :=
  match r with
  | Promise b _ _ => exists d, q = Prepare d b k
  | Acked v => q = Syn (decree v) (ballot v) k (value v)
  | Nack b' => match q with Prepare _ b _ | Syn _ b _ _ => lt b b' | _ => False end
  | Decrees _ => exists d, q = QueryDecrees k d
  | SyncCompleted _ => False
  end.

Record log_ok L (nxt : Z) : Prop := {
  lo_request : forall a r, ToAcceptor a r ∈ L ->
    ordinary r /\ forall k, reply_to r = Some k -> k < nxt /\ a ∈ acceptors;
  lo_unique : forall a a' r r' k, ToAcceptor a r ∈ L -> ToAcceptor a' r' ∈ L ->
    reply_to r = Some k -> reply_to r' = Some k -> r = r';
  lo_reply : forall a k r, ToProcess a k r ∈ L ->
    exists q, ToAcceptor a q ∈ L /\ reply_to q = Some k /\ answer_to k q r;
}.

(** The store of an acceptor has its latest vote for every decree it has not
    trimmed. *)
Definition store_ok L (a : Z) (st : acceptor V) : Prop :=
  forall d, le (sd st) d ->
    match decrees st !! d with
    | None => forall b x, ~ voted L a d b x
    | Some (b, x) => voted L a d b x /\ forall b' x', voted L a d b' x' -> le b' b
    end.

Record acc_ok L (accs : gmap Z (acceptor V)) : Prop := {
  ao_known : forall a k r, ToProcess a k r ∈ L -> is_Some (accs !! a);
  ao_commits : forall a st k r b, accs !! a = Some st -> ToProcess a k r ∈ L ->
    commits b (ToProcess a k r) -> lifted_le (Some b) (promised st);
  ao_store : forall a st, accs !! a = Some st -> store_ok L a st;
  ao_promise : forall a k d b self acks,
    ToProcess a k (Promise b self acks) ∈ L -> ToAcceptor a (Prepare d b k) ∈ L ->
    (forall v, v ∈ acks -> decree v = d /\ voted L a d (ballot v) (value v)) /\
    (forall c y, voted L a d c y -> lt c b -> exists v, v ∈ acks /\ le c (ballot v));
}.

(** The commands for [d] of the process of [b]. *)
Definition own L d b (P : BallotId -> V -> Prop) : Prop :=
  forall c y, commanded L d c y -> ballotProcessId c = ballotProcessId b -> P c y.

(** All requests of the child [k] are [q]. *)
Definition asks L (k : Z) (q : request V) : Prop :=
  forall a r, ToAcceptor a r ∈ L -> reply_to r = Some k -> r = q.

Definition phase_ok L d (p : proposal V) : Prop :=
  let b := pr_ballot p in
  match pr_phase p with
  | Scouting k resps =>
      own L d b (fun c _ => lt c b) /\ asks L k (Prepare d b k) /\ NoDup resps.*1 /\
      forall a acks, (a, acks) ∈ resps -> exists self, ToProcess a k (Promise b self acks) ∈ L
  | Commanding k x' resps =>
      own L d b (fun c y => lt c b \/ (c = b /\ y = x')) /\ asks L k (Syn d b k x') /\
      commanded L d b x' /\ NoDup resps /\
      forall a, a ∈ resps -> ToProcess a k (Acked (MkAck d b x')) ∈ L
  | Returned x => chosen L d x
  | Failed => True
  end.

Record prop_ok L (props : gmap (Z * DecreeId) (proposal V)) (nxt : Z) : Prop := {
  po_some : forall self d p, props !! (self, d) = Some p ->
    ballotProcessId (pr_ballot p) = self /\ phase_ok L d p;
  po_none : forall self d b x, props !! (self, d) = None -> commanded L d b x -> ballotProcessId b <> self;
  po_child : forall i p k, props !! i = Some p -> child p = Some k -> k < nxt;
  po_children : forall i i' p p' k, props !! i = Some p -> props !! i' = Some p' ->
    child p = Some k -> child p' = Some k -> i = i';
}.

(** No value but [x] can be chosen for [d] in a ballot below [b]. *)
Definition safe_at L (accs : gmap Z (acceptor V)) d b x : Prop :=
  forall c, lt c b -> exists Q, is_quorum Q /\ forall a, a ∈ Q ->
    (forall y, voted L a d c y -> y = x) /\
    exists st b', accs !! a = Some st /\ promised st = Some b' /\ lt c b'.

(** ** Messages under way *)

(** The packet belongs to the conversation of the child [k] with the acceptor
    [a]. *)
Definition talk (k a : Z) (q : packet V) : Prop :=
  match q with
  | ToAcceptor a' r => a' = a /\ reply_to r = Some k
  | ToProcess a' k' _ => a' = a /\ k' = k
  end.
#[local] Instance talk_dec k a q : Decision (talk k a q).
Proof. destruct q; simpl; apply _. Defined.

Definition talks (k a : Z) (n : list (packet V)) : nat := length (filter (talk k a) n).

Definition counted (p : proposal V) : list Z :=
  match pr_phase p with Scouting _ resps => resps.*1 | Commanding _ _ resps => resps | _ => [] end.

(** A conversation is about one message, and is over once it is counted. *)
Record net_ok (n L : list (packet V)) (props : gmap (Z * DecreeId) (proposal V)) (nxt : Z) : Prop := {
  no_log : forall q, q ∈ n -> q ∈ L;
  no_once : forall k a, (talks k a n <= 1)%nat;
  no_fresh : forall k a, nxt <= k -> talks k a n = 0%nat;
  no_counted : forall i p k a, props !! i = Some p -> child p = Some k -> a ∈ counted p -> talks k a n = 0%nat;
}.

Record inv s : Prop := {
  inv_log : log_ok (log s) (next s);
  inv_accs : acc_ok (log s) (accs s);
  inv_props : prop_ok (log s) (props s) (next s);
  inv_net : net_ok (net s) (log s) (props s) (next s);
  inv_unique : forall d b x y, commanded (log s) d b x -> commanded (log s) d b y -> x = y;
  inv_safe : forall d b x, commanded (log s) d b x -> safe_at (log s) (accs s) d b x;
}.

(** * Votes and commands in a longer log *)

Lemma talks_app k a n1 n2 : talks k a (n1 ++ n2) = (talks k a n1 + talks k a n2)%nat.
Proof. unfold talks. by rewrite list.filter_app, length_app. Qed.

Lemma talks_cons k a q n : talks k a (q :: n) = ((if decide (talk k a q) then 1 else 0) + talks k a n)%nat.
Proof. unfold talks. rewrite filter_cons. by destruct (decide _). Qed.

(** Only requests are added. *)
Definition requests_only (ps : list (packet V)) : Prop := forall a k r, ToProcess a k r ∉ ps.

Lemma in_requests L ps a k r : requests_only ps -> ToProcess a k r ∈ L ++ ps -> ToProcess a k r ∈ L.
Proof. intros Hps [?|H]%elem_of_app; [done|]. by apply Hps in H. Qed.

Lemma voted_app L ps a d b x : voted L a d b x -> voted (L ++ ps) a d b x.
Proof. intros [k Hk]. exists k. apply elem_of_app. by left. Qed.

Lemma voted_requests L ps a d b x : requests_only ps -> (voted (L ++ ps) a d b x <-> voted L a d b x).
Proof. intros Hps. split; [|apply voted_app]. intros [k Hk]. exists k. by eapply in_requests. Qed.

Lemma commanded_app L ps d b x : commanded L d b x -> commanded (L ++ ps) d b x.
Proof. intros (a & k & H). exists a, k. apply elem_of_app. by left. Qed.

Lemma commanded_app_inv L ps d b x :
  commanded (L ++ ps) d b x -> commanded L d b x \/ exists a k, ToAcceptor a (Syn d b k x) ∈ ps.
Proof. intros (a & k & [H|H]%elem_of_app); [left|right]; by exists a, k. Qed.

Lemma chosen_app L ps d x : chosen L d x -> chosen (L ++ ps) d x.
Proof. intros (b & Q & HQ & H). exists b, Q. split; [done|]. intros a Ha. by apply voted_app, H. Qed.

Lemma broadcast_requests (r : request V) : requests_only (broadcast acceptors r).
Proof. intros a k q H. apply list_elem_of_fmap in H as (? & [=] & _). Qed.

Lemma elem_of_broadcast a (q r : request V) : ToAcceptor a q ∈ broadcast acceptors r <-> q = r /\ a ∈ acceptors.
Proof.
  unfold broadcast. rewrite list_elem_of_fmap. split; [by intros (? & [= -> ->] & ?)|].
  intros [-> ?]. by exists a.
Qed.

Lemma talks_broadcast k a (r : request V) :
  talks k a (broadcast acceptors r) = if decide (reply_to r = Some k /\ a ∈ acceptors) then 1%nat else 0%nat.
Proof using nodup.
  unfold broadcast. pose proof nodup as H. clear nodup nonempty.
  induction H as [|a' l Ha' Hl IH]; [by rewrite decide_False by (rewrite elem_of_nil; tauto)|].
  cbn [fmap list_fmap]. rewrite talks_cons, IH. cbn [talk].
  repeat case_decide; rewrite elem_of_cons in *; try lia; destruct_and?; naive_solver.
Qed.

(** ** Adding requests *)

(** [ps] has the request [r] to some acceptors, answered to children that are
    new at [nxt]. *)
Definition requests_of (r : request V) (nxt nxt' : Z) (ps : list (packet V)) : Prop :=
  forall q, q ∈ ps -> exists a, q = ToAcceptor a r /\
    forall k, reply_to r = Some k -> nxt <= k < nxt' /\ a ∈ acceptors.

Lemma requests_of_only r nxt nxt' ps : requests_of r nxt nxt' ps -> requests_only ps.
Proof. intros H a k q Hin. by destruct (H _ Hin) as (? & [=] & _). Qed.

Lemma requests_of_broadcast r nxt : reply_to r = Some nxt -> requests_of r nxt (nxt + 1) (broadcast acceptors r).
Proof. intros Hr q (a & -> & Ha)%list_elem_of_fmap. exists a. split; [done|]. intros k Hk. simplify_eq. split; [lia|done]. Qed.

Lemma log_requests L nxt nxt' ps r :
  log_ok L nxt -> nxt <= nxt' -> requests_of r nxt nxt' ps -> ordinary r -> log_ok (L ++ ps) nxt'.
Proof.
  intros [Hreq Huni Hrep] Hle Hps Hord.
  assert (Hnew : forall a q, ToAcceptor a q ∈ ps -> q = r /\ forall k, reply_to q = Some k -> nxt <= k < nxt' /\ a ∈ acceptors).
  { intros a q Hin. by destruct (Hps _ Hin) as (? & [= <- ->] & ?). }
  constructor.
  - intros a q [H|H]%elem_of_app.
    + destruct (Hreq _ _ H) as [? Hk]. split; [done|]. intros k Hk'. destruct (Hk k Hk'). split; [lia|done].
    + destruct (Hnew _ _ H) as [-> Hk]. split; [done|]. intros k Hk'. destruct (Hk k Hk'). split; [lia|done].
  - assert (Hx : forall a a' q q' k, ToAcceptor a q ∈ L -> ToAcceptor a' q' ∈ ps -> reply_to q = Some k ->
      reply_to q' = Some k -> False).
    { intros a a' q q' k H H' Hk Hk'. destruct (Hreq _ _ H) as [_ Hb]. destruct (Hb k Hk).
      destruct (Hnew _ _ H') as [_ Hb']. destruct (Hb' k Hk'). lia. }
    intros a a' q q' k [H|H]%elem_of_app [H'|H']%elem_of_app Hk Hk'.
    + by eapply Huni. + by destruct (Hx _ _ _ _ _ H H' Hk Hk'). + by destruct (Hx _ _ _ _ _ H' H Hk' Hk).
    + destruct (Hnew _ _ H) as [-> _]. by destruct (Hnew _ _ H') as [-> _].
  - intros a k q H. apply in_requests in H; [|by eapply requests_of_only]. destruct (Hrep _ _ _ H) as (q' & ? & ?).
    exists q'. split; [apply elem_of_app; by left|done].
Qed.

Lemma acc_requests L nxt accs ps :
  log_ok L nxt -> acc_ok L accs -> requests_only ps ->
  (forall a q k, ToAcceptor a q ∈ ps -> reply_to q = Some k -> nxt <= k) -> acc_ok (L ++ ps) accs.
Proof.
  intros [Hreq _ Hrep] [Hk Hc Hst Hp] Hro Hfresh. constructor.
  - intros a k r H. apply in_requests in H; [|done]. by eapply Hk.
  - intros a st k r b Ha H Hb. apply in_requests in H; [|done]. by eapply Hc.
  - intros a st Ha d Hd. specialize (Hst a st Ha d Hd). destruct (decrees st !! d) as [[b x]|].
    + destruct Hst as [Hv Hm]. split; [by apply voted_app|]. intros b' x' H. apply voted_requests in H; [|done]. by eapply Hm.
    + intros b x H. apply voted_requests in H; [|done]. by eapply Hst.
  - intros a k d b self acks H Hq. apply in_requests in H; [|done].
    apply elem_of_app in Hq as [Hq|Hq].
    + destruct (Hp _ _ _ _ _ _ H Hq) as [H1 H2]. split.
      * intros v Hv. destruct (H1 v Hv). split; [done|by apply voted_app].
      * intros c y Hv Hlt. apply voted_requests in Hv; [|done]. by eapply H2.
    + destruct (Hrep _ _ _ H) as (q & Hq' & Hk' & _). destruct (Hreq _ _ Hq') as [_ Hb].
      destruct (Hb k Hk'). specialize (Hfresh _ _ k Hq eq_refl). lia.
Qed.

Lemma safe_requests L accs ps d b x :
  requests_only ps -> safe_at L accs d b x -> safe_at (L ++ ps) accs d b x.
Proof.
  intros Hro H c Hc. destruct (H c Hc) as (Q & HQ & HA). exists Q. split; [done|]. intros a Ha.
  destruct (HA a Ha) as [Hv Hst]. split; [|done]. intros y Hy. apply voted_requests in Hy; [|done]. by apply Hv.
Qed.

(** ** Calls *)

(** Messages of others do not disturb a call. *)
Lemma phase_app L ps d p :
  phase_ok L d p ->
  (forall a q k, ToAcceptor a q ∈ ps -> reply_to q = Some k -> child p <> Some k) ->
  (forall a c k y, ToAcceptor a (Syn d c k y) ∈ ps -> ballotProcessId c <> ballotProcessId (pr_ballot p)) ->
  phase_ok (L ++ ps) d p.
Proof.
  intros Hp Hk Hc. unfold phase_ok, child in *.
  assert (Hown : forall P, own L d (pr_ballot p) P -> own (L ++ ps) d (pr_ballot p) P).
  { intros P H c y [Hy|(a & k & Hy)]%commanded_app_inv Hpr; [by apply H|]. by apply Hc in Hy. }
  assert (Hasks : forall k q, Some k = child p -> asks L k q -> asks (L ++ ps) k q).
  { intros k q Hch H a r [Hr|Hr]%elem_of_app Hrk; [by eapply H|].
    unfold child in Hch. by apply (Hk _ _ k Hr) in Hrk. }
  unfold child in Hasks. destruct (pr_phase p) as [k resps|k x' resps|x|]; [| | |done].
  - destruct Hp as (? & ? & ? & Hr). split; [by apply Hown|]. split; [by apply Hasks|]. split; [done|].
    intros a acks Ha. destruct (Hr a acks Ha) as [self ?]. exists self. apply elem_of_app. by left.
  - destruct Hp as (? & ? & ? & ? & Hr). split; [by apply Hown|]. split; [by apply Hasks|].
    split; [by apply commanded_app|]. split; [done|]. intros a Ha. apply elem_of_app. left. by apply Hr.
  - by apply chosen_app.
Qed.

(** A call becomes [p'] and its new child sends [r] to every acceptor. *)
Definition launch (i : Z * DecreeId) (p' : proposal V) (r : request V) s : sys V :=
  fork (send (broadcast acceptors r) (set_prop i p' s)).

Section Launch.
Context (s : sys V) (self : Z) (d : DecreeId) (p' : proposal V) (r : request V).
Hypothesis Hinv : inv s.
Hypothesis Hchild : child p' = Some (next s).
Hypothesis Hcounted : counted p' = [].
Hypothesis Hreply : reply_to r = Some (next s).
Hypothesis Hprocess : ballotProcessId (pr_ballot p') = self.
Hypothesis Hsyn : forall d' c k y, r = Syn d' c k y -> d' = d /\ c = pr_ballot p'.

Lemma launch_ordinary : ordinary r.
Proof using Hreply. clear -Hreply. by destruct r. Qed.

Lemma launch_log : log_ok (log s ++ broadcast acceptors r) (next s + 1).
Proof using Hinv Hreply.
  apply (log_requests _ (next s) _ _ r); [apply Hinv|lia|by apply requests_of_broadcast|].
  apply launch_ordinary.
Qed.

Lemma launch_fresh a q k :
  ToAcceptor a q ∈ broadcast acceptors r -> reply_to q = Some k -> k = next s.
Proof using Hreply. intros [-> _]%elem_of_broadcast Hk. congruence. Qed.

Lemma launch_accs : acc_ok (log s ++ broadcast acceptors r) (accs s).
Proof using Hinv Hreply.
  eapply acc_requests; [apply Hinv|apply Hinv|apply broadcast_requests|].
  intros a q k H Hk. by rewrite (launch_fresh _ _ _ H Hk).
Qed.

Lemma launch_props :
  phase_ok (log s ++ broadcast acceptors r) d p' ->
  prop_ok (log s ++ broadcast acceptors r) (<[(self, d) := p']> (props s)) (next s + 1).
Proof using Hinv Hchild Hreply Hprocess Hsyn.
  intros Hph. destruct (inv_props _ Hinv) as [Hsome Hnone Hch Hchs].
  assert (Hnew : forall a d' c k y, ToAcceptor a (Syn d' c k y) ∈ broadcast acceptors r ->
    d' = d /\ ballotProcessId c = self).
  { intros a d' c k y [Hr _]%elem_of_broadcast. destruct (Hsyn _ _ _ _ (eq_sym Hr)) as [-> ->]. done. }
  constructor.
  - intros self' d' p [[[= <- <-] <-]|[Hne Hp]]%lookup_insert_Some; [done|].
    destruct (Hsome _ _ _ Hp) as [Hself Hpok]. split; [done|]. apply phase_app; [done| |].
    + intros a q k H Hk. rewrite (launch_fresh _ _ _ H Hk). intros Hck. apply (Hch _ _ _ Hp) in Hck. lia.
    + intros a c k y H Heq. destruct (Hnew _ _ _ _ _ H) as [-> Hc]. apply Hne. congruence.
  - intros self' d' b x [Hn Hne]%lookup_insert_None [Hc|(a & k & H)]%commanded_app_inv; [by eapply Hnone|].
    destruct (Hnew _ _ _ _ _ H) as [-> Hc]. intros <-. apply Hne. congruence.
  - intros i p k [[<- <-]|[_ Hp]]%lookup_insert_Some Hk; [rewrite Hchild in Hk; simplify_eq; lia|].
    apply (Hch _ _ _ Hp) in Hk. lia.
  - intros i i' p p1 k [[<- <-]|[Hne Hp]]%lookup_insert_Some [[<- <-]|[Hne' Hp']]%lookup_insert_Some Hk Hk'; [done| | |].
    + rewrite Hchild in Hk. simplify_eq. apply (Hch _ _ _ Hp') in Hk'. lia.
    + rewrite Hchild in Hk'. simplify_eq. apply (Hch _ _ _ Hp) in Hk. lia.
    + by eapply Hchs.
Qed.

Lemma launch_net :
  net_ok (net s ++ broadcast acceptors r) (log s ++ broadcast acceptors r)
    (<[(self, d) := p']> (props s)) (next s + 1).
Proof using nodup Hinv Hchild Hcounted Hreply.
  destruct (inv_net _ Hinv) as [Hl Ho Hf Hc]. constructor.
  - intros q [?|?]%elem_of_app; apply elem_of_app; [left; by apply Hl|by right].
  - intros k a. rewrite talks_app, talks_broadcast. specialize (Ho k a).
    destruct (decide _) as [[Hk _]|]; [|lia]. rewrite Hreply in Hk. simplify_eq. rewrite Hf by lia. lia.
  - intros k a Hk. rewrite talks_app, talks_broadcast, Hf, decide_False by (lia || intros [? _]; simplify_eq; lia). lia.
  - intros i p k a [[<- <-]|[_ Hp]]%lookup_insert_Some Hk Ha.
    { rewrite Hcounted in Ha. by apply elem_of_nil in Ha. }
    rewrite talks_app, (Hc i p k a Hp Hk Ha), talks_broadcast.
    rewrite decide_False; [done|]. intros [Hr _]. rewrite Hreply in Hr. simplify_eq.
    apply (po_child _ _ _ (inv_props _ Hinv) _ _ _ Hp) in Hk. lia.
Qed.

Lemma launch_inv :
  phase_ok (log s ++ broadcast acceptors r) d p' ->
  (forall d' c k y, r = Syn d' c k y -> safe_at (log s) (accs s) d' c y /\
     forall z, commanded (log s) d' c z -> z = y) ->
  inv (launch (self, d) p' r s).
Proof using nodup Hinv Hchild Hcounted Hreply Hprocess Hsyn.
  intros Hph Hsafe.
  assert (Hnew : forall d' c y, commanded (log s ++ broadcast acceptors r) d' c y ->
    commanded (log s) d' c y \/ exists k, r = Syn d' c k y).
  { intros d' c y [?|(a & k & [Hr _]%elem_of_broadcast)]%commanded_app_inv; [by left|right; eauto]. }
  constructor; cbn [launch fork send set_prop accs props net log next].
  - apply launch_log.
  - apply launch_accs.
  - by apply launch_props.
  - apply launch_net.
  - intros d' c x y [Hx|[k Hx]]%Hnew [Hy|[k' Hy]]%Hnew.
    + by eapply inv_unique. + by eapply Hsafe. + symmetry. by eapply Hsafe. + congruence.
  - intros d' c x Hx. apply safe_requests; [apply broadcast_requests|].
    apply Hnew in Hx as [Hx|[k Hx]]; [by apply Hinv|by eapply Hsafe].
Qed.
End Launch.

(** No request has yet asked for an answer to the next child. *)
Lemma asks_fresh s (r : request V) :
  inv s -> reply_to r = Some (next s) -> asks (log s ++ broadcast acceptors r) (next s) r.
Proof.
  intros Hinv Hr a q [H|[-> _]%elem_of_broadcast]%elem_of_app Hk; [|done].
  destruct (lo_request _ _ (inv_log _ Hinv) _ _ H) as [_ Hb]. destruct (Hb _ Hk). lia.
Qed.

Lemma inv_scout s self d x b :
  inv s -> ballotProcessId b = self -> own (log s) d b (fun c _ => lt c b) -> inv (scout acceptors (self, d) x b s).
Proof using nodup.
  intros Hinv Hself Hown. apply (launch_inv s self d (Proposal x b (Scouting (next s) []))); try done.
  split; cbn [pr_ballot]; [|split; [by apply asks_fresh|split; [constructor|by intros ? ? ?%elem_of_nil]]].
  intros c y [Hc|(a & k & [[=] _]%elem_of_broadcast)]%commanded_app_inv Hp. by eapply Hown.
Qed.

Lemma inv_command s self d x b x' :
  inv s -> ballotProcessId b = self -> own (log s) d b (fun c y => lt c b \/ (c = b /\ y = x')) ->
  safe_at (log s) (accs s) d b x' -> inv (command acceptors (self, d) x b x' s).
Proof using nodup nonempty.
  intros Hinv Hself Hown Hsafe.
  apply (launch_inv s self d (Proposal x b (Commanding (next s) x' []))); try done.
  - by intros d' c k y [= <- <- <- <-].
  - split; cbn [pr_ballot]; [|split; [by apply asks_fresh|split; [|split; [constructor|by intros ? ?%elem_of_nil]]]].
    + intros c y [Hc|(a & k & [[= -> -> ->] _]%elem_of_broadcast)]%commanded_app_inv Hp; [by apply Hown|by right].
    + destruct acceptors as [|a l]; [done|]. exists a, (next s). apply elem_of_app. right. by left.
  - intros d' c k y [= <- <- <- <-]. split; [done|]. intros z Hz.
    destruct (Hown b z Hz eq_refl) as [Hlt|[_ ->]]; [by apply lt_irrefl in Hlt|done].
Qed.

(** ** Other steps of a call *)

(** A packet less on the network. *)
Lemma sys_inv_lose s n1 q n2 : inv s -> net s = n1 ++ q :: n2 -> inv (with_net (n1 ++ n2) s).
Proof.
  intros [Hl Ha Hp [Hn Ho Hf Hc] Hu Hs] Hnet. constructor; [done..| |done|done].
  assert (Hle : forall k a, (talks k a (n1 ++ n2) <= talks k a (net s))%nat).
  { intros k a. rewrite Hnet, !talks_app, talks_cons. lia. }
  constructor; cbn [with_net net log props next].
  - intros p Hp'. apply Hn. rewrite Hnet. decompose_list_elem_of; set_solver.
  - intros k a. specialize (Ho k a). specialize (Hle k a). lia.
  - intros k a Hk. specialize (Hf k a Hk). specialize (Hle k a). lia.
  - intros i p k a H1 H2 H3. specialize (Hc i p k a H1 H2 H3). specialize (Hle k a). lia.
Qed.

(** The conversation of a packet that is taken off the network is over, and had
    not been counted. *)
Lemma lose_talks s n1 q n2 k a :
  inv s -> net s = n1 ++ q :: n2 -> talk k a q ->
  talks k a (n1 ++ n2) = 0%nat /\
  forall i p, props s !! i = Some p -> child p = Some k -> a ∉ counted p.
Proof.
  intros Hinv Hnet Hq. destruct (inv_net _ Hinv) as [_ Ho _ Hc].
  assert (Ht : talks k a (net s) = S (talks k a (n1 ++ n2))).
  { rewrite Hnet, !talks_app, talks_cons, decide_True by done. lia. }
  split; [specialize (Ho k a); lia|]. intros i p Hp Hk Ha. specialize (Hc i p k a Hp Hk Ha). lia.
Qed.

Lemma inv_become s self d p ph :
  let p' := Proposal (pr_value p) (pr_ballot p) ph in
  inv s -> props s !! (self, d) = Some p -> (child p' = child p \/ child p' = None) ->
  phase_ok (log s) d p' ->
  (forall k a, child p' = Some k -> a ∈ counted p' -> talks k a (net s) = 0%nat) ->
  inv (set_prop (self, d) p' s).
Proof.
  intros p' [Hl Ha [Hsome Hnone Hch Hchs] [Hn Ho Hf Hc] Hu Hs] Hp Hkid Hph Hcnt.
  assert (Hold : forall k, child p' = Some k -> child p = Some k) by (intros k; destruct Hkid; congruence).
  constructor; cbn [set_prop accs props net log next]; [done..| | |done|done]; constructor; try done.
  - intros self' d' p1 [[[= <- <-] <-]|[_ H]]%lookup_insert_Some; [|by apply Hsome].
    split; [|done]. by destruct (Hsome _ _ _ Hp).
  - intros self' d' b x [H _]%lookup_insert_None. by apply Hnone.
  - intros i p1 k [[<- <-]|[_ H]]%lookup_insert_Some Hk; [by eapply Hch; [|apply Hold]|by eapply Hch].
  - intros i i' p1 p2 k [[<- <-]|[_ H]]%lookup_insert_Some [[<- <-]|[_ H']]%lookup_insert_Some Hk Hk';
      [done|eapply (Hchs _ _ p p2 k); auto|eapply (Hchs _ _ p1 p k); auto|by eapply Hchs].
  - intros i p1 k a [[<- <-]|[_ H]]%lookup_insert_Some Hk Hin; [by apply Hcnt|by eapply Hc].
Qed.

(** ** Answers to a call *)

Lemma voted_commanded s a d b x : inv s -> voted (log s) a d b x -> commanded (log s) d b x.
Proof.
  intros Hinv [k Hk]. destruct (lo_reply _ _ (inv_log _ Hinv) _ _ _ Hk) as (q & Hq & _ & Ha).
  simpl in Ha. subst q. by exists a, k.
Qed.

(** The answer an acceptor gave to a child, and the request it answers. *)
Lemma asked s a k r q :
  inv s -> ToProcess a k r ∈ log s -> asks (log s) k q ->
  ToAcceptor a q ∈ log s /\ answer_to k q r /\ a ∈ acceptors.
Proof.
  intros Hinv Hr Hq. destruct (lo_reply _ _ (inv_log _ Hinv) _ _ _ Hr) as (q' & Hin & Hk & Ha).
  pose proof (Hq _ _ Hin Hk) as ->. split; [done|]. split; [done|].
  destruct (lo_request _ _ (inv_log _ Hinv) _ _ Hin) as [_ Hb]. by apply (Hb k Hk).
Qed.

Section Scouted.
Context (s : sys V) (d : DecreeId) (b : BallotId) (k : Z) (resps : list (Z * list (Ack V))).
Hypothesis Hinv : inv s.
Hypothesis Hasks : asks (log s) k (Prepare d b k).
Hypothesis Hnodup : NoDup resps.*1.
Hypothesis Hresps : forall a acks, (a, acks) ∈ resps -> exists self, ToProcess a k (Promise b self acks) ∈ log s.
Hypothesis Hquorum : length resps = quorum acceptors.

Lemma scouted_quorum : is_quorum resps.*1.
Proof using Hinv Hasks Hnodup Hresps Hquorum.
  split; [done|]. split; [|rewrite length_fmap; lia].
  intros a ([a' acks] & -> & Hin)%list_elem_of_fmap. destruct (Hresps _ _ Hin) as [self Hp].
  by destruct (asked _ _ _ _ _ Hinv Hp Hasks) as (_ & _ & ?).
Qed.

(** The promise of a member: it has told all its votes below [b], and takes no
    more. *)
Lemma scouted_member a acks :
  (a, acks) ∈ resps ->
  (forall v, v ∈ acks -> decree v = d /\ voted (log s) a d (ballot v) (value v)) /\
  (forall c y, voted (log s) a d c y -> lt c b -> exists v, v ∈ acks /\ le c (ballot v)) /\
  exists st b', accs s !! a = Some st /\ promised st = Some b' /\ le b b'.
Proof using Hinv Hasks Hresps.
  intros Hin. destruct (Hresps _ _ Hin) as [self Hp].
  destruct (asked _ _ _ _ _ Hinv Hp Hasks) as (Hq & _ & _).
  destruct (ao_promise _ _ (inv_accs _ Hinv) _ _ _ _ _ _ Hp Hq) as [H1 H2]. split; [done|]. split; [done|].
  destruct (ao_known _ _ (inv_accs _ Hinv) _ _ _ Hp) as [st Hst]. exists st.
  pose proof (ao_commits _ _ (inv_accs _ Hinv) _ _ _ _ b Hst Hp eq_refl) as Hb. simpl in Hb.
  destruct (promised st) as [b'|]; [|done]. eauto.
Qed.

Lemma scouted_vote a acks v : (a, acks) ∈ resps -> v ∈ acks -> v ∈ resps ≫= snd.
Proof. intros Hin Hv. apply list_elem_of_bind. by exists (a, acks). Qed.

(** B3: the value that is proposed is safe. *)
Lemma scouted_safe x : safe_at (log s) (accs s) d b (default x (chooseValue d (resps ≫= snd))).
Proof using Hinv Hasks Hnodup Hresps Hquorum.
  pose proof (chooseValue_spec d (resps ≫= snd)) as Hch. intros c Hc.
  assert (HQ : (forall a acks y, (a, acks) ∈ resps -> voted (log s) a d c y ->
      y = default x (chooseValue d (resps ≫= snd))) ->
    exists Q, is_quorum Q /\ forall a, a ∈ Q ->
      (forall y, voted (log s) a d c y -> y = default x (chooseValue d (resps ≫= snd))) /\
      exists st b', accs s !! a = Some st /\ promised st = Some b' /\ lt c b').
  { intros Hv. exists resps.*1. split; [apply scouted_quorum|].
    intros a ([a' acks] & -> & Hin)%list_elem_of_fmap. split; [intros y; by eapply Hv|].
    destruct (scouted_member _ _ Hin) as (_ & _ & st & b' & ? & ? & ?). exists st, b'. split; [done|].
    split; [done|]. by eapply lt_le_trans. }
  destruct (chooseValue d (resps ≫= snd)) as [x0|]; cbn [default] in *.
  - destruct Hch as (v0 & Hv0 & Hd & Hval & Hmax).
    apply list_elem_of_bind in Hv0 as ([a0 acks0] & Hv0 & Hin0).
    destruct (scouted_member _ _ Hin0) as (Ht0 & _). destruct (Ht0 v0 Hv0) as [_ Hvote0].
    pose proof (voted_commanded _ _ _ _ _ Hinv Hvote0) as Hcmd0. rewrite Hval in Hcmd0.
    destruct (le_or_lt (ballot v0) c) as [Hle|Hlt]; [|by apply (inv_safe _ Hinv _ _ _ Hcmd0)].
    apply HQ. intros a acks y Hin Hy. destruct (scouted_member _ _ Hin) as (Ht & Hall & _).
    destruct (Hall c y Hy Hc) as (v & Hv & Hcv). destruct (Ht v Hv) as [Hdv _].
    pose proof (Hmax v (scouted_vote _ _ _ Hin Hv) Hdv) as Hvm.
    pose proof (le_antisym _ _ Hle (le_trans _ _ _ Hcv Hvm)) as <-.
    eapply (inv_unique _ Hinv); [by eapply voted_commanded|done].
  - apply HQ. intros a acks y Hin Hy. destruct (scouted_member _ _ Hin) as (Ht & Hall & _).
    destruct (Hall c y Hy Hc) as (v & Hv & _). destruct (Ht v Hv) as [Hdv _].
    by destruct (Hch v (scouted_vote _ _ _ Hin Hv)).
Qed.
End Scouted.

(** A call has the answer [r] of [src], which is off the network. *)
Section Reply.
Context (s : sys V) (self : Z) (d : DecreeId) (p : proposal V) (src k : Z) (r : reply V) (t : todo (V := V)).
Hypothesis Hinv : inv s.
Hypothesis Hp : props s !! (self, d) = Some p.
Hypothesis Hkid : child p = Some k.
Hypothesis Hlog : ToProcess src k r ∈ log s.
Hypothesis Hover : talks k src (net s) = 0%nat.
Hypothesis Hnew : src ∉ counted p.
Hypothesis Ht : on_reply acceptors d p src r = Some t.

Lemma reply_counted k' a :
  child p = Some k' -> a ∈ src :: counted p -> talks k' a (net s) = 0%nat.
Proof using Hinv Hp Hkid Hover.
  intros Hk' [->|Ha]%elem_of_cons; [congruence|]. by eapply (no_counted _ _ _ _ (inv_net _ Hinv)).
Qed.

Lemma reply_scouting resps :
  pr_phase p = Scouting k resps -> inv (perform acceptors (self, d) p t s).
Proof using nodup nonempty Hinv Hp Hkid Hlog Hover Hnew Ht.
  intros Hph. destruct (po_some _ _ _ (inv_props _ Hinv) _ _ _ Hp) as [Hself Hok].
  unfold phase_ok in Hok. rewrite Hph in Hok. destruct Hok as (Hown & Hasks & Hnd & Hresps).
  destruct (asked _ _ _ _ _ Hinv Hlog Hasks) as (_ & Hans & _).
  unfold on_reply in Ht. rewrite Hph in Ht. destruct r as [b1 self1 acks|b1|v|nm|acks]; try done; simpl in Hans.
  - destruct Hans as [d1 [= <- <-]].
    assert (Hnd' : NoDup ((src, acks) :: resps).*1).
    { constructor; [|done]. unfold counted in Hnew. by rewrite Hph in Hnew. }
    assert (Hresps' : forall a acks', (a, acks') ∈ (src, acks) :: resps ->
      exists self', ToProcess a k (Promise (pr_ballot p) self' acks') ∈ log s).
    { intros a acks' [[= -> ->]|Hin]%elem_of_cons; [by exists self1|by apply Hresps]. }
    injection Ht as <-. destruct (decide _) as [Hq|_].
    + apply inv_command; [done..| |exact (scouted_safe _ _ _ _ _ Hinv Hasks Hnd' Hresps' Hq (pr_value p))].
      intros c y Hc Hpid. left. by eapply Hown.
    + apply inv_become; try done; [left; unfold child; by rewrite Hph|].
      intros k' a Hk' Ha. apply reply_counted; [unfold child; by rewrite Hph|].
      unfold counted. by rewrite Hph.
  - injection Ht as <-. rewrite decide_True by done. unfold nextBallotId, succ. simpl.
    destruct (_ =? maxInt); simpl.
    + apply inv_become; try done. by right.
    + apply inv_scout; [done..|]. intros c y Hc Hpid. eapply lt_le_trans; [by eapply Hown|].
      unfold lt, le in *. simpl in *. lia.
Qed.

Lemma reply_commanding x' resps :
  pr_phase p = Commanding k x' resps -> reuses p r = false -> inv (perform acceptors (self, d) p t s).
Proof using nodup Hinv Hp Hkid Hlog Hover Hnew Ht.
  intros Hph Hreuse. destruct (po_some _ _ _ (inv_props _ Hinv) _ _ _ Hp) as [Hself Hok].
  unfold phase_ok in Hok. rewrite Hph in Hok. destruct Hok as (Hown & Hasks & Hcmd & Hnd & Hresps).
  destruct (asked _ _ _ _ _ Hinv Hlog Hasks) as (_ & Hans & _).
  unfold on_reply in Ht. unfold reuses in Hreuse. rewrite Hph in Ht, Hreuse.
  destruct r as [b1 self1 acks|b1|[d1 b1 x1]|nm|acks]; try done; simpl in Hans; injection Ht as <-.
  - apply Z.eqb_neq in Hreuse. apply inv_scout; [done..|]. intros c y Hc Hpid.
    destruct (Hown c y Hc Hpid) as [Hlt|[-> _]]; unfold lt in *; simpl in *; lia.
  - injection Hans as <- <- <-.
    assert (Hnd' : NoDup (src :: resps)).
    { constructor; [|done]. unfold counted in Hnew. by rewrite Hph in Hnew. }
    assert (Hresps' : forall a, a ∈ src :: resps -> ToProcess a k (Acked (MkAck d (pr_ballot p) x')) ∈ log s).
    { intros a [->|Hin]%elem_of_cons; [done|by apply Hresps]. }
    destruct (decide _) as [Hq|_]; apply inv_become; try done; [by right| |left; unfold child; by rewrite Hph|].
    + exists (pr_ballot p), (src :: resps). split; [|intros a Ha; exists k; by apply Hresps'].
      split; [done|]. split; [|by rewrite <- Hq]. intros a Ha. by destruct (asked _ _ _ _ _ Hinv (Hresps' a Ha) Hasks) as (_ & _ & ?).
    + intros k' a Hk' Ha. apply reply_counted; [unfold child; by rewrite Hph|].
      unfold counted. by rewrite Hph.
Qed.
End Reply.

Lemma sys_inv_reply s self d p src k r t n1 n2 :
  inv s -> net s = n1 ++ ToProcess src k r :: n2 -> props s !! (self, d) = Some p -> child p = Some k ->
  on_reply acceptors d p src r = Some t -> reuses p r = false ->
  inv (perform acceptors (self, d) p t (with_net (n1 ++ n2) s)).
Proof using nodup nonempty.
  intros Hinv Hnet Hp Hkid Ht Hreuse. pose proof (sys_inv_lose _ _ _ _ Hinv Hnet) as Hinv'.
  destruct (lose_talks _ _ _ _ k src Hinv Hnet (conj eq_refl eq_refl)) as [Hover Hnew].
  specialize (Hnew _ _ Hp Hkid).
  assert (Hlog : ToProcess src k r ∈ log s).
  { apply (no_log _ _ _ _ (inv_net _ Hinv)). rewrite Hnet. apply elem_of_app. right. by left. }
  pose proof Hkid as Hk. unfold child in Hk. destruct (pr_phase p) as [k0 resps|k0 x' resps| |] eqn:Hph; try done.
  - injection Hk as ->. by eapply reply_scouting.
  - injection Hk as ->. by eapply reply_commanding.
Qed.

Lemma inv_timeout s self d p t :
  inv s -> props s !! (self, d) = Some p -> again p = Some t -> inv (perform acceptors (self, d) p t s).
Proof using nodup nonempty.
  intros Hinv Hp Ht. destruct (po_some _ _ _ (inv_props _ Hinv) _ _ _ Hp) as [Hself Hok].
  unfold again in Ht. unfold phase_ok in Hok. destruct (pr_phase p); try done; injection Ht as <-.
  - apply inv_scout; [done..|]. apply Hok.
  - apply inv_command; [done..|apply Hok|]. apply (inv_safe _ Hinv), Hok.
Qed.

Lemma inv_propose s self d x :
  inv s -> props s !! (self, d) = None -> inv (scout acceptors (self, d) x (Ballot 0 self) s).
Proof using nodup.
  intros Hinv Hp. apply inv_scout; [done..|]. intros c y Hc Hpid.
  by destruct (po_none _ _ _ (inv_props _ Hinv) _ _ _ _ Hp Hc).
Qed.

(** ** Requests of no call *)

Definition no_syn (r : request V) : Prop := match r with Syn _ _ _ _ => False | _ => True end.

Lemma inv_extra s ps r nxt' :
  inv s -> next s <= nxt' -> requests_of r (next s) nxt' ps -> ordinary r -> no_syn r ->
  (forall k a, (talks k a ps <= 1)%nat) -> (forall k a, k < next s \/ nxt' <= k -> talks k a ps = 0%nat) ->
  inv (Sys (accs s) (props s) (net s ++ ps) (log s ++ ps) nxt').
Proof.
  intros Hinv Hle Hps Hord Hns Hone Hzero. pose proof (requests_of_only _ _ _ _ Hps) as Hro.
  assert (Hcmd : forall d b x, commanded (log s ++ ps) d b x -> commanded (log s) d b x).
  { intros d b x [?|(a & k & H)]%commanded_app_inv; [done|]. by destruct (Hps _ H) as (? & [= <- <-] & _). }
  assert (Hfresh : forall a q k, ToAcceptor a q ∈ ps -> reply_to q = Some k -> next s <= k).
  { intros a q k H Hk. destruct (Hps _ H) as (? & [= <- <-] & Hb). destruct (Hb k Hk). lia. }
  destruct Hinv as [Hl Ha [Hsome Hnone Hch Hchs] [Hn Ho Hf Hc] Hu Hs].
  constructor; cbn [accs props net log next].
  - by eapply log_requests.
  - by eapply acc_requests.
  - constructor.
    + intros self d p Hp. destruct (Hsome _ _ _ Hp) as [Hself Hok]. split; [done|]. apply phase_app; [done| |].
      * intros a q k H Hk Hck. apply (Hch _ _ _ Hp) in Hck. specialize (Hfresh _ _ _ H Hk). lia.
      * intros a c k y H. by destruct (Hps _ H) as (? & [= <- <-] & _).
    + intros self d b x Hp ?%Hcmd. by eapply Hnone.
    + intros i p k Hp Hk. specialize (Hch _ _ _ Hp Hk). lia.
    + done.
  - constructor.
    + intros q [?|?]%elem_of_app; apply elem_of_app; [left; by apply Hn|by right].
    + intros k a. rewrite talks_app. specialize (Ho k a). specialize (Hone k a).
      destruct (decide (k < next s)); [rewrite (Hzero k a) by lia; lia|rewrite Hf by lia; lia].
    + intros k a Hk. rewrite talks_app, Hf, Hzero by lia. lia.
    + intros i p k a Hp Hk Hin. rewrite talks_app, (Hc _ _ _ _ Hp Hk Hin), Hzero; [done|].
      left. by eapply Hch.
  - intros d b x y ?%Hcmd ?%Hcmd. by eapply Hu.
  - intros d b x ?%Hcmd. apply safe_requests; [done|]. by apply Hs.
Qed.

Lemma inv_release s a d : inv s -> inv (send [ToAcceptor a (Trim d)] s).
Proof.
  intros Hinv. apply (inv_extra s _ (Trim d)); try done.
  - by intros q ->%list_elem_of_singleton; exists a.
  - intros k a'. rewrite talks_cons, decide_False by (by intros [_ [=]]). cbn. lia.
  - intros k a' _. by rewrite talks_cons, decide_False by (by intros [_ [=]]).
Qed.

Lemma inv_query s d : inv s -> inv (fork (send (broadcast acceptors (QueryDecrees (next s) d)) s)).
Proof using nodup.
  intros Hinv. apply (inv_extra s _ (QueryDecrees (next s) d)); try done; [simpl; lia|by apply requests_of_broadcast| |].
  - intros k a. rewrite talks_broadcast. destruct (decide _); lia.
  - intros k a Hk. rewrite talks_broadcast, decide_False; [done|]. intros [[=] _]. simpl in Hk. lia.
Qed.

(** ** A turn of an acceptor *)

(** The outcomes of [handle] on the messages of the protocol. *)
Inductive turn (a : Z) (st st' : acceptor V) : request V -> list (packet V) -> Prop :=
| turn_quiet r ps :
    promised st' = promised st -> le (sd st) (sd st') ->
    (forall d, le (sd st') d -> decrees st' !! d = decrees st !! d) ->
    (ps = [] \/ exists k m, ps = [ToProcess a k m] /\ reply_to r = Some k /\ answer_to k r m /\
       forall b, ~ commits b (ToProcess a k m)) ->
    turn a st st' r ps
| turn_promise d b k :
    le (sd st) d -> below (promised st) b -> promised st' = Some b -> sd st' = sd st -> decrees st' = decrees st ->
    turn a st st' (Prepare d b k)
      [ToProcess a k (Promise b a (option_list ((fun v => MkAck d v.1 v.2) <$> decrees st !! d)))]
| turn_vote d b k x :
    below (promised st) b -> promised st' = Some b -> sd st' = sd st -> decrees st' = <[d := (b, x)]> (decrees st) ->
    turn a st st' (Syn d b k x) [ToProcess a k (Acked (MkAck d b x))].

Lemma not_below (b : Lifted BallotId) b' : ~ below b b' -> exists c, b = Some c /\ lt b' c.
Proof. destruct b as [c|]; [|by intros []]. simpl. intros Hn. exists c. split; [done|]. by apply lt_not_le. Qed.

Lemma handle_turn a st r st' ps : ordinary r -> handle a a st r = (st', ps) -> turn a st st' r ps.
Proof.
  intros Hord Hh. destruct r as [d b k|d b k x|d| | | | |k d]; try done; simpl in Hh.
  - destruct (decide (lt d (sd st))) as [|Hsd]; [simplify_eq; constructor; auto using le_refl|].
    assert (le (sd st) d) by (by destruct (le_or_lt (sd st) d)).
    destruct (decide (below (promised st) b)) as [Hb|Hb]; [simplify_eq; by constructor|].
    apply not_below in Hb as (c & Hc & Hlt). rewrite Hc in Hh. simplify_eq. constructor; auto using le_refl.
    right. exists k, (Nack c). simpl. auto.
  - destruct (decide (lt d (sd st))) as [|Hsd]; [simplify_eq; constructor; auto using le_refl|].
    destruct (decide (below (promised st) b)) as [Hb|Hb]; [simplify_eq; by constructor|].
    apply not_below in Hb as (c & Hc & Hlt). rewrite Hc in Hh. simplify_eq. constructor; auto using le_refl.
    right. exists k, (Nack c). simpl. auto.
  - simplify_eq. constructor; simpl; auto.
    + destruct (decide _) as [?%lt_le|_]; [done|apply le_refl].
    + intros d' Hd'. assert (le d d') as Hle.
      { destruct (decide (lt (sd st) d)) as [|Hn]; [done|].
        destruct (le_or_lt d (sd st)); [by eapply le_trans|done]. }
      unfold from. destruct (decrees st !! d') as [v|] eqn:Hv.
      * apply map_lookup_filter_Some. by split.
      * apply map_lookup_filter_None. by left.
  - simplify_eq. constructor; auto using le_refl. right. exists k. eexists. split; [done|]. simpl. eauto.
Qed.

Lemma turn_sd a st st' r ps : turn a st st' r ps -> le (sd st) (sd st').
Proof. intros [? ? _ H _ _|d b k _ _ _ -> _|d b k x _ _ -> _]; [done|apply le_refl..]. Qed.

Section Turn.
Context (s : sys V) (a : Z) (r : request V) (st st' : acceptor V) (ps : list (packet V)).
Hypothesis Hinv : inv s.
Hypothesis Hreq : ToAcceptor a r ∈ log s.
Hypothesis Hst : accs s !! a = Some st.
Hypothesis Hturn : turn a st st' r ps.

(** What is sent is one answer, if any. *)
Lemma turn_answer : ps = [] \/ exists k m, ps = [ToProcess a k m] /\ reply_to r = Some k /\ answer_to k r m.
Proof using Hturn.
  clear -Hturn. destruct Hturn as [r ps _ _ _ [->|(k & m & -> & ? & ? & _)]|d b k|d b k x]; [by left|right; by eauto| |];
    right; exists k; eexists; (split; [done|]); simpl; eauto.
Qed.

Lemma turn_old q : q ∈ log s ++ ps -> q ∈ log s \/ exists k m, q = ToProcess a k m /\ ps = [q] /\ reply_to r = Some k /\ answer_to k r m.
Proof using Hturn.
  intros [?|H]%elem_of_app; [by left|right].
  destruct turn_answer as [->|(k & m & -> & ? & ?)]; [by apply elem_of_nil in H|].
  apply list_elem_of_singleton in H as ->. eauto 6.
Qed.

Lemma turn_request a' q : ToAcceptor a' q ∈ log s ++ ps -> ToAcceptor a' q ∈ log s.
Proof using Hturn. by intros [?|(? & ? & [=] & _)]%turn_old. Qed.

Lemma turn_commanded d b x : commanded (log s ++ ps) d b x -> commanded (log s) d b x.
Proof using Hturn. intros (a' & k & ?%turn_request). by exists a', k. Qed.

Lemma turn_log : log_ok (log s ++ ps) (next s).
Proof using Hinv Hreq Hturn.
  destruct (inv_log _ Hinv) as [H1 H2 H3]. constructor.
  - intros a' q ?%turn_request. by apply H1.
  - intros a1 a2 q1 q2 k ?%turn_request ?%turn_request. by eapply H2.
  - intros a' k m [H|(k' & m' & [= -> -> ->] & _ & Hk & Hans)]%turn_old.
    + destruct (H3 _ _ _ H) as (q & ? & ?). exists q. split; [apply elem_of_app; by left|done].
    + exists r. split; [apply elem_of_app; by left|done].
Qed.

(** A new vote is in a ballot not below the promise. *)
Lemma turn_voted a' d b x :
  voted (log s ++ ps) a' d b x ->
  voted (log s) a' d b x \/
  (a' = a /\ below (promised st) b /\ exists k, ps = [ToProcess a k (Acked (MkAck d b x))]).
Proof using Hturn.
  intros [k [H|(k' & m' & [= -> -> <-] & Hps & Hk & Hans)]%turn_old]; [left; by exists k|right].
  split; [done|]. split; [|by exists k']. clear -Hturn Hps.
  destruct Hturn as [r ps _ _ _ [->|(k1 & m1 & -> & _ & _ & Hn)]|d' b' k1|d' b' k1 x']; try done.
  - injection Hps as [= -> ->]. by destruct (Hn b).
  - by injection Hps as [= <- <- <- <-].
Qed.

Lemma turn_promised : lifted_le (promised st) (promised st').
Proof using Hturn.
  clear -Hturn.
  destruct Hturn as [? ? -> _ _ _|d b k _ Hb -> _ _|d b k x Hb -> _ _]; [apply lifted_le_refl|by destruct (promised st)..].
Qed.

Lemma turn_commits b q : q ∈ ps -> commits b q -> promised st' = Some b.
Proof using Hturn.
  clear -Hturn. destruct Hturn as [? ps _ _ _ [->|(k & m & -> & _ & _ & Hn)]|d b' k _ _ Hb _ _|d b' k x _ Hb _ _].
  - by intros ?%elem_of_nil.
  - by intros ->%list_elem_of_singleton ?%Hn.
  - by intros ->%list_elem_of_singleton <-.
  - by intros ->%list_elem_of_singleton <-.
Qed.

Lemma turn_commits_below k m b b' :
  ToProcess a k m ∈ log s -> commits b (ToProcess a k m) -> below (promised st) b' -> le b b'.
Proof using Hinv Hst.
  intros Hk Hm Hb. pose proof (ao_commits _ _ (inv_accs _ Hinv) _ _ _ _ b Hst Hk Hm) as Hc.
  destruct (promised st); simpl in *; [|done]. by eapply le_trans.
Qed.

Lemma turn_store : store_ok (log s ++ ps) a st'.
Proof using Hinv Hst Hturn.
  pose proof (ao_store _ _ (inv_accs _ Hinv) _ _ Hst) as Hs. intros d Hd.
  pose proof (turn_voted a d) as Hnew.
  assert (Hold : forall b x b', voted (log s) a d b x -> below (promised st) b' -> le b b').
  { intros b x b' [k Hk] Hb. by apply (turn_commits_below k (Acked (MkAck d b x))). }
  assert (Hsame : le (sd st) d -> decrees st' !! d = decrees st !! d ->
    (forall b x, voted (log s ++ ps) a d b x -> voted (log s) a d b x) ->
    match decrees st' !! d with
    | None => forall b x, ~ voted (log s ++ ps) a d b x
    | Some (b, x) => voted (log s ++ ps) a d b x /\ forall b' x', voted (log s ++ ps) a d b' x' -> le b' b
    end).
  { intros Hle -> Hv. specialize (Hs d Hle). destruct (decrees st !! d) as [[b x]|].
    - destruct Hs as [? Hm]. split; [by apply voted_app|]. intros b' x' ?%Hv. by eapply Hm.
    - intros b x ?%Hv. by eapply Hs. }
  clear Hreq. destruct Hturn as [r1 ps1 _ Hsd Heq Hps|d' b k _ _ _ Hsd Heq|d' b k x Hb _ Hsd Heq].
  - apply Hsame; [by eapply le_trans|by apply Heq|].
    intros b x [?|(_ & _ & k & ->)]%Hnew; [done|].
    destruct Hps as [[=]|(k' & m' & [= <- <-] & _ & _ & Hn)]. by destruct (Hn b).
  - apply Hsame; [congruence..|]. by intros b' x' [?|(_ & _ & k' & [=])]%Hnew.
  - rewrite Hsd in Hd. destruct (decide (d = d')) as [<-|Hne].
    + rewrite Heq, lookup_insert_eq. split; [exists k; apply elem_of_app; right; by left|].
      intros b' x' [?|(_ & _ & k' & [= <- <- <-])]%Hnew; [by eapply Hold|apply le_refl].
    + apply Hsame; [done|rewrite Heq; by rewrite lookup_insert_ne|].
      by intros b' x' [?|(_ & _ & k' & [=])]%Hnew.
Qed.

(** The promises of the past stay true: votes that come later are not below
    them. *)
Lemma turn_promise_old a' k d b self acks :
  ToProcess a' k (Promise b self acks) ∈ log s -> ToAcceptor a' (Prepare d b k) ∈ log s ->
  (forall v, v ∈ acks -> decree v = d /\ voted (log s ++ ps) a' d (ballot v) (value v)) /\
  (forall c y, voted (log s ++ ps) a' d c y -> lt c b -> exists v, v ∈ acks /\ le c (ballot v)).
Proof using Hinv Hst Hturn.
  intros Hp Hq. destruct (ao_promise _ _ (inv_accs _ Hinv) _ _ _ _ _ _ Hp Hq) as [H1 H2]. split.
  - intros v Hv. destruct (H1 v Hv). split; [done|by apply voted_app].
  - intros c y [Hv|(-> & Hb & _)]%turn_voted Hlt; [by eapply H2|].
    exfalso. apply (proj1 (lt_not_le c b) Hlt). by apply (turn_commits_below k (Promise b self acks)).
Qed.

(** A new promise tells the latest vote. *)
Lemma turn_promise_new k d b self acks :
  ps = [ToProcess a k (Promise b self acks)] -> ToAcceptor a (Prepare d b k) ∈ log s ->
  (forall v, v ∈ acks -> decree v = d /\ voted (log s) a d (ballot v) (value v)) /\
  (forall c y, voted (log s) a d c y -> exists v, v ∈ acks /\ le c (ballot v)).
Proof using Hinv Hreq Hst Hturn.
  intros Hps Hq. pose proof (ao_store _ _ (inv_accs _ Hinv) _ _ Hst) as Hs.
  pose proof (lo_unique _ _ (inv_log _ Hinv) _ _ _ _ k Hreq Hq) as Hu. clear Hreq.
  destruct Hturn as [r1 ps1 _ _ _ [->|(k' & m' & -> & _ & _ & Hn)]|d' b' k' Hd _ _ _ _|]; try done.
  { injection Hps as -> ->. by destruct (Hn b). }
  injection Hps as -> -> <- <-. specialize (Hu eq_refl eq_refl) as [= ->]. specialize (Hs d Hd).
  destruct (decrees st !! d) as [[c0 y0]|]; simpl.
  - destruct Hs as [Hv Hm]. split; [by intros v ->%list_elem_of_singleton|].
    intros c y Hy. exists (MkAck d c0 y0). split; [by left|]. by eapply Hm.
  - split; [by intros v ?%elem_of_nil|]. intros c y Hy. by destruct (Hs c y).
Qed.

Lemma turn_no_vote k d b self acks a' c y :
  ps = [ToProcess a k (Promise b self acks)] -> voted (log s ++ ps) a' d c y -> voted (log s) a' d c y.
Proof using Hturn. by intros Hps [?|(_ & _ & k' & Hps')]%turn_voted; [|rewrite Hps in Hps']. Qed.

Lemma turn_accs : acc_ok (log s ++ ps) (<[a := st']> (accs s)).
Proof using Hinv Hreq Hst Hturn.
  destruct (inv_accs _ Hinv) as [Hk Hc Hs Hp]. constructor.
  - intros a' k m [H|(? & ? & [= -> -> ->] & _)]%turn_old; [|by rewrite lookup_insert_eq].
    apply lookup_insert_is_Some. destruct (decide (a = a')); [by left|right; split; [done|by eapply Hk]].
  - intros a' st1 k m b [[<- <-]|[Hne H1]]%lookup_insert_Some [H|(k1 & m1 & Heq & Hps & _)]%turn_old Hb.
    + eapply lifted_le_trans; [by eapply Hc|apply turn_promised].
    + injection Heq as -> ->. assert (Hin : ToProcess a k1 m1 ∈ ps) by (rewrite Hps; by left).
      rewrite (turn_commits b _ Hin Hb). apply le_refl.
    + by eapply Hc.
    + by injection Heq as -> _ _.
  - intros a' st1 [[<- <-]|[Hne H1]]%lookup_insert_Some; [apply turn_store|].
    assert (Hv : forall d b x, voted (log s ++ ps) a' d b x -> voted (log s) a' d b x)
      by (by intros d b x [?|(-> & _)]%turn_voted).
    intros d Hd. specialize (Hs _ _ H1 d Hd). destruct (decrees st1 !! d) as [[b x]|].
    + destruct Hs as [? Hm]. split; [by apply voted_app|]. intros b' x' ?%Hv. by eapply Hm.
    + intros b x ?%Hv. by eapply Hs.
  - intros a' k d b self acks [H|(k1 & m1 & [= -> -> <-] & Hps & _)]%turn_old Hq%turn_request.
    + by apply turn_promise_old with k self.
    + destruct (turn_promise_new _ _ _ _ _ Hps Hq) as [H1 H2]. split.
      * intros v Hv. destruct (H1 v Hv). split; [done|by apply voted_app].
      * intros c y Hy _. eapply H2, turn_no_vote; [|done]. exact Hps.
Qed.

Lemma turn_safe d b x :
  safe_at (log s) (accs s) d b x -> safe_at (log s ++ ps) (<[a := st']> (accs s)) d b x.
Proof using Hst Hturn.
  intros Hs c Hc. destruct (Hs c Hc) as (Q & HQ & H). exists Q. split; [done|]. intros a' Ha'.
  destruct (H a' Ha') as (Hv & st1 & b1 & H1 & Hp1 & Hlt). split.
  - intros y [Hy|(-> & Hb & _)]%turn_voted; [by apply Hv|]. simplify_eq. rewrite Hp1 in Hb. simpl in Hb.
    destruct (lt_irrefl c). by eapply lt_le_trans.
  - destruct (decide (a = a')) as [<-|Hne]; [|rewrite lookup_insert_ne by done; by eauto].
    rewrite lookup_insert_eq. simplify_eq. pose proof turn_promised as Hm. rewrite Hp1 in Hm. simpl in Hm.
    destruct (promised st') as [b2|] eqn:Hp2; [|done]. exists st', b2. split; [done|]. split; [done|].
    by eapply lt_le_trans.
Qed.

Lemma turn_props : prop_ok (log s ++ ps) (props s) (next s).
Proof using Hinv Hturn.
  destruct (inv_props _ Hinv) as [H1 H2 H3 H4]. constructor; [| |done|done].
  - intros self d p Hp. destruct (H1 _ _ _ Hp) as [? ?]. split; [done|].
    assert (Hno : forall a' q, ToAcceptor a' q ∉ ps).
    { intros a' q Hin. destruct turn_answer as [->|(? & ? & -> & _)]; by apply elem_of_nil in Hin || apply list_elem_of_singleton in Hin. }
    apply phase_app; [done|by intros a' q k ?%Hno|by intros a' c k y ?%Hno].
  - intros self d b x Hp ?%turn_commanded. by eapply H2.
Qed.

Lemma turn_net :
  (forall k, reply_to r = Some k -> talks k a (net s) = 0%nat /\
     forall i p, props s !! i = Some p -> child p = Some k -> a ∉ counted p) ->
  net_ok (net s ++ ps) (log s ++ ps) (props s) (next s).
Proof using Hinv Hreq Hst Hturn.
  intros Hover. destruct (inv_net _ Hinv) as [Hn Ho Hf Hc].
  assert (Ht : forall k a', talks k a' ps = 0%nat \/ (talks k a' ps = 1%nat /\ a' = a /\ reply_to r = Some k)).
  { intros k a'. destruct turn_answer as [->|(k1 & m & -> & Hk1 & _)]; [by left|].
    rewrite talks_cons. destruct (decide _) as [[-> ->]|]; [right|left]; done. }
  constructor.
  - intros q [?|?]%elem_of_app; apply elem_of_app; [left; by apply Hn|by right].
  - intros k a'. rewrite talks_app. specialize (Ho k a'). destruct (Ht k a') as [->|(-> & -> & Hk)]; [lia|].
    destruct (Hover k Hk) as [-> _]. lia.
  - intros k a' Hk. rewrite talks_app, Hf by done. destruct (Ht k a') as [->|(_ & _ & Hk')]; [done|].
    destruct (lo_request _ _ (inv_log _ Hinv) _ _ Hreq) as [_ Hb]. destruct (Hb k Hk'). lia.
  - intros i p k a' Hp Hk Hin. rewrite talks_app, (Hc _ _ _ _ Hp Hk Hin).
    destruct (Ht k a') as [->|(_ & -> & Hk')]; [done|]. destruct (Hover k Hk') as [_ Hno].
    by destruct (Hno _ _ Hp Hk).
Qed.
End Turn.

Lemma inv_acceptor s a r st st' ps n1 n2 :
  inv s -> net s = n1 ++ ToAcceptor a r :: n2 -> accs s !! a = Some st -> handle a a st r = (st', ps) ->
  inv (send ps (set_acc a st' (with_net (n1 ++ n2) s))).
Proof.
  intros Hinv Hnet Hst Hh. pose proof (sys_inv_lose _ _ _ _ Hinv Hnet) as Hinv'.
  assert (Hreq : ToAcceptor a r ∈ log s).
  { apply (no_log _ _ _ _ (inv_net _ Hinv)). rewrite Hnet. apply elem_of_app. right. by left. }
  apply handle_turn in Hh as Hturn; [|by destruct (lo_request _ _ (inv_log _ Hinv) _ _ Hreq)].
  constructor; cbn [send set_acc with_net accs props net log next].
  - by eapply (turn_log (with_net (n1 ++ n2) s)).
  - by eapply (turn_accs (with_net (n1 ++ n2) s)).
  - by eapply (turn_props (with_net (n1 ++ n2) s)).
  - eapply (turn_net (with_net (n1 ++ n2) s)); [done..|]. intros k Hk.
    by apply (lose_talks s n1 (ToAcceptor a r) n2 k a).
  - intros d b x y Hx Hy. by eapply (inv_unique _ Hinv); eapply (turn_commanded s a r).
  - intros d b x Hx. eapply (turn_safe s); [done..|]. apply (inv_safe _ Hinv). by eapply (turn_commanded s a r).
Qed.

(** * Agreement *)

Lemma sys_inv_step s s' : inv s -> step acceptors false s s' -> inv s'.
Proof using nodup nonempty.
  intros Hinv Hstep. remember false as fl eqn:Hfl. destruct Hstep as [self d x s Hp|[self d] p t s Hp Ht|a d s|d s
    |a r st st' ps n1 n2 s Hnet Hst Hh|src k r [self d] p t n1 n2 s Hnet Hp Hk Ht|q n1 n2 s Hnet].
  - by apply inv_propose.
  - by apply inv_timeout.
  - by apply inv_release.
  - by apply inv_query.
  - by eapply inv_acceptor.
  - by eapply sys_inv_reply.
  - by eapply sys_inv_lose.
Qed.

(** What a step does to the log and the acceptors. *)
Lemma step_effect s s' :
  inv s -> step acceptors false s s' ->
  (exists ps, log s' = log s ++ ps /\ requests_only ps /\ accs s' = accs s) \/
  (exists a r st st' ps, ToAcceptor a r ∈ log s /\ accs s !! a = Some st /\ handle a a st r = (st', ps) /\
     turn a st st' r ps /\ log s' = log s ++ ps /\ accs s' = <[a := st']> (accs s)).
Proof using.
  intros Hinv Hstep.
  assert (Hnil : requests_only []) by (by intros a k r ?%elem_of_nil).
  assert (Hperf : forall (i : Z * DecreeId) p t n, exists ps, log (perform acceptors i p t (with_net n s)) = log s ++ ps /\
    requests_only ps /\ accs (perform acceptors i p t (with_net n s)) = accs s).
  { intros i p t n. destruct t; [exists []; by rewrite app_nil_r|..]; eexists; (split; [done|]); by split; [apply broadcast_requests|]. }
  remember false as fl eqn:Hfl. destruct Hstep as [self d x s Hp|c p t s Hp Ht|a d s|d s
    |a r st st' ps n1 n2 s Hnet Hst Hh|src k r c p t n1 n2 s Hnet Hp Hk Ht|q n1 n2 s Hnet].
  - left. eexists. split; [done|]. by split; [apply broadcast_requests|].
  - left. destruct (Hperf c p t (net s)) as (ps & H1 & H2 & H3). exists ps. destruct s. auto.
  - left. eexists. split; [done|]. by split; [intros a' k r ?%list_elem_of_singleton|].
  - left. eexists. split; [done|]. by split; [apply broadcast_requests|].
  - right. assert (Hreq : ToAcceptor a r ∈ log s).
    { apply (no_log _ _ _ _ (inv_net _ Hinv)). rewrite Hnet. apply elem_of_app. right. by left. }
    apply handle_turn in Hh as Hturn; [|by destruct (lo_request _ _ (inv_log _ Hinv) _ _ Hreq)].
    exists a, r, st, st', ps. auto 7.
  - left. apply Hperf.
  - left. exists []. by rewrite app_nil_r.
Qed.

Lemma sys_inv_initial starts : inv (initial starts).
Proof.
  assert (Hno : forall q : packet V, q ∉ []) by apply not_elem_of_nil.
  split; simpl; [split|split|split|split| |]; simpl.
  all: try (intros; match goal with H : _ ∈ [] |- _ => by apply Hno in H end).
  all: try done.
  all: try (by intros * (? & ? & ?%Hno)).
  - intros a st (d0 & <- & _)%lookup_fmap_Some d _. simpl. rewrite lookup_empty. by intros b x [k ?%Hno].
  - by intros self d b x _ (? & ? & ?%Hno).
  - unfold talks. simpl. lia.
Qed.

Lemma inv_run starts s : rtc (step acceptors false) (initial starts) s -> inv s.
Proof using nodup nonempty.
  intros Hrun. eapply (rtc_ind_r inv); [apply sys_inv_initial|intros; by eapply sys_inv_step|exact Hrun].
Qed.

Lemma quorum_nonempty Q : is_quorum Q -> exists a, a ∈ Q.
Proof.
  intros (_ & _ & Hlen). destruct Q as [|a Q]; [unfold quorum in Hlen; simpl in Hlen; lia|]. exists a. by left.
Qed.

Lemma chosen_commanded s d b x Q :
  inv s -> is_quorum Q -> (forall a, a ∈ Q -> voted (log s) a d b x) -> commanded (log s) d b x.
Proof. intros Hinv [a Ha]%quorum_nonempty HQ. by eapply voted_commanded, HQ. Qed.

(** A value commanded in a ballot not below one in which [x] was chosen is
    [x]. *)
Lemma chosen_later s d b c x y Q :
  inv s -> is_quorum Q -> (forall a, a ∈ Q -> voted (log s) a d b x) ->
  commanded (log s) d c y -> le b c -> y = x.
Proof.
  intros Hinv HQ Hv Hy [Hlt|<-]%le_lt_or_eq.
  - destruct (inv_safe _ Hinv _ _ _ Hy b Hlt) as (Q' & HQ' & H).
    destruct (quorums_meet _ _ _ HQ HQ') as (a & Ha & Ha'). symmetry. by apply (H a Ha'), Hv.
  - eapply (inv_unique _ Hinv); [done|]. by eapply chosen_commanded.
Qed.

Lemma chosen_agree s d x y : inv s -> chosen (log s) d x -> chosen (log s) d y -> x = y.
Proof.
  intros Hinv (b & Q & HQ & Hx) (c & R & HR & Hy). destruct (le_total b c).
  - symmetry. eapply (chosen_later s d b c x y Q); [done..| |done]. by apply (chosen_commanded s d c y R).
  - eapply (chosen_later s d c b y x R); [done..| |done]. by apply (chosen_commanded s d b x Q).
Qed.

End Safety.

End PaxosSafety.
