(* ===== verification/PaxosAgreement.v ===== *)
(** What Basic Paxos guarantees (PaxosNet.v), from the invariant of
    PaxosSafety.v: agreement and validity, what [query] reports, and the run in
    which the reuse of a ballot breaks agreement. *)

From S2P Require Import Prelude Paxos PaxosNet PaxosSafety.
Local Open Scope Z_scope.

Module PaxosAgreement.
Import Paxos PaxosNet PaxosSafety.

(** C2. Agreement. However messages are delayed, reordered and lost, whenever
    calls time out and whatever the acceptors trim, two calls of [propose] for
    the same decree return the same value, as long as no call scouts a second
    time with a ballot in which it has commanded. *)
Theorem paxos_agreement {V} (acceptors : list Z) (starts : gmap Z DecreeId) (s : sys V)
    d self1 self2 (c1 c2 : proposal V) x y :
  NoDup acceptors -> acceptors <> [] -> rtc (step acceptors false) (initial starts) s ->
  props s !! (self1, d) = Some c1 -> pr_phase c1 = Returned x ->
  props s !! (self2, d) = Some c2 -> pr_phase c2 = Returned y -> x = y.
Proof.
  intros Hnd Hne Hrun H1 Hx H2 Hy. pose proof (inv_run acceptors Hnd Hne starts s Hrun) as Hinv.
  assert (Hret : forall self c z, props s !! (self, d) = Some c -> pr_phase c = Returned z ->
    chosen acceptors (log s) d z).
  { intros self c z Hc Hz. destruct (po_some _ _ _ _ (inv_props _ _ Hinv) _ _ _ Hc) as [_ Hok].
    unfold phase_ok in Hok. by rewrite Hz in Hok. }
  exact (chosen_agree acceptors s d x y Hinv (Hret _ _ _ H1 Hx) (Hret _ _ _ H2 Hy)).
Qed.

(** * Validity *)

Section Validity.
Context {V : Type} (acceptors : list Z) (nodup : NoDup acceptors) (nonempty : acceptors <> []).
Implicit Types (s : sys V) (d : DecreeId) (x : V).

(** [x] is the argument of a call for [d]. *)
Definition proposed s d x : Prop := exists self p, props s !! (self, d) = Some p /\ pr_value p = x.

Definition valid s : Prop := forall d b x, commanded (log s) d b x -> proposed s d x.

Lemma proposed_set_prop s c p p' d x :
  props s !! c = Some p -> pr_value p' = pr_value p -> proposed s d x -> proposed (set_prop c p' s) d x.
Proof.
  intros Hp Hv (self & p1 & Hp1 & Hx). destruct (decide (c = (self, d))) as [->|Hne].
  - exists self, p'. simpl. rewrite lookup_insert_eq. split; [done|]. congruence.
  - exists self, p1. simpl. by rewrite lookup_insert_ne.
Qed.

(** A call may command a value that has been proposed. *)
Lemma valid_perform s self d p t :
  valid s -> props s !! (self, d) = Some p ->
  (forall x', t = Command x' -> proposed s d x') -> valid (perform acceptors (self, d) p t s).
Proof.
  intros Hv Hp Ht d' b x Hc.
  assert (Hold : commanded (log s) d' b x \/ (t = Command x /\ d' = d)).
  { destruct t as [ph|b'|x']; simpl in Hc; [by left| |].
    - apply commanded_app_inv in Hc as [?|(a & k & [[=] _]%elem_of_broadcast)]; by left.
    - apply commanded_app_inv in Hc as [?|(a & k & [[= -> _ _ ->] _]%elem_of_broadcast)]; [by left|by right]. }
  assert (proposed s d' x) as Hx by (destruct Hold as [?|[-> ->]]; [by eapply Hv|by apply Ht]).
  destruct t; by apply (proposed_set_prop s (self, d) p).
Qed.

(** The value of the latest ballot that a quorum reports was commanded. *)
Lemma scouted_commanded s d b k resps x :
  inv acceptors s -> asks (log s) k (Prepare d b k) ->
  (forall a acks, (a, acks) ∈ resps -> exists self, ToProcess a k (Promise b self acks) ∈ log s) ->
  chooseValue d (resps ≫= snd) = Some x -> exists c, commanded (log s) d c x.
Proof.
  intros Hinv Hasks Hresps Hch. pose proof (chooseValue_spec d (resps ≫= snd)) as Hs. rewrite Hch in Hs.
  destruct Hs as (v & ([a acks] & Hv & Hin)%list_elem_of_bind & Hd & <- & _).
  destruct (scouted_member acceptors s d b k resps Hinv Hasks Hresps a acks Hin) as (Ht & _).
  destruct (Ht v Hv) as [_ Hvote]. exists (ballot v). by eapply voted_commanded.
Qed.

Lemma valid_reply s self d p src k r t :
  inv acceptors s -> valid s -> props s !! (self, d) = Some p -> child p = Some k ->
  ToProcess src k r ∈ log s -> on_reply acceptors d p src r = Some t ->
  forall x', t = Command x' -> proposed s d x'.
Proof.
  intros Hinv Hv Hp Hk Hlog Ht x' ->. destruct (po_some _ _ _ _ (inv_props _ _ Hinv) _ _ _ Hp) as [_ Hok].
  unfold phase_ok in Hok. unfold child in Hk. unfold on_reply in Ht.
  destruct (pr_phase p) as [k0 resps|k0 x1 resps| |]; try done.
  - injection Hk as ->. destruct Hok as (_ & Hasks & _ & Hresps). destruct r as [b1 self1 acks|b1| | |]; try done.
    + destruct (asked _ _ _ _ _ _ Hinv Hlog Hasks) as (_ & [d1 [= <- <-]] & _).
      destruct (decide _); [|done]. injection Ht as <-.
      destruct (chooseValue d _) as [y|] eqn:Hch; simpl; [|by exists self, p].
      destruct (scouted_commanded s d (pr_ballot p) k ((src, acks) :: resps) y Hinv Hasks) as [c Hc]; [|done|by eapply Hv].
      intros a acks' [[= -> ->]|Hin]%elem_of_cons; [by exists self1|by apply Hresps].
    + injection Ht as Ht. destruct (decide _); [|done]. by destruct (nextBallotId _).
  - destruct r; try done. by destruct (decide _).
Qed.

Lemma valid_step s s' : inv acceptors s -> valid s -> step acceptors false s s' -> valid s'.
Proof.
  intros Hinv Hv Hstep. remember false as fl eqn:Hfl. destruct Hstep as [self d x s Hp|[self d] p t s Hp Ht|a d s|d s
    |a r st st' ps n1 n2 s Hnet Hst Hh|src k r [self d] p t n1 n2 s Hnet Hp Hk Ht|q n1 n2 s Hnet].
  - intros d' b y [Hc|(a & k & [[=] _]%elem_of_broadcast)]%commanded_app_inv.
    destruct (Hv _ _ _ Hc) as (self1 & p1 & Hp1 & Hx). exists self1, p1. simpl.
    rewrite lookup_insert_ne; [done|]. congruence.
  - apply valid_perform; [done..|]. intros x' ->. unfold again in Ht.
    destruct (po_some _ _ _ _ (inv_props _ _ Hinv) _ _ _ Hp) as [_ Hok]. unfold phase_ok in Hok.
    destruct (pr_phase p); simplify_eq. eapply Hv. apply Hok.
  - by intros d' b y [Hc|(a' & k & [=]%list_elem_of_singleton)]%commanded_app_inv; apply (Hv _ _ _ Hc).
  - by intros d' b y [Hc|(a & k & [[=] _]%elem_of_broadcast)]%commanded_app_inv; apply (Hv _ _ _ Hc).
  - intros d' b y Hc. assert (Hreq : ToAcceptor a r ∈ log s).
    { apply (no_log _ _ _ _ (inv_net _ _ Hinv)). rewrite Hnet. set_solver. }
    apply handle_turn in Hh as Hturn; [|by destruct (lo_request _ _ _ (inv_log _ _ Hinv) _ _ Hreq)].
    apply (Hv d' b y). by eapply (turn_commanded s a r).
  - apply valid_perform; [done..|]. refine (valid_reply s self d p src k r t Hinv Hv Hp Hk _ Ht).
    apply (no_log _ _ _ _ (inv_net _ _ Hinv)). rewrite Hnet. set_solver.
  - done.
Qed.

Lemma valid_run starts s : rtc (step acceptors false) (initial starts) s -> valid s.
Proof using nodup nonempty.
  intros Hrun. enough (inv acceptors s /\ valid s) by tauto.
  eapply (rtc_ind_r (fun s => inv acceptors s /\ valid s)); [| |exact Hrun].
  - split; [apply sys_inv_initial|]. by intros d b x (a & k & ?%elem_of_nil).
  - intros s1 s2 _ Hs [Hi Hv]. split; [by eapply sys_inv_step|by eapply valid_step].
Qed.
End Validity.

(** C15. Validity. However messages are delayed, reordered and lost, whenever
    calls time out and whatever the acceptors trim, a call returns a value that
    some call proposed for the same decree, as long as no call scouts a second
    time with a ballot in which it has commanded. *)
Theorem paxos_validity {V} (acceptors : list Z) (starts : gmap Z DecreeId) (s : sys V) d self (c : proposal V) x :
  NoDup acceptors -> acceptors <> [] -> rtc (step acceptors false) (initial starts) s ->
  props s !! (self, d) = Some c -> pr_phase c = Returned x -> proposed s d x.
Proof.
  intros Hnd Hne Hrun Hc Hx. pose proof (inv_run acceptors Hnd Hne starts s Hrun) as Hinv.
  destruct (po_some _ _ _ _ (inv_props _ _ Hinv) _ _ _ Hc) as [_ Hok]. unfold phase_ok in Hok. rewrite Hx in Hok.
  destruct Hok as (b & Q & HQ & Hv). eapply (valid_run acceptors Hnd Hne starts s Hrun d b).
  by apply (chosen_commanded acceptors s d b x Q).
Qed.

(** * Trimmed decrees *)

Section Trimmed.
Context {V : Type} (acceptors : list Z) (nodup : NoDup acceptors) (nonempty : acceptors <> []).
Context (self : Z) (d : DecreeId).
Implicit Types s : sys V.

(** The call of [self] for [d] waits, and nobody will answer. *)
Definition hangs s : Prop :=
  (forall a st, accs s !! a = Some st -> lt d (sd st)) /\
  exists x b k, props s !! (self, d) = Some (Proposal x b (Scouting k [])) /\
    forall src r, ToProcess src k r ∉ net s.

Lemma handle_trimmed a st b k : lt d (sd st) -> handle a a st (Prepare d b k : request V) = (st, []).
Proof. intros Hd. simpl. by rewrite decide_True. Qed.

Lemma fresh_child s src r : inv acceptors s -> ToProcess src (next s) r ∉ net s.
Proof.
  intros Hinv Hin%(no_log _ _ _ _ (inv_net _ _ Hinv)).
  destruct (lo_reply _ _ _ (inv_log _ _ Hinv) _ _ _ Hin) as (q & Hq & Hk & _).
  destruct (lo_request _ _ _ (inv_log _ _ Hinv) _ _ Hq) as [_ Hb]. destruct (Hb _ Hk). lia.
Qed.

(** A call that starts or starts over. *)
Lemma hangs_scout s x b :
  inv acceptors s -> (forall a st, accs s !! a = Some st -> lt d (sd st)) -> hangs (scout acceptors (self, d) x b s).
Proof.
  intros Hinv Htrim. split; [done|]. exists x, b, (next s). simpl. rewrite lookup_insert_eq. split; [done|].
  intros src r [Hin|Hin]%elem_of_app; [by apply fresh_child in Hin|by apply broadcast_requests in Hin].
Qed.

(** A step of others that delivers no answer to the call. *)
Lemma hangs_other s s' :
  hangs s -> (forall a st, accs s' !! a = Some st -> lt d (sd st)) -> props s' !! (self, d) = props s !! (self, d) ->
  (forall src k r, ToProcess src k r ∈ net s' -> ToProcess src k r ∈ net s) -> hangs s'.
Proof.
  intros (_ & x & b & k & Hp & Hn) Ha Hp' Hn'. split; [done|]. exists x, b, k. split; [congruence|].
  intros src r Hin%Hn'. by apply Hn in Hin.
Qed.

Lemma net_requests (n ps : list (packet V)) src k r :
  requests_only ps -> ToProcess src k r ∈ n ++ ps -> ToProcess src k r ∈ n.
Proof. apply in_requests. Qed.

Lemma hangs_perform s c p t :
  hangs s -> c <> (self, d) -> hangs (perform acceptors c p t s).
Proof.
  intros Hh Hc. apply (hangs_other s); [done|..].
  - destruct Hh as [Ha _]. by destruct t.
  - destruct t; simpl; by rewrite lookup_insert_ne.
  - intros src k r. destruct t; simpl; [done|apply net_requests, broadcast_requests..].
Qed.

Lemma hangs_lose s n1 q n2 : hangs s -> net s = n1 ++ q :: n2 -> hangs (with_net (n1 ++ n2) s).
Proof.
  intros Hh Hnet. apply (hangs_other s); [done|apply Hh|done|]. intros src k r Hin. rewrite Hnet.
  apply elem_of_app in Hin as [?|?]; apply elem_of_app; [by left|right; by right].
Qed.

(** A turn of an acceptor: it does not answer for [d]. *)
Lemma hangs_acceptor s a r st st' ps n1 n2 :
  inv acceptors s -> hangs s -> net s = n1 ++ ToAcceptor a r :: n2 -> accs s !! a = Some st ->
  handle a a st r = (st', ps) -> hangs (send ps (set_acc a st' (with_net (n1 ++ n2) s))).
Proof.
  intros Hinv Hh Hnet Hst Hhd. pose proof (hangs_lose _ _ _ _ Hh Hnet) as [_ (x & b & k & Hp & Hn)].
  destruct Hh as [Htrim _].
  assert (Hreq : ToAcceptor a r ∈ log s).
  { apply (no_log _ _ _ _ (inv_net _ _ Hinv)). rewrite Hnet. apply elem_of_app. right. by left. }
  apply handle_turn in Hhd as Hturn; [|by destruct (lo_request _ _ _ (inv_log _ _ Hinv) _ _ Hreq)].
  split; cbn [send set_acc with_net accs props net].
  - intros a' st1 [[<- <-]|[_ H]]%lookup_insert_Some; [|by eapply Htrim].
    eapply lt_le_trans; [by eapply Htrim|by eapply turn_sd].
  - exists x, b, k. split; [done|]. intros src m [Hin|Hin]%elem_of_app; [by apply Hn in Hin|].
    destruct (turn_answer a r st st' ps Hturn) as [->|(k1 & m1 & -> & Hk & _)]; [by apply elem_of_nil in Hin|].
    apply list_elem_of_singleton in Hin as [= -> -> ->].
    destruct (po_some _ _ _ _ (inv_props _ _ Hinv) _ _ _ Hp) as (_ & _ & Hasks & _). simpl in Hasks.
    rewrite (Hasks _ _ Hreq Hk), handle_trimmed in Hhd; [done|by eapply Htrim].
Qed.

Lemma hangs_step s s' : inv acceptors s -> hangs s -> step acceptors false s s' -> hangs s'.
Proof.
  intros Hinv Hh Hstep. remember false as fl eqn:Hfl. destruct Hstep as [self1 d1 x s Hp|c p t s Hp Ht|a d1 s|d1 s
    |a r st st' ps n1 n2 s Hnet Hst Hhd|src k r c p t n1 n2 s Hnet Hp Hk Ht|q n1 n2 s Hnet].
  - apply (hangs_perform s (self1, d1) (Proposal x (Ballot 0 self1) Failed) (Scout (Ballot 0 self1))); [done|].
    intros Heq. destruct Hh as (_ & x1 & b & k & Hp1 & _). congruence.
  - destruct (decide (c = (self, d))) as [->|Hne]; [|by apply hangs_perform].
    destruct Hh as (Htrim & x1 & b & k & Hp1 & _). simplify_eq. injection Ht as <-. by apply hangs_scout.
  - apply (hangs_other s); [done|apply Hh|done|]. intros src k r. by apply net_requests; intros a1 k1 r1 ?%list_elem_of_singleton.
  - apply (hangs_other s); [done|apply Hh|done|]. intros src k r. apply net_requests, broadcast_requests.
  - by eapply hangs_acceptor.
  - apply hangs_perform; [by eapply hangs_lose|]. intros ->. destruct Hh as (_ & x1 & b & k1 & Hp1 & Hn).
    simplify_eq. injection Hk as <-. apply (Hn src r). rewrite Hnet. apply elem_of_app. right. by left.
  - by eapply hangs_lose.
Qed.
End Trimmed.

(** A call for a decree that all acceptors have trimmed waits for ever, in runs
    in which no call reuses a ballot. It is never answered, so it neither returns
    nor fails: it is still scouting, with no promise, after any number of steps.
    (The documentation of [prl_propose]
    promises an error.) *)
Theorem trimmed_call_hangs {V} (acceptors : list Z) (starts : gmap Z DecreeId) (s s' : sys V) self d x :
  NoDup acceptors -> acceptors <> [] -> rtc (step acceptors false) (initial starts) s ->
  props s !! (self, d) = None -> (forall a st, accs s !! a = Some st -> lt d (sd st)) ->
  rtc (step acceptors false) (scout acceptors (self, d) x (Ballot 0 self) s) s' ->
  exists p k, props s' !! (self, d) = Some p /\ pr_phase p = Scouting k [].
Proof.
  intros Hnd Hne Hrun Hp Htrim Hrun'. pose proof (inv_run acceptors Hnd Hne starts s Hrun) as Hinv.
  enough (inv acceptors s' /\ hangs self d s') as [_ (_ & y & b & k & H & _)] by (by eexists _, k).
  eapply (rtc_ind_r (fun s => inv acceptors s /\ hangs self d s)); [| |exact Hrun'].
  - split; [by apply inv_propose|by apply hangs_scout].
  - intros s1 s2 _ Hs [Hi Hh]. split; [by eapply sys_inv_step|by eapply hangs_step].
Qed.

(** Two calls that return, one after the other. *)
Definition three_starts : gmap Z DecreeId :=
  {[1 := initialDecreeId; 2 := initialDecreeId; 3 := initialDecreeId]}.
Definition two_calls : list (move Z) :=
  let p := (11, initialDecreeId) in let q := (12, initialDecreeId) in
  [Propose 11 initialDecreeId 100; Accept 0; Accept 0; Receive 1 p; Receive 1 p; Accept 1; Accept 2; Receive 2 p;
   Receive 2 p; Propose 12 initialDecreeId 300; Accept 2; Accept 3; Receive 3 q; Receive 3 q; Accept 3; Accept 4;
   Receive 4 q; Receive 4 q].
Definition end_of (ms : list (move Z)) : sys Z :=
  default (initial ∅) (snd <$> run [1; 2; 3] ms (initial three_starts)).
Definition call_of (s : sys Z) (self : Z) : proposal Z :=
  default (Proposal 0 (Ballot 0 0) Failed) (props s !! (self, initialDecreeId)).
Definition result (s : sys Z) (self : Z) : option Z :=
  match pr_phase (call_of s self) with Returned x => Some x | _ => None end.

Lemma paxos_agreement_witness : result (end_of two_calls) 12 = Some 100 /\ 100 = 100.
Proof.
  split; [vm_compute; reflexivity|].
  apply (paxos_agreement [1; 2; 3] three_starts (end_of two_calls) initialDecreeId 11 12
    (call_of (end_of two_calls) 11) (call_of (end_of two_calls) 12)).
  - refine (bool_decide_eq_true_1 _ _). reflexivity.
  - done.
  - apply (run_steps [1; 2; 3] two_calls). vm_compute. reflexivity.
  - vm_compute. reflexivity.
  - vm_compute. reflexivity.
  - vm_compute. reflexivity.
  - vm_compute. reflexivity.
Defined.

Lemma paxos_validity_witness :
  result (end_of two_calls) 12 = Some 100 /\ proposed (end_of two_calls) initialDecreeId 100.
Proof.
  split; [vm_compute; reflexivity|].
  apply (paxos_validity [1; 2; 3] three_starts _ _ 12 (call_of (end_of two_calls) 12)).
  - refine (bool_decide_eq_true_1 _ _). reflexivity.
  - done.
  - apply (run_steps [1; 2; 3] two_calls). vm_compute. reflexivity.
  - vm_compute. reflexivity.
  - vm_compute. reflexivity.
Defined.

(** The acceptors trim the first five decrees; then a call for the first one
    scouts, and again after a timeout. *)
Definition trimmed_state : sys Z :=
  let d5 := Decree 0 5 in end_of [Release 1 d5; Release 2 d5; Release 3 d5; Accept 0; Accept 0; Accept 0].
Definition hanging_state : sys Z :=
  let s := scout [1; 2; 3] (11, initialDecreeId) 100 (Ballot 0 11) trimmed_state in
  default s (snd <$> run [1; 2; 3] [Accept 0; Accept 1; Accept 0; Timeout (11, initialDecreeId); Accept 2] s).

Lemma trimmed_call_hangs_witness :
  length (log hanging_state) = 9%nat /\
  exists p k, props hanging_state !! (11, initialDecreeId) = Some p /\ pr_phase p = Scouting k [].
Proof.
  split; [vm_compute; reflexivity|].
  apply (trimmed_call_hangs [1; 2; 3] three_starts trimmed_state hanging_state 11 initialDecreeId 100).
  - refine (bool_decide_eq_true_1 _ _). reflexivity.
  - done.
  - apply (run_steps [1; 2; 3] [Release 1 (Decree 0 5); Release 2 (Decree 0 5); Release 3 (Decree 0 5);
      Accept 0; Accept 0; Accept 0]). vm_compute. reflexivity.
  - vm_compute. reflexivity.
  - change (map_Forall (fun _ st => lt initialDecreeId (sd st)) (accs trimmed_state)).
    refine (bool_decide_eq_true_1 _ _). vm_compute. reflexivity.
  - apply (run_steps [1; 2; 3] [Accept 0; Accept 1; Accept 0; Timeout (11, initialDecreeId); Accept 2]).
    vm_compute. reflexivity.
Defined.

(** The run in which the call of 11 scouts a second time with ballot [(0, 11)]
    after its command was preempted by [(0, 12)]: it commands 100 and then 200
    in the same ballot, and the delayed messages of the first command overwrite
    the votes for 200 that were counted. *)
Definition reuse_run : list (move Z) :=
  let r := (10, initialDecreeId) in let p := (11, initialDecreeId) in let q := (12, initialDecreeId) in
  [Propose 10 initialDecreeId 200; Accept 0; Accept 1; Receive 1 r; Receive 1 r; Accept 3;
   Propose 11 initialDecreeId 100; Accept 4; Accept 4; Receive 5 p; Receive 5 p;
   Propose 12 initialDecreeId 300; Accept 9; Accept 6; Receive 10 p;
   Accept 10; Accept 11; Receive 11 p; Receive 11 p; Accept 11; Accept 12; Receive 12 p; Receive 12 p;
   Accept 5; Accept 5; Accept 5; Accept 5; Receive 10 q; Receive 10 q; Accept 10; Accept 11; Receive 11 q; Receive 11 q].

(** The reuse is in the code, and agreement fails with it: three acceptors
    and three proposers, and in one run the calls for one
    decree return 200 and 100. ([propose] goes on with
    [loop backoff' b{ballotProposalId}] when a command is preempted, where a
    preempted scout takes the next ballot.) *)
Theorem paxos_ballot_reuse :
  exists s : sys Z, rtc (fun s s' => exists fl, step [1; 2; 3] fl s s') (initial three_starts) s /\
    result s 11 = Some 200 /\ result s 12 = Some 100.
Proof.
  exists (end_of reuse_run). split; [|split; vm_compute; reflexivity].
  apply (run_any_steps [1; 2; 3] reuse_run _ true). vm_compute. reflexivity.
Qed.

End PaxosAgreement.
