(* ===== verification/PaxosQuery.v ===== *)
(** [query] (BasicPaxos.hs) on a running system: a value that was chosen for a
    decree before the query began is reported, whatever the acceptors do while
    they answer, unless they trim the decree. *)

From S2P Require Import Prelude Paxos PaxosNet PaxosSafety PaxosAgreement.
Local Open Scope Z_scope.

Module PaxosQuery.
Import Paxos PaxosNet PaxosSafety PaxosAgreement.

Section Collect.
Context {V : Type}.
Implicit Types (acks : list (Ack V)) (dvs : list (list (Ack V))) (d : DecreeId) (m : gmap DecreeId (list (Ack V))).

Definition for_decree d acks : list (Ack V) := filter (fun v => decree v = d) acks.

Lemma fromList_lookup d acks m :
  NoDup (decree <$> acks) ->
  foldl (fun m a => <[decree a := [a]]> m) m acks !! d =
    match for_decree d acks with [] => m !! d | vs => Some vs end.
Proof.
  unfold for_decree. revert m. induction acks as [|v acks IH]; intros m Hnd; [done|].
  cbn [fmap list_fmap] in Hnd. apply list.NoDup_cons in Hnd as [Hv Hnd]. simpl. rewrite IH by done.
  rewrite filter_cons. destruct (decide (decree v = d)) as [<-|Hne].
  - rewrite lookup_insert_eq. destruct (filter _ acks) as [|w ws] eqn:Hf; [done|]. exfalso.
    assert (Hw : w ∈ filter (fun w => decree w = decree v) acks) by (rewrite Hf; by left).
    apply list_elem_of_filter in Hw as [Hd Hw]. apply Hv, list_elem_of_fmap. by exists w.
  - by rewrite lookup_insert_ne.
Qed.

(** What is collected for a decree: all the acks for it. *)
Lemma unionsWith_lookup d dvs m :
  Forall (fun acks => NoDup (decree <$> acks)) dvs ->
  default [] (foldl (union_with (fun xs ys => Some (xs ++ ys))) m (fromList <$> dvs) !! d) =
    default [] (m !! d) ++ for_decree d (mjoin dvs).
Proof.
  intros H. revert m. induction H as [|acks dvs Hnd _ IH]; intros m; simpl; [by rewrite app_nil_r|].
  rewrite IH. rewrite lookup_union_with. unfold fromList. rewrite fromList_lookup by done.
  unfold for_decree. rewrite list.filter_app, (assoc_L (++)). f_equal. rewrite lookup_empty.
  destruct (m !! d), (filter _ acks); simpl; by rewrite ?app_nil_r.
Qed.

(** Every acceptor that reports the decree adds to the acks. *)
Lemma for_decree_length d (dvs : list (Z * list (Ack V))) :
  (length (filter (fun x => for_decree d x.2 <> []) dvs) <= length (for_decree d (mjoin dvs.*2)))%nat.
Proof.
  unfold for_decree. induction dvs as [|[a acks] dvs IH]; simpl; [lia|].
  rewrite filter_cons, list.filter_app, length_app. simpl.
  destruct (decide _) as [Hne|]; [|etrans; [exact IH|apply Nat.le_add_l]].
  destruct (filter (fun v => decree v = d) acks); [done|]. simpl. apply le_n_S. etrans; [exact IH|apply Nat.le_add_l].
Qed.

Lemma for_decree_nonempty d acks v : v ∈ acks -> decree v = d -> for_decree d acks <> [].
Proof.
  intros Hv Hd Hnil. assert (Hin : v ∈ for_decree d acks) by (apply list_elem_of_filter; by split).
  rewrite Hnil in Hin. by apply elem_of_nil in Hin.
Qed.

Lemma chooseValue_for_decree d acks : chooseValue d (for_decree d acks) = chooseValue d acks.
Proof. unfold chooseValue, for_decree. by rewrite (list_filter_filter_l (fun v => decree v = d)) by done. Qed.

Lemma elem_of_query acceptors d dvs x :
  Forall (fun acks => NoDup (decree <$> acks)) dvs ->
  (quorum acceptors <= length (for_decree d (mjoin dvs)))%nat -> chooseValue d (mjoin dvs) = Some x ->
  (d, x) ∈ query acceptors dvs.
Proof.
  intros Hnd Hlen Hx. pose proof (unionsWith_lookup d dvs ∅ Hnd) as Hl. rewrite lookup_empty in Hl. simpl in Hl.
  apply list_elem_of_omap. exists (d, for_decree d (mjoin dvs)). split.
  - apply elem_of_assocs. simpl. unfold unionsWith. destruct (foldl _ _ _ !! d) as [l|]; simpl in Hl; [by subst|].
    rewrite <- Hl in Hlen. unfold quorum in Hlen. simpl in Hlen. lia.
  - unfold decideDecree. simpl. rewrite decide_True by done. by rewrite chooseValue_for_decree, Hx.
Qed.
End Collect.

Section Query.
Context {V : Type} (acceptors : list Z) (nodup : NoDup acceptors) (nonempty : acceptors <> []).
Implicit Types (s : sys V) (d : DecreeId) (b : BallotId) (x : V).

(** Answers with the votes of the acceptors, not older than the ballot in which
    [x] was chosen, give [x]. *)
Lemma answers_chosen s d b x Q (dvs : list (Z * list (Ack V))) :
  inv acceptors s -> is_quorum acceptors Q -> (forall a, a ∈ Q -> voted (log s) a d b x) ->
  Q ⊆ dvs.*1 ->
  (forall a acks, (a, acks) ∈ dvs -> NoDup (decree <$> acks) /\
     (forall v, v ∈ acks -> decree v = d -> voted (log s) a d (ballot v) (value v)) /\
     (a ∈ Q -> exists v, v ∈ acks /\ decree v = d /\ le b (ballot v))) ->
  (d, x) ∈ query acceptors dvs.*2.
Proof.
  intros Hinv HQ Hv Hsub Hans.
  assert (Hin : forall a acks v, (a, acks) ∈ dvs -> v ∈ acks -> v ∈ mjoin dvs.*2).
  { intros a acks v H1 H2. apply list_elem_of_join. exists acks. split; [done|]. apply list_elem_of_fmap. by exists (a, acks). }
  assert (Hmem : forall a, a ∈ Q -> exists acks v, (a, acks) ∈ dvs /\ v ∈ acks /\ decree v = d /\ le b (ballot v)).
  { intros a Ha. specialize (Hsub a Ha). apply list_elem_of_fmap in Hsub as ([a' acks] & -> & Hd).
    destruct (Hans _ _ Hd) as (_ & _ & H). destruct (H Ha) as (v & ? & ? & ?). exists acks, v. auto. }
  apply elem_of_query.
  - apply list.Forall_forall. intros acks ([a acks'] & -> & Hd)%list_elem_of_fmap. by apply (Hans a).
  - destruct HQ as (Hnd & _ & Hlen). etrans; [exact Hlen|]. etrans; [|apply for_decree_length].
    rewrite <- (length_fmap fst). apply NoDup_subseteq_length; [done|]. intros a Ha.
    destruct (Hmem a Ha) as (acks & v & Hd & Hva & Hvd & _). apply list_elem_of_fmap. exists (a, acks). split; [done|].
    apply list_elem_of_filter. split; [by eapply for_decree_nonempty|done].
  - pose proof (chooseValue_spec d (mjoin dvs.*2)) as Hch.
    destruct (quorum_nonempty _ _ HQ) as [a Ha]. destruct (Hmem a Ha) as (acks & v & Hd & Hva & Hvd & Hvb).
    destruct (chooseValue d _) as [y|]; [|by destruct (Hch v (Hin _ _ _ Hd Hva))].
    destruct Hch as (w & Hw & Hwd & <- & Hmax). f_equal.
    apply list_elem_of_join in Hw as (acks' & Hw & ([a' acks''] & -> & Hd')%list_elem_of_fmap).
    destruct (Hans _ _ Hd') as (_ & Hvote & _).
    eapply (chosen_later acceptors s d b (ballot w) x (value w) Q); [done..| |].
    + by eapply voted_commanded, Hvote.
    + eapply le_trans; [exact Hvb|]. by apply Hmax; [eapply Hin|].
Qed.

Section Answers.
Context (s0 : sys V) (k : Z) (d0 d : DecreeId).
Hypothesis Hd0 : le d0 d.

(** The answers to the query [k] from [d0], as far as [d] is concerned: votes,
    and none older than those cast before [s0]. *)
Definition answers_ok s : Prop :=
  forall a acks st, ToProcess a k (Decrees acks) ∈ log s -> accs s !! a = Some st -> le (sd st) d ->
    NoDup (decree <$> acks) /\
    (forall v, v ∈ acks -> decree v = d -> voted (log s) a d (ballot v) (value v)) /\
    (forall b x, voted (log s0) a d b x -> exists v, v ∈ acks /\ decree v = d /\ le b (ballot v)).

Lemma answers_new s a st (acks : list (Ack V)) :
  inv acceptors s -> (forall b x, voted (log s0) a d b x -> voted (log s) a d b x) ->
  accs s !! a = Some st -> le (sd st) d -> acks = to_ack <$> assocs (from d0 (decrees st)) ->
  NoDup (decree <$> acks) /\
  (forall v, v ∈ acks -> decree v = d -> voted (log s) a d (ballot v) (value v)) /\
  (forall b x, voted (log s0) a d b x -> exists v, v ∈ acks /\ decree v = d /\ le b (ballot v)).
Proof using Hd0.
  intros Hinv Hgrow Hst Hsd ->. pose proof (ao_store _ _ (inv_accs _ _ Hinv) _ _ Hst d Hsd) as Hs. split; [|split].
  - rewrite <- list_fmap_compose. apply (assocs_keys (from d0 (decrees st))).
  - intros v ([d1 [b x]] & -> & Hin)%list_elem_of_fmap. simpl. intros ->. apply elem_of_assocs in Hin. simpl in Hin.
    apply map_lookup_filter_Some in Hin as [Hin _]. rewrite Hin in Hs. apply Hs.
  - intros b x Hv%Hgrow. destruct (decrees st !! d) as [[c y]|] eqn:Hl; [|by destruct (Hs b x)].
    exists (MkAck d c y). split; [|split; [done|by eapply Hs]]. apply list_elem_of_fmap. exists (d, (c, y)).
    split; [done|]. apply elem_of_assocs. simpl. by apply map_lookup_filter_Some.
Qed.

Lemma answers_step s s' a0 :
  inv acceptors s -> (forall a b x, voted (log s0) a d b x -> voted (log s) a d b x) ->
  ToAcceptor a0 (QueryDecrees k d0) ∈ log s -> step acceptors false s s' -> answers_ok s -> answers_ok s'.
Proof using Hd0.
  intros Hinv Hgrow Hq Hstep Hok a acks st Hin Hst Hsd.
  assert (Hold : forall st1 ps, ToProcess a k (Decrees acks) ∈ log s -> accs s !! a = Some st1 -> le (sd st1) d ->
    log s' = log s ++ ps ->
    NoDup (decree <$> acks) /\
    (forall v, v ∈ acks -> decree v = d -> voted (log s') a d (ballot v) (value v)) /\
    (forall b x, voted (log s0) a d b x -> exists v, v ∈ acks /\ decree v = d /\ le b (ballot v))).
  { intros st1 ps H1 H2 H3 ->. destruct (Hok _ _ _ H1 H2 H3) as (? & Hv & ?). split; [done|]. split; [|done].
    intros v Hva Hvd. by apply voted_app, Hv. }
  destruct (step_effect acceptors s s' Hinv Hstep) as [(ps & Hl & Hro & Ha)|(a1 & r & st1 & st1' & ps & Hr & H1 & Hh & Ht & Hl & Ha)].
  - rewrite Hl in Hin. rewrite Ha in Hst. apply in_requests in Hin; [|done]. by eapply Hold.
  - rewrite Hl in Hin. rewrite Ha in Hst.
    destruct (turn_old s a1 r st1 st1' ps Ht _ Hin) as [Hin'|(k1 & m1 & Heq & Hps & Hk & Hm)].
    + apply lookup_insert_Some in Hst as [[<- <-]|[_ Hst]]; [|by eapply Hold].
      eapply Hold; [done..| |done].  eapply le_trans; [by eapply turn_sd|done].
    + injection Heq as -> <- <-. destruct Hm as [d1 ->]. rewrite lookup_insert_eq in Hst. injection Hst as <-.
      pose proof (lo_unique _ _ _ (inv_log _ _ Hinv) _ _ _ _ k Hr Hq eq_refl eq_refl) as [= ->].
      simpl in Hh. injection Hh as <- <-. injection Hps as Hps. rewrite Hl.
      destruct (answers_new s a1 st1 acks Hinv (Hgrow a1) H1 Hsd) as (? & Hv & ?); [done|].
      split; [done|]. split; [|done]. intros v Hva Hvd. by apply voted_app, Hv.
Qed.

Lemma step_log s s' q : inv acceptors s -> step acceptors false s s' -> q ∈ log s -> q ∈ log s'.
Proof.
  intros Hinv Hstep Hq. destruct (step_effect acceptors s s' Hinv Hstep) as [(ps & -> & _)|(a & r & st & st' & ps & _ & _ & _ & _ & -> & _)];
    apply elem_of_app; by left.
Qed.

Lemma answers_run s1 s a0 :
  inv acceptors s1 -> answers_ok s1 -> (forall q, q ∈ log s0 -> q ∈ log s1) ->
  ToAcceptor a0 (QueryDecrees k d0) ∈ log s1 -> rtc (step acceptors false) s1 s ->
  inv acceptors s /\ answers_ok s /\ forall q, q ∈ log s0 -> q ∈ log s.
Proof using nodup nonempty Hd0.
  intros Hi Ha Hgrow Hq Hrun.
  enough (inv acceptors s /\ answers_ok s /\ (forall q, q ∈ log s0 -> q ∈ log s) /\
    ToAcceptor a0 (QueryDecrees k d0) ∈ log s) by tauto.
  eapply (rtc_ind_r (fun s => inv acceptors s /\ answers_ok s /\ (forall q, q ∈ log s0 -> q ∈ log s) /\
    ToAcceptor a0 (QueryDecrees k d0) ∈ log s)); [done| |exact Hrun].
  intros s2 s3 _ Hs (Hi2 & Ha2 & Hg2 & Hq2). split; [by eapply sys_inv_step|]. split; [|split].
  - eapply answers_step; [done| |done..]. intros a b x [k' Hk']. exists k'. by apply Hg2.
  - intros q H. by eapply step_log, Hg2.
  - by eapply step_log.
Qed.
End Answers.
End Query.

(** C16. If [x] has been chosen for [d] (so that some call returns it) when a
    query from [d0 <= d] begins, and no acceptor trims [d], then the query
    reports [x] for [d], whatever steps the system takes while the answers come
    in and in whatever order they come, as long as no call, before or after,
    scouts a second time with a ballot in which it has commanded. *)
Theorem query_reports_chosen {V} (acceptors : list Z) (starts : gmap Z DecreeId) (s0 s : sys V) d0 d x
    (dvs : list (Z * list (Ack V))) :
  NoDup acceptors -> acceptors <> [] ->
  rtc (step acceptors false) (initial starts) s0 -> chosen acceptors (log s0) d x -> le d0 d ->
  rtc (step acceptors false) (fork (send (broadcast acceptors (QueryDecrees (next s0) d0)) s0)) s ->
  dvs.*1 ≡ₚ acceptors ->
  (forall a acks, (a, acks) ∈ dvs -> ToProcess a (next s0) (Decrees acks) ∈ log s) ->
  (forall a st, accs s !! a = Some st -> le (sd st) d) ->
  (d, x) ∈ query acceptors dvs.*2.
Proof.
  intros Hnd Hne Hrun0 (b & Q & HQ & Hv) Hd Hrun Hdvs Hans Htrim.
  pose proof (inv_run acceptors Hnd Hne starts s0 Hrun0) as Hi0.
  assert (Hi1 : inv acceptors (fork (send (broadcast acceptors (QueryDecrees (next s0) d0)) s0))) by by apply inv_query.
  destruct acceptors as [|a0 l] eqn:Hacc; [done|]. rewrite <- Hacc in *.
  destruct (answers_run acceptors Hnd Hne s0 (next s0) d0 d Hd _ s a0 Hi1) as (Hi & Hok & Hgrow); [| | |done|].
  - intros a acks st [Hin|Hin]%elem_of_app _ _; [|by apply broadcast_requests in Hin].
    destruct (lo_reply _ _ _ (inv_log _ _ Hi0) _ _ _ Hin) as (q & Hq & Hk & _).
    destruct (lo_request _ _ _ (inv_log _ _ Hi0) _ _ Hq) as [_ Hb]. destruct (Hb _ Hk). lia.
  - intros q Hq. apply elem_of_app. by left.
  - apply elem_of_app. right. apply elem_of_broadcast. split; [done|]. rewrite Hacc. by left.
  - apply (answers_chosen acceptors s d b x Q); [done..| | |].
    + intros a Ha. destruct (Hv a Ha) as [k Hk]. exists k. by apply Hgrow.
    + intros a Ha. rewrite Hdvs. by apply HQ.
    + intros a acks Hin. pose proof (Hans _ _ Hin) as Hlog.
      destruct (ao_known _ _ (inv_accs _ _ Hi) _ _ _ Hlog) as [st Hst].
      destruct (Hok _ _ _ Hlog Hst (Htrim _ _ Hst)) as (? & ? & Hold). split; [done|]. split; [done|].
      intros Ha. by eapply Hold, Hv.
Qed.
(** The query after the two calls of [two_calls]. *)
Definition asked_state : sys Z :=
  let s0 := end_of two_calls in fork (send (broadcast [1; 2; 3] (QueryDecrees (next s0) initialDecreeId)) s0).
Definition answered_state : sys Z :=
  default asked_state (snd <$> run [1; 2; 3] [Accept 4; Accept 4; Accept 4] asked_state).
Definition answers : list (Z * list (Ack Z)) :=
  let v := MkAck initialDecreeId (Ballot 0 12) 100 in [(2, []); (3, [v]); (1, [v])].

Lemma query_reports_chosen_witness : (initialDecreeId, 100) ∈ query [1; 2; 3] answers.*2.
Proof.
  apply (query_reports_chosen [1; 2; 3] three_starts (end_of two_calls) answered_state initialDecreeId initialDecreeId 100).
  - refine (bool_decide_eq_true_1 _ _). reflexivity.
  - done.
  - apply (run_steps [1; 2; 3] two_calls). vm_compute. reflexivity.
  - exists (Ballot 0 11), [1; 3]. split.
    + split; [refine (bool_decide_eq_true_1 _ _); reflexivity|]. split; [|done].
      intros a [->|[->|[]%elem_of_nil]%elem_of_cons]%elem_of_cons; refine (bool_decide_eq_true_1 _ _); reflexivity.
    + intros a [->|[->|[]%elem_of_nil]%elem_of_cons]%elem_of_cons; exists 1.
      * apply (list_elem_of_lookup_2 _ 8). vm_compute. reflexivity.
      * apply (list_elem_of_lookup_2 _ 9). vm_compute. reflexivity.
  - apply le_refl.
  - apply (run_steps [1; 2; 3] [Accept 4; Accept 4; Accept 4]). vm_compute. reflexivity.
  - apply Permutation_sym. change ([1; 2; 3] ≡ₚ [2; 3] ++ [1]). by rewrite (Permutation_app_comm [2; 3] [1]).
  - intros a acks [[= -> ->]|[[= -> ->]|[[= -> ->]|[]%elem_of_nil]%elem_of_cons]%elem_of_cons]%elem_of_cons.
    + apply (list_elem_of_lookup_2 _ 24). vm_compute. reflexivity.
    + apply (list_elem_of_lookup_2 _ 25). vm_compute. reflexivity.
    + apply (list_elem_of_lookup_2 _ 23). vm_compute. reflexivity.
  - change (map_Forall (fun _ st => le (sd st) initialDecreeId) (accs answered_state)).
    refine (bool_decide_eq_true_1 _ _). vm_compute. reflexivity.
Defined.

End PaxosQuery.
