(* ===== verification/PaxosLive.v ===== *)
(** Progress of Basic Paxos: a call whose ballot a quorum of the acceptors can
    still accept is able to return, from every state. *)

From S2P Require Import Prelude Paxos PaxosNet PaxosSafety PaxosAgreement.
Local Open Scope Z_scope.

Module PaxosLive.
Import Paxos PaxosNet PaxosSafety PaxosAgreement.

Section Live.
Context {V : Type} (acceptors : list Z).
Implicit Types (s : sys V) (d : DecreeId) (b : BallotId) (Q : list Z).
Abbreviation steps := (rtc (step acceptors false)).

(** The acceptor would accept ballot [b] for the decree [d]. *)
Definition open_to d b (st : acceptor V) : Prop := le (sd st) d /\ below (promised st) b.

(** * Requests *)

(** One request is delivered; what is on the network otherwise stays there. *)
Lemma deliver_one a r s st st' ps :
  ToAcceptor a r ∈ net s -> accs s !! a = Some st -> handle a a st r = (st', ps) ->
  exists s', steps s s' /\ props s' = props s /\ next s' = next s /\ accs s' = <[a := st']> (accs s) /\
    (forall q, q ∈ ps -> q ∈ net s') /\ (forall q, q ∈ net s -> q <> ToAcceptor a r -> q ∈ net s').
Proof.
  intros (n1 & n2 & Hnet)%list_elem_of_split Hst Hh.
  exists (send ps (set_acc a st' (with_net (n1 ++ n2) s))). split; [by apply rtc_once; econstructor|].
  repeat (split; [done|]). simpl. split; [intros q Hq; apply elem_of_app; by right|intros q Hq Hne].
  apply elem_of_app. left.
  rewrite Hnet in Hq. apply elem_of_app in Hq as [?|[->|?]%elem_of_cons]; [|done|]; apply elem_of_app; auto.
Qed.

(** The request [r] reaches the acceptors [Q], which answer the child [k]. *)
Section Deliver.
Context (r : request V) (k : Z) (Pre Post : acceptor V -> Prop) (answer : Z -> reply V -> Prop).
Hypothesis Hhandle : forall a st, Pre st ->
  exists st' m, handle a a st r = (st', [ToProcess a k m]) /\ Post st' /\ answer a m.

Lemma deliver Q s :
  NoDup Q -> (forall a, a ∈ Q -> ToAcceptor a r ∈ net s /\ exists st, accs s !! a = Some st /\ Pre st) ->
  exists s', steps s s' /\ props s' = props s /\ next s' = next s /\
    (forall a, a ∈ Q -> (exists m, answer a m /\ ToProcess a k m ∈ net s') /\
                        exists st, accs s' !! a = Some st /\ Post st) /\
    (forall a, a ∉ Q -> accs s' !! a = accs s !! a) /\
    (forall src l m, ToProcess src l m ∈ net s -> ToProcess src l m ∈ net s').
Proof using Hhandle.
  intros Hnd. revert s. induction Hnd as [|a Q Ha Hnd IH]; intros s HQ.
  { exists s. split; [constructor|]. repeat (split; [done|]). split; [by intros a ?%elem_of_nil|done]. }
  destruct (HQ a) as [Hin (st & Hst & Hpre)]; [by left|]. destruct (Hhandle a st Hpre) as (st' & m & Hh & Hpost & Hm).
  destruct (deliver_one _ _ _ _ _ _ Hin Hst Hh) as (s1 & Hs1 & Hp1 & Hn1 & Ha1 & Hps & Hframe).
  destruct (IH s1) as (s' & Hs & Hp & Hn & HQ' & Hacc & Hnet).
  { intros a' Ha'. destruct (HQ a') as [Hin' (st1 & Hst1 & Hpre1)]; [by right|].
    assert (a' <> a) by (by intros ->). split; [apply Hframe; congruence|].
    exists st1. by rewrite Ha1, lookup_insert_ne. }
  exists s'. split; [by etrans|]. split; [congruence|]. split; [congruence|]. split; [|split].
  - intros a' [->|Ha']%elem_of_cons; [|by apply HQ']. split.
    + exists m. split; [done|]. apply Hnet, Hps. by left.
    + exists st'. by rewrite Hacc, Ha1, lookup_insert_eq.
  - intros a' [Hne Ha']%not_elem_of_cons. by rewrite Hacc, Ha1, lookup_insert_ne.
  - intros src l m' H. by apply Hnet, Hframe.
Qed.
End Deliver.

(** * Answers *)

(** One answer is received. *)
Lemma receive_one i p src k r t s :
  ToProcess src k r ∈ net s -> props s !! i = Some p -> child p = Some k ->
  on_reply acceptors i.2 p src r = Some t -> reuses p r = false ->
  exists n, steps s (perform acceptors i p t (with_net n s)) /\
    forall q, q ∈ net s -> q <> ToProcess src k r -> q ∈ n.
Proof.
  intros (n1 & n2 & Hnet)%list_elem_of_split Hp Hk Ht Hr. exists (n1 ++ n2). split.
  - apply rtc_once. rewrite <- Hr. by econstructor.
  - intros q Hq Hne. rewrite Hnet in Hq. apply elem_of_app in Hq as [?|[->|?]%elem_of_cons]; [|done|]; apply elem_of_app; auto.
Qed.

Definition promise_of (a : Z) (m : reply V) : Prop := exists b acks, m = Promise b a acks.
Definition ack_of (a : Z) (m : reply V) : Prop := exists v, m = Acked v.

(** The promises of [Q] complete the scout. *)
Lemma receive_promises Q i s x b k resps :
  NoDup Q -> Q <> [] -> (length resps + length Q = quorum acceptors)%nat ->
  props s !! i = Some (Proposal x b (Scouting k resps)) ->
  (forall a, a ∈ Q -> exists m, promise_of a m /\ ToProcess a k m ∈ net s) ->
  exists s' k' x', steps s s' /\ accs s' = accs s /\
    props s' !! i = Some (Proposal x b (Commanding k' x' [])) /\
    forall a, a ∈ acceptors -> ToAcceptor a (Syn i.2 b k' x') ∈ net s'.
Proof.
  intros Hnd. revert s resps. induction Hnd as [|a Q Ha Hnd IH]; intros s resps Hne Hlen Hp HQ; [done|].
  destruct (HQ a) as (m & (b1 & acks & ->) & Hin); [by left|].
  destruct (receive_one i _ a k _ _ s Hin Hp eq_refl eq_refl eq_refl) as (n & Hs & Hframe).
  simpl in Hlen. destruct (decide (length ((a, acks) :: resps) = quorum acceptors)) as [Hq|Hq].
  - eexists _, _, _. split; [exact Hs|]. split; [done|]. simpl. rewrite lookup_insert_eq. split; [done|].
    intros a' Ha'. apply elem_of_app. right. by apply elem_of_broadcast.
  - simpl in Hq. destruct Q as [|a' Q]; [simpl in Hlen; lia|].
    destruct (IH (set_prop i (Proposal x b (Scouting k ((a, acks) :: resps))) (with_net n s)) ((a, acks) :: resps))
      as (s' & k' & x' & Hs' & Hacc & Hp' & Hsyn); [done|simpl in *; lia|apply lookup_insert_eq| |].
    + intros a1 Ha1. destruct (HQ a1) as (m & Hm & Hin1); [by right|]. exists m. split; [done|].
      apply Hframe; [done|]. intros [= -> _]. done.
    + exists s', k', x'. split; [by etrans|]. done.
Qed.

(** The votes of [Q] complete the command. *)
Lemma receive_votes Q i s x b k x' resps :
  NoDup Q -> Q <> [] -> (length resps + length Q = quorum acceptors)%nat ->
  props s !! i = Some (Proposal x b (Commanding k x' resps)) ->
  (forall a, a ∈ Q -> exists m, ack_of a m /\ ToProcess a k m ∈ net s) ->
  exists s', steps s s' /\ props s' !! i = Some (Proposal x b (Returned x')).
Proof.
  intros Hnd. revert s resps. induction Hnd as [|a Q Ha Hnd IH]; intros s resps Hne Hlen Hp HQ; [done|].
  destruct (HQ a) as (m & (v & ->) & Hin); [by left|].
  destruct (receive_one i _ a k _ _ s Hin Hp eq_refl eq_refl eq_refl) as (n & Hs & Hframe).
  simpl in Hlen. destruct (decide (length (a :: resps) = quorum acceptors)) as [Hq|Hq].
  - eexists. split; [exact Hs|]. apply lookup_insert_eq.
  - simpl in Hq. destruct Q as [|a' Q]; [simpl in Hlen; lia|].
    destruct (IH (set_prop i (Proposal x b (Commanding k x' (a :: resps))) (with_net n s)) (a :: resps))
      as (s' & Hs' & Hp'); [done|simpl in *; lia|apply lookup_insert_eq| |].
    + intros a1 Ha1. destruct (HQ a1) as (m & Hm & Hin1); [by right|]. exists m. split; [done|].
      apply Hframe; [done|]. intros [= -> _]. done.
    + exists s'. split; [by etrans|]. done.
Qed.

(** * A call returns *)

Lemma open_prepare d b k a st :
  open_to d b st -> exists st' m, handle a a st (Prepare d b k) = (st', [ToProcess a k m]) /\ open_to d b st' /\ promise_of a m.
Proof.
  intros [Hsd Hb]. simpl. rewrite decide_False by (intros Hlt; by apply lt_not_le in Hlt). rewrite decide_True by done.
  eexists _, _. split; [done|]. split; [|by eexists _, _]. split; [done|]. apply le_refl.
Qed.

Lemma open_syn d b k x a st :
  open_to d b st -> exists st' m, handle a a st (Syn d b k x) = (st', [ToProcess a k m]) /\ True /\ ack_of a m.
Proof.
  intros [Hsd Hb]. simpl. rewrite decide_False by (intros Hlt; by apply lt_not_le in Hlt). rewrite decide_True by done.
  eexists _, _. split; [done|]. split; [done|]. by eexists.
Qed.

(** A list of exactly a quorum of acceptors that are open to [b]. *)
Definition open_quorum d b Q s : Prop :=
  NoDup Q /\ Q ⊆ acceptors /\ length Q = quorum acceptors /\
  forall a, a ∈ Q -> exists st, accs s !! a = Some st /\ open_to d b st.

Lemma open_quorum_nonempty d b Q s : open_quorum d b Q s -> Q <> [].
Proof. intros (_ & _ & Hl & _) ->. unfold quorum in Hl. simpl in Hl. lia. Qed.

Lemma command_returns Q self d s x b k x' :
  open_quorum d b Q s -> props s !! (self, d) = Some (Proposal x b (Commanding k x' [])) ->
  (forall a, a ∈ acceptors -> ToAcceptor a (Syn d b k x') ∈ net s) ->
  exists s', steps s s' /\ props s' !! (self, d) = Some (Proposal x b (Returned x')).
Proof.
  intros HQ Hp Hnet. pose proof (open_quorum_nonempty _ _ _ _ HQ) as Hne. destruct HQ as (Hnd & Hsub & Hlen & Hopen).
  destruct (deliver (Syn d b k x') k (open_to d b) (fun _ => True) ack_of (open_syn d b k x') Q s Hnd)
    as (s1 & Hs1 & Hp1 & _ & HQ1 & _); [intros a Ha; split; [by apply Hnet, Hsub|by apply Hopen]|].
  destruct (receive_votes Q (self, d) s1 x b k x' []) as (s2 & Hs2 & Hp2); [done|done|done|by rewrite Hp1|by apply HQ1|].
  exists s2. split; [by etrans|done].
Qed.

Lemma scout_returns Q self d s x b k :
  open_quorum d b Q s -> props s !! (self, d) = Some (Proposal x b (Scouting k [])) ->
  (forall a, a ∈ acceptors -> ToAcceptor a (Prepare d b k) ∈ net s) ->
  exists s' x', steps s s' /\ props s' !! (self, d) = Some (Proposal x b (Returned x')).
Proof.
  intros HQ Hp Hnet. pose proof (open_quorum_nonempty _ _ _ _ HQ) as Hne. destruct HQ as (Hnd & Hsub & Hlen & Hopen).
  destruct (deliver (Prepare d b k) k (open_to d b) (open_to d b) promise_of (open_prepare d b k) Q s Hnd)
    as (s1 & Hs1 & Hp1 & _ & HQ1 & _); [intros a Ha; split; [by apply Hnet, Hsub|by apply Hopen]|].
  destruct (receive_promises Q (self, d) s1 x b k []) as (s2 & k2 & x' & Hs2 & Hacc & Hp2 & Hsyn);
    [done|done|done|by rewrite Hp1|by apply HQ1|].
  destruct (command_returns Q self d s2 x b k2 x') as (s3 & Hs3 & Hp3); [|done|done|].
  - split; [done|]. split; [done|]. split; [done|]. intros a Ha. rewrite Hacc. by apply HQ1.
  - exists s3, x'. split; [by etrans; [|etrans]|done].
Qed.
End Live.

(** C17. No call is stuck. From every state in which a call is under way and a
    quorum of the acceptors has not trimmed its decree nor promised a ballot
    above its own, there are steps after which the call has returned: the time
    runs out, the request is sent again, and the quorum answers. *)
Theorem call_can_return {V} (acceptors : list Z) (s : sys V) self d (p : proposal V) t Q :
  props s !! (self, d) = Some p -> again p = Some t -> is_quorum acceptors Q ->
  (forall a, a ∈ Q -> exists st, accs s !! a = Some st /\ open_to d (pr_ballot p) st) ->
  exists s' x, rtc (step acceptors false) s s' /\
    props s' !! (self, d) = Some (Proposal (pr_value p) (pr_ballot p) (Returned x)).
Proof.
  intros Hp Ht (Hnd & Hsub & Hlen) Hopen.
  set (Q' := take (quorum acceptors) Q).
  assert (HQ' : forall s1, accs s1 = accs s -> open_quorum acceptors d (pr_ballot p) Q' s1).
  { intros s1 Hacc. assert (Hin : Q' ⊆ Q) by (intros a; apply subseteq_take).
    split; [by eapply sublist_NoDup; [|apply sublist_take]|]. split; [by etrans|].
    split; [unfold Q'; rewrite length_take; lia|]. intros a Ha. rewrite Hacc. by apply Hopen, Hin. }
  pose proof (step_timeout acceptors (self, d) p t s Hp Ht) as Hstep. unfold again in Ht.
  destruct (pr_phase p) as [k resps|k x' resps| |]; try done; injection Ht as <-; cbn [perform] in Hstep.
  - destruct (scout_returns acceptors Q' self d _ (pr_value p) (pr_ballot p) (next s) (HQ' (scout acceptors (self, d) (pr_value p) (pr_ballot p) s) eq_refl))
      as (s' & x & Hs & Hr); [apply lookup_insert_eq|intros a Ha; apply elem_of_app; right; by apply elem_of_broadcast|].
    exists s', x. split; [by eapply rtc_l|done].
  - destruct (command_returns acceptors Q' self d _ (pr_value p) (pr_ballot p) (next s) x' (HQ' (command acceptors (self, d) (pr_value p) (pr_ballot p) x' s) eq_refl))
      as (s' & Hs & Hr); [apply lookup_insert_eq|intros a Ha; apply elem_of_app; right; by apply elem_of_broadcast|].
    exists s', x'. split; [by eapply rtc_l|done].
Qed.

(** A call whose messages to all but the second acceptor are lost. *)
Definition lonely : sys Z := end_of [Propose 11 initialDecreeId 100; Lose 0; Lose 1; Accept 0].

Lemma call_can_return_witness :
  exists s' x, rtc (step [1; 2; 3] false) lonely s' /\
    props s' !! (11, initialDecreeId) = Some (Proposal 100 (Ballot 0 11) (Returned x)).
Proof.
  apply (call_can_return [1; 2; 3] lonely 11 initialDecreeId (call_of lonely 11) (Scout (Ballot 0 11)) [1; 3]).
  - vm_compute. reflexivity.
  - vm_compute. reflexivity.
  - split; [refine (bool_decide_eq_true_1 _ _); reflexivity|]. split; [|done].
    intros a [->|[->|[]%elem_of_nil]%elem_of_cons]%elem_of_cons; refine (bool_decide_eq_true_1 _ _); reflexivity.
  - intros a [->|[->|[]%elem_of_nil]%elem_of_cons]%elem_of_cons; eexists; (split; [vm_compute; reflexivity|]);
      (split; [apply le_refl|done]).
Defined.

End PaxosLive.
