(* ===== verification/Replica.v ===== *)
(** A replica of the replicated log (src/replicated-log, Log/Internal.hs): the
    state of the loop [go], what it keeps on disk, and one definition for each
    message it handles. What a handler does besides changing the state is a list
    of effects, in the order of the code. The clock, the choice of the snapshot
    policy, the processes it finds and starts, and the results of the calls it
    waits for are inputs; the clock is read once for each message. A time is in
    nanoseconds, a timeout in microseconds. *)

From stdpp Require Import sorting.
From S2P Require Import Prelude Paxos.
Local Open Scope Z_scope.

Module Replica.
Import Paxos.

Section Data.
Context {A S Ref : Type}.

(** * Values and requests *)

Inductive Hint := NoHint | Idempotent | Nullipotent.
Inductive Value := Values (xs : list A) | Reconf (leg : Z) (rs : list Z).

Definition isReconf (v : Value) : bool := match v with Reconf _ _ => true | _ => false end.
Definition values (v : Value) : list A := match v with Values xs => xs | Reconf _ _ => [] end.

Record Request := MkRequest { requestSender : list Z; requestValue : Value; requestHint : Hint }.
Record ProposerRequest := MkProposerRequest {
  prDecree : DecreeId; prFromBatcher : bool; prStart : Z; prRequest : Request }.
Record BatcherMsg := MkBatcherMsg {
  batcherMsgAmbassador : Z; batcherMsgEpoch : Z; batcherMsgRequest : Request }.

Inductive Locale := Local (clients pids : list Z) | Remote | Stored.

(** What a replica receives; replicas are named by their nodes. [Passed] is the
    result of a proposal and [Rejected] the return of a request, both from the
    proposer; [Dumped] comes from a dumper, [Batch] from the batcher. *)
Inductive message :=
| RenewTick
| TimeoutTick
| MDecree (start : Z) (l : Locale) (di : DecreeId) (v : Value)
| Dumped (w0' : DecreeId) (sref : Ref) (pid : Z)
| Batch (rs : list BatcherMsg)
| Passed (vi : Value) (r : ProposerRequest)
| Rejected (r : ProposerRequest)
| Query (from : Z) (n : Z)
| SnapshotInfo (rs : list Z) (legD : DecreeId) (epoch : Z) (sref : Ref) (w0 : DecreeId) (n : Z)
| Max (from : Z) (d legD : DecreeId) (epoch : Z) (rs : list Z)
| Helo (ambassador epoch client : Z) (policy : list Z -> list Z)
| Recover (ambassador epoch client : Z) (rs : list Z)
| LeaderQuery (ambassador : Z)
| ConfigQuery (client : Z)
| MembershipQuery (ambassador epoch client : Z)
| Status.

(** An operation for the pool of persistence processes: to store a decree and
    acknowledge it, to store one that is ahead of the watermark, to store a
    configuration. *)
Inductive task :=
| StoreDecree (start : Z) (l : Locale) (di : DecreeId) (v : Value)
| StoreAhead (start : Z) (l : Locale) (di : DecreeId) (v : Value)
| StoreReconf (legD : DecreeId) (rs : list Z).

Inductive effect :=
| ToReplica (node : Z) (m : message)
| ToProposer (r : ProposerRequest)
| ProposerAcceptors (rs : list Z)
| ProposerWatermark (w : DecreeId)
| ToClient (client : Z) (ok : bool)
| Wake (pid : Z)
| BatcherRequest (pid ambassador epoch : Z) (r : Request)
| BatcherConfig (pid epoch : Z) (rs : list Z)
| ExitBatcher (pid : Z)
| SpawnBatcher (pid epoch : Z) (rs : list Z)
| ToAmbassador (ambassador epoch : Z) (rs : list Z)
| ToMembershipClient (client : Z) (m : option (DecreeId * list Z))
| SendConfig (client : Z)
| Persist (t : task)
| SpawnDumper (pid : Z) (w' : DecreeId) (s' : S)
| ReleaseBelow (w0 : DecreeId)
| RenewIn (t : Z)
| TimeoutIn (t : Z).

(** * The state *)

(** The persistence handle: the log and the membership on disk, and the copy of
    the log in memory. *)
Record store := Store {
  logMap : gmap Z Value;
  membershipMap : option (DecreeId * list Z);
  logCache : gmap Z Value;
}.

Record state := State {
  stateStore : store;
  stateLeaseStart : Z;
  stateReplicas : list Z;
  stateLastProposed : option DecreeId;
  stateUnconfirmedDecree : DecreeId;
  stateCurrentDecree : DecreeId;
  stateSnapshotDumper : option (DecreeId * Z);
  stateSnapshotRef : option Ref;
  stateSnapshotWatermark : DecreeId;
  stateWatermark : DecreeId;
  stateLogState : S;
  stateEpoch : Z;
  stateReconfDecree : DecreeId;
  stateBatcher : Z;
}.

Definition insertInLog (n : Z) (v : Value) (p : store) : store :=
  Store (<[n := v]> (logMap p))
    (match v with Reconf leg rs => Some (Decree leg n, rs) | Values _ => membershipMap p end)
    (<[n := v]> (logCache p)).

(** [Map.split]: the keys on either side. *)
Definition keys_above (n : Z) (m : gmap Z Value) : gmap Z Value := filter (fun x => n < x.1) m.
Definition keys_below (n : Z) (m : gmap Z Value) : gmap Z Value := filter (fun x => x.1 < n) m.

Definition trimTheLog (w0 : Z) (p : store) : store :=
  let w0' := w0 - 1 in
  Store (filter (fun x => ~ (is_Some (keys_below w0' (logCache p) !! x.1) \/ x.1 = w0')) (logMap p))
    (membershipMap p) (keys_above w0' (logCache p)).

Fixpoint gaps (xs : list Z) : list (list Z) :=
  match xs with
  | x :: ((x' :: _) as xs') =>
      match seqZ (x + 1) (x' - 1 - (x + 1) + 1) with
      | [] => gaps xs'
      | gap => gap :: gaps xs'
      end
  | _ => []
  end.

(** The keys of [Map.insert d undefined log] are passed instead of the map. *)
Definition queryMissingFrom (self w : Z) (replicas : list Z) (known : gset Z) : list effect :=
  let pw := w - 1 in
  mjoin (gaps (pw :: merge_sort Z.le (elements (filter (fun n => pw < n) known)))) ≫= fun n =>
  (fun r => ToReplica r (Query self n)) <$> replicas.

Definition max_decree (a b : DecreeId) : DecreeId := if decide (le a b) then b else a.
Definition min_decree (a b : DecreeId) : DecreeId := if decide (le a b) then a else b.
Definition with_legislature (leg : Z) (d : DecreeId) : DecreeId := Decree leg (decreeNumber d).
End Data.
Arguments Value : clear implicits.
Arguments Request : clear implicits.
Arguments ProposerRequest : clear implicits.
Arguments BatcherMsg : clear implicits.
Arguments message : clear implicits.
Arguments task : clear implicits.
Arguments effect : clear implicits.
Arguments store : clear implicits.
Arguments state : clear implicits.

(** * The loop *)

Section Loop.
Context {A S Ref : Type} `{EqDecision A}.
#[global] Instance value_eq_dec : EqDecision (Value A).
Proof using EqDecision0. solve_decision. Defined.

(** [Config] and the callbacks of [Log]. [restore] is [None] when the snapshot
    cannot be retrieved. *)
Record config := Config {
  leaseTimeout : Z;
  leaseRenewTimeout : Z;
  driftSafetyFactor : Z * Z;
  logInitialize : S;
  logRestore : Ref -> option S;
  logDump : DecreeId -> S -> Ref;
  logNextState : S -> A -> S;
}.

(** The inputs of a turn: the clock; the decision of the snapshot policy; the
    registered batcher; a fresh process; whether a snapshot loads in time; the
    decrees that [prl_sync] and [prl_query] yield, or that they fail. *)
Record input := Input {
  now : Z;
  takeSnapshot : bool;
  whereis : option Z;
  fresh : Z;
  loads : bool;
  recovered : option (list (DecreeId * Value A));
}.

Context (cfg : config) (here : Z) (inp : input).
Implicit Types (st : state A S Ref) (rs : list Z) (w : DecreeId).
Abbreviation result := (state A S Ref * list (effect A S Ref))%type.

Definition adjustForDrift (t : Z) : Z := t * (driftSafetyFactor cfg).1 / (driftSafetyFactor cfg).2.

Definition getLeader (leaseStart : Z) rs : option Z :=
  match rs with
  | r :: _ =>
      let adjustedPeriod := if here =? r then leaseTimeout cfg else adjustForDrift (leaseTimeout cfg) in
      if now inp - leaseStart <? adjustedPeriod * 1000 then Some r else None
  | [] => None
  end.

Definition proposeLeaseRequest (di : DecreeId) (senders : list Z) (replicas : list Z) : effect A S Ref :=
  let rs' := here :: filter (fun r => r <> here) replicas in
  ToProposer (MkProposerRequest di false (now inp)
    (MkRequest senders (Reconf (decreeLegislatureId di + 1) rs') NoHint)).

Definition setLeaseRenewTimer (requestStart : Z) : list (effect A S Ref) :=
  let elapsed := (now inp - requestStart) / 1000 in
  [RenewIn (Z.max 0 (leaseTimeout cfg - leaseRenewTimeout cfg - elapsed));
   TimeoutIn (Z.max 0 (leaseTimeout cfg - elapsed))].

(** The records of Haskell are updated field by field. *)
Definition set_store (p : store A) st : state A S Ref :=
  let '(State _ l r lp d cd du sr w0 w s e ld b) := st in State p l r lp d cd du sr w0 w s e ld b.
Definition set_leaseStart (l : Z) st : state A S Ref :=
  let '(State p _ r lp d cd du sr w0 w s e ld b) := st in State p l r lp d cd du sr w0 w s e ld b.
Definition set_lastProposed (lp : option DecreeId) st : state A S Ref :=
  let '(State p l r _ d cd du sr w0 w s e ld b) := st in State p l r lp d cd du sr w0 w s e ld b.
Definition set_current (cd : DecreeId) st : state A S Ref :=
  let '(State p l r lp d _ du sr w0 w s e ld b) := st in State p l r lp d cd du sr w0 w s e ld b.
Definition set_unconfirmed (d : DecreeId) st : state A S Ref :=
  let '(State p l r lp _ cd du sr w0 w s e ld b) := st in State p l r lp d cd du sr w0 w s e ld b.
Definition set_dumper (du : option (DecreeId * Z)) st : state A S Ref :=
  let '(State p l r lp d cd _ sr w0 w s e ld b) := st in State p l r lp d cd du sr w0 w s e ld b.
Definition set_snapshot (sr : option Ref) w0 st : state A S Ref :=
  let '(State p l r lp d cd du _ _ w s e ld b) := st in State p l r lp d cd du sr w0 w s e ld b.
Definition set_watermark w st : state A S Ref :=
  let '(State p l r lp d cd du sr w0 _ s e ld b) := st in State p l r lp d cd du sr w0 w s e ld b.
Definition set_logState (s : S) st : state A S Ref :=
  let '(State p l r lp d cd du sr w0 w _ e ld b) := st in State p l r lp d cd du sr w0 w s e ld b.
Definition set_membership rs (epoch : Z) (legD : DecreeId) st : state A S Ref :=
  let '(State p l _ lp d cd du sr w0 w s _ _ b) := st in State p l rs lp d cd du sr w0 w s epoch legD b.
Definition set_batcher (b : Z) st : state A S Ref :=
  let '(State p l r lp d cd du sr w0 w s e ld _) := st in State p l r lp d cd du sr w0 w s e ld b.

Definition updateAcceptors st rs' : list (effect A S Ref) :=
  if decide (stateReplicas st = rs') then [] else [ProposerAcceptors rs'].

Definition others st : list Z := filter (fun r => r <> here) (stateReplicas st).

(** ** Decrees *)

(** An old decree. *)
Definition skipDecree st (l : Locale) : result :=
  let wakes := match l with Local _ pids => Wake <$> pids | _ => [] end in
  (st, wakes ++ ((fun r => ToReplica r (Max here (stateReconfDecree st) (stateUnconfirmedDecree st)
                                            (stateEpoch st) (stateReplicas st))) <$> others st)).

Definition maybeTakeSnapshot st (w' : DecreeId) (s' : S) : option (DecreeId * Z) * list (effect A S Ref) :=
  if decide (takeSnapshot inp = true /\ stateSnapshotDumper st = None)
  then (Some (w', fresh inp), [SpawnDumper (fresh inp) w' s'])
  else (stateSnapshotDumper st, []).

Definition executeValues st (xs : list A) : result :=
  let s' := foldl (logNextState cfg) (stateLogState st) xs in
  let w' := succ_decree (stateWatermark st) in
  let '(mdumper', effs) := maybeTakeSnapshot st w' s' in
  (set_logState s' (set_watermark w' (set_dumper mdumper'
     (set_unconfirmed (max_decree (stateUnconfirmedDecree st) w')
       (set_current (max_decree (stateCurrentDecree st) w') st)))),
   effs ++ [ProposerWatermark w']).

Definition executeReconf st (requestStart : Z) (di : DecreeId) (leg' : Z) rs' : result :=
  let d := stateUnconfirmedDecree st in
  let w' := succ_decree (with_legislature leg' (stateWatermark st)) in
  let d' := Decree leg' (Z.max (decreeNumber d) (decreeNumber w')) in
  let cd' := Decree leg' (Z.max (decreeNumber (stateCurrentDecree st)) (decreeNumber w')) in
  let '(mdumper', effs) := maybeTakeSnapshot st w' (stateLogState st) in
  let epoch' := if decide (take 1 rs' = take 1 (stateReplicas st)) then stateEpoch st else decreeLegislatureId d in
  let legD' := Decree leg' (decreeNumber di) in
  let inform :=
    if decide (stateEpoch st = epoch' /\
               merge_sort Z.le (stateReplicas st) = merge_sort Z.le rs') then []
    else match whereis inp with Some b => [BatcherConfig b epoch' rs'] | None => [] end in
  let '(bpid', spawn) :=
    match whereis inp with
    | Some b => (b, [])
    | None => if decide (getLeader requestStart rs' = Some here)
              then (fresh inp, [SpawnBatcher (fresh inp) epoch' rs'])
              else (stateBatcher st, [])
    end in
  (set_batcher bpid' (set_membership rs' epoch' legD' (set_watermark w' (set_dumper mdumper'
     (set_unconfirmed d' (set_current cd' st))))),
   updateAcceptors st rs' ++ effs ++ [ToReplica here Status] ++ inform ++ spawn ++ [ProposerWatermark w']).

Definition ignoreReconf st : result :=
  let w := stateWatermark st in
  let w' := succ_decree (with_legislature (decreeLegislatureId w + 1) w) in
  let '(mdumper', effs) := maybeTakeSnapshot st w' (stateLogState st) in
  (set_watermark w' (set_dumper mdumper' st), effs ++ [ProposerWatermark w']).

(** Once a decree is executed the timers start again. *)
Definition renewLease (requestStart : Z) (leaseStart : Z) (r : result) : result :=
  let '(st', effs) := r in
  let requestStart' := Z.max requestStart leaseStart in
  if decide (getLeader requestStart' (stateReplicas st') = Some here)
  then (set_leaseStart requestStart' st', effs ++ setLeaseRenewTimer requestStart')
  else (set_leaseStart (now inp) st', effs ++ [RenewIn (adjustForDrift (leaseTimeout cfg))]).

Definition executeDecree st (requestStart : Z) (di : DecreeId) (v : Value A) : result :=
  renewLease requestStart (stateLeaseStart st)
    (match v with
     | Values xs => executeValues st xs
     | Reconf leg' rs' =>
         if decide (decreeLegislatureId (stateUnconfirmedDecree st) < leg')
         then executeReconf st requestStart di leg' rs' else ignoreReconf st
     end).

(** The clauses for decrees, in order; [None]: the message stays in the
    mailbox. *)
Definition onDecree st (start : Z) (l : Locale) (di : DecreeId) (v : Value A) : option result :=
  let w := stateWatermark st in
  if decide (lt di (max_decree w (with_legislature (decreeLegislatureId di) w))) then Some (skipDecree st l)
  else if decide (le w di /\ decreeNumber di = decreeNumber w) then
    match l with
    | Stored => Some (executeDecree st start di v)
    | _ => Some (st, [Persist (StoreDecree start l di v)])
    end
  else match l with
       | Remote =>
           if decide (lt w di /\ logCache (stateStore st) !! decreeNumber di = None)
           then Some (st, [Persist (StoreAhead start l di v)]) else None
       | _ => None
       end.

(** ** Timers and snapshots *)

Definition onRenewTick st : option result :=
  let cd := stateCurrentDecree st in
  if decide (stateWatermark st = cd) then
    let mLeader := getLeader (stateLeaseStart st) (stateReplicas st) in
    let again := [RenewIn (leaseTimeout cfg)] in
    if decide (mLeader = Some here \/ mLeader = None)
    then Some (set_lastProposed (Some cd) (set_current (succ_decree cd) st),
               proposeLeaseRequest cd [] (stateReplicas st) :: again)
    else Some (st, again)
  else None.

Definition onTimeoutTick st : result :=
  if decide (getLeader (stateLeaseStart st) (stateReplicas st) = Some here) then (st, [])
  else (st, [ExitBatcher (stateBatcher st)]).

Definition onDumped st (w0' : DecreeId) (sref : Ref) (dumper' : Z) : result :=
  let w0 := stateSnapshotWatermark st in
  if decide (lt w0 w0') then
    let mdumper := stateSnapshotDumper st in
    (set_snapshot (Some sref) w0'
       (set_dumper (if decide (snd <$> mdumper = Some dumper') then None else mdumper)
         (set_store (trimTheLog (decreeNumber w0) (stateStore st)) st)),
     [ReleaseBelow w0])
  else (st, []).

(** ** Requests *)

Definition nullipotent (m : BatcherMsg A) : bool :=
  match requestHint (batcherMsgRequest m) with Nullipotent => true | _ => false end.

Definition updateLeg (legD : DecreeId) (v : Value A) : Value A :=
  match v with Reconf _ rs' => Reconf (decreeLegislatureId legD + 1) rs' | _ => v end.

(** The leader serves a batch. *)
Definition serveBatch st (rs : list (BatcherMsg A)) : result :=
  let cd := stateCurrentDecree st in
  let bpid := stateBatcher st in
  if forallb nullipotent rs then
    let s' := foldl (logNextState cfg) (stateLogState st) (rs ≫= (values ∘ requestValue ∘ batcherMsgRequest)) in
    (set_logState s' st,
     Wake bpid :: ((fun c => ToClient c true) <$> (rs ≫= (requestSender ∘ batcherMsgRequest))))
  else
    let rs' := filter (fun m => stateEpoch st <= batcherMsgEpoch m) rs in
    let old := filter (fun m => ~ stateEpoch st <= batcherMsgEpoch m) rs in
    let notify := (fun m => ToAmbassador (batcherMsgAmbassador m) (stateEpoch st) (stateReplicas st)) <$> old in
    match rs' with
    | [] => (st, notify ++ [Wake bpid])
    | m :: _ =>
        let r := batcherMsgRequest m in
        let req :=
          if isReconf (requestValue r)
          then MkRequest (requestSender r) (updateLeg (stateReconfDecree st) (requestValue r)) (requestHint r)
          else MkRequest (rs' ≫= (requestSender ∘ batcherMsgRequest))
                 (Values (rs' ≫= (values ∘ requestValue ∘ batcherMsgRequest))) NoHint in
        (set_lastProposed (Some cd) (set_current (succ_decree cd) st),
         notify ++ [ToProposer (MkProposerRequest cd true (now inp) req)])
    end.

Definition onBatch st (rs : list (BatcherMsg A)) : option result :=
  let cd := stateCurrentDecree st in
  let bpid := stateBatcher st in
  if decide (cd = stateWatermark st) then
    let drop := (st, [Wake bpid] ++
      ((fun m => ToAmbassador (batcherMsgAmbassador m) (stateEpoch st) (stateReplicas st)) <$> rs) ++
      [ExitBatcher bpid]) in
    Some match getLeader (stateLeaseStart st) (stateReplicas st) with
         | None =>
             if decide (here ∈ stateReplicas st)
             then (set_lastProposed (Some cd) (set_current (succ_decree cd) st),
                   [proposeLeaseRequest cd [] (stateReplicas st); ExitBatcher bpid])
             else drop
         | Some leader => if here =? leader then serveBatch st rs else drop
         end
  else None.

(** ** Results of proposals *)

Definition onPassed st (vi : Value A) (r : ProposerRequest A) : result :=
  let di := prDecree r in
  let clients := requestSender (prRequest r) in
  let passed := bool_decide (requestValue (prRequest r) = vi) in
  let pids := if prFromBatcher r then [stateBatcher st] else [] in
  let locale := if passed then Local clients pids else Remote in
  let d := stateUnconfirmedDecree st in
  let cd := stateCurrentDecree st in
  let d' := if decide (d = cd) then d else min_decree cd (max_decree d (succ_decree di)) in
  (set_unconfirmed d' st,
   [ToReplica here (MDecree (prStart r) locale di vi)] ++
   ((fun q => ToReplica q (MDecree (prStart r) Remote di vi)) <$> others st) ++
   (if negb passed && prFromBatcher r
    then Wake (stateBatcher st) :: ((fun c => ToClient c false) <$> clients) else [])).

Definition onRejected st (r : ProposerRequest A) : result :=
  (set_lastProposed None st,
   if prFromBatcher r
   then Wake (stateBatcher st) :: ((fun c => ToClient c false) <$> requestSender (prRequest r)) else []).

(** ** Queries of other replicas *)

(** [Map.findMin] fails on an empty log. *)
Definition findMin (m : gmap Z (Value A)) : option Z :=
  match merge_sort Z.le (map_to_list m).*1 with n :: _ => Some n | [] => None end.

Definition answerQuery st (from n : Z) (least : Z) : result :=
  let log := logCache (stateStore st) in
  if least <=? n then
    (st, match log !! n with
         | Some v => [ToReplica from (MDecree 0 Remote (Decree maxInt n) v)]
         | None => []
         end)
  else
    (st, match stateSnapshotRef st with
         | Some sref => [ToReplica from (SnapshotInfo (stateReplicas st) (stateReconfDecree st) (stateEpoch st) sref
                                           (stateSnapshotWatermark st) n)]
         | None => []
         end).

(** The configuration after hearing of [legD'], if it is newer. *)
Definition adopt st rs' (legD' : DecreeId) (epoch' : Z) : state A S Ref :=
  if decide (lt (stateReconfDecree st) legD') then set_membership rs' epoch' legD' st else st.

Definition onSnapshotInfo st rs' (legD' : DecreeId) (epoch' : Z) (sref' : Ref) (w0' : DecreeId) (n : Z) : result :=
  let w := stateWatermark st in
  if decide (logCache (stateStore st) !! n = None /\ decreeNumber w <= n /\ decreeNumber w < decreeNumber w0') then
    let newer := bool_decide (lt (stateReconfDecree st) legD') in
    let p := if newer then insertInLog (decreeNumber legD') (Reconf (decreeLegislatureId legD') rs') (stateStore st)
             else stateStore st in
    let st1 := set_store (trimTheLog (decreeNumber (stateSnapshotWatermark st)) p) st in
    let effs := if newer then updateAcceptors st rs' else [] in
    let leg'' := decreeLegislatureId (max_decree (stateReconfDecree st) legD') in
    let '(st2, effs2) :=
      match (if loads inp then logRestore cfg sref' else None) with
      | None => (st1, [])
      | Some s' => (set_logState s' (set_watermark w0' (set_snapshot (Some sref') w0' st1)), [ProposerWatermark w0'])
      end in
    (adopt (set_leaseStart (now inp)
       (set_unconfirmed (Decree leg'' (Z.max (decreeNumber w0') (decreeNumber (stateUnconfirmedDecree st))))
         (set_current (Decree leg'' (Z.max (decreeNumber w0') (decreeNumber (stateCurrentDecree st)))) st2)))
       rs' legD' epoch',
     effs ++ effs2)
  else (st, []).

Definition onMax st (from : Z) (d' legD' : DecreeId) (epoch' : Z) rs' : result :=
  if decide (decreeNumber (stateUnconfirmedDecree st) < decreeNumber d') then
    let newer := bool_decide (lt (stateReconfDecree st) legD') in
    let leg'' := decreeLegislatureId (max_decree (stateReconfDecree st) legD') in
    let d'' := Decree leg'' (decreeNumber d') in
    (adopt (set_leaseStart (now inp) (set_unconfirmed d''
       (set_current (max_decree d'' (stateCurrentDecree st)) st))) rs' legD' epoch',
     (if newer then [Persist (StoreReconf legD' rs')] else []) ++
     queryMissingFrom here (decreeNumber (stateWatermark st)) [from]
       ({[decreeNumber d']} ∪ dom (logCache (stateStore st))) ++
     (if newer then updateAcceptors st rs' else []))
  else (st, []).

(** ** Membership *)

Fixpoint nub (l : list Z) : list Z :=
  match l with [] => [] | x :: l => x :: filter (fun y => y <> x) (nub l) end.

(** The proposer goes to the head of the list. *)
Definition here_first rs' : list Z :=
  if decide (here ∈ rs') then here :: filter (fun r => r <> here) rs' else rs'.

Definition reconfRequest st (client : Z) rs'' : Request A :=
  MkRequest [client] (Reconf (decreeLegislatureId (stateUnconfirmedDecree st) + 1) rs'') NoHint.

(** The membership, to an ambassador, if this replica is in it. *)
Definition announce st (ambassador : Z) : list (effect A S Ref) :=
  if decide (here ∈ stateReplicas st) then [ToAmbassador ambassador (stateEpoch st) (stateReplicas st)] else [].

Definition onHelo st (ambassador e client : Z) (policy : list Z -> list Z) : option result :=
  if decide (stateEpoch st <= e /\ stateCurrentDecree st = stateWatermark st) then
    let rs'' := here_first (nub (policy (stateReplicas st))) in
    Some (st,
      if decide (getLeader (stateLeaseStart st) (stateReplicas st) = Some here)
      then [BatcherRequest (stateBatcher st) ambassador (stateEpoch st) (reconfRequest st client rs'')]
      else [ExitBatcher (stateBatcher st); ToClient client false] ++ announce st ambassador)
  else if decide (e < stateEpoch st) then
    Some (st, [ToClient client false; ToAmbassador ambassador (stateEpoch st) (stateReplicas st)])
  else None.

Fixpoint trimUnreachable (dvs : list (DecreeId * Value A)) (leg : Z) : list (DecreeId * Value A) :=
  match dvs with
  | [] => []
  | (di, v) :: ds =>
      if decreeLegislatureId di <? leg then trimUnreachable ds leg
      else (di, v) :: trimUnreachable ds (if isReconf v then decreeLegislatureId di + 1 else decreeLegislatureId di)
  end.

(** [and (zipWith (==) ns [n ..])] *)
Fixpoint consecutive (ns : list Z) (n : Z) : bool :=
  match ns with [] => true | m :: ns => (m =? n) && consecutive ns (n + 1) end.

(** The acceptors are synchronised and queried, and the lease is requested with
    the new membership. *)
Definition recoverGroup st (client : Z) rs' : result :=
  let w := stateWatermark st in
  let d := stateUnconfirmedDecree st in
  match recovered inp with
  | Some dvs =>
      if consecutive (nub ((decreeNumber ∘ fst) <$> dvs)) (decreeNumber w) then
        let dvs' := trimUnreachable dvs (decreeLegislatureId w) in
        let d' :=
          match list.last dvs' with
          | None => d
          | Some (dm, v) => max_decree d (succ_decree
              (if isReconf v then with_legislature (decreeLegislatureId dm + 1) dm else dm))
          end in
        (set_unconfirmed d' (set_current (max_decree (succ_decree d') (stateCurrentDecree st))
           (set_lastProposed (Some d') st)),
         ((fun x => ToReplica here (MDecree 0 Remote x.1 x.2)) <$> dvs') ++
         [proposeLeaseRequest d' [client] (here_first rs')] ++ updateAcceptors st rs' ++
         queryMissingFrom here (decreeNumber w) rs'
           ({[decreeNumber d']} ∪ list_to_set ((decreeNumber ∘ fst) <$> dvs') ∪ dom (logCache (stateStore st))))
      else (st, [])
  | None => (st, [])
  end.

(** A quorum of the old membership is one of the new. *)
Definition shares_quorum (rs rs'' : list Z) : bool :=
  let li := length (filter (fun r => r ∈ rs'') rs) in
  bool_decide (1 + length rs'' / 2 <= li)%nat && bool_decide (1 + length rs / 2 <= li)%nat.

Definition onRecover st (ambassador e client : Z) rs' : result :=
  let rs := stateReplicas st in
  if decide (stateEpoch st <= e) then
    let rs'' := here_first rs' in
    let mLeader :=
      match getLeader (stateLeaseStart st) rs with
      | Some nid => if bool_decide (nid ∈ rs'') && shares_quorum rs rs'' then Some nid else None
      | None => None
      end in
    let drop := (st, ToClient client false :: announce st ambassador) in
    match mLeader with
    | None => if decide (here ∈ rs') then recoverGroup st client rs' else drop
    | Some leader =>
        if here =? leader
        then (st, [BatcherRequest (stateBatcher st) ambassador (stateEpoch st) (reconfRequest st client rs'')])
        else drop
    end
  else
    let rs'' :=
      match getLeader (stateLeaseStart st) rs with
      | Some r => if decide (r ∈ rs') then r :: filter (fun q => q <> r) rs' else rs'
      | None => rs'
      end in
    (st, [ToAmbassador ambassador (stateEpoch st) rs''; ToClient client false]).

Definition onMembershipQuery st (ambassador e client : Z) : option result :=
  if decide (stateWatermark st = stateCurrentDecree st) then
    let mLeader := getLeader (stateLeaseStart st) (stateReplicas st) in
    Some (st,
      (if decide (mLeader = Some here)
       then [ToMembershipClient client (Some (stateReconfDecree st, stateReplicas st))]
       else [ToMembershipClient client None; ExitBatcher (stateBatcher st)]) ++
      (if decide (e < stateEpoch st \/ mLeader <> None) then announce st ambassador else []))
  else None.

Definition onStatus st : result :=
  (st, (fun r => ToReplica r (Max here (stateUnconfirmedDecree st) (stateReconfDecree st)
                                (stateEpoch st) (stateReplicas st))) <$> others st).

(** ** A turn *)

(** What becomes of a message: it is handled, it stays in the mailbox, or it
    kills the replica. *)
Inductive outcome := Handled (r : result) | Waits | Dies.
Definition waits_or (r : option result) : outcome := match r with Some r => Handled r | None => Waits end.

Definition goNext st (m : message A Ref) : outcome :=
  match m with
  | RenewTick => waits_or (onRenewTick st)
  | TimeoutTick => Handled (onTimeoutTick st)
  | MDecree start l di v => waits_or (onDecree st start l di v)
  | Dumped w0' sref pid => Handled (onDumped st w0' sref pid)
  | Batch rs => waits_or (onBatch st rs)
  | Passed vi r => Handled (onPassed st vi r)
  | Rejected r => Handled (onRejected st r)
  | Query from n =>
      match findMin (logCache (stateStore st)) with
      | Some least => Handled (answerQuery st from n least)
      | None => Dies
      end
  | SnapshotInfo rs' legD' epoch' sref' w0' n => Handled (onSnapshotInfo st rs' legD' epoch' sref' w0' n)
  | Max from d' legD' epoch' rs' => Handled (onMax st from d' legD' epoch' rs')
  | Helo a e c policy => waits_or (onHelo st a e c policy)
  | Recover a e c rs' => Handled (onRecover st a e c rs')
  | LeaderQuery a => Handled (st, announce st a)
  | ConfigQuery c => Handled (st, [SendConfig c])
  | MembershipQuery a e c => waits_or (onMembershipQuery st a e c)
  | Status => Handled (onStatus st)
  end.

(** The start of the next turn: a replica that is behind and has no leader
    proposes at its watermark. *)
Definition go (r : result) : result :=
  let '(st, effs) := r in
  let w := stateWatermark st in
  if decide (lt w (stateCurrentDecree st) /\ stateLastProposed st <> Some w) then
    match getLeader (stateLeaseStart st) (stateReplicas st) with
    | None => (set_lastProposed (Some w) st, effs ++ [proposeLeaseRequest w [] (stateReplicas st)])
    | Some _ => (st, effs)
    end
  else (st, effs).

Definition turn st (m : message A Ref) : outcome :=
  match goNext st m with Handled r => Handled (go r) | o => o end.

(** ** Persistence *)

(** An operation of the pool, when it runs. *)
Definition runTask (t : task A) st : result :=
  match t with
  | StoreDecree start l di v =>
      (set_store (insertInLog (decreeNumber di) v (stateStore st)) st,
       (match l with
        | Local clients pids => ((fun c => ToClient c true) <$> clients) ++ (Wake <$> pids)
        | _ => []
        end) ++ [ToReplica here (MDecree start Stored di v)])
  | StoreAhead start l di v =>
      (set_store (insertInLog (decreeNumber di) v (stateStore st)) st, [ToReplica here (MDecree start l di v)])
  | StoreReconf legD rs =>
      (set_store (insertInLog (decreeNumber legD) (Reconf (decreeLegislatureId legD) rs) (stateStore st)) st, [])
  end.

(** A snapshot that is dumped. *)
Definition runDumper (pid : Z) (w' : DecreeId) (s' : S) : effect A S Ref :=
  ToReplica here (Dumped w' (logDump cfg w' s') pid).

(** ** The start of a replica *)

(** The first snapshot that can be loaded. *)
Fixpoint findSnapshot (sns : list (DecreeId * Ref)) : DecreeId * S :=
  match sns with
  | [] => (Decree 0 0, logInitialize cfg)
  | (w0, ref) :: xs => match logRestore cfg ref with Some s => (w0, s) | None => findSnapshot xs end
  end.

(** The most recent snapshots first. *)
Definition newest_first (sns : list (DecreeId * Ref)) : list (DecreeId * Ref) :=
  merge_sort (fun x y => le y.1 x.1) sns.

(** From the store that is left on disk; the copy in memory starts empty. [sns]
    are the available snapshots, those aside that do not load in time.
    [bpid] is the batcher that is started if this replica leads. *)
Definition startReplica (leaseStart0 : Z) (decree legD0 : DecreeId) (replicas0 : list Z)
    (sns : list (DecreeId * Ref)) (p : store A) (bpid : Z) : result :=
  let '(w0, s) := findSnapshot (newest_first sns) in
  let '(legD', replicas') := default (legD0, replicas0) (membershipMap p) in
  let replicas := if decide (lt legD0 legD') then replicas' else replicas0 in
  let legD := max_decree legD0 legD' in
  let epoch := decreeLegislatureId legD in
  let log := logMap p in
  let ns := merge_sort Z.le (map_to_list log).*1 in
  let d := Decree (decreeLegislatureId legD)
    (Z.max (decreeNumber decree) (match list.last ns with None => decreeNumber w0 | Some n => n + 1 end)) in
  let others0 := filter (fun r => r <> here) replicas in
  let timers :=
    if decide (take 1 replicas = [here]) then setLeaseRenewTimer leaseStart0
    else [RenewIn (adjustForDrift (leaseTimeout cfg))] in
  let leaseStart := if decide (take 1 replicas = [here]) then leaseStart0 else now inp in
  let leads := bool_decide (getLeader leaseStart replicas = Some here) in
  go (State (Store log (membershipMap p) ∅) leaseStart replicas None d d None None w0 w0 s epoch legD
        (if leads then bpid else 0),
      ((fun n => ToReplica here (MDecree 0 Stored (Decree maxInt n) (default (Values []) (log !! n)))) <$> ns) ++
      queryMissingFrom here (decreeNumber w0) others0 ({[decreeNumber d]} ∪ dom log) ++ timers ++
      (if leads then [SpawnBatcher bpid epoch replicas] else [])).
End Loop.
Arguments config : clear implicits.
Arguments input : clear implicits.
Arguments outcome : clear implicits.
End Replica.
