(* ===== verification/ReplicaSys.v ===== *)
(** A group of replicas (Replica.v) with their disks and the messages between
    them. The consensus protocol is an interface: the values it agrees on are
    [decided], by decree, that is by legislature and number, and a proposer reports
    the value of its decree or gives the request back. The decrees that can be
    executed, one of each number, are a path through [decided]. Clients, ambassadors, batchers and timers may send
    anything at any time. Replicas crash and start again from their disks. *)

From stdpp Require Import sorting.
From S2P Require Import Prelude Paxos Replica.
Local Open Scope Z_scope.

Module ReplicaSys.
Import Paxos Replica.

Section System.
Context {A S Ref : Type} `{EqDecision A} (cfg : config A S Ref) (decided : DecreeId -> Value A).

(** * Reachable decrees (Note [Teleportation])

    A decree is reachable if all decrees before it are known and the last
    reconfiguration among them opens its legislature or an older one. *)

(** The legislature that is open at the [k]th decree. *)
Fixpoint legs_nat (k : nat) : Z :=
  match k with
  | O => 0
  | Datatypes.S k' =>
      match decided (Decree (legs_nat k') (Z.of_nat k')) with Reconf l _ => l | Values _ => legs_nat k' end
  end.
Definition legs (n : Z) : Z := legs_nat (Z.to_nat n).
Definition reachable (di : DecreeId) : Prop := legs (decreeNumber di) <= decreeLegislatureId di.
#[global] Instance reachable_dec di : Decision (reachable di).
Proof. apply Z_le_dec. Defined.

(** The value of the [n]th reachable decree. *)
Definition agreed (n : Z) : Value A := decided (Decree (legs n) n).

(** What the replicas rely on: reachable decrees inhabit all legislatures, and a
    reconfiguration opens no legislature beyond the next one. *)
Class Consensus : Prop := {
  teleportation : forall di, 0 <= decreeNumber di -> reachable di -> decided di = agreed (decreeNumber di);
  opens_next : forall n l rs, 0 <= n -> agreed n = Reconf l rs -> l <= legs n + 1;
}.

Lemma legs_succ n : 0 <= n -> legs (n + 1) = match agreed n with Reconf l _ => l | Values _ => legs n end.
Proof.
  intros Hn. unfold legs, agreed, legs. replace (Z.to_nat (n + 1)) with (Datatypes.S (Z.to_nat n)) by lia.
  cbn [legs_nat]. by rewrite Z2Nat.id.
Qed.

(** * The system *)

Inductive node := Up (st : state A S Ref) | Down (p : store A).

(** [wire] has the messages on their way with their destinations; [tasks] and
    [dumps] the persistence operations and the dumpers that have been started;
    [snapshots] those that are complete; [acked] the clients that were told that
    their request has been added to the log, with the replica and the decree. *)
Record system := System {
  nodes : gmap Z node;
  wire : list (Z * message A Ref);
  tasks : list (Z * task A);
  dumps : list (Z * (Z * DecreeId * S));
  snapshots : list (DecreeId * Ref);
  acked : list (Z * Z * DecreeId);
}.

Definition to_wire (e : effect A S Ref) : option (Z * message A Ref) :=
  match e with ToReplica n m => Some (n, m) | _ => None end.
Definition to_task (n : Z) (e : effect A S Ref) : option (Z * task A) :=
  match e with Persist t => Some (n, t) | _ => None end.
Definition to_dump (n : Z) (e : effect A S Ref) : option (Z * (Z * DecreeId * S)) :=
  match e with SpawnDumper pid w' s' => Some (n, (pid, w', s')) | _ => None end.

(** The new state of a replica, and its effects. *)
Definition update (n : Z) (r : state A S Ref * list (effect A S Ref)) (s : system) : system :=
  System (<[n := Up r.1]> (nodes s)) (wire s ++ omap to_wire r.2) (tasks s ++ omap (to_task n) r.2)
    (dumps s ++ omap (to_dump n) r.2) (snapshots s) (acked s).

Definition with_wire (l : list (Z * message A Ref)) (s : system) : system :=
  System (nodes s) l (tasks s) (dumps s) (snapshots s) (acked s).
Definition with_tasks (l : list (Z * task A)) (s : system) : system :=
  System (nodes s) (wire s) l (dumps s) (snapshots s) (acked s).
Definition with_dumps (l : list (Z * (Z * DecreeId * S))) (s : system) : system :=
  System (nodes s) (wire s) (tasks s) l (snapshots s) (acked s).
Definition add_snapshot (x : DecreeId * Ref) (s : system) : system :=
  System (nodes s) (wire s) (tasks s) (dumps s) (snapshots s ++ [x]) (acked s).
Definition add_acks (l : list (Z * Z * DecreeId)) (s : system) : system :=
  System (nodes s) (wire s) (tasks s) (dumps s) (snapshots s) (acked s ++ l).
(** The operations that a replica has started go down with it. *)
Definition stop (n : Z) (p : store A) (s : system) : system :=
  System (<[n := Down p]> (nodes s)) (wire s) (filter (fun x => x.1 <> n) (tasks s))
    (filter (fun x => x.1 <> n) (dumps s)) (snapshots s) (acked s).

(** The clients that an operation acknowledges. *)
Definition acks_of (n : Z) (t : task A) : list (Z * Z * DecreeId) :=
  match t with StoreDecree _ (Local clients _) di _ => (fun c => (n, c, di)) <$> clients | _ => [] end.

(** What the processes outside may send: a batch is honest if its nullipotent
    requests leave the state alone; the result of a proposal is the value of its
    decree, reachable or not. *)
Definition harmless (m : BatcherMsg A) : Prop :=
  nullipotent m = true -> forall s, foldl (logNextState cfg) s (values (requestValue (batcherMsgRequest m))) = s.
Definition external (m : message A Ref) : Prop :=
  match m with
  | MDecree _ _ _ _ | Dumped _ _ _ | Query _ _ | SnapshotInfo _ _ _ _ _ _ | Max _ _ _ _ _ => False
  | Batch rs => Forall harmless rs
  | Passed vi r => vi = decided (prDecree r)
  | _ => True
  end.

(** The decrees a recovery finds at the acceptors have their values. *)
Definition honest (inp : input A) : Prop :=
  forall dvs, recovered inp = Some dvs -> Forall (fun x => x.2 = decided x.1) dvs.

(** The configuration with which the group was created; later ones are agreed
    on. *)
Context (base : DecreeId).
Definition config_ok (legD : DecreeId) (rs : list Z) : Prop :=
  lt base legD -> agreed (decreeNumber legD) = Reconf (decreeLegislatureId legD) rs.
#[global] Instance config_ok_dec legD rs : Decision (config_ok legD rs).
Proof using EqDecision0. unfold config_ok. apply _. Defined.

(** What makes a replica go wrong: it takes over from an advertisement, as newer
    than its own, a configuration that was not agreed on (only those of
    [skipDecree], which swap two fields, have one); or it stores ahead of its
    watermark a decree of a legislature that ends before it. *)
Definition misled (st : state A S Ref) (m : message A Ref) : bool :=
  match m with
  | Max _ d' legD' _ rs' =>
      bool_decide (decreeNumber (stateUnconfirmedDecree st) < decreeNumber d' /\
        lt (stateReconfDecree st) legD' /\ ~ config_ok legD' rs')
  | MDecree _ Remote di _ =>
      let w := stateWatermark st in
      bool_decide (decreeNumber w < decreeNumber di /\ decreeLegislatureId w <= decreeLegislatureId di /\ ~ reachable di)
  | _ => false
  end.

Inductive step : bool -> system -> system -> Prop :=
| step_receive n m st inp r l1 l2 s :
    wire s = l1 ++ (n, m) :: l2 -> nodes s !! n = Some (Up st) -> honest inp ->
    turn cfg n inp st m = Handled r -> step (misled st m) s (update n r (with_wire (l1 ++ l2) s))
| step_die n m st inp l1 l2 s :
    wire s = l1 ++ (n, m) :: l2 -> nodes s !! n = Some (Up st) -> turn cfg n inp st m = Dies ->
    step false s (stop n (stateStore st) (with_wire (l1 ++ l2) s))
| step_external n m st inp r s :
    external m -> nodes s !! n = Some (Up st) -> honest inp ->
    turn cfg n inp st m = Handled r -> step false s (update n r s)
| step_task n t st l1 l2 s :
    tasks s = l1 ++ (n, t) :: l2 -> nodes s !! n = Some (Up st) ->
    step false s (add_acks (acks_of n t) (update n (runTask n t st) (with_tasks (l1 ++ l2) s)))
| step_dump n pid w' s' st l1 l2 s :
    dumps s = l1 ++ (n, (pid, w', s')) :: l2 -> nodes s !! n = Some (Up st) ->
    step false s (add_snapshot (w', logDump cfg w' s')
      (update n (st, [runDumper cfg n pid w' s']) (with_dumps (l1 ++ l2) s)))
| step_crash n st s :
    nodes s !! n = Some (Up st) -> step false s (stop n (stateStore st) s)
| step_start n p inp leaseStart0 decree legD0 replicas0 sns bpid s :
    nodes s !! n = Some (Down p) -> le base legD0 -> config_ok legD0 replicas0 -> sns ⊆ snapshots s ->
    step false s (update n (startReplica cfg n inp leaseStart0 decree legD0 replicas0 sns p bpid) s)
| step_lose x l1 l2 s : wire s = l1 ++ x :: l2 -> step false s (with_wire (l1 ++ l2) s).

(** Replicas that have never run. *)
Definition initial (ns : list Z) : system :=
  System (gset_to_gmap (Down (Store ∅ None ∅)) (list_to_set ns)) [] [] [] [] [].

(** * Running the system *)

(** A step by name; messages, operations and dumpers are taken by their
    places. A replica starts without snapshots. *)
Inductive move :=
| Receive (i : nat)
| External (n : Z) (m : message A Ref)
| RunTask (i : nat)
| RunDump (i : nat)
| Crash (n : Z)
| Start (n : Z) (legD0 : DecreeId) (replicas0 : list Z)
| Lose (i : nat).

Definition without {X} (i : nat) (l : list X) : list X := take i l ++ drop (Datatypes.S i) l.

Definition exec (inp : input A) (mv : move) (s : system) : option (bool * system) :=
  match mv with
  | Receive i =>
      match wire s !! i with
      | Some (n, m) =>
          match nodes s !! n with
          | Some (Up st) =>
              match turn cfg n inp st m with
              | Handled r => Some (misled st m, update n r (with_wire (without i (wire s)) s))
              | Waits => None
              | Dies => Some (false, stop n (stateStore st) (with_wire (without i (wire s)) s))
              end
          | _ => None
          end
      | None => None
      end
  | External n m =>
      match nodes s !! n with
      | Some (Up st) =>
          match turn cfg n inp st m with Handled r => Some (false, update n r s) | _ => None end
      | _ => None
      end
  | RunTask i =>
      match tasks s !! i with
      | Some (n, t) =>
          match nodes s !! n with
          | Some (Up st) =>
              Some (false, add_acks (acks_of n t) (update n (runTask n t st) (with_tasks (without i (tasks s)) s)))
          | _ => None
          end
      | None => None
      end
  | RunDump i =>
      match dumps s !! i with
      | Some (n, (pid, w', s')) =>
          match nodes s !! n with
          | Some (Up st) =>
              Some (false, add_snapshot (w', logDump cfg w' s')
                (update n (st, [runDumper cfg n pid w' s']) (with_dumps (without i (dumps s)) s)))
          | _ => None
          end
      | None => None
      end
  | Crash n => match nodes s !! n with Some (Up st) => Some (false, stop n (stateStore st) s) | _ => None end
  | Start n legD0 replicas0 =>
      match nodes s !! n with
      | Some (Down p) => Some (false, update n (startReplica cfg n inp 0 legD0 legD0 replicas0 [] p 0) s)
      | _ => None
      end
  | Lose i => match wire s !! i with Some _ => Some (false, with_wire (without i (wire s)) s) | None => None end
  end.

(** What a move promises about the outside. *)
Definition legal (mv : move) : Prop :=
  match mv with
  | External _ m => external m
  | Start _ legD0 replicas0 => le base legD0 /\ config_ok legD0 replicas0
  | _ => True
  end.

Lemma replica_exec_step inp mv s fl s' : honest inp -> legal mv -> exec inp mv s = Some (fl, s') -> step fl s s'.
Proof.
  assert (Hsplit : forall X (l : list X) i x, l !! i = Some x -> l = take i l ++ x :: drop (Datatypes.S i) l).
  { intros X l i x H. symmetry. by apply take_drop_middle. }
  intros Hh Hl. destruct mv as [i|n m|i|i|n|n legD0 replicas0|i]; simpl; intros H.
  - destruct (wire s !! i) as [[n m]|] eqn:Hw; [|done]. destruct (nodes s !! n) as [[st|]|] eqn:Hn; try done.
    destruct (turn cfg n inp st m) as [r| |] eqn:Ht; try done; simplify_eq.
    + by eapply step_receive; [apply Hsplit|..].
    + by eapply step_die; [apply Hsplit|..].
  - destruct (nodes s !! n) as [[st|]|] eqn:Hn; try done. destruct (turn cfg n inp st m) eqn:Ht; simplify_eq.
    by eapply step_external.
  - destruct (tasks s !! i) as [[n t]|] eqn:Hw; [|done]. destruct (nodes s !! n) as [[st|]|] eqn:Hn; simplify_eq.
    by eapply step_task; [apply Hsplit|].
  - destruct (dumps s !! i) as [[n [[pid w'] s0]]|] eqn:Hw; [|done]. destruct (nodes s !! n) as [[st|]|] eqn:Hn; simplify_eq.
    by eapply step_dump; [apply Hsplit|].
  - destruct (nodes s !! n) as [[st|]|] eqn:Hn; simplify_eq. by apply step_crash.
  - destruct (nodes s !! n) as [[st|p]|] eqn:Hn; simplify_eq. destruct Hl. apply step_start; [done..|]. by intros x ?%elem_of_nil.
  - destruct (wire s !! i) as [x|] eqn:Hw; simplify_eq. by eapply step_lose, Hsplit.
Qed.

Fixpoint run (inp : input A) (mvs : list move) (s : system) : option (bool * system) :=
  match mvs with
  | [] => Some (false, s)
  | mv :: mvs => '(fl, s') ← exec inp mv s; '(fl', s'') ← run inp mvs s'; Some (fl || fl', s'')
  end.

Lemma replica_run_steps inp mvs s s' :
  honest inp -> Forall legal mvs -> run inp mvs s = Some (false, s') -> rtc (step false) s s'.
Proof.
  intros Hh Hl. revert s. induction Hl as [|mv mvs Hmv _ IH]; intros s; simpl; [intros [= <-]; constructor|].
  destruct (exec inp mv s) as [[fl s1]|] eqn:H1; simpl; [|done].
  destruct (run inp mvs s1) as [[fl' s2]|] eqn:H2; simpl; [|done]. intros [= [-> ->]%orb_false_iff ->].
  eapply rtc_l; [by eapply replica_exec_step|by apply IH].
Qed.

Lemma replica_run_any_steps inp mvs s fl s' :
  honest inp -> Forall legal mvs -> run inp mvs s = Some (fl, s') -> rtc (fun s s' => exists fl, step fl s s') s s'.
Proof.
  intros Hh Hl. revert s fl. induction Hl as [|mv mvs Hmv _ IH]; intros s fl; simpl; [intros [= <- <-]; constructor|].
  destruct (exec inp mv s) as [[fl1 s1]|] eqn:H1; simpl; [|done].
  destruct (run inp mvs s1) as [[fl' s2]|] eqn:H2; simpl; [|done]. intros [= _ <-].
  eapply rtc_l; [eexists; by eapply replica_exec_step|by eapply IH].
Qed.

(** * What the state should be *)

Definition apply (s : S) (v : Value A) : S :=
  match v with Values xs => foldl (logNextState cfg) s xs | Reconf _ _ => s end.

(** The state after the reachable decrees below [n]. *)
Definition executed (n : Z) : S := foldl apply (logInitialize cfg) (agreed <$> seqZ 0 n).
End System.
Arguments node : clear implicits.
Arguments system : clear implicits.
Arguments move : clear implicits.
End ReplicaSys.
