(* ===== verification/ReplicaSafety.v ===== *)
(** State machine replication: in every run of the system of ReplicaSys.v in
    which no replica is misled, the state of a replica is the result of the
    reachable decrees below its watermark, in order, and its watermark is
    reachable: this is what the comparisons of legislatures in [onDecree] are
    for. *)

From stdpp Require Import sorting.
From S2P Require Import Prelude Paxos Replica ReplicaSys.
Local Open Scope Z_scope.

Module ReplicaSafety.
Import Paxos Replica ReplicaSys.

Section Safety.
Context {A S Ref : Type} `{EqDecision A} (cfg : config A S Ref) (decided : DecreeId -> Value A) (base : DecreeId).
Context {CO : Consensus decided}.
Hypothesis restore_dump : forall w s, logRestore cfg (logDump cfg w s) = Some s.
Implicit Types (st : state A S Ref) (p : store A) (m : message A Ref).
Abbreviation agreed := (agreed decided).
Abbreviation legs := (legs decided).
Abbreviation reachable := (reachable decided).
Abbreviation executed := (executed cfg decided).
Abbreviation config_ok := (config_ok decided base).
Abbreviation misled := (misled decided base).

Lemma executed_succ n : 0 <= n -> executed (n + 1) = apply cfg (executed n) (agreed n).
Proof.
  intros Hn. unfold ReplicaSys.executed. replace (n + 1) with (Z.of_nat (Datatypes.S (Z.to_nat n))) by lia.
  rewrite seqZ_S, fmap_app, foldl_app. simpl. by rewrite Z2Nat.id.
Qed.

(** ** Reachable decrees *)

(** The value that a decree has, or that a replica has for its number. *)
Definition value_ok (di : DecreeId) (v : Value A) : Prop := v = decided di \/ v = agreed (decreeNumber di).

Lemma reachable_value di v : 0 <= decreeNumber di -> reachable di -> value_ok di v -> v = agreed (decreeNumber di).
Proof using CO. intros H0 Hr [->| ->]; [by apply teleportation|done]. Qed.

Lemma reachable_later w di :
  reachable w -> decreeNumber di = decreeNumber w -> decreeLegislatureId w <= decreeLegislatureId di -> reachable di.
Proof. unfold ReplicaSys.reachable. intros H -> ?. lia. Qed.

Lemma reachable_values w xs :
  0 <= decreeNumber w -> reachable w -> agreed (decreeNumber w) = Values xs -> reachable (succ_decree w).
Proof. unfold ReplicaSys.reachable. intros H0 Hr Hv. simpl. rewrite legs_succ, Hv by done. done. Qed.

Lemma reachable_reconf w leg rs leg' :
  0 <= decreeNumber w -> agreed (decreeNumber w) = Reconf leg rs -> leg <= leg' ->
  reachable (succ_decree (with_legislature leg' w)).
Proof. unfold ReplicaSys.reachable. intros H0 Hv Hle. simpl. rewrite legs_succ, Hv by done. done. Qed.

(** A decree that is not skipped is of the legislature of the watermark or a later
    one. *)
Lemma not_skipped w di :
  ~ lt di (max_decree w (with_legislature (decreeLegislatureId di) w)) ->
  decreeLegislatureId w <= decreeLegislatureId di /\ decreeNumber w <= decreeNumber di.
Proof.
  destruct w as [l m], di as [l' m']. unfold max_decree, with_legislature. destruct (decide _) as [H|H];
    unfold le, lt in *; simpl in *; lia.
Qed.

(** * The invariant *)

(** The watermarks of the snapshots that exist. *)
Context (Known : DecreeId -> Prop).

Definition store_ok p : Prop :=
  (forall n v, logMap p !! n = Some v -> v = agreed n) /\
  (forall n v, logCache p !! n = Some v -> v = agreed n) /\
  (forall legD rs, membershipMap p = Some (legD, rs) -> config_ok legD rs).

(** The state [s] is that of the decrees below [w], and [w] is reachable. *)
Definition caught_up (w : DecreeId) (s : S) : Prop :=
  (0 <= decreeNumber w /\ reachable w) /\ s = executed (decreeNumber w).

Definition snapshot_ok (w : DecreeId) (r : Ref) : Prop :=
  Known w /\ (0 <= decreeNumber w /\ reachable w) /\ logRestore cfg r = Some (executed (decreeNumber w)).

(** The legislatures do not go below that of [base]. *)
Definition legs_ok st : Prop :=
  decreeLegislatureId base <= decreeLegislatureId (stateUnconfirmedDecree st) /\
  decreeLegislatureId base <= decreeLegislatureId (stateCurrentDecree st).

Record state_ok st : Prop := {
  so_store : store_ok (stateStore st);
  so_state : caught_up (stateWatermark st) (stateLogState st);
  so_base : le base (stateReconfDecree st);
  so_config : config_ok (stateReconfDecree st) (stateReplicas st);
  so_snapshot : forall r, stateSnapshotRef st = Some r -> snapshot_ok (stateSnapshotWatermark st) r;
  so_legs : legs_ok st;
  so_known : decreeNumber (stateSnapshotWatermark st) <= 0 \/ Known (stateSnapshotWatermark st);
}.

Definition message_ok m : Prop :=
  match m with
  | MDecree _ _ di v => value_ok di v
  | Dumped w0' sref _ => snapshot_ok w0' sref
  | SnapshotInfo rs legD _ sref w0 _ => config_ok legD rs /\ snapshot_ok w0 sref
  | Max _ d legD _ rs => config_ok legD rs \/ config_ok d rs
  | Batch rs => Forall (harmless cfg) rs
  | Passed vi r => vi = decided (prDecree r)
  | _ => True
  end.

Definition task_ok (t : task A) : Prop :=
  match t with
  | StoreDecree _ _ di v => v = agreed (decreeNumber di) /\ 0 <= decreeNumber di
  | StoreAhead _ _ di v => v = agreed (decreeNumber di)
  | StoreReconf legD rs => agreed (decreeNumber legD) = Reconf (decreeLegislatureId legD) rs
  end.

Definition effect_ok (e : effect A S Ref) : Prop :=
  match e with
  | ToReplica _ m => message_ok m
  | Persist t => task_ok t
  | SpawnDumper _ w' s' => caught_up w' s'
  | _ => True
  end.

Definition result_ok (r : state A S Ref * list (effect A S Ref)) : Prop := state_ok r.1 /\ Forall effect_ok r.2.

(** ** Effects and updates *)

Lemma effects_app l1 l2 : Forall effect_ok (l1 ++ l2) <-> Forall effect_ok l1 /\ Forall effect_ok l2.
Proof. apply list.Forall_app. Qed.

(** Effects that carry nothing to other replicas or to the disk. *)
Definition mute (e : effect A S Ref) : bool :=
  match e with ToReplica _ _ | Persist _ | SpawnDumper _ _ _ => false | _ => true end.

Lemma mute_ok e : mute e = true -> effect_ok e.
Proof. by destruct e. Qed.
Lemma mutes_ok l : forallb mute l = true -> Forall effect_ok l.
Proof. intros H. apply list.Forall_forall. intros e He. apply mute_ok. rewrite forallb_forall in H. apply H. by apply list_elem_of_In. Qed.
Lemma mutes_fmap {B} (f : B -> effect A S Ref) l : (forall x, mute (f x) = true) -> Forall effect_ok (f <$> l).
Proof. intros H. apply list.Forall_fmap, list.Forall_true. intros x. by apply mute_ok. Qed.
Lemma sends_fmap {B} (f : B -> effect A S Ref) l : (forall x, effect_ok (f x)) -> Forall effect_ok (f <$> l).
Proof. intros H. by apply list.Forall_fmap, list.Forall_true. Qed.

(** States that agree on what the invariant is about. *)
Definition same st st' : Prop :=
  stateStore st' = stateStore st /\ stateWatermark st' = stateWatermark st /\ stateLogState st' = stateLogState st /\
  stateReconfDecree st' = stateReconfDecree st /\ stateReplicas st' = stateReplicas st /\
  stateSnapshotRef st' = stateSnapshotRef st /\ stateSnapshotWatermark st' = stateSnapshotWatermark st /\ legs_ok st'.

Lemma same_ok st st' : same st st' -> state_ok st -> state_ok st'.
Proof. intros (H1 & H2 & H3 & H4 & H5 & H6 & H7 & H8) []. constructor; rewrite ?H1, ?H2, ?H3, ?H4, ?H5, ?H6, ?H7; done. Qed.

Lemma le_leg d d' : le d d' -> decreeLegislatureId d <= decreeLegislatureId d'.
Proof. unfold le. simpl. lia. Qed.
Lemma max_leg d d' l :
  l <= decreeLegislatureId d \/ l <= decreeLegislatureId d' -> l <= decreeLegislatureId (max_decree d d').
Proof. unfold max_decree. destruct (decide _) as [H|H]; [apply le_leg in H; lia|]. unfold le in H. simpl in H. lia. Qed.
Lemma min_leg d d' l :
  l <= decreeLegislatureId d -> l <= decreeLegislatureId d' -> l <= decreeLegislatureId (min_decree d d').
Proof. unfold min_decree. by destruct (decide _). Qed.

Lemma insert_ok n v p : v = agreed n -> store_ok p -> store_ok (insertInLog n v p).
Proof.
  intros -> (H1 & H2 & H3). split; [|split]; simpl.
  - intros n' v' [[<- <-]|[_ H]]%lookup_insert_Some; [done|by apply H1].
  - intros n' v' [[<- <-]|[_ H]]%lookup_insert_Some; [done|by apply H2].
  - destruct (agreed n) eqn:Hn; [done|]. intros legD rs' [= <- <-] _. simpl. done.
Qed.

Lemma trim_ok w0 p : store_ok p -> store_ok (trimTheLog w0 p).
Proof.
  intros (H1 & H2 & H3). split; [|split; [|done]]; simpl.
  - intros n v [H _]%map_lookup_filter_Some. by apply H1.
  - intros n v [H _]%map_lookup_filter_Some. by apply H2.
Qed.

Lemma go_ok n inp r : result_ok r -> result_ok (go cfg n inp r).
Proof.
  destruct r as [st effs]. intros [Hst He]. unfold go. destruct (decide _); [|done].
  destruct (getLeader _ _ _ _ _); [done|]. split; simpl.
  - eapply same_ok; [|done]. pose proof (so_legs _ Hst) as Hl. destruct st. repeat split; apply Hl.
  - apply effects_app. split; [done|]. by repeat constructor.
Qed.

(** * The handlers *)

Section Handlers.
Context (n : Z) (inp : input A).

Lemma caught_up_next w w' s :
  caught_up w s -> decreeNumber w' = decreeNumber w + 1 -> reachable w' ->
  caught_up w' (apply cfg s (agreed (decreeNumber w))).
Proof. intros [[H0 _] ->] Hw Hr. unfold caught_up. rewrite Hw. split; [split; [lia|done]|]. by rewrite executed_succ. Qed.

Lemma snapshot_effects st w' s' :
  caught_up w' s' -> Forall effect_ok (maybeTakeSnapshot inp st w' s').2.
Proof. intros H. unfold maybeTakeSnapshot. destruct (decide _); [by constructor|constructor]. Qed.

Lemma acceptors_effects st rs : Forall effect_ok (updateAcceptors st rs : list (effect A S Ref)).
Proof. unfold updateAcceptors. destruct (decide _); by repeat constructor. Qed.

(** A state whose watermark has moved on. *)
Definition advanced st st' : Prop :=
  stateStore st' = stateStore st /\ caught_up (stateWatermark st') (stateLogState st') /\
  stateReconfDecree st' = stateReconfDecree st /\ stateReplicas st' = stateReplicas st /\
  stateSnapshotRef st' = stateSnapshotRef st /\ stateSnapshotWatermark st' = stateSnapshotWatermark st /\ legs_ok st'.

Lemma advanced_ok st st' : advanced st st' -> state_ok st -> state_ok st'.
Proof. intros (H1 & H2 & H4 & H5 & H6 & H7 & H8) []. constructor; rewrite ?H1, ?H4, ?H5, ?H6, ?H7; done. Qed.

Lemma executeValues_ok st xs :
  state_ok st -> agreed (decreeNumber (stateWatermark st)) = Values xs -> result_ok (executeValues cfg inp st xs).
Proof.
  intros Hok Hv. unfold executeValues.
  assert (Hnext : caught_up (succ_decree (stateWatermark st)) (foldl (logNextState cfg) (stateLogState st) xs)).
  { pose proof (so_state _ Hok) as Hs. destruct Hs as [[H0 Hr] _].
    pose proof (caught_up_next _ (succ_decree (stateWatermark st)) _ (so_state _ Hok) eq_refl
      (reachable_values _ _ H0 Hr Hv)) as H. by rewrite Hv in H. }
  pose proof (snapshot_effects st _ _ Hnext) as He.
  destruct (maybeTakeSnapshot _ _ _ _) as [mdumper effs]. split; simpl in *.
  - eapply advanced_ok; [|done]. destruct (so_legs _ Hok) as [Hd Hcd]. destruct st.
    repeat split; try apply Hnext; try (apply max_leg; by left).
  - apply effects_app. split; [done|]. by repeat constructor.
Qed.

Lemma executeReconf_ok st start di leg rs :
  state_ok st -> agreed (decreeNumber (stateWatermark st)) = Reconf leg rs ->
  decreeNumber di = decreeNumber (stateWatermark st) -> decreeLegislatureId (stateUnconfirmedDecree st) < leg ->
  result_ok (executeReconf cfg n inp st start di leg rs).
Proof.
  intros Hok Hv Hdi Hleg. unfold executeReconf.
  assert (Hnext : caught_up (succ_decree (with_legislature leg (stateWatermark st))) (stateLogState st)).
  { pose proof (so_state _ Hok) as [[H0 _] _].
    pose proof (caught_up_next _ (succ_decree (with_legislature leg (stateWatermark st))) _ (so_state _ Hok) eq_refl
      (reachable_reconf _ _ _ leg H0 Hv (Z.le_refl _))) as H. by rewrite Hv in H. }
  pose proof (snapshot_effects st _ _ Hnext) as He. pose proof (so_legs _ Hok) as [Hd _].
  destruct (maybeTakeSnapshot _ _ _ _) as [mdumper effs]. simpl in He.
  match goal with |- context [match whereis inp with Some b => (b, []) | None => ?x end] =>
    destruct (match whereis inp with Some b => (b, []) | None => x end) as [bpid spawn] eqn:Hb end.
  assert (Hspawn : Forall effect_ok spawn).
  { destruct (whereis inp); [by injection Hb as <- <-|]. destruct (decide _); injection Hb as <- <-; by repeat constructor. }
  split; simpl.
  - destruct Hok as [Hs _ _ _ Hsn _ Hkn]. destruct st; simpl in *. constructor; simpl; try done.
    + unfold le. simpl. lia.
    + intros _. simpl. by rewrite Hdi.
    + split; simpl; lia.
  - apply effects_app. split; [apply acceptors_effects|]. apply effects_app. split; [done|]. constructor; [done|].
    apply effects_app. split; [|apply effects_app; split; [done|by repeat constructor]].
    repeat case_match; by repeat constructor.
Qed.

Lemma ignoreReconf_ok st leg rs :
  state_ok st -> agreed (decreeNumber (stateWatermark st)) = Reconf leg rs -> result_ok (ignoreReconf inp st).
Proof.
  intros Hok Hv. unfold ignoreReconf.
  set (w' := succ_decree (with_legislature _ _)).
  assert (Hnext : caught_up w' (stateLogState st)).
  { pose proof (so_state _ Hok) as [[H0 Hr] _]. pose proof (opens_next decided _ _ _ H0 Hv) as Hl.
    assert (Hr' : reachable w') by (eapply reachable_reconf; [done|exact Hv|unfold ReplicaSys.reachable in Hr; lia]).
    pose proof (caught_up_next _ w' _ (so_state _ Hok) eq_refl Hr') as H. by rewrite Hv in H. }
  pose proof (snapshot_effects st _ _ Hnext) as He. destruct (maybeTakeSnapshot _ _ _ _) as [mdumper effs]. split; simpl in *.
  - eapply advanced_ok; [|done]. destruct (so_legs _ Hok) as [Hd Hcd]. destruct st. repeat split; try apply Hnext; done.
  - apply effects_app. split; [done|]. by repeat constructor.
Qed.

Lemma renewLease_ok start leaseStart r : result_ok r -> result_ok (renewLease cfg n inp start leaseStart r).
Proof.
  destruct r as [st effs]. intros [Hok He]. unfold renewLease. simpl in *.
  assert (Hsame : forall l, state_ok (set_leaseStart l st)).
  { intros l. eapply same_ok; [|done]. pose proof (so_legs _ Hok) as Hl. destruct st. repeat split; apply Hl. }
  destruct (decide _); (split; simpl; [apply Hsame|]); apply effects_app; (split; [done|]); by repeat constructor.
Qed.

Lemma skipDecree_ok st l : state_ok st -> result_ok (skipDecree n st l).
Proof.
  intros Hok. split; [done|]. apply effects_app. split; [destruct l; try constructor; by apply mutes_fmap|].
  apply sends_fmap. intros x. right. apply (so_config _ Hok).
Qed.

Lemma onDecree_ok st start l di v r :
  state_ok st -> value_ok di v -> misled st (MDecree start l di v : message A Ref) = false ->
  onDecree cfg n inp st start l di v = Some r -> result_ok r.
Proof using CO.
  intros Hok Hv Hm Hr. unfold onDecree in Hr. destruct (decide (lt di _)) as [Hskip|Hskip].
  { injection Hr as <-. by apply skipDecree_ok. }
  pose proof (so_state _ Hok) as [[H0 Hw] _]. apply not_skipped in Hskip as [Hleg Hnum].
  destruct (decide (le _ _ /\ _)) as [[Hle Hn]|Hne].
  - assert (Hag : v = agreed (decreeNumber di)).
    { apply reachable_value; [lia| |done]. eapply reachable_later; [exact Hw|done|by apply le_leg]. }
    clear Hv. subst v. destruct l; injection Hr as <-; try (split; [done|]; constructor; [split; [done|lia]|constructor]).
    unfold executeDecree. apply renewLease_ok. rewrite Hn.
    destruct (agreed (decreeNumber (stateWatermark st))) as [xs|leg rs] eqn:Hv.
    + by apply executeValues_ok.
    + destruct (decide _); [by apply executeReconf_ok|by eapply ignoreReconf_ok].
  - destruct l; try done. destruct (decide _) as [[Hlt _]|]; [|done]. injection Hr as <-. split; [done|].
    constructor; [|constructor]. simpl. apply bool_decide_eq_false in Hm.
    assert (decreeNumber (stateWatermark st) < decreeNumber di).
    { destruct (decide (decreeNumber di = decreeNumber (stateWatermark st))); [|lia]. destruct Hne. split; [by apply lt_le|done]. }
    apply reachable_value; [lia| |done]. destruct (decide (reachable di)); [done|]. by destruct Hm.
Qed.

Ltac same_state := eapply same_ok; [|eassumption]; repeat split; simpl; try done.

Lemma current_ok st cd lp :
  state_ok st -> decreeLegislatureId base <= decreeLegislatureId cd -> state_ok (set_lastProposed lp (set_current cd st)).
Proof. intros Hok Hcd. pose proof (so_legs _ Hok) as [Hd _]. destruct st. by same_state. Qed.

Lemma unconfirmed_ok st d :
  state_ok st -> decreeLegislatureId base <= decreeLegislatureId d -> state_ok (set_unconfirmed d st).
Proof. intros Hok Hd. pose proof (so_legs _ Hok) as [_ Hcd]. destruct st. by same_state. Qed.

Lemma onRenewTick_ok st r : state_ok st -> onRenewTick cfg n inp st = Some r -> result_ok r.
Proof.
  intros Hok Hr. unfold onRenewTick in Hr. destruct (decide (_ = stateCurrentDecree st)); [|done].
  destruct (decide _); injection Hr as <-; (split; [|by repeat constructor]); [|done].
  apply current_ok; [done|]. apply (so_legs _ Hok).
Qed.

Lemma onDumped_ok st w0' sref pid : state_ok st -> snapshot_ok w0' sref -> result_ok (onDumped st w0' sref pid).
Proof.
  intros Hok Hs. unfold onDumped. destruct (decide (lt _ _)); [|by split; [|constructor]].
  split; [|by repeat constructor]. destruct Hok as [Hst ? ? ? ? Hl ?]. destruct Hs as (Hk & Hs). destruct st; simpl in *. constructor; simpl; try done.
  - by apply trim_ok.
  - by intros r [= <-].
  - by right.
Qed.

Lemma nullipotent_state (rs : list (BatcherMsg A)) s :
  Forall (harmless cfg) rs -> forallb nullipotent rs = true ->
  foldl (logNextState cfg) s (rs ≫= (values ∘ requestValue ∘ batcherMsgRequest)) = s.
Proof.
  induction 1 as [|m rs Hm _ IH]; [done|]. cbn. intros [Hn Hns]%andb_true_iff. rewrite foldl_app.
  rewrite Hm by done. by apply IH.
Qed.

Lemma serveBatch_ok st rs : state_ok st -> Forall (harmless cfg) rs -> result_ok (serveBatch cfg inp st rs).
Proof.
  intros Hok Hrs. unfold serveBatch. destruct (forallb nullipotent rs) eqn:Hn.
  - rewrite nullipotent_state by done. split; [destruct st; done|]. simpl. constructor; [done|]. by apply mutes_fmap.
  - destruct (filter _ rs) as [|m rs']; simpl.
    + split; [done|]. apply effects_app. split; [by apply mutes_fmap|by repeat constructor].
    + split; [apply current_ok; [done|apply (so_legs _ Hok)]|]. apply effects_app.
      split; [by apply mutes_fmap|by repeat constructor].
Qed.

Lemma onBatch_ok st rs r :
  state_ok st -> Forall (harmless cfg) rs -> onBatch cfg n inp st rs = Some r -> result_ok r.
Proof.
  intros Hok Hrs Hr. unfold onBatch in Hr. destruct (decide (_ = stateWatermark st)); [|done]. injection Hr as <-.
  assert (Hdrop : Forall effect_ok ([Wake (stateBatcher st)] ++
    ((fun b => ToAmbassador (batcherMsgAmbassador b) (stateEpoch st) (stateReplicas st)) <$> rs) ++
    [ExitBatcher (stateBatcher st)])).
  { constructor; [done|]. apply effects_app. split; [by apply mutes_fmap|by repeat constructor]. }
  destruct (getLeader _ _ _ _ _) as [leader|].
  - destruct (n =? leader); [by apply serveBatch_ok|by split].
  - destruct (decide _); [|by split]. split; [|by repeat constructor].
    apply current_ok; [done|apply (so_legs _ Hok)].
Qed.

Lemma onPassed_ok st vi r :
  state_ok st -> vi = decided (prDecree r) -> result_ok (onPassed n st vi r).
Proof.
  intros Hok ->. pose proof (so_legs _ Hok) as [Hd Hcd]. split.
  - cbn [onPassed fst]. apply unconfirmed_ok; [done|]. destruct (decide _); [done|].
    apply min_leg; [done|]. apply max_leg. by left.
  - cbn [onPassed snd]. constructor; [by left|]. apply effects_app. split; [apply sends_fmap; by left|].
    destruct (_ && _); [|constructor]. constructor; [done|]. by apply mutes_fmap.
Qed.

Lemma onRejected_ok st r : state_ok st -> result_ok (onRejected st r).
Proof.
  intros Hok. pose proof (so_legs _ Hok) as Hl. split; simpl; [destruct st; by same_state; apply Hl|].
  destruct (prFromBatcher r); [|constructor]. constructor; [done|]. by apply mutes_fmap.
Qed.

Lemma answerQuery_ok st from k least : state_ok st -> result_ok (answerQuery st from k least).
Proof.
  intros Hok. unfold answerQuery. destruct (_ <=? _); (split; [done|]); simpl.
  - destruct (logCache (stateStore st) !! k) as [v|] eqn:Hv; [|constructor]. constructor; [|constructor].
    right. destruct (so_store _ Hok) as (_ & H & _). by apply H.
  - destruct (stateSnapshotRef st) as [r|] eqn:Hr; [|constructor]. constructor; [|constructor].
    simpl. split; [apply (so_config _ Hok)|by apply (so_snapshot _ Hok)].
Qed.

Lemma query_effects w rs known : Forall effect_ok (queryMissingFrom n w rs known : list (effect A S Ref)).
Proof.
  unfold queryMissingFrom. apply list.Forall_forall. intros e (k & He & _)%list_elem_of_bind.
  apply list_elem_of_fmap in He as (r & -> & _). done.
Qed.

Lemma newer_config st legD rs :
  state_ok st -> config_ok legD rs -> lt (stateReconfDecree st) legD ->
  agreed (decreeNumber legD) = Reconf (decreeLegislatureId legD) rs /\ le base legD.
Proof.
  intros Hok Hc Hlt. pose proof (le_lt_trans _ _ _ (so_base _ Hok) Hlt) as Hb. split; [by apply Hc|by apply lt_le].
Qed.

Lemma adopt_ok st rs legD epoch :
  state_ok st -> (lt (stateReconfDecree st) legD -> config_ok legD rs) -> state_ok (adopt st rs legD epoch).
Proof.
  intros Hok Hc. unfold adopt. destruct (decide _) as [Hlt|]; [|done]. specialize (Hc Hlt).
  pose proof (newer_config _ _ _ Hok Hc Hlt) as [_ Hb]. destruct Hok. destruct st; simpl in *. by constructor.
Qed.

Lemma newer_leg st legD : state_ok st ->
  decreeLegislatureId base <= decreeLegislatureId (max_decree (stateReconfDecree st) legD).
Proof. intros Hok. apply max_leg. left. apply le_leg, Hok. Qed.

Lemma onMax_ok st from d' legD' epoch' rs' :
  state_ok st -> misled st (Max from d' legD' epoch' rs' : message A Ref) = false ->
  result_ok (onMax n inp st from d' legD' epoch' rs').
Proof.
  intros Hok Hm. unfold onMax. destruct (decide _) as [Hd|]; [|by split; [|constructor]].
  assert (Hc : lt (stateReconfDecree st) legD' -> config_ok legD' rs').
  { intros Hlt. apply bool_decide_eq_false in Hm. destruct (decide (config_ok legD' rs')); [done|]. by destruct Hm. }
  split; simpl.
  - apply adopt_ok; [|by destruct st]. pose proof (newer_leg _ legD' Hok) as Hl. destruct st; same_state.
    apply max_leg. by left.
  - apply effects_app. split; [|apply effects_app; split; [apply query_effects|]].
    + destruct (bool_decide _) eqn:Hb; [|constructor]. apply bool_decide_eq_true in Hb. constructor; [|constructor].
      eapply newer_config; [done|by apply Hc|done].
    + destruct (bool_decide _); [apply acceptors_effects|constructor].
Qed.

Lemma onSnapshotInfo_ok st rs' legD' epoch' sref' w0' k :
  state_ok st -> config_ok legD' rs' -> snapshot_ok w0' sref' ->
  result_ok (onSnapshotInfo cfg inp st rs' legD' epoch' sref' w0' k).
Proof.
  intros Hok Hc (Hk & Hw & Hsnap). unfold onSnapshotInfo. destruct (decide _); [|by split; [|constructor]].
  set (newer := bool_decide _). set (p := if newer then _ else _).
  assert (Hp : store_ok (trimTheLog (decreeNumber (stateSnapshotWatermark st)) p)).
  { apply trim_ok. unfold p, newer. destruct (bool_decide _) eqn:Hb; [|apply Hok].
    apply bool_decide_eq_true in Hb. apply insert_ok; [|apply Hok]. symmetry. by eapply newer_config. }
  pose proof (newer_leg _ legD' Hok) as Hl.
  assert (He : Forall effect_ok (if newer then updateAcceptors st rs' else [] : list (effect A S Ref)))
    by (destruct newer; [apply acceptors_effects|constructor]).
  destruct (if loads inp then logRestore cfg sref' else None) as [s'|] eqn:Hrestore.
  - assert (Hs' : s' = executed (decreeNumber w0')) by (destruct (loads inp); congruence).
    split; simpl; [|apply effects_app; split; [done|by repeat constructor]]. apply adopt_ok; [|done].
    destruct Hok. destruct st; simpl in *. constructor; simpl; try done; [by intros r [= <-]|by right].
  - split; simpl; [|by rewrite app_nil_r]. apply adopt_ok; [|done].
    destruct Hok. destruct st; simpl in *. by constructor.
Qed.

Lemma announce_effects st a : Forall effect_ok (announce n st a : list (effect A S Ref)).
Proof. unfold announce. destruct (decide _); by repeat constructor. Qed.

Lemma onHelo_ok st a e c policy r : state_ok st -> onHelo cfg n inp st a e c policy = Some r -> result_ok r.
Proof.
  intros Hok Hr. unfold onHelo in Hr. destruct (decide _); [injection Hr as <-|destruct (decide _); [injection Hr as <-|done]].
  - split; [done|]. simpl. destruct (decide _); [by repeat constructor|].
    constructor; [done|]. constructor; [done|]. apply announce_effects.
  - split; [done|]. by repeat constructor.
Qed.

Lemma trimUnreachable_ok (dvs : list (DecreeId * Value A)) leg (P : DecreeId * Value A -> Prop) :
  Forall P dvs -> Forall P (trimUnreachable dvs leg).
Proof.
  intros H. revert leg. induction H as [|[di v] dvs Hx _ IH]; intros leg; simpl; [constructor|].
  destruct (_ <? _); [apply IH|constructor; [done|apply IH]].
Qed.

Lemma recoverGroup_ok st client rs' : state_ok st -> honest decided inp -> result_ok (recoverGroup n inp st client rs').
Proof.
  intros Hok Hh. unfold recoverGroup. destruct (recovered inp) as [dvs|] eqn:Hr; [|by split; [|constructor]].
  destruct (consecutive _ _); [|by split; [|constructor]]. specialize (Hh dvs Hr).
  pose proof (so_legs _ Hok) as [Hd Hcd]. set (d' := match list.last _ with None => _ | Some _ => _ end).
  assert (Hd' : decreeLegislatureId base <= decreeLegislatureId d').
  { unfold d'. destruct (list.last _) as [[dm v]|]; [|done]. apply max_leg. by left. }
  split; simpl.
  - destruct st; same_state. apply max_leg. by right.
  - apply effects_app. split.
    + apply list.Forall_fmap. eapply list.Forall_impl; [by apply trimUnreachable_ok|]. intros [di v] Hv. by left.
    + constructor; [done|]. apply effects_app. split; [apply acceptors_effects|apply query_effects].
Qed.

Lemma onRecover_ok st a e c rs' : state_ok st -> honest decided inp -> result_ok (onRecover cfg n inp st a e c rs').
Proof.
  intros Hok Hh. unfold onRecover.
  assert (Hdrop : result_ok (st, ToClient c false :: announce n st a)) by (split; [done|]; constructor; [done|apply announce_effects]).
  destruct (decide (stateEpoch st <= e)); [|split; [done|]; by repeat constructor].
  destruct (match getLeader _ _ _ _ _ with Some _ => _ | None => _ end) as [leader|].
  - destruct (n =? leader); [split; [done|]; by repeat constructor|done].
  - destruct (decide _); [by apply recoverGroup_ok|done].
Qed.

Lemma onMembershipQuery_ok st a e c r : state_ok st -> onMembershipQuery cfg n inp st a e c = Some r -> result_ok r.
Proof.
  intros Hok Hr. unfold onMembershipQuery in Hr. destruct (decide _); [|done]. injection Hr as <-. split; [done|].
  apply effects_app. split; [destruct (decide _); by repeat constructor|].
  destruct (decide _); [apply announce_effects|constructor].
Qed.

Lemma turn_ok st m r :
  state_ok st -> message_ok m -> honest decided inp -> misled st m = false -> turn cfg n inp st m = Handled r -> result_ok r.
Proof.
  intros Hok Hm Hh Hs Hr. unfold turn in Hr. destruct (goNext cfg n inp st m) as [r0| |] eqn:Hg; try done.
  injection Hr as <-. apply go_ok.
  assert (Hw : forall o, waits_or o = Handled r0 -> o = Some r0) by (intros [r1|]; simpl; congruence).
  destruct m; simpl in Hg, Hm; try (apply Hw in Hg); try (injection Hg as <-).
  - by apply (onRenewTick_ok st).
  - unfold onTimeoutTick. destruct (decide _); (split; [done|]); by repeat constructor.
  - by eapply (onDecree_ok st).
  - by apply onDumped_ok.
  - by eapply (onBatch_ok st).
  - by apply onPassed_ok.
  - by apply onRejected_ok.
  - destruct (findMin _); [|done]. injection Hg as <-. by apply answerQuery_ok.
  - destruct Hm. by apply onSnapshotInfo_ok.
  - by apply onMax_ok.
  - by eapply (onHelo_ok st).
  - by apply onRecover_ok.
  - split; [done|]. apply announce_effects.
  - split; [done|]. by repeat constructor.
  - by eapply (onMembershipQuery_ok st).
  - split; [done|]. apply sends_fmap. intros x. left. apply (so_config _ Hok).
Qed.

(** ** Persistence and start *)

Lemma runTask_ok t st : state_ok st -> task_ok t -> result_ok (runTask n t st).
Proof.
  intros Hok Ht.
  assert (Hset : forall k v, v = agreed k -> state_ok (set_store (insertInLog k v (stateStore st)) st)).
  { intros k v Hv. destruct Hok as [Hst ? ? ? ? Hl ?]. pose proof (insert_ok k v _ Hv Hst). destruct st; simpl in *.
    by constructor. }
  destruct t as [start l di v|start l di v|legD rs]; simpl in Ht.
  - destruct Ht as [Hv _]. split; simpl; [by apply Hset|]. apply effects_app. split.
    + destruct l; try constructor. apply effects_app. split; by apply mutes_fmap.
    + constructor; [by right|constructor].
  - split; simpl; [by apply Hset|]. constructor; [by right|constructor].
  - split; simpl; [by apply Hset|constructor].
Qed.

Lemma findSnapshot_ok sns :
  (forall w r, (w, r) ∈ sns -> snapshot_ok w r) ->
  let '(w0, s) := findSnapshot cfg sns in
  caught_up w0 s /\ (decreeNumber w0 <= 0 \/ Known w0).
Proof.
  induction sns as [|[w0 r] sns IH]; intros H; simpl; [split; [by repeat split|by left]|].
  destruct (logRestore cfg r) as [s|] eqn:Hr.
  - destruct (H w0 r) as (Hk & H0 & Hs); [by left|]. split; [split; [done|congruence]|by right].
  - apply IH. intros w r' Hin. apply H. by right.
Qed.

Lemma startReplica_ok leaseStart0 decree legD0 replicas0 sns p bpid :
  store_ok p -> le base legD0 -> config_ok legD0 replicas0 -> (forall w r, (w, r) ∈ sns -> snapshot_ok w r) ->
  result_ok (startReplica cfg n inp leaseStart0 decree legD0 replicas0 sns p bpid).
Proof.
  intros (Hlog & _ & Hmem) Hb Hc Hsns. unfold startReplica. pose proof (findSnapshot_ok (newest_first sns)) as Hf.
  destruct (findSnapshot cfg (newest_first sns)) as [w0 s].
  destruct Hf as [Hcu Hk]; [intros w r; unfold newest_first; rewrite merge_sort_Permutation; apply Hsns|].
  destruct (default (legD0, replicas0) (membershipMap p)) as [legD' replicas'] eqn:Hd.
  assert (Hc' : config_ok legD' replicas').
  { destruct (membershipMap p) as [[l r]|]; simpl in Hd; injection Hd as <- <-; [by apply Hmem|done]. }
  apply go_ok. split; simpl.
  - assert (Hcfg : config_ok (max_decree legD0 legD') (if decide (lt legD0 legD') then replicas' else replicas0) /\
      le base (max_decree legD0 legD')).
    { unfold max_decree. destruct (decide (lt legD0 legD')) as [Hlt|Hn].
      - rewrite decide_True by by apply lt_le. split; [done|]. eapply le_trans; [done|by apply lt_le].
      - destruct (decide (le legD0 legD')) as [Hle|]; [|done].
        destruct (le_lt_or_eq _ _ Hle) as [|<-]; [done|]. done. }
    destruct Hcfg as [Hcfg Hbase].
    assert (Hst : store_ok (Store (logMap p) (membershipMap p) ∅)).
    { split; [exact Hlog|]. split; [simpl; by intros k v ?%lookup_empty_Some|exact Hmem]. }
    pose proof (le_leg _ _ Hbase). constructor; simpl; done.
  - apply effects_app. split; [|apply effects_app; split; [apply query_effects|apply effects_app; split]].
    + apply list.Forall_fmap, list.Forall_forall. intros k Hin. simpl.
      rewrite merge_sort_Permutation, list_elem_of_fmap in Hin. destruct Hin as ([k' v] & -> & Hv%elem_of_map_to_list).
      right. simpl. rewrite Hv. simpl. by apply Hlog.
    + destruct (decide _); by repeat constructor.
    + destruct (bool_decide _); by repeat constructor.
Qed.
End Handlers.
End Safety.
End ReplicaSafety.
