(* ===== verification/ReplicaAgreement.v ===== *)
(** What the replicated log guarantees, from the invariant of ReplicaSafety.v:
    replicas at the same watermark have the same state, and what has been
    acknowledged to a client is on disk. With it, the run in which the
    advertisement that follows an old decree makes two replicas diverge, and the
    query that kills a replica which has just started. *)

From stdpp Require Import sorting.
From S2P Require Import Prelude Paxos Replica ReplicaSys ReplicaSafety.
Local Open Scope Z_scope.

Module ReplicaAgreement.
Import Paxos Replica ReplicaSys ReplicaSafety.

Section Agreement.
Context {A S Ref : Type} `{EqDecision A} (cfg : config A S Ref) (decided : DecreeId -> Value A) (base : DecreeId).
Context {CO : Consensus decided}.
Hypothesis restore_dump : forall w s, logRestore cfg (logDump cfg w s) = Some s.
Implicit Types (s : system A S Ref).
Abbreviation step := (step cfg decided base).

Definition known s (w : DecreeId) : Prop := exists r, (w, r) ∈ snapshots s.

Definition node_ok (K : DecreeId -> Prop) (x : node A S Ref) : Prop :=
  match x with Up st => state_ok cfg decided base K st | Down p => store_ok decided base p end.

(** The invariant, for snapshots with watermarks in [K]. *)
Record sys_ok_in (K : DecreeId -> Prop) s : Prop := {
  ok_nodes : forall n x, nodes s !! n = Some x -> node_ok K x;
  ok_wire : Forall (fun x => message_ok cfg decided base K x.2) (wire s);
  ok_tasks : Forall (fun x => task_ok decided x.2) (tasks s);
  ok_dumps : Forall (fun x => caught_up cfg decided x.2.1.2 x.2.2) (dumps s);
  ok_snapshots : Forall (fun x => snapshot_ok cfg decided K x.1 x.2) (snapshots s);
}.
Definition sys_ok s : Prop := sys_ok_in (known s) s.

(** ** More snapshots do no harm *)

Section Monotone.
Context (K K' : DecreeId -> Prop) (HK : forall w, K w -> K' w).

Lemma snapshot_mono w r : snapshot_ok cfg decided K w r -> snapshot_ok cfg decided K' w r.
Proof using HK. intros (H & ?). split; [by apply HK|done]. Qed.

Lemma state_mono st : state_ok cfg decided base K st -> state_ok cfg decided base K' st.
Proof using HK.
  intros [? ? ? ? Hs ? Hk]. constructor; try done.
  - intros r Hr. by apply snapshot_mono, Hs.
  - destruct Hk; [by left|right; by apply HK].
Qed.

Lemma message_mono m : message_ok cfg decided base K m -> message_ok cfg decided base K' m.
Proof using HK. destruct m; simpl; try done; [apply snapshot_mono|]. intros [? ?]. split; [done|by apply snapshot_mono]. Qed.

Lemma sys_mono s : sys_ok_in K s -> sys_ok_in K' s.
Proof using HK.
  intros [Hn Hw Ht Hd Hs]. constructor; try done.
  - intros n x Hx. specialize (Hn n x Hx). destruct x; [by apply state_mono|done].
  - eapply list.Forall_impl; [exact Hw|]. intros x. apply message_mono.
  - eapply list.Forall_impl; [exact Hs|]. intros x. apply snapshot_mono.
Qed.
End Monotone.

(** ** Steps *)

Lemma Forall_omap {X Y} (f : X -> option Y) (P : X -> Prop) (Q : Y -> Prop) l :
  Forall P l -> (forall x y, P x -> f x = Some y -> Q y) -> Forall Q (omap f l).
Proof.
  rewrite !list.Forall_forall. intros HP H y (x & Hx & Hf)%list_elem_of_omap. by eapply H; [apply HP|].
Qed.

Lemma update_ok K n r s : sys_ok_in K s -> result_ok cfg decided base K r -> sys_ok_in K (update n r s).
Proof.
  intros [Hn Hw Ht Hd Hs] [Hst He]. constructor; simpl; try done.
  - intros n' x [[<- <-]|[_ Hx]]%lookup_insert_Some; [done|by apply (Hn n')].
  - apply list.Forall_app. split; [done|]. eapply Forall_omap; [exact He|].
    intros e y Hok Hy. destruct e; simplify_eq/=. done.
  - apply list.Forall_app. split; [done|]. eapply Forall_omap; [exact He|].
    intros e y Hok Hy. destruct e; simplify_eq/=. done.
  - apply list.Forall_app. split; [done|]. eapply Forall_omap; [exact He|].
    intros e y Hok Hy. destruct e; simplify_eq/=. done.
Qed.

Lemma Forall_keep {X} (P Q : X -> Prop) `{forall x, Decision (Q x)} l : Forall P l -> Forall P (filter Q l).
Proof. rewrite !list.Forall_forall. intros HP x [_ Hx]%list_elem_of_filter. by apply HP. Qed.

Lemma Forall_remove {X} (P : X -> Prop) l1 x l2 : Forall P (l1 ++ x :: l2) -> P x /\ Forall P (l1 ++ l2).
Proof. rewrite !list.Forall_app, list.Forall_cons. tauto. Qed.

Lemma with_wire_ok K s l : sys_ok_in K s -> Forall (fun x => message_ok cfg decided base K x.2) l -> sys_ok_in K (with_wire l s).
Proof. intros [] ?. by constructor. Qed.

Lemma stop_ok K n st s : sys_ok_in K s -> nodes s !! n = Some (Up st) -> sys_ok_in K (stop n (stateStore st) s).
Proof.
  intros [Hn Hw Ht Hd Hs] Hst. constructor; simpl; try done.
  - intros n' x [[<- <-]|[_ Hx]]%lookup_insert_Some; [|by apply (Hn n')].
    specialize (Hn n _ Hst). simpl in *. apply Hn.
  - by apply Forall_keep.
  - by apply Forall_keep.
Qed.

Lemma node_up K s n st : sys_ok_in K s -> nodes s !! n = Some (Up st) -> state_ok cfg decided base K st.
Proof. intros Hok Hst. exact (ok_nodes _ _ Hok n _ Hst). Qed.
Lemma node_down K s n p : sys_ok_in K s -> nodes s !! n = Some (Down p) -> store_ok decided base p.
Proof. intros Hok Hst. exact (ok_nodes _ _ Hok n _ Hst). Qed.

Lemma external_ok K m : external cfg decided m -> message_ok cfg decided base K m.
Proof. by destruct m. Qed.

Lemma external_misled m (st : state A S Ref) : external cfg decided m -> misled decided base st m = false.
Proof. by destruct m. Qed.

Lemma sys_ok_step s s' : sys_ok s -> step false s s' -> sys_ok s'.
Proof using restore_dump CO.
  intros Hok Hstep. unfold sys_ok in *. remember false as fl eqn:Hfl.
  destruct Hstep as [n m st inp r l1 l2 s Hw Hst Hh Ht|n m st inp l1 l2 s Hw Hst Ht|n m st inp r s Hx Hst Hh Ht
    |n t st l1 l2 s Hts Hst|n pid w' s' st l1 l2 s Hds Hst|n st s Hst
    |n p inp leaseStart0 decree legD0 replicas0 sns bpid s Hp Hb Hc Hsns|x l1 l2 s Hw].
  - pose proof (ok_wire _ _ Hok) as HF. rewrite Hw in HF. apply Forall_remove in HF as [Hm HF].
    change (sys_ok_in (known s) (update n r (with_wire (l1 ++ l2) s))).
    apply update_ok; [by apply with_wire_ok|]. by eapply (turn_ok cfg decided base); [by eapply node_up|..].
  - pose proof (ok_wire _ _ Hok) as HF. rewrite Hw in HF. apply Forall_remove in HF as [Hm HF].
    by apply (stop_ok (known s)); [apply with_wire_ok|].
  - apply (update_ok (known s)); [done|].
    eapply (turn_ok cfg decided base); [by eapply node_up|by apply external_ok|done|by apply external_misled|done].
  - pose proof (ok_tasks _ _ Hok) as HF. rewrite Hts in HF. apply Forall_remove in HF as [Ht HF].
    assert (Hu : sys_ok_in (known s) (update n (runTask n t st) (with_tasks (l1 ++ l2) s))).
    { apply update_ok; [by destruct Hok|]. apply runTask_ok; [by eapply node_up|done]. }
    destruct Hu. by constructor.
  - pose proof (ok_dumps _ _ Hok) as HF. rewrite Hds in HF. apply Forall_remove in HF as [[H0 Hs'] HF]. simpl in *.
    set (K := known (add_snapshot _ _)).
    assert (HK : forall w, known s w -> K w).
    { intros w [r Hr]. exists r. simpl. apply elem_of_app. by left. }
    assert (Hnew : snapshot_ok cfg decided K w' (logDump cfg w' s')).
    { split; [eexists; simpl; apply elem_of_app; right; by left|]. split; [done|].
      by rewrite restore_dump, Hs'. }
    assert (Hu : sys_ok_in K (update n (st, [runDumper cfg n pid w' s']) (with_dumps (l1 ++ l2) s))).
    { apply update_ok; [by apply (sys_mono (known s) K HK) in Hok as []; constructor|].
      split; [eapply state_mono; [exact HK|by eapply node_up]|]. by constructor. }
    destruct Hu. constructor; try done. simpl. apply list.Forall_app. split; [done|]. by constructor.
  - by apply (stop_ok (known s)).
  - apply (update_ok (known s)); [done|]. apply startReplica_ok; [by eapply node_down|done..|].
    intros w r Hin. pose proof (ok_snapshots _ _ Hok) as HF. rewrite list.Forall_forall in HF. by apply (HF (w, r)), Hsns.
  - pose proof (ok_wire _ _ Hok) as HF. rewrite Hw in HF. apply Forall_remove in HF as [_ HF]. by apply (with_wire_ok (known s)).
Qed.

Lemma sys_ok_initial ns : sys_ok (initial ns).
Proof.
  constructor; simpl; try constructor. intros n x [_ <-]%lookup_gset_to_gmap_Some.
  split; [|split]; simpl; [by intros k v ?%lookup_empty_Some..|done].
Qed.

Lemma sys_ok_run ns s : rtc (step false) (initial ns) s -> sys_ok s.
Proof using restore_dump CO.
  intros Hrun. eapply (rtc_ind_r sys_ok); [apply sys_ok_initial|intros; by eapply sys_ok_step|exact Hrun].
Qed.

(** ** What is on disk *)

Definition disk (x : node A S Ref) : store A := match x with Up st => stateStore st | Down p => p end.

(** Entries not below the last snapshot stay. *)
Definition keeps (st st' : state A S Ref) : Prop :=
  forall k, is_Some (logMap (stateStore st) !! k) -> decreeNumber (stateSnapshotWatermark st) <= k ->
    is_Some (logMap (stateStore st') !! k).

Lemma keeps_store st st' : stateStore st' = stateStore st -> keeps st st'.
Proof. intros H k Hk _. by rewrite H. Qed.

Lemma keeps_trim w0 (p : store A) k :
  is_Some (logMap p !! k) -> w0 <= k -> is_Some (logMap (trimTheLog w0 p) !! k).
Proof.
  intros [v Hv] Hk. exists v. simpl. apply map_lookup_filter_Some. split; [done|]. simpl.
  intros [[v' [_ H]%map_lookup_filter_Some]|H]; simpl in H; lia.
Qed.

Lemma keeps_insert k' v (p : store A) k : is_Some (logMap p !! k) -> is_Some (logMap (insertInLog k' v p) !! k).
Proof. intros H. simpl. apply lookup_insert_is_Some'. by right. Qed.

Lemma go_store n inp r : stateStore (go cfg n inp r).1 = stateStore r.1.
Proof. destruct r as [[] effs]. unfold go. simpl. repeat case_match; done. Qed.

Lemma renewLease_store n inp start l r : stateStore (renewLease cfg n inp start l r).1 = stateStore r.1.
Proof. destruct r as [[] effs]. unfold renewLease. by case_match. Qed.

Lemma onDecree_store n inp st start l di v r :
  onDecree cfg n inp st start l di v = Some r -> stateStore r.1 = stateStore st.
Proof.
  unfold onDecree, executeDecree. intros H. repeat case_match; simplify_eq; try done; rewrite renewLease_store.
  - unfold executeValues. destruct (maybeTakeSnapshot _ _ _ _). by destruct st.
  - unfold executeReconf. destruct (maybeTakeSnapshot _ _ _ _). case_match. by destruct st.
  - unfold ignoreReconf. destruct (maybeTakeSnapshot _ _ _ _). by destruct st.
Qed.

Lemma onSnapshotInfo_keeps inp st rs legD epoch sref w0 n :
  keeps st (onSnapshotInfo cfg inp st rs legD epoch sref w0 n).1.
Proof.
  unfold onSnapshotInfo. case_match; [|by apply keeps_store]. intros k Hk Hle.
  set (p := if bool_decide _ then _ else _).
  assert (Hp : is_Some (logMap (trimTheLog (decreeNumber (stateSnapshotWatermark st)) p) !! k)).
  { apply keeps_trim; [|done]. unfold p. destruct (bool_decide _); [by apply keeps_insert|done]. }
  clearbody p. unfold adopt. destruct st; simpl in *. destruct (if loads inp then _ else _); simpl; by case_match.
Qed.

Lemma turn_keeps n inp st m r : turn cfg n inp st m = Handled r -> keeps st r.1.
Proof.
  unfold turn. destruct (goNext cfg n inp st m) as [r0| |] eqn:Hg; try done. intros [= <-].
  enough (keeps st r0.1) as H by (intros k Hk Hw; rewrite go_store; by apply H).
  assert (Hw : forall o, waits_or o = Handled r0 -> o = Some r0) by (intros [r1|]; simpl; congruence).
  destruct m; simpl in Hg; try (apply Hw in Hg); try (injection Hg as <-).
  - apply keeps_store. unfold onRenewTick in Hg. destruct st; repeat case_match; by simplify_eq/=.
  - apply keeps_store. unfold onTimeoutTick. by case_match.
  - apply keeps_store. by eapply onDecree_store.
  - unfold onDumped. case_match; [|by apply keeps_store]. intros k Hk Hle. destruct st. by apply keeps_trim.
  - apply keeps_store. unfold onBatch, serveBatch in Hg. destruct st; repeat case_match; by simplify_eq/=.
  - apply keeps_store. by destruct st.
  - apply keeps_store. by destruct st.
  - apply keeps_store. case_match; [|done]. injection Hg as <-. unfold answerQuery. by case_match.
  - apply onSnapshotInfo_keeps.
  - apply keeps_store. unfold onMax, adopt. destruct st; simpl. by repeat case_match.
  - apply keeps_store. unfold onHelo in Hg. repeat case_match; by simplify_eq/=.
  - apply keeps_store. unfold onRecover, recoverGroup. destruct st; simpl. by repeat case_match.
  - by apply keeps_store.
  - by apply keeps_store.
  - apply keeps_store. unfold onMembershipQuery in Hg. repeat case_match; by simplify_eq/=.
  - by apply keeps_store.
Qed.

Lemma startReplica_store n inp leaseStart0 decree legD0 replicas0 sns p bpid :
  logMap (stateStore (startReplica cfg n inp leaseStart0 decree legD0 replicas0 sns p bpid).1) = logMap p.
Proof.
  unfold startReplica. destruct (findSnapshot cfg _). destruct (default _ _). by rewrite go_store.
Qed.

(** The decree is on the disk of the replica, or a snapshot covers it. *)
Definition on_disk s (n : Z) (di : DecreeId) : Prop :=
  exists x, nodes s !! n = Some x /\
    (is_Some (logMap (disk x) !! decreeNumber di) \/ exists w, known s w /\ decreeNumber di < decreeNumber w).

Definition durable s : Prop := forall n c di, (n, c, di) ∈ acked s -> 0 <= decreeNumber di /\ on_disk s n di.

(** A step of the replica [n] that adds snapshots at most. *)
Lemma on_disk_other s s' n x x' n' di :
  nodes s !! n = Some x -> nodes s' = <[n := x']> (nodes s) -> (forall w, known s w -> known s' w) ->
  (is_Some (logMap (disk x) !! decreeNumber di) -> is_Some (logMap (disk x') !! decreeNumber di) \/
     exists w, known s' w /\ decreeNumber di < decreeNumber w) ->
  on_disk s n' di -> on_disk s' n' di.
Proof.
  intros Hx Hn HK Hkeep (y & Hy & Hd). destruct (decide (n = n')) as [<-|Hne].
  - exists x'. rewrite Hn, lookup_insert_eq. split; [done|]. simplify_eq. destruct Hd as [Hd|(w & Hw & ?)]; [by apply Hkeep|].
    right. exists w. split; [by apply HK|done].
  - exists y. rewrite Hn, lookup_insert_ne by done. split; [done|]. destruct Hd as [Hd|(w & Hw & ?)]; [by left|].
    right. exists w. split; [by apply HK|done].
Qed.

(** What a replica no longer has on disk is below a snapshot. *)
Lemma keeps_or_covered K s s' n st st' k :
  sys_ok_in K s -> (forall w, K w -> known s' w) -> nodes s !! n = Some (Up st) -> keeps st st' -> 0 <= k ->
  is_Some (logMap (stateStore st) !! k) ->
  is_Some (logMap (stateStore st') !! k) \/ exists w, known s' w /\ k < decreeNumber w.
Proof.
  intros Hok HK Hst Hkeep Hk Hs.
  destruct (decide (decreeNumber (stateSnapshotWatermark st) <= k)) as [Hle|Hn]; [left; by apply Hkeep|right].
  destruct (so_known _ _ _ _ _ (node_up _ _ _ _ Hok Hst)) as [H|H]; [lia|].
  exists (stateSnapshotWatermark st). split; [by apply HK|lia].
Qed.

Lemma durable_step s s' : sys_ok s -> step false s s' -> durable s -> durable s'.
Proof.
  intros Hok Hstep Hd. unfold sys_ok in Hok. remember false as fl eqn:Hfl.
  destruct Hstep as [n m st inp r l1 l2 s Hw Hst Hh Ht|n m st inp l1 l2 s Hw Hst Ht|n m st inp r s Hx Hst Hh Ht
    |n t st l1 l2 s Hts Hst|n pid w' s' st l1 l2 s Hds Hst|n st s Hst
    |n p inp leaseStart0 decree legD0 replicas0 sns bpid s Hp Hb Hc Hsns|x l1 l2 s Hw];
    intros n' c di Hin.
  - destruct (Hd _ _ _ Hin) as [H0 Hon]. split; [done|]. eapply on_disk_other; [exact Hst|done|done| |exact Hon].
    intros Hs. apply turn_keeps in Ht. by eapply keeps_or_covered.
  - destruct (Hd _ _ _ Hin) as [H0 Hon]. split; [done|]. eapply on_disk_other; [exact Hst|done|done| |exact Hon]. by left.
  - destruct (Hd _ _ _ Hin) as [H0 Hon]. split; [done|]. eapply on_disk_other; [exact Hst|done|done| |exact Hon].
    intros Hs. apply turn_keeps in Ht. by eapply keeps_or_covered.
  - assert (Hold : forall di, on_disk s n' di ->
      on_disk (add_acks (acks_of n t) (update n (runTask n t st) (with_tasks (l1 ++ l2) s))) n' di).
    { intros di' Hon. eapply on_disk_other; [exact Hst|done|done| |exact Hon]. left. simpl.
      destruct t; destruct st; by apply keeps_insert. }
    simpl in Hin. apply elem_of_app in Hin as [Hin|Hin].
    { destruct (Hd _ _ _ Hin) as [H0 Hon]. split; [done|by apply Hold]. }
    pose proof (ok_tasks _ _ Hok) as HF. rewrite Hts in HF. apply Forall_remove in HF as [Htask _].
    destruct t as [start l d0 v| |]; simpl in Hin; [|by apply elem_of_nil in Hin..].
    destruct l as [clients pids| |]; [|by apply elem_of_nil in Hin..].
    apply list_elem_of_fmap in Hin as (c' & [= -> -> ->] & _). destruct Htask as [_ H0]. split; [done|].
    eexists. split; [apply lookup_insert_eq|]. left. destruct st; simpl. by rewrite lookup_insert_eq.
  - destruct (Hd _ _ _ Hin) as [H0 Hon]. split; [done|]. eapply on_disk_other; [exact Hst|done| |by left|exact Hon].
    intros w [r Hr]. exists r. simpl. apply elem_of_app. by left.
  - destruct (Hd _ _ _ Hin) as [H0 Hon]. split; [done|]. eapply on_disk_other; [exact Hst|done|done| |exact Hon]. by left.
  - destruct (Hd _ _ _ Hin) as [H0 Hon]. split; [done|]. eapply on_disk_other; [exact Hp|done|done| |exact Hon].
    left. simpl. by rewrite startReplica_store.
  - by destruct (Hd _ _ _ Hin).
Qed.
End Agreement.

(** C3. Replicated state, on top of a consensus that decides one value per decree
    (legislature and number), in which reachable decrees inhabit all legislatures
    (Note [Teleportation]) and a reconfiguration opens at most the next one; snapshots
    restore what was dumped. Whatever messages are lost, delayed and reordered,
    whichever decrees pass, reachable or not, whenever replicas crash and start again,
    catch up from the logs or snapshots of others, change their membership or recover:
    the watermark of a replica is reachable and its state is that of the reachable
    decrees below it, in order, so replicas with the same watermark have the same
    state. This is as long as no replica (a) takes over from an advertisement a
    configuration that was not agreed on (as from the one with swapped fields that a
    replica sends when it skips a decree), or (b) stores an unreachable decree ahead of
    its watermark. *)
Theorem replicas_agree {A S Ref} `{EqDecision A} (cfg : config A S Ref) (decided : DecreeId -> Value A)
    {CO : Consensus decided} base ns (s : system A S Ref) n1 n2 st1 st2 :
  (forall w x, logRestore cfg (logDump cfg w x) = Some x) ->
  rtc (step cfg decided base false) (initial ns) s ->
  nodes s !! n1 = Some (Up st1) -> nodes s !! n2 = Some (Up st2) ->
  reachable decided (stateWatermark st1) /\
  stateLogState st1 = executed cfg decided (decreeNumber (stateWatermark st1)) /\
  (decreeNumber (stateWatermark st1) = decreeNumber (stateWatermark st2) -> stateLogState st1 = stateLogState st2).
Proof.
  intros Hd Hrun H1 H2. pose proof (sys_ok_run cfg decided base Hd ns s Hrun) as Hok.
  pose proof (ok_nodes _ _ _ _ _ Hok n1 _ H1) as [_ [[_ Hr1] E1] _ _ _ _ _].
  pose proof (ok_nodes _ _ _ _ _ Hok n2 _ H2) as [_ [_ E2] _ _ _ _ _].
  split; [done|]. split; [done|]. congruence.
Qed.

(** C9. Durability, in the same system and under the same conditions as the agreement
    of replicas: the same consensus, and no replica takes over from an advertisement a
    configuration that was not agreed on (the swapped one has such a configuration) or
    stores an unreachable decree ahead of its watermark. A client has been told that its request is in the
    log; whatever else happens afterwards, crashes included, the replica that said so
    has the value of the reachable decree of that number on its disk, or there is a
    snapshot of the state after it. *)
Theorem acked_is_durable {A S Ref} `{EqDecision A} (cfg : config A S Ref) (decided : DecreeId -> Value A)
    {CO : Consensus decided} base ns (s : system A S Ref) n c di :
  (forall w x, logRestore cfg (logDump cfg w x) = Some x) ->
  rtc (step cfg decided base false) (initial ns) s -> (n, c, di) ∈ acked s ->
  exists x, nodes s !! n = Some x /\
    (logMap (disk x) !! decreeNumber di = Some (agreed decided (decreeNumber di)) \/
     exists w r, (w, r) ∈ snapshots s /\ decreeNumber di < decreeNumber w /\
       logRestore cfg r = Some (executed cfg decided (decreeNumber w))).
Proof.
  intros Hd Hrun Hin.
  assert (sys_ok cfg decided base s /\ durable s) as [Hok Hdur].
  { eapply (rtc_ind_r (fun s => sys_ok cfg decided base s /\ durable s)); [| |exact Hrun].
    - split; [apply sys_ok_initial|]. by intros n' c' di' ?%elem_of_nil.
    - intros s1 s2 _ Hs [H1 H2]. split; [by eapply sys_ok_step|by eapply durable_step]. }
  destruct (Hdur _ _ _ Hin) as [_ (x & Hx & Hor)]. exists x. split; [done|]. destruct Hor as [[v Hv]|(w & [r Hr] & Hlt)].
  - left. rewrite Hv. f_equal. pose proof (ok_nodes _ _ _ _ _ Hok n x Hx) as Hn. destruct x as [st|p]; simpl in *.
    + destruct (so_store _ _ _ _ _ Hn) as [H _]. by apply H.
    + destruct Hn as [H _]. by apply H.
  - right. exists w, r. split; [done|]. split; [done|].
    pose proof (ok_snapshots _ _ _ _ _ Hok) as HF. rewrite list.Forall_forall in HF. by destruct (HF _ Hr) as (_ & _ & ?).
Qed.

(** * Runs of three replicas *)

(** The log is a list of integers, snapshots are its contents, and decree 1 is a
    reconfiguration; later decrees of legislature 0 are unreachable. *)
Definition list_config : config Z (list Z) (list Z) :=
  Config 1000000 100000 (2, 1) [] Some (fun _ s => s) (fun s a => s ++ [a]).
Definition example_decided (di : DecreeId) : Value Z :=
  let '(Decree leg n) := di in
  if n =? 1 then Reconf 1 [1; 2; 3] else if (2 <=? n) && (leg <? 1) then Values [-1] else Values [10 * (n + 1)].

Lemma example_legs n : legs example_decided n = if 2 <=? n then 1 else 0.
Proof.
  unfold legs. destruct (Z.leb_spec 2 n).
  - replace (Z.to_nat n) with (2 + (Z.to_nat n - 2))%nat by lia.
    induction (Z.to_nat n - 2)%nat as [|k IH]; [done|]. replace (2 + Datatypes.S k)%nat with (Datatypes.S (2 + k)) by lia.
    cbn [legs_nat]. rewrite IH. cbn [example_decided]. rewrite (proj2 (Z.eqb_neq _ _)) by lia. by destruct (_ && _).
  - assert (Z.to_nat n = 0%nat \/ Z.to_nat n = 1%nat) as [-> | ->] by lia; done.
Qed.

#[global] Instance example_consensus : Consensus example_decided.
Proof.
  constructor.
  - intros [leg n] Hn Hr. unfold reachable, agreed in *. cbn [decreeNumber decreeLegislatureId example_decided] in *.
    rewrite example_legs in *. destruct (n =? 1); [done|]. destruct (Z.leb_spec 2 n); [|done].
    by rewrite (proj2 (Z.ltb_ge leg 1)) by lia.
  - intros n l rs Hn. unfold agreed. rewrite example_legs. cbn [example_decided]. destruct (Z.eqb_spec n 1) as [->|].
    + intros [= <- _]. done.
    + by destruct (_ && _).
Qed.
Definition quiet : input Z := Input 0 false None 0 true None.

(** The proposal of client 77 for a decree passes. *)
Definition passed (leg n : Z) : message Z (list Z) :=
  let v := example_decided (Decree leg n) in Passed v (MkProposerRequest (Decree leg n) false 0 (MkRequest [77] v NoHint)).

(** A decree passes at replica 1, which executes it, and so does replica 3 after
    its next message. *)
Definition decree_passes (leg n : Z) : list (move Z (list Z)) :=
  [External 1 (passed leg n); Receive 0; RunTask 0; Receive 2; Receive 1; RunTask 0].
Definition three_decrees : list (move Z (list Z)) :=
  (fun n => Start n initialDecreeId [1; 2; 3]) <$> [1; 2; 3].
Definition three_decrees_run : list (move Z (list Z)) :=
  three_decrees ++ decree_passes 0 0 ++ [Receive 1; Lose 0] ++
  decree_passes 0 1 ++ [Lose 0; Lose 0; Receive 0; Lose 0] ++ decree_passes 1 2 ++ [Lose 0; Receive 0].

Definition end_state (mvs : list (move Z (list Z))) : system Z (list Z) (list Z) :=
  default (initial []) (snd <$> run list_config example_decided initialDecreeId quiet mvs (initial [1; 2; 3])).
Definition replica_at (s : system Z (list Z) (list Z)) (n : Z) : option (Z * list Z) :=
  match nodes s !! n with Some (Up st) => Some (decreeNumber (stateWatermark st), stateLogState st) | _ => None end.

Lemma quiet_honest : honest example_decided quiet.
Proof. by intros dvs. Qed.

(** Starts from the first configuration, and the messages of [passed]. *)
Definition plain (mv : move Z (list Z)) : bool :=
  match mv with
  | External _ (Passed vi r) => bool_decide (vi = example_decided (prDecree r))
  | External _ Status => true
  | External _ _ => false
  | Start _ legD0 _ => bool_decide (legD0 = initialDecreeId)
  | _ => true
  end.
Lemma plain_legal mvs : forallb plain mvs = true -> Forall (legal list_config example_decided initialDecreeId) mvs.
Proof.
  induction mvs as [|mv mvs IH]; simpl; [constructor|]. intros [H Hs]%andb_true_iff. constructor; [|by apply IH].
  destruct mv as [| n m | | | |n legD0 rs|]; simpl in *; try done.
  - destruct m; simpl in *; try done. by apply bool_decide_eq_true in H.
  - apply bool_decide_eq_true in H as ->. split; [apply le_refl|]. intros Hlt. by apply lt_irrefl in Hlt.
Qed.

Lemma end_state_reached mvs :
  forallb plain mvs = true -> fst <$> run list_config example_decided initialDecreeId quiet mvs (initial [1; 2; 3]) = Some false ->
  rtc (step list_config example_decided initialDecreeId false) (initial [1; 2; 3]) (end_state mvs).
Proof.
  intros Hp Hr. unfold end_state. destruct (run _ _ _ _) as [[fl s]|] eqn:H; [|done]. injection Hr as ->.
  eapply replica_run_steps; [apply quiet_honest|by apply plain_legal|done].
Qed.

(** Replicas 1 and 3 after the three decrees, and after decree 3 of legislature 0
    has passed: both skip it. *)
Definition stray_run : list (move Z (list Z)) := three_decrees_run ++ [External 3 (passed 0 3); Receive 0; Receive 0].

Lemma replicas_agree_witness :
  replica_at (end_state stray_run) 1 = Some (3, [10; 30]) /\
  exists st1 st3, nodes (end_state stray_run) !! 1 = Some (Up st1) /\
    nodes (end_state stray_run) !! 3 = Some (Up st3) /\ stateLogState st1 = stateLogState st3.
Proof.
  split; [vm_compute; reflexivity|]. eexists _, _. split; [vm_compute; reflexivity|]. split; [vm_compute; reflexivity|].
  refine (proj2 (proj2 (replicas_agree list_config example_decided initialDecreeId [1; 2; 3] (end_state stray_run) 1 3
    _ _ _ _ _ _)) _).
  - reflexivity.
  - apply end_state_reached; vm_compute; reflexivity.
  - vm_compute; reflexivity.
  - vm_compute; reflexivity.
  - reflexivity.
Defined.

(** Replica 1 crashes after it has acknowledged decree 2. *)
Lemma acked_is_durable_witness :
  let s := end_state (three_decrees_run ++ [Crash 1]) in
  exists x, nodes s !! 1 = Some x /\
    (logMap (disk x) !! 2 = Some (agreed example_decided 2) \/
     exists w r, (w, r) ∈ snapshots s /\ 2 < decreeNumber w /\
       logRestore list_config r = Some (executed list_config example_decided (decreeNumber w))).
Proof.
  intros s. apply (acked_is_durable list_config example_decided initialDecreeId [1; 2; 3] s 1 77 (Decree 1 2)).
  - reflexivity.
  - apply end_state_reached; vm_compute; reflexivity.
  - apply (list_elem_of_lookup_2 _ 2). vm_compute. reflexivity.
Defined.

(** Replica 2, which is behind, has proposed for decree 0 and learns its value; it
    tells replica 1, which has passed it. Replica 2 takes the advertisement that
    follows for news of a reconfiguration at decree 3 and stores it; decree 3
    passes at replica 1; replica 3 hears of it from replica 2, asks for its value,
    and executes the reconfiguration instead. *)
Definition swapped_run : list (move Z (list Z)) :=
  three_decrees_run ++
  [External 2 (passed 0 0); Receive 0; Receive 0; Lose 0; Receive 0; RunTask 1; Lose 0; Lose 0;
   External 1 (passed 1 3); Receive 0; RunTask 1; Receive 2; Lose 0; Lose 0; External 1 Status; Receive 0;
   Lose 0; Lose 0; Lose 0; Lose 0; External 2 Status; Receive 1; Receive 1; Receive 1; RunTask 2; Receive 1].

(** The advertisement that a replica sends when it skips an old decree breaks
    the agreement: it is [Max self legD d] where [Max self d legD] is meant, so
    the next decree of the sender passes for its last reconfiguration. Three
    replicas, with agreed values and no crash, and two of them have the same
    watermark and different states. *)
Theorem swapped_max_diverges :
  exists s : system Z (list Z) (list Z),
    rtc (fun s s' => exists fl, step list_config example_decided initialDecreeId fl s s') (initial [1; 2; 3]) s /\
    replica_at s 1 = Some (4, [10; 30; 40]) /\ replica_at s 3 = Some (4, [10; 30]).
Proof.
  exists (end_state swapped_run). split; [|split; vm_compute; reflexivity].
  eapply (replica_run_any_steps list_config example_decided initialDecreeId quiet swapped_run _ true);
    [apply quiet_honest|apply plain_legal; reflexivity|vm_compute; reflexivity].
Qed.

(** Decree 2 of legislature 0 passes at replica 1 before the reconfiguration, and
    replica 2, which has executed nothing, stores it; then decrees 0 and 1 pass at
    replicas 2 and 1, and decree 2 of legislature 1 at replica 1; replica 2 starts
    again. *)
Definition stored_at (n leg k : Z) : list (move Z (list Z)) :=
  [External n (passed leg k); Receive 0; RunTask 0; Lose 0; Lose 0; Receive 0].
Definition stored_ahead_run : list (move Z (list Z)) :=
  three_decrees ++ [External 1 (passed 0 2); Receive 1; RunTask 0; Lose 0; Lose 0; Lose 0] ++
  stored_at 2 0 0 ++ stored_at 2 0 1 ++ [Lose 0] ++ stored_at 1 0 0 ++ stored_at 1 0 1 ++ [Lose 0] ++ stored_at 1 1 2 ++
  [Crash 2; Start 2 initialDecreeId [1; 2; 3]; Receive 0; Receive 0; Receive 0].

(** An unreachable decree that is stored ahead of the watermark breaks the agreement
    too: the decree of the right legislature is to overwrite it, but a replica that
    starts again before that executes what it finds on its disk. *)
Theorem stored_ahead_diverges :
  exists s : system Z (list Z) (list Z),
    rtc (fun s s' => exists fl, step list_config example_decided initialDecreeId fl s s') (initial [1; 2; 3]) s /\
    replica_at s 1 = Some (3, [10; 30]) /\ replica_at s 2 = Some (3, [10; -1]).
Proof.
  exists (end_state stored_ahead_run). split; [|split; vm_compute; reflexivity].
  eapply (replica_run_any_steps list_config example_decided initialDecreeId quiet stored_ahead_run _ true);
    [apply quiet_honest|apply plain_legal; reflexivity|vm_compute; reflexivity].
Qed.

(** A replica that has just started dies of the first query it gets, whatever
    it has on disk: its copy of the log in memory is empty, and [Map.findMin]
    fails on it. *)
Theorem query_kills_new_replica {A S Ref} `{EqDecision A} (cfg : config A S Ref) n inp inp' leaseStart0 decree legD0 replicas0
    sns p bpid from k :
  turn cfg n inp' (startReplica cfg n inp leaseStart0 decree legD0 replicas0 sns p bpid).1 (Query from k) = Dies.
Proof.
  unfold turn. simpl.
  assert (Hc : logCache (stateStore (startReplica cfg n inp leaseStart0 decree legD0 replicas0 sns p bpid).1) = ∅).
  { unfold startReplica. destruct (findSnapshot cfg _). destruct (default _ _). by rewrite go_store. }
  by rewrite Hc.
Qed.

End ReplicaAgreement.
