(* ===== verification/ReplicaLive.v ===== *)
(** A replica that is behind can catch up with another one: the other
    advertises what it has, the first asks for what it misses, stores the answers
    and executes them. *)

From stdpp Require Import sorting.
From S2P Require Import Prelude Paxos Replica ReplicaSys ReplicaAgreement.
Local Open Scope Z_scope.
Set Default Proof Using "Type".

Module ReplicaLive.
Import Paxos Replica ReplicaSys.

(** * Gaps *)

Lemma gaps_two x y : x < y -> mjoin (gaps [x; y]) = seqZ (x + 1) (y - 1 - x).
Proof.
  intros Hlt. cbn [gaps]. replace (y - 1 - (x + 1) + 1) with (y - 1 - x) by lia.
  destruct (seqZ (x + 1) (y - 1 - x)); [done|]. simpl. by rewrite app_nil_r.
Qed.

Section Live.
Context {A S Ref : Type} `{EqDecision A} (cfg : config A S Ref).
Implicit Types (st : state A S Ref) (s : system A S Ref).

(** Inputs of a quiet turn. *)
Definition calm : input A := Input 0 false None 0 true None.

(** The steps of the system in which nothing comes from outside, but that a replica
    is asked to advertise what it has: replicas receive what others have sent them
    and the persistence processes run. Nothing fails, nothing is lost and no
    proposal passes. *)
Inductive calm_step : system A S Ref -> system A S Ref -> Prop :=
| calm_status n st r s :
    nodes s !! n = Some (Up st) -> turn cfg n calm st Status = Handled r -> calm_step s (update n r s)
| calm_receive n m st r l1 l2 s :
    wire s = l1 ++ (n, m) :: l2 -> nodes s !! n = Some (Up st) -> turn cfg n calm st m = Handled r ->
    calm_step s (update n r (with_wire (l1 ++ l2) s))
| calm_task n t st l1 l2 s :
    tasks s = l1 ++ (n, t) :: l2 -> nodes s !! n = Some (Up st) ->
    calm_step s (add_acks (acks_of n t) (update n (runTask n t st) (with_tasks (l1 ++ l2) s))).

Lemma calm_step_step decided base s s' : calm_step s s' -> exists fl, step cfg decided base fl s s'.
Proof.
  destruct 1 as [n st r s Hn Ht|n m st r l1 l2 s Hw Hn Ht|n t st l1 l2 s Hts Hn]; eexists.
  - eapply (step_external _ _ _ _ Status); [done|exact Hn| |exact Ht]. by intros dvs.
  - eapply step_receive; [exact Hw|exact Hn| |exact Ht]. by intros dvs.
  - by eapply step_task.
Qed.

(** ** Turns *)

(** What the start of a turn leaves alone. *)
Lemma go_keeps n inp (r : state A S Ref * list (effect A S Ref)) :
  let r' := go cfg n inp r in
  stateStore r'.1 = stateStore r.1 /\ stateWatermark r'.1 = stateWatermark r.1 /\
  (forall e, e ∈ r.2 -> e ∈ r'.2).
Proof.
  destruct r as [st effs]. unfold go. destruct (decide _); [|done]. destruct (getLeader _ _ _ _ _); [done|].
  destruct st. simpl. split; [done|]. split; [done|]. intros e He. apply elem_of_app. by left.
Qed.

Lemma go_next n inp st m r :
  goNext cfg n inp st m = Handled r ->
  exists r', turn cfg n inp st m = Handled r' /\ stateStore r'.1 = stateStore r.1 /\
    stateWatermark r'.1 = stateWatermark r.1 /\ forall e, e ∈ r.2 -> e ∈ r'.2.
Proof. intros H. unfold turn. rewrite H. eexists. split; [done|]. apply go_keeps. Qed.

Lemma status_turn n inp st n' :
  n' ∈ stateReplicas st -> n' <> n ->
  exists r, turn cfg n inp st Status = Handled r /\ stateStore r.1 = stateStore st /\
    ToReplica n' (Max n (stateUnconfirmedDecree st) (stateReconfDecree st) (stateEpoch st) (stateReplicas st)) ∈ r.2.
Proof.
  intros Hin Hne. destruct (go_next n inp st Status (onStatus n st) eq_refl) as (r & Ht & Hst & _ & He).
  exists r. split; [done|]. split; [done|]. apply He. unfold onStatus. simpl.
  apply (list_elem_of_fmap_2 (fun r => ToReplica r _)). unfold others. by apply list_elem_of_filter.
Qed.

(** A query for a decree that is in memory is answered. *)
Lemma query_turn n inp st from k v w :
  logCache (stateStore st) !! k = Some v -> w <= k -> is_Some (logCache (stateStore st) !! w) ->
  exists r, turn cfg n inp st (Query from k) = Handled r /\ stateStore r.1 = stateStore st /\
    ToReplica from (MDecree 0 Remote (Decree maxInt k) v) ∈ r.2.
Proof.
  intros Hk Hw [v0 Hv0]. destruct (findMin (logCache (stateStore st))) as [least|] eqn:Hm.
  - assert (Hle : least <= w).
    { unfold findMin in Hm. destruct (merge_sort Z.le (map_to_list (logCache (stateStore st))).*1) as [|x l] eqn:Hs; [done|].
      injection Hm as ->.
      assert (Hw' : w ∈ least :: l).
      { rewrite <- Hs, merge_sort_Permutation. by apply (list_elem_of_fmap_2 fst _ (w, v0)), elem_of_map_to_list. }
      assert (HS : StronglySorted Z.le (least :: l)) by (rewrite <- Hs; apply (StronglySorted_merge_sort _)).
      apply elem_of_cons in Hw' as [->|Hw']; [lia|]. inversion HS as [|? ? _ HF]; subst.
      rewrite list.Forall_forall in HF. by apply HF. }
    assert (Hg : goNext cfg n inp st (Query from k) =
      Handled (st, [ToReplica from (MDecree 0 Remote (Decree maxInt k) v)])).
    { simpl. rewrite Hm. unfold answerQuery. rewrite (proj2 (Z.leb_le least k)) by lia. by rewrite Hk. }
    destruct (go_next _ _ _ _ _ Hg) as (r & Ht & Hst & _ & He). exists r. split; [done|]. split; [done|]. apply He. by left.
  - exfalso. unfold findMin in Hm. destruct (merge_sort _ _) as [|x l] eqn:Hs; [|done].
    assert (Hin : k ∈ merge_sort Z.le (map_to_list (logCache (stateStore st))).*1).
    { rewrite merge_sort_Permutation. by apply (list_elem_of_fmap_2 fst _ (k, v)), elem_of_map_to_list. }
    rewrite Hs in Hin. by apply elem_of_nil in Hin.
Qed.

(** An advertisement makes a replica that has nothing beyond its watermark ask
    for every decree it misses. *)
Lemma queries_all self w q N (known : gset Z) k :
  (forall x, x ∈ known -> x = N \/ x < w) -> N ∈ known -> w <= k < N ->
  ToReplica q (Query self k) ∈ (queryMissingFrom self w [q] known : list (effect A S Ref)).
Proof.
  intros Hkn HN Hk. unfold queryMissingFrom.
  assert (Hf : filter (fun x => w - 1 < x) known = ({[N]} : gset Z)).
  { apply set_eq. intros x. rewrite elem_of_filter, elem_of_singleton. split.
    - intros [Hx [->|?]%Hkn]; [done|lia].
    - intros ->. split; [lia|done]. }
  rewrite Hf, elements_singleton. change (merge_sort Z.le [N]) with [N]. rewrite gaps_two by lia.
  apply list_elem_of_bind. exists k. split; [by left|]. apply elem_of_seqZ. lia.
Qed.

Lemma max_turn n inp st q d legD epoch rs :
  decreeNumber (stateUnconfirmedDecree st) < decreeNumber d ->
  (forall k, is_Some (logCache (stateStore st) !! k) -> k < decreeNumber (stateWatermark st)) ->
  exists r, turn cfg n inp st (Max q d legD epoch rs) = Handled r /\
    stateWatermark r.1 = stateWatermark st /\
    forall k, decreeNumber (stateWatermark st) <= k < decreeNumber d -> ToReplica q (Query n k) ∈ r.2.
Proof.
  intros Hd Hc. destruct (go_next n inp st (Max q d legD epoch rs) (onMax n inp st q d legD epoch rs) eq_refl)
    as (r & Ht & _ & Hw & He). exists r. split; [done|]. unfold onMax in *. rewrite decide_True in Hw, He by done. split.
  - rewrite Hw. unfold adopt. destruct st. simpl. by destruct (decide _).
  - intros k Hk. apply He. simpl. rewrite !elem_of_app. right. left. apply queries_all with (N := decreeNumber d); [|by apply elem_of_union_l, elem_of_singleton|done].
    intros x [->%elem_of_singleton|Hx%elem_of_dom]%elem_of_union; [by left|right; by apply Hc].
Qed.

(** A decree at the watermark is stored, and executed once it is. *)
Definition at_watermark st (k : Z) : Prop :=
  decreeNumber (stateWatermark st) = k /\ decreeLegislatureId (stateWatermark st) <= maxInt.

Lemma at_watermark_guards st k :
  at_watermark st k -> let w := stateWatermark st in
  ~ lt (Decree maxInt k) (max_decree w (with_legislature maxInt w)) /\
  (le w (Decree maxInt k) /\ decreeNumber (Decree maxInt k) = decreeNumber w).
Proof.
  intros [Hk Hl]. simpl. destruct (stateWatermark st) as [l m]. simpl in *. subst m. unfold max_decree, with_legislature, le, lt. simpl.
  destruct (decide _) as [H|H]; simpl; lia.
Qed.

Lemma remote_turn n inp st start k v :
  at_watermark st k ->
  exists r, turn cfg n inp st (MDecree start Remote (Decree maxInt k) v) = Handled r /\
    stateWatermark r.1 = stateWatermark st /\ Persist (StoreDecree start Remote (Decree maxInt k) v) ∈ r.2.
Proof.
  intros [Hns Hat]%at_watermark_guards.
  assert (Hg : goNext cfg n inp st (MDecree start Remote (Decree maxInt k) v) =
    Handled (st, [Persist (StoreDecree start Remote (Decree maxInt k) v)])).
  { simpl. unfold onDecree. rewrite decide_False by done. by rewrite decide_True. }
  destruct (go_next _ _ _ _ _ Hg) as (r & Ht & _ & Hw & He). exists r. split; [done|]. split; [done|]. apply He. by left.
Qed.

(** How the legislature of the watermark grows. *)
Definition reconf_below (b : Z) (v : Value A) : Prop := match v with Reconf leg _ => leg <= b | Values _ => True end.

Lemma renewLease_watermark n inp start l r : stateWatermark (renewLease cfg n inp start l r).1 = stateWatermark r.1.
Proof. destruct r as [[] effs]. unfold renewLease. by destruct (decide _). Qed.

Lemma execute_watermark n inp st start di v b :
  reconf_below b v -> decreeLegislatureId (stateWatermark st) <= b ->
  let w' := stateWatermark (executeDecree cfg n inp st start di v).1 in
  decreeNumber w' = decreeNumber (stateWatermark st) + 1 /\ decreeLegislatureId w' <= b + 1.
Proof.
  intros Hb Hl. simpl. unfold executeDecree. rewrite renewLease_watermark. destruct v as [xs|leg rs].
  - unfold executeValues. destruct (maybeTakeSnapshot _ _ _ _). destruct st. simpl in *. lia.
  - destruct (decide _).
    + unfold executeReconf. destruct (maybeTakeSnapshot _ _ _ _). destruct (match whereis inp with Some _ => _ | None => _ end).
      destruct st. simpl in *. lia.
    + unfold ignoreReconf. destruct (maybeTakeSnapshot _ _ _ _). destruct st. simpl in *. lia.
Qed.

Lemma stored_turn n inp st start k v b :
  at_watermark st k -> reconf_below b v -> decreeLegislatureId (stateWatermark st) <= b ->
  exists r, turn cfg n inp st (MDecree start Stored (Decree maxInt k) v) = Handled r /\
    decreeNumber (stateWatermark r.1) = k + 1 /\ decreeLegislatureId (stateWatermark r.1) <= b + 1.
Proof.
  intros Hst Hb Hl. pose proof (at_watermark_guards st k Hst) as [Hns Hat]. destruct Hst as [Hk _].
  assert (Hg : goNext cfg n inp st (MDecree start Stored (Decree maxInt k) v) =
    Handled (executeDecree cfg n inp st start (Decree maxInt k) v)).
  { simpl. unfold onDecree. rewrite decide_False by done. by rewrite decide_True. }
  destruct (go_next _ _ _ _ _ Hg) as (r & Ht & _ & Hw & _). exists r. split; [done|]. rewrite Hw, <- Hk.
  by apply execute_watermark.
Qed.

(** ** Steps *)

Lemma keep_others {X} (x y : X) l1 l2 : x ∈ l1 ++ y :: l2 -> x <> y -> x ∈ l1 ++ l2.
Proof. rewrite !elem_of_app, elem_of_cons. tauto. Qed.

Lemma sent_to_wire n' m' (effs : list (effect A S Ref)) : ToReplica n' m' ∈ effs -> (n', m') ∈ omap to_wire effs.
Proof. intros H. apply list_elem_of_omap. by exists (ToReplica n' m'). Qed.

(** What a step of [n] gives: its new state, and more on the wire. *)
Record progress (n : Z) s s' (r : state A S Ref * list (effect A S Ref)) (gone : Z * message A Ref -> Prop) : Prop := {
  progress_nodes : nodes s' = <[n := Up r.1]> (nodes s);
  progress_sent : forall n' m', ToReplica n' m' ∈ r.2 -> (n', m') ∈ wire s';
  progress_wire : forall x, x ∈ wire s -> ~ gone x -> x ∈ wire s';
  progress_tasks : forall t, Persist t ∈ r.2 -> (n, t) ∈ tasks s';
}.

Lemma receive_step s n m st r :
  (n, m) ∈ wire s -> nodes s !! n = Some (Up st) -> turn cfg n calm st m = Handled r ->
  exists s', calm_step s s' /\ progress n s s' r (fun x => x = (n, m)).
Proof.
  intros Hin Hn Ht. apply list_elem_of_split in Hin as (l1 & l2 & Hw).
  exists (update n r (with_wire (l1 ++ l2) s)). split.
  - eapply calm_receive; [exact Hw|exact Hn|exact Ht].
  - constructor; [done|..]; simpl.
    + intros n' m' He. apply elem_of_app. right. by apply sent_to_wire.
    + intros x Hx Hg. apply elem_of_app. left. rewrite Hw in Hx. by eapply keep_others.
    + intros t Hp. apply elem_of_app. right. apply list_elem_of_omap. by exists (Persist t).
Qed.

Lemma status_step s n st r :
  nodes s !! n = Some (Up st) -> turn cfg n calm st Status = Handled r ->
  exists s', calm_step s s' /\ progress n s s' r (fun _ => False).
Proof.
  intros Hn Ht. exists (update n r s). split; [by eapply calm_status|].
  constructor; [done|..]; simpl.
  - intros n' m' Hm. apply elem_of_app. right. by apply sent_to_wire.
  - intros x Hx _. apply elem_of_app. by left.
  - intros t Hp. apply elem_of_app. right. apply list_elem_of_omap. by exists (Persist t).
Qed.

Lemma task_step s n t st :
  (n, t) ∈ tasks s -> nodes s !! n = Some (Up st) ->
  exists s', calm_step s s' /\ progress n s s' (runTask n t st) (fun _ => False).
Proof.
  intros Hin Hn. apply list_elem_of_split in Hin as (l1 & l2 & Ht).
  eexists. split; [eapply calm_task; [exact Ht|exact Hn]|]. constructor; [done|..]; simpl.
  - intros n' m' Hm. apply elem_of_app. right. by apply sent_to_wire.
  - intros x Hx _. apply elem_of_app. by left.
  - intros t' Hp. apply elem_of_app. right. apply list_elem_of_omap. by exists (Persist t').
Qed.

(** ** Catching up *)

(** Replica [n] is at decree [k] and has asked [q] for those up to [N]. *)
Definition fetching (n q N : Z) (log : gmap Z (Value A)) (k : Z) s : Prop :=
  (exists st, nodes s !! n = Some (Up st) /\ decreeNumber (stateWatermark st) = k /\
     decreeLegislatureId (stateWatermark st) <= maxInt - N + k) /\
  (exists sq, nodes s !! q = Some (Up sq) /\ logCache (stateStore sq) = log) /\
  forall j, k <= j < N -> (q, Query n j) ∈ wire s.

Lemma fetch_one n q N log k v s :
  n <> q -> 0 <= k < N -> log !! k = Some v -> reconf_below (maxInt - N) v -> fetching n q N log k s ->
  exists s', rtc calm_step s s' /\ fetching n q N log (k + 1) s'.
Proof.
  intros Hne Hk Hv Hb ((st & Hn & Hw & Hl) & (sq & Hq & Hlog) & Hqs).
  assert (Hat : at_watermark st k) by (split; [done|lia]).
  destruct (query_turn q calm sq n k v k) as (r1 & Ht1 & Hst1 & Hm1); [by rewrite Hlog|lia|rewrite Hlog; by eexists|].
  destruct (receive_step s q (Query n k) sq r1) as (s1 & H1 & [N1 W1 K1 _]); [by apply Hqs; lia|done|done|].
  assert (Hn1 : nodes s1 !! n = Some (Up st)) by by rewrite N1, lookup_insert_ne.
  destruct (remote_turn n calm st 0 k v Hat) as (r2 & Ht2 & Hw2 & Hp2).
  destruct (receive_step s1 n (MDecree 0 Remote (Decree maxInt k) v) st r2) as (s2 & H2 & [N2 W2 K2 T2]);
    [by apply W1|done|done|].
  set (t := StoreDecree 0 Remote (Decree maxInt k) v) in *.
  destruct (task_step s2 n t r2.1) as (s3 & H3 & [N3 W3 K3 _]); [by apply T2|by rewrite N2, lookup_insert_eq|].
  assert (Hw3 : stateWatermark (runTask n t r2.1).1 = stateWatermark st) by (rewrite <- Hw2; by destruct (r2.1)).
  assert (Hat3 : at_watermark (runTask n t r2.1).1 k) by (unfold at_watermark; by rewrite Hw3).
  destruct (stored_turn n calm (runTask n t r2.1).1 0 k v (maxInt - N + k)) as (r4 & Ht4 & Hk4 & Hl4);
    [done|destruct v; simpl in *; [done|lia]|by rewrite Hw3|].
  destruct (receive_step s3 n (MDecree 0 Stored (Decree maxInt k) v) (runTask n t r2.1).1 r4) as (s4 & H4 & [N4 _ K4 _]);
    [apply W3; by left|by rewrite N3, lookup_insert_eq|done|].
  exists s4. split; [by do 4 (eapply rtc_l; [eassumption|])|]. split; [|split].
  - exists r4.1. rewrite N4, lookup_insert_eq. split; [done|]. split; [done|]. lia.
  - exists r1.1. rewrite N4, N3, N2, N1. rewrite !lookup_insert_ne by done. rewrite lookup_insert_eq. split; [done|]. by rewrite Hst1.
  - intros j Hj. apply K4; [apply K3; [apply K2; [apply K1; [apply Hqs; lia|]|]|]|]; try done; [|tauto].
    intros [=]. lia.
Qed.

Lemma fetch_all n q N log k s :
  n <> q -> 0 <= k <= N -> (forall j, k <= j < N -> exists v, log !! j = Some v /\ reconf_below (maxInt - N) v) ->
  fetching n q N log k s -> exists s', rtc calm_step s s' /\ fetching n q N log N s'.
Proof.
  intros Hne. remember (Z.to_nat (N - k)) as f eqn:Hf. revert k Hf s. induction f as [|f IH]; intros k Hf s Hk Hlog Hs.
  { assert (k = N) as -> by lia. by exists s. }
  destruct (Hlog k) as (v & Hv & Hb); [lia|].
  destruct (fetch_one n q N log k v s) as (s1 & H1 & Hs1); [done|lia|done|done|done|].
  destruct (IH (k + 1)) with (s := s1) as (s2 & H2 & Hs2); [lia|lia|intros j Hj; apply Hlog; lia|done|].
  exists s2. split; [by etrans|done].
Qed.
End Live.

(** C10. A replica that is behind can catch up. If another one that counts it as a
    member has in memory every decree from its watermark on, and it has none of
    them itself and has not heard that the other is so far, then, as long as
    legislatures stay below the largest [Int], there are steps that bring its watermark to the decree the
    other has reached. In these steps the other is asked to advertise what it has,
    and otherwise replicas only receive what was sent to them and run persistence
    operations: no proposal passes, and nothing is lost or fails. So the first asks
    for each decree it misses, is answered, stores the answers and executes them,
    reconfigurations included. *)
Theorem replica_catches_up {A S Ref} `{EqDecision A} (cfg : config A S Ref) (s : system A S Ref) n q st sq :
  n <> q -> nodes s !! n = Some (Up st) -> nodes s !! q = Some (Up sq) -> n ∈ stateReplicas sq ->
  let w := decreeNumber (stateWatermark st) in
  let N := decreeNumber (stateUnconfirmedDecree sq) in
  0 <= w <= N -> decreeNumber (stateUnconfirmedDecree st) < N -> decreeLegislatureId (stateWatermark st) <= maxInt - N ->
  (forall k, is_Some (logCache (stateStore st) !! k) -> k < w) ->
  (forall k, w <= k < N -> exists v, logCache (stateStore sq) !! k = Some v /\ reconf_below (maxInt - N) v) ->
  exists s' st', rtc (calm_step cfg) s s' /\ nodes s' !! n = Some (Up st') /\ decreeNumber (stateWatermark st') = N.
Proof.
  intros Hne Hn Hq Hmem w N Hw Hd Hl Hc Hlog.
  destruct (status_turn cfg q calm sq n Hmem Hne) as (r1 & Ht1 & Hst1 & Hm1).
  destruct (status_step cfg s q sq r1) as (s1 & H1 & [N1 W1 _ _]); [done..|].
  destruct (max_turn cfg n calm st q (stateUnconfirmedDecree sq) (stateReconfDecree sq) (stateEpoch sq) (stateReplicas sq) Hd Hc)
    as (r2 & Ht2 & Hw2 & Hq2).
  destruct (receive_step cfg s1 n (Max q (stateUnconfirmedDecree sq) (stateReconfDecree sq) (stateEpoch sq)
    (stateReplicas sq)) st r2) as (s2 & H2 & [N2 W2 _ _]); [by apply W1|by rewrite N1, lookup_insert_ne|done|].
  destruct (fetch_all cfg n q N (logCache (stateStore sq)) w s2) as (s3 & H3 & (st' & Hn3 & Hw3 & _) & _); [done..| |].
  { split; [|split].
    - exists r2.1. rewrite N2, lookup_insert_eq, Hw2. split; [done|]. split; [done|]. lia.
    - exists r1.1. rewrite N2, lookup_insert_ne, N1, lookup_insert_eq by done. split; [done|]. by rewrite Hst1.
    - intros j Hj. apply W2. by apply Hq2. }
  exists s3, st'. split; [|done]. eapply rtc_l; [exact H1|]. eapply rtc_l; [exact H2|exact H3].
Qed.

(** In the run of ReplicaAgreement.v, replica 2 has executed nothing when replicas
    1 and 3 have executed three decrees. *)
Definition replica_state (n : Z) : state Z (list Z) (list Z) :=
  match nodes (ReplicaAgreement.end_state ReplicaAgreement.three_decrees_run) !! n with
  | Some (Up st) => st
  | _ => State (Store ∅ None ∅) 0 [] None (Decree 0 0) (Decree 0 0) None None (Decree 0 0) (Decree 0 0) [] 0 (Decree 0 0) 0
  end.

Lemma replica_catches_up_witness :
  decreeNumber (stateWatermark (replica_state 2)) = 0 /\
  exists s' st', rtc (calm_step ReplicaAgreement.list_config)
      (ReplicaAgreement.end_state ReplicaAgreement.three_decrees_run) s' /\
    nodes s' !! 2 = Some (Up st') /\ decreeNumber (stateWatermark st') = 3.
Proof.
  split; [vm_compute; reflexivity|].
  refine (replica_catches_up ReplicaAgreement.list_config
    (ReplicaAgreement.end_state ReplicaAgreement.three_decrees_run) 2 1 (replica_state 2) (replica_state 1) _ _ _ _ _ _ _ _ _).
  - lia.
  - vm_compute; reflexivity.
  - vm_compute; reflexivity.
  - vm_compute; right; left.
  - vm_compute; split; discriminate.
  - vm_compute; reflexivity.
  - vm_compute; discriminate.
  - intros k [v Hv]. replace (logCache (stateStore (replica_state 2))) with (∅ : gmap Z (Value Z)) in Hv by (vm_compute; reflexivity).
    by apply lookup_empty_Some in Hv.
  - intros k Hk. assert (H : k = 0 \/ k = 1 \/ k = 2).
    { replace (decreeNumber (stateWatermark (replica_state 2))) with 0 in Hk by (vm_compute; reflexivity).
      replace (decreeNumber (stateUnconfirmedDecree (replica_state 1))) with 3 in Hk by (vm_compute; reflexivity). lia. }
    destruct H as [->|[->| ->]]; eexists; (split; [vm_compute; reflexivity|]); vm_compute; first [exact I|discriminate].
Defined.
End ReplicaLive.
