(* ===== verification/Proposer.v ===== *)
(** The proposer process of a replica (src/replicated-log, Log/Internal.hs,
    [proposer]): it takes a request, leaves the proposal to a worker and waits
    for its result, unless the acceptors change or the watermark passes the
    decree before the worker is done. The worker and the proposer share an MVar
    that decides which of the two is first. What the consensus protocol yields
    is a parameter. *)

From S2P Require Import Prelude Paxos Replica ReplicaSys.
Local Open Scope Z_scope.

Module Proposer.
Import Paxos Replica.

Section Process.
Context {A Ref P : Type}.
Implicit Types (r : ProposerRequest A) (rs : list Z) (w : DecreeId) (s : P).

(** Its mailbox: requests, new acceptors, new watermarks, and the notification
    [()] of a worker. *)
Inductive mail := MRequest r | MAcceptors rs | MWatermark w | MDone.

(** A worker that runs; that has put its result in the MVar; that has notified
    the proposer of it as well. *)
Inductive worker := Running | Put (v : Value A) (s' : P) | Notified (v : Value A) (s' : P).

(** [Clearing]: the result could not be blocked, and the proposer expects the
    notification; [sent] says if the worker has sent it. *)
Inductive phase :=
| Idle
| Proposing r (wk : worker)
| Clearing r (v : Value A) (s' : P) (rs' : list Z) (w' : DecreeId) (sent : bool).

Record proposer := MkProposer {
  pphase : phase;
  pwatermark : DecreeId;
  pstate : P;
  pacceptors : list Z;
  mailbox : list mail;
}.

Definition set_mailbox (l : list mail) (p : proposer) : proposer :=
  MkProposer (pphase p) (pwatermark p) (pstate p) (pacceptors p) l.

(** The first message that a [receiveWait] accepts; the others stay. *)
Fixpoint receive (f : mail -> bool) (l : list mail) : option (mail * list mail) :=
  match l with
  | [] => None
  | m :: l => if f m then Some (m, l) else '(m', l') ← receive f l; Some (m', m :: l')
  end.

Definition idle_accepts (m : mail) : bool := match m with MDone => false | _ => true end.
Definition busy_accepts (m : mail) : bool := match m with MRequest _ => false | _ => true end.
Definition is_done (m : mail) : bool := match m with MDone => true | _ => false end.

(** The result goes to the replica. *)
Definition finish r (v : Value A) s' rs' w' (l : list mail) : proposer * list (message A Ref) :=
  (MkProposer Idle w' s' rs' l, [Passed v r]).

(** [clearNotifications] and what follows it: if the result is blocked the
    request is put back, or returned once the watermark has passed it. *)
Definition clearNotifications (p : proposer) r (wk : worker) rs' w' (l : list mail) : proposer * list (message A Ref) :=
  match wk with
  | Running =>
      if decide (le w' (prDecree r))
      then (MkProposer Idle w' (pstate p) rs' (l ++ [MRequest r]), [])
      else (MkProposer Idle w' (pstate p) rs' l, [Rejected r])
  | Put v s' => (MkProposer (Clearing r v s' rs' w' false) (pwatermark p) (pstate p) (pacceptors p) l, [])
  | Notified v s' => (MkProposer (Clearing r v s' rs' w' true) (pwatermark p) (pstate p) (pacceptors p) l, [])
  end.

(** The next message; [None]: the process waits. *)
Definition advance (p : proposer) : option (proposer * list (message A Ref)) :=
  let w := pwatermark p in
  match pphase p with
  | Idle =>
      '(m, l) ← receive idle_accepts (mailbox p);
      match m with
      | MRequest r =>
          if decide (lt (prDecree r) w) then Some (set_mailbox l p, [Rejected r])
          else Some (MkProposer (Proposing r Running) w (pstate p) (pacceptors p) l, [])
      | MAcceptors rs' => Some (MkProposer Idle w (pstate p) rs' l, [])
      | MWatermark w' => Some (MkProposer Idle (max_decree w w') (pstate p) (pacceptors p) l, [])
      | MDone => None
      end
  | Proposing r wk =>
      '(m, l) ← receive busy_accepts (mailbox p);
      match m with
      | MDone => match wk with
                 | Notified v s' => Some (finish r v s' (pacceptors p) w l)
                 | _ => None
                 end
      | MAcceptors rs' => Some (clearNotifications p r wk rs' w l)
      | MWatermark w' => if decide (le w' (prDecree r)) then Some (set_mailbox l p, [])
                         else Some (clearNotifications p r wk (pacceptors p) w' l)
      | MRequest _ => None
      end
  | Clearing r v s' rs' w' _ =>
      '(_, l) ← receive is_done (mailbox p); Some (finish r v s' rs' w' l)
  end.

(** The proposer takes a turn; the replica sends it something; the worker puts
    its result in the MVar; the worker notifies the proposer. *)
Inductive event := Advance | Arrive (m : mail) | Yield (v : Value A) (s' : P) | Notify.

Definition set_phase (ph : phase) (l : list mail) (p : proposer) : proposer :=
  MkProposer ph (pwatermark p) (pstate p) (pacceptors p) l.

Definition pexec (ev : event) (p : proposer) : option (proposer * list (message A Ref)) :=
  match ev, pphase p with
  | Advance, _ => advance p
  | Arrive m, _ => Some (set_mailbox (mailbox p ++ [m]) p, [])
  | Yield v s', Proposing r Running => Some (set_phase (Proposing r (Put v s')) (mailbox p) p, [])
  | Notify, Proposing r (Put v s') => Some (set_phase (Proposing r (Notified v s')) (mailbox p ++ [MDone]) p, [])
  | Notify, Clearing r v s' rs' w' false =>
      Some (set_phase (Clearing r v s' rs' w' true) (mailbox p ++ [MDone]) p, [])
  | _, _ => None
  end.

Definition new_proposer w s rs : proposer := MkProposer Idle w s rs [].

(** What the protocol decides for a decree. *)
Context (decided : DecreeId -> Value A -> Prop).

(** Only workers send [()], and they yield what the protocol decides. *)
Definition allowed (p : proposer) (ev : event) : Prop :=
  match ev, pphase p with
  | Arrive MDone, _ => False
  | Yield v _, Proposing r _ => decided (prDecree r) v
  | _, _ => True
  end.

Definition request_of (m : mail) : option (ProposerRequest A) := match m with MRequest r => Some r | _ => None end.
Definition arrival (ev : event) : option (ProposerRequest A) := match ev with Arrive m => request_of m | _ => None end.

(** The requests it has received, the messages it has sent, its state. *)
Inductive reach (p0 : proposer) : list (ProposerRequest A) -> list (message A Ref) -> proposer -> Prop :=
| reach_new : reach p0 [] [] p0
| reach_event ins outs p ev p' o :
    reach p0 ins outs p -> allowed p ev -> pexec ev p = Some (p', o) ->
    reach p0 (ins ++ option_list (arrival ev)) (outs ++ o) p'.

(** The request that a message answers, and those not answered yet. *)
Definition answered (m : message A Ref) : option (ProposerRequest A) :=
  match m with Passed _ r | Rejected r => Some r | _ => None end.
Definition pending (p : proposer) : list (ProposerRequest A) :=
  match pphase p with Idle => [] | Proposing r _ | Clearing r _ _ _ _ _ => [r] end ++ omap request_of (mailbox p).

Fixpoint turns (k : nat) (p : proposer) : option (proposer * list (message A Ref)) :=
  match k with
  | O => Some (p, [])
  | Datatypes.S k => '(p1, o1) ← advance p; '(p2, o2) ← turns k p1; Some (p2, o1 ++ o2)
  end.

(** * Its invariant *)

Lemma receive_spec f l m l' :
  receive f l = Some (m, l') ->
  f m = true /\ exists l1 l2, l = l1 ++ m :: l2 /\ l' = l1 ++ l2 /\ Forall (fun x => f x = false) l1.
Proof.
  revert l'. induction l as [|x l IH]; intros l'; simpl; [done|]. destruct (f x) eqn:Hx.
  - intros [= <- <-]. split; [done|]. by exists [], l.
  - destruct (receive f l) as [[m' l'']|] eqn:Hr; simpl; [|done]. intros [= <- <-].
    destruct (IH _ eq_refl) as (Hm & l1 & l2 & -> & -> & Hl1). split; [done|]. exists (x :: l1), l2. repeat split. by constructor.
Qed.

Definition dones (l : list mail) : nat := length (filter (fun m => is_done m = true) l).
Definition notified (p : proposer) : bool :=
  match pphase p with Proposing _ (Notified _ _) | Clearing _ _ _ _ _ true => true | _ => false end.

Lemma dones_app l1 l2 : dones (l1 ++ l2) = (dones l1 + dones l2)%nat.
Proof. unfold dones. by rewrite list.filter_app, length_app. Qed.
Lemma dones_cons m l : dones (m :: l) = ((if is_done m then 1 else 0) + dones l)%nat.
Proof. unfold dones. rewrite list.filter_cons. by destruct m. Qed.

(** The results of workers are decided, and the watermark only grows. *)
Definition phase_ok (p : proposer) : Prop :=
  match pphase p with
  | Idle => True
  | Proposing r wk =>
      le (pwatermark p) (prDecree r) /\
      match wk with Running => True | Put v _ | Notified v _ => decided (prDecree r) v end
  | Clearing r v _ _ w' _ => le (pwatermark p) w' /\ decided (prDecree r) v
  end.

Definition out_ok (w : DecreeId) (m : message A Ref) : Prop :=
  match m with Passed v r => decided (prDecree r) v | Rejected r => lt (prDecree r) w | _ => False end.

(** What a step does: to the requests, to the notifications, to the rest. *)
Record kept (p : proposer) (ins : list (ProposerRequest A)) (p' : proposer) (o : list (message A Ref)) : Prop := {
  kept_requests : omap answered o ++ pending p' ≡ₚ pending p ++ ins;
  kept_dones : dones (mailbox p') = if notified p' then 1%nat else 0%nat;
  kept_phase : phase_ok p';
  kept_watermark : le (pwatermark p) (pwatermark p');
  kept_out : Forall (out_ok (pwatermark p')) o;
}.

Definition ok (p : proposer) : Prop := phase_ok p /\ dones (mailbox p) = if notified p then 1%nat else 0%nat.

Lemma le_max_decree w w' : le w (max_decree w w').
Proof. unfold max_decree. destruct (decide (le w w')); [done|apply le_refl]. Qed.

Lemma pending_taken f l m l' :
  receive f l = Some (m, l') -> omap request_of l ≡ₚ option_list (request_of m) ++ omap request_of l'.
Proof.
  intros (_ & l1 & l2 & -> & -> & _)%receive_spec. rewrite !omap_app. simpl.
  destruct (request_of m); simpl; [by rewrite Permutation_middle|done].
Qed.
Lemma dones_taken f l m l' :
  receive f l = Some (m, l') -> dones l = ((if is_done m then 1 else 0) + dones l')%nat.
Proof. intros (_ & l1 & l2 & -> & -> & _)%receive_spec. rewrite !dones_app, dones_cons. lia. Qed.

Lemma clear_kept p r wk rs' w' l :
  pphase p = Proposing r wk -> ok p -> omap request_of (mailbox p) ≡ₚ omap request_of l ->
  dones (mailbox p) = dones l -> le (pwatermark p) w' ->
  let '(p', o) := clearNotifications p r wk rs' w' l in kept p [] p' o.
Proof.
  intros Hp [Hok Hd] Hr Hdl Hw. unfold ok, phase_ok, notified, pending in *. rewrite Hp in *. destruct Hok as [Hle Hwk].
  rewrite Hdl in Hd. destruct wk as [|v s'|v s']; simpl.
  - destruct (decide _) as [Hc|Hc]; constructor; unfold pending; simpl; rewrite ?Hp, ?app_nil_r; try done.
    + rewrite omap_app, Hr. simpl. by rewrite Permutation_app_comm.
    + rewrite dones_app. simpl. by rewrite Hd.
    + by rewrite Hr.
    + constructor; [|done]. by apply lt_not_le.
  - constructor; unfold pending; simpl; rewrite ?Hp, ?app_nil_r; try done; [by rewrite Hr|apply le_refl].
  - constructor; unfold pending; simpl; rewrite ?Hp, ?app_nil_r; try done; [by rewrite Hr|apply le_refl].
Qed.

Lemma advance_idle p p' o : pphase p = Idle -> ok p -> advance p = Some (p', o) -> kept p [] p' o.
Proof.
  intros Hp [_ Hd]. unfold advance, notified in *. rewrite Hp in *.
  destruct (receive _ _) as [[m l]|] eqn:Hrc; simpl; [|done].
  pose proof (pending_taken _ _ _ _ Hrc) as Hreq. pose proof (dones_taken _ _ _ _ Hrc) as Hdl.
  destruct m as [r|rs|w|]; simpl in *; [destruct (decide _)| | |done]; intros [= <- <-];
    constructor; unfold pending, phase_ok, notified; simpl; rewrite ?Hp, ?app_nil_r; simpl; try done; try lia;
    try (by rewrite Hreq); try apply le_refl; try apply le_max_decree.
  - by constructor.
  - split; [|done]. destruct (le_total (pwatermark p) (prDecree r)) as [|[Hl|Heq]%le_lt_or_eq]; [done|done|].
    rewrite Heq. apply le_refl.
Qed.

Lemma advance_kept p p' o : ok p -> advance p = Some (p', o) -> kept p [] p' o.
Proof.
  intros Hok. destruct (pphase p) as [|r wk|r v s' rs' w' sent] eqn:Hp; [by apply advance_idle| |].
  - pose proof Hok as [Hph Hd]. unfold advance, phase_ok, notified in *. rewrite Hp in *.
    destruct Hph as [Hle Hwk]. destruct (receive _ _) as [[m l]|] eqn:Hrc; simpl; [|done].
    pose proof (pending_taken _ _ _ _ Hrc) as Hreq. pose proof (dones_taken _ _ _ _ Hrc) as Hdl.
    destruct m as [r'|rs|w|]; simpl in *; [done| | |].
    + intros [= E]. pose proof (clear_kept p r wk rs (pwatermark p) l Hp Hok Hreq Hdl (le_refl _)) as H. by rewrite E in H.
    + destruct (decide (le w (prDecree r))) as [Hw|Hw].
      * intros [= <- <-]. constructor; unfold pending, phase_ok, notified; simpl; rewrite ?Hp, ?app_nil_r; try done;
          [by rewrite Hreq|by rewrite <- Hdl|apply le_refl].
      * intros [= E]. apply lt_not_le in Hw.
        pose proof (clear_kept p r wk (pacceptors p) w l Hp Hok Hreq Hdl (lt_le _ _ (le_lt_trans _ _ _ Hle Hw))) as H.
        by rewrite E in H.
    + destruct wk as [| |v s']; [done..|]. intros [= <- <-].
      constructor; unfold pending; simpl; rewrite ?Hp, ?app_nil_r; try done; [by rewrite Hreq|lia|apply le_refl|by constructor].
  - destruct Hok as [Hph Hd]. unfold advance, phase_ok, notified in *. rewrite Hp in *. destruct Hph as [Hle Hv].
    destruct (receive _ _) as [[m l]|] eqn:Hrc; simpl; [|done]. intros [= <- <-].
    pose proof (pending_taken _ _ _ _ Hrc) as Hreq. pose proof (dones_taken _ _ _ _ Hrc) as Hdl.
    apply receive_spec in Hrc as [Hm _]. destruct m; try done. simpl in *. destruct sent; [|lia].
    constructor; unfold pending; simpl; rewrite ?Hp, ?app_nil_r; try done; [by rewrite Hreq|lia|by constructor].
Qed.

Lemma pexec_kept ev p p' o : ok p -> allowed p ev -> pexec ev p = Some (p', o) -> kept p (option_list (arrival ev)) p' o.
Proof.
  intros Hok Ha. pose proof Hok as [Hph Hd]. destruct ev as [|m|v s'|]; simpl.
  - by apply advance_kept.
  - intros [= <- <-]. constructor; unfold pending; simpl; try done; [|rewrite dones_app|apply le_refl].
    + rewrite omap_app. simpl. destruct m; simpl; by rewrite ?app_nil_r, ?app_assoc.
    + replace (dones [m]) with 0%nat by by destruct m. by rewrite Hd, Nat.add_0_r.
  - unfold allowed, phase_ok, notified in *. destruct (pphase p) as [|r [| |]|] eqn:Hp; try done. intros [= <- <-].
    constructor; unfold pending, phase_ok; simpl; rewrite ?Hp, ?app_nil_r; try done; [|apply le_refl]. by destruct Hph.
  - unfold phase_ok, notified in *. destruct (pphase p) as [|r [|v s'|]|r v s' rs' w' [|]] eqn:Hp; try done; intros [= <- <-];
      (constructor; unfold pending, phase_ok, notified; simpl; rewrite ?Hp, ?app_nil_r, ?omap_app, ?dones_app; simpl;
        rewrite ?app_nil_r, ?Hd; try done; apply le_refl).
Qed.

Lemma reach_ok p0 ins outs p :
  ok p0 -> pending p0 = [] -> reach p0 ins outs p ->
  ok p /\ omap answered outs ++ pending p ≡ₚ ins /\ Forall (out_ok (pwatermark p)) outs.
Proof.
  intros H0 Hp0. induction 1 as [|ins outs p ev p' o _ (IH & IHr & IHo) Ha He].
  - rewrite Hp0. by repeat split; try apply H0.
  - destruct (pexec_kept _ _ _ _ IH Ha He) as [Hr Hd Hph Hw Ho]. split; [done|]. split.
    + rewrite omap_app, <- app_assoc, Hr, app_assoc. by rewrite IHr.
    + apply list.Forall_app. split; [|done]. eapply list.Forall_impl; [exact IHo|]. intros [] Hm; try done. simpl in *.
      by eapply lt_le_trans.
Qed.

Lemma new_ok w s rs : ok (new_proposer w s rs).
Proof. done. Qed.

(** * Its answers *)

Lemma receive_some f l m : m ∈ l -> f m = true -> exists x, receive f l = Some x.
Proof.
  intros Hin Hm. induction l as [|x l IH]; [by apply elem_of_nil in Hin|]. simpl. destruct (f x) eqn:Hx; [by eexists|].
  apply elem_of_cons in Hin as [->|Hin]; [congruence|]. destruct (IH Hin) as [[m' l'] ->]. by eexists.
Qed.

Lemma dones_elem l : dones l <> 0%nat <-> MDone ∈ l.
Proof.
  split.
  - intros H. destruct (filter (fun m => is_done m = true) l) as [|m l'] eqn:Hf; [by unfold dones in H; rewrite Hf in H|].
    assert (Hin : m ∈ filter (fun m => is_done m = true) l) by (rewrite Hf; by left).
    apply list_elem_of_filter in Hin as [Hm ?]. by destruct m.
  - intros (l1 & l2 & ->)%list_elem_of_split. rewrite dones_app, dones_cons. simpl. lia.
Qed.

(** From [Clearing], one turn; from a notified worker, one for each message. *)
Lemma clearing_delivers p r v s' rs' w' sent :
  pphase p = Clearing r v s' rs' w' sent -> MDone ∈ mailbox p ->
  exists p', advance p = Some (p', [Passed v r]) /\ pphase p' = Idle.
Proof.
  intros Hp Hin. unfold advance. rewrite Hp.
  destruct (receive_some is_done _ _ Hin eq_refl) as [[m l] ->]. simpl. by eexists.
Qed.

Lemma notified_delivers p r v s' :
  pphase p = Proposing r (Notified v s') -> MDone ∈ mailbox p ->
  exists k p', (k <= length (mailbox p))%nat /\ turns k p = Some (p', [Passed v r]) /\ pphase p' = Idle.
Proof.
  remember (length (mailbox p)) as n eqn:Hn. revert p Hn. induction n as [|n IH]; intros p Hn Hp Hin.
  { symmetry in Hn. apply nil_length_inv in Hn. rewrite Hn in Hin. by apply elem_of_nil in Hin. }
  destruct (receive_some busy_accepts _ _ Hin eq_refl) as [[m l] Hrc].
  pose proof (receive_spec _ _ _ _ Hrc) as (Hm & l1 & l2 & Hl & -> & _).
  assert (Hlen : length (l1 ++ l2) = n) by (rewrite Hl in Hn; rewrite length_app in *; simpl in Hn; lia).
  assert (Hin' : m <> MDone -> MDone ∈ l1 ++ l2).
  { intros Hne. rewrite Hl in Hin. apply elem_of_app in Hin. apply elem_of_app.
    destruct Hin as [|[|]%elem_of_cons]; [by left|congruence|by right]. }
  assert (Hclear : forall rs' w', m <> MDone ->
    advance p = Some (clearNotifications p r (Notified v s') rs' w' (l1 ++ l2)) ->
    exists k p', (k <= Datatypes.S n)%nat /\ turns k p = Some (p', [Passed v r]) /\ pphase p' = Idle).
  { intros rs' w' Hne Ha.
    destruct (clearing_delivers (clearNotifications p r (Notified v s') rs' w' (l1 ++ l2)).1 r v s' rs' w' true)
      as (p' & Hc & Hi); [done|by apply Hin'|]. exists 2%nat, p'. split; [|split; [|done]].
    - specialize (Hin' Hne). destruct (l1 ++ l2); [by apply elem_of_nil in Hin'|]. simpl in Hlen. lia.
    - cbn [turns]. rewrite Ha. simpl. simpl in Hc. by rewrite Hc. }
  destruct m as [r'|rs'|w'|]; [done| | |].
  - apply (Hclear rs' (pwatermark p)); [done|]. unfold advance. rewrite Hp, Hrc. done.
  - destruct (decide (le w' (prDecree r))) as [Hw|Hw].
    + destruct (IH (set_mailbox (l1 ++ l2) p)) as (k & p' & Hk & Ht & Hi); [done|done|by apply Hin'|].
      exists (Datatypes.S k), p'. split; [lia|split; [|done]]. cbn [turns]. unfold advance. rewrite Hp, Hrc. simpl.
      rewrite decide_True by done. simpl. by rewrite Ht.
    + apply (Hclear (pacceptors p) w'); [done|]. unfold advance. rewrite Hp, Hrc. simpl. by rewrite decide_False.
  - exists 1%nat. eexists. split; [lia|]. cbn [turns]. unfold advance. rewrite Hp, Hrc. simpl. by split.
Qed.
End Process.
Arguments mail : clear implicits.
Arguments worker : clear implicits.
Arguments phase : clear implicits.
Arguments proposer : clear implicits.
Arguments event : clear implicits.

(** C24. The proposer of a replica answers each request once: those it has
    answered and those that wait are the requests it was given, through any
    number of changes of the acceptors and of the watermark. A value it reports
    for a request is one the protocol decided for that decree; a request comes
    back without a value only if its decree is below the watermark; and between
    proposals no notification of a worker is left in the mailbox. *)
Theorem proposer_answers_once {A Ref P} (decided : DecreeId -> Value A -> Prop) w (s : P) rs ins
    (outs : list (message A Ref)) p :
  reach decided (new_proposer w s rs) ins outs p ->
  omap answered outs ++ pending p ≡ₚ ins /\
  (forall v r, Passed v r ∈ outs -> decided (prDecree r) v) /\
  (forall r, Rejected r ∈ outs -> lt (prDecree r) (pwatermark p)) /\
  (pphase p = Idle -> MDone ∉ mailbox p).
Proof.
  intros Hr. destruct (reach_ok decided _ _ _ _ (new_ok decided w s rs) eq_refl Hr) as ([_ Hd] & Hans & Hout).
  rewrite list.Forall_forall in Hout. split; [done|]. split; [|split].
  - intros v r Hin. exact (Hout _ Hin).
  - intros r Hin. exact (Hout _ Hin).
  - intros Hi. unfold notified in Hd. rewrite Hi in Hd. rewrite <- dones_elem, Hd. lia.
Qed.

(** C39. Once a worker has notified its proposer, the proposer reports the
    worker's value, whatever else is in the mailbox, in at most as many turns as
    there are messages in it. *)
Theorem proposer_delivers {A Ref P} (decided : DecreeId -> Value A -> Prop) w (s : P) rs ins
    (outs : list (message A Ref)) p r v s' :
  reach decided (new_proposer w s rs) ins outs p -> pphase p = Proposing r (Notified v s') ->
  exists k p', (k <= length (mailbox p))%nat /\ turns k p = Some (p', [Passed v r : message A Ref]) /\ pphase p' = Idle.
Proof.
  intros Hr Hp. destruct (reach_ok decided _ _ _ _ (new_ok decided w s rs) eq_refl Hr) as ([_ Hd] & _).
  apply (notified_delivers p r v s' Hp), dones_elem. unfold notified in Hd. rewrite Hp in Hd. by rewrite Hd.
Qed.

(** What a replica is told by its proposer is what a group of replicas
    (ReplicaSys.v) expects of it. *)
Lemma proposer_external {A S Ref P} `{EqDecision A} (cfg : config A S Ref) (decided : DecreeId -> Value A) w (s : P) rs ins
    (outs : list (message A Ref)) p :
  reach (fun di v => v = decided di) (new_proposer w s rs) ins outs p ->
  Forall (ReplicaSys.external cfg decided) outs.
Proof.
  intros Hr. destruct (reach_ok _ _ _ _ _ (new_ok _ w s rs) eq_refl Hr) as (_ & _ & Ho).
  eapply list.Forall_impl; [exact Ho|]. by intros [].
Qed.

(** * An example *)

(** A request for decree 5; the acceptors change while the worker runs, so it
    starts again; the watermark moves to decree 6 after the second worker is
    done. Another request, for decree 4, comes back. *)
Definition request_for (n : Z) : ProposerRequest Z := MkProposerRequest (Decree 0 n) true 0 (MkRequest [77] (Values [n]) NoHint).
Definition five_decided (d : DecreeId) (v : Value Z) : Prop := v = Values [decreeNumber d].
Definition first_events : list (event Z unit) :=
  [Arrive (MRequest (request_for 5)); Advance; Arrive (MAcceptors [1; 2; 3]); Advance; Advance; Yield (Values [5]) tt;
   Arrive (MWatermark (Decree 0 6)); Arrive (MRequest (request_for 4)); Notify].

Definition allowed_bool (p : proposer Z unit) (ev : event Z unit) : bool :=
  match ev, pphase p with
  | Arrive MDone, _ => false
  | Yield v _, Proposing r _ => bool_decide (v = Values [decreeNumber (prDecree r)])
  | _, _ => true
  end.

Fixpoint run_events (evs : list (event Z unit)) (p : proposer Z unit) :
    option (list (ProposerRequest Z) * list (message Z unit) * proposer Z unit) :=
  match evs with
  | [] => Some ([], [], p)
  | ev :: evs =>
      if allowed_bool p ev then
        '(p1, o1) ← pexec ev p; '(ins, o2, p2) ← run_events evs p1; Some (option_list (arrival ev) ++ ins, o1 ++ o2, p2)
      else None
  end.

Lemma allowed_bool_ok p ev : allowed_bool p ev = true -> allowed five_decided p ev.
Proof.
  unfold allowed_bool, allowed, five_decided. destruct ev as [|[]|v s'|]; try done.
  destruct (pphase p); try done. by intros ?%bool_decide_eq_true.
Qed.

Lemma run_events_reach evs p0 ins0 outs0 p ins outs p' :
  reach five_decided p0 ins0 outs0 p -> run_events evs p = Some (ins, outs, p') ->
  reach five_decided p0 (ins0 ++ ins) (outs0 ++ outs) p'.
Proof.
  revert ins0 outs0 p ins outs. induction evs as [|ev evs IH]; intros ins0 outs0 p ins outs Hr; simpl.
  { intros [= <- <- <-]. by rewrite !app_nil_r. }
  destruct (allowed_bool p ev) eqn:Ha; [|done]. destruct (pexec ev p) as [[p1 o1]|] eqn:He; simpl; [|done].
  destruct (run_events evs p1) as [[[ins1 o2] p2]|] eqn:Hrun; simpl; [|done]. intros [= <- <- <-].
  rewrite !app_assoc. eapply IH; [|exact Hrun]. by eapply reach_event; [|apply allowed_bool_ok|].
Qed.

Definition start5 : proposer Z unit := new_proposer (Decree 0 5) tt [1; 2].
Definition after (evs : list (event Z unit)) : list (ProposerRequest Z) * list (message Z unit) * proposer Z unit :=
  default ([], [], start5) (run_events evs start5).

Lemma after_reached evs : is_Some (run_events evs start5) ->
  reach five_decided start5 (after evs).1.1 (after evs).1.2 (after evs).2.
Proof.
  intros [[[ins outs] p] H]. unfold after. rewrite H. simpl.
  apply (run_events_reach evs start5 [] [] start5); [constructor|done].
Qed.

Lemma proposer_answers_once_witness :
  let evs := first_events ++ [Advance; Advance; Advance] in
  (after evs).1.2 = [Passed (Values [5]) (request_for 5); Rejected (request_for 4)] /\
  omap answered (after evs).1.2 ++ pending (after evs).2 ≡ₚ [request_for 5; request_for 4].
Proof.
  intros evs. split; [vm_compute; reflexivity|].
  exact (proj1 (proposer_answers_once five_decided (Decree 0 5) tt [1; 2] [request_for 5; request_for 4] (after evs).1.2
    (after evs).2 (after_reached evs (ex_intro _ (after evs) eq_refl)))).
Defined.

Lemma proposer_delivers_witness :
  exists k p', (k <= 3)%nat /\ turns k (after first_events).2 = Some (p', [Passed (Values [5]) (request_for 5) : message Z unit]) /\
    pphase p' = Idle.
Proof.
  exact (proposer_delivers five_decided (Decree 0 5) tt [1; 2] _ (after first_events).1.2 (after first_events).2 (request_for 5)
    (Values [5]) tt (after_reached first_events (ex_intro _ (after first_events) eq_refl)) eq_refl).
Defined.
End Proposer.
