(* ===== verification/Batcher.v ===== *)
(** The batcher of the leader (src/replicated-log, Process/Batcher.hs and
    [sendBatch] of Log/Internal.hs): it collects the requests in its mailbox,
    refuses those of an old epoch, and submits the others to the replica in
    batches, waiting after each until the replica is done with it. The length of
    the encoding of a request is a parameter. *)

From S2P Require Import Prelude Paxos Replica.
Local Open Scope Z_scope.
Set Default Proof Using "Type".

Module Batcher.
Import Replica.

Section Process.
Context {A S Ref : Type} (size : Z * Z * Request A -> Z).
Abbreviation request := (Z * Z * Request A)%type.
Implicit Types (r : request) (rs : list request) (m : BatcherMsg A).

(** Its mailbox: requests with their ambassadors and epochs, the marker, new
    epochs and memberships, and the [()] of the replica. *)
Inductive item := IRequest r | IMarker | IConfig (epoch : Z) (members : list Z) | IAck.

(** ** Collecting *)

(** [expect]: the first request. *)
Fixpoint expect_request (mb : list item) : option (request * list item) :=
  match mb with
  | [] => None
  | IRequest r :: mb => Some (r, mb)
  | x :: mb => '(r, mb') ← expect_request mb; Some (r, x :: mb')
  end.

(** The loop of [collectMailbox]: the requests up to the marker; other messages
    stay. [None]: the marker has not arrived. *)
Fixpoint collect (acc : list request) (mb : list item) : option (list request * list item) :=
  match mb with
  | [] => None
  | IRequest r :: mb => collect (r :: acc) mb
  | IMarker :: mb => Some (rev acc, mb)
  | x :: mb => '(rs, mb') ← collect acc mb; Some (rs, x :: mb')
  end.

(** The marker goes to the end of the mailbox; [later] arrives after it. *)
Definition collectMailbox (mb later : list item) : option (list request * list item) :=
  collect [] (mb ++ IMarker :: later).

(** [liftM2 (:) expect collectMailbox] *)
Definition next_batch (mb later : list item) : option (list request * list item) :=
  '(r, mb') ← expect_request mb; '(rs, mb'') ← collectMailbox mb' later; Some (r :: rs, mb'').

(** ** Submitting *)

(** The last configuration in the mailbox, if any. *)
Fixpoint latest (s : Z * list Z) (mb : list item) : (Z * list Z) * list item :=
  match mb with
  | [] => (s, [])
  | IConfig e members :: mb => latest (e, members) mb
  | x :: mb => let '(s', mb') := latest s mb in (s', x :: mb')
  end.

Definition maxBatchSize : Z := 128 * 1024.

(** [break] on the sums of the sizes. *)
Fixpoint break_sizes (total : Z) rs : list request * list request :=
  match rs with
  | [] => ([], [])
  | r :: rs' =>
      let total' := total + size r in
      if maxBatchSize <? total' then ([], rs)
      else let '(a, b) := break_sizes total' rs' in (r :: a, b)
  end.
Definition chunk rs : list request * list request :=
  match break_sizes 0 rs with ([], b) => (take 1 b, drop 1 b) | p => p end.

Definition to_msg r : BatcherMsg A := MkBatcherMsg r.1.1 r.1.2 r.2.
Definition reconfigures m : bool := isReconf (requestValue (batcherMsgRequest m)).

(** The three kinds of requests in a batch; of the reconfigurations only the
    last is submitted. *)
Definition nullipotents (ms : list (BatcherMsg A)) := filter (fun m => nullipotent m = true) ms.
Definition reconfigurations (ms : list (BatcherMsg A)) :=
  filter (fun m => reconfigures m = true) (filter (fun m => nullipotent m = false) ms).
Definition ordinary (ms : list (BatcherMsg A)) :=
  filter (fun m => reconfigures m = false) (filter (fun m => nullipotent m = false) ms).

Definition unless_null (ms : list (BatcherMsg A)) : list (list (BatcherMsg A)) := match ms with [] => [] | _ => [ms] end.
Definition submissions (ms : list (BatcherMsg A)) : list (list (BatcherMsg A)) :=
  match list.last (reconfigurations ms) with Some m => [[m]] | None => [] end ++
  unless_null (ordinary ms) ++ unless_null (nullipotents ms).

(** The loop over what is left; every turn takes a request, so [length rs] turns
    are enough. *)
Fixpoint batches (fuel : nat) rs : list (list (BatcherMsg A)) :=
  match fuel, rs with
  | O, _ | _, [] => []
  | Datatypes.S fuel, _ => let '(now, rest) := chunk rs in submissions (to_msg <$> now) ++ batches fuel rest
  end.

(** What the batcher does: it sends something, or waits for the [()] of the
    replica. *)
Inductive action := Send (e : effect A S Ref) | AwaitAck.

Definition sendBatch (here : Z) (s : Z * list Z) rs0 : list action :=
  let rs1 := filter (fun r => s.1 <= r.1.2) rs0 in
  let withOldEpoch := filter (fun r => ~ s.1 <= r.1.2) rs0 in
  ((fun a => Send (ToAmbassador a s.1 s.2)) <$> nub ((fun r => r.1.1) <$> withOldEpoch)) ++
  (withOldEpoch ≫= fun r => (fun c => Send (ToClient c false)) <$> requestSender r.2) ++
  (batches (length rs1) rs1 ≫= fun ms => [Send (ToReplica here (Batch ms)); AwaitAck]).

(** A round of [batcher]: [late] has come by the time the batch is complete. *)
Definition batcher_round (here : Z) (s : Z * list Z) (mb late : list item) : option ((Z * list Z) * list action * list item) :=
  '(rs, mb1) ← next_batch mb late; let '(s', mb2) := latest s mb1 in Some (s', sendBatch here s' rs, mb2).

(** * What it submits *)

Definition get_request (x : item) : option request := match x with IRequest r => Some r | _ => None end.

Lemma requests_cons x mb :
  omap get_request (x :: mb) = match get_request x with Some r => r :: omap get_request mb | None => omap get_request mb end.
Proof. done. Qed.

Lemma expect_spec mb r mb' :
  expect_request mb = Some (r, mb') ->
  omap get_request mb = r :: omap get_request mb' /\ (IMarker ∉ mb -> IMarker ∉ mb').
Proof.
  revert mb'. induction mb as [|x mb IH]; intros mb'; cbn [expect_request]; [done|].
  assert (Hother : get_request x = None -> ('(r0, mb0) ← expect_request mb; Some (r0, x :: mb0)) = Some (r, mb') ->
    omap get_request (x :: mb) = r :: omap get_request mb' /\ (IMarker ∉ x :: mb -> IMarker ∉ mb')).
  { intros Hx. destruct (expect_request mb) as [[r0 mb0]|]; simpl; [|done]. intros [= -> <-]. rewrite !requests_cons, Hx.
    destruct (IH _ eq_refl) as [Hr Hm]. split; [exact Hr|]. rewrite !not_elem_of_cons. intros [? ?]. split; [done|by apply Hm]. }
  destruct x as [r0| | |]; [|by apply Hother..]. intros [= -> ->]. simpl. split; [done|]. rewrite not_elem_of_cons. by intros [_ ?].
Qed.

Lemma collect_spec acc mb later rs mb' :
  IMarker ∉ mb -> collect acc (mb ++ IMarker :: later) = Some (rs, mb') ->
  rs = rev acc ++ omap get_request mb /\ omap get_request mb' = omap get_request later.
Proof.
  revert acc mb'. induction mb as [|x mb IH]; intros acc mb' Hm; simpl.
  { intros [= <- <-]. by rewrite app_nil_r. }
  apply not_elem_of_cons in Hm as [Hx Hm]. destruct x as [r| |e members|]; simpl; [|done| |].
  - intros H. destruct (IH _ _ Hm H) as [-> ->]. simpl. by rewrite <- app_assoc.
  - destruct (collect _ _) as [[rs0 mb0]|] eqn:Hc; simpl; [|done]. intros [= <- <-]. exact (IH _ _ Hm Hc).
  - destruct (collect _ _) as [[rs0 mb0]|] eqn:Hc; simpl; [|done]. intros [= <- <-]. exact (IH _ _ Hm Hc).
Qed.

Lemma next_batch_spec mb later rs mb' :
  IMarker ∉ mb -> next_batch mb later = Some (rs, mb') ->
  rs = omap get_request mb /\ omap get_request mb' = omap get_request later.
Proof.
  unfold next_batch, collectMailbox. intros Hm. destruct (expect_request mb) as [[r mb1]|] eqn:He; simpl; [|done].
  apply expect_spec in He as [-> Hm1]. destruct (collect _ _) as [[rs1 mb2]|] eqn:Hc; simpl; [|done]. intros [= <- <-].
  apply collect_spec in Hc as [-> ->]; [done|by apply Hm1].
Qed.

Lemma latest_requests s mb : omap get_request (latest s mb).2 = omap get_request mb.
Proof.
  revert s. induction mb as [|x mb IH]; intros s; [done|].
  destruct x as [r| |e members|]; cbn [latest]; [| |exact (IH (e, members))|];
    specialize (IH s); destruct (latest s mb) as [s' mb'];
    cbn [snd] in *; rewrite !requests_cons; cbn [get_request]; by rewrite IH.
Qed.

(** ** Chunks *)

Definition msg_size m : Z := size (batcherMsgAmbassador m, batcherMsgEpoch m, batcherMsgRequest m).
Definition total (ms : list (BatcherMsg A)) : Z := foldr (fun m n => msg_size m + n) 0 ms.

Lemma break_sizes_spec t rs :
  let '(a, b) := break_sizes t rs in a ++ b = rs /\ (a = [] \/ t + total (to_msg <$> a) <= maxBatchSize).
Proof.
  revert t. induction rs as [|r rs IH]; intros t; cbn [break_sizes]; [by split; [|left]|].
  destruct (Z.ltb_spec maxBatchSize (t + size r)) as [|Hle]; [by split; [|left]|].
  specialize (IH (t + size r)). destruct (break_sizes _ rs) as [a b]. destruct IH as [<- Ha]. split; [done|]. right.
  cbn [fmap list_fmap total foldr]. change (foldr _ 0 (to_msg <$> a)) with (total (to_msg <$> a)).
  replace (msg_size (to_msg r)) with (size r) by by destruct r as [[]].
  destruct Ha as [->|Ha]; [simpl; lia|lia].
Qed.

Lemma chunk_spec rs :
  rs <> [] -> let '(a, b) := chunk rs in
  a ++ b = rs /\ a <> [] /\ (length a = 1%nat \/ total (to_msg <$> a) <= maxBatchSize).
Proof.
  intros Hne. unfold chunk. pose proof (break_sizes_spec 0 rs) as H. destruct (break_sizes 0 rs) as [[|r a] b].
  - destruct H as [<- _]. simpl in *. destruct b as [|r b]; [done|]. by split; [|split; [|left]].
  - destruct H as [<- [H|H]]; [done|]. by split; [|split; [|right]].
Qed.

(** ** Kinds of requests *)

(** A batch that the replica can serve as one: requests that leave the state
    alone, a reconfiguration, or requests to add to the log. *)
Inductive uniform : list (BatcherMsg A) -> Prop :=
| uniform_nullipotent ms : ms <> [] -> Forall (fun m => nullipotent m = true) ms -> uniform ms
| uniform_reconf m : nullipotent m = false -> reconfigures m = true -> uniform [m]
| uniform_ordinary ms :
    ms <> [] -> Forall (fun m => nullipotent m = false /\ reconfigures m = false) ms -> uniform ms.

Lemma ordinary_app ms ms' : ordinary (ms ++ ms') = ordinary ms ++ ordinary ms'.
Proof. unfold ordinary. by rewrite !list.filter_app. Qed.
Lemma nullipotents_app ms ms' : nullipotents (ms ++ ms') = nullipotents ms ++ nullipotents ms'.
Proof. unfold nullipotents. by rewrite !list.filter_app. Qed.

Lemma ordinary_kind ms : Forall (fun m => nullipotent m = false /\ reconfigures m = false) (ordinary ms).
Proof. apply list.Forall_forall. unfold ordinary. intros m. rewrite !list_elem_of_filter. by intros (? & ? & _). Qed.
Lemma nullipotents_kind ms : Forall (fun m => nullipotent m = true) (nullipotents ms).
Proof. apply list.Forall_forall. unfold nullipotents. intros m. rewrite !list_elem_of_filter. by intros [? _]. Qed.
Lemma last_reconf ms m : list.last (reconfigurations ms) = Some m -> m ∈ ms /\ nullipotent m = false /\ reconfigures m = true.
Proof.
  intros Hl. assert (Hin : m ∈ reconfigurations ms) by by apply last_Some_elem_of.
  unfold reconfigurations in Hin. rewrite !list_elem_of_filter in Hin. by destruct Hin as (? & ? & ?).
Qed.

Lemma mjoin_unless_null ms : mjoin (unless_null ms) = ms.
Proof. destruct ms; [done|]. simpl. by rewrite app_nil_r. Qed.

(** ** Batches *)

Lemma submissions_sublist ms : Forall (fun b => b `sublist_of` ms) (submissions ms).
Proof.
  unfold submissions. rewrite !list.Forall_app. repeat split.
  - destruct (list.last _) as [m|] eqn:Hl; [|done]. constructor; [|done]. apply last_reconf in Hl as [Hl _].
    by apply singleton_sublist_l.
  - destruct (ordinary ms) eqn:Ho; [done|]. constructor; [|done]. rewrite <- Ho. unfold ordinary.
    etrans; apply sublist_filter.
  - destruct (nullipotents ms) eqn:Ho; [done|]. constructor; [|done]. rewrite <- Ho. apply sublist_filter.
Qed.

Lemma submissions_uniform ms : Forall uniform (submissions ms).
Proof.
  unfold submissions. rewrite !list.Forall_app. repeat split.
  - destruct (list.last _) as [m|] eqn:Hl; [|done]. constructor; [|done]. apply last_reconf in Hl as (_ & ? & ?).
    by apply uniform_reconf.
  - pose proof (ordinary_kind ms). destruct (ordinary ms); [done|]. constructor; [|done]. by apply uniform_ordinary.
  - pose proof (nullipotents_kind ms). destruct (nullipotents ms); [done|]. constructor; [|done]. by apply uniform_nullipotent.
Qed.

Lemma submissions_keep ms :
  ordinary (mjoin (submissions ms)) = ordinary ms /\ nullipotents (mjoin (submissions ms)) = nullipotents ms.
Proof.
  unfold submissions. rewrite !join_app, !mjoin_unless_null, !ordinary_app, !nullipotents_app.
  assert (ordinary (ordinary ms) = ordinary ms /\ nullipotents (ordinary ms) = []) as [-> ->].
  { pose proof (ordinary_kind ms) as Hk. rewrite list.Forall_forall in Hk. split.
    - unfold ordinary at 1. rewrite (filter_all (fun m => nullipotent m = false)); [apply filter_all|];
        apply list.Forall_forall; intros m Hm; by destruct (Hk m Hm).
    - apply filter_none, list.Forall_forall. intros m Hm. destruct (Hk m Hm). congruence. }
  assert (ordinary (nullipotents ms) = [] /\ nullipotents (nullipotents ms) = nullipotents ms) as [-> ->].
  { pose proof (nullipotents_kind ms) as Hk. split; [|by apply filter_all]. unfold ordinary.
    rewrite (filter_none (fun m => nullipotent m = false)); [done|]. eapply list.Forall_impl; [exact Hk|]. simpl. congruence. }
  rewrite !app_nil_r. destruct (list.last _) as [m|] eqn:Hl; [|done]. apply last_reconf in Hl as (_ & Hn & Hr).
  simpl. unfold ordinary, nullipotents. rewrite list.filter_cons_True by done. simpl.
  rewrite !list.filter_cons_False by congruence. done.
Qed.

Hypothesis size_nonneg : forall r, 0 <= size r.

Lemma total_sublist ms ms' : ms `sublist_of` ms' -> total ms <= total ms'.
Proof using size_nonneg.
  induction 1 as [|m ms ms' _ IH|m ms ms' _ IH]; [done|simpl; lia|].
  simpl. pose proof (size_nonneg (batcherMsgAmbassador m, batcherMsgEpoch m, batcherMsgRequest m)). unfold msg_size. lia.
Qed.

(** A batch is small, or it is one request. *)
Definition bounded (ms : list (BatcherMsg A)) : Prop := length ms = 1%nat \/ total ms <= maxBatchSize.

Lemma batches_spec fuel rs :
  (length rs <= fuel)%nat ->
  ordinary (mjoin (batches fuel rs)) = ordinary (to_msg <$> rs) /\
  nullipotents (mjoin (batches fuel rs)) = nullipotents (to_msg <$> rs) /\
  Forall (fun b => uniform b /\ bounded b) (batches fuel rs).
Proof using size_nonneg.
  revert rs. induction fuel as [|fuel IH]; intros [|r rs] Hf; try done; [simpl in Hf; lia|].
  cbn [batches]. pose proof (chunk_spec (r :: rs)) as Hc. destruct (chunk (r :: rs)) as [a b].
  destruct Hc as (Heq & Hne & Hb); [done|]. rewrite <- Heq in Hf |- *.
  destruct (IH b) as (Ho & Hn & HF). { rewrite length_app in Hf. destruct a; [done|]. simpl in Hf. lia. }
  destruct (submissions_keep (to_msg <$> a)) as [Ho' Hn'].
  rewrite join_app, fmap_app, !ordinary_app, !nullipotents_app, Ho, Hn, Ho', Hn'. do 2 (split; [done|]).
  apply list.Forall_app. split; [|done].
  pose proof (submissions_sublist (to_msg <$> a)) as Hs. pose proof (submissions_uniform (to_msg <$> a)) as Hu.
  rewrite list.Forall_forall in Hs, Hu. apply list.Forall_forall. intros ms Hms. split; [by apply Hu|].
  specialize (Hs ms Hms). destruct Hb as [Hb|Hb].
  - left. apply sublist_length in Hs. rewrite length_fmap, Hb in Hs. destruct (Hu ms Hms) as [[]?| |[]?]; simpl in *; try done; lia.
  - right. apply total_sublist in Hs. lia.
Qed.

Definition submitted (acts : list action) : list (list (BatcherMsg A)) :=
  omap (fun a => match a with Send (ToReplica _ (Batch ms)) => Some ms | _ => None end) acts.

Lemma submitted_sendBatch here s rs0 :
  submitted (sendBatch here s rs0) =
  let rs1 := filter (fun r => s.1 <= r.1.2) rs0 in batches (length rs1) rs1.
Proof.
  unfold sendBatch, submitted. rewrite !omap_app.
  assert (Hnone : forall (X : Type) (f : X -> effect A S Ref) l, (forall x, match f x with ToReplica _ (Batch _) => False | _ => True end) ->
    omap (fun a => match a with Send (ToReplica _ (Batch ms)) => Some ms | _ => None end) ((fun x => Send (f x)) <$> l) = []).
  { intros X f l Hf. induction l as [|x l IH]; [done|]. specialize (Hf x). simpl. destruct (f x) as [n []| | | | | | | | | | | | | | | | |]; done. }
  rewrite Hnone by done.
  assert (Hclients : forall l : list request, omap (fun a => match a with Send (ToReplica _ (Batch ms)) => Some ms | _ => None end)
    (l ≫= fun r => (fun c => Send (ToClient c false)) <$> requestSender r.2 : list action) = []).
  { induction l as [|r l IH]; [done|]. by rewrite bind_cons, omap_app, (Hnone _ (fun c => ToClient c false)). }
  rewrite Hclients. rewrite !app_nil_l. cbv zeta. generalize (filter (fun r => s.1 <= r.1.2) rs0). intros rs1.
  induction (batches _ _) as [|b bs IH]; [done|]. rewrite bind_cons, omap_app, IH. done.
Qed.
End Process.
Arguments item : clear implicits.
Arguments action : clear implicits.

(** C25. The batcher of the leader. A round takes every request that is in the
    mailbox, and leaves those that come later. Of the requests of the current
    epoch, those to add to the log are submitted to the replica once each and in
    their order, and so are those that leave the state alone; every batch is of
    one kind, and it is one request or no larger than 128 KiB. The clients of
    requests of an old epoch are refused. *)
Theorem batcher_submits {A S Ref} here (size : Z * Z * Request A -> Z) s mb late s' (acts : list (action A S Ref)) mb' :
  (forall r, 0 <= size r) -> IMarker ∉ mb -> batcher_round size here s mb late = Some (s', acts, mb') ->
  let current := to_msg <$> filter (fun r => s'.1 <= r.1.2) (omap get_request mb) in
  ordinary (mjoin (submitted acts)) = ordinary current /\
  nullipotents (mjoin (submitted acts)) = nullipotents current /\
  Forall (fun b => uniform b /\ bounded size b) (submitted acts) /\
  (forall r c, r ∈ omap get_request mb -> r.1.2 < s'.1 -> c ∈ requestSender r.2 -> Send (ToClient c false) ∈ acts) /\
  omap get_request mb' = omap get_request late.
Proof.
  intros Hsize Hm. unfold batcher_round. destruct (next_batch mb late) as [[rs mb1]|] eqn:Hn; simpl; [|done].
  apply next_batch_spec in Hn as [-> Hl]; [|done]. pose proof (latest_requests s mb1) as Hlr.
  destruct (latest s mb1) as [s1 mb2]. intros [= -> <- <-]. simpl in Hlr. rewrite submitted_sendBatch.
  destruct (batches_spec size Hsize _ (filter (fun r => s'.1 <= r.1.2) (omap get_request mb)) (le_n _)) as (Ho & Hnu & HF).
  do 3 (split; [done|]). split; [|by rewrite Hlr]. intros r c Hr He Hc. unfold sendBatch. rewrite !elem_of_app. right. left.
  apply list_elem_of_bind. exists r. split; [by apply (list_elem_of_fmap_2 (fun c => Send (ToClient c false)))|]. apply list_elem_of_filter. split; [lia|done].
Qed.

(** Two reconfigurations that get into one batch: only the last is submitted.
    The client of the other is not told, and waits for ever. *)
Theorem batcher_drops_reconf {A S Ref} here (size : Z * Z * Request A -> Z) epoch members a1 e1 q1 a2 e2 q2 :
  0 <= size (a1, e1, q1) -> 0 <= size (a2, e2, q2) -> size (a1, e1, q1) + size (a2, e2, q2) <= maxBatchSize ->
  epoch <= e1 -> epoch <= e2 -> isReconf (requestValue q1) = true -> isReconf (requestValue q2) = true ->
  requestHint q1 = NoHint -> requestHint q2 = NoHint ->
  sendBatch size here (epoch, members) [(a1, e1, q1); (a2, e2, q2)] =
  [Send (ToReplica here (Batch [MkBatcherMsg a2 e2 q2])) : action A S Ref; AwaitAck].
Proof.
  intros H1 H2 Hs He1 He2 Hr1 Hr2 Hh1 Hh2. unfold sendBatch.
  rewrite (filter_all (fun r => (epoch, members).1 <= r.1.2)) by by repeat constructor.
  rewrite (filter_none (fun r => ~ (epoch, members).1 <= r.1.2)) by (repeat constructor; tauto).
  cbn [length batches]. unfold chunk. cbn [break_sizes].
  rewrite !(proj2 (Z.ltb_ge _ _)) by lia. cbn [fmap list_fmap]. unfold submissions, reconfigurations, ordinary, nullipotents.
  assert (Hk : forall a e (q : Request A), isReconf (requestValue q) = true -> requestHint q = NoHint ->
    nullipotent (to_msg (a, e, q)) = false /\ reconfigures (to_msg (a, e, q)) = true).
  { intros a e q Hr Hh. unfold nullipotent. simpl. by rewrite Hh. }
  destruct (Hk a1 e1 q1 Hr1 Hh1) as [N1 R1], (Hk a2 e2 q2 Hr2 Hh2) as [N2 R2].
  rewrite (filter_all (fun m => nullipotent m = false)) by by repeat constructor.
  rewrite (filter_none (fun m => nullipotent m = true)) by (repeat constructor; congruence).
  rewrite (filter_all (fun m => reconfigures m = true)) by by repeat constructor.
  rewrite (filter_none (fun m => reconfigures m = false)) by (repeat constructor; congruence).
  done.
Qed.

(** A leader whose epoch is past that of its batcher: the client of a request is
    not answered, and the batcher that it may be watching lives on. *)
Lemma stale_request_unanswered {A S Ref} `{EqDecision A} (cfg : config A S Ref) here inp (st : state A S Ref) (m : BatcherMsg A) :
  stateCurrentDecree st = stateWatermark st ->
  getLeader cfg here inp (stateLeaseStart st) (stateReplicas st) = Some here ->
  nullipotent m = false -> batcherMsgEpoch m < stateEpoch st ->
  turn cfg here inp st (Batch [m]) =
  Handled (st, [ToAmbassador (batcherMsgAmbassador m) (stateEpoch st) (stateReplicas st); Wake (stateBatcher st)]).
Proof.
  intros Hcd Hl Hn He. unfold turn, goNext, onBatch. rewrite decide_True by done. rewrite Hl. simpl. rewrite Z.eqb_refl.
  unfold serveBatch. simpl. rewrite Hn. simpl.
  rewrite (filter_none (fun m => stateEpoch st <= batcherMsgEpoch m)) by (repeat constructor; lia).
  rewrite (filter_all (fun m => ~ stateEpoch st <= batcherMsgEpoch m)) by (repeat constructor; lia).
  simpl. unfold go. rewrite decide_False; [done|]. intros [Hlt _]. rewrite Hcd in Hlt. apply Paxos.lt_not_le in Hlt.
  apply Hlt, Paxos.le_refl.
Qed.

(** * Examples *)

Definition put (n : Z) : Request Z := MkRequest [n] (Values [n]) NoHint.
Definition get (n : Z) : Request Z := MkRequest [n] (Values [n]) Nullipotent.
Definition move_to (n : Z) (rs : list Z) : Request Z := MkRequest [n] (Reconf 0 rs) NoHint.
Definition small (r : Z * Z * Request Z) : Z := 100.
Definition mixed : list (item Z) :=
  [IRequest (9, 3, put 1); IRequest (9, 2, put 2); IConfig 3 [1; 2]; IRequest (9, 3, get 3); IAck; IRequest (9, 4, put 4)].

Lemma batcher_submits_witness :
  let mb' := [IAck; IRequest (9, 3, put 5)] in
  let acts : list (action Z unit unit) :=
    [Send (ToAmbassador 9 3 [1; 2]); Send (ToClient 2 false);
     Send (ToReplica 1 (Batch [MkBatcherMsg 9 3 (put 1); MkBatcherMsg 9 4 (put 4)])); AwaitAck;
     Send (ToReplica 1 (Batch [MkBatcherMsg 9 3 (get 3)])); AwaitAck] in
  batcher_round small 1 (0, [1]) mixed [IRequest (9, 3, put 5)] = Some ((3, [1; 2]), acts, mb') /\
  ordinary (mjoin (submitted acts)) = [MkBatcherMsg 9 3 (put 1); MkBatcherMsg 9 4 (put 4)].
Proof.
  intros mb' acts. split; [reflexivity|].
  refine (proj1 (batcher_submits 1 small (0, [1]) mixed [IRequest (9, 3, put 5)] (3, [1; 2]) acts mb' _ _ _)).
  - by intros r.
  - unfold mixed. rewrite !not_elem_of_cons. repeat (split; [done|]). apply not_elem_of_nil.
  - reflexivity.
Defined.

Lemma batcher_drops_reconf_witness :
  sendBatch small 1 (0, [1]) [(9, 0, move_to 7 [1; 2]); (9, 0, move_to 8 [1; 3])] =
  [Send (ToReplica 1 (Batch [MkBatcherMsg 9 0 (move_to 8 [1; 3])])) : action Z unit unit; AwaitAck].
Proof. apply batcher_drops_reconf; vm_compute; congruence. Defined.
End Batcher.
