(* ===== verification/Ambassador.v ===== *)
(** The ambassador to a group (src/replicated-log, Log/Internal.hs,
    [ambassador]): a process beside the clients that knows the members, the
    epoch and the batcher of the leader, and forwards requests to it. A process
    is named by its node and a number; what [monitor] returns is an input. *)

From stdpp Require Import sorting.
From S2P Require Import Prelude Paxos Replica.
Local Open Scope Z_scope.
Set Default Proof Using "Type".

Module Ambassador.
Import Replica.

Section Process.
Context {A : Type}.

Record process := MkProcess { processNodeId : Z; processLocalId : Z }.

(** The messages that are delivered in order. *)
Inductive OrderedMessage :=
| OMRequest (r : Request A)
| OMHelo (sender : Z) (policy : list Z -> list Z)
| OMRecover (sender : Z) (members : list Z).

Record AmbassadorState := MkAmbassador {
  asEpoch : Z;
  asLeader : option (Z * process);
  asReplicas : list Z;
}.

(** The mailbox and the channels. *)
Inductive amessage :=
| AClone (to : Z)
| AStatus
| AMembership (epoch' : Z) (members : list Z)
| ADown (ref' : Z)
| AWhereIs (batcher : option process)
| AReplica (node : Z)
| AMembershipQuery (sender : Z)
| AConfigQuery (sender : Z)
| ALeaderPort (port : Z)
| ATick
| AOrdered (om : OrderedMessage).

Inductive aeffect :=
| ForwardRequest (b : process) (epoch : Z) (r : Request A)
| ForwardHelo (node epoch sender : Z) (policy : list Z -> list Z)
| ForwardRecover (node epoch sender : Z) (members : list Z)
| Refuse (client : Z)
| WhereIsBatcher (node : Z)
| TimerIn (t : Z)
| ForwardStatus (node : Z)
| ForwardMembershipQuery (node epoch sender : Z)
| ForwardConfigQuery (node sender : Z)
| AskLeader (node : Z)
| Ping (node : Z)
| Unmonitor (ref : Z)
| Monitor (b : process)
| SendMembers (to : Z) (members : list Z)
| SendLeader (port : Z) (leader : option process).

Context (leaseTimeout : Z).

(** [None]: no leader is in the new membership and the membership is empty. *)
Definition handleRequest (epoch : Z) (mLeader : option process) (om : OrderedMessage) : option (list aeffect) :=
  match om with
  | OMRequest a =>
      Some match mLeader with
           | Some b => [ForwardRequest b epoch a]
           | None => Refuse <$> requestSender a
           end
  | OMHelo sender policy =>
      Some match mLeader with
           | Some b => [ForwardHelo (processNodeId b) epoch sender policy]
           | None => [Refuse sender]
           end
  | OMRecover sender members =>
      let send node := Some [ForwardRecover node epoch sender members] in
      let first := match members with node :: _ => send node | [] => None end in
      match mLeader with
      | Some b => if decide (processNodeId b ∈ members) then send (processNodeId b) else first
      | None => first
      end
  end.

Definition handleTimerTick (members : list Z) (mLeader : option process) (mRef : option Z) : list aeffect :=
  match mLeader with
  | None => (Unmonitor <$> option_list mRef) ++ (WhereIsBatcher <$> members) ++ (AskLeader <$> members)
  | Some b => [Ping (processNodeId b)]
  end ++ [TimerIn leaseTimeout].

Definition to_leader (mLeader : option process) (f : Z -> aeffect) : list aeffect :=
  match mLeader with Some b => [f (processNodeId b)] | None => [] end.

(** The mailbox; [ref] is what [monitor] returns if it is called. *)
Definition on_message (ref : Z) (st : AmbassadorState) (m : amessage) : option (AmbassadorState * list aeffect) :=
  let 'MkAmbassador epoch mRefLeader members := st in
  let mLeader := snd <$> mRefLeader in
  let mRef := fst <$> mRefLeader in
  match m with
  | AClone to => Some (st, [SendMembers to members])
  | AStatus => Some (st, to_leader mLeader ForwardStatus)
  | AMembership epoch' members' =>
      if epoch <=? epoch'
      then Some (MkAmbassador epoch' mRefLeader members', (WhereIsBatcher <$> members') ++ [TimerIn leaseTimeout])
      else Some (st, match mLeader with None => [TimerIn leaseTimeout] | Some _ => [] end)
  | ADown ref' =>
      if decide (mRef = Some ref') then Some (MkAmbassador epoch None members, [TimerIn leaseTimeout]) else Some (st, [])
  | AWhereIs None => Some (st, [])
  | AWhereIs (Some b) =>
      let node := processNodeId b in
      Some (MkAmbassador epoch (Some (ref, b)) (node :: filter (fun n => n <> node) members),
            (Unmonitor <$> option_list mRef) ++ [Monitor b])
  | AReplica node => Some (MkAmbassador epoch mRefLeader (filter (fun n => n <> node) members ++ [node]), [])
  | AMembershipQuery sender => Some (st, to_leader mLeader (fun node => ForwardMembershipQuery node epoch sender))
  | AConfigQuery sender => Some (st, to_leader mLeader (fun node => ForwardConfigQuery node sender))
  | ALeaderPort port => Some (st, [SendLeader port mLeader])
  | ATick => Some (st, handleTimerTick members mLeader mRef)
  | AOrdered om => effs ← handleRequest epoch mLeader om; Some (st, effs)
  end.

(** A turn of [go]: the channels are polled first, each once; then it waits for
    a message. *)
Record ainput := AInput { polled : option OrderedMessage; ticked : bool; arrived : amessage; monitored : Z }.

Definition go (st : AmbassadorState) (i : ainput) : option (AmbassadorState * list aeffect) :=
  let mLeader := snd <$> asLeader st in
  e1 ← match polled i with Some om => handleRequest (asEpoch st) mLeader om | None => Some [] end;
  let e2 := if ticked i then handleTimerTick (asReplicas st) mLeader (fst <$> asLeader st) else [] in
  '(st', e3) ← on_message (monitored i) st (arrived i); Some (st', e1 ++ e2 ++ e3).

(** It dies without replicas. *)
Definition ambassador (replicas : list Z) : option (AmbassadorState * list aeffect) :=
  match replicas with
  | [] => None
  | _ => Some (MkAmbassador 0 None replicas, (WhereIsBatcher <$> replicas) ++ [TimerIn 1000000])
  end.

Fixpoint run (st : AmbassadorState) (ins : list ainput) : option (AmbassadorState * list aeffect) :=
  match ins with
  | [] => Some (st, [])
  | i :: ins => '(st1, e1) ← go st i; '(st2, e2) ← run st1 ins; Some (st2, e1 ++ e2)
  end.

(** * What becomes of requests *)

(** The ordered messages that a run reads, in their order. *)
Definition read (i : ainput) : list OrderedMessage :=
  option_list (polled i) ++ match arrived i with AOrdered om => [om] | _ => [] end.
Definition clients (om : OrderedMessage) : list Z :=
  match om with OMRequest r => requestSender r | OMHelo sender _ | OMRecover sender _ => [sender] end.

(** The message that an effect forwards, and with which epoch. *)
Definition forwarded (e : aeffect) : option (OrderedMessage * Z) :=
  match e with
  | ForwardRequest _ epoch r => Some (OMRequest r, epoch)
  | ForwardHelo _ epoch sender policy => Some (OMHelo sender policy, epoch)
  | ForwardRecover _ epoch sender members => Some (OMRecover sender members, epoch)
  | _ => None
  end.
Abbreviation forwards effs := (omap forwarded effs).

(** Each message is forwarded once, with [epoch], or its clients are refused. *)
Definition handled (epoch : Z) (oms : list OrderedMessage) (effs : list aeffect) : Prop :=
  (forwards effs).*1 `sublist_of` oms /\ Forall (fun x => x.2 = epoch) (forwards effs) /\
  forall om, om ∈ oms -> (om, epoch) ∈ forwards effs \/ forall c, c ∈ clients om -> Refuse c ∈ effs.

Lemma handled_app epoch o1 e1 o2 e2 : handled epoch o1 e1 -> handled epoch o2 e2 -> handled epoch (o1 ++ o2) (e1 ++ e2).
Proof.
  intros (S1 & F1 & H1) (S2 & F2 & H2). unfold handled. rewrite omap_app, fmap_app. split; [by apply sublist_app|].
  split; [by apply list.Forall_app|]. intros om [Hom|Hom]%elem_of_app.
  - destruct (H1 om Hom) as [?|?]; [left; apply elem_of_app; by left|]. right. intros c Hc. apply elem_of_app. left. auto.
  - destruct (H2 om Hom) as [?|?]; [left; apply elem_of_app; by right|]. right. intros c Hc. apply elem_of_app. right. auto.
Qed.

Lemma handled_none epoch effs : forwards effs = [] -> handled epoch [] effs.
Proof. intros H. unfold handled. rewrite H. split; [done|]. split; [done|]. by intros om ?%elem_of_nil. Qed.

Lemma handled_one epoch om e : forwarded e = Some (om, epoch) -> handled epoch [om] [e].
Proof.
  intros H. unfold handled. simpl. rewrite H. simpl. split; [done|]. split; [by repeat constructor|].
  intros om' ->%list_elem_of_singleton. left. by apply list_elem_of_singleton.
Qed.

Lemma no_forwards {X} (f : X -> aeffect) l : (forall x, forwarded (f x) = None) -> forwards (f <$> l) = [].
Proof. intros Hf. induction l as [|x l IH]; [done|]. simpl. by rewrite Hf. Qed.

Lemma handleRequest_handled epoch mLeader om effs : handleRequest epoch mLeader om = Some effs -> handled epoch [om] effs.
Proof.
  destruct om as [r|sender policy|sender members]; simpl.
  - destruct mLeader as [b|]; intros [= <-]; [by apply handled_one|]. unfold handled. rewrite no_forwards by done.
    split; [apply sublist_nil_l|]. split; [done|]. intros om ->%list_elem_of_singleton. right. intros c Hc.
    by apply (list_elem_of_fmap_2 Refuse).
  - destruct mLeader as [b|]; intros [= <-]; [by apply handled_one|]. unfold handled. simpl.
    split; [apply sublist_nil_l|]. split; [done|]. intros om ->%list_elem_of_singleton. right. simpl.
    intros c ->%list_elem_of_singleton. by left.
  - intros H. destruct mLeader as [b|]; [destruct (decide _)|]; [|destruct members; [done|]..]; injection H as <-; by apply handled_one.
Qed.

Lemma tick_forwards members mLeader mRef : forwards (handleTimerTick members mLeader mRef) = [].
Proof.
  unfold handleTimerTick. rewrite omap_app. destruct mLeader as [b|]; [done|].
  by rewrite !omap_app, !no_forwards.
Qed.

(** The epoch does not go back and the membership does not become empty, if the
    memberships announced are not empty. *)
Definition announces_members (m : amessage) : Prop := match m with AMembership _ members => members <> [] | _ => True end.

Lemma on_message_spec ref st m st' effs :
  on_message ref st m = Some (st', effs) ->
  handled (asEpoch st) (match m with AOrdered om => [om] | _ => [] end) effs /\ asEpoch st <= asEpoch st' /\
  (announces_members m -> asReplicas st <> [] -> asReplicas st' <> []).
Proof.
  destruct st as [epoch mRefLeader members]. destruct m as [to| |epoch' members'|ref'|[b|]|node|sender|sender|port| |om];
    simpl; unfold to_leader.
  all: try (intros [= <- <-]; split; [apply handled_none|simpl; split; [lia|done]]; try done; by destruct mRefLeader).
  - destruct (Z.leb_spec epoch epoch') as [Hle|Hgt]; intros [= <- <-]; simpl.
    + split; [|split; [lia|done]]. apply handled_none. by rewrite omap_app, no_forwards.
    + split; [|split; [lia|done]]. apply handled_none. by destruct mRefLeader.
  - destruct (decide _); intros [= <- <-]; (split; [by apply handled_none|split; [simpl; lia|done]]).
  - intros [= <- <-]. split; [by apply handled_none|]. split; [simpl; lia|]. simpl. intros _ _ H. by apply app_eq_nil in H as [_ H].
  - intros [= <- <-]. split; [apply handled_none, tick_forwards|]. split; [simpl; lia|done].
  - destruct (handleRequest _ _ _) eqn:H; simpl; [|done]. intros [= <- <-].
    split; [by eapply handleRequest_handled|]. split; [simpl; lia|done].
Qed.

Lemma go_spec st i st' effs :
  go st i = Some (st', effs) ->
  handled (asEpoch st) (read i) effs /\ asEpoch st <= asEpoch st' /\
  (announces_members (arrived i) -> asReplicas st <> [] -> asReplicas st' <> []).
Proof.
  unfold go, read. destruct (match polled i with Some om => _ | None => _ end) as [e1|] eqn:H1; simpl; [|done].
  destruct (on_message _ _ _) as [[st1 e3]|] eqn:H3; simpl; [|done]. intros [= <- <-].
  apply on_message_spec in H3 as (H3 & Hrest). split; [|done]. rewrite <- (app_nil_l (match arrived i with AOrdered om => [om] | _ => [] end)).
  apply handled_app; [|apply handled_app; [|done]].
  - destruct (polled i) as [om|]; simpl in *; [by eapply handleRequest_handled|]. injection H1 as <-. by apply handled_none.
  - apply handled_none. destruct (ticked i); [apply tick_forwards|done].
Qed.

Lemma sorted_const (k : Z) l : (forall x, x ∈ l -> x = k) -> StronglySorted Z.le l.
Proof.
  induction l as [|x l IH]; intros H; constructor; [apply IH; intros y Hy; apply H; by right|].
  apply list.Forall_forall. intros y Hy. rewrite (H x) by by left. rewrite (H y) by by right. done.
Qed.

Lemma run_spec st ins st' effs :
  run st ins = Some (st', effs) ->
  (forwards effs).*1 `sublist_of` (ins ≫= read) /\
  (forall om, om ∈ ins ≫= read -> om ∈ (forwards effs).*1 \/ forall c, c ∈ clients om -> Refuse c ∈ effs) /\
  StronglySorted Z.le (forwards effs).*2 /\ Forall (fun e => asEpoch st <= e <= asEpoch st') (forwards effs).*2 /\
  asEpoch st <= asEpoch st' /\
  (Forall (fun i => announces_members (arrived i)) ins -> asReplicas st <> [] -> asReplicas st' <> []).
Proof.
  revert st effs. induction ins as [|i ins IH]; intros st effs; simpl.
  { intros [= <- <-]. split; [done|]. split; [by intros om ?%elem_of_nil|]. split; [constructor|]. split; [constructor|]. by split. }
  destruct (go st i) as [[st1 e1]|] eqn:Hg; simpl; [|done]. destruct (run st1 ins) as [[st2 e2]|] eqn:Hr; simpl; [|done].
  intros [= <- <-]. apply go_spec in Hg as ((S1 & F1 & H1) & Hle & Hm). apply IH in Hr as (S2 & H2 & Hs & F2 & Hle2 & Hm2).
  assert (F1' : Forall (fun e => e = asEpoch st) (forwards e1).*2) by by rewrite list.Forall_fmap.
  rewrite !omap_app, !fmap_app. split; [by apply sublist_app|]. split; [|split; [|split; [|split; [lia|]]]].
  - intros om [Hom|Hom]%elem_of_app.
    + destruct (H1 om Hom) as [Hin|Hc].
      * left. apply elem_of_app. left. by apply (list_elem_of_fmap_2 fst _ (om, asEpoch st)).
      * right. intros c Hin. apply elem_of_app. left. by apply Hc.
    + destruct (H2 om Hom) as [Hin|Hc]; [left; apply elem_of_app; by right|]. right. intros c Hin. apply elem_of_app. right. by apply Hc.
  - rewrite list.Forall_forall in F1', F2. apply StronglySorted_app_2; [|by apply (sorted_const (asEpoch st))|done].
    intros x1 x2 Hx1 Hx2. rewrite (F1' x1 Hx1). specialize (F2 x2 Hx2). lia.
  - apply list.Forall_app. split; (eapply list.Forall_impl; [eassumption|]); simpl; lia.
  - intros Ha Hne. inversion Ha; subst. auto.
Qed.

(** Only a recovery with no members kills the ambassador. *)
Lemma handleRequest_none epoch mLeader om : handleRequest epoch mLeader om = None -> exists sender, om = OMRecover sender [].
Proof.
  destruct om as [r|sender policy|sender members]; simpl; [done..|].
  destruct mLeader as [b|]; [destruct (decide _); [done|]|]; destruct members; try done; intros _; by exists sender.
Qed.

Lemma on_message_none ref st m : on_message ref st m = None -> exists sender, m = AOrdered (OMRecover sender []).
Proof.
  destruct st as [epoch mRefLeader members].
  destruct m as [to| |epoch' members'|ref'|[b|]|node|sender|sender|port| |om]; simpl; try done.
  - by destruct (_ <=? _).
  - by destruct (decide _).
  - destruct (handleRequest _ _ om) eqn:H; simpl; [done|]. intros _.
    apply handleRequest_none in H as (sender & ->). by exists sender.
Qed.

Lemma go_none st i : go st i = None -> exists sender, OMRecover sender [] ∈ read i.
Proof.
  unfold go, read. destruct (polled i) as [om|] eqn:Hp.
  - destruct (handleRequest _ _ om) eqn:H1; simpl.
    + destruct (on_message _ _ _) as [[? ?]|] eqn:H3; simpl; [done|]. intros _.
      apply on_message_none in H3 as (sender & ->). exists sender. right. by left.
    + intros _. apply handleRequest_none in H1 as (sender & ->). exists sender. by left.
  - simpl. destruct (on_message _ _ _) as [[? ?]|] eqn:H3; simpl; [done|]. intros _.
    apply on_message_none in H3 as (sender & ->). exists sender. by left.
Qed.

Lemma run_none st ins : run st ins = None -> exists sender, OMRecover sender [] ∈ ins ≫= read.
Proof.
  revert st. induction ins as [|i ins IH]; intros st; simpl; [done|].
  destruct (go st i) as [[st1 e1]|] eqn:Hg; simpl.
  - destruct (run st1 ins) as [[? ?]|] eqn:Hr; simpl; [done|]. intros _. destruct (IH st1 Hr) as [sender Hs].
    exists sender. apply elem_of_app. by right.
  - intros _. apply go_none in Hg as [sender Hs]. exists sender. apply elem_of_app. by left.
Qed.
End Process.
Arguments OrderedMessage : clear implicits.
Arguments amessage : clear implicits.
Arguments aeffect : clear implicits.
Arguments ainput : clear implicits.

(** C26. The ambassador, started with some replicas, as long as no client asks it to recover the group with
    an empty membership. Whatever else it receives, it does not die: what the
    clients send it in order it forwards at most once and in that order; a
    request that it does not forward it refuses, to all its clients; the epochs
    with which it forwards never go back; and it always knows a member, if the
    replicas never announce an empty membership. *)
Theorem ambassador_forwards_in_order {A} (leaseTimeout : Z) replicas st0 (ins : list (ainput A)) (e0 : list (aeffect A)) :
  ambassador replicas = Some (st0, e0) ->
  (forall sender, OMRecover sender [] ∉ ins ≫= read) ->
  exists st effs, run leaseTimeout st0 ins = Some (st, effs) /\
  (omap forwarded effs).*1 `sublist_of` (ins ≫= read) /\
  (forall om, om ∈ ins ≫= read ->
    om ∈ (omap forwarded effs).*1 \/ forall c, c ∈ clients om -> Refuse c ∈ effs) /\
  StronglySorted Z.le (omap forwarded effs).*2 /\
  (Forall (fun i => announces_members (arrived i)) ins -> asReplicas st <> []).
Proof.
  intros H0 Hno. destruct (run leaseTimeout st0 ins) as [[st effs]|] eqn:Hr.
  2: { apply run_none in Hr as [sender Hs]. by destruct (Hno sender). }
  exists st, effs. split; [done|].
  apply run_spec in Hr as (? & ? & ? & _ & _ & Hm). split; [done|]. split; [done|]. split; [done|].
  intros Ha. apply (Hm Ha). destruct replicas as [|n replicas]; [done|]. by injection H0 as <- _.
Qed.

(** An ambassador that is asked to recover the group without members dies: it
    takes the head of the list, and [recover] does not check its argument. *)
Lemma recover_empty_kills_ambassador {A} (leaseTimeout : Z) st (i : ainput A) sender :
  polled i = Some (OMRecover sender []) -> go leaseTimeout st i = None.
Proof.
  intros Hp. unfold go. rewrite Hp. simpl. by destruct (asLeader st) as [[ref b]|].
Qed.

(** * An example *)

(** A request comes before a leader is known; then the batcher of node 2 is
    found, a request and a reconfiguration follow, and a new epoch. *)
Definition request1 (n : Z) : Request Z := MkRequest [n] (Values [n]) NoHint.
Definition example_inputs : list (ainput Z) :=
  [AInput None false (AOrdered (OMRequest (request1 1))) 0; AInput None true (AWhereIs (Some (MkProcess 2 20))) 7;
   AInput (Some (OMRequest (request1 2))) false (AMembership 3 [2; 1]) 0;
   AInput None false (AOrdered (OMRecover 3 [1; 2])) 0].
Definition example_st0 : AmbassadorState := MkAmbassador 0 None [1; 2].

Lemma ambassador_forwards_in_order_witness :
  exists st effs, run 1000 example_st0 example_inputs = Some (st, effs) /\
    omap forwarded effs = [(OMRequest (request1 2), 0); (OMRecover 3 [1; 2], 3)] /\ Refuse 1 ∈ effs /\ asReplicas st <> [].
Proof.
  destruct (ambassador_forwards_in_order 1000 [1; 2] example_st0 example_inputs
    [WhereIsBatcher 1; WhereIsBatcher 2; TimerIn 1000000] eq_refl) as (st & effs & Hr & _ & _ & _ & Hm).
  { intros sender. cbn. rewrite !elem_of_cons, elem_of_nil. intros [?|[?|[?|?]]]; congruence. }
  exists st, effs. split; [done|]. vm_compute in Hr. injection Hr as <- <-. split; [reflexivity|]. split; [by left|].
  apply Hm. repeat constructor; discriminate.
Defined.
End Ambassador.
