(* ===== verification/Multimap.v ===== *)
(** The multimap that holds the resource graph in replicated state (src/halon,
    HA/Multimap.hs, HA/Multimap/Implementation.hs, HA/Multimap/Process.hs): its
    operations, the updates of the store, and the process that replicates them.
    Keys and values are byte strings in the code; here any countable types. *)

From stdpp Require Import gmap.
From S2P Require Import Prelude.
Local Open Scope Z_scope.
Set Default Proof Using "Type".

Module Multimap.

Abbreviation multimap K V := (gmap K (gset V)).

(** * Data *)

Section Data.
Context (K V : Type).

(** Information for the collector of the resource graph. *)
Record MetaInfo := MkMetaInfo { miSinceGC : Z; miGCThreshold : Z; miRootNodes : list K }.
Definition defaultMetaInfo : MetaInfo := MkMetaInfo 0 100 [].

Inductive StoreUpdate :=
| InsertMany (kvs : list (K * list V))
| DeleteValues (kvs : list (K * list V))
| DeleteKeys (ks : list K)
| SetMetaInfo (mi : MetaInfo).
End Data.
Arguments InsertMany {K V} kvs.
Arguments DeleteValues {K V} kvs.
Arguments DeleteKeys {K V} ks.
Arguments SetMetaInfo {K V} mi.
Arguments MkMetaInfo {K}.
Arguments miSinceGC {K}.
Arguments miGCThreshold {K}.
Arguments miRootNodes {K}.
Arguments defaultMetaInfo {K}.

Section Operations.
Context {K V : Type} `{Countable K} `{Countable V}.
Abbreviation mm := (multimap K V).
Implicit Types (m : multimap K V) (kvs : list (K * list V)) (k : K).

(** * Operations *)

(** [Map.fromListWith Set.union] *)
Definition fromList kvs : mm :=
  foldl (fun m' kv => partial_alter (fun o => Some (list_to_set kv.2 ∪ default ∅ o)) kv.1 m') ∅ kvs.

Definition toList m : list (K * list V) := (fun kv => (kv.1, elements kv.2)) <$> map_to_list m.

Definition insertMany kvs m : mm :=
  foldl (fun m' kv => partial_alter
    (fun o => Some match o with
                   | Some s => foldl (fun acc v => {[v]} ∪ acc) s kv.2
                   | None => list_to_set kv.2
                   end) kv.1 m') m kvs.

Definition deleteValues kvs m : mm :=
  foldl (fun m' kv => alter (fun s => foldl (fun acc v => acc ∖ {[v]}) s kv.2) kv.1 m') m kvs.

Definition deleteKeys (ks : list K) m : mm := foldl (fun m' k => delete k m') m ks.

(** * Updates *)

Definition applyUpdate (u : StoreUpdate K V) m : mm :=
  match u with
  | InsertMany kvs => insertMany kvs m
  | DeleteValues kvs => deleteValues kvs m
  | DeleteKeys ks => deleteKeys ks m
  | SetMetaInfo _ => m
  end.

Definition metas (us : list (StoreUpdate K V)) : list (MetaInfo K) :=
  omap (fun u => match u with SetMetaInfo mi => Some mi | _ => None end) us.

Definition updateStore (us : list (StoreUpdate K V)) (st : MetaInfo K * mm) : MetaInfo K * mm :=
  (default st.1 (head (metas us)), foldl (fun m u => applyUpdate u m) st.2 us).

(** * Key by key *)

(** What a list of pairs says of a key. *)
Definition vals k kvs : gset V := foldr (fun kv acc => if decide (kv.1 = k) then list_to_set kv.2 ∪ acc else acc) ∅ kvs.

Lemma elem_of_vals k kvs v : v ∈ vals k kvs <-> exists vs, (k, vs) ∈ kvs /\ v ∈ vs.
Proof.
  induction kvs as [|[k' vs'] kvs IH]; simpl.
  - split; [set_solver|]. intros (vs & Hin & _). by apply elem_of_nil in Hin.
  - destruct (decide (k' = k)) as [->|Hne].
    + rewrite elem_of_union, elem_of_list_to_set, IH. split.
      * intros [Hv|(vs & Hin & Hv)]; [exists vs'; split; [by left|done]|exists vs; split; [by right|done]].
      * intros (vs & [[= ->]|Hin]%elem_of_cons & Hv); [by left|right; by exists vs].
    + rewrite IH. split; intros (vs & Hin & Hv); exists vs; (split; [|done]); [by right|].
      by apply elem_of_cons in Hin as [[= -> ->]|Hin].
Qed.

Lemma vals_cons k kv kvs : vals k (kv :: kvs) = if decide (kv.1 = k) then list_to_set kv.2 ∪ vals k kvs else vals k kvs.
Proof. done. Qed.
Lemma vals_none k kvs : k ∉ kvs.*1 -> vals k kvs = ∅.
Proof.
  intros Hn. apply set_eq. intros v. rewrite elem_of_vals, elem_of_empty. split; [|done]. intros (vs & Hin & _). apply Hn.
  by apply (list_elem_of_fmap_2 fst _ (k, vs)).
Qed.

Lemma foldl_insert (s : gset V) vs : foldl (fun acc v => {[v]} ∪ acc) s vs = s ∪ list_to_set vs.
Proof. revert s. induction vs as [|v vs IH]; intros s; simpl; [set_solver|]. rewrite IH. set_solver. Qed.
Lemma foldl_delete (s : gset V) vs : foldl (fun acc v => acc ∖ {[v]}) s vs = s ∖ list_to_set vs.
Proof. revert s. induction vs as [|v vs IH]; intros s; simpl; [set_solver|]. rewrite IH. set_solver. Qed.

(** The operations, as HA/Multimap.hs states them. *)
Lemma lookup_insertMany kvs m k :
  insertMany kvs m !! k = if decide (k ∈ kvs.*1) then Some (default ∅ (m !! k) ∪ vals k kvs) else m !! k.
Proof.
  revert m. induction kvs as [|[k' vs] kvs IH]; intros m; [done|]. cbn [insertMany foldl fmap list_fmap fst snd].
  change (foldl _ ?m' kvs) with (insertMany kvs m'). rewrite IH, vals_cons. cbn [fst snd].
  destruct (decide (k' = k)) as [->|Hne].
  - rewrite lookup_partial_alter_eq, (decide_True (P := k ∈ k :: _)) by by left.
    assert (Hs : default ∅ (Some match m !! k with Some s => foldl (fun acc v => {[v]} ∪ acc) s vs | None => list_to_set vs end) =
      default ∅ (m !! k) ∪ list_to_set vs).
    { destruct (m !! k); simpl; [apply foldl_insert|set_solver]. }
    destruct (decide (k ∈ kvs.*1)) as [|Hn].
    + rewrite Hs. f_equal. set_solver.
    + rewrite (vals_none k kvs Hn), union_empty_r_L, <- Hs. done.
  - rewrite lookup_partial_alter_ne by done. destruct (decide (k ∈ kvs.*1)) as [|Hn].
    + by rewrite decide_True by by right.
    + rewrite decide_False; [done|]. by intros [?|?]%elem_of_cons.
Qed.

Lemma lookup_deleteValues kvs m k : deleteValues kvs m !! k = (fun s => s ∖ vals k kvs) <$> m !! k.
Proof.
  revert m. induction kvs as [|[k' vs] kvs IH]; intros m; cbn [deleteValues foldl].
  - simpl. destruct (m !! k); [|done]. simpl. f_equal. set_solver.
  - change (foldl _ ?m' kvs) with (deleteValues kvs m'). rewrite IH, vals_cons. cbn [fst snd].
    destruct (decide (k' = k)) as [->|Hne].
    + rewrite lookup_alter_eq. destruct (m !! k); [|done]. simpl. rewrite foldl_delete. f_equal. set_solver.
    + by rewrite lookup_alter_ne.
Qed.

Lemma lookup_deleteKeys ks m k : deleteKeys ks m !! k = if decide (k ∈ ks) then None else m !! k.
Proof.
  revert m. induction ks as [|k' ks IH]; intros m; [done|]. cbn [deleteKeys foldl].
  change (foldl _ ?m' ks) with (deleteKeys ks m'). rewrite IH. destruct (decide (k ∈ ks)).
  - by rewrite decide_True by by right.
  - destruct (decide (k' = k)) as [->|]; [by rewrite lookup_delete_eq, decide_True by by left|].
    rewrite lookup_delete_ne, decide_False; [done| |done]. by intros [?|?]%elem_of_cons.
Qed.

(** An update acts on each key by itself. *)
Definition update_key (u : StoreUpdate K V) k (o : option (gset V)) : option (gset V) :=
  match u with
  | InsertMany kvs => if decide (k ∈ kvs.*1) then Some (default ∅ o ∪ vals k kvs) else o
  | DeleteValues kvs => (fun s => s ∖ vals k kvs) <$> o
  | DeleteKeys ks => if decide (k ∈ ks) then None else o
  | SetMetaInfo _ => o
  end.
Lemma lookup_applyUpdate u m k : applyUpdate u m !! k = update_key u k (m !! k).
Proof. destruct u; simpl; [apply lookup_insertMany|apply lookup_deleteValues|apply lookup_deleteKeys|done]. Qed.
Lemma lookup_applyUpdates us m k :
  foldl (fun m u => applyUpdate u m) m us !! k = foldl (fun o u => update_key u k o) (m !! k) us.
Proof. revert m. induction us as [|u us IH]; intros m; [done|]. simpl. by rewrite IH, lookup_applyUpdate. Qed.

(** * Retries *)

(** What a list of updates does to a key: it decides what the key has, or it
    takes values out, or it takes values out and puts values in. *)
Inductive shape := Const (o : option (gset V)) | Alter (D : gset V) | Put (X D : gset V).
Definition run_shape (sh : shape) (o : option (gset V)) : option (gset V) :=
  match sh with
  | Const o' => o'
  | Alter D => (fun s => s ∖ D) <$> o
  | Put X D => Some (default ∅ o ∖ D ∪ X)
  end.

Lemma run_shape_idemp sh o : run_shape sh (run_shape sh o) = run_shape sh o.
Proof. destruct sh, o; simpl; try done; f_equal; set_solver. Qed.

Definition then_update (u : StoreUpdate K V) k (sh : shape) : shape :=
  match sh, u with
  | Const o, _ => Const (update_key u k o)
  | _, SetMetaInfo _ => sh
  | _, DeleteKeys ks => if decide (k ∈ ks) then Const None else sh
  | Alter D, DeleteValues kvs => Alter (D ∪ vals k kvs)
  | Put X D, DeleteValues kvs => Put (X ∖ vals k kvs) (D ∪ vals k kvs)
  | Alter D, InsertMany kvs => if decide (k ∈ kvs.*1) then Put (vals k kvs) D else sh
  | Put X D, InsertMany kvs => if decide (k ∈ kvs.*1) then Put (X ∪ vals k kvs) D else sh
  end.

Lemma run_then_update u k sh o : run_shape (then_update u k sh) o = update_key u k (run_shape sh o).
Proof.
  destruct sh as [o'|D|X D], u as [kvs|kvs|ks|mi]; simpl; try done; try (destruct (decide _); [|done]); try done.
  all: destruct o; simpl; try done; f_equal; apply set_eq; intros x; set_unfold; tauto.
Qed.

Lemma updates_shape us k : exists sh, forall o, foldl (fun o u => update_key u k o) o us = run_shape sh o.
Proof.
  induction us as [|u us (sh & IH)] using rev_ind.
  - exists (Alter ∅). intros [s|]; simpl; [|done]. f_equal. set_solver.
  - exists (then_update u k sh). intros o. by rewrite foldl_app, IH, run_then_update.
Qed.

Lemma updates_idemp us m :
  foldl (fun m u => applyUpdate u m) (foldl (fun m u => applyUpdate u m) m us) us = foldl (fun m u => applyUpdate u m) m us.
Proof.
  apply map_eq. intros k. rewrite !lookup_applyUpdates. destruct (updates_shape us k) as [sh Hsh].
  rewrite !Hsh. apply run_shape_idemp.
Qed.

Lemma updateStore_idemp us st : updateStore us (updateStore us st) = updateStore us st.
Proof. unfold updateStore. simpl. f_equal; [by destruct (head (metas us))|apply updates_idemp]. Qed.

Lemma updateStore_iter us st n : Nat.iter (Datatypes.S n) (updateStore us) st = updateStore us st.
Proof. induction n as [|n IH]; [done|]. cbn [Nat.iter nat_rect]. cbn [Nat.iter nat_rect] in IH. by rewrite IH, updateStore_idemp. Qed.

(** ** Lists *)

Lemma vals_toList m k : vals k (toList m) = default ∅ (m !! k).
Proof.
  apply set_eq. intros v. rewrite elem_of_vals. unfold toList. split.
  - intros (vs & ([k' s] & [= -> ->] & Hin%elem_of_map_to_list)%list_elem_of_fmap & Hv). simpl in *. rewrite Hin. simpl. by apply elem_of_elements.
  - destruct (m !! k) as [s|] eqn:Hk; simpl; [|set_solver]. intros Hv. exists (elements s). split; [|by apply elem_of_elements].
    apply list_elem_of_fmap. exists (k, s). split; [done|]. by apply elem_of_map_to_list.
Qed.
Lemma toList_keys m k : k ∈ (toList m).*1 <-> is_Some (m !! k).
Proof.
  unfold toList. rewrite <- list_fmap_compose, list_elem_of_fmap. split.
  - intros ([k' s] & -> & Hin%elem_of_map_to_list). by exists s.
  - intros [s Hs]. exists (k, s). split; [done|]. by apply elem_of_map_to_list.
Qed.
End Operations.

Section Replication.
Context {K V : Type} `{Countable K} `{Countable V}.
Abbreviation mm := (multimap K V).

(** * Replication *)

(** [size] is the length of the encoding of an update. *)
Context (size : StoreUpdate K V -> Z).

Definition maxUpdateSize : Z := 64 * 1024.

Fixpoint break_updates (total : Z) (us : list (StoreUpdate K V)) : list (StoreUpdate K V) * list (StoreUpdate K V) :=
  match us with
  | [] => ([], [])
  | u :: us' =>
      let total' := total + size u in
      if maxUpdateSize <? total' then ([], us) else let '(a, b) := break_updates total' us' in (u :: a, b)
  end.
Definition next_updates (us : list (StoreUpdate K V)) : list (StoreUpdate K V) * list (StoreUpdate K V) :=
  match break_updates 0 us with ([], b) => (take 1 b, drop 1 b) | p => p end.

(** The loop of the process: each part is sent to the group until it answers;
    [retries] says how many more times a part is executed because an answer is
    lost. Every turn takes an update, so [length us] turns are enough. *)
Fixpoint replicate (fuel : nat) (retries : nat -> nat) (us : list (StoreUpdate K V)) (st : MetaInfo K * mm) : MetaInfo K * mm :=
  let '(us', rest) := next_updates us in
  let st' := Nat.iter (Datatypes.S (retries (length rest))) (updateStore us') st in
  match fuel, rest with
  | Datatypes.S fuel, _ :: _ => replicate fuel retries rest st'
  | _, _ => st'
  end.

(** A round: [acc] are the requests that were waiting, the last one first; the
    callbacks run in the order of [acc] once everything is replicated. *)
Definition replicate_batch {C} (retries : nat -> nat) (acc : list (list (StoreUpdate K V) * C)) (st : MetaInfo K * mm) :
    (MetaInfo K * mm) * list C :=
  let us := mjoin (reverse acc.*1) in
  (replicate (length us) retries us st, acc.*2).








End Replication.


(** The information for the collector is not updated in that way: if two
    requests that set it are replicated together, the first wins and the second
    is lost, although [SetMetaInfo] overwrites the old value. *)
Theorem batched_metainfo_lost {K V} `{Countable K} `{Countable V} (size : StoreUpdate K V -> Z) {C} retries mi1 mi2 (c1 c2 : C) st :
  size (SetMetaInfo mi1) + size (SetMetaInfo mi2) <= maxUpdateSize -> 0 <= size (SetMetaInfo mi2) ->
  (replicate_batch size retries [([SetMetaInfo mi2], c2); ([SetMetaInfo mi1], c1)] st).1.1 = mi1.
Proof.
  intros Hs H2. unfold replicate_batch. simpl. unfold next_updates. cbn [break_updates].
  rewrite !(proj2 (Z.ltb_ge _ _)) by lia. change (updateStore ?us (Nat.iter ?n _ st)) with (Nat.iter (Datatypes.S n) (updateStore us) st).
  by rewrite updateStore_iter.
Qed.

Lemma batched_metainfo_lost_witness :
  (replicate_batch (fun _ => 100) (fun _ => 0%nat)
    [([SetMetaInfo (MkMetaInfo 0 100 [1])], tt); ([SetMetaInfo (MkMetaInfo 0 100 [])], tt)]
    (defaultMetaInfo, (∅ : multimap Z Z))).1.1 = MkMetaInfo 0 100 [].
Proof. apply batched_metainfo_lost; vm_compute; congruence. Defined.
End Multimap.
