(* ===== verification/Graph.v ===== *)
(** The resource graph (src/halon, HA/ResourceGraph/GraphLike.hs and
    HA/ResourceGraph.hs): resources related by typed edges, which are kept at
    both ends, and a change log with what has to be told to the multimap.
    A resource is a value with its type; a relation is given by its type, as the
    values of relation types are singletons. The encodings of resources and
    relations are parameters. *)

From stdpp Require Import gmap.
From S2P Require Import Prelude Multimap.
Local Open Scope Z_scope.
Set Default Proof Using "Type".

Module Graph.
Import Multimap.

(** Relations that a resource has: edges into it and out of it. *)
Inductive Rel (R Res : Type) := InRel (r : R) (a b : Res) | OutRel (r : R) (a b : Res).
Arguments InRel {R Res} r a b.
Arguments OutRel {R Res} r a b.

#[export] Instance rel_eq_dec {R Res} `{EqDecision R} `{EqDecision Res} : EqDecision (Rel R Res).
Proof. solve_decision. Defined.
#[export] Instance rel_countable {R Res} `{Countable R} `{Countable Res} : Countable (Rel R Res).
Proof.
  refine (inj_countable' (fun x => match x with InRel r a b => (true, r, a, b) | OutRel r a b => (false, r, a, b) end)
    (fun x => let '(i, r, a, b) := x in if (i : bool) then InRel r a b else OutRel r a b) _). by intros [].
Defined.

Inductive Cardinality := AtMostOne | Unbounded.

Section Graph.
Context {T R Res K V : Type} `{EqDecision T} `{Countable R} `{Countable Res} `{Countable K} `{Countable V}.
Context (typeOf : Res -> T) (cardinalities : R -> T -> T -> Cardinality * Cardinality).
Context (encodeRes : Res -> K) (encodeRel : Rel R Res -> V).
Implicit Types (x y : Res) (r : R) (rel : Rel R Res).

(** * The change log *)

Record ChangeLog := MkChangeLog {
  clInserts : multimap K V;
  clDeletes : multimap K V;
  clKeys : gset K;
  clMeta : option (MetaInfo K);
}.

Definition updateChangeLog (u : StoreUpdate K V) (cl : ChangeLog) : ChangeLog :=
  let 'MkChangeLog ins dvs dks mi := cl in
  match u with
  | InsertMany kvs =>
      MkChangeLog (insertMany kvs ins) (deleteValues kvs dvs) (foldr (fun k s => s ∖ {[k]}) dks kvs.*1) mi
  | DeleteValues kvs =>
      let kvs' := filter (fun kv => kv.1 ∉ dks) kvs in
      MkChangeLog (deleteValues kvs ins) (insertMany kvs' dvs) dks mi
  | DeleteKeys ks => MkChangeLog (deleteKeys ks ins) (deleteKeys ks dvs) (foldr (fun k s => {[k]} ∪ s) dks ks) mi
  | SetMetaInfo mi' => MkChangeLog ins dvs dks (Some mi')
  end.

Definition fromChangeLog (cl : ChangeLog) : list (StoreUpdate K V) :=
  [InsertMany (toList (clInserts cl)); DeleteValues (toList (clDeletes cl)); DeleteKeys (elements (clKeys cl))] ++
  option_list (SetMetaInfo <$> clMeta cl).

Definition emptyChangeLog : ChangeLog := MkChangeLog ∅ ∅ ∅ None.

(** * The graph *)

Record GraphGCInfo := MkGCInfo { grSinceGC : Z; grGCThreshold : Z; grRootNodes : list Res }.

Record Graph := MkGraph {
  grChangeLog : ChangeLog;
  grGraph : gmap Res (gset (Rel R Res));
  grGraphGCInfo : GraphGCInfo;
}.
Implicit Types (g : Graph).

Definition over_changeLog (f : ChangeLog -> ChangeLog) g : Graph := MkGraph (f (grChangeLog g)) (grGraph g) (grGraphGCInfo g).
Definition over_graph (f : gmap Res (gset (Rel R Res)) -> gmap Res (gset (Rel R Res))) g : Graph :=
  MkGraph (grChangeLog g) (f (grGraph g)) (grGraphGCInfo g).

Record Edge := MkEdge { edgeSrc : Res; edgeRelation : R; edgeDst : Res }.

Definition isIn rel : bool := match rel with InRel _ _ _ => true | _ => false end.
Definition isOut rel : bool := match rel with OutRel _ _ _ => true | _ => false end.
Definition invert rel : Rel R Res := match rel with OutRel r a b => InRel r a b | InRel r a b => OutRel r a b end.
Definition explodeRel rel : Res * R * Res := match rel with OutRel r a b | InRel r a b => (a, r, b) end.

(** [decodeRel] at the types of an edge. *)
Definition decodeRel (ta : T) r (tb : T) rel : option Edge :=
  let '(a, r', b) := explodeRel rel in
  if decide (typeOf a = ta /\ r' = r /\ typeOf b = tb) then Some (MkEdge a r' b) else None.

(** ** Queries *)

Definition queryRes x g : option Res := if decide (is_Some (grGraph g !! x)) then Some x else None.
Definition lookupRes x g : gset (Rel R Res) := default ∅ (queryRes x g ≫= fun x' => grGraph g !! x').
Definition queryRel rel (s : gset (Rel R Res)) : option (Rel R Res) := if decide (rel ∈ s) then Some rel else None.
Definition outs (s : gset (Rel R Res)) : gset (Rel R Res) := filter (fun rel => isOut rel = true) s.
Definition ins (s : gset (Rel R Res)) : gset (Rel R Res) := filter (fun rel => isIn rel = true) s.

Definition memberResource x g : bool := bool_decide (is_Some (queryRes x g)).
Definition memberEdge (e : Edge) g : bool :=
  bool_decide (is_Some (queryRel (OutRel (edgeRelation e) (edgeSrc e) (edgeDst e)) (outs (lookupRes (edgeSrc e) g)))).
Definition memberEdgeBack (e : Edge) g : bool :=
  bool_decide (is_Some (queryRel (InRel (edgeRelation e) (edgeSrc e) (edgeDst e)) (ins (lookupRes (edgeDst e) g)))).

Definition edgesFromSrc x r (tb : T) g : list Edge := omap (decodeRel (typeOf x) r tb) (elements (outs (lookupRes x g))).
Definition edgesToDst (ta : T) r x g : list Edge := omap (decodeRel ta r (typeOf x)) (elements (ins (lookupRes x g))).

Definition anyConnectedTo x r g : list Res :=
  omap (fun rel => let '(_, r', b) := explodeRel rel in if decide (r' = r) then Some b else None) (elements (outs (lookupRes x g))).
Definition anyConnectedFrom r x g : list Res :=
  omap (fun rel => let '(a, r', _) := explodeRel rel in if decide (r' = r) then Some a else None) (elements (ins (lookupRes x g))).

(** At the type of the result; a relation to at most one gives at most one. *)
Definition limit (c : Cardinality) (l : list Res) : list Res := match c with AtMostOne => take 1 l | Unbounded => l end.
Definition connectedTo x r (tb : T) g : list Res :=
  limit (cardinalities r (typeOf x) tb).2 (filter (fun y => typeOf y = tb) (anyConnectedTo x r g)).
Definition connectedFrom (ta : T) r y g : list Res :=
  limit (cardinalities r ta (typeOf y)).1 (filter (fun x => typeOf x = ta) (anyConnectedFrom r y g)).

(** ** Information for the collector *)

Definition metaOf (gi : GraphGCInfo) : MetaInfo K :=
  MkMetaInfo (grSinceGC gi) (grGCThreshold gi) (encodeRes <$> grRootNodes gi).
Definition modifyGCInfo (f : GraphGCInfo -> GraphGCInfo) g : Graph :=
  let gi := f (grGraphGCInfo g) in
  MkGraph (updateChangeLog (SetMetaInfo (metaOf gi)) (grChangeLog g)) (grGraph g) gi.
Definition modifySinceGC (f : Z -> Z) : Graph -> Graph :=
  modifyGCInfo (fun gi => MkGCInfo (f (grSinceGC gi)) (grGCThreshold gi) (grRootNodes gi)).
Definition setSinceGC (i : Z) : Graph -> Graph := modifySinceGC (fun _ => i).
Definition modifyRootNodes (f : list Res -> list Res) : Graph -> Graph :=
  modifyGCInfo (fun gi => MkGCInfo (grSinceGC gi) (grGCThreshold gi) (f (grRootNodes gi))).
Definition addRootNode x : Graph -> Graph := modifyRootNodes (cons x).
(** [Data.List.delete] takes out the first. *)
Fixpoint delete_first x (l : list Res) : list Res :=
  match l with [] => [] | y :: l => if decide (x = y) then l else y :: delete_first x l end.
Definition removeRootNode x : Graph -> Graph := modifyRootNodes (delete_first x).
Definition modifyGCThreshold (f : Z -> Z) : Graph -> Graph :=
  modifyGCInfo (fun gi => MkGCInfo (grSinceGC gi) (f (grGCThreshold gi)) (grRootNodes gi)).
Definition setGCThreshold (i : Z) : Graph -> Graph := modifyGCThreshold (fun _ => i).
Definition isRootNode x g : bool := bool_decide (x ∈ grRootNodes (grGraphGCInfo g)).
Definition incrementGC : Graph -> Graph := modifySinceGC (fun n => n + 1).

(** ** Changes *)

Definition deleteEdge (e : Edge) g : Graph :=
  let mrel :=
    src ← queryRes (edgeSrc e) g;
    rel ← queryRel (OutRel (edgeRelation e) (edgeSrc e) (edgeDst e)) (outs (lookupRes (edgeSrc e) g));
    dst ← queryRes (edgeDst e) g;
    Some (src, rel, dst) in
  incrementGC match mrel with
    | None => g
    | Some (src, rel, dst) =>
        over_changeLog (updateChangeLog (DeleteValues
          [(encodeRes src, [encodeRel rel]); (encodeRes dst, [encodeRel (invert rel)])]))
          (over_graph (fun m => alter (fun s => s ∖ {[rel]}) src (alter (fun s => s ∖ {[invert rel]}) dst m)) g)
    end.

Definition disconnect x r y : Graph -> Graph := deleteEdge (MkEdge x r y).
(** [foldl' (.) id fs]: the last is applied first. *)
Definition deleteEdges (es : list Edge) g : Graph := foldr deleteEdge g es.
Definition disconnectAllFrom x r (tb : T) g : Graph := deleteEdges (edgesFromSrc x r tb g) g.
Definition disconnectAllTo (ta : T) r y g : Graph := deleteEdges (edgesToDst ta r y g) g.

(** The other end of a relation of a resource. *)
Definition other_end rel : Res := match rel with InRel _ a _ => a | OutRel _ _ b => b end.
Definition unhookG rel (m : gmap Res (gset (Rel R Res))) : gmap Res (gset (Rel R Res)) :=
  alter (fun s => s ∖ {[invert rel]}) (other_end rel) m.
Definition unhookCL rel : K * list V := (encodeRes (other_end rel), [encodeRel (invert rel)]).

Definition removeResource x g : Graph :=
  match queryRes x g with
  | None => g
  | Some res =>
      let rels := elements (lookupRes x g) in
      over_graph (fun m => delete res (foldr unhookG m rels))
        (over_changeLog (fun cl => updateChangeLog (DeleteKeys [encodeRes res])
           (updateChangeLog (DeleteValues (unhookCL <$> rels)) cl)) g)
  end.

(** [M.insertWith S.union x (S.singleton rel)] *)
Definition insertRel x rel (m : gmap Res (gset (Rel R Res))) : gmap Res (gset (Rel R Res)) :=
  partial_alter (fun o => Some ({[rel]} ∪ default ∅ o)) x m.

Definition connectUnbounded x r y g : Graph :=
  over_changeLog (updateChangeLog (InsertMany
    [(encodeRes x, [encodeRel (OutRel r x y)]); (encodeRes y, [encodeRel (InRel r x y)])]))
    (over_graph (fun m => insertRel x (OutRel r x y) (insertRel y (InRel r x y) m)) g).
Definition connectUnique x r y g : Graph :=
  connectUnbounded x r y (disconnectAllFrom x r (typeOf y) (disconnectAllTo (typeOf x) r y g)).
Definition connectUniqueFrom x r y g : Graph := connectUnbounded x r y (disconnectAllFrom x r (typeOf y) g).
Definition connectUniqueTo x r y g : Graph := connectUnbounded x r y (disconnectAllTo (typeOf x) r y g).

Definition connect x r y : Graph -> Graph :=
  match cardinalities r (typeOf x) (typeOf y) with
  | (AtMostOne, AtMostOne) => connectUnique x r y
  | (AtMostOne, Unbounded) => connectUniqueTo x r y
  | (Unbounded, AtMostOne) => connectUniqueFrom x r y
  | (Unbounded, Unbounded) => connectUnbounded x r y
  end.
Definition insertEdge (e : Edge) : Graph -> Graph := connect (edgeSrc e) (edgeRelation e) (edgeDst e).

(** ** Merging *)

Definition asOut rel : Rel R Res := let '(a, r, b) := explodeRel rel in OutRel r a b.
Definition asIn rel : Rel R Res := let '(a, r, b) := explodeRel rel in InRel r a b.
(** Every relation, at both ends. *)
Definition mkUpdateMap (rels : gset (Rel R Res)) : gmap Res (gset (Rel R Res)) :=
  foldl (fun m rel => let '(a, _, b) := explodeRel rel in insertRel b (asIn rel) (insertRel a (asOut rel) m)) ∅ (elements rels).
(** [M.unionWith (<>)] *)
Definition union_rels (m1 m2 : gmap Res (gset (Rel R Res))) : gmap Res (gset (Rel R Res)) :=
  union_with (fun s1 s2 => Some (s1 ∪ s2)) m1 m2.

Definition updateLocalEnd x' rel : Rel R Res :=
  match rel with
  | InRel r x y => if decide (typeOf x' = typeOf y) then InRel r x x' else rel
  | OutRel r x y => if decide (typeOf x' = typeOf x) then OutRel r x' y else rel
  end.

Definition removeNodes (v : gset (Rel R Res)) (o : option (gset (Rel R Res))) : option (gset (Rel R Res)) :=
  match o with
  | None => None
  | Some w => if decide (w ∖ v = ∅) then None else Some (w ∖ v)
  end.
Definition insertNodes (v : gset (Rel R Res)) (o : option (gset (Rel R Res))) : option (gset (Rel R Res)) :=
  Some (v ∪ default ∅ o).
Definition mkAdjustments (action : gset (Rel R Res) -> option (gset (Rel R Res)) -> option (gset (Rel R Res)))
    (m z : gmap Res (gset (Rel R Res))) : gmap Res (gset (Rel R Res)) :=
  foldl (fun z' kv => partial_alter (action kv.2) kv.1 z') z (map_to_list m).
Definition encode_pairs (m : gmap Res (gset (Rel R Res))) : list (K * list V) :=
  (fun kv => (encodeRes kv.1, encodeRel <$> elements kv.2)) <$> map_to_list m.

Definition mergeResources (f : list Res -> Res) (xs : list Res) g : Graph :=
  match xs with
  | [] => g
  | _ =>
      let newX := f xs in
      let oldRels := foldl (∪) ∅ (omap (fun x => grGraph g !! x) xs) in
      let newRels := filter (fun rel => other_end rel ∉ newX :: xs) (set_map (updateLocalEnd newX) oldRels) in
      let deleteValuesMap := union_rels (list_to_map ((fun x => (x, ∅)) <$> xs)) (mkUpdateMap oldRels) in
      let insertValuesMap := union_rels {[newX := ∅]} (mkUpdateMap newRels) in
      MkGraph
        (updateChangeLog (InsertMany (encode_pairs insertValuesMap))
          (updateChangeLog (DeleteKeys (encodeRes <$> xs))
            (updateChangeLog (DeleteValues (encode_pairs deleteValuesMap)) (grChangeLog g))))
        (mkAdjustments insertNodes insertValuesMap (mkAdjustments removeNodes deleteValuesMap (grGraph g)))
        (grGraphGCInfo g)
  end.

(** ** Collection *)

Definition neighbours (m : gmap Res (gset (Rel R Res))) x : gset Res := set_map other_end (default ∅ (m !! x)).

(** [go]; the white nodes that are left. Every turn but the last takes a node
    from [white]. *)
Fixpoint collect (fuel : nat) (m : gmap Res (gset (Rel R Res))) (white grey : gset Res) : gset Res :=
  match fuel with
  | O => white
  | Datatypes.S fuel =>
      if decide (grey = ∅) then white
      else
        let grey' := white ∩ ⋃ (neighbours m <$> elements grey) in
        collect fuel m (white ∖ grey') grey'
  end.

Definition garbageCollect (initGrey : gset Res) g : Graph :=
  let initWhite := dom (grGraph g) ∖ initGrey in
  let white := elements (collect (Datatypes.S (Datatypes.S (size initWhite))) (grGraph g) initWhite initGrey) in
  over_changeLog (updateChangeLog (DeleteKeys (encodeRes <$> white)))
    (over_graph (fun m => foldl (fun m' x => delete x m') m white) g).
Definition garbageCollectRoot g : Graph :=
  setSinceGC 0 (garbageCollect (list_to_set (grRootNodes (grGraphGCInfo g))) g).

(** ** Synchronisation *)

Definition takeChangeLog g : ChangeLog * Graph := (grChangeLog g, over_changeLog (fun _ => emptyChangeLog) g).
Definition shouldGC g : bool :=
  let gi := grGraphGCInfo g in (0 <? grGCThreshold gi) && (grGCThreshold gi <=? grSinceGC gi).
Definition runGCIfThresholdMet g : Graph := if shouldGC g then garbageCollectRoot g else g.

(** The graph that is left, and what is sent to the multimap. *)
Definition sync g : Graph * list (StoreUpdate K V) :=
  let '(cl, g') := takeChangeLog (runGCIfThresholdMet g) in (g', fromChangeLog cl).

Context (decodeRes : K -> Res) (decodeUniversalRel : V -> Rel R Res).

(** [M.fromList] keeps the last of several values. *)
Definition buildGraph (mi : MetaInfo K) (kvs : list (K * list V)) : Graph :=
  MkGraph emptyChangeLog
    (list_to_map (reverse ((fun kv => (decodeRes kv.1, list_to_set (decodeUniversalRel <$> kv.2))) <$> kvs)))
    (MkGCInfo (miSinceGC mi) (miGCThreshold mi) (decodeRes <$> miRootNodes mi)).
Definition getGraph (st : MetaInfo K * multimap K V) : Graph := buildGraph st.1 (toList st.2).
Definition emptyGraph : Graph :=
  MkGraph emptyChangeLog ∅ (MkGCInfo (miSinceGC (K:=K) defaultMetaInfo) (miGCThreshold (K:=K) defaultMetaInfo) []).
End Graph.
Arguments ChangeLog K V {_ _ _ _}.
Arguments Graph R Res K V {_ _ _ _ _ _ _ _}.
Arguments GraphGCInfo : clear implicits.
Arguments Edge : clear implicits.
End Graph.
