(* ===== verification/GraphOps.v ===== *)
(** What the operations of the resource graph do to its nodes and edges: the two
    ends of an edge always agree, relations to at most one are kept so, and each
    operation does to the set of nodes and the set of edges what it should. *)

From stdpp Require Import gmap.
From S2P Require Import Prelude Multimap Graph.
Local Open Scope Z_scope.
Set Default Proof Using "Type".

Module GraphOps.
Import Multimap Graph.

Abbreviation grmap R Res := (gmap Res (gset (Rel R Res))).

Section Ends.
Context {R Res : Type} `{Countable R} `{Countable Res}.
Abbreviation grmap := (grmap R Res).
Implicit Types (x y : Res) (r : R) (rel : Rel R Res) (m : grmap).

(** * Both ends of an edge *)

Definition rels m x : gset (Rel R Res) := default ∅ (m !! x).
Definition home rel : Res := match rel with OutRel _ a _ => a | InRel _ _ b => b end.

(** Every relation is at its own end, and inverted at the other. *)
Definition wf m : Prop := forall x rel, rel ∈ rels m x -> x = home rel /\ invert rel ∈ rels m (other_end rel).
Definition edge m r x y : Prop := OutRel r x y ∈ rels m x.
Definition node m x : Prop := is_Some (m !! x).

Lemma invert_invert rel : invert (invert rel) = rel.
Proof. by destruct rel. Qed.
Lemma home_invert rel : home (invert rel) = other_end rel.
Proof. by destruct rel. Qed.
Lemma other_end_invert rel : other_end (invert rel) = home rel.
Proof. by destruct rel. Qed.

Lemma wf_edge_in m r x y : wf m -> edge m r x y <-> InRel r x y ∈ rels m y.
Proof. intros Hwf. split; intros Hin; by destruct (Hwf _ _ Hin). Qed.
Lemma wf_rels m x rel : wf m -> rel ∈ rels m x <-> x = home rel /\ let '(a, r, b) := explodeRel rel in edge m r a b.
Proof.
  intros Hwf. destruct rel as [r a b|r a b]; simpl.
  - rewrite (wf_edge_in m r a b Hwf). split; [intros Hin; by destruct (Hwf _ _ Hin) as [-> _]|by intros [-> ?]].
  - split; [intros Hin; by destruct (Hwf _ _ Hin) as [-> _]|by intros [-> ?]].
Qed.
Lemma rels_node m x rel : rel ∈ rels m x -> node m x.
Proof. unfold rels, node. destruct (m !! x); simpl; [done|set_solver]. Qed.
Lemma wf_ends m r x y : wf m -> edge m r x y -> node m x /\ node m y.
Proof. intros Hwf He. split; [by eapply rels_node|]. apply wf_edge_in in He; [|done]. by eapply rels_node. Qed.

(** ** Elementary changes *)

Definition remove_rel rel m : grmap := alter (fun s => s ∖ {[rel]}) (home rel) (alter (fun s => s ∖ {[invert rel]}) (other_end rel) m).
Definition add_rel rel m : grmap := insertRel (home rel) rel (insertRel (other_end rel) (invert rel) m).

Lemma rels_alter m y rel x : rels (alter (fun s => s ∖ {[rel]}) y m) x = if decide (x = y) then rels m x ∖ {[rel]} else rels m x.
Proof.
  unfold rels. destruct (decide (x = y)) as [->|]; [|by rewrite lookup_alter_ne].
  rewrite lookup_alter_eq. destruct (m !! y); simpl; set_solver.
Qed.
Lemma rels_insertRel m y rel x : rels (insertRel y rel m) x = if decide (x = y) then {[rel]} ∪ rels m x else rels m x.
Proof.
  unfold rels, insertRel. destruct (decide (x = y)) as [->|]; [|by rewrite lookup_partial_alter_ne].
  by rewrite lookup_partial_alter_eq.
Qed.
Lemma node_alter m y f x : node (alter f y m) x <-> node m x.
Proof.
  unfold node. destruct (decide (x = y)) as [->|]; [rewrite lookup_alter_eq; apply fmap_is_Some|by rewrite lookup_alter_ne].
Qed.
Lemma node_insertRel m y rel x : node (insertRel y rel m) x <-> x = y \/ node m x.
Proof.
  unfold node, insertRel. destruct (decide (x = y)) as [->|].
  - rewrite lookup_partial_alter_eq. split; [by left|done].
  - rewrite lookup_partial_alter_ne by done. tauto.
Qed.

Lemma elem_of_remove_rel rel m x rel' :
  rel' ∈ rels (remove_rel rel m) x <->
  rel' ∈ rels m x /\ ~ (x = home rel /\ rel' = rel) /\ ~ (x = other_end rel /\ rel' = invert rel).
Proof.
  unfold remove_rel. rewrite !rels_alter. destruct (decide (x = home rel)), (decide (x = other_end rel)); set_unfold; tauto.
Qed.
Lemma elem_of_add_rel rel m x rel' :
  rel' ∈ rels (add_rel rel m) x <->
  rel' ∈ rels m x \/ (x = home rel /\ rel' = rel) \/ (x = other_end rel /\ rel' = invert rel).
Proof.
  unfold add_rel. rewrite !rels_insertRel. destruct (decide (x = home rel)), (decide (x = other_end rel)); set_unfold; tauto.
Qed.

Lemma remove_rel_wf rel m : wf m -> wf (remove_rel rel m).
Proof.
  intros Hwf x rel'. rewrite elem_of_remove_rel. intros (Hin & Ho & Hi). destruct (Hwf _ _ Hin) as [-> Hinv]. split; [done|].
  rewrite elem_of_remove_rel. split; [done|]. split.
  - intros [He Hr]. apply Hi. split; [by rewrite <- Hr, other_end_invert|]. by rewrite <- Hr, invert_invert.
  - intros [He Hr]. apply Ho. apply (f_equal invert) in Hr. rewrite !invert_invert in Hr. by subst.
Qed.
Lemma add_rel_wf rel m : wf m -> wf (add_rel rel m).
Proof.
  intros Hwf x rel'. rewrite elem_of_add_rel. intros [Hin|[[-> ->]|[-> ->]]].
  - destruct (Hwf _ _ Hin) as [-> Hinv]. split; [done|]. rewrite elem_of_add_rel. by left.
  - split; [done|]. rewrite elem_of_add_rel. right. by right.
  - rewrite home_invert. split; [done|]. rewrite elem_of_add_rel. right. left. by rewrite other_end_invert, invert_invert.
Qed.

Lemma edge_remove_rel r0 x0 y0 m r x y :
  edge (remove_rel (OutRel r0 x0 y0) m) r x y <-> edge m r x y /\ (r, x, y) <> (r0, x0, y0).
Proof.
  unfold edge. rewrite elem_of_remove_rel. simpl. split.
  - intros (Hin & Ho & _). split; [done|]. intros [= -> -> ->]. by apply Ho.
  - intros [Hin Hne]. split; [done|]. split; [|by intros [_ ?]]. intros [_ [= -> -> ->]]. by apply Hne.
Qed.
Lemma edge_add_rel r0 x0 y0 m r x y :
  edge (add_rel (OutRel r0 x0 y0) m) r x y <-> edge m r x y \/ (r, x, y) = (r0, x0, y0).
Proof.
  unfold edge. rewrite elem_of_add_rel. simpl. split.
  - intros [?|[[_ [= -> -> ->]]|[_ ?]]]; [by left|by right|done].
  - intros [?|[= -> -> ->]]; [by left|right; by left].
Qed.
Lemma node_remove_rel rel m x : node (remove_rel rel m) x <-> node m x.
Proof. unfold remove_rel. by rewrite !node_alter. Qed.
Lemma node_add_rel rel m x : node (add_rel rel m) x <-> x = home rel \/ x = other_end rel \/ node m x.
Proof. unfold add_rel. by rewrite !node_insertRel. Qed.
End Ends.

(** * Operations *)

Section Ops.
Context {T R Res K V : Type} `{EqDecision T} `{Countable R} `{Countable Res} `{Countable K} `{Countable V}.
Context (typeOf : Res -> T) (cardinalities : R -> T -> T -> Cardinality * Cardinality).
Context (encodeRes : Res -> K) (encodeRel : Rel R Res -> V).
Abbreviation Graph := (Graph R Res K V).
Abbreviation grmap := (grmap R Res).
Implicit Types (x y : Res) (r : R) (rel : Rel R Res) (m : grmap) (g : Graph).

(** [m'] is a proper graph with the nodes [N] and the edges [E]. *)
Record has (m' : grmap) (N : Res -> Prop) (E : R -> Res -> Res -> Prop) : Prop := {
  has_wf : wf m';
  has_node z : node m' z <-> N z;
  has_edge r a b : edge m' r a b <-> E r a b;
}.

Lemma lookupRes_rels x g : lookupRes x g = rels (grGraph g) x.
Proof.
  unfold lookupRes, queryRes, rels. destruct (decide _) as [Hs|Hn]; simpl; [done|]. by apply eq_None_not_Some in Hn as ->.
Qed.

Lemma elem_of_outs rel (s : gset (Rel R Res)) : rel ∈ outs s <-> isOut rel = true /\ rel ∈ s.
Proof. unfold outs. by rewrite elem_of_filter. Qed.
Lemma elem_of_ins rel (s : gset (Rel R Res)) : rel ∈ ins s <-> isIn rel = true /\ rel ∈ s.
Proof. unfold ins. by rewrite elem_of_filter. Qed.

Lemma memberEdge_edge e g : memberEdge e g = true <-> edge (grGraph g) (edgeRelation e) (edgeSrc e) (edgeDst e).
Proof.
  unfold memberEdge, edge. rewrite bool_decide_eq_true, lookupRes_rels. unfold queryRel.
  destruct (decide _) as [Hin|Hin]; rewrite elem_of_outs in Hin.
  - split; [intros _; by destruct Hin|]. intros _. by eexists.
  - split; [by intros []|]. intros Hin'. by destruct Hin.
Qed.
Lemma memberEdgeBack_edge e g :
  memberEdgeBack e g = true <-> InRel (edgeRelation e) (edgeSrc e) (edgeDst e) ∈ rels (grGraph g) (edgeDst e).
Proof.
  unfold memberEdgeBack. rewrite bool_decide_eq_true, lookupRes_rels. unfold queryRel.
  destruct (decide _) as [Hin|Hin]; rewrite elem_of_ins in Hin.
  - split; [intros _; by destruct Hin|]. intros _. by eexists.
  - split; [by intros []|]. intros Hin'. by destruct Hin.
Qed.

Lemma memberResource_node z g : memberResource z g = true <-> node (grGraph g) z.
Proof.
  unfold memberResource, queryRes. rewrite bool_decide_eq_true. destruct (decide _) as [Hd|Hd].
  - split; [done|]. by eexists.
  - split; [by intros []|done].
Qed.

(** ** Deleting edges *)

Lemma modifyGCInfo_graph f g : grGraph (modifyGCInfo encodeRes f g) = grGraph g.
Proof. done. Qed.

Lemma deleteEdge_graph e g :
  wf (grGraph g) ->
  grGraph (deleteEdge encodeRes encodeRel e g) =
  if memberEdge e g then remove_rel (OutRel (edgeRelation e) (edgeSrc e) (edgeDst e)) (grGraph g) else grGraph g.
Proof.
  intros Hwf. unfold deleteEdge, incrementGC, modifySinceGC. rewrite modifyGCInfo_graph.
  destruct (memberEdge e g) eqn:Hm.
  - apply memberEdge_edge in Hm. destruct (wf_ends _ _ _ _ Hwf Hm) as [Hx Hy].
    unfold queryRes. rewrite !decide_True by done. simpl. unfold queryRel. rewrite decide_True; [done|].
    rewrite elem_of_outs, lookupRes_rels. done.
  - destruct (queryRes (edgeSrc e) g); simpl; [|done]. unfold queryRel. rewrite decide_False; [done|].
    rewrite elem_of_outs, lookupRes_rels. intros [_ Hin]. apply (memberEdge_edge e g) in Hin. congruence.
Qed.

Lemma deleteEdge_has e g :
  wf (grGraph g) ->
  has (grGraph (deleteEdge encodeRes encodeRel e g)) (node (grGraph g))
    (fun r a b => edge (grGraph g) r a b /\ (r, a, b) <> (edgeRelation e, edgeSrc e, edgeDst e)).
Proof.
  intros Hwf. rewrite deleteEdge_graph by done. destruct (memberEdge e g) eqn:Hm.
  - constructor; [by apply remove_rel_wf|intros; apply node_remove_rel|intros; apply edge_remove_rel].
  - constructor; [done..|]. intros r a b. split; [|by intros [? _]]. intros He. split; [done|]. intros [= -> -> ->].
    apply (memberEdge_edge e g) in He. congruence.
Qed.

Definition triple (e : Edge R Res) : R * Res * Res := (edgeRelation e, edgeSrc e, edgeDst e).

Lemma deleteEdges_has es g :
  wf (grGraph g) ->
  has (grGraph (deleteEdges encodeRes encodeRel es g)) (node (grGraph g))
    (fun r a b => edge (grGraph g) r a b /\ (r, a, b) ∉ triple <$> es).
Proof.
  intros Hwf. induction es as [|e es [IHw IHn IHe]].
  - constructor; [done..|]. intros r a b. split; [|by intros [? _]]. intros He. split; [done|]. apply not_elem_of_nil.
  - change (deleteEdges _ _ (e :: es) g) with (deleteEdge encodeRes encodeRel e (deleteEdges encodeRes encodeRel es g)).
    destruct (deleteEdge_has e _ IHw) as [Hw Hn He]. constructor; [done|intros z; by rewrite Hn|].
    intros r a b. rewrite He, IHe, fmap_cons, not_elem_of_cons. unfold triple at 2.
    split; [intros [[Ha Hb] Hc]; by repeat split|intros (Ha & Hb & Hc); by repeat split].
Qed.

Lemma edgesFromSrc_spec x r tb g e :
  wf (grGraph g) ->
  e ∈ edgesFromSrc typeOf x r tb g <->
  edgeSrc e = x /\ edgeRelation e = r /\ typeOf (edgeDst e) = tb /\ edge (grGraph g) r x (edgeDst e).
Proof.
  intros Hwf. unfold edgesFromSrc. rewrite list_elem_of_omap. setoid_rewrite elem_of_elements. setoid_rewrite elem_of_outs.
  rewrite lookupRes_rels. unfold decodeRel, edge. split.
  - intros ([r' a b|r' a b] & [Ho Hin] & Hd); simpl in *; [done|]. destruct (Hwf _ _ Hin) as [Hx _]. simpl in Hx.
    destruct (decide _) as [(? & ? & ?)|]; [|done]. injection Hd as <-. simpl. by subst.
  - destruct e as [a r' b]. simpl. intros (-> & -> & Hb & He). exists (OutRel r x b). split; [done|]. simpl.
    by rewrite decide_True.
Qed.
Lemma edgesToDst_spec ta r y g e :
  wf (grGraph g) ->
  e ∈ edgesToDst typeOf ta r y g <->
  edgeDst e = y /\ edgeRelation e = r /\ typeOf (edgeSrc e) = ta /\ edge (grGraph g) r (edgeSrc e) y.
Proof.
  intros Hwf. unfold edgesToDst. rewrite list_elem_of_omap. setoid_rewrite elem_of_elements. setoid_rewrite elem_of_ins.
  rewrite lookupRes_rels, (wf_edge_in _ _ _ _ Hwf). unfold decodeRel. split.
  - intros ([r' a b|r' a b] & [Ho Hin] & Hd); simpl in *; [|done]. destruct (Hwf _ _ Hin) as [Hx _]. simpl in Hx.
    destruct (decide _) as [(? & ? & ?)|]; [|done]. injection Hd as <-. simpl. by subst.
  - destruct e as [a r' b]. simpl. intros (-> & -> & Hb & He). exists (InRel r a y). split; [done|]. simpl.
    by rewrite decide_True.
Qed.

Lemma disconnectAllFrom_has x r tb g :
  wf (grGraph g) ->
  has (grGraph (disconnectAllFrom typeOf encodeRes encodeRel x r tb g)) (node (grGraph g))
    (fun r' a b => edge (grGraph g) r' a b /\ ~ (r' = r /\ a = x /\ typeOf b = tb)).
Proof.
  intros Hwf. destruct (deleteEdges_has (edgesFromSrc typeOf x r tb g) g Hwf) as [Hw Hn He].
  constructor; [done..|]. intros r' a b. unfold disconnectAllFrom. rewrite He. split; intros [Hin Hx]; (split; [done|]).
  - intros (-> & -> & Hb). apply Hx. apply (list_elem_of_fmap_2 triple _ (MkEdge x r b)). by apply edgesFromSrc_spec.
  - intros (e & [= -> -> ->] & Hel)%list_elem_of_fmap. apply edgesFromSrc_spec in Hel as (? & ? & ? & _); [|done]. by apply Hx.
Qed.
Lemma disconnectAllTo_has ta r y g :
  wf (grGraph g) ->
  has (grGraph (disconnectAllTo typeOf encodeRes encodeRel ta r y g)) (node (grGraph g))
    (fun r' a b => edge (grGraph g) r' a b /\ ~ (r' = r /\ b = y /\ typeOf a = ta)).
Proof.
  intros Hwf. destruct (deleteEdges_has (edgesToDst typeOf ta r y g) g Hwf) as [Hw Hn He].
  constructor; [done..|]. intros r' a b. unfold disconnectAllTo. rewrite He. split; intros [Hin Hx]; (split; [done|]).
  - intros (-> & -> & Hb). apply Hx. apply (list_elem_of_fmap_2 triple _ (MkEdge a r y)). by apply edgesToDst_spec.
  - intros (e & [= -> -> ->] & Hel)%list_elem_of_fmap. apply edgesToDst_spec in Hel as (? & ? & ? & _); [|done]. by apply Hx.
Qed.

(** ** Connecting *)

Lemma connectUnbounded_has x r y g :
  wf (grGraph g) ->
  has (grGraph (connectUnbounded encodeRes encodeRel x r y g)) (fun z => z = x \/ z = y \/ node (grGraph g) z)
    (fun r' a b => edge (grGraph g) r' a b \/ (r', a, b) = (r, x, y)).
Proof.
  intros Hwf. change (grGraph (connectUnbounded _ _ x r y g)) with (add_rel (OutRel r x y) (grGraph g)).
  constructor; [by apply add_rel_wf|intros; apply node_add_rel|intros; apply edge_add_rel].
Qed.

(** ** Removing a resource *)

Lemma elem_of_unhook l m y rel' :
  rel' ∈ rels (foldr unhookG m l) y <-> rel' ∈ rels m y /\ forall rel, rel ∈ l -> other_end rel = y -> rel' <> invert rel.
Proof.
  induction l as [|rel l IH]; cbn [foldr].
  - split; [|by intros [? _]]. intros Hin. split; [done|]. by intros rel ?%elem_of_nil.
  - unfold unhookG at 1. rewrite rels_alter. destruct (decide (y = other_end rel)) as [->|Hne].
    + rewrite elem_of_difference, IH, elem_of_singleton. split.
      * intros [[Hin Hall] Hr]. split; [done|]. intros rel0 [->|Hl]%elem_of_cons Ho; [done|by apply Hall].
      * intros [Hin Hall]. split; [split; [done|]|apply Hall; [by left|done]]. intros rel0 Hl. apply Hall. by right.
    + rewrite IH. split; intros [Hin Hall]; (split; [done|]).
      * intros rel0 [->|Hl]%elem_of_cons Ho; [by rewrite Ho in Hne|by apply Hall].
      * intros rel0 Hl. apply Hall. by right.
Qed.
Lemma node_unhook l m y : node (foldr unhookG m l) y <-> node m y.
Proof. induction l as [|rel l IH]; [done|]. cbn [foldr]. unfold unhookG at 1. by rewrite node_alter. Qed.

Lemma removed_rels x m y rel :
  wf m ->
  rel ∈ rels (delete x (foldr unhookG m (elements (rels m x)))) y <-> y <> x /\ rel ∈ rels m y /\ other_end rel <> x.
Proof.
  intros Hwf. destruct (decide (y = x)) as [->|Hne].
  - unfold rels at 1. rewrite lookup_delete_eq. simpl. rewrite elem_of_empty. split; [done|]. by intros [? _].
  - unfold rels at 1. rewrite lookup_delete_ne by done. change (default ∅ (?m' !! y)) with (rels m' y). rewrite elem_of_unhook.
    split.
    + intros [Hin Hall]. split; [done|]. split; [done|]. intros Ho. destruct (Hwf _ _ Hin) as [Hy Hinv]. rewrite Ho in Hinv.
      apply (Hall (invert rel)); [by apply elem_of_elements|by rewrite other_end_invert|by rewrite invert_invert].
    + intros (_ & Hin & Ho). split; [done|]. intros rel0 Hl%elem_of_elements Hy ->. destruct (Hwf _ _ Hl) as [Hx _].
      apply Ho. by rewrite other_end_invert.
Qed.

Lemma removeResource_has x g :
  wf (grGraph g) ->
  has (grGraph (removeResource encodeRes encodeRel x g)) (fun z => node (grGraph g) z /\ z <> x)
    (fun r a b => edge (grGraph g) r a b /\ a <> x /\ b <> x).
Proof.
  intros Hwf. unfold removeResource, queryRes. destruct (decide _) as [Hx|Hx].
  - rewrite lookupRes_rels. cbn [over_graph over_changeLog grGraph]. constructor.
    + intros y rel. rewrite (removed_rels x _ y rel Hwf). intros (Hy & Hin & Ho). destruct (Hwf _ _ Hin) as [-> Hinv].
      split; [done|]. apply removed_rels; [done|]. by rewrite other_end_invert.
    + intros z. unfold node. destruct (decide (z = x)) as [->|Hne].
      * rewrite lookup_delete_eq. split; [by intros []|by intros [_ ?]].
      * rewrite lookup_delete_ne by done. change (is_Some (?m0 !! z)) with (node m0 z). rewrite node_unhook. by split; [|intros [? _]].
    + intros r a b. unfold edge. rewrite (removed_rels x _ a _ Hwf). simpl.
      split; [by intros (? & ? & ?)|by intros (? & ? & ?)].
  - constructor; [done|..].
    + intros z. split; [|by intros [? _]]. intros Hz. split; [done|]. intros ->. by apply Hx.
    + intros r a b. split; [|by intros [? _]]. intros He. destruct (wf_ends _ _ _ _ Hwf He) as [Ha Hb].
      split; [done|]. by split; intros ->.
Qed.

(** ** Collecting *)

(** What an edge links, in either direction. *)
Definition linked (E : R -> Res -> Res -> Prop) (a b : Res) : Prop := exists r, E r a b \/ E r b a.
Definition reached (E : R -> Res -> Res -> Prop) (roots : gset Res) (z : Res) : Prop := exists s, s ∈ roots /\ rtc (linked E) s z.

Lemma neighbours_linked m x y : wf m -> y ∈ neighbours m x <-> linked (edge m) x y.
Proof.
  intros Hwf. unfold neighbours. change (default ∅ (m !! x)) with (rels m x). rewrite elem_of_map. split.
  - intros ([r a b|r a b] & -> & Hin); simpl; exists r; destruct (Hwf _ _ Hin) as [-> Hinv]; [right; exact Hinv|left; exact Hin].
  - intros [r [He|He]]; [by exists (OutRel r x y)|]. exists (InRel r y x). split; [done|]. exact (proj1 (wf_edge_in m r y x Hwf) He).
Qed.

Lemma gc_collect_spec fuel m (white grey : gset Res) :
  (grey = ∅ /\ 1 <= fuel \/ size white + 2 <= fuel)%nat ->
  (forall x y, x ∉ white -> x ∉ grey -> y ∈ neighbours m x -> y ∉ white) ->
  let W := collect fuel m white grey in
  (forall z, z ∈ W -> z ∈ white) /\
  (forall x y, x ∉ W -> y ∈ neighbours m x -> y ∉ W) /\
  (forall z, z ∈ white -> z ∉ W -> exists s, s ∈ grey /\ rtc (fun a b => b ∈ neighbours m a) s z).
Proof.
  revert white grey. induction fuel as [|fuel IH]; intros white grey Hf Hblack; [lia|]. cbn [collect].
  destruct (decide (grey = ∅)) as [->|Hg].
  - split; [done|]. split; [|by intros z ? ?]. intros x y Hx. apply Hblack; [done|]. apply not_elem_of_empty.
  - assert (Hgr : forall z, z ∈ white ∩ ⋃ (neighbours m <$> elements grey) <->
      z ∈ white /\ exists s, s ∈ grey /\ z ∈ neighbours m s).
    { intros z. rewrite elem_of_intersection, elem_of_union_list. split.
      - intros [Hz (X & (s & -> & Hs%elem_of_elements)%list_elem_of_fmap & Hin)]. split; [done|]. by exists s.
      - intros [Hz (s & Hs & Hin)]. split; [done|]. exists (neighbours m s). split; [|done].
        by apply list_elem_of_fmap_2, elem_of_elements. }
    set (grey' := white ∩ _) in *.
    destruct (IH (white ∖ grey') grey') as (W1 & W2 & W3).
    + destruct Hf as [[? _]|Hf]; [done|]. destruct (decide (grey' = ∅)) as [->|Hne]; [left; split; [done|lia]|]. right.
      assert (Hlt : (size (white ∖ grey') < size white)%nat).
      { apply subset_size. apply set_choose_L in Hne as [z Hz]. split; [intros w; rewrite elem_of_difference; by intros [? _]|].
        intros Hsub. apply Hgr in Hz as Hz'. destruct Hz' as [Hw _]. apply Hsub in Hw. by apply elem_of_difference in Hw as [_ ?]. }
      lia.
    + intros x y Hx Hx' Hy Hin. apply elem_of_difference in Hin as [Hyw Hyg].
      assert (Hxw : x ∉ white) by (intros Hw; by apply Hx, elem_of_difference).
      destruct (decide (x ∈ grey)) as [Hxg|Hxg]; [|by eapply Hblack]. apply Hyg, Hgr. split; [done|]. by exists x.
    + split; [intros z Hz; apply W1 in Hz; by apply elem_of_difference in Hz as [? _]|]. split; [done|].
      intros z Hz HW. destruct (decide (z ∈ grey')) as [Hz'|Hz'].
      * apply Hgr in Hz' as [_ (s & Hs & Hin)]. exists s. split; [done|]. by apply rtc_once.
      * destruct (W3 z) as (s' & Hs' & Hr); [by apply elem_of_difference|done|]. apply Hgr in Hs' as [_ (s & Hs & Hin)].
        exists s. split; [done|]. by eapply rtc_l.
Qed.
Lemma collected_white fuel m roots :
  (size (dom m ∖ roots) + 2 <= fuel)%nat -> wf m ->
  let W := collect fuel m (dom m ∖ roots) roots in
  (forall z, z ∈ W -> node m z) /\ (forall z, node m z -> z ∉ W <-> reached (edge m) roots z).
Proof.
  intros Hf Hwf. simpl. destruct (gc_collect_spec fuel m (dom m ∖ roots) roots) as (W1 & W2 & W3); [by right|..].
  - intros x y Hx Hr Hy. destruct (m !! x) as [s|] eqn:Hs.
    + destruct Hx. apply elem_of_difference. split; [|done]. apply elem_of_dom. by exists s.
    + unfold neighbours in Hy. rewrite Hs in Hy. apply elem_of_map in Hy as (rel & _ & Hin). by apply elem_of_empty in Hin.
  - split; [intros z Hz; apply W1, elem_of_difference in Hz as [Hz _]; by apply elem_of_dom in Hz|].
    intros z Hz. split.
    + intros HW. destruct (decide (z ∈ roots)) as [Hr|Hr]; [exists z; split; [done|apply rtc_refl]|].
      destruct (W3 z) as (s & Hs & Hrtc); [apply elem_of_difference; split; [by apply elem_of_dom|done]|done|].
      exists s. split; [done|]. eapply rtc_subrel; [|exact Hrtc]. intros a b Hab. by apply neighbours_linked.
    + intros (s & Hs & Hrtc). assert (Hsw : s ∉ collect fuel m (dom m ∖ roots) roots).
      { intros Hin. apply W1 in Hin. by apply elem_of_difference in Hin as [_ ?]. }
      clear Hs Hz. induction Hrtc as [|a b c Hab _ IH]; [done|]. apply IH. apply (W2 a); [done|]. by apply neighbours_linked.
Qed.

Lemma garbageCollect_has (roots : gset Res) g :
  wf (grGraph g) ->
  has (grGraph (garbageCollect encodeRes roots g)) (fun z => node (grGraph g) z /\ reached (edge (grGraph g)) roots z)
    (fun r a b => edge (grGraph g) r a b /\ reached (edge (grGraph g)) roots a).
Proof.
  intros Hwf. unfold garbageCollect. cbn [over_graph over_changeLog grGraph].
  destruct (collected_white (S (S (size (dom (grGraph g) ∖ roots)))) (grGraph g) roots ltac:(lia) Hwf) as [W1 W2].
  set (W := collect _ _ _ _) in *. change (foldl _ (grGraph g) (elements W)) with (deleteKeys (elements W) (grGraph g)).
  assert (Hl : forall z, deleteKeys (elements W) (grGraph g) !! z = if decide (z ∈ W) then None else grGraph g !! z).
  { intros z. rewrite lookup_deleteKeys. apply decide_ext, elem_of_elements. }
  assert (Hr : forall z rel, rel ∈ rels (deleteKeys (elements W) (grGraph g)) z <-> (z ∉ W) /\ rel ∈ rels (grGraph g) z).
  { intros z rel. unfold rels. rewrite Hl. destruct (decide _) as [Hz|Hz]; simpl.
    - split; [by intros ?%elem_of_empty|by intros [? _]].
    - split; [done|by intros [_ ?]]. }
  constructor.
  - intros x rel [Hx Hin]%Hr. destruct (Hwf _ _ Hin) as [-> Hinv]. split; [done|]. apply Hr. split; [|done].
    apply W2; [by eapply rels_node|]. apply W2 in Hx as (s & Hs & Hrtc); [|by eapply rels_node].
    exists s. split; [done|]. eapply rtc_r; [exact Hrtc|]. apply neighbours_linked; [done|].
    unfold neighbours. apply elem_of_map. by exists rel.
  - intros z. unfold node at 1. rewrite Hl. destruct (decide _) as [Hz|Hz].
    + split; [by intros []|]. intros [Hn Hre]. by apply W2 in Hre.
    + split; [|by intros [? _]]. intros Hn. split; [done|]. by apply W2.
  - intros r a b. unfold edge at 1. rewrite Hr. split.
    + intros [Hz He]. split; [done|]. apply W2; [by eapply rels_node|done].
    + intros [He Hre]. split; [|done]. apply W2; [by eapply rels_node|done].
Qed.

(** ** Connecting, by cardinality *)

(** The edges that [connect x r y] replaces. *)
Definition replaced r x y (r' : R) (a b : Res) : Prop :=
  r' = r /\
  ((cardinalities r (typeOf x) (typeOf y)).2 = AtMostOne /\ a = x /\ typeOf b = typeOf y \/
   (cardinalities r (typeOf x) (typeOf y)).1 = AtMostOne /\ b = y /\ typeOf a = typeOf x).

Lemma unbounded_one : Unbounded = AtMostOne <-> False.
Proof. split; [discriminate|done]. Qed.

Lemma connect_has x r y g :
  wf (grGraph g) ->
  has (grGraph (connect typeOf cardinalities encodeRes encodeRel x r y g)) (fun z => z = x \/ z = y \/ node (grGraph g) z)
    (fun r' a b => edge (grGraph g) r' a b /\ ~ replaced r x y r' a b \/ (r', a, b) = (r, x, y)).
Proof.
  intros Hwf. unfold connect, replaced. destruct (cardinalities r (typeOf x) (typeOf y)) as [[|] [|]]; cbn [fst snd].
  - unfold connectUnique. destruct (disconnectAllTo_has (typeOf x) r y g Hwf) as [Hw1 Hn1 He1].
    destruct (disconnectAllFrom_has x r (typeOf y) _ Hw1) as [Hw2 Hn2 He2].
    destruct (connectUnbounded_has x r y _ Hw2) as [Hw3 Hn3 He3].
    constructor; [exact Hw3|intros z; rewrite Hn3, Hn2, Hn1; reflexivity|].
    intros r' a b. rewrite He3, He2, He1. clear. tauto.
  - unfold connectUniqueTo. destruct (disconnectAllTo_has (typeOf x) r y g Hwf) as [Hw1 Hn1 He1].
    destruct (connectUnbounded_has x r y _ Hw1) as [Hw3 Hn3 He3].
    constructor; [exact Hw3|intros z; rewrite Hn3, Hn1; reflexivity|].
    intros r' a b. rewrite He3, He1, unbounded_one. clear. tauto.
  - unfold connectUniqueFrom. destruct (disconnectAllFrom_has x r (typeOf y) g Hwf) as [Hw1 Hn1 He1].
    destruct (connectUnbounded_has x r y _ Hw1) as [Hw3 Hn3 He3].
    constructor; [exact Hw3|intros z; rewrite Hn3, Hn1; reflexivity|].
    intros r' a b. rewrite He3, He1, unbounded_one. clear. tauto.
  - destruct (connectUnbounded_has x r y _ Hwf) as [Hw3 Hn3 He3].
    constructor; [exact Hw3|exact Hn3|]. intros r' a b. rewrite He3, unbounded_one. clear. tauto.
Qed.
End Ops.
End GraphOps.
