(* ===== verification/GraphSpec.v ===== *)
(** What the resource graph promises: a set of nodes and a set of edges, which the
    operations change as their names say. Whatever operations but mergers are run on
    an empty graph, its maps implement it, and no relation has more ends than its
    cardinality allows. *)

From stdpp Require Import gmap.
From S2P Require Import Prelude Multimap Graph GraphOps.
Local Open Scope Z_scope.
Set Default Proof Using "Type".

Module GraphSpec.
Import Multimap Graph GraphOps.

(** The operations, but for merging (GraphMerge.v); [OpSync] is the graph that [sync] goes on with. *)
Inductive op (T R Res : Type) `{Countable Res} :=
  | OpConnect (x : Res) (r : R) (y : Res)
  | OpDisconnect (x : Res) (r : R) (y : Res)
  | OpDisconnectAllFrom (x : Res) (r : R) (tb : T)
  | OpDisconnectAllTo (ta : T) (r : R) (y : Res)
  | OpRemove (x : Res)
  | OpCollect (roots : gset Res)
  | OpCollectRoot
  | OpAddRoot (x : Res)
  | OpRemoveRoot (x : Res)
  | OpSetThreshold (i : Z)
  | OpSync.
Arguments OpConnect {T R Res _ _} x r y.
Arguments OpDisconnect {T R Res _ _} x r y.
Arguments OpDisconnectAllFrom {T R Res _ _} x r tb.
Arguments OpDisconnectAllTo {T R Res _ _} ta r y.
Arguments OpRemove {T R Res _ _} x.
Arguments OpCollect {T R Res _ _} roots.
Arguments OpCollectRoot {T R Res _ _}.
Arguments OpAddRoot {T R Res _ _} x.
Arguments OpRemoveRoot {T R Res _ _} x.
Arguments OpSetThreshold {T R Res _ _} i.
Arguments OpSync {T R Res _ _}.

(** A graph as its users see it. *)
Record agraph (R Res : Type) := MkAGraph { aN : Res -> Prop; aE : R -> Res -> Res -> Prop; aRoots : list Res }.
Arguments MkAGraph {R Res} aN aE aRoots.
Arguments aN {R Res} _ _.
Arguments aE {R Res} _ _ _ _.
Arguments aRoots {R Res} _.

Section Spec.
Context {T R Res K V : Type} `{EqDecision T} `{Countable R} `{Countable Res} `{Countable K} `{Countable V}.
Context (typeOf : Res -> T) (cardinalities : R -> T -> T -> Cardinality * Cardinality).
Context (encodeRes : Res -> K) (encodeRel : Rel R Res -> V).
Abbreviation Graph := (Graph R Res K V).
Abbreviation agraph := (agraph R Res).
Abbreviation op := (op T R Res).
Implicit Types (x y : Res) (r : R) (g : Graph) (A : agraph) (o : op).

Definition exec o g : Graph :=
  match o with
  | OpConnect x r y => connect typeOf cardinalities encodeRes encodeRel x r y g
  | OpDisconnect x r y => disconnect encodeRes encodeRel x r y g
  | OpDisconnectAllFrom x r tb => disconnectAllFrom typeOf encodeRes encodeRel x r tb g
  | OpDisconnectAllTo ta r y => disconnectAllTo typeOf encodeRes encodeRel ta r y g
  | OpRemove x => removeResource encodeRes encodeRel x g
  | OpCollect roots => garbageCollect encodeRes roots g
  | OpCollectRoot => garbageCollectRoot encodeRes g
  | OpAddRoot x => addRootNode encodeRes x g
  | OpRemoveRoot x => removeRootNode encodeRes x g
  | OpSetThreshold i => setGCThreshold encodeRes i g
  | OpSync => (sync encodeRes g).1
  end.
Definition exec_all (os : list op) g : Graph := foldl (fun g o => exec o g) g os.

(** * The abstract operations *)

Definition collected (roots : gset Res) A : agraph :=
  MkAGraph (fun z => aN A z /\ reached (aE A) roots z) (fun r a b => aE A r a b /\ reached (aE A) roots a) (aRoots A).
Definition only (P : R -> Res -> Res -> Prop) A : agraph := MkAGraph (aN A) (fun r a b => aE A r a b /\ P r a b) (aRoots A).
Definition with_roots (l : list Res) A : agraph := MkAGraph (aN A) (aE A) l.

Inductive spec_step : op -> agraph -> agraph -> Prop :=
  | spec_connect x r y A : spec_step (OpConnect x r y) A
      (MkAGraph (fun z => z = x \/ z = y \/ aN A z)
        (fun r' a b => aE A r' a b /\ ~ replaced typeOf cardinalities r x y r' a b \/ (r', a, b) = (r, x, y)) (aRoots A))
  | spec_disconnect x r y A : spec_step (OpDisconnect x r y) A (only (fun r' a b => (r', a, b) <> (r, x, y)) A)
  | spec_all_from x r tb A :
      spec_step (OpDisconnectAllFrom x r tb) A (only (fun r' a b => ~ (r' = r /\ a = x /\ typeOf b = tb)) A)
  | spec_all_to ta r y A :
      spec_step (OpDisconnectAllTo ta r y) A (only (fun r' a b => ~ (r' = r /\ b = y /\ typeOf a = ta)) A)
  | spec_remove x A : spec_step (OpRemove x) A
      (MkAGraph (fun z => aN A z /\ z <> x) (fun r a b => aE A r a b /\ a <> x /\ b <> x) (aRoots A))
  | spec_collect roots A : spec_step (OpCollect roots) A (collected roots A)
  | spec_collect_root A : spec_step OpCollectRoot A (collected (list_to_set (aRoots A)) A)
  | spec_add_root x A : spec_step (OpAddRoot x) A (with_roots (x :: aRoots A) A)
  | spec_remove_root x A : spec_step (OpRemoveRoot x) A (with_roots (delete_first x (aRoots A)) A)
  | spec_threshold i A : spec_step (OpSetThreshold i) A A
  | spec_sync A : spec_step OpSync A A
  | spec_sync_collect A : spec_step OpSync A (collected (list_to_set (aRoots A)) A).

Inductive spec_run : list op -> agraph -> agraph -> Prop :=
  | spec_nil A : spec_run [] A A
  | spec_snoc os o A B C : spec_run os A B -> spec_step o B C -> spec_run (os ++ [o]) A C.

(** * The maps implement it *)

Definition abs g A : Prop := has (grGraph g) (aN A) (aE A) /\ grRootNodes (grGraphGCInfo g) = aRoots A.
Definition own g : agraph := MkAGraph (node (grGraph g)) (edge (grGraph g)) (grRootNodes (grGraphGCInfo g)).
Definition same A B : Prop := (forall z, aN A z <-> aN B z) /\ (forall r a b, aE A r a b <-> aE B r a b) /\ aRoots A = aRoots B.

Lemma linked_ext (E E' : R -> Res -> Res -> Prop) a b : (forall r a b, E r a b <-> E' r a b) -> linked E a b -> linked E' a b.
Proof. intros HE [r Hr]. exists r. by rewrite <- !HE. Qed.
Lemma reached_ext (E E' : R -> Res -> Res -> Prop) roots z :
  (forall r a b, E r a b <-> E' r a b) -> reached E roots z <-> reached E' roots z.
Proof.
  intros HE. split; intros (s & Hs & Hr); exists s; (split; [done|]); (eapply rtc_subrel; [|exact Hr]); intros a b;
    apply linked_ext; [done|]. intros r' a' b'. by rewrite HE.
Qed.

Lemma collected_same roots A B : same A B -> same (collected roots A) (collected roots B).
Proof.
  intros (HN & HE & HR). split; [|split; [|done]]; simpl.
  - intros z. by rewrite HN, (reached_ext _ _ roots z HE).
  - intros r a b. by rewrite HE, (reached_ext _ _ roots a HE).
Qed.
Lemma only_same P A B : same A B -> same (only P A) (only P B).
Proof. intros (HN & HE & HR). split; [done|split; [|done]]. intros r a b. simpl. by rewrite HE. Qed.

Lemma spec_step_same o A A' B : spec_step o A A' -> same A B -> exists B', spec_step o B B' /\ same A' B'.
Proof.
  intros Hs Hsame. pose proof Hsame as (HN & HE & HR).
  destruct Hs; try (eexists; split; [constructor|first [by apply only_same|by apply collected_same|done]]).
  - eexists. split; [constructor|]. split; [|split; [|done]]; simpl; [intros z; by rewrite HN|intros r' a b; by rewrite HE].
  - eexists. split; [constructor|]. split; [|split; [|done]]; simpl; [intros z; by rewrite HN|intros r' a b; by rewrite HE].
  - eexists. split; [constructor|]. rewrite HR. by apply collected_same.
  - eexists. split; [constructor|]. split; [done|split; [done|]]. simpl. by rewrite HR.
  - eexists. split; [constructor|]. split; [done|split; [done|]]. simpl. by rewrite HR.
  - eexists. split; [apply spec_sync_collect|]. rewrite HR. by apply collected_same.
Qed.

Lemma abs_same g A : abs g A -> same (own g) A.
Proof. intros [[_ HN HE] HR]. by split. Qed.
Lemma same_abs g A : wf (grGraph g) -> same (own g) A -> abs g A.
Proof. intros Hwf (HN & HE & HR). by split. Qed.

(** ** What leaves the roots as they are *)

Abbreviation roots_of g := (grRootNodes (grGraphGCInfo g)).
Lemma deleteEdge_roots e g : roots_of (deleteEdge encodeRes encodeRel e g) = roots_of g.
Proof.
  unfold deleteEdge. simpl. destruct (queryRes (edgeSrc e) g); simpl; [|done]. destruct (queryRel _ _); simpl; [|done].
  by destruct (queryRes (edgeDst e) g).
Qed.
Lemma deleteEdges_roots es g : roots_of (deleteEdges encodeRes encodeRel es g) = roots_of g.
Proof. induction es as [|e es IH]; [done|]. exact (eq_trans (deleteEdge_roots e _) IH). Qed.
Lemma connectUnbounded_roots x r y g : roots_of (connectUnbounded encodeRes encodeRel x r y g) = roots_of g.
Proof. reflexivity. Qed.
Lemma connect_roots x r y g : roots_of (connect typeOf cardinalities encodeRes encodeRel x r y g) = roots_of g.
Proof.
  unfold connect. destruct (cardinalities _ _ _) as [[|] [|]];
    unfold connectUnique, connectUniqueTo, connectUniqueFrom; rewrite connectUnbounded_roots;
    unfold disconnectAllFrom, disconnectAllTo; rewrite ?deleteEdges_roots; reflexivity.
Qed.
Lemma removeResource_roots x g : roots_of (removeResource encodeRes encodeRel x g) = roots_of g.
Proof. unfold removeResource. destruct (queryRes x g); reflexivity. Qed.

Lemma collectRoot_sim g : wf (grGraph g) -> abs (garbageCollectRoot encodeRes g) (collected (list_to_set (roots_of g)) (own g)).
Proof. intros Hwf. split; [exact (garbageCollect_has encodeRes (list_to_set (roots_of g)) g Hwf)|done]. Qed.

Lemma exec_sim o g : wf (grGraph g) -> exists A', spec_step o (own g) A' /\ abs (exec o g) A'.
Proof.
  intros Hwf. destruct o; try (eexists; split; [constructor|by split]).
  - eexists. split; [constructor|]. split; [by apply connect_has|apply connect_roots].
  - eexists. split; [constructor|]. split; [|apply deleteEdge_roots].
    exact (deleteEdge_has encodeRes encodeRel (MkEdge x r y) g Hwf).
  - eexists. split; [constructor|]. split; [by apply disconnectAllFrom_has|apply deleteEdges_roots].
  - eexists. split; [constructor|]. split; [by apply disconnectAllTo_has|apply deleteEdges_roots].
  - eexists. split; [constructor|]. split; [by apply removeResource_has|apply removeResource_roots].
  - eexists. split; [constructor|]. split; [by apply garbageCollect_has|done].
  - eexists. split; [constructor|]. by apply collectRoot_sim.
  - unfold exec, sync, runGCIfThresholdMet. destruct (shouldGC g); simpl.
    + eexists. split; [apply spec_sync_collect|]. by apply collectRoot_sim.
    + eexists. split; [apply spec_sync|]. by split.
Qed.

Lemma exec_refines o g A : abs g A -> exists A', spec_step o A A' /\ abs (exec o g) A'.
Proof.
  intros Ha. destruct (exec_sim o g (has_wf _ _ _ (proj1 Ha))) as (A1 & Hs & Ha1).
  destruct (spec_step_same _ _ _ A Hs (abs_same _ _ Ha)) as (A' & Hs' & Hsame). exists A'. split; [done|].
  destruct Ha1 as [[Hwf HN HE] HR], Hsame as (HN' & HE' & HR'). split; [|congruence].
  constructor; [done|intros z; by rewrite HN, HN'|intros r a b; by rewrite HE, HE'].
Qed.

(** * What every graph has *)

Definition ends A : Prop := forall r x y, aE A r x y -> aN A x /\ aN A y.
(** No more than one end where the relation has at most one. *)
Definition card_ok (E : R -> Res -> Res -> Prop) : Prop :=
  (forall r x y y', E r x y -> E r x y' -> typeOf y = typeOf y' ->
     (cardinalities r (typeOf x) (typeOf y)).2 = AtMostOne -> y = y') /\
  (forall r x x' y, E r x y -> E r x' y -> typeOf x = typeOf x' ->
     (cardinalities r (typeOf x) (typeOf y)).1 = AtMostOne -> x = x').

Lemma card_sub (E E' : R -> Res -> Res -> Prop) : (forall r a b, E' r a b -> E r a b) -> card_ok E -> card_ok E'.
Proof.
  intros Hsub [H1' H2']. split; [intros r x y y' Ha Hb|intros r x x' y Ha Hb]; [apply (H1' r)|apply (H2' r)]; by apply Hsub.
Qed.
Lemma card_connect (E : R -> Res -> Res -> Prop) r0 x0 y0 :
  card_ok E ->
  card_ok (fun r a b => E r a b /\ ~ replaced typeOf cardinalities r0 x0 y0 r a b \/ (r, a, b) = (r0, x0, y0)).
Proof.
  intros [H1' H2']. split.
  - intros r x y y' [[Ha Hna]|[= -> -> ->]] [[Hb Hnb]|Heq] Ht Hc.
    + by apply (H1' r x).
    + injection Heq as -> -> ->. destruct Hna. split; [done|left]. split; [by rewrite <- Ht|done].
    + destruct Hnb. split; [done|left]. done.
    + by injection Heq as ->.
  - intros r x x' y [[Ha Hna]|[= -> -> ->]] [[Hb Hnb]|Heq] Ht Hc.
    + by apply (H2' r x x' y).
    + injection Heq as -> -> ->. destruct Hna. split; [done|right]. split; [by rewrite <- Ht|done].
    + destruct Hnb. split; [done|right]. done.
    + by injection Heq as ->.
Qed.

Lemma spec_step_card o A A' : spec_step o A A' -> card_ok (aE A) -> card_ok (aE A').
Proof.
  intros Hs Hc. destruct Hs; try done; try (by apply card_connect); (eapply card_sub; [|exact Hc]); simpl; by intros r' a b [He _].
Qed.

Abbreviation empty_graph := (emptyGraph : Graph).
Definition empty_agraph : agraph := MkAGraph (fun _ => False) (fun _ _ _ => False) [].

Lemma empty_abs : abs empty_graph empty_agraph.
Proof.
  split; [|done]. constructor.
  - intros x rel Hin. unfold rels in Hin. simpl in Hin. rewrite lookup_empty in Hin. by apply elem_of_empty in Hin.
  - intros z. unfold node. simpl. rewrite lookup_empty. split; [by intros []|done].
  - intros r a b. unfold edge, rels. simpl. rewrite lookup_empty. simpl. by rewrite elem_of_empty.
Qed.

Lemma run_refines os : exists A, spec_run os empty_agraph A /\ abs (exec_all os empty_graph) A /\ card_ok (aE A).
Proof.
  induction os as [|o os IH] using rev_ind.
  - exists empty_agraph. split; [constructor|]. split; [apply empty_abs|]. by split.
  - destruct IH as (A & Hr & Ha & Hc). unfold exec_all. rewrite foldl_app. simpl. fold (exec_all os empty_graph).
    destruct (exec_refines o _ _ Ha) as (A' & Hs & Ha'). exists A'. split; [by econstructor|]. split; [done|].
    by eapply spec_step_card.
Qed.
Lemma run_wf os : wf (grGraph (exec_all os empty_graph)).
Proof. destruct (run_refines os) as (A & _ & [[Hwf _ _] _] & _). done. Qed.
Lemma run_card os : card_ok (edge (grGraph (exec_all os empty_graph))).
Proof.
  destruct (run_refines os) as (A & _ & [[_ _ HE] _] & Hc). eapply card_sub; [|exact Hc]. intros r a b. by rewrite HE.
Qed.

Lemma exec_wf o g : wf (grGraph g) -> wf (grGraph (exec o g)).
Proof. intros Hwf. destruct (exec_sim o g Hwf) as (A & _ & [[Hwf' _ _] _]). done. Qed.
Lemma exec_card o g : wf (grGraph g) -> card_ok (edge (grGraph g)) -> card_ok (edge (grGraph (exec o g))).
Proof.
  intros Hwf Hc. destruct (exec_sim o g Hwf) as (A & Hs & [[_ _ HE] _]). eapply card_sub; [intros r a b; apply HE|].
  by eapply spec_step_card.
Qed.

Lemma elem_of_anyConnectedTo x r g y : wf (grGraph g) -> y ∈ anyConnectedTo x r g <-> edge (grGraph g) r x y.
Proof.
  intros Hwf. unfold anyConnectedTo. rewrite list_elem_of_omap. setoid_rewrite elem_of_elements. setoid_rewrite elem_of_outs.
  rewrite lookupRes_rels. unfold edge. split.
  - intros ([r' a b|r' a b] & [Ho Hin] & Hd); simpl in *; [done|]. destruct (Hwf _ _ Hin) as [Hx _]. simpl in Hx. subst a.
    destruct (decide (r' = r)) as [->|]; [|done]. by injection Hd as ->.
  - intros He. exists (OutRel r x y). split; [done|]. simpl. by rewrite decide_True.
Qed.
Lemma elem_of_anyConnectedFrom r y g x : wf (grGraph g) -> x ∈ anyConnectedFrom r y g <-> edge (grGraph g) r x y.
Proof.
  intros Hwf. unfold anyConnectedFrom. rewrite list_elem_of_omap. setoid_rewrite elem_of_elements. setoid_rewrite elem_of_ins.
  rewrite lookupRes_rels, (wf_edge_in _ _ _ _ Hwf). split.
  - intros ([r' a b|r' a b] & [Ho Hin] & Hd); simpl in *; [|done]. destruct (Hwf _ _ Hin) as [Hx _]. simpl in Hx. subst b.
    destruct (decide (r' = r)) as [->|]; [|done]. by injection Hd as ->.
  - intros He. exists (InRel r x y). split; [done|]. simpl. by rewrite decide_True.
Qed.

(** Where all are the same, the first is all. *)
Lemma elem_of_limit c (l : list Res) y :
  (c = AtMostOne -> forall a b, a ∈ l -> b ∈ l -> a = b) -> y ∈ limit c l <-> y ∈ l.
Proof.
  intros Hl. destruct c; [|done]. specialize (Hl eq_refl). destruct l as [|a l]; [done|]. simpl. rewrite take_0. split.
  - intros ->%list_elem_of_singleton. by left.
  - intros Hy. rewrite (Hl y a); [by left|done|by left].
Qed.

(** Keeping one of several leaves one of them. *)
Lemma limit_sub c (l : list Res) y : y ∈ limit c l -> y ∈ l.
Proof. destruct c; [|done]. destruct l as [|a l]; [done|]. simpl. rewrite take_0. intros ->%list_elem_of_singleton. by left. Qed.
Lemma limit_nil c (l : list Res) : limit c l = [] -> l = [].
Proof. destruct c; [|done]. by destruct l. Qed.

(** * The promises *)

(** C6. Whatever operations but mergers are run on an empty graph, the maps of the graph hold
    the nodes, the edges and the roots of a run of the abstract graph, in which
    connecting adds an edge and takes out the ones it replaces, disconnecting and
    removing take out what they name and nothing else, and collecting keeps what
    the roots reach. *)
Theorem resource_graph_refines os : exists A, spec_run os empty_agraph A /\ abs (exec_all os empty_graph) A.
Proof. destruct (run_refines os) as (A & Hr & Ha & _). by exists A. Qed.
End Spec.
End GraphSpec.
