(* ===== verification/GraphMerge.v ===== *)
(** Merging resources of the resource graph: the new resource takes over the edges
    of the merged ones, and nothing else changes. With it, what holds of every graph
    that the operations make: edges are seen from both ends, queries and collection. *)

From stdpp Require Import gmap.
From S2P Require Import Prelude Multimap Graph GraphOps GraphSpec.
Local Open Scope Z_scope.
Set Default Proof Using "Type".

Module GraphMerge.
Import Multimap Graph GraphOps GraphSpec.

(** * Maps of relations *)

Section Maps.
Context {R Res : Type} `{Countable R} `{Countable Res}.
Abbreviation grmap := (gmap Res (gset (Rel R Res))).
Implicit Types (x y z : Res) (r : R) (rel : Rel R Res) (m : grmap) (s : gset (Rel R Res)).

Definition src rel : Res := let '(a, _, _) := explodeRel rel in a.
Definition dst rel : Res := let '(_, _, b) := explodeRel rel in b.

(** A relation of a list is at [z], in the form [rel']. *)
Definition at_end (l : list (Rel R Res)) z rel' : Prop :=
  exists rel, rel ∈ l /\ (z = src rel /\ rel' = asOut rel \/ z = dst rel /\ rel' = asIn rel).

Definition put_ends m rel : grmap := let '(a, _, b) := explodeRel rel in insertRel b (asIn rel) (insertRel a (asOut rel) m).

Lemma rels_put_ends m rel z rel' :
  rel' ∈ rels (put_ends m rel) z <-> rel' ∈ rels m z \/ z = src rel /\ rel' = asOut rel \/ z = dst rel /\ rel' = asIn rel.
Proof.
  unfold put_ends, src, dst. destruct (explodeRel rel) as [[a r] b]. rewrite !rels_insertRel.
  destruct (decide (z = b)), (decide (z = a)); set_unfold; tauto.
Qed.
Lemma node_put_ends m rel z : node (put_ends m rel) z <-> node m z \/ z = src rel \/ z = dst rel.
Proof. unfold put_ends, src, dst. destruct (explodeRel rel) as [[a r] b]. rewrite !node_insertRel. tauto. Qed.

Lemma foldl_put_ends l m z :
  (forall rel', rel' ∈ rels (foldl put_ends m l) z <-> rel' ∈ rels m z \/ at_end l z rel') /\
  (node (foldl put_ends m l) z <-> node m z \/ exists rel, rel ∈ l /\ (z = src rel \/ z = dst rel)).
Proof.
  revert m. induction l as [|rel l IH]; intros m; cbn [foldl].
  - split; [intros rel'|]; (split; [by left|]); intros [?|(rel & ?%elem_of_nil & _)]; done.
  - destruct (IH (put_ends m rel)) as [IH1 IH2]. split; [intros rel'; rewrite IH1, rels_put_ends|rewrite IH2, node_put_ends].
    + unfold at_end. setoid_rewrite elem_of_cons. split.
      * intros [[?|He]|(rel0 & Hin & He)]; [by left|right; exists rel; split; [by left|done]|right; exists rel0; split; [by right|done]].
      * intros [?|(rel0 & [->|Hin] & He)]; [by left; left|by left; right|right; by exists rel0].
    + setoid_rewrite elem_of_cons. split.
      * intros [[?|He]|(rel0 & Hin & He)]; [by left|right; exists rel; split; [by left|done]|right; exists rel0; split; [by right|done]].
      * intros [?|(rel0 & [->|Hin] & He)]; [by left; left|by left; right|right; by exists rel0].
Qed.

Lemma rels_empty z rel : rel ∈ rels (∅ : grmap) z <-> False.
Proof. unfold rels. rewrite lookup_empty. simpl. by rewrite elem_of_empty. Qed.
Lemma node_empty z : node (∅ : grmap) z <-> False.
Proof. unfold node. rewrite lookup_empty. split; [by intros []|done]. Qed.

Lemma rels_mkUpdateMap s z rel' : rel' ∈ rels (mkUpdateMap s) z <-> at_end (elements s) z rel'.
Proof. destruct (foldl_put_ends (elements s) ∅ z) as [Hr _]. etrans; [apply Hr|]. rewrite rels_empty. tauto. Qed.
Lemma node_mkUpdateMap s z : node (mkUpdateMap s) z <-> exists rel, rel ∈ s /\ (z = src rel \/ z = dst rel).
Proof.
  destruct (foldl_put_ends (elements s) ∅ z) as [_ Hn]. etrans; [apply Hn|]. rewrite node_empty. setoid_rewrite elem_of_elements. tauto.
Qed.

Lemma rels_union_rels m1 m2 z : rels (union_rels m1 m2) z = rels m1 z ∪ rels m2 z.
Proof. unfold rels, union_rels. rewrite lookup_union_with. destruct (m1 !! z), (m2 !! z); simpl; set_solver. Qed.
Lemma node_union_rels m1 m2 z : node (union_rels m1 m2) z <-> node m1 z \/ node m2 z.
Proof.
  unfold node, union_rels. rewrite lookup_union_with. destruct (m1 !! z), (m2 !! z); simpl; split; try done; try by left. all: try by right.
  by intros [[]|[]].
Qed.

(** ** Adjustments *)

Lemma lookup_mkAdjustments (action : gset (Rel R Res) -> option (gset (Rel R Res)) -> option (gset (Rel R Res))) m m0 z :
  mkAdjustments action m m0 !! z = match m !! z with Some v => action v (m0 !! z) | None => m0 !! z end.
Proof.
  unfold mkAdjustments. assert (Hl : forall (l : list (Res * gset (Rel R Res))) (n : grmap), NoDup l.*1 ->
    foldl (fun (z' : grmap) kv => partial_alter (action kv.2) kv.1 z') n l !! z = match (list_to_map l : grmap) !! z with Some v => action v (n !! z) | None => n !! z end).
  { induction l as [|[k v] l IH]; intros n Hnd; [done|]. cbn [foldl fst snd]. inversion_clear Hnd as [|? ? Hk Hnd'].
    rewrite IH by done. simpl. destruct (decide (z = k)) as [->|Hne].
    - rewrite lookup_insert_eq, (not_elem_of_list_to_map_1 l k Hk). by rewrite lookup_partial_alter_eq.
    - by rewrite lookup_insert_ne, lookup_partial_alter_ne. }
  rewrite Hl by apply NoDup_fst_map_to_list. by rewrite list_to_map_to_list.
Qed.

Lemma rels_removeNodes m m0 z rel : rel ∈ rels (mkAdjustments removeNodes m m0) z <-> rel ∈ rels m0 z /\ rel ∉ rels m z.
Proof.
  unfold rels. rewrite lookup_mkAdjustments. destruct (m !! z) as [v|]; simpl; [|set_solver].
  destruct (m0 !! z) as [w|]; simpl; [|set_solver]. destruct (decide (w ∖ v = ∅)); simpl; set_solver.
Qed.
Lemma node_removeNodes m m0 z :
  node (mkAdjustments removeNodes m m0) z <-> node m0 z /\ (~ node m z \/ exists rel, rel ∈ rels m0 z /\ rel ∉ rels m z).
Proof.
  unfold node, rels. rewrite lookup_mkAdjustments. destruct (m !! z) as [v|]; simpl.
  - destruct (m0 !! z) as [w|]; simpl; [|split; [by intros []|by intros [[] _]]]. destruct (decide (w ∖ v = ∅)) as [He|He].
    + split; [by intros []|]. intros [_ [Hn|(rel & Hin & Hn)]]; [by destruct Hn|]. set_solver.
    + split; [|done]. intros _. split; [done|]. right. apply set_choose_L in He as [rel Hrel]. exists rel. set_solver.
  - split; [|by intros [? _]]. intros ?. split; [done|]. left. by intros [].
Qed.
Lemma rels_insertNodes m m0 z rel : rel ∈ rels (mkAdjustments insertNodes m m0) z <-> rel ∈ rels m z \/ rel ∈ rels m0 z.
Proof. unfold rels. rewrite lookup_mkAdjustments. destruct (m !! z) as [v|]; simpl; [unfold insertNodes; simpl|]; set_solver. Qed.
Lemma node_insertNodes m m0 z : node (mkAdjustments insertNodes m m0) z <-> node m z \/ node m0 z.
Proof.
  unfold node. rewrite lookup_mkAdjustments. destruct (m !! z) as [v|]; simpl.
  - split; [by left|done].
  - split; [by right|by intros [[]|?]].
Qed.
Lemma lookup_none_map (xs : list Res) z : (list_to_map ((fun x => (x, ∅)) <$> xs) : grmap) !! z = if decide (z ∈ xs) then Some ∅ else None.
Proof.
  induction xs as [|x xs IH]; [done|]. rewrite fmap_cons, list_to_map_cons. destruct (decide (z = x)) as [->|Hne].
  - by rewrite lookup_insert_eq, decide_True by by left.
  - rewrite lookup_insert_ne, IH by done. apply decide_ext. rewrite elem_of_cons. tauto.
Qed.
End Maps.

(** * Merging *)

Section Merge.
Context {T R Res K V : Type} `{EqDecision T} `{Countable R} `{Countable Res} `{Countable K} `{Countable V}.
Context (typeOf : Res -> T) (cardinalities : R -> T -> T -> Cardinality * Cardinality).
Context (encodeRes : Res -> K) (encodeRel : Rel R Res -> V).
Abbreviation Graph := (Graph R Res K V).
Abbreviation grmap := (gmap Res (gset (Rel R Res))).
Implicit Types (x y z : Res) (r : R) (rel : Rel R Res) (m : grmap) (xs : list Res).

Definition old_rels m xs : gset (Rel R Res) := foldl (∪) ∅ (omap (fun x => m !! x) xs).
Definition new_rels (newX : Res) xs (s : gset (Rel R Res)) : gset (Rel R Res) :=
  filter (fun rel => other_end rel ∉ newX :: xs) (set_map (updateLocalEnd typeOf newX) s).

Lemma elem_of_foldl_union (l : list (gset (Rel R Res))) (s : gset (Rel R Res)) rel :
  rel ∈ foldl (∪) s l <-> rel ∈ s \/ exists s', s' ∈ l /\ rel ∈ s'.
Proof.
  revert s. induction l as [|s' l IH]; intros s; cbn [foldl].
  - split; [by left|]. by intros [?|(s' & ?%elem_of_nil & _)].
  - rewrite IH, elem_of_union. setoid_rewrite elem_of_cons. split.
    + intros [[?|?]|(s2 & ? & ?)]; [by left|right; exists s'; split; [by left|done]|right; exists s2; split; [by right|done]].
    + intros [?|(s2 & [->|?] & ?)]; [by left; left|by left; right|right; by exists s2].
Qed.
Lemma elem_of_old m xs rel : rel ∈ old_rels m xs <-> exists x, x ∈ xs /\ rel ∈ rels m x.
Proof.
  unfold old_rels. rewrite elem_of_foldl_union. setoid_rewrite list_elem_of_omap. split.
  - intros [?%elem_of_empty|(s & (x & Hx & Hs) & Hin)]; [done|]. exists x. split; [done|]. unfold rels. by rewrite Hs.
  - intros (x & Hx & Hin). right. unfold rels in Hin. destruct (m !! x) as [s|] eqn:Hs; simpl in Hin; [|by apply elem_of_empty in Hin].
    exists s. split; [|done]. by exists x.
Qed.

(** ** What is taken out *)

Lemma at_old m xs z rel' :
  wf m -> rel' ∈ rels m z -> at_end (elements (old_rels m xs)) z rel' <-> z ∈ xs \/ other_end rel' ∈ xs.
Proof.
  intros Hwf Hin. unfold at_end. setoid_rewrite elem_of_elements. setoid_rewrite elem_of_old. split.
  - intros (rel & (x & Hx & Hrel) & He). destruct (Hwf _ _ Hrel) as [-> _].
    destruct rel as [r a b|r a b]; simpl in *; destruct He as [[-> ->]|[-> ->]]; simpl; first [by left|by right].
  - destruct (Hwf _ _ Hin) as [-> Hinv]. intros [Hz|Hz].
    + exists rel'. split; [by exists (home rel')|]. by destruct rel'; [right|left].
    + exists (invert rel'). split; [by exists (other_end rel')|]. by destruct rel'; [right|left].
Qed.

(** ** What is put in *)

(** The edges of the new resource. *)
Definition taken_over (newX : Res) xs (E : R -> Res -> Res -> Prop) r (a b : Res) : Prop :=
  a = newX /\ (b ∉ newX :: xs) /\ (exists x, x ∈ xs /\ E r x b) \/
  b = newX /\ (a ∉ newX :: xs) /\ (exists x, x ∈ xs /\ E r a x).

Lemma elem_of_new newX xs m rel :
  wf m -> (forall x, x ∈ xs -> typeOf x = typeOf newX) ->
  rel ∈ new_rels newX xs (old_rels m xs) <->
  match rel with
  | OutRel r a b => a = newX /\ (b ∉ newX :: xs) /\ exists x, x ∈ xs /\ edge m r x b
  | InRel r a b => b = newX /\ (a ∉ newX :: xs) /\ exists x, x ∈ xs /\ edge m r a x
  end.
Proof.
  intros Hwf Ht. unfold new_rels. rewrite elem_of_filter, elem_of_map. setoid_rewrite elem_of_old. split.
  - intros (Ho & rel0 & -> & x & Hx & Hin). destruct (Hwf _ _ Hin) as [Hh Hinv]. destruct rel0 as [r a b|r a b]; simpl in *; subst x;
      (rewrite decide_True in Ho |- * by (symmetry; by apply Ht)); simpl in *; (split; [done|]); (split; [done|]);
      eexists; (split; [exact Hx|]); [exact Hinv|exact Hin].
  - destruct rel as [r a b|r a b]; intros (-> & Hn & x & Hx & He); (split; [done|]).
    + exists (InRel r a x). simpl. rewrite decide_True by (symmetry; by apply Ht). split; [done|]. exists x. split; [done|].
      by apply (wf_edge_in m r a x).
    + exists (OutRel r x b). simpl. rewrite decide_True by (symmetry; by apply Ht). split; [done|]. by exists x.
Qed.

Lemma at_new newX xs m z rel' :
  wf m -> (forall x, x ∈ xs -> typeOf x = typeOf newX) ->
  at_end (elements (new_rels newX xs (old_rels m xs))) z rel' <->
  z = home rel' /\ let '(a, r, b) := explodeRel rel' in taken_over newX xs (edge m) r a b.
Proof.
  intros Hwf Ht. unfold at_end. setoid_rewrite elem_of_elements. setoid_rewrite (elem_of_new newX xs m _ Hwf Ht). split.
  - intros ([r a b|r a b] & Hrel & He); destruct He as [[-> ->]|[-> ->]]; (split; [done|]); simpl; [by right|by right|by left|by left].
  - destruct rel' as [r a b|r a b]; simpl; intros [-> [Hn|Hn]].
    + exists (OutRel r a b). split; [exact Hn|]. by right.
    + exists (InRel r a b). split; [exact Hn|]. by right.
    + exists (OutRel r a b). split; [exact Hn|]. by left.
    + exists (InRel r a b). split; [exact Hn|]. by left.
Qed.

(** ** The merged graph *)

Definition delete_map m xs : grmap := union_rels (list_to_map ((fun x => (x, ∅)) <$> xs)) (mkUpdateMap (old_rels m xs)).
Definition insert_map (newX : Res) m xs : grmap := union_rels {[newX := ∅]} (mkUpdateMap (new_rels newX xs (old_rels m xs))).
Definition merged_map (newX : Res) m xs : grmap :=
  mkAdjustments insertNodes (insert_map newX m xs) (mkAdjustments removeNodes (delete_map m xs) m).

Lemma merged_rels newX m xs z rel' :
  wf m -> (forall x, x ∈ xs -> typeOf x = typeOf newX) ->
  rel' ∈ rels (merged_map newX m xs) z <->
  (z = home rel' /\ let '(a, r, b) := explodeRel rel' in taken_over newX xs (edge m) r a b) \/
  (rel' ∈ rels m z /\ (z ∉ xs) /\ other_end rel' ∉ xs).
Proof.
  intros Hwf Ht. unfold merged_map. rewrite rels_insertNodes, rels_removeNodes.
  assert (Hi : rel' ∈ rels (insert_map newX m xs) z <-> at_end (elements (new_rels newX xs (old_rels m xs))) z rel').
  { unfold insert_map. rewrite rels_union_rels, elem_of_union, rels_mkUpdateMap. split; [|by right]. intros [Hin|?]; [|done].
    unfold rels in Hin. destruct (decide (z = newX)) as [->|]; [rewrite lookup_singleton_eq in Hin|rewrite lookup_singleton_ne in Hin by done];
      by apply elem_of_empty in Hin. }
  assert (Hd : rel' ∈ rels (delete_map m xs) z <-> at_end (elements (old_rels m xs)) z rel').
  { unfold delete_map. rewrite rels_union_rels, elem_of_union, rels_mkUpdateMap. split; [|by right]. intros [Hin|?]; [|done].
    unfold rels in Hin. rewrite lookup_none_map in Hin. destruct (decide _); by apply elem_of_empty in Hin. }
  rewrite Hi, Hd, (at_new newX xs m z rel' Hwf Ht). split.
  - intros [?|[Hin Hn]]; [by left|]. right. split; [done|]. rewrite (at_old m xs z rel' Hwf Hin) in Hn. split; intros ?; apply Hn; [by left|by right].
  - intros [?|(Hin & Hz & Ho)]; [by left|]. right. split; [done|]. rewrite (at_old m xs z rel' Hwf Hin). by intros [?|?].
Qed.

(** The edges after merging: those that touch no merged resource, and those that the
    new one takes over. *)
Definition merged_edges (newX : Res) xs (E : R -> Res -> Res -> Prop) r (a b : Res) : Prop :=
  E r a b /\ (a ∉ xs) /\ (b ∉ xs) \/ taken_over newX xs E r a b.

Lemma merged_wf newX m xs : wf m -> (forall x, x ∈ xs -> typeOf x = typeOf newX) -> wf (merged_map newX m xs).
Proof.
  intros Hwf Ht z rel'. rewrite merged_rels by done. intros [[-> Hto]|(Hin & Hz & Ho)].
  - split; [done|]. rewrite merged_rels by done. left. split; [by destruct rel'|]. by destruct rel'.
  - destruct (Hwf _ _ Hin) as [-> Hinv]. split; [done|]. rewrite merged_rels by done. right. split; [done|].
    split; [done|]. by rewrite other_end_invert.
Qed.

Lemma taken_over_at newX m xs z rel :
  wf m -> rel ∈ rels m z -> (z ∉ newX :: xs) -> other_end rel ∈ xs -> exists r a b, taken_over newX xs (edge m) r a b /\ (z = a \/ z = b).
Proof.
  intros Hwf Hin Hz Ho. destruct (Hwf _ _ Hin) as [-> Hinv]. destruct rel as [r a b|r a b]; simpl in *.
  - exists r, newX, b. split; [|by right]. left. split; [done|]. split; [done|]. by exists a.
  - exists r, a, newX. split; [|by left]. right. split; [done|]. split; [done|]. by exists b.
Qed.

Lemma node_insert_map newX m xs z :
  wf m -> (forall x, x ∈ xs -> typeOf x = typeOf newX) ->
  node (insert_map newX m xs) z <-> z = newX \/ exists r a b, taken_over newX xs (edge m) r a b /\ (z = a \/ z = b).
Proof.
  intros Hwf Ht. unfold insert_map. rewrite node_union_rels, node_mkUpdateMap. setoid_rewrite (elem_of_new newX xs m _ Hwf Ht).
  assert (Hs : node ({[newX := ∅]} : grmap) z <-> z = newX).
  { unfold node. rewrite lookup_singleton_is_Some. done. }
  rewrite Hs. split; (intros [?|He]; [by left|right]).
  - destruct He as ([r a b|r a b] & Hrel & He); exists r, a, b; (split; [|done]); [by right|by left].
  - destruct He as (r & a & b & [Hto|Hto] & He); [by exists (OutRel r a b)|by exists (InRel r a b)].
Qed.

Lemma merged_node newX m xs z :
  wf m -> (forall x, x ∈ xs -> typeOf x = typeOf newX) ->
  node (merged_map newX m xs) z <-> z = newX \/ node m z /\ z ∉ xs.
Proof.
  intros Hwf Ht. unfold merged_map. rewrite node_insertNodes, (node_insert_map newX m xs z Hwf Ht), node_removeNodes.
  assert (Hd : forall rel, rel ∈ rels m z -> rel ∉ rels (delete_map m xs) z -> z ∉ xs).
  { intros rel Hin Hn Hz. apply Hn. unfold delete_map. rewrite rels_union_rels, elem_of_union, rels_mkUpdateMap. right.
    apply at_old; [done|done|by left]. }
  assert (Hdn : node (delete_map m xs) z <-> z ∈ xs \/ exists rel, rel ∈ rels m z /\ other_end rel ∈ xs).
  { unfold delete_map. rewrite node_union_rels, node_mkUpdateMap. unfold node at 1. rewrite lookup_none_map. setoid_rewrite elem_of_old. split.
    - intros [Hs|(rel & (x & Hx & Hrel) & He)]; [destruct (decide (z ∈ xs)); [by left|by destruct Hs]|].
      destruct (Hwf _ _ Hrel) as [-> Hinv]. destruct rel as [r a b|r a b]; simpl in *; destruct He as [->| ->]; try (by left); right;
        eexists; (split; [exact Hinv|done]).
    - intros [Hz|(rel & Hin & Ho)]; [left; by rewrite decide_True|]. destruct (Hwf _ _ Hin) as [-> Hinv]. right. exists (invert rel).
      split; [by exists (other_end rel)|]. destruct rel; simpl; [by right|by left]. }
  split.
  - intros [[->|(r & a & b & Hto & Hz)]|[Hn Hz]]; [by left|..].
    + destruct Hto as [(-> & Hb & x & Hx & He)|(-> & Ha & x & Hx & He)]; destruct Hz as [->| ->]; try (by left); right;
        destruct (wf_ends _ _ _ _ Hwf He) as [? ?]; (split; [done|]); intros ?; [apply Hb|apply Ha]; by right.
    + right. split; [done|]. destruct Hz as [Hz|(rel & Hin & Hr)]; [|by eapply Hd]. intros ?. apply Hz, Hdn. by left.
  - intros [->|[Hn Hz]]; [left; by left|]. destruct (decide (z = newX)) as [->|Hne]; [left; by left|].
    destruct (decide (node (delete_map m xs) z)) as [Hdel|Hdel]; [|right; split; [done|by left]].
    apply Hdn in Hdel as [?|(rel & Hin & Ho)]; [done|]. left. right. apply (taken_over_at newX m xs z rel); try done.
    by intros [?|?]%elem_of_cons.
Qed.

Lemma mergeResources_has f xs (g : Graph) :
  wf (grGraph g) -> xs <> [] -> (forall x, x ∈ xs -> typeOf x = typeOf (f xs)) ->
  has (grGraph (mergeResources typeOf encodeRes encodeRel f xs g)) (fun z => z = f xs \/ node (grGraph g) z /\ z ∉ xs)
    (merged_edges (f xs) xs (edge (grGraph g))).
Proof.
  intros Hwf Hne Ht. destruct xs as [|x xs]; [done|].
  change (grGraph (mergeResources typeOf encodeRes encodeRel f (x :: xs) g)) with (merged_map (f (x :: xs)) (grGraph g) (x :: xs)).
  set (xs' := x :: xs) in *. constructor; [by apply merged_wf|intros z; by apply merged_node|].
  intros r a b. unfold edge at 1. rewrite merged_rels by done. unfold merged_edges. simpl. split.
  - intros [[_ Hto]|(Hin & Ha & Hb)]; [by right|by left].
  - intros [(Hin & Ha & Hb)|Hto]; [by right|by left].
Qed.

(** C28. Merging. After any operations, merging resources of one type into a resource of
    that type gives the graph in which the merged resources are gone, unless the new
    one is among them, the new one has the edges that they had to and from resources
    that were not merged, and all other resources and edges are as before; edges are
    still seen from both ends. *)
Theorem merge_exact os f xs :
  xs <> [] -> (forall x, x ∈ xs -> typeOf x = typeOf (f xs)) ->
  let g := exec_all typeOf cardinalities encodeRes encodeRel os (emptyGraph : Graph) in
  let g' := mergeResources typeOf encodeRes encodeRel f xs g in
  (forall z, memberResource z g' = true <-> z = f xs \/ memberResource z g = true /\ z ∉ xs) /\
  (forall r a b, memberEdge (MkEdge a r b) g' = true <->
     merged_edges (f xs) xs (fun r a b => memberEdge (MkEdge a r b) g = true) r a b) /\
  (forall e, memberEdge e g' = memberEdgeBack e g').
Proof.
  intros Hne Ht g g'. pose proof (run_wf typeOf cardinalities encodeRes encodeRel os) as Hwf.
  destruct (mergeResources_has f xs g Hwf Hne Ht) as [Hwf' HN HE]. split; [|split].
  - intros z. rewrite !memberResource_node. exact (HN z).
  - intros r a b. etrans; [apply memberEdge_edge|]. etrans; [exact (HE r a b)|]. unfold merged_edges, taken_over.
    setoid_rewrite memberEdge_edge. done.
  - intros e. apply eq_true_iff_eq. rewrite memberEdge_edge, memberEdgeBack_edge. by apply wf_edge_in.
Qed.

(** * All graphs

    The graphs that the operations make of the empty one, merging resources of one
    type into one of that type included; the flag tells whether there was a
    merger. *)
Inductive made : bool -> Graph -> Prop :=
| made_empty : made false emptyGraph
| made_exec merged o g : made merged g -> made merged (exec typeOf cardinalities encodeRes encodeRel o g)
| made_merge merged f xs g :
    made merged g -> (forall x, x ∈ xs -> typeOf x = typeOf (f xs)) ->
    made true (mergeResources typeOf encodeRes encodeRel f xs g).

Lemma made_wf merged g : made merged g -> wf (grGraph g).
Proof.
  induction 1 as [|merged o g _ IH|merged f xs g _ IH Ht].
  - exact (run_wf typeOf cardinalities encodeRes encodeRel []).
  - by apply exec_wf.
  - destruct xs as [|x xs]; [done|]. by destruct (mergeResources_has f (x :: xs) g IH) as [? _ _].
Qed.
Lemma made_card merged g : made merged g -> merged = false -> card_ok typeOf cardinalities (edge (grGraph g)).
Proof.
  induction 1 as [|merged o g Hg IH|]; intros Hm; [..|done].
  - exact (run_card typeOf cardinalities encodeRes encodeRel []).
  - apply exec_card; [by eapply made_wf|by apply IH].
Qed.

(** C19. After any operations on an empty graph, mergers included, an edge is seen from
    its source exactly when it is seen from its destination and both of its ends are
    members of the graph; and if nothing was merged, a relation to or from at most one
    has no second end. (The graph is the one in memory: reading it back from the store
    is not one of the operations.) *)
Theorem resource_graph_invariant merged g :
  made merged g ->
  (forall e, memberEdge e g = memberEdgeBack e g) /\
  (forall e, memberEdge e g = true -> memberResource (edgeSrc e) g = true /\ memberResource (edgeDst e) g = true) /\
  (merged = false -> card_ok typeOf cardinalities (edge (grGraph g))).
Proof.
  intros Hg. pose proof (made_wf _ _ Hg) as Hwf. split; [|split; [|by apply made_card]].
  - intros e. apply eq_true_iff_eq. rewrite memberEdge_edge, memberEdgeBack_edge. by apply wf_edge_in.
  - intros e He%memberEdge_edge. rewrite !memberResource_node. by apply (wf_ends _ _ _ _ Hwf He).
Qed.

Lemma elem_of_connectedTo x r tb (g : Graph) y :
  wf (grGraph g) -> y ∈ filter (fun y => typeOf y = tb) (anyConnectedTo x r g) <-> typeOf y = tb /\ memberEdge (MkEdge x r y) g = true.
Proof. intros Hwf. by rewrite list_elem_of_filter, elem_of_anyConnectedTo, memberEdge_edge. Qed.
Lemma elem_of_connectedFrom ta r y (g : Graph) x :
  wf (grGraph g) -> x ∈ filter (fun x => typeOf x = ta) (anyConnectedFrom r y g) <-> typeOf x = ta /\ memberEdge (MkEdge x r y) g = true.
Proof. intros Hwf. by rewrite list_elem_of_filter, elem_of_anyConnectedFrom, memberEdge_edge. Qed.

(** [l] lists only what is in [P], something if there is anything, and everything if
    [all]. *)
Definition lists (all : Prop) (P : Res -> Prop) (l : list Res) : Prop :=
  (forall y, y ∈ l -> P y) /\ (forall y, P y -> l <> []) /\ (all -> forall y, P y -> y ∈ l).

Lemma limit_lists c (l : list Res) (P : Res -> Prop) (all : Prop) :
  (forall y, y ∈ l <-> P y) -> (all -> c = AtMostOne -> forall a b, P a -> P b -> a = b) -> lists all P (limit c l).
Proof.
  intros Hl Hall. split; [|split].
  - intros y Hy%limit_sub. by apply Hl.
  - intros y Hy Hn%limit_nil. apply Hl in Hy. rewrite Hn in Hy. by apply elem_of_nil in Hy.
  - intros Ha y Hy. apply elem_of_limit; [|by apply Hl]. intros Hc a b Hx1%Hl Hx2%Hl. by apply Hall.
Qed.

(** C23. After any operations on an empty graph, mergers included, [connectedTo] and
    [connectedFrom] list only resources of the asked type at the other end of an edge,
    and at least one if there is one; they list all of them, if nothing was merged or
    the relation has no bound on that side: where it has at most one, keeping one of
    them then drops none. *)
Theorem connected_exact merged g :
  made merged g ->
  (forall x r tb, lists (merged = false \/ (cardinalities r (typeOf x) tb).2 = Unbounded)
     (fun y => typeOf y = tb /\ memberEdge (MkEdge x r y) g = true) (connectedTo typeOf cardinalities x r tb g)) /\
  (forall ta r y, lists (merged = false \/ (cardinalities r ta (typeOf y)).1 = Unbounded)
     (fun x => typeOf x = ta /\ memberEdge (MkEdge x r y) g = true) (connectedFrom typeOf cardinalities ta r y g)).
Proof.
  intros Hg. pose proof (made_wf _ _ Hg) as Hwf. pose proof (made_card _ _ Hg) as Hcard. split.
  - intros x r tb. apply limit_lists; [intros y; by apply elem_of_connectedTo|].
    intros [Hm|Hu] Hc a b [Ha He%memberEdge_edge] [Hb He'%memberEdge_edge]; [|congruence].
    destruct (Hcard Hm) as [Hc1 _]. apply (Hc1 r x a b); [done|done|congruence|by rewrite Ha].
  - intros ta r y. apply limit_lists; [intros x; by apply elem_of_connectedFrom|].
    intros [Hm|Hu] Hc a b [Ha He%memberEdge_edge] [Hb He'%memberEdge_edge]; [|congruence].
    destruct (Hcard Hm) as [_ Hc2]. apply (Hc2 r a b y); [done|done|congruence|by rewrite Ha].
Qed.

(** C30. Collection. After any operations on an empty graph, mergers included,
    [garbageCollect] returns a graph with exactly the resources that edges, in either
    direction, join to a root; no edge of a resource it keeps is lost, and edges are
    still seen from both ends. *)
Theorem collection_exact merged g (roots : gset Res) :
  made merged g ->
  let g' := garbageCollect encodeRes roots g in
  (forall z, memberResource z g' = true <-> memberResource z g = true /\ reached (edge (grGraph g)) roots z) /\
  (forall e, memberResource (edgeSrc e) g' = true \/ memberResource (edgeDst e) g' = true -> memberEdge e g' = memberEdge e g) /\
  (forall e, memberEdge e g' = memberEdgeBack e g').
Proof.
  intros Hg g'. pose proof (made_wf _ _ Hg) as Hwf. destruct (garbageCollect_has encodeRes roots g Hwf) as [Hwf' HN HE].
  setoid_rewrite memberResource_node. split; [done|]. split.
  - intros [a r b] Hab. apply eq_true_iff_eq. rewrite !memberEdge_edge. unfold g'. rewrite HE. simpl in *.
    split; [by intros [? _]|]. intros He. split; [done|]. unfold g' in Hab. rewrite !HN in Hab.
    destruct Hab as [[_ Hr]|[_ (s & Hs & Hr)]]; [done|]. exists s. split; [done|]. eapply rtc_r; [exact Hr|]. exists r. by right.
  - intros e. apply eq_true_iff_eq. rewrite memberEdge_edge, memberEdgeBack_edge. by apply wf_edge_in.
Qed.
End Merge.

Lemma merge_exact_witness :
  let os := [OpConnect 1 2 3; OpConnect 1 2 4; OpConnect 6 2 3] in
  let g := exec_all Z.even (fun (_ : Z) _ _ => (Unbounded, Unbounded)) (fun x : Z => x) (fun rel => rel) os emptyGraph in
  let g' := mergeResources Z.even (fun x => x) (fun rel => rel) (hd 0) [1; 3] g in
  (forall z, memberResource z g' = true <-> z = 1 \/ memberResource z g = true /\ z ∉ [1; 3]) /\
  (forall r a b, memberEdge (MkEdge a r b) g' = true <->
     merged_edges 1 [1; 3] (fun r a b => memberEdge (MkEdge a r b) g = true) r a b) /\
  (forall e, memberEdge e g' = memberEdgeBack e g').
Proof.
  intros os g g'. apply (merge_exact Z.even (fun _ _ _ => (Unbounded, Unbounded)) (fun x => x) (fun rel => rel) os (hd 0) [1; 3]); [done|].
  intros x Hx. rewrite !elem_of_cons, elem_of_nil in Hx. by destruct_or! Hx; subst.
Defined.

(** A graph with a merger: 1 and 3 are merged into 1, and a relation to at most one
    has two ends then. *)
Definition zbound (r : Z) (_ _ : bool) : Cardinality * Cardinality := if r =? 2 then (Unbounded, AtMostOne) else (Unbounded, Unbounded).
Definition unmerged : Graph Z Z Z (Rel Z Z) :=
  exec_all Z.even zbound (fun x => x) (fun rel => rel) [OpConnect 1 2 4; OpConnect 3 2 6] emptyGraph.
Definition merged13 : Graph Z Z Z (Rel Z Z) := mergeResources Z.even (fun x => x) (fun rel => rel) (hd 0) [1; 3] unmerged.

Lemma made_unmerged : made Z.even zbound (fun x => x) (fun rel => rel) false unmerged.
Proof.
  exact (made_exec _ _ _ _ false (OpConnect 3 2 6) _ (made_exec _ _ _ _ false (OpConnect 1 2 4) _ (made_empty _ _ _ _))).
Qed.
Lemma made_merged13 : made Z.even zbound (fun x => x) (fun rel => rel) true merged13.
Proof.
  apply (made_merge _ _ _ _ false (hd 0) [1; 3] unmerged made_unmerged).
  intros x Hx. rewrite !elem_of_cons, elem_of_nil in Hx. by destruct_or! Hx; subst.
Qed.

Lemma resource_graph_invariant_witness :
  memberEdgeBack (MkEdge 1 2 4) merged13 = true /\ memberEdgeBack (MkEdge 1 2 6) merged13 = true /\
  card_ok Z.even zbound (edge (grGraph unmerged)).
Proof.
  destruct (resource_graph_invariant Z.even zbound (fun x => x) (fun rel => rel) true merged13 made_merged13) as (Hb & _ & _).
  destruct (resource_graph_invariant Z.even zbound (fun x => x) (fun rel => rel) false unmerged made_unmerged) as (_ & _ & Hc).
  rewrite <- !Hb. split; [vm_compute; reflexivity|]. split; [vm_compute; reflexivity|]. by apply Hc.
Defined.

(** Of the two ends in the merged graph [connectedTo] lists one. *)
Lemma connected_exact_witness :
  4 ∈ connectedTo Z.even zbound 1 2 true unmerged /\
  (exists y, connectedTo Z.even zbound 1 2 true merged13 = [y]) /\
  connectedTo Z.even zbound 1 2 true merged13 <> [].
Proof.
  destruct (connected_exact Z.even zbound (fun x => x) (fun rel => rel) false unmerged made_unmerged) as [H1 _].
  destruct (connected_exact Z.even zbound (fun x => x) (fun rel => rel) true merged13 made_merged13) as [H2 _].
  split; [|split].
  - destruct (H1 1 2 true) as (_ & _ & Hall). apply Hall; [by left|]. split; vm_compute; reflexivity.
  - eexists. vm_compute. reflexivity.
  - destruct (H2 1 2 true) as (_ & Hne & _). apply (Hne 4). split; vm_compute; reflexivity.
Defined.

(** From the root 4 the merged resource is kept, and with it 6. *)
Lemma collection_exact_witness :
  let g' := garbageCollect (fun x : Z => x) {[4]} merged13 in
  memberResource 6 g' = true /\ memberEdge (MkEdge 1 2 6) g' = true /\
  memberResource 4 (garbageCollect (fun x : Z => x) {[4]} unmerged) = true /\
  memberResource 6 (garbageCollect (fun x : Z => x) {[4]} unmerged) = false.
Proof.
  intros g'.
  destruct (collection_exact Z.even zbound (fun x => x) (fun rel => rel) true merged13 {[4]} made_merged13) as (_ & He & _).
  fold g' in He. split; [vm_compute; reflexivity|]. split; [|split; vm_compute; reflexivity].
  rewrite (He (MkEdge 1 2 6)); [vm_compute; reflexivity|]. left. vm_compute. reflexivity.
Defined.
End GraphMerge.
