(* ===== verification/GraphSync.v ===== *)
(** Synchronisation of the resource graph with the multimap: the change log says
    the same as the updates that were put into it, and what is read back from the
    multimap is the graph that was written, unless a key is deleted and inserted
    again between two synchronisations. *)

From stdpp Require Import gmap fin_maps.
From S2P Require Import Prelude Multimap Graph GraphOps GraphSpec.
Local Open Scope Z_scope.
Set Default Proof Using "Type".

Module GraphSync.
Import Multimap Graph GraphOps GraphSpec.

(** * The change log *)

Section Log.
Context {K V : Type} `{Countable K} `{Countable V}.
Abbreviation mm := (multimap K V).
Abbreviation ChangeLog := (ChangeLog K V).
Implicit Types (cl : ChangeLog) (k : K) (u : StoreUpdate K V) (base : mm).

Definition apply_all (us : list (StoreUpdate K V)) base : mm := foldl (fun m u => applyUpdate u m) base us.

(** What the updates of a change log do to a key. *)
Definition net cl k (o : option (gset V)) : option (gset V) :=
  if decide (k ∈ clKeys cl) then None
  else (fun s => s ∖ default ∅ (clDeletes cl !! k)) <$>
    match clInserts cl !! k with Some s => Some (default ∅ o ∪ s) | None => o end.

Lemma lookup_log cl base k : apply_all (fromChangeLog cl) base !! k = net cl k (base !! k).
Proof.
  unfold apply_all. rewrite lookup_applyUpdates. unfold fromChangeLog, net. rewrite foldl_app.
  assert (Hm : forall o, foldl (fun o u => update_key u k o) o (option_list (SetMetaInfo <$> clMeta cl)) = o) by by destruct (clMeta cl).
  rewrite Hm. cbn [foldl update_key]. rewrite !vals_toList. rewrite (decide_ext _ _ _ _ (elem_of_elements _ _)).
  destruct (decide (k ∈ clKeys cl)); [done|]. f_equal. destruct (decide _) as [Hi|Hi]; rewrite toList_keys in Hi.
  - destruct Hi as [s ->]. done.
  - by apply eq_None_not_Some in Hi as ->.
Qed.

(** Nodes in the insertion multimap are not in the removal set. *)
Definition log_ok cl : Prop := forall k, k ∈ clKeys cl -> clInserts cl !! k = None.

(** A key that the log deletes is inserted again only if the store does not have it. *)
Definition clean base cl u : Prop :=
  match u with InsertMany kvs => forall k, k ∈ kvs.*1 -> k ∈ clKeys cl -> base !! k = None | _ => True end.

Lemma elem_of_undelete k (ks : list K) (s : gset K) : k ∈ foldr (fun k s => s ∖ {[k]}) s ks <-> k ∈ s /\ k ∉ ks.
Proof. induction ks as [|k' ks IH]; simpl; [|rewrite elem_of_difference, IH]; set_unfold; tauto. Qed.
Lemma elem_of_deletes k (ks : list K) (s : gset K) : k ∈ foldr (fun k s => {[k]} ∪ s) s ks <-> k ∈ s \/ k ∈ ks.
Proof. induction ks as [|k' ks IH]; simpl; [|rewrite elem_of_union, IH]; set_unfold; tauto. Qed.

Lemma vals_filter k (kvs : list (K * list V)) (s : gset K) :
  vals k (filter (fun kv => kv.1 ∉ s) kvs) = if decide (k ∈ s) then ∅ else vals k kvs.
Proof.
  induction kvs as [|[k' vs] kvs IH]; [by destruct (decide _)|]. rewrite filter_cons, vals_cons. cbn [fst snd].
  destruct (decide (k' ∉ s)) as [Hk|Hk]; rewrite ?vals_cons, IH; cbn [fst snd]; destruct (decide (k' = k)) as [->|];
    destruct (decide (k ∈ s)); done.
Qed.

Lemma log_ok_update u cl : log_ok cl -> log_ok (updateChangeLog u cl).
Proof.
  intros Hok k. destruct cl as [i d s mi], u as [kvs|kvs|ks|mi']; simpl; try done; unfold log_ok in Hok; simpl in Hok.
  - rewrite elem_of_undelete. intros [Hk Hn]. rewrite lookup_insertMany, decide_False by done. by apply Hok.
  - intros Hk. by rewrite lookup_deleteValues, Hok.
  - rewrite elem_of_deletes, lookup_deleteKeys. intros Hk. destruct (decide (k ∈ ks)); [done|]. destruct Hk; [by apply Hok|done].
  - apply Hok.
Qed.

Lemma net_insert kvs cl base k :
  log_ok cl -> clean base cl (InsertMany kvs) ->
  net (updateChangeLog (InsertMany kvs) cl) k (base !! k) = update_key (InsertMany kvs) k (net cl k (base !! k)).
Proof.
  intros Hok Hcl. destruct cl as [i d s mi]. simpl in *. unfold net. simpl.
  rewrite (decide_ext _ _ _ _ (elem_of_undelete k kvs.*1 s)), lookup_insertMany, lookup_deleteValues.
  destruct (decide (k ∈ kvs.*1)) as [Hin|Hin].
  - rewrite decide_False by (by intros [_ ?]). destruct (decide (k ∈ s)) as [Hs|Hs].
    + rewrite (Hcl _ Hin Hs). specialize (Hok _ Hs). simpl in Hok. rewrite Hok. simpl. f_equal.
      destruct (d !! k); simpl; set_unfold; intros; tauto.
    + destruct (i !! k), (d !! k), (base !! k); simpl; f_equal; apply set_eq; intros v; set_unfold;
        destruct (decide (v ∈ vals k kvs)); tauto.
  - destruct (decide (k ∈ s)) as [Hs|Hs]; [by rewrite decide_True|]. rewrite decide_False by (by intros [? _]).
    rewrite (vals_none k kvs Hin). destruct (i !! k), (d !! k), (base !! k); simpl; try done; f_equal; set_solver.
Qed.

Lemma net_update u cl base k :
  log_ok cl -> clean base cl u ->
  net (updateChangeLog u cl) k (base !! k) = update_key u k (net cl k (base !! k)).
Proof.
  intros Hok Hcl. destruct u as [kvs|kvs|ks|mi']; [by apply net_insert|destruct cl as [i d s mi]; unfold net; simpl..].
  - destruct (decide (k ∈ s)) as [Hs|Hs]; [done|]. rewrite lookup_deleteValues, lookup_insertMany, vals_filter, (decide_False (P := k ∈ s)) by done.
    assert (Hd : default ∅ (if decide (k ∈ (filter (fun kv => kv.1 ∉ s) kvs).*1) then Some (default ∅ (d !! k) ∪ vals k kvs) else d !! k)
      = default ∅ (d !! k) ∪ vals k kvs).
    { destruct (decide _) as [Hi|Hi]; [done|]. apply vals_none in Hi. rewrite vals_filter, (decide_False (P := k ∈ s)) in Hi by done.
      rewrite Hi. set_solver. }
    rewrite Hd. destruct (i !! k), (base !! k); simpl; try done; f_equal; set_solver.
  - rewrite (decide_ext _ _ _ _ (elem_of_deletes k ks s)), !lookup_deleteKeys. destruct (decide (k ∈ ks)) as [Hi|Hi].
    + by rewrite decide_True by by right.
    + destruct (decide (k ∈ s)) as [Hs|Hs]; [by rewrite decide_True by by left|]. rewrite decide_False by tauto. done.
  - done.
Qed.

Lemma log_update u cl base :
  log_ok cl -> clean base cl u ->
  apply_all (fromChangeLog (updateChangeLog u cl)) base = applyUpdate u (apply_all (fromChangeLog cl) base).
Proof. intros Hok Hcl. apply map_eq. intros k. rewrite lookup_applyUpdate, !lookup_log. by apply net_update. Qed.

Lemma log_empty base : apply_all (fromChangeLog emptyChangeLog) base = base.
Proof.
  apply map_eq. intros k. rewrite lookup_log. unfold net. simpl. rewrite decide_False by set_solver.
  rewrite !lookup_empty. destruct (base !! k); simpl; [|done]. f_equal. set_solver.
Qed.

Definition log_all (us : list (StoreUpdate K V)) cl : ChangeLog := foldl (fun cl u => updateChangeLog u cl) cl us.
#[export] Instance clean_dec base cl u : Decision (clean base cl u).
Proof.
  destruct u as [kvs|kvs|ks|mi]; simpl; [|apply _..].
  destruct (decide (Forall (fun k => k ∉ clKeys cl \/ base !! k = None) kvs.*1)) as [Hd|Hd]; rewrite list.Forall_forall in Hd; [left|right].
  - intros k Hk Hs. by destruct (Hd k Hk).
  - intros Hc. apply Hd. intros k Hk. destruct (decide (k ∈ clKeys cl)); [right; by apply Hc|by left].
Defined.
Fixpoint clean_all base cl (us : list (StoreUpdate K V)) : bool :=
  match us with [] => true | u :: us => bool_decide (clean base cl u) && clean_all base (updateChangeLog u cl) us end.

Lemma log_all_spec us cl base :
  log_ok cl -> clean_all base cl us = true ->
  apply_all (fromChangeLog (log_all us cl)) base = apply_all us (apply_all (fromChangeLog cl) base).
Proof.
  revert cl. induction us as [|u us IH]; intros cl Hok Hc; [done|]. simpl in Hc. apply andb_true_iff in Hc as [Hu Hc].
  apply bool_decide_eq_true in Hu. change (log_all (u :: us) cl) with (log_all us (updateChangeLog u cl)).
  change (apply_all (u :: us) ?m) with (apply_all us (applyUpdate u m)). rewrite IH; [|by apply log_ok_update|done]. by rewrite log_update.
Qed.
Lemma log_all_meta us cl : clMeta (log_all us cl) = match list.last (metas us) with Some mi => Some mi | None => clMeta cl end.
Proof.
  revert cl. induction us as [|u us IH]; intros cl; [done|]. change (log_all (u :: us) cl) with (log_all us (updateChangeLog u cl)).
  rewrite IH. destruct u as [| | |mi], cl; try done. change (metas (SetMetaInfo mi :: us)) with (mi :: metas us).
  rewrite list.last_cons. by destruct (list.last (metas us)).
Qed.
End Log.

(** * The operations as updates of the graph *)

Section Raw.
Context {R Res : Type} `{Countable R} `{Countable Res}.
Abbreviation grmap := (multimap Res (Rel R Res)).
Implicit Types (x y : Res) (rel : Rel R Res) (m : grmap).

Lemma vals_one x (kvs : list (Res * list (Rel R Res))) x' rel :
  vals x ((x', [rel]) :: kvs) = (if decide (x = x') then {[rel]} else ∅) ∪ vals x kvs.
Proof.
  rewrite vals_cons. simpl. destruct (decide (x' = x)) as [->|Hne].
  - rewrite decide_True by done. by rewrite union_empty_r_L.
  - rewrite decide_False by done. by rewrite union_empty_l_L.
Qed.
Lemma lookup_minus m y rel x :
  alter (fun s => s ∖ {[rel]}) y m !! x = (fun s => s ∖ (if decide (x = y) then {[rel]} else ∅)) <$> m !! x.
Proof.
  destruct (decide (x = y)) as [->|]; [by rewrite lookup_alter_eq|]. rewrite lookup_alter_ne by done.
  destruct (m !! x); simpl; [|done]. by rewrite difference_empty_L.
Qed.

Lemma unhook_update l m : foldr unhookG m l = applyUpdate (DeleteValues ((fun rel => (other_end rel, [invert rel])) <$> l)) m.
Proof.
  apply map_eq. intros x. rewrite lookup_applyUpdate. cbn [update_key]. induction l as [|rel l IH]; cbn [foldr fmap list_fmap].
  - destruct (m !! x); simpl; [|done]. by rewrite difference_empty_L.
  - unfold unhookG at 1. rewrite lookup_minus, IH, vals_one. destruct (m !! x); simpl; [|done]. f_equal. set_solver.
Qed.
Lemma delete_update x y rel rel' m :
  alter (fun s => s ∖ {[rel]}) x (alter (fun s => s ∖ {[rel']}) y m) = applyUpdate (DeleteValues [(x, [rel]); (y, [rel'])]) m.
Proof.
  apply map_eq. intros z. rewrite lookup_applyUpdate. cbn [update_key]. rewrite !lookup_minus, !vals_one.
  destruct (m !! z); simpl; [|done]. f_equal. set_solver.
Qed.
Lemma insert_update x y rel rel' m :
  insertRel x rel (insertRel y rel' m) = applyUpdate (InsertMany [(x, [rel]); (y, [rel'])]) m.
Proof.
  apply map_eq. intros z. rewrite lookup_applyUpdate. cbn [update_key]. rewrite !vals_one. unfold insertRel.
  destruct (decide (z = x)) as [->|Hx].
  - rewrite lookup_partial_alter_eq, (decide_True (P := x ∈ _)) by by left. f_equal. destruct (decide (x = y)) as [<-|Hy].
    + rewrite lookup_partial_alter_eq. simpl. set_solver.
    + rewrite lookup_partial_alter_ne by done. set_solver.
  - rewrite lookup_partial_alter_ne by done. destruct (decide (z = y)) as [->|Hy].
    + rewrite lookup_partial_alter_eq, (decide_True (P := y ∈ _)) by (right; by left). f_equal. set_solver.
    + rewrite lookup_partial_alter_ne, (decide_False (P := z ∈ _)) by (done || by intros [?|[?|?%elem_of_nil]%elem_of_cons]%elem_of_cons). done.
Qed.
End Raw.

(** * The store of a graph *)

Section Sync.
Context {T R Res K V : Type} `{EqDecision T} `{Countable R} `{Countable Res} `{Countable K} `{Countable V}.
Context (typeOf : Res -> T) (cardinalities : R -> T -> T -> Cardinality * Cardinality).
Context (encodeRes : Res -> K) (encodeRel : Rel R Res -> V) `{!Inj (=) (=) encodeRes} `{!Inj (=) (=) encodeRel}.
Abbreviation Graph := (Graph R Res K V).
Abbreviation grmap := (multimap Res (Rel R Res)).
Abbreviation store := (MetaInfo K * multimap K V)%type.
Implicit Types (x y : Res) (r : R) (rel : Rel R Res) (m : grmap) (g : Graph) (st : store) (o : op T R Res).

Definition store_of m : multimap K V := kmap encodeRes ((set_map encodeRel : gset (Rel R Res) -> gset V) <$> m).

Lemma lookup_store m x : store_of m !! encodeRes x = set_map encodeRel <$> m !! x.
Proof using Inj0 Inj1. unfold store_of. by rewrite (lookup_kmap encodeRes), lookup_fmap. Qed.
Lemma lookup_store_None m k : (forall x, k <> encodeRes x) -> store_of m !! k = None.
Proof using Inj0 Inj1. intros Hk. apply (lookup_kmap_None encodeRes). intros x ->. by destruct (Hk x). Qed.

(** Updates of the graph itself, and their encodings. *)
Definition enc_pair (kv : Res * list (Rel R Res)) : K * list V := (encodeRes kv.1, encodeRel <$> kv.2).
Definition enc_pairs (kvs : list (Res * list (Rel R Res))) : list (K * list V) := enc_pair <$> kvs.
Definition enc_update (u : StoreUpdate Res (Rel R Res)) : StoreUpdate K V :=
  match u with
  | InsertMany kvs => InsertMany (enc_pairs kvs)
  | DeleteValues kvs => DeleteValues (enc_pairs kvs)
  | DeleteKeys ks => DeleteKeys (encodeRes <$> ks)
  | SetMetaInfo mi => SetMetaInfo (MkMetaInfo (miSinceGC mi) (miGCThreshold mi) (encodeRes <$> miRootNodes mi))
  end.

Lemma vals_enc x kvs : vals (encodeRes x) (enc_pairs kvs) = set_map encodeRel (vals x kvs).
Proof using Inj0 Inj1.
  apply set_eq. intros v. rewrite elem_of_vals, elem_of_map. unfold enc_pairs. split.
  - intros (vs & ([x' l] & [= Hx ->] & Hin)%list_elem_of_fmap & (rel & -> & Hrel)%list_elem_of_fmap). simpl in *.
    apply (inj encodeRes) in Hx as <-. exists rel. split; [done|]. apply elem_of_vals. by exists l.
  - intros (rel & -> & (l & Hin & Hrel)%elem_of_vals). exists (encodeRel <$> l). split.
    + exact (list_elem_of_fmap_2 enc_pair _ (x, l) Hin).
    + by apply list_elem_of_fmap_2.
Qed.
Lemma enc_keys (kvs : list (Res * list (Rel R Res))) : (enc_pairs kvs).*1 = encodeRes <$> kvs.*1.
Proof. unfold enc_pairs. by rewrite <- !list_fmap_compose. Qed.
Lemma elem_of_enc x (l : list Res) : encodeRes x ∈ encodeRes <$> l <-> x ∈ l.
Proof using Inj0 Inj1.
  split; [|apply list_elem_of_fmap_2]. intros (x' & ->%(inj encodeRes) & Hin)%list_elem_of_fmap. done.
Qed.

Lemma set_map_difference_inj (s1 s2 : gset (Rel R Res)) :
  (set_map encodeRel (s1 ∖ s2) : gset V) = set_map encodeRel s1 ∖ set_map encodeRel s2.
Proof using Inj0 Inj1.
  apply set_eq. intros v. rewrite elem_of_difference, !elem_of_map. split.
  - intros (rel & -> & [Hin Hn]%elem_of_difference). split; [by exists rel|]. by intros (rel' & ->%(inj encodeRel) & ?).
  - intros [(rel & -> & Hin) Hn]. exists rel. split; [done|]. apply elem_of_difference. split; [done|]. intros Hin2.
    apply Hn. by exists rel.
Qed.

(** Updating the graph and encoding it is encoding it and updating the store. *)
Lemma store_of_update u m : store_of (applyUpdate u m) = applyUpdate (enc_update u) (store_of m).
Proof using Inj0 Inj1.
  apply map_eq. intros k. rewrite lookup_applyUpdate.
  destruct (decide (k ∈ encodeRes <$> (elements (dom m) ++ match u with InsertMany kvs => kvs.*1 | _ => [] end))) as [Hk|Hk].
  - apply list_elem_of_fmap in Hk as (x & -> & _). rewrite !lookup_store, lookup_applyUpdate.
    destruct u as [kvs|kvs|ks|mi]; simpl; [..|done]; rewrite ?vals_enc, ?enc_keys, ?(decide_ext _ _ _ _ (elem_of_enc x _)).
    + destruct (decide _); [|done]. simpl. f_equal. rewrite set_map_union_L. f_equal. destruct (m !! x); simpl; [done|].
      by rewrite set_map_empty.
    + destruct (m !! x); simpl; [|done]. f_equal. apply set_map_difference_inj.
    + by destruct (decide _).
  - assert (Hn : forall x, k = encodeRes x -> m !! x = None /\ match u with InsertMany kvs => x ∉ kvs.*1 | _ => True end).
    { intros x ->. rewrite elem_of_enc, elem_of_app, elem_of_elements in Hk. split.
      - apply not_elem_of_dom. intros Hd. apply Hk. by left.
      - destruct u; try done. intros Hin. apply Hk. by right. }
    assert (Hs : store_of m !! k = None).
    { destruct (store_of m !! k) as [s|] eqn:Hs; [|done]. unfold store_of in Hs.
      apply (lookup_kmap_Some encodeRes) in Hs as (x & Hx & Hl). destruct (Hn x Hx) as [Hm _].
      by rewrite lookup_fmap, Hm in Hl. }
    trans (None : option (gset V)).
    + destruct (store_of (applyUpdate u m) !! k) as [s'|] eqn:Hs'; [|done]. unfold store_of in Hs'.
      apply (lookup_kmap_Some encodeRes) in Hs' as (x & Hx & Hl'). destruct (Hn x Hx) as [Hm Hu].
      rewrite lookup_fmap, lookup_applyUpdate, Hm in Hl'. destruct u as [kvs|kvs|ks|mi]; simpl in Hl'; try done.
      * by rewrite decide_False in Hl'.
      * by destruct (decide _).
    + rewrite Hs. destruct u as [kvs|kvs|ks|mi]; simpl; try done; [|by destruct (decide _)].
      rewrite enc_keys, decide_False; [done|]. intros Hin. apply Hk. rewrite fmap_app. apply elem_of_app. by right.
Qed.

(** * What is kept *)

(** The log has what is missing in the store. *)
Definition synced (base : multimap K V) (cl : ChangeLog K V) m : Prop :=
  log_ok cl /\ apply_all (fromChangeLog cl) base = store_of m.
Definition sinv st g : Prop :=
  synced st.2 (grChangeLog g) (grGraph g) /\ default st.1 (clMeta (grChangeLog g)) = metaOf encodeRes (grGraphGCInfo g).

Lemma synced_update base cl m u :
  synced base cl m -> clean base cl (enc_update u) -> synced base (updateChangeLog (enc_update u) cl) (applyUpdate u m).
Proof using Inj0 Inj1.
  intros [Hok He] Hc. split; [by apply log_ok_update|]. by rewrite log_update, He, store_of_update.
Qed.
Lemma synced_meta base cl m mi : synced base cl m -> synced base (updateChangeLog (SetMetaInfo mi) cl) m.
Proof. intros [Hok He]. split; [by apply log_ok_update|]. by rewrite log_update, He. Qed.
Lemma meta_update u (cl : ChangeLog K V) : (forall mi, u <> SetMetaInfo mi) -> clMeta (updateChangeLog u cl) = clMeta cl.
Proof. destruct cl, u; try done. intros Hm. by destruct (Hm mi). Qed.

Lemma sinv_update u st g :
  (forall mi, u <> SetMetaInfo mi) -> clean st.2 (grChangeLog g) (enc_update u) -> sinv st g ->
  sinv st (over_changeLog (updateChangeLog (enc_update u)) (over_graph (applyUpdate u) g)).
Proof using Inj0 Inj1.
  intros Hm Hc [Hs Hmeta]. split; simpl; [by apply synced_update|]. rewrite meta_update; [done|].
  intros mi Hu. destruct u; try done. by destruct (Hm mi0).
Qed.
Lemma sinv_gc f st g : sinv st g -> sinv st (modifyGCInfo encodeRes f g).
Proof. intros [Hs _]. split; [by apply synced_meta|]. unfold modifyGCInfo. cbn [grChangeLog]. destruct (grChangeLog g). reflexivity. Qed.

Lemma sinv_step u f st g :
  f (grGraph g) = applyUpdate u (grGraph g) -> (forall mi, u <> SetMetaInfo mi) ->
  clean st.2 (grChangeLog g) (enc_update u) -> sinv st g ->
  sinv st (over_changeLog (updateChangeLog (enc_update u)) (over_graph f g)).
Proof using Inj0 Inj1. intros Hf Hm Hc Hs. unfold over_graph. rewrite Hf. by apply (sinv_update u st g). Qed.

(** ** Operation by operation *)

Lemma deleteEdge_sinv e st g : sinv st g -> sinv st (deleteEdge encodeRes encodeRel e g).
Proof using Inj0 Inj1.
  intros Hs. unfold deleteEdge. apply sinv_gc. destruct (queryRes (edgeSrc e) g) as [src|]; [|done]. cbn [mbind option_bind].
  destruct (queryRel _ _) as [rel|]; [|done]. cbn [mbind option_bind]. destruct (queryRes (edgeDst e) g) as [dst|]; [|done].
  apply (sinv_step (DeleteValues [(src, [rel]); (dst, [invert rel])])); [apply delete_update|done|done|done].
Qed.
Lemma deleteEdges_sinv es st g : sinv st g -> sinv st (deleteEdges encodeRes encodeRel es g).
Proof using Inj0 Inj1. intros Hs. induction es as [|e es IH]; [done|]. exact (deleteEdge_sinv e st _ IH). Qed.

Lemma updateChangeLog_keys kvs (cl : ChangeLog K V) : clKeys (updateChangeLog (DeleteValues kvs) cl) = clKeys cl.
Proof. by destruct cl. Qed.
Lemma incrementGC_keys g : clKeys (grChangeLog (incrementGC encodeRes g)) = clKeys (grChangeLog g).
Proof. unfold incrementGC, modifySinceGC, modifyGCInfo. cbn [grChangeLog]. by destruct (grChangeLog g). Qed.
Lemma deleteEdge_keys e g : clKeys (grChangeLog (deleteEdge encodeRes encodeRel e g)) = clKeys (grChangeLog g).
Proof.
  unfold deleteEdge. rewrite incrementGC_keys. destruct (queryRes (edgeSrc e) g) as [src|]; [|done]. cbn [mbind option_bind].
  destruct (queryRel _ _) as [rel|]; [|done]. cbn [mbind option_bind]. destruct (queryRes (edgeDst e) g) as [dst|]; [|done].
  apply updateChangeLog_keys.
Qed.
Lemma deleteEdges_keys es g : clKeys (grChangeLog (deleteEdges encodeRes encodeRel es g)) = clKeys (grChangeLog g).
Proof. induction es as [|e es IH]; [done|]. exact (eq_trans (deleteEdge_keys e _) IH). Qed.

(** Connecting does not bring back a resource that was removed since the last
    synchronisation, unless the store does not have it. *)
Definition clean_connect st g x y : bool :=
  bool_decide (clean st.2 (grChangeLog g) (InsertMany [(encodeRes x, []); (encodeRes y, [])])).

Lemma connectUnbounded_sinv x r y st g g' :
  clean_connect st g x y = true -> clKeys (grChangeLog g') = clKeys (grChangeLog g) -> sinv st g' ->
  sinv st (connectUnbounded encodeRes encodeRel x r y g').
Proof using Inj0 Inj1.
  intros Hc%bool_decide_eq_true Hk Hs.
  apply (sinv_step (InsertMany [(x, [OutRel r x y]); (y, [InRel r x y])])); [apply insert_update|done| |done].
  simpl in *. by rewrite Hk.
Qed.
Lemma connect_sinv x r y st g :
  clean_connect st g x y = true -> sinv st g -> sinv st (connect typeOf cardinalities encodeRes encodeRel x r y g).
Proof using Inj0 Inj1.
  intros Hc Hs. unfold connect, connectUnique, connectUniqueTo, connectUniqueFrom, disconnectAllFrom, disconnectAllTo.
  destruct (cardinalities _ _ _) as [[|] [|]]; apply (connectUnbounded_sinv x r y st g); rewrite ?deleteEdges_keys;
    try reflexivity; try exact Hc; repeat apply deleteEdges_sinv; exact Hs.
Qed.
Lemma removeResource_sinv x st g : sinv st g -> sinv st (removeResource encodeRes encodeRel x g).
Proof using Inj0 Inj1.
  intros Hs. unfold removeResource. destruct (queryRes x g) as [res|]; [|done].
  set (l := elements (lookupRes x g)).
  pose proof (sinv_step (DeleteValues ((fun rel => (other_end rel, [invert rel])) <$> l)) (fun m => foldr unhookG m l) st g
    (unhook_update l _) ltac:(done) ltac:(done) Hs) as Hs1.
  pose proof (sinv_step (DeleteKeys [res]) (delete res) st _ eq_refl ltac:(done) ltac:(done) Hs1) as Hs2.
  unfold enc_update, enc_pairs in Hs2. rewrite <- list_fmap_compose in Hs2. exact Hs2.
Qed.
Lemma garbageCollect_sinv (roots : gset Res) st g : sinv st g -> sinv st (garbageCollect encodeRes roots g).
Proof using Inj0 Inj1.
  intros Hs. unfold garbageCollect. set (l := elements _).
  exact (sinv_step (DeleteKeys l) (fun m => foldl (fun m' x => delete x m') m l) st g eq_refl ltac:(done) ltac:(done) Hs).
Qed.
Lemma garbageCollectRoot_sinv st g : sinv st g -> sinv st (garbageCollectRoot encodeRes g).
Proof using Inj0 Inj1. intros Hs. apply sinv_gc. by apply garbageCollect_sinv. Qed.

Lemma sync_sinv st g : sinv st g -> sinv (updateStore (sync encodeRes g).2 st) (sync encodeRes g).1.
Proof using Inj0 Inj1.
  intros Hs. assert (Hs' : sinv st (runGCIfThresholdMet encodeRes g)).
  { unfold runGCIfThresholdMet. destruct (shouldGC g); [by apply garbageCollectRoot_sinv|done]. }
  unfold sync, takeChangeLog. set (h := runGCIfThresholdMet encodeRes g) in *. destruct Hs' as [[Hok He] Hm]. cbn [fst snd].
  split; cbn [grChangeLog grGraph grGraphGCInfo over_changeLog].
  - split; [by intros k Hk%elem_of_empty|]. rewrite log_empty. exact He.
  - cbn [clMeta emptyChangeLog default]. rewrite <- Hm. by destruct (grChangeLog h) as [? ? ? [mi|]].
Qed.

(** ** Runs, with the store *)

Definition exec_store o (s : Graph * store) : Graph * store :=
  (exec typeOf cardinalities encodeRes encodeRel o s.1,
   match o with OpSync => updateStore (sync encodeRes s.1).2 s.2 | _ => s.2 end).
Definition exec_stores (os : list (op T R Res)) (s : Graph * store) : Graph * store := foldl (fun s o => exec_store o s) s os.
Definition clean_op o (s : Graph * store) : bool :=
  match o with OpConnect x _ y => clean_connect s.2 s.1 x y | _ => true end.
Fixpoint clean_ops (os : list (op T R Res)) (s : Graph * store) : bool :=
  match os with [] => true | o :: os => clean_op o s && clean_ops os (exec_store o s) end.

Lemma exec_store_sinv o s : clean_op o s = true -> sinv s.2 s.1 -> sinv (exec_store o s).2 (exec_store o s).1.
Proof using Inj0 Inj1.
  intros Hc Hs. destruct o; cbn [exec_store exec fst snd].
  - by apply connect_sinv.
  - exact (deleteEdge_sinv (MkEdge x r y) _ _ Hs).
  - by apply deleteEdges_sinv.
  - by apply deleteEdges_sinv.
  - by apply removeResource_sinv.
  - by apply garbageCollect_sinv.
  - by apply garbageCollectRoot_sinv.
  - by apply sinv_gc.
  - by apply sinv_gc.
  - by apply sinv_gc.
  - by apply sync_sinv.
Qed.
Lemma exec_stores_sinv os s : clean_ops os s = true -> sinv s.2 s.1 -> sinv (exec_stores os s).2 (exec_stores os s).1.
Proof using Inj0 Inj1.
  revert s. induction os as [|o os IH]; intros s Hc Hs; [done|]. simpl in Hc. apply andb_true_iff in Hc as [Ho Hc].
  apply (IH (exec_store o s)); [done|]. by apply exec_store_sinv.
Qed.

Definition start : Graph * store := (emptyGraph, (defaultMetaInfo, ∅)).
Lemma start_sinv : sinv start.2 start.1.
Proof.
  split; [|done]. split; [by intros k Hk%elem_of_empty|]. change (apply_all (fromChangeLog emptyChangeLog) ∅ = store_of ∅).
  rewrite log_empty. unfold store_of. by rewrite fmap_empty, kmap_empty.
Qed.

(** ** Reading back *)

Context (decodeRes : K -> Res) (decodeUniversalRel : V -> Rel R Res).
Hypothesis decodeRes_encode : forall x, decodeRes (encodeRes x) = x.
Hypothesis decodeRel_encode : forall rel, decodeUniversalRel (encodeRel rel) = rel.

Definition decode_pair (kv : K * list V) : Res * gset (Rel R Res) := (decodeRes kv.1, list_to_set (decodeUniversalRel <$> kv.2)).

Lemma decode_set (s : gset (Rel R Res)) :
  list_to_set (decodeUniversalRel <$> elements (set_map encodeRel s : gset V)) = s.
Proof using decodeRel_encode.
  apply set_eq. intros rel. rewrite elem_of_list_to_set, list_elem_of_fmap. setoid_rewrite elem_of_elements.
  setoid_rewrite elem_of_map. split.
  - intros (v & -> & rel' & -> & Hin). by rewrite decodeRel_encode.
  - intros Hin. exists (encodeRel rel). rewrite decodeRel_encode. split; [done|]. by exists rel.
Qed.

Lemma elem_of_decoded m x s : (x, s) ∈ decode_pair <$> toList (store_of m) <-> m !! x = Some s.
Proof using Inj0 Inj1 decodeRes_encode decodeRel_encode.
  unfold toList. rewrite <- list_fmap_compose, list_elem_of_fmap. split.
  - intros ([k vs] & Hp & Hin%elem_of_map_to_list). unfold store_of in Hin.
    apply (lookup_kmap_Some encodeRes) in Hin as (x' & -> & Hl). rewrite lookup_fmap in Hl.
    destruct (m !! x') as [s'|] eqn:Hm; [|done]. injection Hl as <-. unfold decode_pair in Hp. cbn [compose fst snd] in Hp.
    rewrite decodeRes_encode, decode_set in Hp. by injection Hp as -> ->.
  - intros Hm. exists (encodeRes x, set_map encodeRel s). unfold decode_pair. cbn [compose fst snd].
    rewrite decodeRes_encode, decode_set. split; [done|]. apply elem_of_map_to_list. by rewrite lookup_store, Hm.
Qed.

Lemma decoded_NoDup m : NoDup (decode_pair <$> toList (store_of m)).*1.
Proof using Inj0 Inj1 decodeRes_encode decodeRel_encode.
  unfold toList. rewrite <- !list_fmap_compose. change (NoDup ((fun kv => decodeRes kv.1) <$> map_to_list (store_of m))).
  change (fun kv : K * gset V => decodeRes kv.1) with (decodeRes ∘ (fst : K * gset V -> K)). rewrite list_fmap_compose.
  apply NoDup_fmap_2_strong; [|apply NoDup_fst_map_to_list].
  assert (Hk : forall k, k ∈ (map_to_list (store_of m)).*1 -> exists x, k = encodeRes x).
  { intros k ([k' s] & -> & Hin%elem_of_map_to_list)%list_elem_of_fmap. unfold store_of in Hin.
    apply (lookup_kmap_Some encodeRes) in Hin as (x & -> & _). by exists x. }
  intros k1 k2 (x1 & ->)%Hk (x2 & ->)%Hk. by rewrite !decodeRes_encode; intros ->.
Qed.

Lemma getGraph_synced st g :
  sinv st g -> grChangeLog g = emptyChangeLog -> getGraph decodeRes decodeUniversalRel st = g.
Proof using Inj0 Inj1 decodeRes_encode decodeRel_encode.
  intros [[_ He] Hm] Hcl. destruct g as [cl m [since thr roots]]. cbn [grChangeLog grGraph grGraphGCInfo] in *. subst cl.
  rewrite log_empty in He. cbn [clMeta emptyChangeLog default] in Hm. destruct st as [mi s]. cbn [fst snd] in *. subst s mi.
  unfold getGraph, buildGraph. cbn [fst snd metaOf miSinceGC miGCThreshold miRootNodes grSinceGC grGCThreshold grRootNodes]. f_equal.
  - change (list_to_map (reverse (decode_pair <$> toList (store_of m))) = m). apply map_eq. intros x.
    apply option_eq. intros s. rewrite <- elem_of_list_to_map.
    + by rewrite elem_of_reverse, elem_of_decoded.
    + rewrite reverse_Permutation. apply decoded_NoDup.
  - f_equal. rewrite <- list_fmap_compose. rewrite <- (list_fmap_id roots) at 2. apply list_fmap_ext. intros ? x _. apply decodeRes_encode.
Qed.
End Sync.

(** * What synchronisation promises *)

(** C22. The updates of a change log are equivalent to the updates that were put
    into it: applied to the store they give the same map, however the updates of a
    key were merged, and of the collector's settings the last is kept. This needs
    that no key of the store is deleted and then inserted again by the updates. *)
Theorem changelog_equivalent {K V} `{Countable K} `{Countable V} (us : list (StoreUpdate K V)) (base : multimap K V) :
  clean_all base emptyChangeLog us = true ->
  apply_all (fromChangeLog (log_all us emptyChangeLog)) base = apply_all us base /\
  metas (fromChangeLog (log_all us emptyChangeLog)) = option_list (list.last (metas us)).
Proof.
  intros Hc. split.
  - rewrite log_all_spec, log_empty; [done| |done]. by intros k Hk%elem_of_empty.
  - pose proof (log_all_meta us emptyChangeLog) as Hm. unfold fromChangeLog, metas at 1. rewrite Hm. simpl.
    by destruct (list.last (metas us)).
Qed.

Definition witness_updates : list (StoreUpdate Z Z) :=
  [InsertMany [(1, [10; 11]); (2, [20])]; DeleteValues [(1, [10]); (3, [30])]; DeleteKeys [2]; InsertMany [(3, [30])];
   SetMetaInfo (MkMetaInfo 1 100 []); DeleteKeys [4]; SetMetaInfo (MkMetaInfo 2 100 [1])].
Lemma changelog_equivalent_witness :
  let base : multimap Z Z := {[3 := {[30; 31]}; 4 := {[40]}]} in
  apply_all (fromChangeLog (log_all witness_updates emptyChangeLog)) base = apply_all witness_updates base /\
  metas (fromChangeLog (log_all witness_updates emptyChangeLog)) = option_list (list.last (metas witness_updates)).
Proof. intros base. apply (changelog_equivalent witness_updates base). vm_compute. reflexivity. Defined.

(** C7. Writing the graph and reading it back. After any operations, with
    synchronisations among them, the graph that is read from the multimap after a
    synchronisation is the graph that the synchronisation went on with: nodes,
    edges, roots and counters. This needs that between two synchronisations no
    resource is removed and connected again. *)
Theorem sync_roundtrip {T R Res K V : Type} `{EqDecision T} `{Countable R} `{Countable Res} `{Countable K} `{Countable V}
    (typeOf : Res -> T) cardinalities (encodeRes : Res -> K) (encodeRel : Rel R Res -> V) decodeRes decodeUniversalRel os :
  (forall x, decodeRes (encodeRes x) = x) -> (forall rel, decodeUniversalRel (encodeRel rel) = rel) ->
  clean_ops typeOf cardinalities encodeRes encodeRel os start = true ->
  let '(g, st) := exec_stores typeOf cardinalities encodeRes encodeRel os start in
  getGraph decodeRes decodeUniversalRel (updateStore (sync encodeRes g).2 st) = (sync encodeRes g).1.
Proof.
  intros Hd1 Hd2 Hc. assert (Inj (=) (=) encodeRes) by (intros x y Hxy; rewrite <- (Hd1 x), Hxy; apply Hd1).
  assert (Inj (=) (=) encodeRel) by (intros x y Hxy; rewrite <- (Hd2 x), Hxy; apply Hd2).
  pose proof (exec_stores_sinv typeOf cardinalities encodeRes encodeRel os start Hc (start_sinv _ _)) as Hs.
  destruct (exec_stores _ _ _ _ os start) as [g st]. apply (getGraph_synced encodeRes encodeRel); [done|done| |done].
  by apply sync_sinv.
Qed.

(** Resources are numbers, the type of one is its parity; encodings are as they are. *)
Abbreviation zop := (op bool Z Z).
Definition zcard (r : Z) (_ _ : bool) : Cardinality * Cardinality := if r =? 1 then (AtMostOne, AtMostOne) else (Unbounded, Unbounded).
Definition zexec (os : list zop) : Graph Z Z Z (Rel Z Z) * (MetaInfo Z * multimap Z (Rel Z Z)) :=
  exec_stores Z.even zcard (fun x => x) (fun rel => rel) os start.
Abbreviation zread st := (getGraph (fun x : Z => x) (fun rel : Rel Z Z => rel) st).

Lemma sync_roundtrip_witness :
  let os : list zop := [OpConnect 1 1 2; OpConnect 3 2 2; OpSync; OpConnect 1 1 4; OpRemove 3; OpSync; OpConnect 3 2 4; OpAddRoot 1] in
  let '(g, st) := zexec os in zread (updateStore (sync (fun x => x) g).2 st) = (sync (fun x => x) g).1.
Proof.
  apply (sync_roundtrip Z.even zcard (fun x => x) (fun rel => rel) (fun x => x) (fun rel => rel)); [done|done|].
  vm_compute. reflexivity.
Defined.

(** Without that, half of an edge comes back. A resource that is removed and
    connected again before the graph is synchronised keeps its old relations in the
    multimap, since inserting its key takes it out of the keys to delete: the graph
    that is read back has an edge that the graph does not have, at one end only. *)
Theorem removed_then_connected_comes_back :
  let '(g, st) := zexec [OpConnect 1 2 2; OpSync; OpRemove 1; OpConnect 1 2 4; OpSync] in
  memberEdge (MkEdge 1 2 2) g = false /\
  memberEdge (MkEdge 1 2 2) (zread st) = true /\ memberEdgeBack (MkEdge 1 2 2) (zread st) = false.
Proof. vm_compute. done. Qed.

(** Merging into one of the merged resources does the same, in one step: the
    relations among the merged resources stay in the multimap. *)
Lemma merged_edge_comes_back :
  let '(g, st) := zexec [OpConnect 1 2 3; OpConnect 1 2 4; OpSync] in
  let g' := mergeResources Z.even (fun x => x) (fun rel => rel) (hd 0) [1; 3] g in
  let st' := updateStore (sync (fun x => x) g').2 st in
  memberResource 3 g' = false /\ memberEdge (MkEdge 1 2 3) g' = false /\
  memberResource 3 (zread st') = false /\ memberEdge (MkEdge 1 2 3) (zread st') = true.
Proof. vm_compute. done. Qed.

(** Merging adds the edges of a relation to at most one without a check. *)
Lemma merge_exceeds_cardinality :
  let '(g, _) := zexec [OpConnect 1 1 2; OpConnect 3 1 4] in
  let g' := mergeResources Z.even (fun x => x) (fun rel => rel) (hd 0) [1; 3] g in
  memberEdge (MkEdge 1 1 2) g' = true /\ memberEdge (MkEdge 1 1 4) g' = true /\
  length (connectedTo Z.even zcard 1 1 true g') = 1%nat.
Proof. vm_compute. done. Qed.
End GraphSync.
