(* ===== verification/EventQueue.v ===== *)
(** The event queue (src/halon, HA/EventQueue/Process.hs): events that satellites
    report are recorded in replicated state until the recovery coordinator (RC) has
    handled them, and a poller sends to the coordinator those it has not had. The
    state has the events by identifier and by sequence number; it is a queue in the
    order of recording, without repeated identifiers. *)

From stdpp Require Import gmap sorting.
From S2P Require Import Prelude.
Local Open Scope Z_scope.
Set Default Proof Using "Type".

Module EventQueue.

(** Identifiers are 128-bit numbers. *)
Abbreviation UUID := Z.
Record PersistMessage := MkMessage { persistMessageId : UUID; persistMessagePrint : Z; persistMessagePayload : list Z }.
#[export] Instance message_eq_dec : EqDecision PersistMessage.
Proof. solve_decision. Defined.

(** * The replicated state *)

Definition maxSN : Z := 2 ^ 64 - 1.

Record EventQueue := MkEventQueue {
  eqSN : Z;
  eqMap : gmap UUID (PersistMessage * Z);
  eqSnMap : gmap Z UUID;
}.
Implicit Types (q : EventQueue) (msg : PersistMessage) (sn : Z).

Definition emptyEventQueue : EventQueue := MkEventQueue 0 ∅ ∅.

(** [succ] at the largest number is an error. *)
Definition succ_sn sn : option Z := if decide (sn = maxSN) then None else Some (sn + 1).

Definition addSerializedEvent msg q : option EventQueue :=
  match eqMap q !! persistMessageId msg with
  | None =>
      sn' ← succ_sn (eqSN q);
      Some (MkEventQueue sn' (<[persistMessageId msg := (msg, eqSN q)]> (eqMap q)) (<[eqSN q := persistMessageId msg]> (eqSnMap q)))
  | Some _ => Some q
  end.

Definition filterEvent (eid : UUID) q : EventQueue :=
  let me := eqMap q !! eid in
  MkEventQueue (eqSN q) (delete eid (eqMap q)) (match me with None => eqSnMap q | Some (_, sn) => delete sn (eqSnMap q) end).

Definition clearQueue (_ : EventQueue) : EventQueue := emptyEventQueue.

(** Keys of a map, in order. *)
Definition keys {A} (m : gmap Z A) : list Z := merge_sort Z.le (elements (dom m)).

(** [M.splitLookup]: the event at [sn], if any, and those after it. *)
Definition eqReadEvents sn q : Z * list PersistMessage :=
  let muuid := eqSnMap q !! sn in
  let evs := omap (fun k => eqSnMap q !! k) (filter (fun k => sn < k) (keys (eqSnMap q))) in
  (eqSN q, omap (fun uuid => fst <$> eqMap q !! uuid) (option_list muuid ++ evs)).

Definition eqReadStats q : nat * list UUID := (size (eqMap q), keys (eqMap q)).

(** * The queue *)

(** Events with their sequence numbers, in the order of recording. *)
Abbreviation items := (list (Z * PersistMessage)).
Implicit Types (l : items).

Definition ids l : list UUID := (fun it => persistMessageId it.2) <$> l.
Definition a_add msg (a : Z * items) : Z * items :=
  if decide (persistMessageId msg ∈ ids a.2) then a else (a.1 + 1, a.2 ++ [(a.1, msg)]).
Definition a_filter (eid : UUID) (a : Z * items) : Z * items := (a.1, filter (fun it => persistMessageId it.2 <> eid) a.2).
Definition a_clear (_ : Z * items) : Z * items := (0, []).
Definition a_read sn (a : Z * items) : Z * list PersistMessage := (a.1, (filter (fun it => sn <= it.1) a.2).*2).

Definition sn_lt (a b : Z * PersistMessage) : Prop := a.1 < b.1.

Record abs q (a : Z * items) : Prop := {
  abs_sn : eqSN q = a.1;
  abs_map id m sn : eqMap q !! id = Some (m, sn) <-> (sn, m) ∈ a.2 /\ persistMessageId m = id;
  abs_snmap sn id : eqSnMap q !! sn = Some id <-> exists m, (sn, m) ∈ a.2 /\ persistMessageId m = id;
  abs_sorted : StronglySorted sn_lt a.2;
  abs_ids : NoDup (ids a.2);
  abs_range it : it ∈ a.2 -> 0 <= it.1 < a.1;
  abs_max : 0 <= a.1 <= maxSN;
}.

(** ** Sorted lists *)

Lemma sorted_snoc l it : StronglySorted sn_lt l -> (forall it', it' ∈ l -> it'.1 < it.1) -> StronglySorted sn_lt (l ++ [it]).
Proof.
  induction l as [|it0 l IH]; intros Hs Hl; simpl; [by repeat constructor|]. apply StronglySorted_inv in Hs as [Hs Hf].
  constructor; [apply IH; [done|]; intros it' Hin; apply Hl; by right|]. apply Forall_app. split; [done|].
  constructor; [|constructor]. apply Hl. by left.
Qed.
Lemma sorted_filter (P : Z * PersistMessage -> Prop) `{!forall it, Decision (P it)} l :
  StronglySorted sn_lt l -> StronglySorted sn_lt (filter P l).
Proof.
  induction 1 as [|it l Hs IH Hf]; [constructor|]. rewrite filter_cons. destruct (decide _); [|done]. constructor; [done|].
  apply list.Forall_forall. rewrite list.Forall_forall in Hf. intros it' [_ Hin]%list_elem_of_filter. by apply Hf.
Qed.
Lemma sorted_fst l : StronglySorted sn_lt l -> StronglySorted Z.le l.*1.
Proof.
  induction 1 as [|it l Hs IH Hf]; [constructor|]. simpl. constructor; [done|]. apply list.Forall_forall. rewrite list.Forall_forall in Hf.
  intros sn (it' & -> & Hin)%list_elem_of_fmap. apply Hf in Hin. unfold sn_lt in Hin. lia.
Qed.
Lemma sorted_NoDup l : StronglySorted sn_lt l -> NoDup l.*1.
Proof.
  induction 1 as [|it l Hs IH Hf]; simpl; constructor; [|done]. intros (it' & Heq & Hin)%list_elem_of_fmap.
  rewrite list.Forall_forall in Hf. apply Hf in Hin. unfold sn_lt in Hin. lia.
Qed.
Lemma sorted_split sn l :
  StronglySorted sn_lt l -> filter (fun it => it.1 < sn) l ++ filter (fun it => sn <= it.1) l = l.
Proof.
  induction 1 as [|it l Hs IH Hf]; [done|]. rewrite !filter_cons. destruct (decide (it.1 < sn)) as [Hlt|Hge].
  - rewrite (decide_False (P := sn <= it.1)) by lia. simpl. by rewrite IH.
  - rewrite (decide_True (P := sn <= it.1)) by lia. assert (Hnil : filter (fun it => it.1 < sn) l = []).
    { apply filter_none. apply list.Forall_forall. rewrite list.Forall_forall in Hf. intros it' Hin. apply Hf in Hin. unfold sn_lt in Hin. lia. }
    rewrite Hnil in IH |- *. simpl in *. by rewrite IH.
Qed.

(** ** The operations *)

Lemma elem_of_ids l id : id ∈ ids l <-> exists sn m, (sn, m) ∈ l /\ persistMessageId m = id.
Proof.
  unfold ids. rewrite list_elem_of_fmap. split; [intros ([sn m] & -> & Hin); by exists sn, m|].
  intros (sn & m & Hin & <-). by exists (sn, m).
Qed.
Lemma abs_unique q a sn m sn' m' :
  abs q a -> (sn, m) ∈ a.2 -> (sn', m') ∈ a.2 -> persistMessageId m = persistMessageId m' -> sn = sn' /\ m = m'.
Proof.
  intros Ha Hin Hin' Hid. pose proof (proj2 (abs_map _ _ Ha _ m sn) (conj Hin eq_refl)) as H1.
  pose proof (proj2 (abs_map _ _ Ha _ m' sn') (conj Hin' eq_refl)) as H2. rewrite Hid, H2 in H1. by injection H1.
Qed.
Lemma abs_unique_sn q a sn m m' : abs q a -> (sn, m) ∈ a.2 -> (sn, m') ∈ a.2 -> m = m'.
Proof.
  intros Ha Hin Hin'. eapply (abs_unique q a sn m sn m'); [done..|].
  pose proof (proj2 (abs_snmap _ _ Ha sn (persistMessageId m)) (ex_intro _ m (conj Hin eq_refl))) as H1.
  pose proof (proj2 (abs_snmap _ _ Ha sn (persistMessageId m')) (ex_intro _ m' (conj Hin' eq_refl))) as H2. congruence.
Qed.
Lemma abs_member q a id : abs q a -> is_Some (eqMap q !! id) <-> id ∈ ids a.2.
Proof.
  intros Ha. rewrite elem_of_ids. split.
  - intros [[m sn] Hl]. apply (abs_map _ _ Ha) in Hl. by exists sn, m.
  - intros (sn & m & Hin & Hid). exists (m, sn). by apply (abs_map _ _ Ha).
Qed.

Lemma empty_refines : abs emptyEventQueue (0, []).
Proof.
  constructor; simpl; [done|..].
  - intros id m sn. rewrite lookup_empty, elem_of_nil. split; [done|by intros [? _]].
  - intros sn id. rewrite lookup_empty. setoid_rewrite elem_of_nil. split; [done|by intros (m & ? & _)].
  - constructor.
  - constructor.
  - intros it Hin. by apply elem_of_nil in Hin.
  - by unfold maxSN.
Qed.

Lemma add_fresh_refines msg q a :
  abs q a -> persistMessageId msg ∉ ids a.2 -> a.1 < maxSN ->
  abs (MkEventQueue (eqSN q + 1) (<[persistMessageId msg := (msg, eqSN q)]> (eqMap q)) (<[eqSN q := persistMessageId msg]> (eqSnMap q)))
    (a.1 + 1, a.2 ++ [(a.1, msg)]).
Proof.
  intros Ha Hn Hmax. pose proof Ha as [Hsn Hm Hs Hsort Hids Hr Hb]. constructor; cbn [eqSN eqMap eqSnMap fst snd].
  - by rewrite Hsn.
  - intros id m sn. rewrite elem_of_app, list_elem_of_singleton. destruct (decide (id = persistMessageId msg)) as [->|Hne].
    + rewrite lookup_insert_eq, Hsn. split; [intros [= <- <-]; by split; [right|]|]. intros [[Hin|[= -> ->]] Hid]; [|done].
      destruct Hn. apply elem_of_ids. by exists sn, m.
    + rewrite lookup_insert_ne, Hm by done. split; [intros [? ?]; by split; [left|]|]. intros [[Hin|[= -> ->]] Hid]; [done|congruence].
  - intros sn id. setoid_rewrite elem_of_app. setoid_rewrite list_elem_of_singleton. destruct (decide (sn = eqSN q)) as [->|Hne].
    + rewrite lookup_insert_eq. split.
      * intros [= <-]. exists msg. rewrite Hsn. by split; [right|].
      * intros (m & [Hin|[= _ ->]] & <-); [|done]. apply Hr in Hin. simpl in Hin. lia.
    + rewrite lookup_insert_ne, Hs by done. split; intros (m & Hin & Hid); exists m; (split; [|done]); [by left|].
      destruct Hin as [Hin|[= ? ?]]; [done|]. congruence.
  - apply sorted_snoc; [done|]. intros it Hin. simpl. apply Hr in Hin. lia.
  - unfold ids. rewrite fmap_app. apply list.NoDup_app. split; [done|]. split; [|apply NoDup_singleton].
    intros id Hin ->%list_elem_of_singleton. by apply Hn.
  - intros it [Hin|Hin]%elem_of_app; [apply Hr in Hin; lia|]. apply list_elem_of_singleton in Hin as ->. simpl. lia.
  - lia.
Qed.

Lemma add_refines msg q a : abs q a -> a.1 < maxSN -> exists q', addSerializedEvent msg q = Some q' /\ abs q' (a_add msg a).
Proof.
  intros Ha Hmax. unfold addSerializedEvent, a_add. destruct (eqMap q !! persistMessageId msg) as [p|] eqn:Hl.
  - exists q. split; [done|]. rewrite decide_True; [done|]. by apply (abs_member q a), mk_is_Some with p.
  - assert (Hn : persistMessageId msg ∉ ids a.2). { intros Hin. apply (abs_member q a) in Hin as [p Hp]; [|done]. congruence. }
    rewrite decide_False by done. unfold succ_sn. rewrite (abs_sn _ _ Ha), decide_False by lia. simpl.
    eexists. split; [done|]. pose proof (add_fresh_refines msg q a Ha Hn Hmax) as Hf. by rewrite (abs_sn _ _ Ha) in Hf.
Qed.

Lemma filter_refines eid q a : abs q a -> abs (filterEvent eid q) (a_filter eid a).
Proof.
  intros Ha. pose proof Ha as [Hsn Hm Hs Hsort Hids Hr Hb]. unfold a_filter. constructor; cbn [filterEvent eqSN eqMap eqSnMap fst snd].
  - done.
  - intros id m sn. rewrite list_elem_of_filter. simpl. destruct (decide (id = eid)) as [->|Hne].
    + rewrite lookup_delete_eq. split; [done|]. by intros [[? _] ?].
    + rewrite lookup_delete_ne, Hm by done. split; [intros [? <-]; by repeat split|by intros [[_ ?] ?]].
  - intros sn id. setoid_rewrite list_elem_of_filter. simpl. destruct (eqMap q !! eid) as [[m0 sn0]|] eqn:Hl.
    + apply Hm in Hl as [Hin0 Hid0]. destruct (decide (sn = sn0)) as [->|Hne].
      * rewrite lookup_delete_eq. split; [done|]. intros (m & [Hne Hin] & _). destruct Hne. by rewrite <- (abs_unique_sn q a sn0 m0 m Ha Hin0 Hin).
      * rewrite lookup_delete_ne, Hs by done. split; intros (m & Hin & Hid); exists m; [|by destruct Hin].
        split; [|done]. split; [|done]. intros He. destruct Hne. rewrite <- Hid0 in He. by destruct (abs_unique q a sn m sn0 m0 Ha Hin Hin0 He).
    + rewrite Hs. split; intros (m & Hin & Hid); exists m; [|by destruct Hin]. split; [|done]. split; [|done]. intros He.
      pose proof (proj2 (Hm eid m sn) (conj Hin He)). congruence.
  - by apply sorted_filter.
  - eapply sublist_NoDup; [exact Hids|]. apply fmap_sublist, sublist_filter.
  - intros it [_ Hin]%list_elem_of_filter. by apply Hr.
  - done.
Qed.

(** ** Reading *)

Lemma keys_abs q a : abs q a -> keys (eqSnMap q) = a.2.*1.
Proof.
  intros Ha. unfold keys. apply (StronglySorted_unique Z.le); [apply (StronglySorted_merge_sort Z.le)|apply sorted_fst, (abs_sorted _ _ Ha)|].
  rewrite merge_sort_Permutation. apply NoDup_Permutation; [apply NoDup_elements|apply sorted_NoDup, (abs_sorted _ _ Ha)|].
  intros sn. rewrite elem_of_elements, elem_of_dom, list_elem_of_fmap. split.
  - intros [id Hl]. apply (abs_snmap _ _ Ha) in Hl as (m & Hin & _). by exists (sn, m).
  - intros ([sn' m] & -> & Hin). exists (persistMessageId m). apply (abs_snmap _ _ Ha). by exists m.
Qed.

(** The item at [sn] and those after it are those from [sn]. *)
Lemma sorted_from sn l :
  StronglySorted sn_lt l ->
  filter (fun it => it.1 = sn) l ++ filter (fun it => sn < it.1) l = filter (fun it => sn <= it.1) l.
Proof.
  induction 1 as [|it l Hs IH Hf]; [done|]. rewrite !filter_cons. destruct (decide (it.1 = sn)) as [Heq|Hne].
  - rewrite (decide_False (P := sn < it.1)), (decide_True (P := sn <= it.1)) by lia. simpl. by rewrite IH.
  - destruct (decide (sn < it.1)) as [Hlt|Hge].
    + rewrite (decide_True (P := sn <= it.1)) by lia. assert (Hnil : filter (fun it => it.1 = sn) l = []).
      { apply filter_none, list.Forall_forall. rewrite list.Forall_forall in Hf. intros it' Hin. apply Hf in Hin. unfold sn_lt in Hin. lia. }
      rewrite Hnil in IH |- *. simpl in *. by rewrite IH.
    + rewrite (decide_False (P := sn <= it.1)) by lia. done.
Qed.

Lemma lookup_items q a l : abs q a -> (forall it, it ∈ l -> it ∈ a.2) ->
  omap (fun uuid => fst <$> eqMap q !! uuid) (omap (fun k => eqSnMap q !! k) l.*1) = l.*2.
Proof.
  intros Ha. induction l as [|[sn m] l IH]; intros Hl; [done|]. cbn [fmap list_fmap omap list_omap fst snd].
  assert (Hin : (sn, m) ∈ a.2) by (apply Hl; by left).
  rewrite (proj2 (abs_snmap _ _ Ha sn (persistMessageId m))) by by exists m. cbn [omap list_omap].
  rewrite (proj2 (abs_map _ _ Ha (persistMessageId m) m sn)) by done. simpl. f_equal. apply IH. intros it Hit. apply Hl. by right.
Qed.

Lemma sorted_one sn m l : StronglySorted sn_lt l -> (sn, m) ∈ l -> filter (fun it => it.1 = sn) l = [(sn, m)].
Proof.
  induction 1 as [|it l Hs IH Hf]; [by intros ?%elem_of_nil|]. rewrite list.Forall_forall in Hf. rewrite filter_cons.
  intros [<-|Hin]%elem_of_cons.
  - rewrite decide_True by done. f_equal. apply filter_none, list.Forall_forall. intros it' Hin. apply Hf in Hin.
    unfold sn_lt in Hin. simpl in Hin. lia.
  - rewrite decide_False; [by apply IH|]. apply Hf in Hin. unfold sn_lt in Hin. simpl in Hin. lia.
Qed.
Lemma filter_fst sn l : filter (fun k => sn < k) l.*1 = (filter (fun it => sn < it.1) l).*1.
Proof. induction l as [|it l IH]; [done|]. cbn [fmap list_fmap]. rewrite !filter_cons. destruct (decide _); simpl; by rewrite IH. Qed.

Lemma read_refines sn q a : abs q a -> eqReadEvents sn q = a_read sn a.
Proof.
  intros Ha. unfold eqReadEvents, a_read. rewrite (keys_abs q a Ha), (abs_sn _ _ Ha), filter_fst. f_equal.
  rewrite <- (sorted_from sn a.2 (abs_sorted _ _ Ha)).
  assert (Ho : option_list (eqSnMap q !! sn) = omap (fun k => eqSnMap q !! k) (filter (fun it => it.1 = sn) a.2).*1).
  { destruct (eqSnMap q !! sn) as [id|] eqn:Hl.
    - apply (abs_snmap _ _ Ha) in Hl as Hin. destruct Hin as (m & Hin & _). rewrite (sorted_one sn m _ (abs_sorted _ _ Ha) Hin).
      simpl. by rewrite Hl.
    - rewrite filter_none; [done|]. apply list.Forall_forall. intros [sn' m] Hin Heq. simpl in Heq. subst sn'.
      pose proof (proj2 (abs_snmap _ _ Ha sn (persistMessageId m)) (ex_intro _ m (conj Hin eq_refl))). congruence. }
  rewrite Ho, <- omap_app, <- fmap_app. apply (lookup_items q a); [done|].
  intros it [[_ ?]%list_elem_of_filter|[_ ?]%list_elem_of_filter]%elem_of_app; done.
Qed.

Lemma stats_refines q a :
  abs q a -> (eqReadStats q).1 = length a.2 /\ (eqReadStats q).2 ≡ₚ ids a.2 /\ Sorted Z.le (eqReadStats q).2.
Proof.
  intros Ha. assert (Hp : elements (dom (eqMap q)) ≡ₚ ids a.2).
  { apply NoDup_Permutation; [apply NoDup_elements|apply (abs_ids _ _ Ha)|]. intros id. rewrite elem_of_elements, elem_of_dom.
    by apply abs_member. }
  split; [|split].
  - simpl. rewrite <- size_dom. unfold size, set_size. simpl. rewrite Hp. unfold ids. apply length_fmap.
  - simpl. unfold keys. by rewrite merge_sort_Permutation.
  - apply (Sorted_merge_sort Z.le).
Qed.

(** ** Runs of the state *)

Inductive update := Add (msg : PersistMessage) | Filter (eid : UUID) | Clear.
Definition apply_update (u : update) q : option EventQueue :=
  match u with Add msg => addSerializedEvent msg q | Filter eid => Some (filterEvent eid q) | Clear => Some (clearQueue q) end.
Definition a_update (u : update) (a : Z * items) : Z * items :=
  match u with Add msg => a_add msg a | Filter eid => a_filter eid a | Clear => a_clear a end.
Definition apply_updates (us : list update) q : option EventQueue := foldl (fun o u => q ← o; apply_update u q) (Some q) us.
Definition a_updates (us : list update) (a : Z * items) : Z * items := foldl (fun a u => a_update u a) a us.

Lemma update_refines u q a : abs q a -> a.1 < maxSN -> exists q', apply_update u q = Some q' /\ abs q' (a_update u a).
Proof.
  intros Ha Hm. destruct u as [msg|eid|]; simpl; [by apply add_refines|eexists; split; [done|by apply filter_refines]|].
  eexists. split; [done|apply empty_refines].
Qed.
Lemma a_update_sn u a : 0 <= a.1 -> 0 <= (a_update u a).1 <= a.1 + 1.
Proof. intros Ha. destruct u; simpl; [unfold a_add; destruct (decide _); simpl; lia|lia|lia]. Qed.

Lemma updates_refine us :
  Z.of_nat (length us) <= maxSN ->
  exists q, apply_updates us emptyEventQueue = Some q /\ abs q (a_updates us (0, [])) /\
    (a_updates us (0, [])).1 <= Z.of_nat (length us).
Proof.
  induction us as [|u us IH] using rev_ind; intros Hl.
  - exists emptyEventQueue. split; [done|]. by split; [apply empty_refines|].
  - rewrite length_app in Hl. simpl in Hl. destruct IH as (q & Hq & Ha & Hb); [lia|]. unfold apply_updates, a_updates in *.
    rewrite !foldl_app, Hq, length_app. cbn [foldl length mbind option_bind]. destruct (update_refines u q _ Ha ltac:(lia)) as (q' & Hq' & Ha').
    exists q'. split; [done|]. split; [done|]. pose proof (a_update_sn u _ (proj1 (abs_max _ _ Ha))). lia.
Qed.

(** C20. The replicated state is a queue. After any updates, as long as the sequence
    numbers do not run out, recording, trimming and clearing have not failed, and
    what the state answers is what a list in the order of recording answers: reading
    from a number gives the events recorded from it on, oldest first, an event that
    is reported again while it is queued is recorded once, and the statistics give
    the number of events and their identifiers. *)
Theorem event_queue_refines us :
  Z.of_nat (length us) <= maxSN ->
  exists q, apply_updates us emptyEventQueue = Some q /\
    let a := a_updates us (0, []) in
    NoDup (ids a.2) /\ (forall sn, eqReadEvents sn q = a_read sn a) /\
    (eqReadStats q).1 = length a.2 /\ (eqReadStats q).2 ≡ₚ ids a.2.
Proof.
  intros Hl. destruct (updates_refine us Hl) as (q & Hq & Ha & _). exists q. split; [done|]. simpl.
  destruct (stats_refines q _ Ha) as (Hs1 & Hs2 & _). split; [apply (abs_ids _ _ Ha)|]. split; [|done].
  intros sn. by apply read_refines.
Qed.

Definition queue_witness : list update :=
  [Add (MkMessage 7 0 [1]); Add (MkMessage 9 0 [2]); Add (MkMessage 7 0 [3]); Filter 9; Add (MkMessage 9 0 [4])].
Lemma event_queue_refines_witness :
  exists q, apply_updates queue_witness emptyEventQueue = Some q /\
    let a := a_updates queue_witness (0, []) in
    NoDup (ids a.2) /\ (forall sn, eqReadEvents sn q = a_read sn a) /\
    (eqReadStats q).1 = length a.2 /\ (eqReadStats q).2 ≡ₚ ids a.2.
Proof. apply event_queue_refines. vm_compute. congruence. Defined.
End EventQueue.
