(* ===== verification/EventPoller.v ===== *)
(** The processes around the event queue (src/halon, HA/EventQueue/Process.hs): the
    rules that record an event, trim one and clear the queue, and the poller that
    sends events to the recovery coordinator. The answers of the replicated group
    are inputs; its updates and reads happen one at a time. *)

From stdpp Require Import gmap sorting.
From S2P Require Import Prelude EventQueue.
Local Open Scope Z_scope.
Set Default Proof Using "Type".

Module EventPoller.
Import EventQueue.

(** How a request to change the state ends: it is done, or the group refuses or
    stops answering, and then it may have been applied or not. *)
Inductive outcome := Done | NotDone (applied : bool).

Definition updateStateWith (f : EventQueue -> option EventQueue) (out : outcome) (q : EventQueue) : option (EventQueue * bool) :=
  match out with
  | Done => q' ← f q; Some (q', true)
  | NotDone true => q' ← f q; Some (q', false)
  | NotDone false => Some (q, false)
  end.

(** Insist until it works; [false] if the answers are used up before. *)
Fixpoint insist (f : EventQueue -> option EventQueue) (outs : list outcome) (q : EventQueue) : option (EventQueue * bool) :=
  match outs with
  | [] => Some (q, false)
  | out :: outs =>
      '(q', b) ← updateStateWith f out q;
      if (b : bool) then Some (q', true) else insist f outs q'
  end.

(** [pollSN] is what the poller of the coordinator asks for next, [toRC] what was
    sent to the coordinator. [offered] and [fresh] are for the statements: the events
    that were in the queue when the coordinator was spawned and those recorded since,
    and whether the queue was not cleared since. *)
Record State := MkState {
  queue : EventQueue;
  pollSN : option Z;
  toRC : list PersistMessage;
  replies : list (UUID * bool);
  trimAcks : list UUID;
  clearAcks : nat;
  offered : list PersistMessage;
  fresh : bool;
}.

Inductive event :=
  | RcSpawned
  | Poll
  | HaEvent (monitored : bool) (out : outcome) (msg : PersistMessage)
  | Trimming (outs : list outcome) (eid : UUID)
  | Clearing (outs : list outcome).

Definition rc_spawned (s : State) : State :=
  MkState (queue s) (Some 0) [] (replies s) (trimAcks s) (clearAcks s) (eqReadEvents 0 (queue s)).2 true.

Definition poll (s : State) : State :=
  match pollSN s with
  | None => s
  | Some sn =>
      let '(sn', ms) := eqReadEvents sn (queue s) in
      MkState (queue s) (Some sn') (toRC s ++ ms) (replies s) (trimAcks s) (clearAcks s) (offered s) (fresh s)
  end.

(** What recording added to the queue. *)
Definition recorded (q q' : EventQueue) (msg : PersistMessage) : list PersistMessage := if decide (eqSN q' = eqSN q) then [] else [msg].

Definition ha_event (monitored : bool) (out : outcome) (msg : PersistMessage) (s : State) : option State :=
  if monitored then
    '(q', b) ← updateStateWith (addSerializedEvent msg) out (queue s);
    Some (MkState q' (pollSN s) (toRC s) (replies s ++ [(persistMessageId msg, b)]) (trimAcks s) (clearAcks s)
      (offered s ++ recorded (queue s) q' msg) (fresh s))
  else
    Some (MkState (queue s) (pollSN s) (toRC s) (replies s ++ [(persistMessageId msg, false)]) (trimAcks s) (clearAcks s)
      (offered s) (fresh s)).

Definition trimming (outs : list outcome) (eid : UUID) (s : State) : option State :=
  '(q', b) ← insist (fun q => Some (filterEvent eid q)) outs (queue s);
  Some (MkState q' (pollSN s) (toRC s) (replies s) (if (b : bool) then trimAcks s ++ [eid] else trimAcks s) (clearAcks s)
    (offered s) (fresh s)).

Definition clearing (outs : list outcome) (s : State) : option State :=
  '(q', b) ← insist (fun q => Some (clearQueue q)) outs (queue s);
  Some (MkState q' (pollSN s) (toRC s) (replies s) (trimAcks s) (if (b : bool) then Datatypes.S (clearAcks s) else clearAcks s)
    (offered s) false).

Definition step (e : event) (s : State) : option State :=
  match e with
  | RcSpawned => Some (rc_spawned s)
  | Poll => Some (poll s)
  | HaEvent monitored out msg => ha_event monitored out msg s
  | Trimming outs eid => trimming outs eid s
  | Clearing outs => clearing outs s
  end.
Definition run (es : list event) (s : State) : option State := foldl (fun o e => s ← o; step e s) (Some s) es.

Definition init : State := MkState emptyEventQueue None [] [] [] 0 [] false.

(** * Invariant *)

(** The poller has sent, in the order of recording and once each, events before its
    number, among them all that are still in the queue. *)
Definition polled (s : State) (a : Z * items) : Prop :=
  forall sn, pollSN s = Some sn -> fresh s = true ->
    sn <= a.1 /\
    exists log sent : items,
      offered s = log.*2 /\ toRC s = sent.*2 /\ StronglySorted sn_lt log /\ (forall it, it ∈ log -> it.1 < a.1) /\
      a.2 `sublist_of` log /\ sent `sublist_of` filter (fun it => it.1 < sn) log /\
      (forall it, it ∈ a.2 -> it.1 < sn -> it ∈ sent).
Definition inv (s : State) : Prop := exists a, abs (queue s) a /\ polled s a.

Lemma sublist_filter_mono (P : Z * PersistMessage -> Prop) `{!forall it, Decision (P it)} (l k : items) :
  l `sublist_of` k -> filter P l `sublist_of` filter P k.
Proof.
  induction 1 as [|it l k Hs IH|it l k Hs IH]; [constructor|..].
  - rewrite !filter_cons. destruct (decide (P it)); [by constructor|done].
  - rewrite (filter_cons P it k). destruct (decide (P it)); [by constructor|done].
Qed.

Lemma rc_spawned_inv s : inv s -> inv (rc_spawned s).
Proof.
  intros (a & Ha & _). exists a. split; [done|]. intros sn [= <-] _. split; [apply (abs_max _ _ Ha)|]. exists a.2, [].
  cbn [rc_spawned offered toRC]. rewrite (read_refines 0 _ a Ha). cbn [a_read snd]. repeat split.
  - f_equal. apply filter_all, list.Forall_forall. intros it Hin. apply (abs_range _ _ Ha) in Hin. lia.
  - apply (abs_sorted _ _ Ha).
  - intros it Hin. apply (abs_range _ _ Ha) in Hin. lia.
  - done.
  - apply sublist_nil_l.
  - intros it Hin Hlt. apply (abs_range _ _ Ha) in Hin. lia.
Qed.

Lemma poll_inv s : inv s -> inv (poll s).
Proof.
  intros (a & Ha & Hp). unfold poll. destruct (pollSN s) as [sn|] eqn:Hsn; [|by exists a].
  rewrite (read_refines sn _ a Ha). exists a. split; [done|]. intros sn' [= <-] Hf. cbn [pollSN fresh offered toRC] in *. split; [lia|].
  destruct (Hp sn Hsn Hf) as (Hle & log & sent & Ho & Ht & Hs & Hlt & Hsub & Hsent & Hall).
  exists log, (sent ++ filter (fun it => sn <= it.1) a.2). rewrite fmap_app, Ht. repeat split; try done.
  - assert (Hlog : filter (fun it => it.1 < a.1) log = log) by by apply filter_all, list.Forall_forall.
    rewrite Hlog, <- (sorted_split sn log Hs). apply sublist_app; [done|]. by apply sublist_filter_mono.
  - intros it Hin _. apply elem_of_app. destruct (decide (it.1 < sn)) as [Hl|Hl]; [left; by apply Hall|].
    right. apply list_elem_of_filter. split; [lia|done].
Qed.

Lemma polled_sublist s s' a a' :
  pollSN s' = pollSN s -> toRC s' = toRC s -> offered s' = offered s -> fresh s' = fresh s ->
  a'.1 = a.1 -> a'.2 `sublist_of` a.2 -> polled s a -> polled s' a'.
Proof.
  intros H1 H2 H3 H4 H5 H6 Hp sn. rewrite H1, H2, H3, H4, H5. intros Hsn Hf.
  destruct (Hp sn Hsn Hf) as (Hle & log & sent & Ho & Ht & Hs & Hlt & Hsub & Hsent & Hall). split; [done|]. exists log, sent.
  repeat split; try done; [by etrans|]. intros it Hin. apply Hall. by eapply elem_of_sublist.
Qed.

Lemma add_success msg q q' a : abs q a -> addSerializedEvent msg q = Some q' -> abs q' (a_add msg a).
Proof.
  intros Ha Hq. destruct (decide (a.1 < maxSN)) as [Hlt|Hge].
  - destruct (add_refines msg q a Ha Hlt) as (q1 & Hq1 & Ha1). congruence.
  - unfold addSerializedEvent in Hq. destruct (eqMap q !! persistMessageId msg) as [p|] eqn:Hl.
    + injection Hq as <-. unfold a_add. rewrite decide_True; [done|]. by apply (abs_member q a), mk_is_Some with p.
    + unfold succ_sn in Hq. pose proof (abs_max _ _ Ha). rewrite decide_True in Hq; [done|]. rewrite (abs_sn _ _ Ha). lia.
Qed.
Lemma recorded_spec msg q q' a :
  abs q a -> abs q' (a_add msg a) -> recorded q q' msg = if decide (persistMessageId msg ∈ ids a.2) then [] else [msg].
Proof.
  intros Ha Ha'. unfold recorded. rewrite (abs_sn _ _ Ha), (abs_sn _ _ Ha'). unfold a_add.
  destruct (decide (_ ∈ _)); simpl; [by rewrite decide_True|]. rewrite decide_False; [done|lia].
Qed.

Lemma added_inv msg q' s s' :
  (exists a, abs (queue s) a /\ polled s a /\ abs q' (a_add msg a)) ->
  queue s' = q' -> pollSN s' = pollSN s -> toRC s' = toRC s -> offered s' = offered s ++ recorded (queue s) q' msg -> fresh s' = fresh s ->
  inv s'.
Proof.
  intros (a & Ha & Hp & Ha') Hq H1 H2 H3 H4. exists (a_add msg a). rewrite Hq. split; [done|].
  rewrite (recorded_spec msg _ _ a Ha Ha') in H3. unfold a_add. destruct (decide _) as [Hin|Hn].
  - rewrite app_nil_r in H3. by apply (polled_sublist s s' a a).
  - intros sn. rewrite H1, H2, H3, H4. intros Hsn Hf. cbn [fst snd].
    destruct (Hp sn Hsn Hf) as (Hle & log & sent & Ho & Ht & Hs & Hlt & Hsub & Hsent & Hall). split; [lia|].
    exists (log ++ [(a.1, msg)]), sent. rewrite fmap_app, Ho. repeat split; try done.
    + by apply sorted_snoc.
    + intros it [Hin|Hin]%elem_of_app; [apply Hlt in Hin; lia|]. apply list_elem_of_singleton in Hin as ->. simpl. lia.
    + by apply sublist_app.
    + rewrite list.filter_app. by apply sublist_inserts_r.
    + intros it [Hin|Hin]%elem_of_app Hl; [by apply Hall|]. apply list_elem_of_singleton in Hin as ->. simpl in Hl. lia.
Qed.

Lemma ha_event_inv monitored out msg s s' : ha_event monitored out msg s = Some s' -> inv s -> inv s'.
Proof.
  unfold ha_event. intros He (a & Ha & Hp). destruct monitored; [|injection He as <-; by exists a].
  destruct out as [|[|]]; cbn [updateStateWith] in He.
  - destruct (addSerializedEvent msg (queue s)) as [q'|] eqn:Hq; [|done]. injection He as <-.
    apply (added_inv msg q' s); [|done..]. exists a. by pose proof (add_success _ _ _ _ Ha Hq).
  - destruct (addSerializedEvent msg (queue s)) as [q'|] eqn:Hq; [|done]. injection He as <-.
    apply (added_inv msg q' s); [|done..]. exists a. by pose proof (add_success _ _ _ _ Ha Hq).
  - injection He as <-. exists a. split; [done|]. apply (polled_sublist s _ a a); simpl; try done.
    unfold recorded. rewrite decide_True by done. apply app_nil_r.
Qed.

Lemma insist_filter outs eid q q' b a :
  insist (fun q => Some (filterEvent eid q)) outs q = Some (q', b) -> abs q a ->
  exists a', abs q' a' /\ a'.1 = a.1 /\ a'.2 `sublist_of` a.2 /\ (b = true -> eid ∉ ids a'.2) /\
    (forall id, id <> eid -> id ∈ ids a.2 -> id ∈ ids a'.2).
Proof.
  revert q a. induction outs as [|out outs IH]; intros q a Hi Ha; cbn [insist] in Hi.
  { injection Hi as <- <-. by exists a. }
  assert (Hids : forall id, id <> eid -> id ∈ ids a.2 -> id ∈ ids (a_filter eid a).2).
  { intros id Hne. rewrite !elem_of_ids. intros (sn & m & Hin & <-). exists sn, m. split; [|done]. by apply list_elem_of_filter. }
  destruct out as [|[|]]; cbn [updateStateWith mbind option_bind] in Hi.
  - injection Hi as <- <-. exists (a_filter eid a). split; [by apply filter_refines|]. split; [done|]. split; [apply sublist_filter|].
    split; [|done]. intros _. rewrite elem_of_ids. intros (sn & m & [Hne _]%list_elem_of_filter & Hid). done.
  - destruct (IH _ _ Hi (filter_refines eid q a Ha)) as (a' & Ha' & Hn & Hs & Hb & Hk). exists a'. split; [done|]. split; [done|].
    split; [etrans; [exact Hs|apply sublist_filter]|]. split; [done|]. intros id Hne Hin. apply Hk; [done|]. by apply Hids.
  - by apply (IH q).
Qed.

Lemma trimming_inv outs eid s s' : trimming outs eid s = Some s' -> inv s -> inv s'.
Proof.
  unfold trimming. intros He (a & Ha & Hp). destruct (insist _ outs (queue s)) as [[q' b]|] eqn:Hi; [|done]. injection He as <-.
  destruct (insist_filter _ _ _ _ _ _ Hi Ha) as (a' & Ha' & Hn & Hs & _). exists a'. split; [done|]. by apply (polled_sublist s _ a a').
Qed.

Lemma insist_clear outs q q' b a :
  insist (fun q => Some (clearQueue q)) outs q = Some (q', b) -> abs q a ->
  (exists a', abs q' a') /\ (b = true -> q' = emptyEventQueue).
Proof.
  revert q a. induction outs as [|out outs IH]; intros q a Hi Ha; cbn [insist] in Hi.
  { injection Hi as <- <-. split; [by exists a|done]. }
  destruct out as [|[|]]; cbn [updateStateWith mbind option_bind] in Hi.
  - injection Hi as <- <-. split; [|done]. exists (0, []). apply empty_refines.
  - by apply (IH _ (0, []) Hi), empty_refines.
  - by apply (IH q a).
Qed.
Lemma clearing_inv outs s s' : clearing outs s = Some s' -> inv s -> inv s'.
Proof.
  unfold clearing. intros He (a & Ha & Hp). destruct (insist _ outs (queue s)) as [[q' b]|] eqn:Hi; [|done]. injection He as <-.
  destruct (insist_clear _ _ _ _ _ Hi Ha) as [[a' Ha'] _]. by exists a'.
Qed.

Lemma poller_step_inv e s s' : step e s = Some s' -> inv s -> inv s'.
Proof.
  destruct e as [| |mon out msg|outs eid|outs]; simpl.
  - intros [= <-]. apply rc_spawned_inv.
  - intros [= <-]. apply poll_inv.
  - apply ha_event_inv.
  - apply trimming_inv.
  - apply clearing_inv.
Qed.

Lemma run_snoc es e s : run (es ++ [e]) s = s' ← run es s; step e s'.
Proof. unfold run. by rewrite foldl_app. Qed.
Lemma init_inv : inv init.
Proof. exists (0, []). split; [apply empty_refines|]. by intros sn. Qed.
Lemma run_inv es s s' : run es s = Some s' -> inv s -> inv s'.
Proof.
  revert s'. induction es as [|e es IH] using rev_ind; intros s' Hr Hi; [by injection Hr as <-|].
  rewrite run_snoc in Hr. destruct (run es s) as [s1|] eqn:H1; [|done]. simpl in Hr. eapply poller_step_inv; [done|]. by apply IH.
Qed.

(** * Acknowledged events *)

Definition queued (id : UUID) (s : State) : Prop := is_Some (eqMap (queue s) !! id).
(** Leaves the event in the queue. *)
Definition keeps (id : UUID) (e : event) : Prop :=
  match e with Trimming _ eid => eid <> id | Clearing _ => False | _ => True end.

Lemma add_keeps id msg q q' : addSerializedEvent msg q = Some q' -> is_Some (eqMap q !! id) -> is_Some (eqMap q' !! id).
Proof.
  unfold addSerializedEvent. destruct (eqMap q !! persistMessageId msg) eqn:Hl; [by intros [= <-]|].
  destruct (succ_sn (eqSN q)); [|done]. intros [= <-] Hq. simpl. apply lookup_insert_is_Some. destruct (decide (persistMessageId msg = id)); auto.
Qed.
Lemma add_queues msg q q' : addSerializedEvent msg q = Some q' -> is_Some (eqMap q' !! persistMessageId msg).
Proof.
  unfold addSerializedEvent. destruct (eqMap q !! persistMessageId msg) eqn:Hl; [intros [= <-]; by eexists|].
  destruct (succ_sn (eqSN q)); [|done]. intros [= <-]. simpl. rewrite lookup_insert_eq. by eexists.
Qed.

Lemma poll_queue s : queue (poll s) = queue s.
Proof. unfold poll. by destruct (pollSN s). Qed.

Lemma step_keeps id e s s' : step e s = Some s' -> inv s -> keeps id e -> queued id s -> queued id s'.
Proof.
  intros Hs (a & Ha & _) Hk Hq. destruct e as [| |mon out msg|outs eid|outs]; simpl in Hs, Hk; [..|done].
  - by injection Hs as <-.
  - injection Hs as <-. unfold queued. by rewrite poll_queue.
  - unfold ha_event in Hs. destruct mon; [|by injection Hs as <-].
    destruct out as [|[|]]; cbn [updateStateWith mbind option_bind] in Hs; [..|by injection Hs as <-];
      destruct (addSerializedEvent msg (queue s)) eqn:Hadd; try done; injection Hs as <-; by eapply add_keeps.
  - unfold trimming in Hs. destruct (insist _ outs (queue s)) as [[q' b]|] eqn:Hi; [|done]. injection Hs as <-.
    destruct (insist_filter _ _ _ _ _ _ Hi Ha) as (a' & Ha' & _ & _ & _ & Hids). unfold queued in *. simpl.
    apply (abs_member _ a'); [done|]. apply Hids; [congruence|]. by apply (abs_member _ a) in Hq.
Qed.
Lemma run_keeps id es s s' : run es s = Some s' -> inv s -> Forall (keeps id) es -> queued id s -> queued id s'.
Proof.
  revert s'. induction es as [|e es IH] using rev_ind; intros s' Hr Hi Hk Hq; [by injection Hr as <-|].
  rewrite run_snoc in Hr. destruct (run es s) as [s1|] eqn:H1; [|done]. simpl in Hr. apply Forall_app in Hk as [Hk Hk'].
  inversion_clear Hk'. eapply step_keeps; [done|by eapply run_inv|done|]. by apply IH.
Qed.

Lemma poll_sends_all s id m sn :
  inv s -> fresh s = true -> is_Some (pollSN s) -> eqMap (queue s) !! id = Some (m, sn) -> m ∈ toRC (poll s).
Proof.
  intros (a & Ha & Hp) Hf [p Hsn] Hl. apply (abs_map _ _ Ha) in Hl as [Hin _].
  destruct (Hp p Hsn Hf) as (_ & log & sent & _ & Ht & _ & _ & _ & _ & Hall). unfold poll. rewrite Hsn, (read_refines p _ a Ha). simpl.
  apply elem_of_app. destruct (decide (sn < p)) as [Hlt|Hge].
  - left. rewrite Ht. apply (list_elem_of_fmap_2 snd _ (sn, m)). by apply Hall.
  - right. apply (list_elem_of_fmap_2 snd _ (sn, m)). apply list_elem_of_filter. split; [simpl; lia|done].
Qed.

(** C13. What the coordinator is sent. As long as the queue is not cleared while a
    coordinator lives, it gets events from those that were queued when it was spawned
    and those recorded since, in the order of recording and each at most once; and
    with the next poll it has had every event that is in the queue. *)
Theorem events_sent_once_in_order es s :
  run es init = Some s -> fresh s = true -> is_Some (pollSN s) ->
  toRC s `sublist_of` offered s /\
  forall id m sn, eqMap (queue s) !! id = Some (m, sn) -> m ∈ toRC (poll s).
Proof.
  intros Hr Hf Hp. pose proof (run_inv _ _ _ Hr init_inv) as Hi. split; [|intros id m sn; by apply poll_sends_all].
  destruct Hi as (a & _ & Hpol), Hp as [p Hp]. destruct (Hpol p Hp Hf) as (_ & log & sent & -> & -> & _ & _ & _ & Hsent & _).
  apply fmap_sublist. etrans; [exact Hsent|apply sublist_filter].
Qed.

Definition m1 : PersistMessage := MkMessage 1 0 [].
Definition m2 : PersistMessage := MkMessage 2 0 [].
Definition m3 : PersistMessage := MkMessage 3 0 [].
Definition witness_events : list event :=
  [HaEvent true Done m1; RcSpawned; HaEvent true (NotDone true) m2; Poll; Trimming [NotDone true; Done] 1; HaEvent true Done m2; HaEvent true Done m3].
Definition witness_state : State := default init (run witness_events init).
Lemma events_sent_once_in_order_witness :
  toRC witness_state `sublist_of` offered witness_state /\
  forall id m sn, eqMap (queue witness_state) !! id = Some (m, sn) -> m ∈ toRC (poll witness_state).
Proof. apply (events_sent_once_in_order witness_events); [vm_compute; reflexivity..|]. by eexists. Defined.

(** C14. An event that was acknowledged to the satellite that reported it is sent to
    the coordinator: it stays in the queue whatever happens, coordinators that die and
    are spawned again included, until it is trimmed or the queue is cleared, and a
    poll for a coordinator that has had no clearing sends it. *)
Theorem acknowledged_event_sent es s0 monitored out msg s1 es' s2 :
  run es init = Some s0 -> ha_event monitored out msg s0 = Some s1 ->
  replies s1 = replies s0 ++ [(persistMessageId msg, true)] ->
  run es' s1 = Some s2 -> Forall (keeps (persistMessageId msg)) es' -> fresh s2 = true -> is_Some (pollSN s2) ->
  exists m, m ∈ toRC (poll s2) /\ persistMessageId m = persistMessageId msg.
Proof.
  intros H0 H1 Hrep H2 Hk Hf Hp. pose proof (run_inv _ _ _ H0 init_inv) as Hi0.
  pose proof (ha_event_inv _ _ _ _ _ H1 Hi0) as Hi1. pose proof (run_inv _ _ _ H2 Hi1) as Hi2.
  assert (Hq : queued (persistMessageId msg) s1).
  { unfold ha_event in H1. destruct monitored; [|injection H1 as <-; simpl in Hrep; by apply app_inj_2 in Hrep as [_ ?]].
    destruct out as [|[|]]; cbn [updateStateWith mbind option_bind] in H1.
    - destruct (addSerializedEvent msg (queue s0)) eqn:Hadd; [|done]. injection H1 as <-. by eapply add_queues.
    - destruct (addSerializedEvent msg (queue s0)); [|done]. injection H1 as <-. simpl in Hrep. by apply app_inj_2 in Hrep as [_ ?].
    - injection H1 as <-. simpl in Hrep. by apply app_inj_2 in Hrep as [_ ?]. }
  destruct (run_keeps _ _ _ _ H2 Hi1 Hk Hq) as [[m sn] Hl]. exists m. split; [by eapply poll_sends_all|].
  destruct Hi2 as (a & Ha & _). by apply (abs_map _ _ Ha) in Hl as [_ ?].
Qed.

Lemma acknowledged_event_sent_witness :
  let s0 := default init (run [HaEvent true Done m1; RcSpawned; Poll] init) in
  let s1 := default init (ha_event true Done m2 s0) in
  let s2 := default init (run [RcSpawned; Trimming [Done] 1; HaEvent false Done m3] s1) in
  exists m, m ∈ toRC (poll s2) /\ persistMessageId m = 2.
Proof.
  intros s0 s1 s2.
  apply (acknowledged_event_sent [HaEvent true Done m1; RcSpawned; Poll] s0 true Done m2 s1 [RcSpawned; Trimming [Done] 1; HaEvent false Done m3] s2);
    [vm_compute; reflexivity..|repeat constructor; vm_compute; congruence|vm_compute; reflexivity|vm_compute; by eexists].
Defined.

(** * Clearing *)

(** [k] events that were recorded first after a clearing are passed over by a poller
    that asks from [k] on; [toRC0] is what had been sent before. *)
Definition skipped (toRC0 : list PersistMessage) (msgs : items) (s : State) : Prop :=
  exists a p new, abs (queue s) a /\ pollSN s = Some p /\ toRC s = toRC0 ++ new /\
    (forall it, it ∈ msgs -> it ∈ a.2 /\ it.1 < p /\ it.2 ∉ new).

Definition records_or_polls (e : event) : Prop := match e with Poll | HaEvent _ _ _ => True | _ => False end.

Lemma a_add_elem msg a it : it ∈ a.2 -> it ∈ (a_add msg a).2.
Proof. intros Hin. unfold a_add. destruct (decide _); [done|]. apply elem_of_app. by left. Qed.

Lemma step_skipped toRC0 msgs e s s' :
  step e s = Some s' -> records_or_polls e -> skipped toRC0 msgs s -> skipped toRC0 msgs s'.
Proof.
  intros Hs He (a & p & new & Ha & Hp & Ht & Hall). destruct e as [| |mon out msg|outs eid|outs]; simpl in Hs, He; try done.
  - injection Hs as <-. unfold poll. rewrite Hp, (read_refines p _ a Ha).
    exists a, a.1, (new ++ (filter (fun it => p <= it.1) a.2).*2). simpl. split; [done|]. split; [done|].
    split; [by rewrite Ht, app_assoc|]. intros [sn m] Hin. destruct (Hall _ Hin) as (Hin' & Hlt & Hn). split; [done|].
    split; [by apply (abs_range _ _ Ha)|]. rewrite elem_of_app. intros [?|Hf]; [done|].
    apply list_elem_of_fmap in Hf as ([sn' m'] & Hm & [Hle Hin2]%list_elem_of_filter). simpl in *. subst m'.
    destruct (abs_unique _ a sn m sn' m Ha Hin' Hin2 eq_refl) as [<- _]. lia.
  - unfold ha_event in Hs. destruct mon; [|injection Hs as <-; by exists a, p, new].
    destruct out as [|[|]]; cbn [updateStateWith mbind option_bind] in Hs; [..|injection Hs as <-; by exists a, p, new];
      destruct (addSerializedEvent msg (queue s)) as [q'|] eqn:Hadd; try done; injection Hs as <-;
      exists (a_add msg a), p, new; (split; [by apply (add_success msg (queue s))|]); (split; [done|]); (split; [done|]);
      intros it Hin; destruct (Hall it Hin) as (Hin' & ? & ?); (split; [by apply a_add_elem|done]).
Qed.
Lemma run_skipped toRC0 msgs es s s' :
  run es s = Some s' -> Forall records_or_polls es -> skipped toRC0 msgs s -> skipped toRC0 msgs s'.
Proof.
  revert s'. induction es as [|e es IH] using rev_ind; intros s' Hr Hk Hq; [by injection Hr as <-|].
  rewrite run_snoc in Hr. destruct (run es s) as [s1|] eqn:H1; [|done]. simpl in Hr. apply Forall_app in Hk as [Hk Hk'].
  inversion_clear Hk'. eapply step_skipped; [done|done|]. by apply IH.
Qed.
Lemma run_app es es' s : run (es ++ es') s = s' ← run es s; run es' s'.
Proof.
  unfold run. rewrite foldl_app. destruct (foldl _ (Some s) es); [done|]. simpl. induction es'; [done|]. simpl. done.
Qed.

Lemma cleared_start msg s p s1 :
  pollSN s = Some p -> 0 < p -> run [Clearing [Done]; HaEvent true Done msg; Poll] s = Some s1 -> skipped (toRC s) [(0, msg)] s1.
Proof.
  intros Hp Hpos. destruct (add_refines msg emptyEventQueue (0, []) empty_refines) as (q' & Hq' & Ha'); [by unfold maxSN|].
  unfold run. cbn [foldl mbind option_bind step clearing insist updateStateWith]. unfold ha_event. cbn [updateStateWith queue mbind option_bind].
  unfold clearQueue. rewrite Hq'. cbn [mbind option_bind]. intros [= <-]. unfold poll. cbn [pollSN queue toRC]. rewrite Hp.
  rewrite (read_refines p _ _ Ha'). change (a_add msg (0, [])) with (1, [(0, msg)]) in *. cbn [a_read fst snd].
  rewrite list.filter_cons_False by (simpl; lia). exists (1, [(0, msg)]), 1, []. split; [done|]. split; [done|]. split; [done|].
  intros it ->%list_elem_of_singleton. split; [by left|]. split; [done|apply not_elem_of_nil].
Qed.

(** Clearing starts the numbering of events anew, but the poller of a living
    coordinator goes on with its old number. An event that is recorded first after a
    clearing, when the coordinator had been sent something before, is acknowledged
    and stays in the queue, but that coordinator is never sent it, however many
    events follow: whoever clears the queue has to restart the coordinator. *)
Theorem event_after_clearing_skipped s p msg es' s' :
  pollSN s = Some p -> 0 < p ->
  Forall records_or_polls es' ->
  run ([Clearing [Done]; HaEvent true Done msg; Poll] ++ es') s = Some s' ->
  queued (persistMessageId msg) s' /\ exists new, toRC s' = toRC s ++ new /\ msg ∉ new.
Proof.
  intros Hp Hpos Hes Hr'. rewrite run_app in Hr'.
  destruct (run [Clearing [Done]; HaEvent true Done msg; Poll] s) as [s1|] eqn:H1; [|done]. cbn [mbind option_bind] in Hr'.
  destruct (run_skipped (toRC s) [(0, msg)] es' s1 s' Hr' Hes) as (a & p' & new & Ha & _ & Ht & Hall); [by eapply cleared_start|].
  destruct (Hall (0, msg)) as (Hin & _ & Hn); [by left|]. split; [|by exists new].
  apply (abs_member _ a); [done|]. apply elem_of_ids. by exists 0, msg.
Qed.

Lemma event_after_clearing_skipped_witness :
  let s := default init (run [RcSpawned; HaEvent true Done m1; Poll] init) in
  let s' := default init (run ([Clearing [Done]; HaEvent true Done m2; Poll] ++ [HaEvent true Done m3; Poll]) s) in
  queued 2 s' /\ exists new, toRC s' = toRC s ++ new /\ m2 ∉ new.
Proof.
  intros s s'. apply (event_after_clearing_skipped s 1 m2 [HaEvent true Done m3; Poll] s');
    [vm_compute; reflexivity..|by repeat constructor|vm_compute; reflexivity].
Defined.
End EventPoller.
