(* ===== verification/CommandPort.v ===== *)
(** The replicated state (src/replicated-log, Control/Distributed/State.hs): typed
    commands on top of the log. A command carries what the replicas do to the state
    and an identifier, by which the log compares commands: a client is told that its
    command passed when a command with its identifier did. *)

From stdpp Require Import gmap.
From S2P Require Import Prelude.
Local Open Scope Z_scope.
Set Default Proof Using "Type".

Module CommandPort.

Abbreviation ProcessId := Z.
Record CommandId := MkCommandId { commandIdCounter : Z; commandIdProcessId : ProcessId }.
#[export] Instance commandId_eq_dec : EqDecision CommandId.
Proof. solve_decision. Defined.

Section State.
Context {S A : Type}.

(** A closure gives the new state and the answers it sends. *)
Abbreviation closure := (S -> S * list (ProcessId * A)).
Record Command := MkCommand { commandId : CommandId; commandClosure : closure }.
(** [instance Eq (Command s)] *)
Definition command_eqb (c d : Command) : bool := bool_decide (commandId c = commandId d).

Definition selectWrapper (client : ProcessId) (f : S -> A) (s : S) : S * list (ProcessId * A) := (s, [(client, f s)]).
Definition logNextState (s : S) (c : Command) : S * list (ProcessId * A) := commandClosure c s.

(** * Ports *)

(** The counters of the ports, in the order in which they were made; [None] once the
    last number was used: the reference then has the error of [succ]. *)
Definition succ64 (i : Z) : option Z := if decide (i = 2 ^ 64 - 1) then None else Some (i + 1).
Abbreviation ports := (list (option Z)).
Definition newPort (ps : ports) : ports := ps ++ [Some 0].
Definition nextCommandId (port : nat) (self : ProcessId) (ps : ports) : option (CommandId * ports) :=
  match ps !! port with
  | Some (Some i) => Some (MkCommandId i self, <[port := succ64 i]> ps)
  | _ => None
  end.

(** What is handed to the log; [self] is the calling process in [update], and a
    process made for the call in [select]. *)
Definition update (port : nat) (self : ProcessId) (f : S -> S) (ps : ports) : option (Command * ports) :=
  '(cid, ps') ← nextCommandId port self ps; Some (MkCommand cid (fun s => (f s, [])), ps').
Definition select (port : nat) (self : ProcessId) (f : S -> A) (ps : ports) : option (Command * ports) :=
  '(cid, ps') ← nextCommandId port self ps; Some (MkCommand cid (selectWrapper self f), ps').

(** * Calls of many processes *)

Inductive call :=
  | NewPort
  | Update (port : nat) (self : ProcessId) (f : S -> S)
  | Select (port : nat) (self : ProcessId) (f : S -> A).
Definition user (c : call) : option (ProcessId * nat) :=
  match c with NewPort => None | Update port self _ | Select port self _ => Some (self, port) end.

(** A process uses one port. *)
Definition one_port (cs : list call) : Prop :=
  forall c c' pid p p', c ∈ cs -> c' ∈ cs -> user c = Some (pid, p) -> user c' = Some (pid, p') -> p = p'.

Definition do_call (c : call) (st : ports * list Command) : option (ports * list Command) :=
  let '(ps, log) := st in
  match c with
  | NewPort => Some (newPort ps, log)
  | Update port self f => '(cmd, ps') ← update port self f ps; Some (ps', log ++ [cmd])
  | Select port self f => '(cmd, ps') ← select port self f ps; Some (ps', log ++ [cmd])
  end.
Definition calls (cs : list call) : option (ports * list Command) := foldl (fun o c => st ← o; do_call c st) (Some ([], [])) cs.

Lemma calls_snoc cs c : calls (cs ++ [c]) = st ← calls cs; do_call c st.
Proof. unfold calls. by rewrite foldl_app. Qed.

(** Every identifier was made by a call, with a number below the counter of its port. *)
Definition ids_below (cs : list call) (ps : ports) (log : list Command) : Prop :=
  forall cmd, cmd ∈ log -> exists c port o, c ∈ cs /\ user c = Some (commandIdProcessId (commandId cmd), port) /\
    ps !! port = Some o /\ (forall i, o = Some i -> commandIdCounter (commandId cmd) < i).

Definition issues (c : call) (ps : ports) (cmd : Command) (ps' : ports) : Prop :=
  exists port i, user c = Some (commandIdProcessId (commandId cmd), port) /\ commandIdCounter (commandId cmd) = i /\
    ps !! port = Some (Some i) /\ ps' = <[port := succ64 i]> ps.

Lemma do_call_issues c ps log ps' log' :
  do_call c (ps, log) = Some (ps', log') ->
  (c = NewPort /\ ps' = newPort ps /\ log' = log) \/ exists cmd, log' = log ++ [cmd] /\ issues c ps cmd ps'.
Proof.
  destruct c as [|port self f|port self f]; simpl.
  - intros [= <- <-]. by left.
  - unfold update, nextCommandId. destruct (ps !! port) as [[i|]|] eqn:Hp; try done. intros [= <- <-]. right. eexists. split; [done|].
    by exists port, i.
  - unfold select, nextCommandId. destruct (ps !! port) as [[i|]|] eqn:Hp; try done. intros [= <- <-]. right. eexists. split; [done|].
    by exists port, i.
Qed.

Lemma succ64_lt i j : succ64 i = Some j -> i < j.
Proof. unfold succ64. destruct (decide _); [done|]. intros [= <-]. lia. Qed.

Lemma calls_ids cs ps log :
  calls cs = Some (ps, log) -> one_port cs -> ids_below cs ps log /\ NoDup (commandId <$> log).
Proof.
  revert ps log. induction cs as [|c cs IH] using rev_ind; intros ps log Hc Ho.
  { injection Hc as <- <-. split; [by intros cmd ?%elem_of_nil|constructor]. }
  rewrite calls_snoc in Hc. destruct (calls cs) as [[ps0 log0]|] eqn:Hc0; [|done]. cbn [mbind option_bind] in Hc.
  destruct (IH ps0 log0 eq_refl) as [Hb Hn].
  { intros d d' pid p p' Hd Hd'. apply Ho; apply elem_of_app; by left. }
  apply do_call_issues in Hc as [(-> & -> & ->)|(cmd & -> & port & i & Hu & Hi & Hp & ->)].
  - split; [|done]. intros cmd Hin. destruct (Hb cmd Hin) as (d & port & o & Hd & Hu & Hl & Hlt). exists d, port, o.
    split; [apply elem_of_app; by left|]. split; [done|]. split; [by apply lookup_app_l_Some|done].
  - split.
    + intros cmd' [Hin|Hin]%elem_of_app.
      * destruct (Hb cmd' Hin) as (d & port' & o & Hd & Hu' & Hl & Hlt). destruct (decide (port' = port)) as [->|Hne].
        -- exists d, port, (succ64 i). split; [apply elem_of_app; by left|]. split; [done|].
           split; [apply list_lookup_insert_eq; by eapply lookup_lt_Some|]. intros j Hj%succ64_lt. rewrite Hp in Hl. injection Hl as <-.
           specialize (Hlt i eq_refl). lia.
        -- exists d, port', o. split; [apply elem_of_app; by left|]. split; [done|]. by rewrite list_lookup_insert_ne.
      * apply list_elem_of_singleton in Hin as ->. exists c, port, (succ64 i). split; [apply elem_of_app; right; by left|].
        split; [done|]. split; [apply list_lookup_insert_eq; by eapply lookup_lt_Some|]. rewrite Hi. by intros j Hj%succ64_lt.
    + rewrite fmap_app. apply list.NoDup_app. split; [done|]. split; [|apply NoDup_singleton].
      intros cid (cmd' & -> & Hin)%list_elem_of_fmap Heq%list_elem_of_singleton.
      destruct (Hb cmd' Hin) as (d & port' & o & Hd & Hu' & Hl & Hlt). rewrite Heq in Hu'.
      assert (port' = port) as ->. { eapply (Ho d c); [apply elem_of_app; by left|apply elem_of_app; right; by left|done|done]. }
      rewrite Hp in Hl. injection Hl as <-. specialize (Hlt i eq_refl). rewrite Heq in Hlt. lia.
Qed.
End State.
Arguments Command S A : clear implicits.
Arguments call S A : clear implicits.

(** C27. If no process uses more than one port, commands are equal for the log only if
    they are the same command: whatever the processes call, and however their calls
    interleave, the identifiers that they put into the log are all different, also
    those of the processes that are made for single queries. So a client is never
    told that its command passed because of another one. *)
Theorem command_identity {S A} (cs : list (call S A)) ps log :
  calls cs = Some (ps, log) -> one_port cs ->
  forall i j c d, log !! i = Some c -> log !! j = Some d -> command_eqb c d = true -> i = j.
Proof.
  intros Hc Ho i j c d Hi Hj He%bool_decide_eq_true. destruct (calls_ids cs ps log Hc Ho) as [_ Hn].
  eapply (NoDup_lookup _ i j (commandId c)); [done|by rewrite list_lookup_fmap, Hi|]. by rewrite list_lookup_fmap, Hj, He.
Qed.

Definition witness_calls : list (call Z Z) :=
  [NewPort; NewPort; Update 0 10 (Z.add 1); Update 1 11 (Z.mul 2); Select 0 12 (fun s => s); Update 0 10 (Z.add 5)].
Definition witness_log : list (Command Z Z) := default [] (snd <$> calls witness_calls).
Lemma command_identity_witness :
  length witness_log = 4%nat /\ forall i j c d, witness_log !! i = Some c -> witness_log !! j = Some d -> command_eqb c d = true -> i = j.
Proof.
  split; [reflexivity|]. apply (command_identity witness_calls (default [] (fst <$> calls witness_calls)) witness_log); [reflexivity|].
  intros c c' pid p p' Hc Hc'. unfold witness_calls in Hc, Hc'. rewrite !elem_of_cons, elem_of_nil in Hc, Hc'.
  destruct_or! Hc; destruct_or! Hc'; subst; simpl; congruence.
Defined.

(** Two ports of one process give the same identifiers, as the comment says. *)
Lemma two_ports_collide :
  match @calls Z Z [NewPort; NewPort; Update 0 10 (Z.add 1); Update 1 10 (Z.mul 2)] with
  | Some (_, [c; d]) => command_eqb c d = true
  | _ => False
  end.
Proof. reflexivity. Qed.
End CommandPort.
